(* ===== verification/_CoqProject ===== *)
-Q . S2P
Prelude.v
Memory.v
SepLogic.v
Arrays.v
OrderedSet.v
BinTree.v
BinHeap.v
DictTree.v
AVLSpec.v
AVLTree.v
AVLProof.v
AVLErase.v
AVLJoin.v
AVLSet.v
RBSpec.v
RBTree.v
RBProof.v
RBInsert.v
RBErase.v
RBDelete.v
RBJoin.v
RBSplit.v
RBSet.v
GsatMap.v
SplayModel.v
SplayProof.v
SplaySet.v
BTreeModel.v
BTreeSpec.v
BTreeProof.v
BTreeInsert.v
BTreeDelete.v
BTreeSet.v
GsatModel.v
GsatSpec.v
GsatProof.v
GsatBuild.v
GsatTree.v
GsatCheck.v
GsatSet.v
ListSet.v
ListProof.v
ListInstance.v
Prog.v
Threads.v
CANode.v
CATree.v
SimpleRecMgr.v
CASpec.v
CAShape.v
CAProtocol.v
CASteps.v
CARules.v
CALock.v
CAWalk.v
CAThreads.v
CAJoin.v
CAOps.v
CAProof.v
CAAdapter.v
CASet.v
CALinear.v
