(* ===== verification/Prelude.v ===== *)
(** * Search trees of the Concurrent-AVL repository: a verification library

    ** The program

    The repository is a benchmark for concurrent dictionaries.  Its own core is
    the contention-adapting search tree of [cpp/ds/winblad_catree]: a tree of
    route nodes whose leaves are base nodes, each with a lock, lock statistics
    and a sequential ordered set.  An operation descends to a base node, locks
    it, works on its set and then adapts: a base node whose lock is contended is
    split in two, one that is idle is joined with its neighbour.  The ordered
    sets are an AVL tree, a sorted linked list and a red-black tree.  Next to it
    stands [cpp/gsat/ds], a header library of sequential search trees that the
    benchmark compares; the splay tree, the B-tree and the self-adjusting trees,
    which rebuild a subtree when it has been accessed often enough, are modelled
    here.

    ** How the code is modelled

    - [Memory]: the C++ store.  Every object that [new] creates is in one finite
      map from addresses to typed objects; code is a function from stores to a
      result with a new store or to a fault (null dereference, access to a freed
      or wrongly typed object, failed assertion, deadlock, exit, lack of fuel).
      Members are [p ~> f], assignments [p ~> f ::= x].
    - [SepLogic]: heap predicates as an Iris BI, the weakest precondition [wp]
      with the frame built in, Hoare triples about runs, and [wp_step].
      Everything is total correctness: a triple includes that the code returns.
    - Loops: [iter] with one more unit of fuel than there are objects in the
      store, since every loop and every traversal walks along distinct objects;
      the triples prove that this is enough.  The binary search in a B-tree node
      has the size of the node as its fuel.  [Insert] and [Delete] of the B-tree
      record their path in arrays of [kMaxDepth = 16] elements, so their
      contracts ask for fewer than [2 * (kMinKeys + 1) ^ 16 - 1] pairs, which is
      the smallest number that may need another level.  The recursion of
      [BuildIdealTree] has the number of pairs as its fuel, and the descents and
      traversals of the self-adjusting trees the size of the store.  [exec] of [Prog] takes an explicit
      bound for each loop of the contention-adapting tree, and the theorems
      show that the number of nodes of the tree is one.
    - Keys and values are integers; [size_t], [int] and [long] are written out
      with their wrap-around where the code computes with them.

    ** Files

    - [Prelude]: generic lemmas.  [Memory], [SepLogic]: as above.
    - [OrderedSet]: the interface [IOrderedSet] of [interfaces.h] as a type
      class, its laws on finite dictionaries, and the sessions of a client,
      proved against the laws.
    - [BinTree], [DictTree], [BinHeap]: binary trees with an annotation, paths
      in them, dictionaries, and their representation in the store with parent
      pointers; shared by the AVL tree, the red-black tree and the splay tree.
    - AVL tree ([avl_tree.h]): [AVLTree] the code, [AVLSpec] the functional
      rebalancing, [AVLProof], [AVLErase], [AVLJoin] the methods, [AVLSet] the
      instance of the interface and the contracts.
    - Red-black tree ([redblack_tree.h]): [RBTree] the code, [RBSpec] colours
      and black heights, [RBProof] rotations and [insertFixup], [RBInsert],
      [RBErase] ([eraseFixup]), [RBDelete], [RBJoin], [RBSplit], and [RBSet] the
      contracts.  It is not an instance of the laws: [erase] and the destructor
      leak, and [join] returns one of its arguments; the contracts say so.
    - Linked list ([linkedlist.h]): [ListSet], [ListProof], [ListInstance].
    - [GsatMap]: the interface that the maps of [cpp/gsat/ds] share, its laws
      and sessions.
    - Splay tree ([splay_tree.h], its node, node handler and adapter):
      [SplayModel], [SplayProof] (rotations, the splay loop, equal to a
      function on trees), [SplaySet] (operations, instance, contracts).
    - B-tree ([btree.h], its node, node handler and adapter): [BTreeModel],
      [BTreeSpec] (trees with many children, paths, shape, one key short),
      [BTreeProof] (node arrays, binary search, [Find]), [BTreeInsert],
      [BTreeDelete], [BTreeSet] (heights, [Validate], instance, contracts).
    - Self-adjusting trees ([gsat.h], its node base class and node handler, and
      the instances [sabt], [salt], [sast]): [GsatModel] the code, with the
      template parameters as a type class [Params]; [GsatSpec] trees with
      bounds, paths, pairs with access counters; [GsatProof] what node classes
      and delimiters promise ([ParamsLaws]) and a step of the descent;
      [GsatBuild] collecting, building and deleting subtrees; [GsatTree] the
      operations for any parameters with the laws; [GsatCheck] [Validate] and
      the node handler; [GsatSet] the laws of the three instances, the
      interface and the contracts.
    - [Arrays]: array members, and the binary search and the loop over children
      that several node classes share.
    - [Prog]: programs of atomic accesses, and [run], which executes one without
      interruption.  [Threads]: interleaved execution of programs ([tstep]),
      linearizability, and a rely-guarantee logic: a protocol on an abstract
      state, of which the store is the representation, triples whose knowledge
      is stable under the steps of other threads, and its soundness.
    - Contention-adapting tree: [CANode] ([base_node.h], [route_node.h] and the
      record manager's interface), [CATree] ([ca_tree.h]), [CASpec] (the shape
      of the tree and its dictionary), [CAProof] (every operation, split and
      join), [CAAdapter] ([adapter.h]), [CASet] (contracts over AVL trees).
      [SimpleRecMgr] has record managers that satisfy the laws, for witnesses.
    - The same code with several threads: [CAShape] (leaves, intervals and
      searches in a tree that changes), [CAProtocol] (the shared state, its
      invariant [wf], and what a step leaves alone for the holders of other
      nodes), [CASteps] (the steps that change the tree: an operation, a split,
      the two writes of a join), [CARules] (what a thread may know, the order of
      the locks), [CALock] (the methods of [base_node.h] and [route_node.h]),
      [CAWalk] (searches without locks, locking the grandparent), [CAThreads]
      (allocation and [highContentionSplit]), [CAJoin] ([lowContentionJoin]),
      [CAOps] ([find], [insert], [erase]) and [CALinear] (the theorems).

    ** What the theorems show

    - Refinement: a session with each of the eight sequential structures, and
      with the contention-adapting tree over AVL trees, returns what a finite
      dictionary returns, without a fault, for every sequence of operations;
      where the code frees its memory, the store is empty at the end.
    - Contracts: each of [find], [insert], [erase], [join], [split] keeps the
      order and the balance, colour or size invariant of its structure, returns
      the right value and frees exactly what it should.  Bounds on heights and
      exact results of the counting and checking methods.
    - Self-adjusting trees: one proof for all node classes, delimiters, clearing
      policies and bounds; a rebuilt subtree has the pairs of the old one.
    - The contention-adapting tree: split and join of base nodes keep the
      dictionary and the well-formedness for every shape of the tree; the
      limits at which it adapts; keys out of range; the destructor.
    - Several threads on one contention-adapting tree, for every interleaving
      of their atomic accesses: the tree is linearizable with respect to a finite
      dictionary, no assertion fails and no bad pointer is followed, the threads
      never deadlock, and the store always holds a well-formed tree in which a
      node is valid exactly when it is reachable.  Fuel bounds the turns of each
      loop for any given run; it is universally quantified, and a thread that has
      used it up has stopped.
    - Errors: assertions that valid input can violate, and objects that are
      left dangling, with concrete runs.

    ** Not modelled

    - Weak memory: an access to a member is one atomic action of a sequentially
      consistent store, and an operation of an ordered set, which runs under the
      lock of its base node, is one action too.
    - The record manager ([cpp/recordmgr] is a git submodule): a parameter with
      laws.  For one operation at a time the laws let it destroy retired nodes
      when the guard ends ([RecordManagerLaws]); for several threads a retired
      node is not destroyed before the threads end ([SharedManagerLaws]), which
      is what the guards ensure for the nodes an operation can still reach.
    - Methods that print; the counters of conditional compilation.
    - [util.h] of the CA tree (random numbers, timers), [ist] and [sait] of
      [cpp/gsat] (interpolation with floating-point numbers), the other
      dictionaries under [cpp/ds] (third-party code), the benchmark driver, and
      the libraries under [cpp/common]. *)
From Stdlib Require Export ZArith Lia.
From stdpp Require Export gmap sorting.
From iris.prelude Require Export prelude.


#[global] Set Default Goal Selector "!".

(** ** Generic facts on finite maps used by the memory model *)

Lemma map_union_size_ge {A} (h1 h2 : gmap positive A) :
  size h1 ≤ size (h1 ∪ h2).
Proof. apply map_subseteq_size, map_union_subseteq_l. Qed.

Lemma map_disjoint_size_union {A} (h1 h2 : gmap positive A) :
  h1 ##ₘ h2 → size (h1 ∪ h2) = size h1 + size h2.
Proof. apply map_size_disj_union. Qed.

(** ** Logarithms *)
Lemma nat_log2_le (n : nat) : 0 < n → (Z.of_nat (Nat.log2 n) ≤ Z.log2 (Z.of_nat n))%Z.
Proof.
  intros Hn. apply Z.log2_le_pow2; [lia |]. pose proof (Nat.log2_spec n Hn) as [Hp _].
  apply Nat2Z.inj_le in Hp. rewrite Nat2Z.inj_pow in Hp. done.
Qed.
