(* ===== verification/Memory.v ===== *)
(** * Memory: the C++ store and the effect monad

    Every object the code allocates with [new] (or through the record manager)
    lives in one store, a finite map from addresses to objects.  A pointer is
    an address or [NULL].  Code is a function from stores to outcomes; an
    outcome is a result with the new store or the fault that stopped it. *)
From S2P Require Import Prelude.

(** ** Addresses and pointers *)

Abbreviation loc := positive.
Abbreviation ptr := (option positive).
Abbreviation NULL := (@None positive).

(** ** Object layouts *)

(** [AVLTree<K,V>::Node] *)
Record avl_node := AvlNode {
  avl_key : Z;
  avl_left : ptr;
  avl_right : ptr;
  avl_parent : ptr;
  avl_balance : Z;
  avl_val : Z;
}.

(** [AVLTree<K,V>]: its only mutable member is [root]. *)
Record avl_tree := AvlTree { avl_root : ptr }.

(** [LinkedList<R,K,V>::Node] and [LinkedList<R,K,V>] *)
Record list_node := ListNode { ln_key : Z; ln_val : Z; ln_next : ptr }.
Record linked_list := LinkedList { ll_head : ptr; ll_tail : ptr; ll_size : Z }.

(** [BaseNode<K,V>]: [bn_m] says whether the mutex [m] is held. *)
Record base_node := BaseNode {
  bn_isBaseNode : bool;
  bn_set : ptr;
  bn_m : bool;
  bn_statLockStatistics : Z;
  bn_owner : Z;
  bn_valid : bool;
  bn_parent : ptr;
}.

(** [RouteNode<K,V>] *)
Record route_node := RouteNode {
  rn_isBaseNode : bool;
  rn_key : Z;
  rn_left : ptr;
  rn_right : ptr;
  rn_m : bool;
  rn_owner : Z;
  rn_valid : bool;
}.

(** [CA_Node], the common base class: a pointer to it is a pointer to one of
    its two subclasses. *)
Inductive ca_node :=
  | CaBase (n : base_node)
  | CaRoute (n : route_node).

(** [CATree<RecordManager,K,V>], less its padding *)
Record ca_tree := CaTree {
  ca_minKey : Z;
  ca_maxKey : Z;
  ca_numThreads : Z;
  ca_recmgr : ptr;
  ca_root : ptr;
}.

(** [RedBlackTree<R,K,V>::Color], [Node] and [RedBlackTree<R,K,V>] *)
Inductive color := RED | BLACK.
#[global] Instance color_eq_dec : EqDecision color.
Proof. solve_decision. Defined.
Record rb_node := RbNode {
  rb_key : Z;
  rb_val : Z;
  rb_parent : ptr;
  rb_left : ptr;
  rb_right : ptr;
  rb_color : color;
}.
Record rb_tree := RbTree { rbt_root : ptr; rbt_blackHeight : Z }.

(** [SplayNode<Key,Value>] and [SplayTree<Key,Value>] *)
Record splay_node := SplayNode {
  sp_key : Z;
  sp_value : Z;
  sp_left : ptr;
  sp_right : ptr;
  sp_parent : ptr;
}.
Record splay_tree := SplayTree { spt_no_value : Z; spt_root : ptr }.

(** [BTreeNode<Key,Value,kMaxKeys>], its arrays as lists, and [BTree] *)
Record btree_node := BTreeNode {
  bt_keys : list Z;
  bt_values : list Z;
  bt_children : list ptr;
  bt_size : Z;
}.
Record btree := BTree { btt_no_value : Z; btt_root : ptr }.

(** [GSATNode<Key,Value>], the base class of the nodes of the self-adjusting
    trees, a node with its arrays (and the [capacity] that some of the node
    classes keep), and [GSAT], less its delimiter and [rebuild_factor_] *)
Record gsat_base := GsatBase {
  gb_left : Z;
  gb_right : Z;
  gb_rep_size : Z;
  gb_total_asize : Z;
  gb_leaf : bool;
  gb_rebuild_bound : Z;
  gb_counter : Z;
}.
Record gsat_node := GsatNode {
  gs_base : gsat_base;
  gs_rep : list Z;
  gs_value_data : list (Z * Z);
  gs_children : list ptr;
  gs_capacity : Z;
}.
Record gsat := Gsat {
  gst_no_value : Z;
  gst_left : Z;
  gst_right : Z;
  gst_leaf_size : Z;
  gst_min_rebuild_bound : Z;
  gst_root : ptr;
}.

(** Nodes handed to a record manager for reclamation, and an object that holds
    them: the state of the simple record manager of [SimpleRecMgr]. *)
Inductive retired := RBase (l : loc) | RRoute (l : loc).
Record limbo := Limbo { limbo_bag : list retired }.

Inductive obj :=
  | OAvlNode (n : avl_node)
  | OAvlTree (t : avl_tree)
  | OListNode (n : list_node)
  | OLinkedList (t : linked_list)
  | OCANode (n : ca_node)
  | OCATree (t : ca_tree)
  | ORbNode (n : rb_node)
  | ORbTree (t : rb_tree)
  | OSplayNode (n : splay_node)
  | OSplayTree (t : splay_tree)
  | OBTreeNode (n : btree_node)
  | OBTree (t : btree)
  | OGsatNode (n : gsat_node)
  | OGsat (t : gsat)
  | OLimbo (l : limbo).

Abbreviation heap := (gmap loc obj).

(** A struct type of the program embeds into the store's objects. *)
Class Object (O : Type) := {
  inj_obj : O → obj;
  prj_obj : obj → option O;
  prj_inj_obj o : prj_obj (inj_obj o) = Some o;
}.

Arguments inj_obj : simpl never.
Arguments prj_obj : simpl never.

#[global] Program Instance avl_node_object : Object avl_node := {|
  inj_obj := OAvlNode;
  prj_obj o := match o with OAvlNode n => Some n | _ => None end;
|}.
Solve All Obligations with done.
#[global] Program Instance avl_tree_object : Object avl_tree := {|
  inj_obj := OAvlTree;
  prj_obj o := match o with OAvlTree n => Some n | _ => None end;
|}.
Solve All Obligations with done.
#[global] Program Instance list_node_object : Object list_node := {|
  inj_obj := OListNode;
  prj_obj o := match o with OListNode n => Some n | _ => None end;
|}.
Solve All Obligations with done.
#[global] Program Instance linked_list_object : Object linked_list := {|
  inj_obj := OLinkedList;
  prj_obj o := match o with OLinkedList n => Some n | _ => None end;
|}.
Solve All Obligations with done.
#[global] Program Instance base_node_object : Object base_node := {|
  inj_obj n := OCANode (CaBase n);
  prj_obj o := match o with OCANode (CaBase n) => Some n | _ => None end;
|}.
Solve All Obligations with done.
#[global] Program Instance route_node_object : Object route_node := {|
  inj_obj n := OCANode (CaRoute n);
  prj_obj o := match o with OCANode (CaRoute n) => Some n | _ => None end;
|}.
Solve All Obligations with done.
#[global] Program Instance ca_node_object : Object ca_node := {|
  inj_obj := OCANode;
  prj_obj o := match o with OCANode n => Some n | _ => None end;
|}.
Solve All Obligations with done.
#[global] Program Instance ca_tree_object : Object ca_tree := {|
  inj_obj := OCATree;
  prj_obj o := match o with OCATree n => Some n | _ => None end;
|}.
Solve All Obligations with done.
#[global] Program Instance rb_node_object : Object rb_node := {|
  inj_obj := ORbNode;
  prj_obj o := match o with ORbNode n => Some n | _ => None end;
|}.
Solve All Obligations with done.
#[global] Program Instance rb_tree_object : Object rb_tree := {|
  inj_obj := ORbTree;
  prj_obj o := match o with ORbTree n => Some n | _ => None end;
|}.
Solve All Obligations with done.
#[global] Program Instance splay_node_object : Object splay_node := {|
  inj_obj := OSplayNode;
  prj_obj o := match o with OSplayNode n => Some n | _ => None end;
|}.
Solve All Obligations with done.
#[global] Program Instance splay_tree_object : Object splay_tree := {|
  inj_obj := OSplayTree;
  prj_obj o := match o with OSplayTree n => Some n | _ => None end;
|}.
Solve All Obligations with done.
#[global] Program Instance btree_node_object : Object btree_node := {|
  inj_obj := OBTreeNode;
  prj_obj o := match o with OBTreeNode n => Some n | _ => None end;
|}.
Solve All Obligations with done.
#[global] Program Instance btree_object : Object btree := {|
  inj_obj := OBTree;
  prj_obj o := match o with OBTree n => Some n | _ => None end;
|}.
Solve All Obligations with done.
#[global] Program Instance gsat_node_object : Object gsat_node := {|
  inj_obj := OGsatNode;
  prj_obj o := match o with OGsatNode n => Some n | _ => None end;
|}.
Solve All Obligations with done.
#[global] Program Instance gsat_object : Object gsat := {|
  inj_obj := OGsat;
  prj_obj o := match o with OGsat n => Some n | _ => None end;
|}.
Solve All Obligations with done.
#[global] Program Instance limbo_object : Object limbo := {|
  inj_obj := OLimbo;
  prj_obj o := match o with OLimbo n => Some n | _ => None end;
|}.
Solve All Obligations with done.

(** ** Faults and outcomes *)

Inductive fault :=
  | NullDereference    (** a member access through [NULL] *)
  | InvalidAccess      (** a member access to a freed object or one of another type *)
  | AssertionFailed    (** a failed [assert] *)
  | Deadlock           (** a [lock] that can never be granted *)
  | ProgramExit        (** [setbench_error]: a message and [exit(-1)] *)
  | RuntimeError       (** a [Check] that throws [std::runtime_error] *)
  | OutOfFuel.         (** a loop that ran longer than the model allows *)

Inductive outcome (A : Type) :=
  | Ok (a : A) (h : heap)
  | Fault (f : fault).
Arguments Ok {_} _ _.
Arguments Fault {_} _.

Definition M (A : Type) : Type := heap → outcome A.

#[global] Instance M_ret : MRet M := λ A a h, Ok a h.
#[global] Instance M_bind : MBind M := λ A B f m h,
  match m h with Ok a h' => f a h' | Fault e => Fault e end.

Definition throw {A} (e : fault) : M A := λ _, Fault e.

(** [assert(b)] *)
Definition assert_ (b : bool) : M unit :=
  if b then mret () else throw AssertionFailed.

(** ** Struct members *)

Record field (O A : Type) := Field { fget : O → A; fset : A → O → O }.
Arguments Field {_ _} _ _.
Arguments fget {_ _} _ _.
Arguments fset {_ _} _ _ _.

(** [p->f] as an rvalue *)
Definition get {O A} `{Object O} (p : ptr) (f : field O A) : M A := λ h,
  match p with
  | None => Fault NullDereference
  | Some l =>
      match h !! l ≫= prj_obj with
      | Some o => Ok (fget f o) h
      | None => Fault InvalidAccess
      end
  end.

(** [p->f = x] *)
Definition put {O A} `{Object O} (p : ptr) (f : field O A) (x : A) : M unit := λ h,
  match p with
  | None => Fault NullDereference
  | Some l =>
      match h !! l ≫= prj_obj with
      | Some o => Ok () (<[l := inj_obj (fset f x o)]> h)
      | None => Fault InvalidAccess
      end
  end.

(** [new O(...)] *)
Definition new {O} `{Object O} (o : O) : M ptr := λ h,
  let l := fresh (dom h) in Ok (Some l) (<[l := inj_obj o]> h).

(** [delete p], for an object of type [O] *)
Definition free (O : Type) `{Object O} (p : ptr) : M unit := λ h,
  match p with
  | None => Ok () h
  | Some l =>
      match h !! l ≫= prj_obj (O := O) with
      | Some _ => Ok () (delete l h)
      | None => Fault InvalidAccess
      end
  end.

(** [dynamic_cast<O *>(p)]: [NULL] when [p] points to an object of another type *)
Definition dynamic_cast (O : Type) `{Object O} (p : ptr) : M ptr := λ h,
  match p with
  | None => Ok NULL h
  | Some l =>
      match h !! l ≫= prj_obj (O := O) with
      | Some _ => Ok (Some l) h
      | None => Ok NULL h
      end
  end.

(** [if (b) m;] with no [else] *)
Definition when (b : bool) (m : M unit) : M unit := if b then m else mret ().

(** ** Loops

    [iter fuel body s] runs [body] from loop state [s] until it returns
    [inr r].  A loop or a recursive traversal gets one more unit of fuel than
    there are objects in the store: each of them walks along distinct objects. *)
Fixpoint iter {S R} (fuel : nat) (body : S → M (S + R)) (s : S) : M R :=
  match fuel with
  | O => throw OutOfFuel
  | Datatypes.S n =>
      x ← body s;
      match x with inl s' => iter n body s' | inr r => mret r end
  end.

Definition with_fuel {A} (f : nat → M A) : M A := λ h, f (S (size h)) h.

Definition loop {S R} (body : S → M (S + R)) (s : S) : M R :=
  with_fuel (λ fuel, iter fuel body s).

(** ** Machine integers: conversion to [size_t] and to [int] *)
Definition size_t (x : Z) : Z := (x mod 2 ^ 64)%Z.
Definition int (x : Z) : Z := ((x + 2 ^ 31) mod 2 ^ 32 - 2 ^ 31)%Z.

Lemma int_small x : (- 2 ^ 31 ≤ x < 2 ^ 31)%Z → int x = x.
Proof. intros Hx. rewrite /int Z.mod_small; lia. Qed.

Lemma size_t_small x : (0 ≤ x < 2 ^ 64)%Z → size_t x = x.
Proof. apply Z.mod_small. Qed.

Declare Scope cpp_scope.
Delimit Scope cpp_scope with cpp.
Notation "p ~> f" := (get p f) (at level 15, f at level 9) : cpp_scope.
Notation "p ~> f ::= x" := (put p f x) (at level 15, f at level 9, x at level 60) : cpp_scope.
Notation "p == q" := (bool_decide (p = q)) (at level 70, no associativity) : cpp_scope.
Notation "p != q" := (negb (bool_decide (p = q))) (at level 70, no associativity) : cpp_scope.
(** A loop body that goes round again, or leaves the loop. *)
Abbreviation continue s := (mret (inl s)).
Abbreviation break r := (mret (inr r)).

Arguments get : simpl never.
Arguments put : simpl never.
Arguments new : simpl never.
Arguments free : simpl never.
Arguments iter : simpl never.
Arguments loop : simpl never.
Arguments with_fuel : simpl never.
Arguments dynamic_cast : simpl never.
Arguments when : simpl never.
Arguments throw : simpl never.
Arguments assert_ : simpl never.
