(* ===== verification/SepLogic.v ===== *)
(** * SepLogic: a separation logic for the store and its program logic *)
From iris.proofmode Require Export proofmode.
From S2P Require Export Prelude Memory.

(** ** Heap predicates *)
Record hprop := HProp { holds : heap → Prop }.
Add Printing Constructor hprop.

Record hequiv (P Q : hprop) : Prop := HEquiv { hequiv_at : ∀ h, holds P h ↔ holds Q h }.

Section hprop_ofe.
#[local] Instance hprop_equiv : Equiv hprop := hequiv.
#[local] Instance hprop_equivalence : Equivalence (≡@{hprop}).
Proof.
  split.
  - intros P. by split.
  - intros P Q [H]. split=> h. by rewrite (H h).
  - intros P Q R [H1] [H2]. split=> h. by rewrite (H1 h) (H2 h).
Qed.
Canonical Structure hpropO := discreteO hprop.
End hprop_ofe.

Record hentails (P Q : hprop) : Prop := HEntails { hentails_at : ∀ h, holds P h → holds Q h }.

Definition hemp : hprop := HProp (λ h, h = ∅).
Definition hpure (φ : Prop) : hprop := HProp (λ _, φ).
Definition hand (P Q : hprop) : hprop := HProp (λ h, holds P h ∧ holds Q h).
Definition hor (P Q : hprop) : hprop := HProp (λ h, holds P h ∨ holds Q h).
Definition himpl (P Q : hprop) : hprop := HProp (λ h, holds P h → holds Q h).
Definition hforall {A} (Ψ : A → hprop) : hprop := HProp (λ h, ∀ a, holds (Ψ a) h).
Definition hexist {A} (Ψ : A → hprop) : hprop := HProp (λ h, ∃ a, holds (Ψ a) h).
Definition hsep (P Q : hprop) : hprop := HProp (λ h,
  ∃ h1 h2, h = h1 ∪ h2 ∧ h1 ##ₘ h2 ∧ holds P h1 ∧ holds Q h2).
Definition hwand (P Q : hprop) : hprop := HProp (λ h,
  ∀ h', h ##ₘ h' → holds P h' → holds Q (h ∪ h')).
Definition hpersistently (P : hprop) : hprop := hpure (hentails hemp P).
Definition hlater (P : hprop) : hprop := P.

Lemma hprop_bi_mixin :
  BiMixin hentails hemp hpure hand hor himpl (@hforall) (@hexist) hsep hwand.
Proof.
  split.
  - split; [by split | intros P Q R [H1] [H2]; split; eauto].
  - intros P Q; split.
    + intros [H]. split; split; intros h; apply H.
    + intros [[H1] [H2]]. split=> h. split; auto.
  - intros n φ ψ H. split=> h. apply H.
  - intros n P P' [HP] Q Q' [HQ]. split=> h /=. by rewrite HP HQ.
  - intros n P P' [HP] Q Q' [HQ]. split=> h /=. by rewrite HP HQ.
  - intros n P P' [HP] Q Q' [HQ]. split=> h /=. by rewrite HP HQ.
  - intros A n Ψ Ψ' H. split=> h. split; intros Hh a; apply H, Hh.
  - intros A n Ψ Ψ' H. split=> h. split; intros [a Hh]; exists a; apply H, Hh.
  - intros n P P' [HP] Q Q' [HQ]. split=> h.
    split; intros (h1 & h2 & ? & ? & ? & ?); exists h1, h2; split_and!; try done;
      first [by apply HP | by apply HQ].
  - intros n P P' [HP] Q Q' [HQ]. split=> h. split; intros H h' Hd HPh; apply HQ, H, HP; done.
  - intros φ P H. by split.
  - intros φ P H. split=> h Hφ. by apply H.
  - intros P Q. by split=> h [??].
  - intros P Q. by split=> h [??].
  - intros P Q R [H1] [H2]. split=> h ?. split; auto.
  - intros P Q. split=> h ?. by left.
  - intros P Q. split=> h ?. by right.
  - intros P Q R [H1] [H2]. split=> h [?|?]; auto.
  - intros P Q R [H]. split=> h ??. apply H. by split.
  - intros P Q R [H]. split=> h [??]. by apply H.
  - intros A P Ψ H. split=> h ? a. by apply H.
  - intros A Ψ a. split=> h H. apply H.
  - intros A Ψ a. split=> h H. by exists a.
  - intros A Φ Q H. split=> h [a ?]. by eapply H.
  - intros P P' Q Q' [H1] [H2]. split=> h [h1 [h2 [? [? [? ?]]]]].
    exists h1, h2. split_and!; auto.
  - intros P. split=> h ?. exists ∅, h. split_and!; [by rewrite left_id_L | apply map_disjoint_empty_l | done..].
  - intros P. split=> h [h1 [h2 [-> [? [-> ?]]]]]. by rewrite left_id_L.
  - intros P Q. split=> h [h1 [h2 [-> [? [? ?]]]]]. exists h2, h1.
    split_and!; [by apply map_union_comm | done..].
  - intros P Q R. split; intros h (h12 & h3 & -> & Hd & (h1 & h2 & -> & ? & ? & ?) & ?).
    apply map_disjoint_union_l in Hd as [??].
    exists h1, (h2 ∪ h3). split_and!; [by rewrite assoc_L | by apply map_disjoint_union_r_2 | done |].
    by exists h2, h3.
  - intros P Q R [H]. split=> h HP h' ??. apply H. by exists h, h'.
  - intros P Q R [H]. split=> h [h1 [h2 [-> [? [? ?]]]]]. by apply H.
Qed.

Lemma hprop_bi_persistently_mixin :
  BiPersistentlyMixin hentails hemp hand (@hexist) hsep hpersistently.
Proof.
  eapply bi_persistently_mixin_discrete, hprop_bi_mixin; [done | | done].
  intros A Φ [H]. destruct (H ∅ eq_refl) as [a ?]. exists a. by split=> h ->.
Qed.

Lemma hprop_bi_later_mixin :
  BiLaterMixin hentails hpure hor himpl (@hforall) (@hexist) hsep hpersistently hlater.
Proof. by eapply bi_later_mixin_id, hprop_bi_mixin. Qed.

Canonical Structure hpropI : bi := {|
  bi_ofe_mixin := ofe_mixin_of hprop;
  bi_cofe_aux := discrete_cofe hprop_equivalence;
  bi_bi_mixin := hprop_bi_mixin;
  bi_bi_persistently_mixin := hprop_bi_persistently_mixin;
  bi_bi_later_mixin := hprop_bi_later_mixin |}.

#[global] Instance hprop_pure_forall : BiPureForall hpropI.
Proof. intros A φ. by split. Qed.

(** ** Points-to, footprint size *)

(** [pt l o]: the store is exactly the object [o] at [l]. *)
Definition pt (l : loc) (o : obj) : hprop := HProp (λ h, h = {[l := o]}).
Notation "l ↦ o" := (pt l (inj_obj o)) (at level 20, format "l  ↦  o") : bi_scope.

(** [at_least n]: the store holds at least [n] objects. *)
Definition at_least (n : nat) : hprop := HProp (λ h, n ≤ size h).

(** ** Weakest preconditions: total correctness, with the frame built in *)
Definition wp {A} (m : M A) (Q : A → hprop) : hprop := HProp (λ h,
  ∀ hf, h ##ₘ hf →
    ∃ a h', m (h ∪ hf) = Ok a (h' ∪ hf) ∧ h' ##ₘ hf ∧ holds (Q a) h').

(** [hoare P m Q] is the specification of [m] as a statement about runs: from
    every store that contains a part satisfying [P], [m] returns a result, the
    part then satisfies [Q], and the rest of the store is unchanged. *)
Definition hoare {A} (P : hprop) (m : M A) (Q : A → hprop) : Prop :=
  ∀ h hf, h ##ₘ hf → holds P h →
    ∃ a h', m (h ∪ hf) = Ok a (h' ∪ hf) ∧ h' ##ₘ hf ∧ holds (Q a) h'.

#[warnings="-closed-notation-not-level-0"]
Notation "⦃ P ⦄ m ⦃ r , Q ⦄" := (hoare P%I m (λ r, Q%I))
  (at level 20, P at level 200, m at level 200, r name, Q at level 200,
   format "⦃  P  ⦄  m  ⦃  r ,  Q  ⦄") : stdpp_scope.

Lemma hoare_wp {A} P (m : M A) Q : (P ⊢ wp m Q) → hoare P m Q.
Proof. intros [H] h hf ? ?. by apply (H h). Qed.

Lemma wp_hoare {A} P (m : M A) Q : hoare P m Q → (P ⊢ wp m Q).
Proof. intros H. split=> h ? hf ?. by apply H. Qed.

(** A program that needs nothing and leaves nothing, run in the empty store. *)
Lemma wp_closed {A} (m : M A) a : (emp ⊢ wp m (λ r, <affine> ⌜r = a⌝)) → m ∅ = Ok a ∅.
Proof.
  intros Hm. destruct (hoare_wp _ _ _ Hm (∅ : heap) (∅ : heap)) as (r & h' & Hrun & _ & Hpost).
  - apply map_disjoint_empty_l.
  - done.
  - rewrite !map_union_empty in Hrun. rewrite Hrun. destruct Hpost as [-> ->]. done.
Qed.

Lemma pt_exclusive l o1 o2 : pt l o1 ∗ pt l o2 ⊢ False.
Proof.
  split; intros h (h1 & h2 & -> & Hd & -> & ->). exfalso.
  eapply map_disjoint_spec; [apply Hd | apply lookup_singleton_eq..].
Qed.

Lemma pt_ne l1 l2 o1 o2 : pt l1 o1 -∗ pt l2 o2 -∗ <affine> ⌜l1 ≠ l2⌝ ∗ pt l1 o1 ∗ pt l2 o2.
Proof.
  iIntros "H1 H2". destruct (decide (l1 = l2)) as [->|]; last by iFrame.
  iDestruct (pt_exclusive with "[$H1 $H2]") as %[].
Qed.
Lemma at_least_pt l o : pt l o ⊢ at_least 1.
Proof. split=> h ->. by rewrite /= map_size_singleton. Qed.

Lemma at_least_0 P : P ⊢ at_least 0.
Proof. split=> h _. apply Nat.le_0_l. Qed.

Lemma at_least_sep a b : at_least a ∗ at_least b ⊢ at_least (a + b).
Proof.
  split; intros h (h1 & h2 & -> & Hd & Ha & Hb). cbn in *.
  rewrite map_disjoint_size_union //. lia.
Qed.

Lemma at_least_weaken a b : b ≤ a → at_least a ⊢ at_least b.
Proof. intros ?. split=> h. cbn. lia. Qed.

Lemma at_least_absorb a P : at_least a ∗ P ⊢ at_least a.
Proof. rewrite (at_least_0 P) at_least_sep Nat.add_0_r //. Qed.

#[global] Instance at_least_absorbing n : Absorbing (at_least n).
Proof. rewrite /Absorbing /bi_absorbingly (comm (∗)%I). apply at_least_absorb. Qed.

(** ** Structural rules *)
Section wp_rules.
Context {A : Type}.
Implicit Types (m : M A) (Q : A → hprop).

Lemma wp_ret a Q : Q a ⊢ wp (mret a) Q.
Proof. split=> h ? hf ?. by exists a, h. Qed.

Lemma wp_bind {B} (m : M B) (f : B → M A) Q :
  wp m (λ b, wp (f b) Q) ⊢ wp (m ≫= f) Q.
Proof.
  split=> h Hm hf Hd. destruct (Hm hf Hd) as (b & h' & Hb & Hd' & Hf).
  destruct (Hf hf Hd') as (a & h'' & Ha & ? & ?). exists a, h''. split; [|done].
  by rewrite /mbind /M_bind Hb Ha.
Qed.

Lemma wp_frame R m Q : R ∗ wp m Q ⊢ wp m (λ a, R ∗ Q a).
Proof.
  split; intros h (h1 & h2 & -> & Hd & HR & Hm) hf Hf.
  apply map_disjoint_union_l in Hf as [Hf1 Hf2].
  destruct (Hm (h1 ∪ hf)) as (a & h' & Ha & Hd' & HQ).
  { apply map_disjoint_union_r_2; [by apply map_disjoint_sym | done]. }
  apply map_disjoint_union_r in Hd' as [Hd1 Hd2].
  exists a, (h1 ∪ h'). split_and!.
  - rewrite (map_union_comm h1 h2); [|done]. rewrite -assoc_L Ha assoc_L.
    f_equal. f_equal. by apply map_union_comm.
  - by apply map_disjoint_union_l_2.
  - by exists h1, h'.
Qed.

Lemma wp_mono m P Q : (∀ a, P a ⊢ Q a) → wp m P ⊢ wp m Q.
Proof.
  intros H. split=> h Hm hf Hd. destruct (Hm hf Hd) as (a & h' & ? & ? & ?).
  exists a, h'. split_and!; try done. by apply H.
Qed.

Lemma wp_ext m1 m2 Q : (∀ h, m1 h = m2 h) → wp m2 Q ⊢ wp m1 Q.
Proof.
  intros Heq. split=> h Hm hf Hd. destruct (Hm hf Hd) as (a & h' & ? & ?).
  exists a, h'. by rewrite Heq.
Qed.

Lemma wp_wand m P Q : wp m P -∗ (∀ a, P a -∗ Q a) -∗ wp m Q.
Proof.
  iIntros "Hm HQ". iCombine "HQ Hm" as "H". iStopProof.
  rewrite wp_frame. apply wp_mono=> a. iIntros "[HQ HP]". by iApply "HQ".
Qed.

End wp_rules.

(** ** Rules for the primitives *)

Lemma lookup_typed {T} `{Object T} l (o : T) (h hf : heap) :
  ({[l := inj_obj o]} ∪ h ∪ hf) !! l ≫= prj_obj = Some o.
Proof.
  rewrite -assoc_L (lookup_union_Some_l _ _ _ (inj_obj o)) ?lookup_singleton_eq //.
  apply prj_inj_obj.
Qed.

Lemma wp_assert b Q : b = true → Q () ⊢ wp (assert_ b) Q.
Proof. intros ->. apply wp_ret. Qed.

Section wp_memory.
Context {T : Type} `{Object T}.

Lemma wp_get {A} l (o : T) (f : field T A) Q :
  l ↦ o -∗ (l ↦ o -∗ Q (fget f o)) -∗ wp (get (Some l) f) Q.
Proof.
  apply bi.entails_wand, bi.wand_intro_r.
  split; intros h (h1 & h2 & -> & Hd & -> & HQ) hf Hf.
  exists (fget f o), ({[l := inj_obj o]} ∪ h2). split_and!; try done.
  - rewrite /get lookup_typed //.
  - rewrite map_union_comm //. by apply HQ; [apply map_disjoint_sym|].
Qed.

Lemma wp_put {A} l (o : T) (f : field T A) x Q :
  l ↦ o -∗ (l ↦ fset f x o -∗ Q ()) -∗ wp (put (Some l) f x) Q.
Proof.
  apply bi.entails_wand, bi.wand_intro_r.
  split; intros h (h1 & h2 & -> & Hd & -> & HQ) hf Hf.
  apply map_disjoint_singleton_l in Hd.
  apply map_disjoint_union_l in Hf as [Hf1%map_disjoint_singleton_l Hf2].
  exists (), ({[l := inj_obj (fset f x o)]} ∪ h2). split_and!.
  - rewrite /put lookup_typed -!assoc_L insert_union_l insert_singleton_eq //.
  - apply map_disjoint_union_l_2; [by apply map_disjoint_singleton_l_2 | done].
  - rewrite map_union_comm; [|by apply map_disjoint_singleton_l_2].
    apply HQ; [by apply map_disjoint_singleton_r_2 | done].
Qed.

Lemma wp_new (o : T) Q :
  (∀ l, l ↦ o -∗ Q (Some l)) -∗ wp (new o) Q.
Proof.
  apply bi.entails_wand. split; intros h HQ hf Hf.
  set (l := fresh (dom (h ∪ hf))).
  assert ((h ∪ hf) !! l = None) as [Hl1 Hl2]%lookup_union_None
    by apply not_elem_of_dom, is_fresh.
  exists (Some l), (h ∪ {[l := inj_obj o]}). split_and!.
  - rewrite /new -/l insert_union_l insert_union_singleton_l.
    rewrite (map_union_comm _ h) //. by apply map_disjoint_singleton_l_2.
  - apply map_disjoint_union_l_2; [done | by apply map_disjoint_singleton_l_2].
  - apply (HQ l); [by apply map_disjoint_singleton_r_2 | done].
Qed.

Lemma wp_dynamic_cast l (o : T) Q :
  l ↦ o -∗ (l ↦ o -∗ Q (Some l)) -∗ wp (dynamic_cast T (Some l)) Q.
Proof.
  apply bi.entails_wand, bi.wand_intro_r.
  split; intros h (h1 & h2 & -> & Hd & -> & HQ) hf Hf.
  exists (Some l), ({[l := inj_obj o]} ∪ h2). split_and!; try done.
  - rewrite /dynamic_cast lookup_typed //.
  - rewrite map_union_comm //. by apply HQ; [apply map_disjoint_sym|].
Qed.

Lemma wp_dynamic_cast_other l o Q :
  prj_obj (O := T) o = None →
  pt l o -∗ (pt l o -∗ Q NULL) -∗ wp (dynamic_cast T (Some l)) Q.
Proof.
  intros Ho. apply bi.entails_wand, bi.wand_intro_r.
  split; intros h (h1 & h2 & -> & Hd & -> & HQ) hf Hf.
  exists NULL, ({[l := o]} ∪ h2). split_and!; try done.
  - rewrite /dynamic_cast -map_union_assoc lookup_union_l'; [|by rewrite lookup_singleton_eq].
    by rewrite lookup_singleton_eq /= Ho.
  - rewrite map_union_comm //. by apply HQ; [apply map_disjoint_sym|].
Qed.

Lemma wp_free l (o : T) Q :
  l ↦ o -∗ Q () -∗ wp (free T (Some l)) Q.
Proof.
  apply bi.entails_wand, bi.wand_intro_r.
  split; intros h (h1 & h2 & -> & Hd & -> & HQ) hf Hf.
  apply map_disjoint_singleton_l in Hd.
  apply map_disjoint_union_l in Hf as [Hf1%map_disjoint_singleton_l Hf2].
  exists (), h2. split_and!; try done.
  rewrite /free lookup_typed -assoc_L delete_union delete_singleton_eq left_id_L delete_id //.
  by apply lookup_union_None.
Qed.
End wp_memory.

Lemma wp_iter_S {S R} n (body : S → M (S + R)) s Q :
  wp (body s) (λ x, match x with inl s' => wp (iter n body s') Q | inr r => Q r end)
  ⊢ wp (iter (Datatypes.S n) body s) Q.
Proof.
  rewrite -wp_bind. apply wp_mono=> -[s'|r]; [done | apply wp_ret].
Qed.

(** Code that asks for fuel gets enough of it when its precondition owns as
    many objects as it takes turns. *)
Lemma wp_with_fuel {A} n (f : nat → M A) Q :
  at_least n ∧ (∀ fuel, ⌜n < fuel⌝ → wp (f fuel) Q) ⊢ wp (with_fuel f) Q.
Proof.
  split; intros h [Hn Hi] hf Hf.
  apply (Hi (S (size (h ∪ hf)))); [|done].
  change (n < S (size (h ∪ hf))). change (n ≤ size h) in Hn.
  pose proof (map_union_size_ge h hf). lia.
Qed.

Lemma wp_loop {S R} n (body : S → M (S + R)) s Q :
  at_least n ∧ (∀ fuel, ⌜n < fuel⌝ → wp (iter fuel body s) Q) ⊢ wp (loop body s) Q.
Proof. apply wp_with_fuel. Qed.

(** ** Tactics

    [wp_step] executes the next primitive: it finds the points-to assertion of
    the address it reads or writes in the spatial context. *)
Ltac wp_simpl := cbn [fget fset fst snd].

Ltac wp_step_core :=
  lazymatch goal with
  | |- environments.envs_entails _ (wp (mbind _ _) _) => iApply wp_bind; wp_step_core
  | |- environments.envs_entails _ (wp (mret _) _) => iApply wp_ret
  | |- environments.envs_entails _ (wp (get (Some ?l) _) _) =>
      iSelect (pt l _) (fun H => iApply (wp_get with H); iIntros H)
  | |- environments.envs_entails _ (wp (put (Some ?l) _ _) _) =>
      iSelect (pt l _) (fun H => iApply (wp_put with H); iIntros H)
  | |- environments.envs_entails _ (wp (free _ (Some ?l)) _) =>
      iSelect (pt l _) (fun H => iApply (wp_free with H))
  | |- environments.envs_entails _ (wp (dynamic_cast _ (Some ?l)) _) =>
      iSelect (pt l _) (fun H => iApply (wp_dynamic_cast with H); iIntros H)
  | |- environments.envs_entails _ (wp (assert_ _) _) => iApply wp_assert
  end.
Tactic Notation "wp_step" := wp_step_core; simpl.
Tactic Notation "wp_steps" := repeat wp_step.

#[global] Typeclasses Opaque wp pt at_least.
#[global] Opaque wp pt at_least.
