(* ===== verification/Arrays.v ===== *)
(** * Arrays: array members, binary search and loops over children

    The nodes of the B-tree and of the self-adjusting trees hold arrays, which
    are lists of fixed length; an index outside of them is an invalid access.
    Several node classes have the same binary search, which is proved here
    once. *)
From S2P Require Import Prelude Memory SepLogic.
#[local] Open Scope Z_scope.
#[local] Open Scope cpp_scope.

Section arrays.
Context {Ob : Type} `{Object Ob}.

(** [p->f[i]] as an rvalue, and [p->f[i] = x] *)
Definition aget {A} (p : ptr) (f : field Ob (list A)) (i : Z) : M A :=
  xs ← p ~> f;
  match (if i <? 0 then None else xs !! Z.to_nat i) with
  | Some x => mret x
  | None => throw InvalidAccess
  end.
Definition aset {A} (p : ptr) (f : field Ob (list A)) (i : Z) (x : A) : M unit :=
  xs ← p ~> f;
  if (0 <=? i) && (i <? Z.of_nat (length xs)) then p ~> f ::= <[Z.to_nat i := x]> xs
  else throw InvalidAccess.

Lemma wp_aget {A} x (o : Ob) (f : field Ob (list A)) i a Q :
  0 ≤ i → fget f o !! Z.to_nat i = Some a →
  x ↦ o -∗ (x ↦ o -∗ Q a) -∗ wp (aget (Some x) f i) Q.
Proof.
  iIntros (Hi Ha) "Hx HQ". rewrite /aget. iApply wp_bind. iApply (wp_get with "Hx"). iIntros "Hx".
  rewrite (proj2 (Z.ltb_ge i 0)) // Ha. iApply wp_ret. by iApply "HQ".
Qed.

Lemma wp_aset {A} x (o : Ob) (f : field Ob (list A)) i a Q :
  0 ≤ i → (Z.to_nat i < length (fget f o))%nat →
  x ↦ o -∗ (x ↦ fset f (<[Z.to_nat i := a]> (fget f o)) o -∗ Q ()) -∗ wp (aset (Some x) f i a) Q.
Proof.
  iIntros (Hi Ha) "Hx HQ". rewrite /aset. iApply wp_bind. iApply (wp_get with "Hx"). iIntros "Hx".
  rewrite (proj2 (Z.leb_le 0 i)) // (proj2 (Z.ltb_lt _ _)); [|lia]. simpl.
  iApply (wp_put with "Hx"). done.
Qed.

(** The same for lists that are given as concatenations. *)
Lemma wp_aget_at {A} x (o : Ob) (f : field Ob (list A)) i l1 a l2 Q :
  fget f o = l1 ++ a :: l2 → i = Z.of_nat (length l1) →
  x ↦ o -∗ (x ↦ o -∗ Q a) -∗ wp (aget (Some x) f i) Q.
Proof.
  intros Hf ->. apply wp_aget; [lia |]. by rewrite Hf Nat2Z.id list_lookup_middle.
Qed.

Lemma wp_aset_at {A} x (o : Ob) (f : field Ob (list A)) i l1 a' l2 a Q :
  fget f o = l1 ++ a' :: l2 → i = Z.of_nat (length l1) →
  x ↦ o -∗ (x ↦ fset f (l1 ++ a :: l2) o -∗ Q ()) -∗ wp (aset (Some x) f i a) Q.
Proof.
  iIntros (Hf ->) "Hx HQ". iApply (wp_aset with "Hx").
  - lia.
  - rewrite Hf length_app Nat2Z.id /=. lia.
  - rewrite Hf Nat2Z.id insert_app_r_alt // Nat.sub_diag. done.
Qed.

(** ** Binary search *)

(** A turn of the loop of [Search], in the array [f]. *)
Definition searchStep (f : field Ob (list Z)) (node : ptr) (k : Z) (s : Z * Z) : M (Z * Z + Z) :=
  let '(l, r) := s in
  if r - l >? 1 then
    let m := Z.shiftr (l + r) 1 in
    km ← aget node f m;
    if km <? k then continue (m, r) else continue (l, m)
  else break r.

Section search.
Context (f : field Ob (list Z)) (k : Z) (x : loc) (o : Ob) (n : nat).
Let ks := fget f o.
Hypothesis (Hn : (n ≤ length ks)%nat).
(** The first [n] keys ascend. *)
Hypothesis (Hsorted : ∀ i j a b, (i < j < n)%nat → ks !! i = Some a → ks !! j = Some b → a < b).

(** [r] is the position of the first key that is not below [k]. *)
Definition position (r : nat) : Prop :=
  (r ≤ n)%nat ∧ (∀ i a, (i < r)%nat → ks !! i = Some a → a < k) ∧
  (∀ i a, (r ≤ i < n)%nat → ks !! i = Some a → k ≤ a).

Lemma sorted_le i j a b : (i ≤ j < n)%nat → ks !! i = Some a → ks !! j = Some b → a ≤ b.
Proof.
  intros Hij Hi Hj. destruct (decide (i = j)) as [->|]; [simplify_eq; lia |].
  apply Z.lt_le_incl. eapply (Hsorted i j); [lia | done..].
Qed.

Lemma wp_arraySearch fuel l r Q :
  -1 ≤ l < r → r ≤ Z.of_nat n → r - l ≤ Z.of_nat fuel →
  (∀ i a, Z.of_nat i ≤ l → ks !! i = Some a → a < k) →
  (∀ i a, r ≤ Z.of_nat i < Z.of_nat n → ks !! i = Some a → k ≤ a) →
  x ↦ o -∗ (∀ p, ⌜position p⌝ → x ↦ o -∗ Q (Z.of_nat p)) -∗
  wp (iter fuel (searchStep f (Some x) k) (l, r)) Q.
Proof.
  iIntros (Hlr Hrn Hf Hlo Hhi) "Hx HQ".
  iInduction fuel as [|fuel IH] forall (l r Hlr Hrn Hf Hlo Hhi); [lia |].
  iApply wp_iter_S. iEval (rewrite {1}/searchStep). destruct (Z.gtb_spec (r - l) 1) as [Hgt|Hle].
  - rewrite Z.shiftr_div_pow2 // Z.pow_1_r. set (m := (l + r) `div` 2).
    assert (l < m < r) as Hm by (subst m; Z.div_mod_to_equations; lia).
    destruct (lookup_lt_is_Some_2 ks (Z.to_nat m)) as [km Hkm]; [lia |].
    iApply wp_bind. iApply (wp_aget with "Hx"); [lia | done |]. iIntros "Hx".
    destruct (Z.ltb_spec km k) as [Hk|Hk]; wp_step; iApply ("IH" with "[%] [%] [%] [%] [%] Hx HQ"); try lia; try done.
    + intros i a Hi Ha. apply Z.le_lt_trans with km; [|done].
      apply (sorted_le i (Z.to_nat m)); [lia | done..].
    + intros i a Hi Ha. apply Z.le_trans with km; [done |].
      apply (sorted_le (Z.to_nat m) i); [lia | done..].
  - wp_step. assert (∃ p, r = Z.of_nat p) as [p ->] by (exists (Z.to_nat r); lia).
    iApply ("HQ" with "[%] Hx"). split_and!.
    + lia.
    + intros i a Hi. apply Hlo. lia.
    + intros i a Hi. apply Hhi. lia.
Qed.
End search.

(** ** The children of a node, one after the other *)

Fixpoint forChildren (children : field Ob (list ptr)) (visit : ptr → M unit) (node : ptr) (todo : nat)
    (index : Z) : M unit :=
  match todo with
  | O => mret ()
  | S todo => c ← aget node children index; visit c;; forChildren children visit node todo (index + 1)
  end.

Lemma wp_forChildren {T} (Φ : ptr → T → hprop) children visit x (o : Ob) q1 q2 z ts i Q :
  fget children o = q1 ++ q2 ++ z → i = Z.of_nat (length q1) →
  □ (∀ q t Q', ⌜t ∈ ts⌝ → Φ q t -∗ Q' tt -∗ wp (visit q) Q') -∗
  x ↦ o -∗ ([∗ list] q;t ∈ q2;ts, Φ q t) -∗ (x ↦ o -∗ Q ()) -∗
  wp (forChildren children visit (Some x) (length q2) i) Q.
Proof.
  iIntros (Hch ->) "#Hvisit Hx Hk HQ". iInduction q2 as [|q q2 IH] forall (q1 ts Hch) "Hvisit"; simpl.
  { iDestruct (big_sepL2_nil_inv_l with "Hk") as %->. wp_step. by iApply "HQ". }
  destruct ts as [|t ts]; [done |]. iDestruct "Hk" as "[Ht Hk]". iApply wp_bind.
  iApply (wp_aget_at with "Hx"); [done | done |]. iIntros "Hx". iApply wp_bind.
  iApply ("Hvisit" with "[%] Ht"); [by left |].
  replace (Z.of_nat (length q1) + 1) with (Z.of_nat (length (q1 ++ [q]))) by (rewrite length_app /=; lia).
  iApply ("IH" with "[%] Hx Hk HQ []"); [by rewrite -app_assoc |].
  iIntros "!>" (q' t' Q' Hin). iApply "Hvisit". iPureIntro. by right.
Qed.
End arrays.
