(* ===== verification/OrderedSet.v ===== *)
(** * OrderedSet: the interface of the sequential ordered sets

    [IOrderedSet] collects the virtual methods of [IOrderedSet<K,V>]
    ([cpp/ds/winblad_catree/interfaces.h]) with a constructor and the
    destructor; [OrderedSetLaws] says what they promise the contention-adapting
    tree: each implements the operation on a finite dictionary. *)
From S2P Require Import Prelude Memory SepLogic.
#[local] Open Scope Z_scope.

Class IOrderedSet := {
  oset_new : M ptr;
  oset_find : ptr → Z → M Z;
  oset_insert : ptr → Z → Z → M Z;
  oset_erase : ptr → Z → M Z;
  oset_numKeys : ptr → M Z;
  oset_sumOfKeys : ptr → M Z;
  oset_join : ptr → ptr → M ptr;
  oset_split : ptr → M (Z * ptr * ptr);
  oset_delete : ptr → M unit;
}.

(** ** Dictionaries *)

(** [NO_VALUE] is [(V) 0], [INVALID_KEY] is [0]. *)
Definition no_value : Z := 0.
Definition invalid_key : Z := 0.

(** What [find], [insert] and [erase] return: the value before the call. *)
Definition dict_find (m : gmap Z Z) (k : Z) : Z := default no_value (m !! k).

(** [insert] only inserts when the key is absent. *)
Definition dict_insert (k v : Z) (m : gmap Z Z) : gmap Z Z :=
  match m !! k with Some _ => m | None => <[k := v]> m end.

(** Every key of [m] is below (is at least) [k]. *)
Definition dict_below (m : gmap Z Z) (k : Z) : Prop := ∀ x, is_Some (m !! x) → x < k.
Definition dict_from (m : gmap Z Z) (k : Z) : Prop := ∀ x, is_Some (m !! x) → k ≤ x.

(** Every key of [m1] is below every key of [m2]. *)
Definition dict_before (m1 m2 : gmap Z Z) : Prop :=
  ∀ x y, is_Some (m1 !! x) → is_Some (m2 !! y) → x < y.

(** The number and the sum of the keys. *)
Definition dict_sum (f : Z → Z) (m : gmap Z Z) : Z := map_fold (λ k _ s, f k + s) 0 m.

Lemma dict_before_disjoint m1 m2 : dict_before m1 m2 → m1 ##ₘ m2.
Proof.
  intros Hb. apply map_disjoint_spec. intros i x y Hx Hy.
  pose proof (Hb i i ltac:(by eexists) ltac:(by eexists)). lia.
Qed.

Lemma dict_below_from_before m1 m2 k : dict_below m1 k → dict_from m2 k → dict_before m1 m2.
Proof. intros H1 H2 x y Hx%H1 Hy%H2. lia. Qed.

Lemma dict_insert_keys k v m x : is_Some (dict_insert k v m !! x) → x = k ∨ is_Some (m !! x).
Proof.
  unfold dict_insert. destruct (m !! k); [by right |].
  rewrite lookup_insert_is_Some. naive_solver.
Qed.

Lemma dict_delete_keys k (m : gmap Z Z) x : is_Some (delete k m !! x) → is_Some (m !! x).
Proof. rewrite lookup_delete_is_Some. naive_solver. Qed.

Lemma dict_sum_insert f k v m :
  m !! k = None → dict_sum f (<[k := v]> m) = f k + dict_sum f m.
Proof. intros. rewrite /dict_sum map_fold_insert_L //. intros. lia. Qed.

(** The split of a dictionary at a key. *)
Record split_at (m : gmap Z Z) (k : Z) (m1 m2 : gmap Z Z) : Prop := {
  split_union : m = m1 ∪ m2;
  split_below : dict_below m1 k;
  split_from : dict_from m2 k;
  split_left_nonempty : m1 ≠ ∅;
  split_key_in : is_Some (m2 !! k);
}.

(** ** The laws

    [is_set s m]: the set object at [s] stands for the dictionary [m].
    [spent s]: the object that [join] or [split] has emptied into new ones.
    [valid_key], [splittable]: the keys the implementation can store and the
    dictionaries it can split.
    Each law is a specification in weakest-precondition form, so it includes
    termination and the absence of faults. *)
Class OrderedSetLaws (S : IOrderedSet) := {
  is_set : loc → gmap Z Z → hprop;
  spent : loc → hprop;
  valid_key : Z → Prop;
  splittable : gmap Z Z → Prop;

  oset_new_law Q : (∀ s, is_set s ∅ -∗ Q (Some s)) ⊢ wp oset_new Q;

  oset_find_law s m k Q :
    is_set s m -∗ (is_set s m -∗ Q (dict_find m k)) -∗ wp (oset_find (Some s) k) Q;

  oset_insert_law s m k v Q :
    valid_key k →
    is_set s m -∗ (is_set s (dict_insert k v m) -∗ Q (dict_find m k)) -∗
    wp (oset_insert (Some s) k v) Q;

  oset_erase_law s m k Q :
    is_set s m -∗ (is_set s (delete k m) -∗ Q (dict_find m k)) -∗
    wp (oset_erase (Some s) k) Q;

  oset_join_law s1 s2 m1 m2 Q :
    dict_before m1 m2 → m1 !! invalid_key = None → m2 !! invalid_key = None →
    is_set s1 m1 -∗ is_set s2 m2 -∗
    (∀ s, is_set s (m1 ∪ m2) -∗ spent s1 -∗ spent s2 -∗ Q (Some s)) -∗
    wp (oset_join (Some s1) (Some s2)) Q;

  oset_split_law s m Q :
    splittable m →
    is_set s m -∗
    ((<affine> ⌜(size m ≤ 1)%nat⌝ -∗ is_set s m -∗ Q (invalid_key, NULL, NULL)) ∧
     (∀ k s1 s2 m1 m2, <affine> ⌜(1 < size m)%nat ∧ split_at m k m1 m2⌝ -∗
        is_set s1 m1 -∗ is_set s2 m2 -∗ spent s -∗ Q (k, Some s1, Some s2))) -∗
    wp (oset_split (Some s)) Q;

  oset_delete_law s m Q : is_set s m -∗ Q () -∗ wp (oset_delete (Some s)) Q;

  oset_numKeys_law s m Q :
    (Z.of_nat (size m) < 2 ^ 31) →
    is_set s m -∗ (is_set s m -∗ Q (Z.of_nat (size m))) -∗ wp (oset_numKeys (Some s)) Q;

  oset_sumOfKeys_law s m Q :
    dict_from m 0 → dict_sum id m < 2 ^ 31 →
    is_set s m -∗ (is_set s m -∗ Q (dict_sum id m)) -∗ wp (oset_sumOfKeys (Some s)) Q;
}.

(** What the contention-adapting tree needs beyond the laws: no restriction on
    keys and sizes, and a destructor that accepts a spent object, for the
    reclamation of replaced base nodes. *)
Class BaseSetLaws (S : IOrderedSet) `{!OrderedSetLaws S} := {
  all_valid k : valid_key k;
  all_splittable m : splittable m;
  oset_delete_spent s Q : spent s -∗ Q () -∗ wp (oset_delete (Some s)) Q;
}.

(** ** Clients

    A session with one set object: it is created, a sequence of operations is
    run on it, and it is deleted. *)
Inductive set_op :=
  | OpFind (k : Z)
  | OpInsert (k v : Z)
  | OpErase (k : Z).

(** The same operations on a dictionary. *)
Definition dict_op (m : gmap Z Z) (op : set_op) : Z * gmap Z Z :=
  match op with
  | OpFind k => (dict_find m k, m)
  | OpInsert k v => (dict_find m k, dict_insert k v m)
  | OpErase k => (dict_find m k, delete k m)
  end.
Fixpoint dict_ops (m : gmap Z Z) (ops : list set_op) : list Z * gmap Z Z :=
  match ops with
  | [] => ([], m)
  | op :: ops =>
      let '(r, m) := dict_op m op in
      let '(rs, m) := dict_ops m ops in (r :: rs, m)
  end.

Section sessions.
Context {OS : IOrderedSet} {Laws : OrderedSetLaws OS}.

Definition run_op (s : ptr) (op : set_op) : M Z :=
  match op with
  | OpFind k => oset_find s k
  | OpInsert k v => oset_insert s k v
  | OpErase k => oset_erase s k
  end.
Fixpoint run_ops (s : ptr) (ops : list set_op) : M (list Z) :=
  match ops with
  | [] => mret []
  | op :: ops => r ← run_op s op; rs ← run_ops s ops; mret (r :: rs)
  end.
Definition session (ops : list set_op) : M (list Z) :=
  s ← oset_new; rs ← run_ops s ops; oset_delete s;; mret rs.

(** Only an insertion stores a key. *)
Definition op_valid (op : set_op) : Prop :=
  match op with OpInsert k _ => valid_key k | _ => True end.

Lemma wp_run_op s m op Q :
  op_valid op →
  is_set s m -∗ (is_set s (dict_op m op).2 -∗ Q (dict_op m op).1) -∗ wp (run_op (Some s) op) Q.
Proof.
  destruct op; intros Hv; simpl;
    [iApply oset_find_law | by iApply oset_insert_law | iApply oset_erase_law].
Qed.

Lemma wp_run_ops s m ops Q :
  Forall op_valid ops →
  is_set s m -∗ (is_set s (dict_ops m ops).2 -∗ Q (dict_ops m ops).1) -∗
  wp (run_ops (Some s) ops) Q.
Proof.
  iIntros (Hv) "Hs HQ". iInduction ops as [|op ops IH] forall (m Q Hv); simpl.
  { wp_step. by iApply "HQ". }
  inversion_clear Hv. iApply wp_bind. iApply (wp_run_op with "Hs"); [done |]. iIntros "Hs".
  destruct (dict_op m op) as [r m']. simpl. iApply wp_bind. iApply ("IH" with "[//] Hs").
  iIntros "Hs". destruct (dict_ops m' ops) as [rs m'']. simpl. wp_step. by iApply "HQ".
Qed.

(** From the empty store a session returns what the dictionary returns, and
    leaves the store empty: nothing leaks. *)
Lemma session_refines ops :
  Forall op_valid ops → session ops ∅ = Ok (dict_ops ∅ ops).1 ∅.
Proof.
  intros Hv. apply wp_closed. rewrite /session. iIntros "_".
  iApply wp_bind. iApply oset_new_law. iIntros (s) "Hs".
  iApply wp_bind. iApply (wp_run_ops with "Hs"); [done |]. iIntros "Hs".
  iApply wp_bind. iApply (oset_delete_law with "Hs"). by wp_step.
Qed.
End sessions.
