(* ===== verification/BinTree.v ===== *)
(** * BinTree: annotated binary trees, contexts and ordered association lists

    The functional side of every search tree of the program: a tree carries a
    key, a value and an annotation (a balance or a colour) at each node; a
    context is the path from a subtree up to the root.  The keys in symmetric
    order are the abstract content. *)
From S2P Require Import Prelude.

Inductive tree (A : Type) :=
  | Leaf
  | Node (l : tree A) (k v : Z) (a : A) (r : tree A).
Arguments Leaf {_}.
Arguments Node {_} _ _ _ _ _.
#[global] Instance tree_eq_dec `{EqDecision A} : EqDecision (tree A).
Proof. solve_decision. Defined.

(** One level of the path above a subtree: the subtree is the left ([FL]) or
    the right ([FR]) child of the node. *)
Inductive frame (A : Type) :=
  | FL (k v : Z) (a : A) (r : tree A)
  | FR (l : tree A) (k v : Z) (a : A).
Arguments FL {_} _ _ _ _.
Arguments FR {_} _ _ _ _.

Abbreviation ctx A := (list (frame A)).

Section trees.
Context {A : Type}.
Implicit Types (t l r : tree A) (f : frame A) (c : ctx A) (k v : Z).

Fixpoint elements t : list (Z * Z) :=
  match t with
  | Leaf => []
  | Node l k v _ r => elements l ++ (k, v) :: elements r
  end.

Fixpoint height t : nat :=
  match t with
  | Leaf => 0
  | Node l _ _ _ r => S (height l `max` height r)
  end.

Fixpoint tsize t : nat :=
  match t with
  | Leaf => 0
  | Node l _ _ _ r => S (tsize l + tsize r)
  end.

Definition is_leaf t : bool := match t with Leaf => true | _ => false end.

Definition plug_frame f t : tree A :=
  match f with
  | FL k v a r => Node t k v a r
  | FR l k v a => Node l k v a t
  end.

Fixpoint plug c t : tree A :=
  match c with
  | [] => t
  | f :: c => plug c (plug_frame f t)
  end.

(** What lies left and right of the hole of a context, in symmetric order. *)
Definition frame_l f : list (Z * Z) :=
  match f with FL _ _ _ _ => [] | FR l k v _ => elements l ++ [(k, v)] end.
Definition frame_r f : list (Z * Z) :=
  match f with FL k v _ r => (k, v) :: elements r | FR _ _ _ _ => [] end.
Fixpoint ctx_l c : list (Z * Z) :=
  match c with [] => [] | f :: c => ctx_l c ++ frame_l f end.
Fixpoint ctx_r c : list (Z * Z) :=
  match c with [] => [] | f :: c => frame_r f ++ ctx_r c end.

(** The search path for [k]: where it stops and the path it has taken. *)
Fixpoint descend (k : Z) t c : ctx A * tree A :=
  match t with
  | Leaf => (c, Leaf)
  | Node l k' v a r =>
      if (k <? k')%Z then descend k l (FL k' v a r :: c)
      else if (k >? k')%Z then descend k r (FR l k' v a :: c)
      else (c, t)
  end.

Lemma elements_plug_frame f t : elements (plug_frame f t) = frame_l f ++ elements t ++ frame_r f.
Proof. destruct f; simpl; by rewrite ?app_nil_r -?app_assoc. Qed.

Lemma elements_plug c t : elements (plug c t) = ctx_l c ++ elements t ++ ctx_r c.
Proof.
  revert t. induction c as [|f c IH]; intros t; simpl; [by rewrite app_nil_r |].
  by rewrite IH elements_plug_frame -!app_assoc.
Qed.

Lemma plug_app c1 c2 t : plug (c1 ++ c2) t = plug c2 (plug c1 t).
Proof. revert t. induction c1 as [|f c1 IH]; intros t; simpl; [done | apply IH]. Qed.

Lemma ctx_l_app c1 c2 : ctx_l (c1 ++ c2) = ctx_l c2 ++ ctx_l c1.
Proof. induction c1 as [|f c1 IH]; simpl; [by rewrite app_nil_r |]. by rewrite IH -app_assoc. Qed.
Lemma ctx_r_app c1 c2 : ctx_r (c1 ++ c2) = ctx_r c1 ++ ctx_r c2.
Proof. induction c1 as [|f c1 IH]; simpl; [done |]. by rewrite IH -app_assoc. Qed.

Lemma length_elements t : length (elements t) = tsize t.
Proof. induction t as [|l IHl k v a r IHr]; simpl; [done |]. rewrite length_app /=. lia. Qed.

Lemma height_le_tsize t : height t ≤ tsize t.
Proof. induction t; simpl; lia. Qed.

Lemma descend_plug k t c : plug (descend k t c).1 (descend k t c).2 = plug c t.
Proof.
  revert c. induction t as [|l IHl k' v a r IHr]; intros c; simpl; [done |].
  destruct (k <? k')%Z; [by rewrite IHl |].
  destruct (k >? k')%Z; [by rewrite IHr | done].
Qed.

Lemma descend_stops k t c :
  (descend k t c).2 = Leaf ∨ ∃ l v a r, (descend k t c).2 = Node l k v a r.
Proof.
  revert c. induction t as [|l IHl k' v a r IHr]; intros c; simpl; [by left |].
  destruct (Z.ltb_spec k k'); [by apply IHl |].
  destruct (Z.gtb_spec k k'); [by apply IHr |].
  assert (k = k') as -> by lia. right. by repeat eexists.
Qed.
(** ** Sides: [d] is true when the near side is the left one *)

Definition sn (d : bool) t k v (a : A) (b : tree A) : tree A :=
  if d then Node t k v a b else Node b k v a t.
Definition sf (d : bool) k v (a : A) (sib : tree A) : frame A :=
  if d then FL k v a sib else FR sib k v a.

(** Every frame is one of the two, and so is every node. *)
Lemma frame_side f : ∃ d k v a s, f = sf d k v a s.
Proof. destruct f as [k v c s|s k v c]; [exists true | exists false]; by repeat eexists. Qed.
Lemma node_side d t : t ≠ Leaf → ∃ x k v a y, t = sn d x k v a y.
Proof.
  destruct t as [|l k v c r]; [done |]. intros _.
  destruct d; [by exists l, k, v, c, r | by exists r, k, v, c, l].
Qed.

(** [spine d c]: the path [c] goes to the near side only. *)
Definition spine (d : bool) c : Prop := Forall (λ f, ∃ k v a s, f = sf d k v a s) c.

Lemma spine_ctx_l c : spine true c → ctx_l c = [].
Proof. induction 1 as [|f c (k & v & a & s & ->) _ IH]; simpl; [done |]. by rewrite IH. Qed.
Lemma spine_ctx_r c : spine false c → ctx_r c = [].
Proof. induction 1 as [|f c (k & v & a & s & ->) _ IH]; simpl; [done |]. by rewrite IH. Qed.

(** The first or last element of a tree, at the end of a spine. *)
Lemma elements_end d c k v a r :
  spine d c → elements (plug c (sn d Leaf k v a r)) =
    (if d then (k, v) :: elements (plug c r) else elements (plug c r) ++ [(k, v)]).
Proof.
  intros Hsp. rewrite !elements_plug. destruct d; simpl.
  - by rewrite spine_ctx_l.
  - by rewrite spine_ctx_r // !app_nil_r !app_assoc.
Qed.
End trees.

(** ** Ordered association lists *)

Definition kv_lt (x y : Z * Z) : Prop := (x.1 < y.1)%Z.
Definition ordered (l : list (Z * Z)) : Prop := StronglySorted kv_lt l.

(** The dictionary a list of pairs stands for. *)
Definition to_map (l : list (Z * Z)) : gmap Z Z := list_to_map l.

Definition keys_below (l : list (Z * Z)) (k : Z) : Prop := Forall (λ x, x.1 < k)%Z l.
Definition keys_above (l : list (Z * Z)) (k : Z) : Prop := Forall (λ x, k < x.1)%Z l.

Lemma ordered_app l1 l2 :
  ordered (l1 ++ l2) ↔
  ordered l1 ∧ ordered l2 ∧ (∀ x y, x ∈ l1 → y ∈ l2 → kv_lt x y).
Proof.
  split.
  - intros H. split_and!.
    + by eapply StronglySorted_app_1_l.
    + by eapply StronglySorted_app_1_r.
    + intros x y. by eapply StronglySorted_app_1_elem_of.
  - intros (H1 & H2 & H). by apply StronglySorted_app_2.
Qed.

Lemma ordered_cons x l : ordered (x :: l) ↔ ordered l ∧ ∀ y, y ∈ l → kv_lt x y.
Proof.
  split.
  - intros [? H]%StronglySorted_inv. split; [done |]. by apply Forall_forall.
  - intros [? H]. constructor; [done |]. by apply Forall_forall.
Qed.

Lemma ordered_middle l1 x l2 :
  ordered (l1 ++ x :: l2) ↔
  ordered (l1 ++ l2) ∧ keys_below l1 x.1 ∧ keys_above l2 x.1.
Proof.
  rewrite !ordered_app ordered_cons /keys_below /keys_above !Forall_forall /kv_lt.
  set_solver.
Qed.

Lemma ordered_insert l1 x l2 :
  ordered (l1 ++ l2) → keys_below l1 x.1 → keys_above l2 x.1 → ordered (l1 ++ x :: l2).
Proof. intros. by apply ordered_middle. Qed.

Lemma ordered_split l1 l2 : ordered (l1 ++ l2) → ordered l1 ∧ ordered l2.
Proof. rewrite ordered_app. tauto. Qed.

Lemma to_map_insert l1 k v l2 :
  keys_below l1 k → to_map (l1 ++ (k, v) :: l2) = <[k := v]> (to_map (l1 ++ l2)).
Proof.
  induction 1 as [|[k' v'] l1 Hlt _ IH]; simpl; [done |]. simpl in Hlt.
  rewrite /to_map /= in IH *. rewrite IH insert_insert_ne //. lia.
Qed.

Lemma to_map_None l k : Forall (λ x, x.1 ≠ k) l → to_map l !! k = None.
Proof.
  induction 1 as [|[k' v'] l ? _ IH]; simpl; [done |]. by rewrite lookup_insert_ne.
Qed.

Lemma to_map_absent l1 l2 k :
  keys_below l1 k → keys_above l2 k → to_map (l1 ++ l2) !! k = None.
Proof.
  intros H1 H2. apply to_map_None, Forall_app. split.
  - eapply Forall_impl; [done |]. simpl. lia.
  - eapply Forall_impl; [done |]. simpl. lia.
Qed.

Lemma to_map_lookup l1 k v l2 : keys_below l1 k → to_map (l1 ++ (k, v) :: l2) !! k = Some v.
Proof. intros H. rewrite to_map_insert // lookup_insert_eq //. Qed.

Lemma to_map_delete l1 k v l2 :
  keys_below l1 k → keys_above l2 k →
  to_map (l1 ++ l2) = delete k (to_map (l1 ++ (k, v) :: l2)).
Proof. intros H1 H2. rewrite to_map_insert // delete_insert_id //. by apply to_map_absent. Qed.

Lemma to_map_app l1 l2 : to_map (l1 ++ l2) = to_map l1 ∪ to_map l2.
Proof. apply list_to_map_app. Qed.

Lemma to_map_is_Some l k : is_Some (to_map l !! k) ↔ ∃ v, (k, v) ∈ l.
Proof.
  split.
  - intros [v Hv]. exists v. by apply elem_of_list_to_map_2.
  - intros [v Hv]. rewrite -not_eq_None_Some. intros Hn%not_elem_of_list_to_map_2.
    apply Hn, list_elem_of_fmap. by exists (k, v).
Qed.

Lemma ordered_NoDup l : ordered l → NoDup l.*1.
Proof.
  induction 1 as [|[k v] l _ IH Hall]; simpl; constructor; [|done].
  intros [[k' v'] [-> Hin]]%list_elem_of_fmap. rewrite Forall_forall in Hall.
  specialize (Hall _ Hin). unfold kv_lt in Hall. simpl in *. lia.
Qed.

Lemma to_map_elem_of l k v : ordered l → (k, v) ∈ l ↔ to_map l !! k = Some v.
Proof. intros H. apply elem_of_list_to_map, ordered_NoDup, H. Qed.

(** An ordered list is determined by its dictionary. *)
Lemma ordered_unique l1 l2 : ordered l1 → ordered l2 → to_map l1 = to_map l2 → l1 = l2.
Proof.
  intros H1 H2 Heq.
  assert (∀ x, x ∈ l1 ↔ x ∈ l2) as Hel.
  { intros [k v]. by rewrite (to_map_elem_of l1) // (to_map_elem_of l2) // Heq. }
  clear Heq. revert l2 H2 Hel. induction l1 as [|x l1 IH]; intros [|y l2] H2 Hel.
  - done.
  - exfalso. specialize (Hel y). set_solver.
  - exfalso. specialize (Hel x). set_solver.
  - apply ordered_cons in H1 as [H1 Hx]. apply ordered_cons in H2 as [H2 Hy].
    unfold kv_lt in *.
    assert (x = y) as ->.
    { assert (x ∈ y :: l2) as [|Hx']%elem_of_cons by (apply Hel; left); [done |].
      assert (y ∈ x :: l1) as [|Hy']%elem_of_cons by (apply Hel; left); [done |].
      specialize (Hx _ Hy'). specialize (Hy _ Hx'). lia. }
    f_equal. apply IH; [done.. |]. intros z. specialize (Hel z).
    rewrite !elem_of_cons in Hel. split; intros Hz.
    + destruct (proj1 Hel) as [->|]; [by right | | done].
      specialize (Hx _ Hz). lia.
    + destruct (proj2 Hel) as [->|]; [by right | | done].
      specialize (Hy _ Hz). lia.
Qed.

(** Sorting the pairs of a dictionary recovers the list. *)
Lemma to_map_size l : ordered l → size (to_map l) = length l.
Proof. intros H. rewrite /to_map map_size_list_to_map ?length_fmap //. by apply ordered_NoDup. Qed.

(** ** Search paths in ordered trees *)

Lemma descend_bounds {A} k (t : tree A) c :
  ordered (elements (plug c t)) → keys_below (ctx_l c) k → keys_above (ctx_r c) k →
  keys_below (ctx_l (descend k t c).1) k ∧ keys_above (ctx_r (descend k t c).1) k.
Proof.
  revert c. induction t as [|l IHl k' v a r IHr]; intros c Hord Hl Hr; simpl; [done |].
  pose proof Hord as Hord'. rewrite elements_plug /= -app_assoc /= app_assoc in Hord'.
  apply ordered_middle in Hord' as (_ & Hbl & Hab); simpl in Hbl, Hab.
  apply Forall_app in Hbl as [_ Hbl]. apply Forall_app in Hab as [Hab _].
  destruct (Z.ltb_spec k k').
  - apply IHl; simpl; [done | by rewrite app_nil_r |].
    constructor; [done |]. apply Forall_app; split; [|done].
    eapply Forall_impl; [done |]. simpl. lia.
  - destruct (Z.gtb_spec k k'); [|done]. apply IHr; simpl; [done | | done].
    apply Forall_app; split; [done |]. apply Forall_app; split; [|by repeat constructor].
    eapply Forall_impl; [done |]. simpl. lia.
Qed.

(** Searching [k] from the root: the elements are split around it. *)
Lemma descend_elements {A} k (t : tree A) :
  ordered (elements t) →
  let '(c, t') := descend k t [] in
  plug c t' = t ∧ keys_below (ctx_l c) k ∧ keys_above (ctx_r c) k ∧
  match t' with
  | Leaf => elements t = ctx_l c ++ ctx_r c
  | Node l k' v _ r =>
      k' = k ∧ elements t = (ctx_l c ++ elements l) ++ (k, v) :: elements r ++ ctx_r c ∧
      keys_below (ctx_l c ++ elements l) k ∧ keys_above (elements r ++ ctx_r c) k
  end.
Proof.
  intros Hord.
  pose proof (descend_plug k t []) as Hplug. pose proof (descend_stops k t []) as Hst.
  destruct (descend_bounds k t []) as [Hl Hr]; [done | constructor..|].
  destruct (descend k t []) as [c t'] eqn:Heq; simpl in *.
  assert (elements t = ctx_l c ++ elements t' ++ ctx_r c) as Hel
    by (rewrite -elements_plug Hplug //).
  split_and!; [done..|]. destruct t' as [|l k' v a r]; [done |].
  destruct Hst as [|(?&?&?&?&[= -> -> -> -> ->])]; [done |].
  rewrite /= -app_assoc /= app_assoc in Hel. split_and!; [done..| |].
  - rewrite Hel in Hord. by apply ordered_middle in Hord as (_ & ? & _).
  - rewrite Hel in Hord. by apply ordered_middle in Hord as (_ & _ & ?).
Qed.

(** The value a search for [k] finds. *)
Fixpoint tfind {A} (k : Z) (t : tree A) : option Z :=
  match t with
  | Leaf => None
  | Node l k' v _ r =>
      if (k <? k')%Z then tfind k l else if (k >? k')%Z then tfind k r else Some v
  end.

Lemma tfind_to_map {A} k (t : tree A) : ordered (elements t) → to_map (elements t) !! k = tfind k t.
Proof.
  induction t as [|l IHl k' v a r IHr]; intros Hord; [done |]. simpl in Hord |- *.
  pose proof Hord as ([Hol Hor]%ordered_split & Hb & Ha)%ordered_middle. simpl in Hb, Ha.
  rewrite to_map_insert // to_map_app. destruct (Z.ltb_spec k k').
  - rewrite lookup_insert_ne; [|lia]. rewrite lookup_union_l; [by apply IHl |].
    apply to_map_None. eapply Forall_impl; [exact Ha |]. simpl. lia.
  - destruct (Z.gtb_spec k k').
    + rewrite lookup_insert_ne; [|lia]. rewrite lookup_union_r; [by apply IHr |].
      apply to_map_None. eapply Forall_impl; [exact Hb |]. simpl. lia.
    + assert (k = k') as -> by lia. by rewrite lookup_insert_eq.
Qed.
