(* ===== verification/BinHeap.v ===== *)
(** * BinHeap: linked binary trees with parent pointers in the store

    The representation predicates that the AVL tree, the red-black tree and the
    splay tree share.  [mk] builds a node object from its key, its two
    children, its parent, its annotation and its value. *)
From S2P Require Import Prelude Memory SepLogic BinTree.

Section linked.
Context {T A : Type} `{Object T} (mk : Z → ptr → ptr → ptr → A → Z → T).
Implicit Types (t l r : tree A) (p par : ptr).

(** [tree_at p par t]: [p] points to the nodes of [t], whose root has parent
    pointer [par]; every node's parent pointer is right. *)
Fixpoint tree_at (p par : ptr) (t : tree A) : hprop :=
  match t with
  | Leaf => <affine> ⌜p = NULL⌝
  | Node l k v a r => ∃ (x : loc) (pl pr : ptr),
      <affine> ⌜p = Some x⌝ ∗ x ↦ mk k pl pr par a v ∗
      tree_at pl (Some x) l ∗ tree_at pr (Some x) r
  end%I.

(** A path with the address of each of its nodes. *)
Abbreviation lctx := (list (loc * frame A)).

(** The node a path's hole belongs to: the innermost one, or [top]. *)
Definition par_of (c : lctx) (top : ptr) : ptr :=
  match c with [] => top | (x, _) :: _ => Some x end.

(** [path_at c p rp rpar]: the nodes of the path [c]; its hole holds [p]; the
    pointer above its topmost node is [rp] and belongs to [rpar]. *)
Fixpoint path_at (c : lctx) (p rp rpar : ptr) : hprop :=
  match c with
  | [] => <affine> ⌜rp = p⌝
  | (x, FL k v a r) :: c => ∃ pr : ptr,
      x ↦ mk k p pr (par_of c rpar) a v ∗ tree_at pr (Some x) r ∗
      path_at c (Some x) rp rpar
  | (x, FR l k v a) :: c => ∃ pl : ptr,
      x ↦ mk k pl p (par_of c rpar) a v ∗ tree_at pl (Some x) l ∗
      path_at c (Some x) rp rpar
  end%I.

Lemma tree_at_ne x (o : obj) p par t : pt x o -∗ tree_at p par t -∗ ⌜p ≠ Some x⌝.
Proof.
  iIntros "Hx Ht". destruct t as [|l k v b r]; simpl.
  - by iDestruct "Ht" as %->.
  - iDestruct "Ht" as (y pl pr ->) "(Hy & _)". iIntros ([= ->]).
    iApply (pt_exclusive with "[$Hx $Hy]").
Qed.

Lemma plug_at c p rp rpar t :
  path_at c p rp rpar -∗ tree_at p (par_of c rpar) t -∗ tree_at rp rpar (plug c.*2 t).
Proof.
  iIntros "Hc Ht". iInduction c as [|[x [k v b r|l k v b]] c] "IH" forall (p t); simpl.
  - by iDestruct "Hc" as %->.
  - iDestruct "Hc" as (pr) "(Hx & Hr & Hc)". iApply ("IH" with "Hc"). simpl.
    iExists x, p, pr. by iFrame.
  - iDestruct "Hc" as (pl) "(Hx & Hl & Hc)". iApply ("IH" with "Hc"). simpl.
    iExists x, pl, p. by iFrame.
Qed.

(** The root of a tree with a path of one node or more is on the path. *)
Lemma path_at_ne x (o : obj) f c p rp rpar :
  pt x o -∗ path_at (f :: c) p rp rpar -∗ ⌜rp ≠ Some x⌝.
Proof.
  iIntros "Hx Hc". iInduction c as [|g c IH] forall (f p).
  - destruct f as [y []]; simpl; iDestruct "Hc" as (q) "(Hy & _ & ->)"; iIntros ([= ->]);
      iApply (pt_exclusive with "[$Hx $Hy]").
  - destruct f as [y []]; iDestruct "Hc" as (q) "(_ & _ & Hc)"; iApply ("IH" with "Hx Hc").
Qed.

Lemma par_of_app (c1 c2 : lctx) rpar : par_of (c1 ++ c2) rpar = par_of c1 (par_of c2 rpar).
Proof. by destruct c1 as [|[]]. Qed.

Lemma path_at_app c1 c2 p rp rpar :
  path_at (c1 ++ c2) p rp rpar ⊣⊢
  ∃ q, path_at c1 p q (par_of c2 rpar) ∗ path_at c2 q rp rpar.
Proof.
  revert p. induction c1 as [|[x [k v b r|l k v b]] c1 IH]; intros p; simpl.
  - iSplit; [iIntros "H"; iExists p; by iFrame | by iIntros "(%q & -> & H)"].
  - rewrite par_of_app. setoid_rewrite IH. iSplit.
    + iIntros "(%pr & Hx & Hr & %q & H1 & H2)". iExists q. iFrame.
    + iIntros "(%q & (%pr & Hx & Hr & H1) & H2)". iExists pr. iFrame.
  - rewrite par_of_app. setoid_rewrite IH. iSplit.
    + iIntros "(%pr & Hx & Hr & %q & H1 & H2)". iExists q. iFrame.
    + iIntros "(%q & (%pr & Hx & Hr & H1) & H2)". iExists pr. iFrame.
Qed.

(** ** Sides *)

(** A node with its near and far child in this order. *)
Definition nd (d : bool) (k v : Z) (par a b : ptr) (c : A) : T :=
  if d then mk k a b par c v else mk k b a par c v.

Lemma path_at_sf d x k v c s cs p rp rpar :
  path_at ((x, sf d k v c s) :: cs) p rp rpar ⊣⊢
  ∃ q, x ↦ nd d k v (par_of cs rpar) p q c ∗ tree_at q (Some x) s ∗ path_at cs (Some x) rp rpar.
Proof. by destruct d. Qed.

Lemma tree_at_sn d p par a k v c b :
  tree_at p par (sn d a k v c b) ⊣⊢
  ∃ x pa pb, <affine> ⌜p = Some x⌝ ∗ x ↦ nd d k v par pa pb c ∗
    tree_at pa (Some x) a ∗ tree_at pb (Some x) b.
Proof.
  destruct d; simpl; [done |]. iSplit.
  - iIntros "(%x & %pl & %pr & ? & ? & Hl & Hr)". iExists x, pr, pl. iFrame.
  - iIntros "(%x & %pa & %pb & ? & ? & Ha & Hb)". iExists x, pb, pa. iFrame.
Qed.

Lemma tree_path_ne p par t f c q rp rpar :
  tree_at p par t -∗ path_at (f :: c) q rp rpar -∗ ⌜rp ≠ p⌝.
Proof.
  iIntros "Ht Hc". destruct t as [|l k v b r]; simpl.
  - iDestruct "Ht" as %->. destruct f as [y fr]. iInduction c as [|[z g] c IH] forall (y fr q).
    + destruct fr; simpl; iDestruct "Hc" as (?) "(_ & _ & ->)"; done.
    + destruct fr; iDestruct "Hc" as (?) "(_ & _ & Hc)"; iApply ("IH" with "Hc").
  - iDestruct "Ht" as (x pl pr ->) "(Hx & _)". iApply (path_at_ne with "Hx Hc").
Qed.

(** ** Footprints *)

Lemma tree_at_size p par t : tree_at p par t ⊢ at_least (tsize t).
Proof.
  revert p par. induction t as [|l IHl k v b r IHr]; intros p par; simpl; [apply at_least_0 |].
  iIntros "(%x & %pl & %pr & _ & Hx & Hl & Hr)".
  rewrite IHl IHr at_least_pt. iCombine "Hl Hr" as "H". rewrite at_least_sep.
  iCombine "Hx H" as "H". rewrite at_least_sep. iStopProof. by apply at_least_weaken.
Qed.

Lemma path_at_size c p rp rpar : path_at c p rp rpar ⊢ at_least (length c).
Proof.
  revert p. induction c as [|[x [k v b r|l k v b]] c IH]; intros p; simpl;
    [apply at_least_0 |..]; iIntros "(%q & Hx & _ & Hc)";
    rewrite IH at_least_pt; iCombine "Hx Hc" as "H"; rewrite at_least_sep //.
Qed.

End linked.

(** [wp_while n from lem H]: enter a loop that takes at most [n] turns, as the
    footprint [lem] of the assertion [H] shows. *)
Tactic Notation "wp_while" constr(n) "from" uconstr(lem) constr(H) :=
  iApply (wp_loop n); iSplit;
    [iApply (at_least_weaken with "[-]"); [|iApply (lem with H)];
       [first [done | lia | apply height_le_tsize]] |];
  let fuel := fresh "fuel" in let Hf := fresh "Hfuel" in
  iIntros (fuel Hf).
