(* ===== verification/DictTree.v ===== *)
(** * DictTree: search trees as dictionaries

    [dict_of m t]: the keys of the tree [t] are in symmetric order and [t]
    stands for the dictionary [m].  The lemmas say what changes of the elements
    mean for the dictionary. *)
From S2P Require Import Prelude OrderedSet BinTree.
#[local] Open Scope Z_scope.

(** ** Sums over the keys *)

Lemma dict_sum_to_map f l :
  ordered l → dict_sum f (to_map l) = foldr (λ kv s, f kv.1 + s) 0 l.
Proof.
  induction l as [|[k v] l IH]; [done |]. intros Hord.
  pose proof (proj1 (ordered_middle [] _ _) Hord) as (Ho & _ & Ha). simpl in *.
  change (dict_sum f (<[k := v]> (to_map l)) = f k + foldr (λ kv s, f kv.1 + s) 0 l).
  rewrite dict_sum_insert; [by rewrite IH |].
  apply (to_map_absent [] l k); [constructor | done].
Qed.

Lemma dict_sum_nonneg m : dict_from m 0 → 0 ≤ dict_sum id m.
Proof.
  induction m as [|k v m Hk IH] using map_ind; [done |]. intros Hf.
  rewrite dict_sum_insert //. change (0 ≤ k + dict_sum id m). pose proof (Hf k ltac:(by rewrite lookup_insert_eq)).
  assert (dict_from m 0) as Hm; [|apply IH in Hm; lia].
  intros x Hx. apply Hf. rewrite lookup_insert_is_Some.
  destruct (decide (k = x)); [by left | by right].
Qed.

Lemma foldr_sum_app (f : Z → Z) (l1 l2 : list (Z * Z)) :
  foldr (λ kv s, f kv.1 + s) 0 (l1 ++ l2) =
  foldr (λ kv s, f kv.1 + s) 0 l1 + foldr (λ kv s, f kv.1 + s) 0 l2.
Proof. induction l1 as [|x l1 IH]; simpl; [lia |]. rewrite IH. lia. Qed.

(** ** Dictionaries *)

Section dict_tree.
Context {A : Type}.
Implicit Types (t : tree A) (m : gmap Z Z).

Definition dict_of m t : Prop := ordered (elements t) ∧ to_map (elements t) = m.

Lemma descend_tfind k t c :
  match (descend k t c).2 with
  | Leaf => tfind k t = None
  | Node _ _ v _ _ => tfind k t = Some v
  end.
Proof.
  revert c. induction t as [|l IHl k' v a r IHr]; intros c; simpl; [done |].
  destruct (k <? k'); [apply IHl |]. destruct (k >? k'); [apply IHr | done].
Qed.

(** Comparing with the last node of the path picks the side on which the search
    ended. *)
Lemma descend_side k t x c :
  ordered (elements t) → (descend k t []).1 = x :: c →
  match x with FL k' _ _ _ => k < k' | FR _ k' _ _ => k' < k end.
Proof.
  intros Hord Hd. pose proof (descend_elements k t Hord) as He.
  destruct (descend k t []) as [c' t']. simpl in Hd. subst c'. destruct He as (_ & Hl & Hr & _).
  destruct x; simpl in *.
  - by inversion Hr.
  - rewrite /keys_below !Forall_app in Hl. destruct Hl as (_ & _ & Hl). by inversion Hl.
Qed.

Lemma dict_of_leaf : dict_of ∅ Leaf.
Proof. split; [constructor | done]. Qed.

Lemma dict_of_elements m t t' : elements t' = elements t → dict_of m t → dict_of m t'.
Proof. rewrite /dict_of. by intros ->. Qed.

Lemma dict_of_find m t k : dict_of m t → default no_value (tfind k t) = dict_find m k.
Proof. intros [Hord <-]. by rewrite /dict_find tfind_to_map. Qed.

Lemma dict_of_present m t k v w : dict_of m t → tfind k t = Some w → dict_insert k v m = m.
Proof. intros [Hord <-] Ht. by rewrite /dict_insert tfind_to_map // Ht. Qed.

Lemma dict_of_insert m t k v a t' :
  dict_of m t → tfind k t = None →
  elements t' = elements (plug (descend k t []).1 (Node Leaf k v a Leaf)) →
  dict_of (dict_insert k v m) t'.
Proof.
  intros [Hord <-] Hf Hel. pose proof (descend_elements k t Hord) as Hd.
  pose proof (descend_tfind k t []) as Hs. destruct (descend k t []) as [c [|l k' w b r]]; simpl in *;
    [|congruence]. destruct Hd as (_ & Hl & Hr & Hd).
  rewrite elements_plug /= in Hel. rewrite /dict_of Hel /dict_insert tfind_to_map // Hf Hd.
  rewrite Hd in Hord. split; [by apply ordered_insert | by apply to_map_insert].
Qed.

Lemma dict_of_absent m t k : dict_of m t → tfind k t = None → delete k m = m.
Proof. intros [Hord <-] Ht. apply delete_id. by rewrite tfind_to_map. Qed.

Lemma dict_of_delete m t k w l1 l2 t' :
  dict_of m t → elements t = l1 ++ (k, w) :: l2 → elements t' = l1 ++ l2 →
  dict_of (delete k m) t'.
Proof.
  intros [Hord <-] Hel Hel'. rewrite Hel in Hord |- *. rewrite /dict_of Hel'.
  apply ordered_middle in Hord as (Hord & Hb & Ha). split; [done |]. by apply to_map_delete.
Qed.

Lemma dict_of_keys m t k : dict_of m t → is_Some (m !! k) ↔ ∃ v, (k, v) ∈ elements t.
Proof. intros (_ & <-). apply to_map_is_Some. Qed.

Lemma dict_of_union m1 m2 t1 t2 t :
  dict_of m1 t1 → dict_of m2 t2 → dict_before m1 m2 → elements t = elements t1 ++ elements t2 →
  dict_of (m1 ∪ m2) t.
Proof.
  intros H1 H2 Hb Hel. split; rewrite Hel.
  - apply ordered_app. split_and!; [apply H1 | apply H2 |].
    intros [k1 v1] [k2 v2] Hin1 Hin2. apply (Hb k1 k2).
    + apply (dict_of_keys _ _ _ H1). by eexists.
    + apply (dict_of_keys _ _ _ H2). by eexists.
  - rewrite to_map_app. by destruct H1 as [_ <-], H2 as [_ <-].
Qed.

Lemma dict_of_size m t : dict_of m t → size m = tsize t.
Proof. intros (Hord & <-). by rewrite to_map_size // length_elements. Qed.

(** The sum of an attribute of the keys. *)
Fixpoint tsum (f : Z → Z) t : Z :=
  match t with Leaf => 0 | Node l k _ _ r => f k + tsum f l + tsum f r end.

Lemma dict_of_sum m t f : dict_of m t → tsum f t = dict_sum f m.
Proof.
  intros (Hord & <-). rewrite dict_sum_to_map //. clear Hord.
  induction t as [|l IHl k v a r IHr]; simpl; [done |]. rewrite foldr_sum_app IHl IHr /=. lia.
Qed.

Lemma tsum_one t : tsum (λ _, 1) t = Z.of_nat (tsize t).
Proof. induction t; simpl; lia. Qed.

(** Splitting the elements before a key splits the dictionary. *)
Lemma dict_of_split m t k v l1 l2 t1 t2 :
  dict_of m t → elements t = l1 ++ (k, v) :: l2 → l1 ≠ [] →
  elements t1 = l1 → elements t2 = (k, v) :: l2 →
  ∃ m1 m2, dict_of m1 t1 ∧ dict_of m2 t2 ∧ split_at m k m1 m2.
Proof.
  intros [Hord <-] Hel Hne H1 H2. rewrite Hel in Hord.
  pose proof (ordered_middle l1 (k, v) l2) as Hmid.
  destruct (proj1 Hmid Hord) as (_ & Hb & Ha); simpl in Hb, Ha.
  apply ordered_split in Hord as [Ho1 Ho2]. exists (to_map l1), (to_map ((k, v) :: l2)).
  split_and!; [by split; rewrite H1 | by split; rewrite H2 |]. split.
  - rewrite Hel. apply to_map_app.
  - intros x [w Hx]%to_map_is_Some. rewrite /keys_below Forall_forall in Hb. apply (Hb _ Hx).
  - intros x [w [[= -> ->]|Hx]%elem_of_cons]%to_map_is_Some; [lia |].
    rewrite /keys_above Forall_forall in Ha. specialize (Ha _ Hx). simpl in Ha. lia.
  - destruct l1 as [|[k1 v1] l1]; [done |]. simpl. intros He%(f_equal (.!! k1)).
    by rewrite lookup_insert_eq in He.
  - simpl. rewrite lookup_insert_eq. by eexists.
Qed.
End dict_tree.
