(* ===== verification/AVLSpec.v ===== *)
(** * AVLSpec: functional AVL rebalancing along a context

    What the loops of [AVLTree] compute, on trees: [grow] repairs the path
    above a subtree that has gained one level, [shrink] the path above one
    that has lost a level.  Each keeps the elements and restores the AVL
    invariant, in which the stored balance is the exact height difference. *)
From S2P Require Import Prelude BinTree.
#[local] Open Scope Z_scope.

Abbreviation atree := (tree Z).
Abbreviation aframe := (frame Z).
Abbreviation actx := (ctx Z).

Definition zheight (t : atree) : Z := Z.of_nat (height t).

(** ** The AVL invariant *)
Fixpoint avl (t : atree) : Prop :=
  match t with
  | Leaf => True
  | Node l _ _ b r => avl l ∧ avl r ∧ b = zheight r - zheight l ∧ -1 ≤ b ≤ 1
  end.

(** Stored balance of the root of a subtree; 0 for the empty tree. *)
Definition root_balance (t : atree) : Z :=
  match t with Leaf => 0 | Node _ _ _ b _ => b end.

(** A context whose hole expects a subtree of height [n]. *)
Definition frame_avl (f : aframe) (n : Z) : Prop :=
  match f with
  | FL _ _ b r => avl r ∧ b = zheight r - n ∧ -1 ≤ b ≤ 1
  | FR l _ _ b => avl l ∧ b = n - zheight l ∧ -1 ≤ b ≤ 1
  end.
Definition frame_height (f : aframe) (n : Z) : Z :=
  match f with
  | FL _ _ _ r => 1 + Z.max n (zheight r)
  | FR l _ _ _ => 1 + Z.max (zheight l) n
  end.
Fixpoint ctx_avl (c : actx) (n : Z) : Prop :=
  match c with
  | [] => True
  | f :: c => frame_avl f n ∧ ctx_avl c (frame_height f n)
  end.

Lemma ctx_avl_eq c n m : ctx_avl c n → n = m → ctx_avl c m.
Proof. by intros ? ->. Qed.

(** ** A subtree that has grown *)

Definition rot_left (t : atree) (k v : Z) (r : atree) : atree :=
  match t with
  | Node a k1 v1 _ b => Node a k1 v1 0 (Node b k v 0 r)
  | Leaf => Node Leaf k v 0 r
  end.
Definition rot_right (l : atree) (k v : Z) (t : atree) : atree :=
  match t with
  | Node b k1 v1 _ c => Node (Node l k v 0 b) k1 v1 0 c
  | Leaf => Node l k v 0 Leaf
  end.
Definition rot_double_right (t : atree) (k v : Z) (r : atree) : atree :=
  match t with
  | Node a k1 v1 _ (Node b k2 v2 b2 c) =>
      Node (Node a k1 v1 (if b2 =? 1 then -1 else 0) b) k2 v2 0
           (Node c k v (if b2 =? -1 then 1 else 0) r)
  | _ => Node t k v 0 r
  end.
Definition rot_double_left (l : atree) (k v : Z) (t : atree) : atree :=
  match t with
  | Node (Node b k2 v2 b2 c) k1 v1 _ d =>
      Node (Node l k v (if b2 =? 1 then -1 else 0) b) k2 v2 0
           (Node c k1 v1 (if b2 =? -1 then 1 else 0) d)
  | _ => Node l k v 0 t
  end.

(** One step up from a subtree [t] that is one level higher than [f] expects;
    the flag says whether the node above has grown, too. *)
Definition grow_frame (f : aframe) (t : atree) : atree * bool :=
  match f with
  | FL k v b r =>
      if b =? -1 then
        (if root_balance t =? -1 then rot_left t k v r else rot_double_right t k v r, false)
      else if b =? 0 then (Node t k v (-1) r, true)
      else (Node t k v 0 r, false)
  | FR l k v b =>
      if b =? 1 then
        (if root_balance t =? 1 then rot_right l k v t else rot_double_left l k v t, false)
      else if b =? 0 then (Node l k v 1 t, true)
      else (Node l k v 0 t, false)
  end.

Fixpoint grow (c : actx) (t : atree) : atree :=
  match c with
  | [] => t
  | f :: c => let '(t', up) := grow_frame f t in if up then grow c t' else plug c t'
  end.

(** The hole of [f] is on the side the node already leans to. *)
Definition leans_to_hole (f : aframe) : Prop :=
  match f with FL _ _ b _ => b = -1 | FR _ _ _ b => b = 1 end.

(** The precondition of one step up: a grown subtree that is evenly balanced
    hangs where the node does not already lean to it. *)
Definition grown (f : aframe) (t : atree) : Prop :=
  avl t ∧ t ≠ Leaf ∧ frame_avl f (zheight t - 1) ∧ (leans_to_hole f → root_balance t ≠ 0).

Ltac zh := unfold zheight in *; simpl height in *; lia.
Ltac case_z :=
  repeat match goal with
  | |- context [?x =? ?y] => destruct (Z.eqb_spec x y); try lia
  | |- context [?x >=? ?y] => rewrite Z.geb_leb
  | |- context [?x <=? ?y] => destruct (Z.leb_spec x y); try lia
  end.

Ltac list_eq := simpl; repeat (rewrite -app_assoc /=); rewrite ?app_nil_r; done.
(** Closes the goals left by a case analysis on the shape of an AVL tree:
    the invariant, the elements, the height. *)
Ltac avl_solve :=
  simpl in *; destruct_and?; split_and?; try done; try zh;
  first [list_eq | case_z; zh].

Lemma zheight_nonneg t : 0 ≤ zheight t.
Proof. zh. Qed.

Lemma zheight_leaf t : zheight t = 0 ↔ t = Leaf.
Proof. destruct t; unfold zheight; simpl; split; [done..| lia | done]. Qed.

Lemma grow_frame_spec f t t' up :
  grown f t → grow_frame f t = (t', up) →
  avl t' ∧ elements t' = elements (plug_frame f t) ∧ t' ≠ Leaf ∧
  zheight t' = frame_height f (zheight t - 1) + (if up then 1 else 0) ∧
  (up = true → root_balance t' ≠ 0).
Proof.
  intros (Ht & Hne & Hf & Hlean) Hg. destruct t as [|a k1 v1 b1 c]; [done |]. clear Hne.
  destruct f as [k v b r | l k v b]; simpl in Hf, Hlean, Hg;
    destruct Hf as (Hs & Hb & Hbr); destruct Ht as (Ha & Hc & Hb1 & Hb1r).
  - destruct (Z.eqb_spec b (-1)); [destruct (Z.eqb_spec b1 (-1)) |
      destruct (Z.eqb_spec b 0)]; simplify_eq/=.
    + avl_solve.
    + specialize (Hlean ltac:(zh)). destruct c as [|c1 k2 v2 b2 c2]; [zh |]. avl_solve.
    + avl_solve.
    + avl_solve.
  - destruct (Z.eqb_spec b 1); [destruct (Z.eqb_spec b1 1) |
      destruct (Z.eqb_spec b 0)]; simplify_eq/=.
    + avl_solve.
    + specialize (Hlean ltac:(zh)). destruct a as [|c1 k2 v2 b2 c2]; [zh |]. avl_solve.
    + avl_solve.
    + avl_solve.
Qed.

Definition ctx_grown (c : actx) (t : atree) : Prop :=
  avl t ∧ t ≠ Leaf ∧ ctx_avl c (zheight t - 1) ∧
  match c with [] => True | f :: _ => leans_to_hole f → root_balance t ≠ 0 end.

Lemma ctx_grown_head f c t : ctx_grown (f :: c) t → grown f t.
Proof. intros (? & ? & [? _] & ?). by split_and!. Qed.

Lemma ctx_grown_step f c t t' :
  ctx_grown (f :: c) t → grow_frame f t = (t', true) → ctx_grown c t'.
Proof.
  intros Hg Heq. pose proof (ctx_grown_head _ _ _ Hg) as Hh.
  destruct (grow_frame_spec _ _ _ _ Hh Heq) as (? & ? & ? & Hz & Hb).
  destruct Hg as (_ & _ & [_ Hc] & _). split_and!; try done.
  - by replace (zheight t' - 1) with (frame_height f (zheight t - 1)) by lia.
  - destruct c; [done | auto].
Qed.

(** Plugging a subtree of the height the context expects gives an AVL tree. *)
Lemma plug_avl c t : avl t → ctx_avl c (zheight t) → avl (plug c t).
Proof.
  revert t. induction c as [|f c IH]; intros t Ht Hc; simpl; [done |].
  destruct Hc as [Hf Hc]. apply IH.
  - destruct f; simpl in *; tauto.
  - destruct f; simpl in *; (eapply ctx_avl_eq; [exact Hc |]); zh.
Qed.

Lemma grow_spec c t :
  ctx_grown c t → avl (grow c t) ∧ elements (grow c t) = elements (plug c t).
Proof.
  revert t. induction c as [|f c IH]; intros t Hg; simpl.
  { destruct Hg as (? & _). by split. }
  destruct (grow_frame f t) as [t' up] eqn:Heq.
  destruct (grow_frame_spec _ _ _ _ (ctx_grown_head _ _ _ Hg) Heq) as (Ht' & He & _ & Hz & _).
  destruct up.
  - destruct (IH t') as [? Hel]; [by eapply ctx_grown_step |]. split; [done |].
    by rewrite Hel !elements_plug He.
  - destruct Hg as (_ & _ & [_ Hc] & _). split; [|by rewrite !elements_plug He].
    apply plug_avl; [done |]. by rewrite Hz Z.add_0_r.
Qed.

(** ** A subtree that has shrunk *)

Definition shrink_frame (f : aframe) (t : atree) : atree * bool :=
  match f with
  | FL k v b r =>
      if b =? -1 then (Node t k v 0 r, true)
      else if b =? 0 then (Node t k v 1 r, false)
      else
        match r with
        | Leaf => (Node t k v b r, true)
        | Node rl rk rv rb rr =>
            if rb >=? 0 then
              if rb =? 0 then (Node (Node t k v 1 rl) rk rv (-1) rr, false)
              else (Node (Node t k v 0 rl) rk rv 0 rr, true)
            else (rot_double_left t k v r, true)
        end
  | FR l k v b =>
      if b =? 1 then (Node l k v 0 t, true)
      else if b =? 0 then (Node l k v (-1) t, false)
      else
        match l with
        | Leaf => (Node l k v b t, true)
        | Node ll lk lv lb lr =>
            if lb <=? 0 then
              if lb =? 0 then (Node ll lk lv 1 (Node lr k v (-1) t), false)
              else (Node ll lk lv 0 (Node lr k v 0 t), true)
            else (rot_double_right l k v t, true)
        end
  end.

(** The flag is true when the whole tree has lost a level. *)
Fixpoint shrink (c : actx) (t : atree) : atree * bool :=
  match c with
  | [] => (t, true)
  | f :: c => let '(t', down) := shrink_frame f t in
              if down then shrink c t' else (plug c t', false)
  end.

Lemma shrink_frame_spec f t t' down :
  avl t → frame_avl f (zheight t + 1) → shrink_frame f t = (t', down) →
  avl t' ∧ elements t' = elements (plug_frame f t) ∧ t' ≠ Leaf ∧
  zheight t' + (if down then 1 else 0) = frame_height f (zheight t + 1).
Proof.
  intros Ht Hf Hs.
  destruct f as [k v b r | l k v b]; simpl in Hf, Hs; destruct Hf as (Hsib & Hb & Hbr).
  - destruct (Z.eqb_spec b (-1)); [simplify_eq/=; avl_solve |].
    destruct (Z.eqb_spec b 0); [simplify_eq/=; avl_solve |].
    destruct r as [|rl rk rv rb rr]; [zh |]. rewrite Z.geb_leb in Hs.
    destruct (Z.leb_spec 0 rb); [destruct (Z.eqb_spec rb 0)|]; simplify_eq/=; [avl_solve..|].
    destruct rl as [|a k2 v2 b2 c]; [zh |]. avl_solve.
  - destruct (Z.eqb_spec b 1); [simplify_eq/=; avl_solve |].
    destruct (Z.eqb_spec b 0); [simplify_eq/=; avl_solve |].
    destruct l as [|ll lk lv lb lr]; [zh |].
    destruct (Z.leb_spec lb 0); [destruct (Z.eqb_spec lb 0)|]; simplify_eq/=; [avl_solve..|].
    destruct lr as [|a k2 v2 b2 c]; [zh |]. avl_solve.
Qed.

Lemma shrink_frame_ctx f c t t' :
  avl t → ctx_avl (f :: c) (zheight t + 1) → shrink_frame f t = (t', true) →
  avl t' ∧ ctx_avl c (zheight t' + 1).
Proof.
  intros Ht [Hf Hc] Hs. destruct (shrink_frame_spec _ _ _ _ Ht Hf Hs) as (? & _ & _ & Hz).
  split; [done |]. by rewrite Hz.
Qed.

Lemma shrink_elements c t t' down :
  avl t → ctx_avl c (zheight t + 1) → shrink c t = (t', down) →
  elements t' = elements (plug c t).
Proof.
  revert t. induction c as [|f c IH]; intros t Ht Hc; simpl; [by intros ?; simplify_eq |].
  destruct (shrink_frame f t) as [t1 d] eqn:Heq.
  destruct (shrink_frame_spec _ _ _ _ Ht (proj1 Hc) Heq) as (_ & He & _).
  rewrite elements_plug -He -elements_plug. destruct d; [|by intros [= <- <-]].
  destruct (shrink_frame_ctx _ _ _ _ Ht Hc Heq). by apply IH.
Qed.

(** Repairing the path inside a subtree leaves it as high as it was, or one
    level lower. *)
Fixpoint ctx_height (c : actx) (n : Z) : Z :=
  match c with [] => n | f :: c => ctx_height c (frame_height f n) end.

Lemma zheight_plug c t : ctx_avl c (zheight t) → zheight (plug c t) = ctx_height c (zheight t).
Proof.
  revert t. induction c as [|f c IH]; intros t; simpl; [done |]. intros [Hf Hc].
  assert (zheight (plug_frame f t) = frame_height f (zheight t)) as Hz by (destruct f; simpl; zh).
  by rewrite IH Hz.
Qed.

Lemma shrink_avl c t t' down :
  avl t → ctx_avl c (zheight t + 1) → shrink c t = (t', down) →
  avl t' ∧ zheight t' + (if down then 1 else 0) = ctx_height c (zheight t + 1).
Proof.
  revert t. induction c as [|f c IH]; intros t Ht Hc; simpl; [by intros ?; simplify_eq |].
  destruct (shrink_frame f t) as [t1 d] eqn:Heq.
  destruct (shrink_frame_spec _ _ _ _ Ht (proj1 Hc) Heq) as (Ht1 & _ & _ & Hz).
  destruct d.
  - destruct (shrink_frame_ctx _ _ _ _ Ht Hc Heq). rewrite -Hz. by apply IH.
  - intros [= <- <-]. rewrite Z.add_0_r in Hz. destruct Hc as [_ Hc]. rewrite -Hz in Hc *.
    split; [by apply plug_avl | by rewrite zheight_plug // Z.add_0_r].
Qed.

Lemma plug_avl_inv c t : avl (plug c t) → avl t ∧ ctx_avl c (zheight t).
Proof.
  revert t. induction c as [|f c IH]; intros t; simpl; [done |].
  intros [Ht Hc]%IH.
  replace (zheight (plug_frame f t)) with (frame_height f (zheight t)) in Hc
    by (destruct f; simpl; zh).
  destruct f; simpl in *; destruct_and?; by split_and!.
Qed.

(** ** Insertion and deletion *)

Definition insert_tree (k v : Z) (t : atree) : atree :=
  match descend k t [] with
  | (c, Leaf) => grow c (Node Leaf k v 0 Leaf)
  | (_, Node _ _ _ _ _) => t
  end.

Lemma ctx_grown_leaf c k v : avl (plug c Leaf) → ctx_grown c (Node Leaf k v 0 Leaf).
Proof.
  intros [_ Hc]%plug_avl_inv. split_and!; try done.
  destruct c as [|[] c]; simpl in *; [done | zh..].
Qed.

Lemma insert_tree_avl k v t : avl t → avl (insert_tree k v t).
Proof.
  intros Ht. unfold insert_tree. pose proof (descend_plug k t []) as Hp. simpl in Hp.
  destruct (descend k t []) as [c [|]]; simpl in Hp; [|done].
  apply grow_spec, ctx_grown_leaf. by rewrite Hp.
Qed.

Lemma insert_tree_elements k v t :
  avl t → ordered (elements t) →
  ordered (elements (insert_tree k v t)) ∧
  to_map (elements (insert_tree k v t)) =
    match to_map (elements t) !! k with
    | Some _ => to_map (elements t)
    | None => <[k := v]> (to_map (elements t))
    end.
Proof.
  intros Ht Hord. unfold insert_tree. pose proof (descend_elements k t Hord) as Hd.
  destruct (descend k t []) as [c [|l k' w b r]]; destruct Hd as (Hp & Hl & Hr & Hd).
  - destruct (grow_spec c (Node Leaf k v 0 Leaf)) as [_ ->].
    { apply ctx_grown_leaf. by rewrite Hp. }
    rewrite elements_plug Hd to_map_absent //= to_map_insert //. split; [|done].
    apply ordered_insert; [by rewrite -Hd | done..].
  - destruct Hd as (-> & Hd & Hbl & _). split; [done |]. by rewrite {2}Hd to_map_lookup.
Qed.

(** The rightmost node of a tree and the path down to it. *)
Fixpoint rightmost (t : atree) (c : actx) : actx * atree :=
  match t with
  | Leaf => (c, Leaf)
  | Node l k v b r =>
      match r with Leaf => (c, t) | Node _ _ _ _ _ => rightmost r (FR l k v b :: c) end
  end.

Lemma rightmost_spec t c :
  t ≠ Leaf →
  ∃ fs ml mk mv mb, rightmost t c = (fs ++ c, Node ml mk mv mb Leaf) ∧
    plug fs (Node ml mk mv mb Leaf) = t ∧ ctx_r fs = [].
Proof.
  revert c. induction t as [|l _ k v b r IH]; intros c Ht; [done |].
  destruct r as [|rl rk rv rb rr]; [by exists [], l, k, v, b |].
  destruct (IH (FR l k v b :: c)) as (fs & ml & mk & mv & mb & Heq & Hp & Hr); [done |].
  exists (fs ++ [FR l k v b]), ml, mk, mv, mb. split_and!.
  - change (rightmost (Node rl rk rv rb rr) (FR l k v b :: c) =
      ((fs ++ [FR l k v b]) ++ c, Node ml mk mv mb Leaf)). by rewrite Heq -app_assoc.
  - by rewrite plug_app Hp.
  - clear -Hr. induction fs as [|f fs IH]; simpl in *; [done |].
    apply app_eq_nil in Hr as [-> ?]. by apply IH.
Qed.

(** Removing the node at the end of a search path. *)
Definition delete_at (c : actx) (l : atree) (b : Z) (r : atree) : atree :=
  match l, r with
  | Leaf, _ => (shrink c r).1
  | _, Leaf => (shrink c l).1
  | _, _ =>
      match rightmost l [] with
      | (fs, Node ml mk mv _ _) =>
          let '(l', down) := shrink fs ml in
          if down then (shrink (FL mk mv b r :: c) l').1
          else plug (FL mk mv b r :: c) l'
      | (_, Leaf) => Leaf
      end
  end.

Definition delete_tree (k : Z) (t : atree) : atree :=
  match descend k t [] with
  | (_, Leaf) => t
  | (c, Node l _ _ b r) => delete_at c l b r
  end.

(** Unlinking the rightmost node [m] of [l]: what is left of [l] is an AVL
    tree, and the flag tells its height. *)
Lemma shrink_rightmost l fs ml mk mv mb l' down :
  avl l → plug fs (Node ml mk mv mb Leaf) = l → ctx_r fs = [] → shrink fs ml = (l', down) →
  avl ml ∧ ctx_avl fs (zheight ml + 1) ∧ avl l' ∧
  zheight l' + (if down then 1 else 0) = zheight l ∧
  elements l = elements l' ++ [(mk, mv)].
Proof.
  intros Hl Hp Hr Hs. rewrite -Hp in Hl. apply plug_avl_inv in Hl as [Hm Hc].
  assert (zheight (Node ml mk mv mb Leaf) = zheight ml + 1) as Hz by (simpl in *; zh).
  pose proof (zheight_plug fs (Node ml mk mv mb Leaf) Hc) as Hzp. rewrite Hp Hz in Hzp.
  rewrite Hz in Hc. destruct Hm as (Hml & _).
  destruct (shrink_avl _ _ _ _ Hml Hc Hs) as [? Hd]. rewrite -Hzp in Hd.
  split_and!; try done.
  rewrite (shrink_elements _ _ _ _ Hml Hc Hs) -Hp !elements_plug Hr /= !app_nil_r.
  by rewrite app_assoc.
Qed.

(** A subtree [s] put into a path that expects height [n]: an AVL tree with
    the elements in place that is not higher than the whole was. *)
Definition fits (c : actx) (s : atree) (n : Z) (t' : atree) : Prop :=
  avl t' ∧ elements t' = ctx_l c ++ elements s ++ ctx_r c ∧ zheight t' ≤ ctx_height c n.

Lemma shrink_fits c s n :
  avl s → ctx_avl c n → n = zheight s + 1 → fits c s n (shrink c s).1.
Proof.
  intros Hs Hc ->. destruct (shrink c s) as [s' d] eqn:He.
  destruct (shrink_avl _ _ _ _ Hs Hc He) as [? Hz]. split_and!; [done | |].
  - by rewrite (shrink_elements _ _ _ _ Hs Hc He) elements_plug.
  - simpl. destruct d; lia.
Qed.

Lemma plug_fits c s n : avl s → ctx_avl c n → n = zheight s → fits c s n (plug c s).
Proof.
  intros Hs Hc ->. split_and!; [by apply plug_avl | by rewrite elements_plug |].
  by rewrite zheight_plug.
Qed.

Lemma delete_at_two c l k v b r :
  l ≠ Leaf → r ≠ Leaf → avl (plug c (Node l k v b r)) →
  ∃ mk mv l', elements l = elements l' ++ [(mk, mv)] ∧
    fits (FL mk mv b r :: c) l' (zheight l) (delete_at c l b r).
Proof.
  intros Hnl Hnr [(Hl & Hr & Hb & Hbr) Hc]%plug_avl_inv.
  destruct (rightmost_spec l []) as (fs & ml & mk & mv & mb & Hrm & Hp & Hcr); [done |].
  rewrite app_nil_r in Hrm. destruct (shrink fs ml) as [l' down] eqn:Hs.
  destruct (shrink_rightmost _ _ _ _ _ _ _ _ Hl Hp Hcr Hs) as (_ & _ & Hl' & Hz & He).
  assert (ctx_avl (FL mk mv b r :: c) (zheight l)) as Hcc.
  { split; [done |]. eapply ctx_avl_eq; [exact Hc |]. simpl in *; zh. }
  exists mk, mv, l'. split; [done |].
  assert (delete_at c l b r = if down then (shrink (FL mk mv b r :: c) l').1
    else plug (FL mk mv b r :: c) l') as ->.
  { destruct l, r; [done.. |]. rewrite /delete_at Hrm Hs //. }
  destruct down; [apply shrink_fits | apply plug_fits]; try done; lia.
Qed.

Lemma delete_at_spec c l k v b r :
  avl (plug c (Node l k v b r)) →
  avl (delete_at c l b r) ∧
  elements (delete_at c l b r) = (ctx_l c ++ elements l) ++ elements r ++ ctx_r c ∧
  zheight (delete_at c l b r) ≤ zheight (plug c (Node l k v b r)).
Proof.
  intros Hn. pose proof Hn as [Hnode Hc]%plug_avl_inv.
  rewrite (zheight_plug _ _ Hc). destruct Hnode as (Hl & Hr & Hb & Hbr).
  destruct l as [|l1 kl vl bl l2]; [|destruct r as [|r1 kr vr br r2]].
  - destruct (shrink_fits c r _ Hr Hc) as (? & He & ?); [simpl in *; zh |].
    split_and!; [done | | done]. by rewrite /= He app_nil_r.
  - destruct (shrink_fits c _ _ Hl Hc) as (? & He & ?); [simpl in *; zh |].
    split_and!; [done | | done]. by rewrite /delete_at He -app_assoc.
  - destruct (delete_at_two c (Node l1 kl vl bl l2) k v b (Node r1 kr vr br r2))
      as (mk & mv & l' & Hel & ? & He & Hz); [done.. |].
    split_and!; [done | rewrite He Hel /=; list_eq |]. etrans; [exact Hz |]. simpl ctx_height.
    replace (1 + Z.max _ _) with
      (zheight (Node (Node l1 kl vl bl l2) k v b (Node r1 kr vr br r2))) by zh. done.
Qed.

Lemma delete_tree_avl k t : avl t → avl (delete_tree k t).
Proof.
  intros Ht. unfold delete_tree. pose proof (descend_plug k t []) as Hp. simpl in Hp.
  destruct (descend k t []) as [c [|l k' v b r]]; [done |]. simpl in Hp.
  eapply (delete_at_spec c l k' v b r). by rewrite Hp.
Qed.

Lemma delete_tree_elements k t :
  avl t → ordered (elements t) →
  ordered (elements (delete_tree k t)) ∧
  to_map (elements (delete_tree k t)) = delete k (to_map (elements t)).
Proof.
  intros Ht Hord. unfold delete_tree. pose proof (descend_elements k t Hord) as Hd.
  destruct (descend k t []) as [c [|l k' v b r]]; destruct Hd as (Hp & Hl & Hr & Hd).
  - split; [done |]. rewrite delete_id // Hd. by apply to_map_absent.
  - destruct Hd as (-> & Hd & Hbl & Hab). rewrite -Hp in Ht.
    destruct (delete_at_spec _ _ _ _ _ _ Ht) as (_ & -> & _). rewrite Hd. split.
    + rewrite Hd in Hord. by apply ordered_middle in Hord as [? _].
    + by apply to_map_delete.
Qed.

(** ** Joining two trees around a middle key *)

(** Down the right spine of a tree of height [h], to a subtree at most one
    level higher than [n]. *)
Fixpoint spine_right (t : atree) (c : actx) (h n : Z) : actx * atree * Z :=
  match t with
  | Node l k v b r =>
      if h >? n + 1 then spine_right r (FR l k v b :: c) (if b =? -1 then h - 2 else h - 1) n
      else (c, t, h)
  | Leaf => (c, t, h)
  end.
Fixpoint spine_left (t : atree) (c : actx) (h n : Z) : actx * atree * Z :=
  match t with
  | Node l k v b r =>
      if h >? n + 1 then spine_left l (FL k v b r :: c) (if b =? 1 then h - 2 else h - 1) n
      else (c, t, h)
  | Leaf => (c, t, h)
  end.

(** [join] when the left tree is at least as high, with the middle pair taken
    from the right tree, and the symmetric case. *)
Definition join_into_left (l : atree) (k v : Z) (r : atree) : atree :=
  let '(c, t, h) := spine_right l [] (zheight l) (zheight r) in
  grow c (Node t k v (zheight r - h) r).
Definition join_into_right (l : atree) (k v : Z) (r : atree) : atree :=
  let '(c, t, h) := spine_left r [] (zheight r) (zheight l) in
  grow c (Node l k v (h - zheight l) t).

(** The spine stops where the other tree fits: the height there, and that the
    node above was too high, so that an evenly balanced new node never meets a
    node that already leans to it. *)
Definition too_high (n : Z) (c : actx) (h : Z) : Prop :=
  match c with [] => True | f :: _ => n + 1 < frame_height f h end.
Definition spine_end (n : Z) (c : actx) (t : atree) (h : Z) : Prop :=
  h = zheight t ∧ n ≤ h ≤ n + 1 ∧ too_high n c h.

Lemma too_high_leans n f c h :
  too_high n (f :: c) h → frame_avl f h → h ≤ n + 1 → leans_to_hole f → h = n + 1.
Proof. destruct f; simpl; lia. Qed.

Lemma spine_right_spec t c h n c' t' h' :
  avl t → h = zheight t → 0 ≤ n → n ≤ h → too_high n c h → ctx_r c = [] →
  spine_right t c h n = (c', t', h') →
  spine_end n c' t' h' ∧ ctx_r c' = [] ∧ plug c' t' = plug c t.
Proof.
  revert c h. induction t as [|l IHl k v b r IHr]; intros c h Ht Hh Hn Hnh Hi Hc; simpl.
  - intros [= <- <- <-]. repeat split; try done; zh.
  - simpl in Ht. destruct Ht as (Hl & Hr & Hb & Hbr). rewrite Z.gtb_ltb.
    destruct (Z.ltb_spec (n + 1) h).
    + intros Heq. apply IHr in Heq; try done.
      * case_z; zh.
      * case_z; zh.
      * simpl. case_z; zh.
    + intros [= <- <- <-]. repeat split; try done; zh.
Qed.

Lemma spine_left_spec t c h n c' t' h' :
  avl t → h = zheight t → 0 ≤ n → n ≤ h → too_high n c h → ctx_l c = [] →
  spine_left t c h n = (c', t', h') →
  spine_end n c' t' h' ∧ ctx_l c' = [] ∧ plug c' t' = plug c t.
Proof.
  revert c h. induction t as [|l IHl k v b r IHr]; intros c h Ht Hh Hn Hnh Hi Hc; simpl.
  - intros [= <- <- <-]. repeat split; try done; zh.
  - simpl in Ht. destruct Ht as (Hl & Hr & Hb & Hbr). rewrite Z.gtb_ltb.
    destruct (Z.ltb_spec (n + 1) h).
    + intros Heq. apply IHl in Heq; try done.
      * case_z; zh.
      * case_z; zh.
      * simpl. case_z; zh.
      * by rewrite /= app_nil_r.
    + intros [= <- <- <-]. repeat split; try done; zh.
Qed.

(** The new node put at the end of the spine makes the subtree there one level
    higher, as an insertion does. *)
Lemma join_left_grown l k v r c t h :
  avl l → avl r → zheight r ≤ zheight l →
  spine_right l [] (zheight l) (zheight r) = (c, t, h) →
  ctx_grown c (Node t k v (zheight r - h) r) ∧ plug c t = l ∧ ctx_r c = [].
Proof.
  intros Hl Hr Hh Heq.
  destruct (spine_right_spec l [] (zheight l) (zheight r) c t h)
    as ((-> & Hht & Hhigh) & Hcr & Hp); try done; [apply zheight_nonneg|].
  simpl in Hp. rewrite -Hp in Hl. apply plug_avl_inv in Hl as [Ht Hc].
  split; [|done]. split_and!; try done.
  - simpl. split_and!; try done; zh.
  - eapply ctx_avl_eq; [exact Hc |]. zh.
  - destruct c as [|f c]; [done|]. intros Hf. destruct Hc as [Hfa _].
    pose proof (too_high_leans _ _ _ _ Hhigh Hfa (proj2 Hht) Hf). simpl. lia.
Qed.

(** An empty place at the end of the spine is never next to an empty one. *)
Lemma spine_right_sibling l n f c t h :
  avl l → 0 ≤ n ≤ zheight l → spine_right l [] (zheight l) n = (f :: c, t, h) →
  ∃ l0 k0 v0 b0, f = FR l0 k0 v0 b0 ∧ (t = Leaf → l0 ≠ Leaf).
Proof.
  intros Hl Hn Heq.
  destruct (spine_right_spec l [] (zheight l) n (f :: c) t h)
    as ((-> & Hht & Hhigh) & Hcr & _); try done; [lia.. |].
  destruct f as [k v b r|l0 k0 v0 b0]; [done |]. eexists _, _, _, _. split; [done |].
  intros -> ->. simpl in Hhigh. zh.
Qed.

Lemma join_right_grown l k v r c t h :
  avl l → avl r → zheight l ≤ zheight r →
  spine_left r [] (zheight r) (zheight l) = (c, t, h) →
  ctx_grown c (Node l k v (h - zheight l) t) ∧ plug c t = r ∧ ctx_l c = [].
Proof.
  intros Hl Hr Hh Heq.
  destruct (spine_left_spec r [] (zheight r) (zheight l) c t h)
    as ((-> & Hht & Hhigh) & Hcr & Hp); try done; [apply zheight_nonneg|].
  simpl in Hp. rewrite -Hp in Hr. apply plug_avl_inv in Hr as [Ht Hc].
  split; [|done]. split_and!; try done.
  - simpl. split_and!; try done; zh.
  - eapply ctx_avl_eq; [exact Hc |]. zh.
  - destruct c as [|f c]; [done|]. intros Hf. destruct Hc as [Hfa _].
    pose proof (too_high_leans _ _ _ _ Hhigh Hfa (proj2 Hht) Hf). simpl. lia.
Qed.

Lemma join_into_left_spec l k v r :
  avl l → avl r → zheight r ≤ zheight l →
  avl (join_into_left l k v r) ∧
  elements (join_into_left l k v r) = elements l ++ (k, v) :: elements r.
Proof.
  intros Hl Hr Hh. rewrite /join_into_left.
  destruct (spine_right l [] (zheight l) (zheight r)) as [[c t] h] eqn:Heq.
  destruct (join_left_grown l k v r c t h) as (Hg & Hp & Hcr); try done.
  destruct (grow_spec _ _ Hg) as [? ->]. split; [done |].
  rewrite -Hp !elements_plug Hcr. list_eq.
Qed.

Lemma join_into_right_spec l k v r :
  avl l → avl r → zheight l ≤ zheight r →
  avl (join_into_right l k v r) ∧
  elements (join_into_right l k v r) = elements l ++ (k, v) :: elements r.
Proof.
  intros Hl Hr Hh. rewrite /join_into_right.
  destruct (spine_left r [] (zheight r) (zheight l)) as [[c t] h] eqn:Heq.
  destruct (join_right_grown l k v r c t h) as (Hg & Hp & Hcr); try done.
  destruct (grow_spec _ _ Hg) as [? ->]. split; [done |].
  rewrite -Hp !elements_plug Hcr. list_eq.
Qed.

Lemma delete_tree_height k t : avl t → zheight (delete_tree k t) ≤ zheight t.
Proof.
  intros Ht. unfold delete_tree. pose proof (descend_plug k t []) as Hp. simpl in Hp.
  destruct (descend k t []) as [c [|l k' v b r]]; [done |]. simpl in Hp.
  rewrite -Hp. apply delete_at_spec. by rewrite Hp.
Qed.

(** Taking an element out of the ordered sequence of a tree. *)
Lemma delete_tree_middle k v t l1 l2 :
  avl t → ordered (elements t) → elements t = l1 ++ (k, v) :: l2 →
  elements (delete_tree k t) = l1 ++ l2.
Proof.
  intros Ht Hord He. destruct (delete_tree_elements k t Ht Hord) as [Hord' Hm].
  rewrite He in Hord Hm. apply ordered_middle in Hord as (Ho & Hb & Ha).
  apply ordered_unique; [done.. |]. rewrite Hm. symmetry. by apply to_map_delete.
Qed.

Definition first_elem (t : atree) : Z * Z := default (0, 0) (head (elements t)).
Definition last_elem (t : atree) : Z * Z := default (0, 0) (last (elements t)).

Lemma elements_nonempty (t : atree) : t ≠ Leaf → elements t ≠ [].
Proof. destruct t; [done |]. intros _. simpl. by destruct (elements t1). Qed.

Lemma first_elem_spec t : t ≠ Leaf → ∃ es, elements t = first_elem t :: es.
Proof.
  intros Ht%elements_nonempty. unfold first_elem. destruct (elements t); [done |]. by eexists.
Qed.

Lemma last_elem_spec t : t ≠ Leaf → ∃ es, elements t = es ++ [last_elem t].
Proof.
  intros Ht%elements_nonempty. unfold last_elem. destruct (elements t) as [|e es _] using rev_ind; [done |].
  exists es. by rewrite last_snoc.
Qed.

(** The tree [join] builds. *)
Definition join_tree (l r : atree) : atree :=
  match l, r with
  | Leaf, _ => r
  | _, Leaf => l
  | _, _ =>
      if zheight l >=? zheight r
      then join_into_left l (first_elem r).1 (first_elem r).2 (delete_tree (first_elem r).1 r)
      else join_into_right (delete_tree (last_elem l).1 l) (last_elem l).1 (last_elem l).2 r
  end.

Lemma join_tree_spec l r :
  avl l → avl r → ordered (elements l ++ elements r) →
  avl (join_tree l r) ∧ elements (join_tree l r) = elements l ++ elements r.
Proof.
  intros Hl Hr Hord. destruct (decide (l = Leaf)) as [->|Hnl]; [by destruct r |].
  destruct (decide (r = Leaf)) as [->|Hnr]; [destruct l; by rewrite //= app_nil_r |].
  pose proof (ordered_split _ _ Hord) as [Hol Hor].
  assert (join_tree l r = if zheight l >=? zheight r
    then join_into_left l (first_elem r).1 (first_elem r).2 (delete_tree (first_elem r).1 r)
    else join_into_right (delete_tree (last_elem l).1 l) (last_elem l).1 (last_elem l).2 r) as ->.
  { by destruct l, r. }
  rewrite Z.geb_leb. destruct (Z.leb_spec (zheight r) (zheight l)).
  - destruct (first_elem_spec r) as [es He]; [done |]. destruct (first_elem r) as [k v].
    pose proof (delete_tree_middle k v r [] es Hr Hor He) as Hd. simpl in *.
    pose proof (delete_tree_height k r Hr).
    destruct (join_into_left_spec l k v (delete_tree k r)) as [? ->];
      [done | by apply delete_tree_avl | lia |]. by rewrite Hd He.
  - destruct (last_elem_spec l) as [es He]; [done |]. destruct (last_elem l) as [k v].
    pose proof (delete_tree_middle k v l es [] Hl Hol He) as Hd. simpl in *.
    pose proof (delete_tree_height k l Hl).
    destruct (join_into_right_spec (delete_tree k l) k v r) as [? ->];
      [by apply delete_tree_avl | done | lia |]. rewrite Hd He. list_eq.
Qed.

(** The two trees [split] makes of a tree with more than one key, and the
    smallest key of the second. *)
Definition split_tree (t : atree) : option (Z * atree * atree) :=
  match t with
  | Leaf | Node Leaf _ _ _ Leaf => None
  | Node Leaf k v _ (Node rl rk rv rb rr) =>
      Some (rk, Node Leaf k v 0 Leaf, Node rl rk rv 0 rr)
  | Node l k v _ Leaf => Some (k, l, Node Leaf k v 0 Leaf)
  | Node l k v _ r => Some (k, l, insert_tree k v r)
  end.

Lemma insert_tree_first k v t :
  avl t → ordered ((k, v) :: elements t) → elements (insert_tree k v t) = (k, v) :: elements t.
Proof.
  intros Ht Hord. pose proof (proj1 (ordered_middle [] _ _) Hord) as (Ho & _ & Ha).
  destruct (insert_tree_elements k v t Ht Ho) as [Ho' Hm].
  apply ordered_unique; [done.. |]. rewrite Hm.
  assert (to_map (elements t) !! k = None) as ->; [|done].
  apply (to_map_absent [] (elements t) k); [constructor | done].
Qed.

Lemma split_tree_spec t k l r :
  avl t → ordered (elements t) → split_tree t = Some (k, l, r) →
  avl l ∧ avl r ∧ elements t = elements l ++ elements r ∧ l ≠ Leaf ∧
  ∃ v es, elements r = (k, v) :: es.
Proof.
  intros Ht Hord. destruct t as [|tl kt vt bt tr]; [done |].
  destruct Ht as (Htl & Htr & Hb & Hbr).
  destruct tl as [|a ka va ba c], tr as [|d kd vd bd e]; [done |..]; intros [= <- <- <-].
  - destruct Htr as (? & ? & ? & ?).
    assert (d = Leaf ∧ e = Leaf) as [-> ->].
    { rewrite -!zheight_leaf. split; zh. }
    split_and!; try done. by exists vd, [].
  - split_and!; try done. by exists vt, [].
  - simpl in Hord. apply ordered_split in Hord as [_ Hord].
    pose proof (insert_tree_first _ _ _ Htr Hord) as Hi. rewrite Hi.
    split_and!; try done; [by apply insert_tree_avl | by eexists _, _].
Qed.

Lemma split_tree_None t : avl t → split_tree t = None ↔ (tsize t ≤ 1)%nat.
Proof.
  destruct t as [|[|a ka va ba c] kt vt bt [|d kd vd bd e]]; simpl; intros Ht;
    split; try done; lia.
Qed.

(** ** Height *)

(** An AVL tree of height [h] has at least [fib (h + 2) - 1] nodes. *)
Fixpoint min_size (h : nat) : nat :=
  match h with
  | O => 0
  | S h' => match h' with O => 1 | S h'' => S (min_size h' + min_size h'') end
  end.

Lemma min_size_SS h : min_size (S (S h)) = S (min_size (S h) + min_size h).
Proof. done. Qed.

Lemma min_size_mono h h' : (h ≤ h')%nat → (min_size h ≤ min_size h')%nat.
Proof.
  intros Hh. induction Hh as [|h' Hh IH]; [done |]. etrans; [exact IH |].
  destruct h' as [|h']; simpl; [lia |]. destruct h'; lia.
Qed.

Lemma avl_min_size t : avl t → (min_size (height t) ≤ tsize t)%nat.
Proof.
  induction t as [|l IHl k v b r IHr]; [done |]. intros (Hl & Hr & Hb & Hbr).
  specialize (IHl Hl). specialize (IHr Hr). simpl height. simpl tsize.
  destruct (Nat.max (height l) (height r)) as [|h] eqn:Hmax; [simpl; lia |].
  rewrite min_size_SS.
  assert (height l = S h ∧ (h ≤ height r)%nat ∨ height r = S h ∧ (h ≤ height l)%nat)
    as [[Heq Hh]|[Heq Hh]] by zh;
    rewrite Heq in IHl IHr || rewrite Heq in IHl || rewrite Heq in IHr;
    apply min_size_mono in Hh; lia.
Qed.

Lemma min_size_exp h : (2 ^ h ≤ S (min_size (2 * h)))%nat.
Proof.
  induction h as [|h IH]; [simpl; lia |].
  replace (2 * S h)%nat with (S (S (2 * h))) by lia. rewrite min_size_SS.
  pose proof (min_size_mono (2 * h) (S (2 * h))). rewrite Nat.pow_succ_r'. lia.
Qed.

(** The height is at most about twice the binary logarithm of the size. *)
Lemma avl_height_log t : avl t → (height t ≤ 2 * Nat.log2 (S (tsize t)) + 1)%nat.
Proof.
  intros Ht%avl_min_size.
  assert (2 ^ (height t / 2) ≤ S (tsize t))%nat as Hp.
  { etrans; [apply min_size_exp |]. apply le_n_S. etrans; [|exact Ht].
    apply min_size_mono. apply Nat.Div0.mul_div_le. }
  apply Nat.log2_le_pow2 in Hp; [|lia].
  pose proof (Nat.div_mod_eq (height t) 2). pose proof (Nat.mod_upper_bound (height t) 2). lia.
Qed.
