(* ===== verification/AVLTree.v ===== *)
(** * AVLTree: the sequential AVL tree of the contention-adapting tree

    Translation of [cpp/ds/winblad_catree/avl_tree.h], statement by statement,
    over the store of [Memory].  [this] is the address of the [AVLTree] object,
    a [Node *] is a [ptr]. Keys and values are integers; [NO_VALUE] is
    [(V) 0] and [INVALID_KEY] is [0]. *)
From S2P Require Import Prelude Memory.
#[local] Open Scope Z_scope.
#[local] Open Scope cpp_scope.

Module AVL.

(** ** Members *)

Definition key : field avl_node Z := Field avl_key
  (λ x n, AvlNode x n.(avl_left) n.(avl_right) n.(avl_parent) n.(avl_balance) n.(avl_val)).
Definition left : field avl_node ptr := Field avl_left
  (λ x n, AvlNode n.(avl_key) x n.(avl_right) n.(avl_parent) n.(avl_balance) n.(avl_val)).
Definition right : field avl_node ptr := Field avl_right
  (λ x n, AvlNode n.(avl_key) n.(avl_left) x n.(avl_parent) n.(avl_balance) n.(avl_val)).
Definition parent : field avl_node ptr := Field avl_parent
  (λ x n, AvlNode n.(avl_key) n.(avl_left) n.(avl_right) x n.(avl_balance) n.(avl_val)).
Definition balance : field avl_node Z := Field avl_balance
  (λ x n, AvlNode n.(avl_key) n.(avl_left) n.(avl_right) n.(avl_parent) x n.(avl_val)).
Definition val : field avl_node Z := Field avl_val
  (λ x n, AvlNode n.(avl_key) n.(avl_left) n.(avl_right) n.(avl_parent) n.(avl_balance) x).
Definition root : field avl_tree ptr := Field avl_root (λ x _, AvlTree x).

Definition NO_VALUE : Z := 0.
Definition INVALID_KEY : Z := 0.

(** [new Node(key, val, parent, left, right)]; the balance starts at 0 *)
Definition newNode (k v : Z) (_parent _left _right : ptr) : M ptr :=
  new (AvlNode k _left _right _parent 0 v).

(** [new AVLTree()] *)
Definition newTree : M ptr := new (AvlTree NULL).

(** ** Maintenance methods *)

(** The loops below are [loop] applied to their body, a definition named
    after the function with the suffix [Step]. *)
Definition computeHeightStep (s : ptr * Z) : M (ptr * Z + Z) :=
  let '(currentNode, heightSoFar) := s in
  l ← currentNode ~> left;
  r ← currentNode ~> right;
  if (l != NULL) || (r != NULL) then
    b ← currentNode ~> balance;
    next ← (if b =? -1 then currentNode ~> left else currentNode ~> right);
    continue (next, heightSoFar + 1)
  else break heightSoFar.

Definition computeHeight (this : ptr) : M Z :=
  r ← this ~> root;
  if r == NULL then mret 0
  else
    currentNode ← this ~> root;
    loop computeHeightStep (currentNode, 1).

(** The loops of [minKey] and [maxKey] follow one child pointer to its end. *)
Definition endOfSpineStep (side : field avl_node ptr) (currentNode : ptr) : M (ptr + ptr) :=
  c ← currentNode ~> side;
  if c != NULL then c' ← currentNode ~> side; continue c' else break currentNode.

Definition minKey (this : ptr) : M (Z * Z) :=
  r ← this ~> root;
  currentNode ← loop (endOfSpineStep left) r;
  if currentNode == NULL then mret (INVALID_KEY, NO_VALUE)
  else k ← currentNode ~> key; v ← currentNode ~> val; mret (k, v).

Definition maxKey (this : ptr) : M (Z * Z) :=
  r ← this ~> root;
  currentNode ← loop (endOfSpineStep right) r;
  if currentNode == NULL then mret (INVALID_KEY, NO_VALUE)
  else k ← currentNode ~> key; v ← currentNode ~> val; mret (k, v).

Definition getAVLNodeStep (k : Z) (currentNode : ptr) : M (ptr + ptr) :=
  if currentNode == NULL then break NULL
  else
    nodeKey ← currentNode ~> key;
    if k <? nodeKey then l ← currentNode ~> left; continue l
    else if k >? nodeKey then r ← currentNode ~> right; continue r
    else break currentNode.

Definition getAVLNode (this : ptr) (k : Z) : M ptr :=
  currentNode ← this ~> root;
  loop (getAVLNodeStep k) currentNode.

(** The link every rotation rewrites: the pointer to [x] held by its parent
    [p], or the root pointer, is redirected to [c]. *)
Definition replaceChild (this p x c : ptr) : M unit :=
  if p == NULL then this ~> root ::= c
  else
    pl ← p ~> left;
    if pl == x then p ~> left ::= c else p ~> right ::= c.

Definition rotateLeft (this prevNode : ptr) : M unit :=
  leftChild ← prevNode ~> left;
  prevNodeParent ← prevNode ~> parent;
  x ← leftChild ~> right;
  prevNode ~> left ::= x;;
  x ← prevNode ~> left;
  when (x != NULL) (x ← prevNode ~> left; x ~> parent ::= prevNode);;
  leftChild ~> right ::= prevNode;;
  prevNode ~> parent ::= leftChild;;
  prevNode ~> balance ::= 0;;
  replaceChild this prevNodeParent prevNode leftChild;;
  leftChild ~> parent ::= prevNodeParent;;
  leftChild ~> balance ::= 0.

Definition rotateRight (this prevNode : ptr) : M unit :=
  rightChild ← prevNode ~> right;
  prevNodeParent ← prevNode ~> parent;
  x ← rightChild ~> left;
  prevNode ~> right ::= x;;
  x ← prevNode ~> right;
  when (x != NULL) (x ← prevNode ~> right; x ~> parent ::= prevNode);;
  rightChild ~> left ::= prevNode;;
  prevNode ~> parent ::= rightChild;;
  prevNode ~> balance ::= 0;;
  replaceChild this prevNodeParent prevNode rightChild;;
  rightChild ~> parent ::= prevNodeParent;;
  rightChild ~> balance ::= 0.

Definition rotateDoubleRight (this prevNode : ptr) : M unit :=
  prevNodeParent ← prevNode ~> parent;
  leftChild ← prevNode ~> left;
  leftChildRightChild ← leftChild ~> right;
  x ← leftChildRightChild ~> left;
  leftChild ~> right ::= x;;
  x ← leftChildRightChild ~> left;
  when (x != NULL) (x ← leftChildRightChild ~> left; x ~> parent ::= leftChild);;
  leftChildRightChild ~> left ::= leftChild;;
  leftChild ~> parent ::= leftChildRightChild;;
  x ← leftChildRightChild ~> right;
  prevNode ~> left ::= x;;
  x ← leftChildRightChild ~> right;
  when (x != NULL) (x ← leftChildRightChild ~> right; x ~> parent ::= prevNode);;
  leftChildRightChild ~> right ::= prevNode;;
  prevNode ~> parent ::= leftChildRightChild;;
  b ← leftChildRightChild ~> balance;
  prevNode ~> balance ::= (if b =? -1 then 1 else 0);;
  b ← leftChildRightChild ~> balance;
  leftChild ~> balance ::= (if b =? 1 then -1 else 0);;
  replaceChild this prevNodeParent prevNode leftChildRightChild;;
  leftChildRightChild ~> parent ::= prevNodeParent;;
  leftChildRightChild ~> balance ::= 0.

Definition rotateDoubleLeft (this prevNode : ptr) : M unit :=
  prevNodeParent ← prevNode ~> parent;
  rightChild ← prevNode ~> right;
  rightChildLeftChild ← rightChild ~> left;
  x ← rightChildLeftChild ~> right;
  rightChild ~> left ::= x;;
  x ← rightChildLeftChild ~> right;
  when (x != NULL) (x ← rightChildLeftChild ~> right; x ~> parent ::= rightChild);;
  rightChildLeftChild ~> right ::= rightChild;;
  rightChild ~> parent ::= rightChildLeftChild;;
  x ← rightChildLeftChild ~> left;
  prevNode ~> right ::= x;;
  x ← rightChildLeftChild ~> left;
  when (x != NULL) (x ← rightChildLeftChild ~> left; x ~> parent ::= prevNode);;
  rightChildLeftChild ~> left ::= prevNode;;
  prevNode ~> parent ::= rightChildLeftChild;;
  b ← rightChildLeftChild ~> balance;
  prevNode ~> balance ::= (if b =? 1 then -1 else 0);;
  b ← rightChildLeftChild ~> balance;
  rightChild ~> balance ::= (if b =? -1 then 1 else 0);;
  replaceChild this prevNodeParent prevNode rightChildLeftChild;;
  rightChildLeftChild ~> parent ::= prevNodeParent;;
  rightChildLeftChild ~> balance ::= 0.

(** The left subtree of [currentNode] has lost one level; the result says
    whether the subtree at [currentNode] has, too. *)
Definition deleteBalanceLeft (this currentNode : ptr) : M bool :=
  b ← currentNode ~> balance;
  if b =? -1 then currentNode ~> balance ::= 0;; mret true
  else if b =? 0 then currentNode ~> balance ::= 1;; mret false
  else
    currentNodeParent ← currentNode ~> parent;
    rightChild ← currentNode ~> right;
    rightChildBalance ← rightChild ~> balance;
    if rightChildBalance >=? 0 then
      rotateRight this currentNode;;
      if rightChildBalance =? 0 then
        currentNode ~> balance ::= 1;;
        rightChild ~> balance ::= -1;;
        mret false
      else mret true
    else
      rightChildLeftChild ← rightChild ~> left;
      rightChildLeftChildBalance ← rightChildLeftChild ~> balance;
      x ← rightChildLeftChild ~> right;
      rightChild ~> left ::= x;;
      x ← rightChildLeftChild ~> right;
      when (x != NULL) (x ← rightChildLeftChild ~> right; x ~> parent ::= rightChild);;
      rightChildLeftChild ~> right ::= rightChild;;
      rightChild ~> parent ::= rightChildLeftChild;;
      x ← rightChildLeftChild ~> left;
      currentNode ~> right ::= x;;
      x ← rightChildLeftChild ~> left;
      when (x != NULL) (x ← rightChildLeftChild ~> left; x ~> parent ::= currentNode);;
      rightChildLeftChild ~> left ::= currentNode;;
      currentNode ~> parent ::= rightChildLeftChild;;
      currentNode ~> balance ::= (if rightChildLeftChildBalance =? 1 then -1 else 0);;
      rightChild ~> balance ::= (if rightChildLeftChildBalance =? -1 then 1 else 0);;
      rightChildLeftChild ~> balance ::= 0;;
      replaceChild this currentNodeParent currentNode rightChildLeftChild;;
      rightChildLeftChild ~> parent ::= currentNodeParent;;
      mret true.

Definition deleteBalanceRight (this currentNode : ptr) : M bool :=
  b ← currentNode ~> balance;
  if b =? 1 then currentNode ~> balance ::= 0;; mret true
  else if b =? 0 then currentNode ~> balance ::= -1;; mret false
  else
    currentNodeParent ← currentNode ~> parent;
    leftChild ← currentNode ~> left;
    leftChildBalance ← leftChild ~> balance;
    if leftChildBalance <=? 0 then
      rotateLeft this currentNode;;
      if leftChildBalance =? 0 then
        currentNode ~> balance ::= -1;;
        leftChild ~> balance ::= 1;;
        mret false
      else mret true
    else
      leftChildRightChild ← leftChild ~> right;
      leftChildRightChildBalance ← leftChildRightChild ~> balance;
      x ← leftChildRightChild ~> left;
      leftChild ~> right ::= x;;
      x ← leftChildRightChild ~> left;
      when (x != NULL) (x ← leftChildRightChild ~> left; x ~> parent ::= leftChild);;
      leftChildRightChild ~> left ::= leftChild;;
      leftChild ~> parent ::= leftChildRightChild;;
      x ← leftChildRightChild ~> right;
      currentNode ~> left ::= x;;
      x ← leftChildRightChild ~> right;
      when (x != NULL) (x ← leftChildRightChild ~> right; x ~> parent ::= currentNode);;
      leftChildRightChild ~> right ::= currentNode;;
      currentNode ~> parent ::= leftChildRightChild;;
      currentNode ~> balance ::= (if leftChildRightChildBalance =? -1 then 1 else 0);;
      leftChild ~> balance ::= (if leftChildRightChildBalance =? 1 then -1 else 0);;
      leftChildRightChild ~> balance ::= 0;;
      replaceChild this currentNodeParent currentNode leftChildRightChild;;
      leftChildRightChild ~> parent ::= currentNodeParent;;
      mret true.

(** The two loops of [replaceWithRightmost]: down to the rightmost node, and
    back up over as many nodes. *)
Definition rightmostStep (s : ptr * Z) : M (ptr * Z + ptr * Z) :=
  let '(currentNode, replacePos) := s in
  r ← currentNode ~> right;
  if r != NULL then
    r' ← currentNode ~> right;
    continue (r', replacePos + 1)
  else break (currentNode, replacePos).

Definition replaceRebalanceStep (this : ptr) (s : ptr * Z * bool) : M (ptr * Z * bool + bool) :=
  let '(currentNode, replacePos, continueBalance) := s in
  if (replacePos >? 0) && continueBalance then
    let operateOn := currentNode in
    currentNode ← currentNode ~> parent;
    continueBalance ← deleteBalanceRight this operateOn;
    continue (currentNode, replacePos - 1, continueBalance)
  else break continueBalance.

Definition replaceWithRightmost (this toReplaceInNode : ptr) : M bool :=
  currentNode ← toReplaceInNode ~> left;
  '(currentNode, replacePos) ← loop rightmostStep (currentNode, 0);
  k ← currentNode ~> key;
  toReplaceInNode ~> key ::= k;;
  v ← currentNode ~> val;
  toReplaceInNode ~> val ::= v;;
  p ← currentNode ~> parent;
  pr ← p ~> right;
  cl ← currentNode ~> left;
  (if pr == currentNode then p ~> right ::= cl else p ~> left ::= cl);;
  cl ← currentNode ~> left;
  when (cl != NULL) (cp ← currentNode ~> parent; cl ~> parent ::= cp);;
  tmp ← currentNode ~> parent;
  free avl_node currentNode;;
  loop (replaceRebalanceStep this) (tmp, replacePos, true).

(** ** Construction and destruction *)

Fixpoint freeTraversal (fuel : nat) (node : ptr) : M unit :=
  match fuel with
  | O => throw OutOfFuel
  | S fuel =>
      assert_ (node != NULL);;
      l ← node ~> left;
      when (l != NULL) (l ← node ~> left; freeTraversal fuel l);;
      r ← node ~> right;
      when (r != NULL) (r ← node ~> right; freeTraversal fuel r);;
      free avl_node node
  end.

(** [delete] of an [AVLTree]: the destructor, then the object itself *)
Definition deleteTree (this : ptr) : M unit :=
  r ← this ~> root;
  when (r != NULL) (r ← this ~> root; with_fuel (λ fuel, freeTraversal fuel r));;
  free avl_tree this.

(** ** Dictionary operations *)

Definition find (this : ptr) (k : Z) : M Z :=
  node ← getAVLNode this k;
  if node == NULL then mret NO_VALUE else node ~> val.

(** The loop that restores balance after a subtree has grown by one level,
    at the end of [insert] and of [join]: its body and the loop itself. *)
Definition rebalanceGrownStep (this : ptr) (s : ptr * ptr) : M (ptr * ptr + unit) :=
  let '(currentNode, prevNode) := s in
    if prevNode == NULL then break ()
    else
      l ← prevNode ~> left;
      b ← prevNode ~> balance;
      if l == currentNode then
        if b =? -1 then
          leftChild ← prevNode ~> left;
          lb ← leftChild ~> balance;
          (if lb =? -1 then rotateLeft this prevNode else rotateDoubleRight this prevNode);;
          break ()
        else if b =? 0 then
          prevNode ~> balance ::= -1;;
          p ← prevNode ~> parent;
          continue (prevNode, p)
        else prevNode ~> balance ::= 0;; break ()
      else
        if b =? 1 then
          rightChild ← prevNode ~> right;
          rb ← rightChild ~> balance;
          (if rb =? 1 then rotateRight this prevNode else rotateDoubleLeft this prevNode);;
          break ()
        else if b =? 0 then
          prevNode ~> balance ::= 1;;
          p ← prevNode ~> parent;
          continue (prevNode, p)
        else prevNode ~> balance ::= 0;; break ().

Definition rebalanceGrown (this currentNode prevNode : ptr) : M unit :=
  loop (rebalanceGrownStep this) (currentNode, prevNode).

(** The search loop of [insert]: it leaves with the value of a node that has
    the key, or with the node to hang a new one under and the side. *)
Definition insertSearchStep (k : Z) (s : ptr * ptr * bool)
    : M (ptr * ptr * bool + (Z + ptr * bool)) :=
  let '(prevNode, currentNode, dirLeft) := s in
  if currentNode == NULL then break (inr (prevNode, dirLeft))
  else
    nodeKey ← currentNode ~> key;
    if k <? nodeKey then l ← currentNode ~> left; continue (currentNode, l, true)
    else if k >? nodeKey then r ← currentNode ~> right; continue (currentNode, r, false)
    else w ← currentNode ~> val; break (inl w).

Definition insert (this : ptr) (k v : Z) : M Z :=
  currentNode ← this ~> root;
  found ← loop (insertSearchStep k) (NULL, currentNode, true);
  match found with
  | inl w => mret w
  | inr (prevNode, dirLeft) =>
      currentNode ← newNode k v prevNode NULL NULL;
      (if prevNode == NULL then this ~> root ::= currentNode
       else if (dirLeft : bool) then prevNode ~> left ::= currentNode
       else prevNode ~> right ::= currentNode);;
      rebalanceGrown this currentNode prevNode;;
      mret NO_VALUE
  end.

(** The rebalancing loop of [erase].  The side of [prevNode] that has lost a
    level is the one [currentNode] hangs on, or [dirLeft] when it is empty. *)
Definition deleteBalanceSide (this prevNode currentNode : ptr) (dirLeft : bool) : M bool :=
  if currentNode == NULL then
    if dirLeft then deleteBalanceLeft this prevNode else deleteBalanceRight this prevNode
  else
    pl ← prevNode ~> left;
    if pl == currentNode then deleteBalanceLeft this prevNode
    else deleteBalanceRight this prevNode.

Definition rebalanceShrunkStep (this : ptr) (dirLeft : bool) (s : bool * ptr * ptr)
    : M (bool * ptr * ptr + unit) :=
  let '(continueFix, prevNode, currentNode) := s in
    if continueFix && (prevNode != NULL) then
      nextPrevNode ← prevNode ~> parent;
      if nextPrevNode != NULL then
        nl ← nextPrevNode ~> left;
        let findCurrentLeftDir := nl == prevNode in
        continueFix ← deleteBalanceSide this prevNode currentNode dirLeft;
        currentNode ← (if findCurrentLeftDir then nextPrevNode ~> left else nextPrevNode ~> right);
        continue (continueFix, nextPrevNode, currentNode)
      else
        continueFix ← deleteBalanceSide this prevNode currentNode dirLeft;
        continue (continueFix, NULL, currentNode)
    else break ().

Definition rebalanceShrunk (this : ptr) (continueFix : bool) (prevNode currentNode : ptr)
    (dirLeft : bool) : M unit :=
  loop (rebalanceShrunkStep this dirLeft) (continueFix, prevNode, currentNode).

(** [currentNode] has at most the child [child]: link [child] in its place and
    free it. *)
Definition spliceOut (this prevNode currentNode : ptr) (dirLeft : bool)
    (childField : field avl_node ptr) : M ptr :=
  (if prevNode == NULL then c ← currentNode ~> childField; this ~> root ::= c
   else if dirLeft then c ← currentNode ~> childField; prevNode ~> left ::= c
   else c ← currentNode ~> childField; prevNode ~> right ::= c);;
  c ← currentNode ~> childField;
  when (c != NULL) (c ← currentNode ~> childField; c ~> parent ::= prevNode);;
  tmp ← currentNode ~> childField;
  free avl_node currentNode;;
  mret tmp.

(** The search loop of [erase]. *)
Definition eraseSearchStep (k : Z) (s : ptr * bool) : M (ptr * bool + ptr * bool) :=
  let '(currentNode, dirLeft) := s in
  if currentNode == NULL then break (currentNode, dirLeft)
  else
    nodeKey ← currentNode ~> key;
    if k <? nodeKey then l ← currentNode ~> left; continue (l, true)
    else if k >? nodeKey then r ← currentNode ~> right; continue (r, false)
    else break (currentNode, dirLeft).

(** [erase] unlinks the node it has found: the new [continueFix], [prevNode],
    [currentNode] and [dirLeft]. *)
Definition eraseUnlink (this currentNode : ptr) (dirLeft : bool) : M (bool * ptr * ptr * bool) :=
  prevNode ← currentNode ~> parent;
  l ← currentNode ~> left;
  r ← currentNode ~> right;
  if l == NULL then
    tmp ← spliceOut this prevNode currentNode dirLeft right;
    mret (true, prevNode, tmp, dirLeft)
  else if r == NULL then
    tmp ← spliceOut this prevNode currentNode dirLeft left;
    mret (true, prevNode, tmp, dirLeft)
  else if prevNode == NULL then
    continueFix ← replaceWithRightmost this currentNode;
    rt ← this ~> root;
    currentNode ← rt ~> left;
    prevNode ← this ~> root;
    mret (continueFix, prevNode, currentNode, dirLeft)
  else
    pl ← prevNode ~> left;
    if pl == currentNode then
      continueFix ← replaceWithRightmost this currentNode;
      prevNode ← prevNode ~> left;
      currentNode ← prevNode ~> left;
      mret (continueFix, prevNode, currentNode, true)
    else
      continueFix ← replaceWithRightmost this currentNode;
      prevNode ← prevNode ~> right;
      currentNode ← prevNode ~> left;
      mret (continueFix, prevNode, currentNode, true).

Definition erase (this : ptr) (k : Z) : M Z :=
  currentNode ← this ~> root;
  '(currentNode, dirLeft) ← loop (eraseSearchStep k) (currentNode, true);
  if currentNode == NULL then mret NO_VALUE
  else
    retval ← currentNode ~> val;
    '(continueFix, prevNode, currentNode, dirLeft) ← eraseUnlink this currentNode dirLeft;
    rebalanceShrunk this continueFix prevNode currentNode dirLeft;;
    mret retval.

(** ** Set operations *)

(** The loop that goes down one spine of the higher tree: [far] is the balance
    of a node that leans away from the spine, [newHeight] the height of the
    other tree. *)
Definition joinSpineStep (side : field avl_node ptr) (far newHeight : Z) (s : ptr * ptr * Z)
    : M (ptr * ptr * Z + ptr * ptr * Z) :=
  let '(prevNode, currentNode, currHeight) := s in
  if currHeight >? newHeight + 1 then
    b ← currentNode ~> balance;
    let currHeight := if b =? far then currHeight - 2 else currHeight - 1 in
    c ← currentNode ~> side;
    continue (currentNode, c, currHeight)
  else break (prevNode, currentNode, currHeight).

(** [newRoot] takes the place of [currentNode] below [oldCurrentNodeParent],
    and [newTree] takes the nodes of [oldTree] over. *)
Definition joinLink (newTree oldTree oldCurrentNodeParent currentNode newRoot : ptr) : M unit :=
  if oldCurrentNodeParent == NULL then newTree ~> root ::= newRoot
  else
    ol ← oldCurrentNodeParent ~> left;
    if ol == currentNode then
      oldCurrentNodeParent ~> left ::= newRoot;;
      newRoot ~> parent ::= oldCurrentNodeParent;;
      r ← oldTree ~> root;
      newTree ~> root ::= r
    else
      oldCurrentNodeParent ~> right ::= newRoot;;
      newRoot ~> parent ::= oldCurrentNodeParent;;
      r ← oldTree ~> root;
      newTree ~> root ::= r.

(** The case [leftHeight >= rightHeight] of [join]: the result tree's root is
    set, and the new node and the node above it are returned. *)
Definition joinIntoLeft (newTree leftTree rightTree : ptr) (leftHeight : Z) : M (ptr * ptr) :=
  mk ← minKey rightTree;
  assert_ (negb (mk.1 =? INVALID_KEY));;
  erase rightTree mk.1;;
  newRoot ← newNode mk.1 mk.2 NULL NULL NULL;
  newRightHeight ← computeHeight rightTree;
  lr ← leftTree ~> root;
  '(prevNode, currentNode, currHeight) ← 
    loop (joinSpineStep right (-1) newRightHeight) (NULL, lr, leftHeight);
  let oldCurrentNodeParent := prevNode in
  newRoot ~> left ::= currentNode;;
  when (currentNode != NULL) (currentNode ~> parent ::= newRoot);;
  rr ← rightTree ~> root;
  newRoot ~> right ::= rr;;
  rr ← rightTree ~> root;
  when (rr != NULL) (rr ← rightTree ~> root; rr ~> parent ::= newRoot);;
  newRoot ~> balance ::= newRightHeight - currHeight;;
  joinLink newTree leftTree oldCurrentNodeParent currentNode newRoot;;
  mret (newRoot, prevNode).

(** The symmetric case of [join]. *)
Definition joinIntoRight (newTree leftTree rightTree : ptr) (rightHeight : Z) : M (ptr * ptr) :=
  mk ← maxKey leftTree;
  assert_ (negb (mk.1 =? INVALID_KEY));;
  erase leftTree mk.1;;
  newRoot ← newNode mk.1 mk.2 NULL NULL NULL;
  newLeftHeight ← computeHeight leftTree;
  rr ← rightTree ~> root;
  '(prevNode, currentNode, currHeight) ← 
    loop (joinSpineStep left 1 newLeftHeight) (NULL, rr, rightHeight);
  let oldCurrentNodeParent := prevNode in
  newRoot ~> right ::= currentNode;;
  when (currentNode != NULL) (currentNode ~> parent ::= newRoot);;
  lr ← leftTree ~> root;
  newRoot ~> left ::= lr;;
  lr ← leftTree ~> root;
  when (lr != NULL) (lr ← leftTree ~> root; lr ~> parent ::= newRoot);;
  newRoot ~> balance ::= currHeight - newLeftHeight;;
  joinLink newTree rightTree oldCurrentNodeParent currentNode newRoot;;
  mret (newRoot, prevNode).

Definition join (this rightSet : ptr) : M ptr :=
  rightTree ← dynamic_cast avl_tree rightSet;
  assert_ (rightTree != NULL);;
  newTree ← newTree;
  let leftTree := this in
  lr ← leftTree ~> root;
  if lr == NULL then
    rr ← rightTree ~> root;
    newTree ~> root ::= rr;;
    rightTree ~> root ::= NULL;;
    mret newTree
  else
    rr ← rightTree ~> root;
    if rr == NULL then
      lr ← leftTree ~> root;
      newTree ~> root ::= lr;;
      leftTree ~> root ::= NULL;;
      mret newTree
    else
      leftHeight ← computeHeight leftTree;
      rightHeight ← computeHeight rightTree;
      '(currentNode, prevNode) ←
        (if leftHeight >=? rightHeight then joinIntoLeft newTree leftTree rightTree leftHeight
         else joinIntoRight newTree leftTree rightTree rightHeight);
      leftTree ~> root ::= NULL;;
      rightTree ~> root ::= NULL;;
      rebalanceGrown newTree currentNode prevNode;;
      mret newTree.

Definition split (this : ptr) : M (Z * ptr * ptr) :=
  r ← this ~> root;
  if r == NULL then mret (INVALID_KEY, NULL, NULL)
  else
    rt ← this ~> root;
    rl ← rt ~> left;
    rr ← rt ~> right;
    if (rl == NULL) && (rr == NULL) then mret (INVALID_KEY, NULL, NULL)
    else
      '(splitKey, leftRoot, rightRoot) ←
        (if rl == NULL then
           c ← rt ~> right;
           splitKey ← c ~> key;
           splitVal ← c ~> val;
           rightRoot ← rt ~> right;
           rightRoot ~> parent ::= NULL;;
           rightRoot ~> balance ::= 0;;
           rt ~> right ::= NULL;;
           leftRoot ← this ~> root;
           leftRoot ~> balance ::= 0;;
           mret (splitKey, leftRoot, rightRoot)
         else
           splitKey ← rt ~> key;
           splitVal ← rt ~> val;
           leftRoot ← rt ~> left;
           leftRoot ~> parent ::= NULL;;
           rt ~> left ::= NULL;;
           c ← rt ~> right;
           if c == NULL then
             rightRoot ← this ~> root;
             rightRoot ~> balance ::= 0;;
             mret (splitKey, leftRoot, rightRoot)
           else
             oldRoot ← this ~> root;
             c ← oldRoot ~> right;
             this ~> root ::= c;;
             c ← this ~> root;
             c ~> parent ::= NULL;;
             free avl_node oldRoot;;
             insert this splitKey splitVal;;
             rightRoot ← this ~> root;
             mret (splitKey, leftRoot, rightRoot));
      leftTree ← newTree;
      leftTree ~> root ::= leftRoot;;
      rightTree ← newTree;
      rightTree ~> root ::= rightRoot;;
      this ~> root ::= NULL;;
      mret (splitKey, leftTree, rightTree).

Definition isEmpty (this : ptr) : M bool :=
  r ← this ~> root; mret (r == NULL).

(** ** Counting and checking *)

Fixpoint sumOfKeysHelper (fuel : nat) (node : ptr) : M Z :=
  match fuel with
  | O => throw OutOfFuel
  | S fuel =>
      if node == NULL then mret 0
      else
        k ← node ~> key;
        l ← node ~> left;
        sl ← sumOfKeysHelper fuel l;
        r ← node ~> right;
        sr ← sumOfKeysHelper fuel r;
        mret (size_t (size_t (k + sl) + sr))
  end.

Definition sumOfKeys (this : ptr) : M Z :=
  r ← this ~> root; with_fuel (λ fuel, sumOfKeysHelper fuel r).

Fixpoint numKeysHelper (fuel : nat) (node : ptr) : M Z :=
  match fuel with
  | O => throw OutOfFuel
  | S fuel =>
      if node == NULL then mret 0
      else
        l ← node ~> left;
        sl ← numKeysHelper fuel l;
        r ← node ~> right;
        sr ← numKeysHelper fuel r;
        mret (size_t (size_t (1 + sl) + sr))
  end.

Definition numKeys (this : ptr) : M Z :=
  r ← this ~> root; with_fuel (λ fuel, numKeysHelper fuel r).

Fixpoint doesAVLHold (fuel : nat) (node : ptr) : M bool :=
  match fuel with
  | O => throw OutOfFuel
  | S fuel =>
      if node != NULL then
        l ← node ~> left;
        hl ← (if l != NULL then l ← node ~> left; doesAVLHold fuel l else mret true);
        r ← node ~> right;
        hr ← (if r != NULL then r ← node ~> right; doesAVLHold fuel r else mret true);
        b ← node ~> balance;
        mret (hl && hr && (Z.abs b <=? 1))
      else mret true
  end.

Definition checkAVL (this : ptr) : M bool :=
  r ← this ~> root; with_fuel (λ fuel, doesAVLHold fuel r).

End AVL.
