(* ===== verification/AVLProof.v ===== *)
(** * AVLProof: the AVL tree code implements its functional description *)
From S2P Require Import Prelude Memory SepLogic BinTree BinHeap AVLSpec AVLTree.
#[local] Open Scope Z_scope.
#[local] Open Scope cpp_scope.

(** ** Representation predicates *)

Abbreviation tree_at := (BinHeap.tree_at AvlNode).
Abbreviation path_at := (BinHeap.path_at AvlNode).
Abbreviation lctx := (list (loc * aframe)).

(** A tree object with the path from its root to a hole. *)
Definition ctx_at (this : loc) (c : lctx) (p : ptr) : hprop :=
  (∃ rp, this ↦ AvlTree rp ∗ path_at c p rp NULL)%I.
Abbreviation cpar c := (par_of c NULL).

(** The [AVLTree] object at [this] holds the tree [t]. *)
Definition avl_at (this : loc) (t : atree) : hprop :=
  (∃ p, this ↦ AvlTree p ∗ tree_at p NULL t)%I.

Lemma ctx_at_plug this c p t :
  ctx_at this c p -∗ tree_at p (cpar c) t -∗ avl_at this (plug c.*2 t).
Proof.
  iIntros "(%rp & Hthis & Hc) Ht". iExists rp. iFrame. iApply (plug_at with "Hc Ht").
Qed.

Lemma ctx_at_nil this t : avl_at this t ⊣⊢ ∃ p, ctx_at this [] p ∗ tree_at p NULL t.
Proof.
  iSplit.
  - iIntros "(%p & Hthis & Ht)". iExists p. iFrame. by simpl.
  - iIntros "(%p & Hc & Ht)". iApply (ctx_at_plug _ [] with "Hc Ht").
Qed.

(** ** Pointer idioms *)

Lemma wp_reparent {T} `{Object T} z (o : T) (f : field T ptr) p par q t Q :
  fget f o = p →
  z ↦ o -∗ tree_at p par t -∗ (z ↦ o -∗ tree_at p q t -∗ Q ()) -∗
  wp (when (p != NULL) (x ← get (Some z) f; x ~> AVL.parent ::= q)) Q.
Proof.
  iIntros (Hp) "Hz Ht HQ". rewrite /when. destruct t as [|l k v b r]; simpl.
  - iDestruct "Ht" as %->. rewrite bool_decide_true //=. wp_step. by iApply ("HQ" with "Hz").
  - iDestruct "Ht" as (y pl pr ->) "(Hy & Hl & Hr)". rewrite bool_decide_false //=.
    wp_step. rewrite Hp. wp_step. iApply ("HQ" with "Hz").
    iExists y, pl, pr. by iFrame.
Qed.

Lemma wp_replaceChild this c x (o : avl_node) q Q :
  x ↦ o -∗ ctx_at this c (Some x) -∗ (x ↦ o -∗ ctx_at this c q -∗ Q ()) -∗
  wp (AVL.replaceChild (Some this) (cpar c) (Some x) q) Q.
Proof.
  iIntros "Hx (%rp & Hthis & Hc) HQ". rewrite /AVL.replaceChild.
  destruct c as [|[y [k v b r|l k v b]] c]; simpl.
  - iDestruct "Hc" as %->. wp_step. iApply ("HQ" with "Hx"). iExists q. by iFrame.
  - iDestruct "Hc" as (pr) "(Hy & Hr & Hc)". wp_step. rewrite bool_decide_true //.
    wp_step. iApply ("HQ" with "Hx"). iExists rp. by iFrame.
  - iDestruct "Hc" as (pl) "(Hy & Hl & Hc)". wp_step.
    iDestruct (tree_at_ne with "Hx Hl") as %Hne. rewrite bool_decide_false //. wp_step.
    iApply ("HQ" with "Hx"). iExists rp. by iFrame.
Qed.

(** [wp_reparent Hz Ht]: run the parent update of the subtree [Ht], whose
    pointer is read again from the node [Hz]. *)
Ltac two_hyps H1 H2 := eval vm_compute in (String.append H1 (String.append " " H2)).
Tactic Notation "wp_reparent" constr(Hz) constr(Ht) :=
  let pat := two_hyps Hz Ht in
  iApply wp_bind; iApply (wp_reparent with pat); [done | iIntros pat]; simpl.
Tactic Notation "wp_replaceChild" constr(Hx) constr(Hc) :=
  let pat := two_hyps Hx Hc in
  iApply wp_bind; iApply (wp_replaceChild with pat); iIntros pat; simpl.

(** ** Rotations *)

Lemma wp_rotateLeft this c x y k v b pr k1 v1 b1 pl1 pr1 t1 Q :
  x ↦ AvlNode k (Some y) pr (cpar c) b v -∗ y ↦ AvlNode k1 pl1 pr1 (Some x) b1 v1 -∗
  tree_at pr1 (Some y) t1 -∗ ctx_at this c (Some x) -∗
  (x ↦ AvlNode k pr1 pr (Some y) 0 v -∗ y ↦ AvlNode k1 pl1 (Some x) (cpar c) 0 v1 -∗
   tree_at pr1 (Some x) t1 -∗ ctx_at this c (Some y) -∗ Q ()) -∗
  wp (AVL.rotateLeft (Some this) (Some x)) Q.
Proof.
  iIntros "Hx Hy Ht Hc HQ". rewrite /AVL.rotateLeft.
  do 5 wp_step. wp_reparent "Hx" "Ht". do 3 wp_step.
  wp_replaceChild "Hx" "Hc". do 2 wp_step. iApply ("HQ" with "Hx Hy Ht Hc").
Qed.

Lemma wp_rotateRight this c x y k v b pl k1 v1 b1 pl1 pr1 t1 Q :
  x ↦ AvlNode k pl (Some y) (cpar c) b v -∗ y ↦ AvlNode k1 pl1 pr1 (Some x) b1 v1 -∗
  tree_at pl1 (Some y) t1 -∗ ctx_at this c (Some x) -∗
  (x ↦ AvlNode k pl pl1 (Some y) 0 v -∗ y ↦ AvlNode k1 (Some x) pr1 (cpar c) 0 v1 -∗
   tree_at pl1 (Some x) t1 -∗ ctx_at this c (Some y) -∗ Q ()) -∗
  wp (AVL.rotateRight (Some this) (Some x)) Q.
Proof.
  iIntros "Hx Hy Ht Hc HQ". rewrite /AVL.rotateRight.
  do 5 wp_step. wp_reparent "Hx" "Ht". do 3 wp_step.
  wp_replaceChild "Hx" "Hc". do 2 wp_step. iApply ("HQ" with "Hx Hy Ht Hc").
Qed.

Lemma wp_rotateDoubleRight this c x y z k v b pr k1 v1 b1 pl1 k2 v2 b2 pl2 pr2 t1 t2 Q :
  x ↦ AvlNode k (Some y) pr (cpar c) b v -∗ y ↦ AvlNode k1 pl1 (Some z) (Some x) b1 v1 -∗
  z ↦ AvlNode k2 pl2 pr2 (Some y) b2 v2 -∗
  tree_at pl2 (Some z) t1 -∗ tree_at pr2 (Some z) t2 -∗ ctx_at this c (Some x) -∗
  (x ↦ AvlNode k pr2 pr (Some z) (if b2 =? -1 then 1 else 0) v -∗
   y ↦ AvlNode k1 pl1 pl2 (Some z) (if b2 =? 1 then -1 else 0) v1 -∗
   z ↦ AvlNode k2 (Some y) (Some x) (cpar c) 0 v2 -∗
   tree_at pl2 (Some y) t1 -∗ tree_at pr2 (Some x) t2 -∗ ctx_at this c (Some z) -∗ Q ()) -∗
  wp (AVL.rotateDoubleRight (Some this) (Some x)) Q.
Proof.
  iIntros "Hx Hy Hz Ht1 Ht2 Hc HQ". rewrite /AVL.rotateDoubleRight.
  do 6 wp_step. wp_reparent "Hz" "Ht1". do 5 wp_step. wp_reparent "Hz" "Ht2".
  do 6 wp_step. wp_replaceChild "Hx" "Hc". do 2 wp_step.
  iApply ("HQ" with "Hx Hy Hz Ht1 Ht2 Hc").
Qed.

Lemma wp_rotateDoubleLeft this c x y z k v b pl k1 v1 b1 pr1 k2 v2 b2 pl2 pr2 t1 t2 Q :
  x ↦ AvlNode k pl (Some y) (cpar c) b v -∗ y ↦ AvlNode k1 (Some z) pr1 (Some x) b1 v1 -∗
  z ↦ AvlNode k2 pl2 pr2 (Some y) b2 v2 -∗
  tree_at pl2 (Some z) t1 -∗ tree_at pr2 (Some z) t2 -∗ ctx_at this c (Some x) -∗
  (x ↦ AvlNode k pl pl2 (Some z) (if b2 =? 1 then -1 else 0) v -∗
   y ↦ AvlNode k1 pr2 pr1 (Some z) (if b2 =? -1 then 1 else 0) v1 -∗
   z ↦ AvlNode k2 (Some x) (Some y) (cpar c) 0 v2 -∗
   tree_at pl2 (Some x) t1 -∗ tree_at pr2 (Some y) t2 -∗ ctx_at this c (Some z) -∗ Q ()) -∗
  wp (AVL.rotateDoubleLeft (Some this) (Some x)) Q.
Proof.
  iIntros "Hx Hy Hz Ht1 Ht2 Hc HQ". rewrite /AVL.rotateDoubleLeft.
  do 6 wp_step. wp_reparent "Hz" "Ht2". do 5 wp_step. wp_reparent "Hz" "Ht1".
  do 6 wp_step. wp_replaceChild "Hx" "Hc". do 2 wp_step.
  iApply ("HQ" with "Hx Hy Hz Ht1 Ht2 Hc").
Qed.

(** ** One step of rebalancing after a deletion *)

(** The post-state of a step: the subtree [t] hangs in the hole of [c]. *)
Definition hole_at (this : loc) (c : lctx) (t : atree) : hprop :=
  (∃ p, ctx_at this c p ∗ tree_at p (cpar c) t)%I.

(** Closes [hole_at] from the context [Hc] and the nodes in scope. *)
Ltac hole_done := iExists _; iFrame "Hc"; iExists _, _, _; iSplit; [done |]; by iFrame.

Lemma wp_deleteBalanceLeft this c x k v b pl pr t r Q :
  frame_avl (FL k v b r) (zheight t + 1) →
  x ↦ AvlNode k pl pr (cpar c) b v -∗ tree_at pl (Some x) t -∗ tree_at pr (Some x) r -∗
  ctx_at this c (Some x) -∗
  (hole_at this c (shrink_frame (FL k v b r) t).1 -∗ Q (shrink_frame (FL k v b r) t).2) -∗
  wp (AVL.deleteBalanceLeft (Some this) (Some x)) Q.
Proof.
  iIntros ((Hr & Hb & Hbr)) "Hx Ht Hr Hc HQ". rewrite /AVL.deleteBalanceLeft /=. wp_step.
  destruct (Z.eqb_spec b (-1)).
  { do 2 wp_step. iApply "HQ". hole_done. }
  destruct (Z.eqb_spec b 0).
  { do 2 wp_step. iApply "HQ". hole_done. }
  destruct r as [|rl rk rv rb rr]; [zh |]. simpl in Hr. destruct Hr as (Hrl & Hrr & Hrb & ?).
  iDestruct "Hr" as (y pl1 pr1 ->) "(Hy & Hrl & Hrr)". do 3 wp_step.
  destruct (Z.geb_spec rb 0).
  - iApply wp_bind. iApply (wp_rotateRight with "Hx Hy Hrl Hc").
    iIntros "Hx Hy Hrl Hc". destruct (Z.eqb_spec rb 0).
    + do 3 wp_step. iApply "HQ". hole_done.
    + wp_step. iApply "HQ". hole_done.
  - destruct rl as [|a k2 v2 b2 d]; [zh |]. iDestruct "Hrl" as (z pl2 pr2 ->) "(Hz & Ha & Hd)".
    do 5 wp_step. wp_reparent "Hz" "Hd". do 5 wp_step. wp_reparent "Hz" "Ha".
    do 5 wp_step. wp_replaceChild "Hx" "Hc". do 2 wp_step.
    iApply "HQ". hole_done.
Qed.

Lemma wp_deleteBalanceRight this c x k v b pl pr l t Q :
  frame_avl (FR l k v b) (zheight t + 1) →
  x ↦ AvlNode k pl pr (cpar c) b v -∗ tree_at pl (Some x) l -∗ tree_at pr (Some x) t -∗
  ctx_at this c (Some x) -∗
  (hole_at this c (shrink_frame (FR l k v b) t).1 -∗ Q (shrink_frame (FR l k v b) t).2) -∗
  wp (AVL.deleteBalanceRight (Some this) (Some x)) Q.
Proof.
  iIntros ((Hr & Hb & Hbr)) "Hx Hl Ht Hc HQ". rewrite /AVL.deleteBalanceRight /=. wp_step.
  destruct (Z.eqb_spec b 1).
  { do 2 wp_step. iApply "HQ". hole_done. }
  destruct (Z.eqb_spec b 0).
  { do 2 wp_step. iApply "HQ". hole_done. }
  destruct l as [|ll lk lv lb lr]; [zh |]. simpl in Hr. destruct Hr as (Hll & Hlr & Hlb & ?).
  iDestruct "Hl" as (y pl1 pr1 ->) "(Hy & Hll & Hlr)". do 3 wp_step.
  destruct (Z.leb_spec lb 0).
  - iApply wp_bind. iApply (wp_rotateLeft with "Hx Hy Hlr Hc").
    iIntros "Hx Hy Hlr Hc". destruct (Z.eqb_spec lb 0).
    + do 3 wp_step. iApply "HQ". hole_done.
    + wp_step. iApply "HQ". hole_done.
  - destruct lr as [|a k2 v2 b2 d]; [zh |]. iDestruct "Hlr" as (z pl2 pr2 ->) "(Hz & Ha & Hd)".
    do 5 wp_step. wp_reparent "Hz" "Ha". do 5 wp_step. wp_reparent "Hz" "Hd".
    do 5 wp_step. wp_replaceChild "Hx" "Hc". do 2 wp_step.
    iApply "HQ". hole_done.
Qed.

(** ** Loops have enough fuel: a tree owns its nodes *)

Lemma ctx_at_size this c p : ctx_at this c p ⊢ at_least (length c).
Proof. iIntros "(%rp & _ & Hc)". iApply (path_at_size with "Hc"). Qed.

(** ** Searching *)

(** The state in which a search for [k] stops, from the path [c] and the
    subtree [t] on. *)
Definition found_at (this : loc) (k : Z) (t : atree) (c : actx) (c' : lctx) (p : ptr) : hprop :=
  (<affine> ⌜c'.*2 = (descend k t c).1⌝ ∗ ctx_at this c' p ∗
   tree_at p (cpar c') (descend k t c).2)%I.

Lemma found_at_plug this k t c p : found_at this k t [] c p -∗ avl_at this t.
Proof.
  iIntros "(%Hc & Hc & Ht)". pose proof (descend_plug k t []) as Hplug. simpl in Hplug.
  rewrite -{2}Hplug -Hc. iApply (ctx_at_plug with "Hc Ht").
Qed.

(** Moving down one node of the path keeps the context assertion. *)
Lemma ctx_at_left this c x k v b pl pr r :
  ctx_at this c (Some x) -∗ x ↦ AvlNode k pl pr (cpar c) b v -∗ tree_at pr (Some x) r -∗
  ctx_at this ((x, FL k v b r) :: c) pl.
Proof. iIntros "(%rp & Hthis & Hc) Hx Hr". iExists rp. iFrame. Qed.

Lemma ctx_at_right this c x k v b pl pr l :
  ctx_at this c (Some x) -∗ x ↦ AvlNode k pl pr (cpar c) b v -∗ tree_at pl (Some x) l -∗
  ctx_at this ((x, FR l k v b) :: c) pr.
Proof. iIntros "(%rp & Hthis & Hc) Hx Hl". iExists rp. iFrame. Qed.

Lemma wp_getAVLNode this t k Q :
  avl_at this t -∗ (∀ c p, found_at this k t [] c p -∗ Q p) -∗
  wp (AVL.getAVLNode (Some this) k) Q.
Proof.
  iIntros "(%p & Hthis & Ht) HQ". rewrite /AVL.getAVLNode. wp_step.
  wp_while (height t) from tree_at_size "Ht".
  iAssert (∃ c : lctx, ctx_at this c p ∗ tree_at p (cpar c) t ∗
    (∀ c' p, found_at this k t c.*2 c' p -∗ Q p))%I with "[-]" as (c) "(Hc & Ht & HQ)".
  { iExists []. iFrame. by simpl. }
  iInduction t as [|l IHl k' v b r IHr] forall (fuel Hfuel p c);
    (destruct fuel as [|fuel]; [lia |]); iApply wp_iter_S;
    rewrite /AVL.getAVLNodeStep /=.
  - iDestruct "Ht" as %->. rewrite bool_decide_true //. wp_step. iApply "HQ". by iFrame.
  - iDestruct "Ht" as (x pl pr ->) "(Hx & Hl & Hr)". rewrite bool_decide_false //. wp_step.
    rewrite /found_at /=. destruct (k <? k'); [|destruct (k >? k')].
    + do 2 wp_step. iApply ("IHl" $! _ _ _ ((x, FL k' v b r) :: c) with "[-Hl HQ] Hl HQ").
      iApply (ctx_at_left with "Hc Hx Hr").
    + do 2 wp_step. iApply ("IHr" $! _ _ _ ((x, FR l k' v b) :: c) with "[-Hr HQ] Hr HQ").
      iApply (ctx_at_right with "Hc Hx Hl").
    + wp_step. iApply ("HQ" $! c). iSplit; [done|]. by iFrame.
  Unshelve. all: simpl in *; lia.
Qed.

(** The value stored under the searched key, [NO_VALUE] when there is none. *)
Definition search_result (t : atree) : Z :=
  match t with Leaf => AVL.NO_VALUE | Node _ _ v _ _ => v end.

Lemma wp_find this t k Q :
  avl_at this t -∗ (avl_at this t -∗ Q (search_result (descend k t []).2)) -∗
  wp (AVL.find (Some this) k) Q.
Proof.
  iIntros "Ht HQ". rewrite /AVL.find. iApply wp_bind. iApply (wp_getAVLNode with "Ht").
  iIntros (c p) "H". iDestruct "H" as (Hc) "[Hc Ht]".
  pose proof (descend_plug k t []) as Hplug. simpl in Hplug.
  destruct (descend k t []) as [c' t']. simpl in *. rewrite -Hplug -Hc.
  destruct t' as [|l k' v b r].
  - iDestruct "Ht" as %->. rewrite bool_decide_true //. wp_step. iApply "HQ".
    by iApply (ctx_at_plug with "Hc").
  - iDestruct "Ht" as (x pl pr ->) "(Hx & Hl & Hr)". rewrite bool_decide_false //. wp_step.
    iApply "HQ". iApply (ctx_at_plug with "Hc"). iExists x, pl, pr. by iFrame.
Qed.

(** ** Rebalancing after a subtree has grown *)

(** What one turn of the loop leaves: the node above has grown, too, and the
    loop goes on there, or the whole tree is repaired. *)
Definition grow_post (this : loc) (c : lctx) (res : atree * bool)
    (Q : ptr * ptr + unit → hprop) : hprop :=
  (if res.2 then ∀ q, ctx_at this c q -∗ tree_at q (cpar c) res.1 -∗ Q (inl (q, cpar c))
   else avl_at this (plug c.*2 res.1) -∗ Q (inr ()))%I.

Lemma wp_growLeft this x k v b r c t p Q :
  grown (FL k v b r) t →
  ctx_at this ((x, FL k v b r) :: c) p -∗ tree_at p (Some x) t -∗
  grow_post this c (grow_frame (FL k v b r) t) Q -∗
  wp (AVL.rebalanceGrownStep (Some this) (p, Some x)) Q.
Proof.
  iIntros ((Hta & Hne & Hfa & Hlean)) "Hc Ht HQ".
  destruct t as [|a k1 v1 b1 d]; [done |]. iDestruct "Ht" as (y pl1 pr1 ->) "(Hy & Ha & Hd)".
  iDestruct "Hc" as (rp) "[Hthis (%pr & Hx & Hr & Hc)]".
  rewrite /AVL.rebalanceGrownStep /=. do 2 wp_step. rewrite bool_decide_true //.
  iAssert (ctx_at this c (Some x)) with "[Hthis Hc]" as "Hc"; [by iExists rp; iFrame|].
  destruct (Z.eqb_spec b (-1)); [do 2 wp_step; destruct (Z.eqb_spec b1 (-1)) |
    destruct (Z.eqb_spec b 0)]; simpl.
  - iApply wp_bind. iApply (wp_rotateLeft with "Hx Hy Hd Hc"). iIntros "Hx Hy Hd Hc".
    wp_step. iApply "HQ". iApply (ctx_at_plug with "Hc"). iExists _, _, _. by iFrame.
  - simpl in *. destruct Hta as (? & ? & ? & ?). specialize (Hlean ltac:(lia)).
    destruct d as [|d1 k2 v2 b2 d2]; [zh|].
    iDestruct "Hd" as (z pl2 pr2 ->) "(Hz & Hd1 & Hd2)".
    iApply wp_bind. iApply (wp_rotateDoubleRight with "Hx Hy Hz Hd1 Hd2 Hc").
    iIntros "Hx Hy Hz Hd1 Hd2 Hc". wp_step. iApply "HQ". iApply (ctx_at_plug with "Hc").
    iExists _, _, _. by iFrame.
  - do 3 wp_step. iApply ("HQ" with "Hc"). iExists _, _, _. by iFrame.
  - do 2 wp_step. iApply "HQ". iApply (ctx_at_plug with "Hc"). iExists _, _, _. by iFrame.
Qed.

Lemma wp_growRight this x l k v b c t p Q :
  grown (FR l k v b) t →
  ctx_at this ((x, FR l k v b) :: c) p -∗ tree_at p (Some x) t -∗
  grow_post this c (grow_frame (FR l k v b) t) Q -∗
  wp (AVL.rebalanceGrownStep (Some this) (p, Some x)) Q.
Proof.
  iIntros ((Hta & Hne & Hfa & Hlean)) "Hc Ht HQ".
  destruct t as [|a k1 v1 b1 d]; [done |]. iDestruct "Ht" as (y pl1 pr1 ->) "(Hy & Ha & Hd)".
  iDestruct "Hc" as (rp) "[Hthis (%pl & Hx & Hl & Hc)]".
  rewrite /AVL.rebalanceGrownStep /=. do 2 wp_step.
  iDestruct (tree_at_ne with "Hy Hl") as %Hpl. rewrite bool_decide_false //.
  iAssert (ctx_at this c (Some x)) with "[Hthis Hc]" as "Hc"; [by iExists rp; iFrame|].
  destruct (Z.eqb_spec b 1); [do 2 wp_step; destruct (Z.eqb_spec b1 1) |
    destruct (Z.eqb_spec b 0)]; simpl.
  - iApply wp_bind. iApply (wp_rotateRight with "Hx Hy Ha Hc"). iIntros "Hx Hy Ha Hc".
    wp_step. iApply "HQ". iApply (ctx_at_plug with "Hc"). iExists _, _, _. by iFrame.
  - simpl in *. destruct Hta as (? & ? & ? & ?). specialize (Hlean ltac:(lia)).
    destruct a as [|a1 k2 v2 b2 a2]; [zh|].
    iDestruct "Ha" as (z pl2 pr2 ->) "(Hz & Ha1 & Ha2)".
    iApply wp_bind. iApply (wp_rotateDoubleLeft with "Hx Hy Hz Ha1 Ha2 Hc").
    iIntros "Hx Hy Hz Ha1 Ha2 Hc". wp_step. iApply "HQ". iApply (ctx_at_plug with "Hc").
    iExists _, _, _. by iFrame.
  - do 3 wp_step. iApply ("HQ" with "Hc"). iExists _, _, _. by iFrame.
  - do 2 wp_step. iApply "HQ". iApply (ctx_at_plug with "Hc"). iExists _, _, _. by iFrame.
Qed.

Lemma wp_rebalanceGrown this c t p Q :
  ctx_grown c.*2 t →
  ctx_at this c p -∗ tree_at p (cpar c) t -∗ (avl_at this (grow c.*2 t) -∗ Q ()) -∗
  wp (AVL.rebalanceGrown (Some this) p (cpar c)) Q.
Proof.
  iIntros (Hg) "Hc Ht HQ". rewrite /AVL.rebalanceGrown.
  wp_while (length c) from ctx_at_size "Hc".
  iInduction c as [|[x f] c IH] forall (fuel Hfuel t p Hg);
    (destruct fuel as [|fuel]; [lia |]); iApply wp_iter_S.
  { rewrite /AVL.rebalanceGrownStep /=. wp_step. iApply "HQ". iApply ctx_at_nil.
    iExists p. iFrame. }
  simpl in *. destruct (grow_frame f t) as [t' up] eqn:Heq.
  iAssert (grow_post this c (grow_frame f t) _) with "[HQ]" as "HQ"; last first.
  { destruct f; [iApply (wp_growLeft with "Hc Ht HQ") | iApply (wp_growRight with "Hc Ht HQ")];
      by eapply ctx_grown_head. }
  rewrite Heq /grow_post /=. destruct up; [|done].
  iIntros (q) "Hc Ht". iApply ("IH" with "[%] [%] Hc Ht HQ"); [lia |].
  by eapply ctx_grown_step.
Qed.

(** ** Insertion *)

(** Which child pointer of the innermost node of a path the hole is. *)
Definition hole_dir (c : lctx) : bool := match c with (_, FR _ _ _ _) :: _ => false | _ => true end.

Lemma wp_linkChild this c p q Q :
  ctx_at this c p -∗ (ctx_at this c q -∗ Q ()) -∗
  wp (if cpar c == NULL then (Some this) ~> AVL.root ::= q
      else if hole_dir c then cpar c ~> AVL.left ::= q else cpar c ~> AVL.right ::= q) Q.
Proof.
  iIntros "(%rp & Hthis & Hc) HQ". destruct c as [|[x [k v b r|l k v b]] c]; simpl.
  - iDestruct "Hc" as %->. wp_step. iApply "HQ". iExists q. by iFrame.
  - iDestruct "Hc" as (pr) "(Hx & Hr & Hc)". wp_step. iApply "HQ". iExists rp. by iFrame.
  - iDestruct "Hc" as (pl) "(Hx & Hl & Hc)". wp_step. iApply "HQ". iExists rp. by iFrame.
Qed.

Lemma wp_insertSearch this k t c p fuel Q :
  (height t < fuel)%nat →
  ctx_at this c p -∗ tree_at p (cpar c) t -∗
  (∀ c' p', found_at this k t c.*2 c' p' -∗
    Q (match (descend k t c.*2).2 with
       | Leaf => inr (cpar c', hole_dir c')
       | Node _ _ w _ _ => inl w
       end)) -∗
  wp (iter fuel (AVL.insertSearchStep k) (cpar c, p, hole_dir c)) Q.
Proof.
  iIntros (Hfuel) "Hc Ht HQ".
  iInduction t as [|l IHl k' v b r IHr] forall (fuel Hfuel p c);
    (destruct fuel as [|fuel]; [lia |]); iApply wp_iter_S;
    rewrite /AVL.insertSearchStep /found_at /=.
  - iDestruct "Ht" as %->. rewrite bool_decide_true //. wp_step. iApply "HQ". by iFrame.
  - iDestruct "Ht" as (x pl pr ->) "(Hx & Hl & Hr)". rewrite bool_decide_false //. wp_step.
    destruct (k <? k'); [|destruct (k >? k')].
    + do 2 wp_step. iApply ("IHl" $! _ _ _ ((x, FL k' v b r) :: c) with "[-Hl HQ] Hl HQ").
      iApply (ctx_at_left with "Hc Hx Hr").
    + do 2 wp_step. iApply ("IHr" $! _ _ _ ((x, FR l k' v b) :: c) with "[-Hr HQ] Hr HQ").
      iApply (ctx_at_right with "Hc Hx Hl").
    + do 2 wp_step. iApply ("HQ" $! c). iSplit; [done|]. by iFrame.
  Unshelve. all: simpl in *; lia.
Qed.

Lemma wp_insert this t k v Q :
  avl t →
  avl_at this t -∗
  (avl_at this (insert_tree k v t) -∗ Q (search_result (descend k t []).2)) -∗
  wp (AVL.insert (Some this) k v) Q.
Proof.
  iIntros (Havl) "(%p & Hthis & Ht) HQ". rewrite /AVL.insert. wp_step.
  iApply wp_bind. wp_while (height t) from tree_at_size "Ht".
  iApply (wp_insertSearch _ _ _ [] with "[Hthis] Ht"); [done | by iExists p; iFrame |].
  iIntros (c q) "H". pose proof (descend_plug k t []) as Hplug. simpl in Hplug.
  rewrite /insert_tree. destruct (descend k t []) as [c' [|l k' w b r]] eqn:Hd; simpl in *.
  - iDestruct "H" as (Hc) "[Hc Ht]". rewrite Hd /= in Hc *. iDestruct "Ht" as %->.
    iApply wp_bind. iApply wp_new. iIntros (y) "Hy".
    iApply wp_bind. iApply (wp_linkChild with "Hc"). iIntros "Hc". rewrite -Hc.
    iApply wp_bind. iApply (wp_rebalanceGrown with "Hc [Hy]").
    { apply ctx_grown_leaf. by rewrite Hc Hplug. }
    { iExists y, NULL, NULL. by iFrame. }
    iIntros "Ht". wp_step. by iApply "HQ".
  - rewrite Hd /=. wp_step. iApply "HQ". iApply (found_at_plug with "H").
Qed.
