(* ===== verification/AVLErase.v ===== *)
(** * AVLErase: [erase] of the AVL tree removes one key and rebalances *)
From S2P Require Import Prelude Memory SepLogic BinTree BinHeap AVLSpec AVLTree AVLProof.
#[local] Open Scope Z_scope.
#[local] Open Scope cpp_scope.

(** ** Deletion *)

Lemma wp_eraseSearch this k t c p fuel Q :
  (height t < fuel)%nat →
  ctx_at this c p -∗ tree_at p (cpar c) t -∗
  (∀ c' p', found_at this k t c.*2 c' p' -∗ Q (p', hole_dir c')) -∗
  wp (iter fuel (AVL.eraseSearchStep k) (p, hole_dir c)) Q.
Proof.
  iIntros (Hfuel) "Hc Ht HQ".
  iInduction t as [|l IHl k' v b r IHr] forall (fuel Hfuel p c);
    (destruct fuel as [|fuel]; [lia |]); iApply wp_iter_S;
    rewrite /AVL.eraseSearchStep /found_at /=.
  - iDestruct "Ht" as %->. rewrite bool_decide_true //. wp_step. iApply "HQ". by iFrame.
  - iDestruct "Ht" as (x pl pr ->) "(Hx & Hl & Hr)". rewrite bool_decide_false //. wp_step.
    destruct (k <? k'); [|destruct (k >? k')].
    + do 2 wp_step. iApply ("IHl" $! _ _ _ ((x, FL k' v b r) :: c) with "[-Hl HQ] Hl HQ").
      iApply (ctx_at_left with "Hc Hx Hr").
    + do 2 wp_step. iApply ("IHr" $! _ _ _ ((x, FR l k' v b) :: c) with "[-Hr HQ] Hr HQ").
      iApply (ctx_at_right with "Hc Hx Hl").
    + wp_step. iApply ("HQ" $! c). iSplit; [done|]. by iFrame.
  Unshelve. all: simpl in *; lia.
Qed.

Lemma wp_spliceOut this c x (o : avl_node) f q t Q :
  fget f o = q →
  x ↦ o -∗ tree_at q (Some x) t -∗ ctx_at this c (Some x) -∗
  (ctx_at this c q -∗ tree_at q (cpar c) t -∗ Q q) -∗
  wp (AVL.spliceOut (Some this) (cpar c) (Some x) (hole_dir c) f) Q.
Proof.
  iIntros (Hq) "Hx Ht Hc HQ". rewrite /AVL.spliceOut.
  iAssert (x ↦ o -∗ ctx_at this c q -∗ wp (
    cc ← (Some x) ~> f; when (cc != NULL) (cc ← (Some x) ~> f; cc ~> AVL.parent ::= cpar c);;
    tmp ← (Some x) ~> f; free avl_node (Some x);; mret tmp) Q)%I with "[HQ Ht]" as "H".
  { iIntros "Hx Hc". wp_step. rewrite Hq. wp_reparent "Hx" "Ht". wp_step. wp_step. wp_step.
    rewrite Hq. iApply ("HQ" with "Hc Ht"). }
  iApply wp_bind. iDestruct "Hc" as (rp) "[Hthis Hc]".
  destruct c as [|[y [k v b r|l k v b]] c]; simpl.
  - iDestruct "Hc" as %->. do 2 wp_step. rewrite Hq. iApply ("H" with "Hx"). iExists q. by iFrame.
  - iDestruct "Hc" as (pr) "(Hy & Hr & Hc)". do 2 wp_step. rewrite Hq. iApply ("H" with "Hx").
    iExists rp. by iFrame.
  - iDestruct "Hc" as (pl) "(Hy & Hl & Hc)". do 2 wp_step. rewrite Hq. iApply ("H" with "Hx").
    iExists rp. by iFrame.
Qed.

(** The walk down to the rightmost node. *)
Lemma wp_rightmost t (fs : lctx) p q qp fuel Q :
  t ≠ Leaf → (height t < fuel)%nat →
  path_at fs p q qp -∗ tree_at p (par_of fs qp) t -∗
  (∀ fs' p', <affine> ⌜fs'.*2 = (rightmost t fs.*2).1⌝ -∗ path_at fs' p' q qp -∗
    tree_at p' (par_of fs' qp) (rightmost t fs.*2).2 -∗ Q (p', Z.of_nat (length fs'))) -∗
  wp (iter fuel AVL.rightmostStep (p, Z.of_nat (length fs))) Q.
Proof.
  iIntros (Hne Hfuel) "Hp Ht HQ".
  iInduction t as [|l IHl k v b r IHr] forall (fuel Hfuel p fs Hne); [done |].
  destruct fuel as [|fuel]; [lia |]. iApply wp_iter_S. rewrite /AVL.rightmostStep /=.
  iDestruct "Ht" as (x pl pr ->) "(Hx & Hl & Hr)". wp_step.
  destruct r as [|rl rk rv rb rr].
  - iDestruct "Hr" as %->. rewrite bool_decide_true //=. wp_step.
    iApply ("HQ" $! fs with "[//] Hp"). iExists x, pl, NULL. by iFrame.
  - iDestruct "Hr" as (y pl1 pr1 ->) "Hr". rewrite bool_decide_false //=. do 2 wp_step.
    replace (Z.of_nat (length fs) + 1) with (Z.of_nat (length ((x, FR l k v b) :: fs)))
      by (simpl; lia).
    iApply ("IHr" $! _ _ _ ((x, FR l k v b) :: fs) with "[//] [-Hr HQ] [Hr] HQ").
    + simpl. iExists pl. by iFrame.
    + simpl. iExists y, pl1, pr1. by iFrame.
  Unshelve. simpl in *; lia.
Qed.

Lemma ctx_at_app this c1 c2 p :
  ctx_at this (c1 ++ c2) p ⊣⊢ ∃ q, path_at c1 p q (cpar c2) ∗ ctx_at this c2 q.
Proof.
  rewrite /ctx_at. setoid_rewrite path_at_app. iSplit.
  - iIntros "(%rp & Hthis & %q & H1 & H2)". iExists q. iFrame.
  - iIntros "(%q & H1 & %rp & Hthis & H2)". iExists rp. iFrame.
Qed.

(** The walk back up: it repairs exactly the nodes [fs] passed on the way down. *)
Lemma wp_replaceRebalance this fs c t p fuel Q :
  avl t → ctx_avl fs.*2 (zheight t + 1) → ctx_r fs.*2 = [] → (length fs < fuel)%nat →
  ctx_at this (fs ++ c) p -∗ tree_at p (cpar (fs ++ c)) t -∗
  (∀ q, ctx_at this c q -∗ tree_at q (cpar c) (shrink fs.*2 t).1 -∗ Q (shrink fs.*2 t).2) -∗
  wp (iter fuel (AVL.replaceRebalanceStep (Some this))
       (cpar (fs ++ c), Z.of_nat (length fs), true)) Q.
Proof.
  iIntros (Ht Hfs Hr Hfuel) "Hc Ht HQ".
  iInduction fs as [|[x f] fs IH] forall (fuel Hfuel t p Ht Hfs Hr);
    (destruct fuel as [|fuel]; [simpl in *; lia |]); iApply wp_iter_S;
    rewrite /AVL.replaceRebalanceStep /=.
  { wp_step. iApply ("HQ" with "Hc Ht"). }
  destruct f as [k v b r|l k v b]; [done |]. simpl in Hfs, Hr.
  iDestruct "Hc" as (rp) "[Hthis (%pl & Hx & Hl & Hc)]". fold path_at.
  iAssert (ctx_at this (fs ++ c) (Some x)) with "[Hthis Hc]" as "Hc"; [by iExists rp; iFrame|].
  wp_step. iApply wp_bind.
  iApply (wp_deleteBalanceRight with "Hx Hl Ht Hc"); [apply Hfs |].
  iIntros "(%q & Hc & Ht)". wp_step.
  destruct (shrink_frame (FR l k v b) t) as [t' down] eqn:Hsf; rewrite /= in Hsf *. rewrite Hsf /=.
  match goal with |- context [?z - 1] => replace (z - 1) with (Z.of_nat (length fs)) by lia end.
  destruct down.
  - destruct (shrink_frame_ctx (FR l k v b) fs.*2 t t') as [Ht' Hc']; [done..|].
    iApply ("IH" with "[%] [%] [%] [%] Hc Ht HQ"); [simpl in *; lia | done..].
  - destruct fuel as [|fuel]; [simpl in *; lia |]. iApply wp_iter_S. rewrite /AVL.replaceRebalanceStep andb_false_r.
    wp_step. rewrite ctx_at_app. iDestruct "Hc" as (q') "[Hp Hc]". iApply ("HQ" with "Hc").
    iApply (plug_at with "Hp"). by destruct fs as [|[]].
Qed.

(** [wp_reparent] with the new parent read from memory. *)
Lemma wp_reparentTo z (o : avl_node) p par t Q :
  z ↦ o -∗ tree_at p par t -∗ (z ↦ o -∗ tree_at p (avl_parent o) t -∗ Q ()) -∗
  wp (when (p != NULL) (x ← (Some z) ~> AVL.parent; p ~> AVL.parent ::= x)) Q.
Proof.
  iIntros "Hz Ht HQ". rewrite /when. destruct t as [|l k v b r]; simpl.
  - iDestruct "Ht" as %->. rewrite bool_decide_true //=. wp_step. by iApply ("HQ" with "Hz").
  - iDestruct "Ht" as (y pl pr ->) "(Hy & Hl & Hr)". rewrite bool_decide_false //=.
    do 2 wp_step. iApply ("HQ" with "Hz"). iExists y, pl, pr. by iFrame.
Qed.

(** The node [n] of a path, split from what lies below and above it. *)
Lemma ctx_at_node this n c k v b r fs p :
  ctx_at this (fs ++ (n, FL k v b r) :: c) p ⊣⊢
  ∃ q pr, path_at fs p q (Some n) ∗ n ↦ AvlNode k q pr (cpar c) b v ∗ tree_at pr (Some n) r ∗
    ctx_at this c (Some n).
Proof.
  rewrite ctx_at_app /ctx_at /=. iSplit.
  - iIntros "(%q & Hp & %rp & Hthis & %pr & Hn & Hr & Hc)". iExists q, pr. iFrame.
  - iIntros "(%q & %pr & Hp & Hn & Hr & %rp & Hthis & Hc)". iExists q. iFrame.
Qed.

Lemma wp_replaceWithRightmost this n c k v b l r p fs ml mk mv mb Q :
  avl l → rightmost l [] = (fs, Node ml mk mv mb Leaf) → plug fs (Node ml mk mv mb Leaf) = l →
  ctx_r fs = [] →
  ctx_at this ((n, FL k v b r) :: c) p -∗ tree_at p (Some n) l -∗
  (∀ q, ctx_at this ((n, FL mk mv b r) :: c) q -∗ tree_at q (Some n) (shrink fs ml).1 -∗
    Q (shrink fs ml).2) -∗
  wp (AVL.replaceWithRightmost (Some this) (Some n)) Q.
Proof.
  iIntros (Hl Hrm Hplug Hr) "Hc Ht HQ". rewrite /AVL.replaceWithRightmost.
  iDestruct (ctx_at_node _ _ _ _ _ _ _ [] with "Hc") as (q pr) "(%Hq & Hn & Hr & Hc)".
  subst q. wp_step. iApply wp_bind. wp_while (height l) from tree_at_size "Ht".
  assert (l ≠ Leaf) as Hne by (intros ->; simpl in Hrm; congruence).
  iApply (wp_rightmost l [] p p (Some n) with "[] Ht"); [done | done | done |].
  iIntros (fs' p') "%Hfs Hp Hm". rewrite /= Hrm /= in Hfs *.
  iDestruct "Hm" as (m pml pmr ->) "(Hm & Hml & ->)". do 5 wp_step.
  destruct (shrink_rightmost l fs ml mk mv mb (shrink fs ml).1 (shrink fs ml).2)
    as (Hml & Hfsa & _); [done.. | by destruct (shrink fs ml) |].
  set (c' := (n, FL mk mv b r) :: c).
  iAssert (m ↦ AvlNode mk pml NULL (cpar (fs' ++ c')) mb mv -∗ ctx_at this (fs' ++ c') pml -∗ wp (
      cl ← (Some m) ~> AVL.left;
      when (cl != NULL) (cp ← (Some m) ~> AVL.parent; cl ~> AVL.parent ::= cp);;
      tmp ← (Some m) ~> AVL.parent;
      free avl_node (Some m);;
      loop (AVL.replaceRebalanceStep (Some this)) (tmp, Z.of_nat (length fs'), true)) Q)%I
    with "[HQ Hml]" as "Htail".
  { iIntros "Hm Hc". wp_step. iApply wp_bind. iApply (wp_reparentTo with "Hm Hml").
    iIntros "Hm Hml". do 2 wp_step. rewrite -Hfs in Hfsa Hr *.
    wp_while (length (fs' ++ c')) from ctx_at_size "Hc".
    iApply (wp_replaceRebalance with "Hc Hml HQ"); [done.. |].
    rewrite length_app in Hfuel0. lia. }
  destruct fs' as [|[x [kx vx bx rx|lx kx vx bx]] fs']; simpl.
  - iDestruct "Hp" as %->. wp_step. iDestruct (tree_at_ne with "Hm Hr") as %Hne'. wp_step.
    rewrite bool_decide_false //. wp_step. iApply ("Htail" with "Hm").
    iApply (ctx_at_node _ _ _ _ _ _ _ []). iExists pml, pr. by iFrame.
  - by rewrite -Hfs in Hr.
  - iDestruct "Hp" as (plx) "(Hx & Hlx & Hp)". do 2 wp_step. rewrite bool_decide_true //. wp_step.
    iApply ("Htail" with "Hm"). iApply (ctx_at_node _ _ _ _ _ _ _ ((x, FR lx kx vx bx) :: fs')).
    iExists p, pr. iFrame.
Qed.

(** ** The rebalancing loop *)

Lemma wp_deleteBalanceSide this x f c t p dirLeft Q :
  frame_avl f (zheight t + 1) → (p = NULL → dirLeft = hole_dir ((x, f) :: c)) →
  ctx_at this ((x, f) :: c) p -∗ tree_at p (Some x) t -∗
  (hole_at this c (shrink_frame f t).1 -∗ Q (shrink_frame f t).2) -∗
  wp (AVL.deleteBalanceSide (Some this) (Some x) p dirLeft) Q.
Proof.
  iIntros (Hf Hdir) "(%rp & Hthis & Hc) Ht HQ". rewrite /AVL.deleteBalanceSide.
  destruct f as [k v b r|l k v b]; simpl;
    iDestruct "Hc" as (ps) "(Hx & Hs & Hc)";
    (iAssert (ctx_at this c (Some x)) with "[Hthis Hc]" as "Hc"; [by iExists rp; iFrame|]).
  - case_bool_decide as Hp; [rewrite (Hdir Hp) /= | wp_step; rewrite bool_decide_true //];
      by iApply (wp_deleteBalanceLeft with "Hx Ht Hs Hc HQ").
  - case_bool_decide as Hp; [rewrite (Hdir Hp) /= |].
    { by iApply (wp_deleteBalanceRight with "Hx Hs Ht Hc HQ"). }
    wp_step. iAssert ⌜ps ≠ p⌝%I as %Hne.
    { destruct t as [|tl tk tv tb tr]; [by iDestruct "Ht" as %? |].
      iDestruct "Ht" as (y pl1 pr1 ->) "(Hy & _)". iApply (tree_at_ne with "Hy Hs"). }
    rewrite bool_decide_false //. by iApply (wp_deleteBalanceRight with "Hx Hs Ht Hc HQ").
Qed.

(** The hole of a non-empty path, read from the node it belongs to. *)
Lemma wp_readHole this x f c q Q :
  ctx_at this ((x, f) :: c) q -∗ (ctx_at this ((x, f) :: c) q -∗ Q q) -∗
  wp (if hole_dir ((x, f) :: c) then (Some x) ~> AVL.left else (Some x) ~> AVL.right) Q.
Proof.
  iIntros "(%rp & Hthis & Hc) HQ". destruct f as [k v b r|l k v b]; simpl;
    iDestruct "Hc" as (ps) "(Hx & Hs & Hc)"; wp_step; iApply "HQ"; iExists rp; iFrame.
Qed.

(** Which side of the node above the path leaves: the test the loop does. *)
Lemma wp_holeSide this x f y g c p t Q :
  ctx_at this ((x, f) :: (y, g) :: c) p -∗ tree_at p (Some x) t -∗
  (∀ l, <affine> ⌜(l == Some x) = hole_dir ((y, g) :: c)⌝ -∗
     ctx_at this ((x, f) :: (y, g) :: c) p -∗ tree_at p (Some x) t -∗ Q l) -∗
  wp ((Some y) ~> AVL.left) Q.
Proof.
  iIntros "(%rp & Hthis & Hc) Ht HQ".
  destruct f as [k v b r|l k v b]; destruct g as [k' v' b' r'|l' k' v' b']; simpl;
    iDestruct "Hc" as (ps) "(Hx & Hs & %ps' & Hy & Hs' & Hc)"; wp_step;
    try (iDestruct (tree_at_ne with "Hx Hs'") as %?);
    (iApply ("HQ" with "[%] [-Ht] Ht");
      [first [by rewrite bool_decide_true | by rewrite bool_decide_false] | iExists rp; iFrame]).
Qed.

Lemma wp_readParent this x f c p Q :
  ctx_at this ((x, f) :: c) p -∗ (ctx_at this ((x, f) :: c) p -∗ Q (cpar c)) -∗
  wp ((Some x) ~> AVL.parent) Q.
Proof.
  iIntros "(%rp & Hthis & Hc) HQ". destruct f as [k v b r|l k v b]; simpl;
    iDestruct "Hc" as (ps) "(Hx & Hs & Hc)"; wp_step; iApply "HQ"; iExists rp; iFrame.
Qed.

(** One turn of the loop, on the node [x] of the path. *)
Lemma wp_shrinkStep this x f c t p dirLeft Q :
  avl t → frame_avl f (zheight t + 1) → (p = NULL → dirLeft = hole_dir ((x, f) :: c)) →
  ctx_at this ((x, f) :: c) p -∗ tree_at p (Some x) t -∗
  (∀ q, ctx_at this c q -∗ tree_at q (cpar c) (shrink_frame f t).1 -∗
     Q (inl ((shrink_frame f t).2, cpar c, if c is [] then p else q))) -∗
  wp (AVL.rebalanceShrunkStep (Some this) dirLeft (true, Some x, p)) Q.
Proof.
  iIntros (Ht Hf Hdir) "Hc Ht HQ". rewrite /AVL.rebalanceShrunkStep /=.
  iApply wp_bind. iApply (wp_readParent with "Hc"). iIntros "Hc".
  destruct c as [|[y g] c]; simpl.
  - iApply wp_bind. iApply (wp_deleteBalanceSide with "Hc Ht"); [done.. |].
    iIntros "(%q & Hc & Ht)". wp_step. iApply ("HQ" with "Hc Ht").
  - iApply wp_bind. iApply (wp_holeSide with "Hc Ht"). iIntros (l Hl) "Hc Ht". rewrite Hl.
    iApply wp_bind. iApply (wp_deleteBalanceSide with "Hc Ht"); [done.. |].
    iIntros "(%q & Hc & Ht)". iApply wp_bind. iApply (wp_readHole with "Hc"). iIntros "Hc".
    wp_step. iApply ("HQ" with "Hc Ht").
Qed.

Lemma wp_rebalanceShrunk this c t p dirLeft Q :
  avl t → ctx_avl c.*2 (zheight t + 1) → (p = NULL → dirLeft = hole_dir c) →
  ctx_at this c p -∗ tree_at p (cpar c) t -∗ (avl_at this (shrink c.*2 t).1 -∗ Q ()) -∗
  wp (AVL.rebalanceShrunk (Some this) true (cpar c) p dirLeft) Q.
Proof.
  iIntros (Ht Hc Hdir) "Hc Ht HQ". rewrite /AVL.rebalanceShrunk.
  wp_while (length c) from ctx_at_size "Hc".
  iInduction c as [|[x f] c IH] forall (fuel Hfuel t p Ht Hc Hdir);
    (destruct fuel as [|fuel]; [simpl in *; lia |]); iApply wp_iter_S.
  { rewrite /AVL.rebalanceShrunkStep /=. wp_step. iApply "HQ". iApply ctx_at_nil.
    iExists p. iFrame. }
  iApply (wp_shrinkStep with "Hc Ht"); [done | apply Hc | done |]. iIntros (q) "Hc Ht".
  simpl in *. destruct (shrink_frame f t) as [t' down] eqn:Hsf.
  destruct (shrink_frame_spec f t t' down) as (Ht' & _ & Hne & _); [done | apply Hc | done |].
  destruct down; simpl.
  - destruct (shrink_frame_ctx f c.*2 t t') as [_ Hc']; [done..|].
    destruct c as [|yg c].
    { destruct fuel as [|fuel]; [lia |]. iApply wp_iter_S. rewrite /AVL.rebalanceShrunkStep /=.
      wp_step. iApply "HQ". iApply (ctx_at_plug with "Hc Ht"). }
    iAssert ⌜q ≠ NULL⌝%I as %Hq.
    { destruct t'; [done |]. by iDestruct "Ht" as (z pl pr ->) "_". }
    iApply ("IH" with "[%] [%] [%] [%] Hc Ht HQ"); [lia | done..].
  - destruct fuel as [|fuel]; [lia |]. iApply wp_iter_S. rewrite /AVL.rebalanceShrunkStep /=.
    wp_step. iApply "HQ". iApply (ctx_at_plug with "Hc Ht").
Qed.

(** A loop that is entered with nothing to repair. *)
Lemma wp_rebalanceShrunk_stop this prev cur dirLeft Q :
  Q () ⊢ wp (AVL.rebalanceShrunk (Some this) false prev cur dirLeft) Q.
Proof.
  iIntros "HQ". rewrite /AVL.rebalanceShrunk. iApply (wp_loop 0). iSplit.
  { iStopProof. apply at_least_0. }
  iIntros (fuel Hfuel). destruct fuel as [|fuel]; [lia |]. iApply wp_iter_S. simpl. by wp_step.
Qed.

(** ** [erase] *)

(** What is left to do after the unlinking: nothing, or to repair the path
    above the shrunk subtree; either way the tree becomes [t']. *)
Definition unlinked (this : loc) (t' : atree) (s : bool * ptr * ptr * bool) : hprop :=
  (let '(continueFix, prevNode, currentNode, dirLeft) := s in
   if continueFix then ∃ (c : lctx) t,
     <affine> ⌜avl t ∧ ctx_avl c.*2 (zheight t + 1) ∧ (currentNode = NULL → dirLeft = hole_dir c) ∧
       prevNode = cpar c ∧ (shrink c.*2 t).1 = t'⌝ ∗
     ctx_at this c currentNode ∗ tree_at currentNode (cpar c) t
   else avl_at this t')%I.

Lemma wp_unlinked_repair this t' s Q :
  unlinked this t' s -∗ (avl_at this t' -∗ Q ()) -∗
  wp (let '(continueFix, prevNode, currentNode, dirLeft) := s in
      AVL.rebalanceShrunk (Some this) continueFix prevNode currentNode dirLeft) Q.
Proof.
  destruct s as [[[cont prev] cur] dir]. iIntros "H HQ". destruct cont.
  - iDestruct "H" as (c t (Ht & Hc & Hdir & -> & <-)) "[Hc Ht]".
    by iApply (wp_rebalanceShrunk with "Hc Ht HQ").
  - iApply wp_rebalanceShrunk_stop. by iApply "HQ".
Qed.

(** Replacing the key of a node with two children by its predecessor's. *)
Lemma wp_eraseInner this n c k v b l r p Q :
  avl (plug c.*2 (Node l k v b r)) → l ≠ Leaf → r ≠ Leaf →
  ctx_at this ((n, FL k v b r) :: c) p -∗ tree_at p (Some n) l -∗
  (∀ cont k' v' q, ctx_at this ((n, FL k' v' b r) :: c) q -∗
     (ctx_at this ((n, FL k' v' b r) :: c) q -∗
        unlinked this (delete_at c.*2 l b r) (cont, Some n, q, true)) -∗ Q cont) -∗
  wp (AVL.replaceWithRightmost (Some this) (Some n)) Q.
Proof.
  iIntros (Havl Hl Hr) "Hc Ht HQ". apply plug_avl_inv in Havl as [(Hla & Hra & Hb & Hbr) Hctx].
  destruct (rightmost_spec l []) as (fs & ml & mk & mv & mb & Hrm & Hp & Hcr); [done |].
  rewrite app_nil_r in Hrm.
  destruct (shrink_rightmost l fs ml mk mv mb (shrink fs ml).1 (shrink fs ml).2)
    as (_ & _ & Hl' & Hz & _); [done.. | by destruct (shrink fs ml) |].
  assert (delete_at c.*2 l b r = if (shrink fs ml).2
    then (shrink (FL mk mv b r :: c.*2) (shrink fs ml).1).1
    else plug (FL mk mv b r :: c.*2) (shrink fs ml).1) as Hdel.
  { destruct l, r; [done..|]. rewrite /delete_at Hrm. by destruct (shrink fs ml). }
  iApply (wp_replaceWithRightmost with "Hc Ht"); [done.. |]. iIntros (q) "Hc Ht".
  iApply ("HQ" with "Hc"). iIntros "Hc". rewrite Hdel /unlinked.
  destruct (shrink fs ml) as [l' down]; simpl in *. destruct down.
  - assert (ctx_avl (FL mk mv b r :: c.*2) (zheight l' + 1)) as Hc'.
    { rewrite Hz. split; [done |]. eapply ctx_avl_eq; [exact Hctx |]. simpl. zh. }
    iExists ((n, FL mk mv b r) :: c), l'. by iFrame.
  - iApply (ctx_at_plug _ ((n, FL mk mv b r) :: c) with "Hc Ht").
Qed.

(** The node to delete has two children: wherever it hangs, the code comes
    back to it through the pointer above it. *)
Lemma wp_eraseTwo this c x k v b p l r Q :
  avl (plug c.*2 (Node l k v b r)) → l ≠ Leaf → r ≠ Leaf →
  ctx_at this ((x, FL k v b r) :: c) p -∗ tree_at p (Some x) l -∗
  (∀ s, unlinked this (delete_at c.*2 l b r) s -∗ Q s) -∗
  wp (if cpar c == NULL then
        continueFix ← AVL.replaceWithRightmost (Some this) (Some x);
        rt ← (Some this) ~> AVL.root;
        currentNode ← rt ~> AVL.left;
        prevNode ← (Some this) ~> AVL.root;
        mret (continueFix, prevNode, currentNode, hole_dir c)
      else
        pl ← cpar c ~> AVL.left;
        if pl == Some x then
          continueFix ← AVL.replaceWithRightmost (Some this) (Some x);
          prevNode ← cpar c ~> AVL.left;
          currentNode ← prevNode ~> AVL.left;
          mret (continueFix, prevNode, currentNode, true)
        else
          continueFix ← AVL.replaceWithRightmost (Some this) (Some x);
          prevNode ← cpar c ~> AVL.right;
          currentNode ← prevNode ~> AVL.left;
          mret (continueFix, prevNode, currentNode, true)) Q.
Proof.
  iIntros (Havl Hl Hr) "Hc Ht HQ". destruct c as [|[y [ky vy by_ ry|ly ky vy by_]] c]; simpl.
  - iApply wp_bind. iApply (wp_eraseInner with "Hc Ht"); [done..|].
    iIntros (cont k' v' q) "(%rp & Hthis & %ps & Hx & Hs & ->) Hun". do 4 wp_step.
    iApply "HQ". iApply "Hun". iExists (Some x). by iFrame.
  - iDestruct "Hc" as (rp) "(Hthis & %ps & Hx & Hs & %ps' & Hy & Hs' & Hc)". wp_step.
    rewrite bool_decide_true //. iApply wp_bind.
    iApply (wp_eraseInner _ _ ((y, FL ky vy by_ ry) :: c) with "[-Ht HQ] Ht"); [done..| |].
    { iExists rp. iFrame. }
    iIntros (cont k' v' q) "(%rp' & Hthis & %qs & Hx & Hs & %qs' & Hy & Hs' & Hc) Hun".
    do 3 wp_step. iApply "HQ". iApply "Hun". iExists rp'. by iFrame.
  - iDestruct "Hc" as (rp) "(Hthis & %ps & Hx & Hs & %ps' & Hy & Hs' & Hc)". wp_step.
    iDestruct (tree_at_ne with "Hx Hs'") as %Hne.
    rewrite bool_decide_false //. iApply wp_bind.
    iApply (wp_eraseInner _ _ ((y, FR ly ky vy by_) :: c) with "[-Ht HQ] Ht"); [done..| |].
    { iExists rp. iFrame. }
    iIntros (cont k' v' q) "(%rp' & Hthis & %qs & Hx & Hs & %qs' & Hy & Hs' & Hc) Hun".
    do 3 wp_step. iApply "HQ". iApply "Hun". iExists rp'. by iFrame.
Qed.

Lemma wp_eraseUnlink this c x k v b pl pr l r Q :
  avl (plug c.*2 (Node l k v b r)) →
  ctx_at this c (Some x) -∗ x ↦ AvlNode k pl pr (cpar c) b v -∗
  tree_at pl (Some x) l -∗ tree_at pr (Some x) r -∗
  (∀ s, unlinked this (delete_at c.*2 l b r) s -∗ Q s) -∗
  wp (AVL.eraseUnlink (Some this) (Some x) (hole_dir c)) Q.
Proof.
  iIntros (Havl) "Hc Hx Hl Hr HQ". rewrite /AVL.eraseUnlink. do 3 wp_step.
  pose proof Havl as Havl'. apply plug_avl_inv in Havl' as [(Hla & Hra & Hb & Hbr) Hctx].
  destruct l as [|ll kl vl bl lr]; [iDestruct "Hl" as %->; rewrite bool_decide_true // |].
  { iApply wp_bind. iApply (wp_spliceOut with "Hx Hr Hc"); [done |]. iIntros "Hc Ht". wp_step.
    iApply "HQ". iExists c, r. iFrame. iPureIntro. split_and!; try done.
    eapply ctx_avl_eq; [exact Hctx |]. simpl. zh. }
  iDestruct "Hl" as (y pll plr ->) "Hl". rewrite bool_decide_false //.
  destruct r as [|rl kr vr br rr]; [iDestruct "Hr" as %->; rewrite bool_decide_true // |].
  { iApply wp_bind. iApply (wp_spliceOut _ _ _ _ _ _ (Node ll kl vl bl lr) with "Hx [Hl] Hc");
      [done | by iExists y, pll, plr; iFrame |].
    iIntros "Hc Ht". wp_step.
    iApply "HQ". iExists c, (Node ll kl vl bl lr). iFrame. iPureIntro. split_and!; try done.
    eapply ctx_avl_eq; [exact Hctx |]. simpl. zh. }
  iDestruct "Hr" as (z prl prr ->) "Hr". rewrite bool_decide_false //.
  set (l := Node ll kl vl bl lr) in *. set (r := Node rl kr vr br rr) in *.
  iAssert (tree_at (Some y) (Some x) l) with "[Hl]" as "Hl"; [by iExists y, pll, plr; iFrame |].
  iAssert (tree_at (Some z) (Some x) r) with "[Hr]" as "Hr"; [by iExists z, prl, prr; iFrame |].
  iDestruct (ctx_at_left with "Hc Hx Hr") as "Hc".
  iApply (wp_eraseTwo with "Hc Hl HQ"); done.
Qed.

Lemma wp_erase this t k Q :
  avl t →
  avl_at this t -∗
  (avl_at this (delete_tree k t) -∗ Q (search_result (descend k t []).2)) -∗
  wp (AVL.erase (Some this) k) Q.
Proof.
  iIntros (Havl) "(%p & Hthis & Ht) HQ". rewrite /AVL.erase. wp_step.
  iApply wp_bind. wp_while (height t) from tree_at_size "Ht".
  iApply (wp_eraseSearch _ _ _ [] with "[Hthis] Ht"); [done | by iExists p; iFrame |].
  iIntros (c q) "(%Hc & Hc & Ht)". pose proof (descend_plug k t []) as Hplug. rewrite /delete_tree.
  simpl in *.
  destruct (descend k t []) as [c' [|l k' w b r]]; simpl in *; rewrite -Hc in Hplug *.
  - iDestruct "Ht" as %->. rewrite bool_decide_true //. wp_step. iApply "HQ". rewrite -Hplug.
    by iApply (ctx_at_plug with "Hc").
  - iDestruct "Ht" as (x pl pr ->) "(Hx & Hl & Hr)". rewrite bool_decide_false //. wp_step.
    iApply wp_bind. iApply (wp_eraseUnlink with "Hc Hx Hl Hr"); [by rewrite Hplug |].
    iIntros (s) "Hs". destruct s as [[[cont prev] cur] dir].
    iApply wp_bind. iApply (wp_unlinked_repair with "Hs"). iIntros "Ht". wp_step. by iApply "HQ".
Qed.
