(* ===== verification/AVLJoin.v ===== *)
(** * AVLJoin: joining, splitting, counting and destroying AVL trees *)
From S2P Require Import Prelude Memory SepLogic BinTree BinHeap DictTree AVLSpec AVLTree AVLProof AVLErase.
#[local] Open Scope Z_scope.
#[local] Open Scope cpp_scope.

(** ** The height *)

(** The walk follows the higher child, so it counts the levels. *)
Lemma wp_computeHeightLoop t p par n fuel Q :
  t ≠ Leaf → avl t → (height t ≤ fuel)%nat →
  tree_at p par t -∗ (tree_at p par t -∗ Q (n + zheight t - 1)) -∗
  wp (iter fuel AVL.computeHeightStep (p, n)) Q.
Proof.
  iIntros (Hne Ht Hfuel) "Ht HQ".
  iInduction t as [|l IHl k v b r IHr] forall (fuel Hfuel p par n Q Hne Ht); [done |].
  destruct fuel as [|fuel]; [simpl in *; lia |]. iApply wp_iter_S.
  rewrite /AVL.computeHeightStep /=. destruct Ht as (Hl & Hr & Hb & Hbr).
  iDestruct "Ht" as (x pl pr ->) "(Hx & Hl & Hr)". do 2 wp_step.
  destruct (decide (l = Leaf ∧ r = Leaf)) as [[-> ->]|Hch].
  { iDestruct "Hl" as %->. iDestruct "Hr" as %->. simpl. wp_step.
    replace (n + zheight _ - 1) with n by zh. iApply "HQ". iExists x, NULL, NULL. by iFrame. }
  iAssert (⌜negb (bool_decide (pl = NULL)) || negb (bool_decide (pr = NULL)) = true⌝)%I
    as %->.
  { destruct l; [destruct r; [by destruct Hch |] |]; simpl.
    - iDestruct "Hr" as (y ? ? ->) "_". by rewrite orb_true_r.
    - by iDestruct "Hl" as (y ? ? ->) "_". }
  wp_step. destruct (Z.eqb_spec b (-1)) as [->|Hnb].
  - do 2 wp_step. iApply ("IHl" with "[%] [%] [%] Hl"); [simpl in *; lia | | done |].
    { rewrite -zheight_leaf. zh. }
    iIntros "Hl". replace (n + 1 + _ - 1) with (n + zheight (Node l k v (-1) r) - 1) by zh.
    iApply "HQ". iExists x, pl, pr. by iFrame.
  - do 2 wp_step. iApply ("IHr" with "[%] [%] [%] Hr"); [simpl in *; lia | | done |].
    { intros ->. destruct Hch. split; [|done]. apply zheight_leaf. zh. }
    iIntros "Hr". replace (n + 1 + _ - 1) with (n + zheight (Node l k v b r) - 1) by zh.
    iApply "HQ". iExists x, pl, pr. by iFrame.
Qed.

Lemma wp_computeHeight this t Q :
  avl t → avl_at this t -∗ (avl_at this t -∗ Q (zheight t)) -∗
  wp (AVL.computeHeight (Some this)) Q.
Proof.
  iIntros (Ht) "(%p & Hthis & Ht) HQ". rewrite /AVL.computeHeight. wp_step.
  destruct (decide (t = Leaf)) as [->|Hne].
  { iDestruct "Ht" as %->. simpl. wp_step. iApply "HQ". iExists NULL. by iFrame. }
  iAssert (⌜p ≠ NULL⌝)%I as %Hp.
  { destruct t; [done |]. by iDestruct "Ht" as (x ? ? ->) "_". }
  rewrite bool_decide_false //. wp_step.
  wp_while (height t) from tree_at_size "Ht".
  iApply (wp_computeHeightLoop with "Ht"); [done | done | lia |].
  iIntros "Ht". replace (1 + _ - 1) with (zheight t) by lia. iApply "HQ". iExists p. by iFrame.
Qed.

(** ** The smallest and the largest key *)

(** A node of a tree that holds the pair [kv]. *)
Definition node_of (q p par : ptr) (t : atree) (kv : Z * Z) : hprop :=
  (∃ x o, <affine> ⌜q = Some x ∧ (avl_key o, avl_val o) = kv⌝ ∗ x ↦ o ∗
     (x ↦ o -∗ tree_at p par t))%I.

Lemma wp_minKeyLoop t p par fuel Q :
  t ≠ Leaf → (height t < fuel)%nat →
  tree_at p par t -∗ (∀ q, node_of q p par t (first_elem t) -∗ Q q) -∗
  wp (iter fuel (AVL.endOfSpineStep AVL.left) p) Q.
Proof.
  iIntros (Hne Hfuel) "Ht HQ".
  iInduction t as [|l IHl k v b r IHr] forall (fuel Hfuel p par Q Hne); [done |].
  destruct fuel as [|fuel]; [lia |]. iApply wp_iter_S. rewrite /AVL.endOfSpineStep /=.
  iDestruct "Ht" as (x pl pr ->) "(Hx & Hl & Hr)". wp_step.
  destruct (decide (l = Leaf)) as [->|Hl].
  - iDestruct "Hl" as %->. simpl. wp_step. iApply "HQ". iExists x, _. iFrame "Hx".
    iSplit; [done |]. iIntros "Hx". iExists x, NULL, pr. by iFrame.
  - iAssert (⌜pl ≠ NULL⌝)%I as %Hpl.
    { destruct l; [done |]. by iDestruct "Hl" as (? ? ? ->) "_". }
    rewrite bool_decide_false //=. do 2 wp_step.
    iApply ("IHl" with "[%] [%] Hl"); [simpl in *; lia | done |].
    iIntros (q) "(%y & %o & [%Hq %Ho] & Hy & Hl)". iApply "HQ". iExists y, o. iFrame "Hy".
    iSplit.
    + iPureIntro. split; [done |]. rewrite Ho. destruct (first_elem_spec l Hl) as [es He].
      rewrite /first_elem /= He //.
    + iIntros "Hy". iExists x, pl, pr. iFrame. iSplit; [done |]. by iApply "Hl".
Qed.

Lemma wp_maxKeyLoop t p par fuel Q :
  t ≠ Leaf → (height t < fuel)%nat →
  tree_at p par t -∗ (∀ q, node_of q p par t (last_elem t) -∗ Q q) -∗
  wp (iter fuel (AVL.endOfSpineStep AVL.right) p) Q.
Proof.
  iIntros (Hne Hfuel) "Ht HQ".
  iInduction t as [|l IHl k v b r IHr] forall (fuel Hfuel p par Q Hne); [done |].
  destruct fuel as [|fuel]; [lia |]. iApply wp_iter_S. rewrite /AVL.endOfSpineStep /=.
  iDestruct "Ht" as (x pl pr ->) "(Hx & Hl & Hr)". wp_step.
  destruct (decide (r = Leaf)) as [->|Hr].
  - iDestruct "Hr" as %->. simpl. wp_step. iApply "HQ". iExists x, _. iFrame "Hx". iSplit.
    + iPureIntro. split; [done |]. by rewrite /last_elem /= last_snoc.
    + iIntros "Hx". iExists x, pl, NULL. by iFrame.
  - iAssert (⌜pr ≠ NULL⌝)%I as %Hpr.
    { destruct r; [done |]. by iDestruct "Hr" as (? ? ? ->) "_". }
    rewrite bool_decide_false //=. do 2 wp_step.
    iApply ("IHr" with "[%] [%] Hr"); [simpl in *; lia | done |].
    iIntros (q) "(%y & %o & [%Hq %Ho] & Hy & Hr)". iApply "HQ". iExists y, o. iFrame "Hy".
    iSplit.
    + iPureIntro. split; [done |]. rewrite Ho. destruct (last_elem_spec r Hr) as [es He].
      rewrite /last_elem /= He app_comm_cons app_assoc !last_snoc //.
    + iIntros "Hy". iExists x, pl, pr. iFrame. iSplit; [done |]. by iApply "Hr".
Qed.

Lemma wp_minKey this t Q :
  t ≠ Leaf → avl_at this t -∗ (avl_at this t -∗ Q (first_elem t)) -∗
  wp (AVL.minKey (Some this)) Q.
Proof.
  iIntros (Hne) "(%p & Hthis & Ht) HQ". rewrite /AVL.minKey. wp_step. iApply wp_bind.
  wp_while (height t) from tree_at_size "Ht".
  iApply (wp_minKeyLoop with "Ht"); [done | lia |].
  iIntros (q) "(%x & %o & %Hq & Hx & Ht)". destruct Hq as [-> <-]. simpl. do 3 wp_step.
  iApply "HQ". iExists p. iFrame. by iApply "Ht".
Qed.

Lemma wp_maxKey this t Q :
  t ≠ Leaf → avl_at this t -∗ (avl_at this t -∗ Q (last_elem t)) -∗
  wp (AVL.maxKey (Some this)) Q.
Proof.
  iIntros (Hne) "(%p & Hthis & Ht) HQ". rewrite /AVL.maxKey. wp_step. iApply wp_bind.
  wp_while (height t) from tree_at_size "Ht".
  iApply (wp_maxKeyLoop with "Ht"); [done | lia |].
  iIntros (q) "(%x & %o & %Hq & Hx & Ht)". destruct Hq as [-> <-]. simpl. do 3 wp_step.
  iApply "HQ". iExists p. iFrame. by iApply "Ht".
Qed.

(** ** Join *)

(** Where the walk down a spine stops. *)
Definition spine_at (this : loc) (s : actx * atree * Z) (r : ptr * ptr * Z) : hprop :=
  (∃ (c : lctx) p, <affine> ⌜c.*2 = s.1.1 ∧ r = (cpar c, p, s.2)⌝ ∗
     ctx_at this c p ∗ tree_at p (cpar c) s.1.2)%I.

Lemma wp_joinSpineRight this t c p h n fuel Q :
  avl t → h = zheight t → 0 ≤ n → (height t < fuel)%nat →
  ctx_at this c p -∗ tree_at p (cpar c) t -∗
  (∀ r, spine_at this (spine_right t c.*2 h n) r -∗ Q r) -∗
  wp (iter fuel (AVL.joinSpineStep AVL.right (-1) n) (cpar c, p, h)) Q.
Proof.
  iIntros (Ht Hh Hn Hfuel) "Hc Ht HQ".
  iInduction t as [|l IHl k v b r IHr] forall (fuel Hfuel p c h Ht Hh);
    (destruct fuel as [|fuel]; [lia |]); iApply wp_iter_S;
    rewrite /AVL.joinSpineStep /= Z.gtb_ltb; destruct (Z.ltb_spec (n + 1) h); try zh.
  - wp_step. iApply "HQ". iExists c, p. by iFrame.
  - iDestruct "Ht" as (x pl pr ->) "(Hx & Hl & Hr)". do 3 wp_step. destruct Ht as (? & ? & ? & ?).
    iApply ("IHr" $! _ _ _ ((x, FR l k v b) :: c) with "[%] [%] [-Hr HQ] Hr HQ"); [done | |].
    + case_z; zh.
    + iApply (ctx_at_right with "Hc Hx Hl").
  - wp_step. iApply "HQ". iExists c, p. by iFrame.
  Unshelve. all: simpl in *; lia.
Qed.

Lemma wp_joinSpineLeft this t c p h n fuel Q :
  avl t → h = zheight t → 0 ≤ n → (height t < fuel)%nat →
  ctx_at this c p -∗ tree_at p (cpar c) t -∗
  (∀ r, spine_at this (spine_left t c.*2 h n) r -∗ Q r) -∗
  wp (iter fuel (AVL.joinSpineStep AVL.left 1 n) (cpar c, p, h)) Q.
Proof.
  iIntros (Ht Hh Hn Hfuel) "Hc Ht HQ".
  iInduction t as [|l IHl k v b r IHr] forall (fuel Hfuel p c h Ht Hh);
    (destruct fuel as [|fuel]; [lia |]); iApply wp_iter_S;
    rewrite /AVL.joinSpineStep /= Z.gtb_ltb; destruct (Z.ltb_spec (n + 1) h); try zh.
  - wp_step. iApply "HQ". iExists c, p. by iFrame.
  - iDestruct "Ht" as (x pl pr ->) "(Hx & Hl & Hr)". do 3 wp_step. destruct Ht as (? & ? & ? & ?).
    iApply ("IHl" $! _ _ _ ((x, FL k v b r) :: c) with "[%] [%] [-Hl HQ] Hl HQ"); [done | |].
    + case_z; zh.
    + iApply (ctx_at_left with "Hc Hx Hr").
  - wp_step. iApply "HQ". iExists c, p. by iFrame.
  Unshelve. all: simpl in *; lia.
Qed.

(** [if (p != NULL) p->parent = q;] *)
Lemma wp_setParent p par q t Q :
  tree_at p par t -∗ (tree_at p q t -∗ Q ()) -∗
  wp (when (p != NULL) (p ~> AVL.parent ::= q)) Q.
Proof.
  iIntros "Ht HQ". rewrite /when. destruct t as [|l k v b r]; simpl.
  - iDestruct "Ht" as %->. rewrite bool_decide_true //=. wp_step. by iApply "HQ".
  - iDestruct "Ht" as (y pl pr ->) "(Hy & Hl & Hr)". rewrite bool_decide_false //=.
    wp_step. iApply "HQ". iExists y, pl, pr. by iFrame.
Qed.

(** The hole of the path [c] is not confused with its sibling. *)
Definition hole_clear (c : actx) (t : atree) : Prop :=
  match c with FR l0 _ _ _ :: _ => t = Leaf → l0 ≠ Leaf | _ => True end.

Lemma tree_at_distinct p q par1 par2 t1 t2 :
  (t1 = Leaf → t2 ≠ Leaf) → tree_at p par1 t1 -∗ tree_at q par2 t2 -∗ ⌜q ≠ p⌝.
Proof.
  iIntros (Hne) "H1 H2". destruct t1 as [|l k v b r].
  - specialize (Hne eq_refl). iDestruct "H1" as %->. destruct t2; [done |].
    by iDestruct "H2" as (x ? ? ->) "_".
  - iDestruct "H1" as (x pl pr ->) "(Hx & _)". iApply (tree_at_ne with "Hx H2").
Qed.

Lemma wp_joinLink new old c p q nr k pl pr b v t Q :
  hole_clear c.*2 t →
  ctx_at old c p -∗ new ↦ AvlTree q -∗ nr ↦ AvlNode k pl pr NULL b v -∗
  tree_at p (Some nr) t -∗
  (∀ rp, old ↦ AvlTree rp -∗ ctx_at new c (Some nr) -∗
     nr ↦ AvlNode k pl pr (cpar c) b v -∗ tree_at p (Some nr) t -∗ Q ()) -∗
  wp (AVL.joinLink (Some new) (Some old) (cpar c) p (Some nr)) Q.
Proof.
  iIntros (Hclear) "(%rp & Hold & Hc) Hnew Hnr Ht HQ". rewrite /AVL.joinLink.
  destruct c as [|[x [kx vx bx rx|lx kx vx bx]] c]; simpl.
  - wp_step. iApply ("HQ" with "Hold [Hnew] Hnr Ht"). iExists _. iFrame. done.
  - iDestruct "Hc" as (prx) "(Hx & Hr & Hc)". wp_step. rewrite bool_decide_true //.
    do 4 wp_step. iApply ("HQ" with "Hold [Hnew Hx Hr Hc] Hnr Ht"). iExists rp. by iFrame.
  - iDestruct "Hc" as (plx) "(Hx & Hl & Hc)". wp_step.
    iDestruct (tree_at_distinct with "Ht Hl") as %Hne; [done |]. rewrite bool_decide_false //.
    do 4 wp_step. iApply ("HQ" with "Hold [Hnew Hx Hl Hc] Hnr Ht"). iExists rp. by iFrame.
Qed.

(** What both cases of [join] leave for the rebalancing loop: the new node at
    the end of a path of the new tree, the old tree objects without nodes. *)
Definition joined (new lt rt : loc) (c' : actx) (t' : atree) (r : ptr * ptr) : hprop :=
  (∃ (c : lctx) p a b, <affine> ⌜c.*2 = c' ∧ r = (p, cpar c)⌝ ∗
     ctx_at new c p ∗ tree_at p (cpar c) t' ∗ lt ↦ AvlTree a ∗ rt ↦ AvlTree b)%I.

Lemma wp_joinIntoLeft new lt rt l r k v c t h Q :
  avl l → avl r → r ≠ Leaf → zheight r ≤ zheight l → first_elem r = (k, v) →
  k ≠ AVL.INVALID_KEY →
  spine_right l [] (zheight l) (zheight (delete_tree k r)) = (c, t, h) →
  new ↦ AvlTree NULL -∗ avl_at lt l -∗ avl_at rt r -∗
  (∀ res, joined new lt rt c (Node t k v (zheight (delete_tree k r) - h) (delete_tree k r)) res -∗
     Q res) -∗
  wp (AVL.joinIntoLeft (Some new) (Some lt) (Some rt) (zheight l)) Q.
Proof.
  iIntros (Hl Hr Hne Hh Hkv Hk Hs) "Hnew Hl Hr HQ". rewrite /AVL.joinIntoLeft.
  iApply wp_bind. iApply (wp_minKey with "Hr"); [done |]. iIntros "Hr". rewrite Hkv /=.
  iApply wp_bind. iApply wp_assert; [by destruct (Z.eqb_spec k AVL.INVALID_KEY) |].
  iApply wp_bind. iApply (wp_erase with "Hr"); [done |]. iIntros "Hr".
  pose proof (delete_tree_avl k r Hr) as Hr'. pose proof (delete_tree_height k r Hr).
  set (r' := delete_tree k r) in *. pose proof (zheight_nonneg r').
  iApply wp_bind. iApply wp_new. iIntros (nr) "Hnr".
  iApply wp_bind. iApply (wp_computeHeight with "Hr"); [done |]. iIntros "Hr".
  iDestruct "Hl" as (pl) "[Hlt Hl]". wp_step. iApply wp_bind.
  wp_while (height l) from tree_at_size "Hl".
  iApply (wp_joinSpineRight _ _ [] with "[Hlt] Hl"); try done; [by iExists pl; iFrame |].
  iIntros ([[prev cur] ch]) "(%c' & %p & %Hc & Hc & Ht)". simpl in Hc. rewrite Hs /= in Hc *.
  destruct Hc as [<- [= -> -> ->]]. wp_step. iApply wp_bind.
  iApply (wp_setParent with "Ht"). iIntros "Ht". iDestruct "Hr" as (pr) "[Hrt Hr]".
  do 3 wp_step. wp_reparent "Hrt" "Hr". wp_step.
  iApply wp_bind. iApply (wp_joinLink with "Hc Hnew Hnr Ht").
  { destruct c' as [|[x f] c']; [done |]. simpl in Hs |- *.
    apply spine_right_sibling in Hs as (? & ? & ? & ? & -> & ?); done || lia. }
  iIntros (rp) "Hlt Hc Hnr Ht". wp_step. iApply "HQ". iExists c', (Some nr), _, _. iFrame.
  done.
Qed.

Lemma wp_joinIntoRight new lt rt l r k v c t h Q :
  avl l → avl r → l ≠ Leaf → zheight l ≤ zheight r → last_elem l = (k, v) →
  k ≠ AVL.INVALID_KEY →
  spine_left r [] (zheight r) (zheight (delete_tree k l)) = (c, t, h) →
  new ↦ AvlTree NULL -∗ avl_at lt l -∗ avl_at rt r -∗
  (∀ res, joined new lt rt c (Node (delete_tree k l) k v (h - zheight (delete_tree k l)) t) res -∗
     Q res) -∗
  wp (AVL.joinIntoRight (Some new) (Some lt) (Some rt) (zheight r)) Q.
Proof.
  iIntros (Hl Hr Hne Hh Hkv Hk Hs) "Hnew Hl Hr HQ". rewrite /AVL.joinIntoRight.
  iApply wp_bind. iApply (wp_maxKey with "Hl"); [done |]. iIntros "Hl". rewrite Hkv /=.
  iApply wp_bind. iApply wp_assert; [by destruct (Z.eqb_spec k AVL.INVALID_KEY) |].
  iApply wp_bind. iApply (wp_erase with "Hl"); [done |]. iIntros "Hl".
  pose proof (delete_tree_avl k l Hl) as Hl'. pose proof (delete_tree_height k l Hl).
  set (l' := delete_tree k l) in *. pose proof (zheight_nonneg l').
  iApply wp_bind. iApply wp_new. iIntros (nr) "Hnr".
  iApply wp_bind. iApply (wp_computeHeight with "Hl"); [done |]. iIntros "Hl".
  iDestruct "Hr" as (pr) "[Hrt Hr]". wp_step. iApply wp_bind.
  wp_while (height r) from tree_at_size "Hr".
  iApply (wp_joinSpineLeft _ _ [] with "[Hrt] Hr"); try done; [by iExists pr; iFrame |].
  iIntros ([[prev cur] ch]) "(%c' & %p & %Hc & Hc & Ht)". simpl in Hc. rewrite Hs /= in Hc *.
  destruct Hc as [<- [= -> -> ->]]. wp_step. iApply wp_bind.
  iApply (wp_setParent with "Ht"). iIntros "Ht". iDestruct "Hl" as (pl) "[Hlt Hl]".
  do 3 wp_step. wp_reparent "Hlt" "Hl". wp_step.
  iApply wp_bind. iApply (wp_joinLink with "Hc Hnew Hnr Ht").
  { eapply spine_left_spec in Hs as (_ & Hcl & _); try done; [|lia].
    destruct c' as [|[x [|]] c']; [done.. |]. apply (f_equal length) in Hcl.
    simpl in Hcl. rewrite !length_app /= in Hcl. lia. }
  iIntros (rp) "Hrt Hc Hnr Ht". wp_step. iApply "HQ". iExists c', (Some nr), _, _. iFrame.
  done.
Qed.

(** The middle key that [join] takes out of one tree and puts on top: it must
    not be the reserved [INVALID_KEY]. *)
Definition join_key (l r : atree) : Z :=
  if zheight l >=? zheight r then (first_elem r).1 else (last_elem l).1.

(** The last part of [join], after the trees are linked. *)
Lemma wp_join_rebalance new lt rt c t' res Q :
  ctx_grown c t' →
  joined new lt rt c t' res -∗
  (avl_at new (grow c t') -∗ avl_at lt Leaf -∗ avl_at rt Leaf -∗ Q (Some new)) -∗
  wp (let '(currentNode, prevNode) := res in
      (Some lt) ~> AVL.root ::= NULL;; (Some rt) ~> AVL.root ::= NULL;;
      AVL.rebalanceGrown (Some new) currentNode prevNode;; mret (Some new)) Q.
Proof.
  iIntros (Hg) "(%c' & %p & %a & %b & %Hr & Hc & Ht & Hlt & Hrt) HQ".
  destruct Hr as [<- ->]. do 2 wp_step. iApply wp_bind.
  iApply (wp_rebalanceGrown with "Hc Ht"); [done |]. iIntros "Ht". wp_step.
  iApply ("HQ" with "Ht [Hlt] [Hrt]"); iExists NULL; by iFrame.
Qed.

Lemma tree_at_Some p par t : t ≠ Leaf → tree_at p par t -∗ ⌜p ≠ NULL⌝.
Proof. iIntros (Ht) "Ht". destruct t; [done |]. by iDestruct "Ht" as (x ? ? ->) "_". Qed.

Lemma wp_join_nonempty new lt rt l r Q :
  l ≠ Leaf → r ≠ Leaf → avl l → avl r → join_key l r ≠ AVL.INVALID_KEY →
  new ↦ AvlTree NULL -∗ avl_at lt l -∗ avl_at rt r -∗
  (avl_at new (join_tree l r) -∗ avl_at lt Leaf -∗ avl_at rt Leaf -∗ Q (Some new)) -∗
  wp ('(currentNode, prevNode) ←
        (if zheight l >=? zheight r
         then AVL.joinIntoLeft (Some new) (Some lt) (Some rt) (zheight l)
         else AVL.joinIntoRight (Some new) (Some lt) (Some rt) (zheight r));
      (Some lt) ~> AVL.root ::= NULL;; (Some rt) ~> AVL.root ::= NULL;;
      AVL.rebalanceGrown (Some new) currentNode prevNode;; mret (Some new)) Q.
Proof.
  iIntros (Hnl Hnr Hl Hr Hk) "Hnew Hl Hr HQ". rewrite /join_key in Hk.
  assert (join_tree l r = if zheight l >=? zheight r
    then join_into_left l (first_elem r).1 (first_elem r).2 (delete_tree (first_elem r).1 r)
    else join_into_right (delete_tree (last_elem l).1 l) (last_elem l).1 (last_elem l).2 r) as ->.
  { by destruct l, r. }
  iApply wp_bind. rewrite Z.geb_leb in Hk |- *. destruct (Z.leb_spec (zheight r) (zheight l)).
  - destruct (first_elem r) as [k v] eqn:Hf. pose proof (delete_tree_height k r Hr). simpl in *.
    rewrite /join_into_left.
    destruct (spine_right l [] (zheight l) (zheight (delete_tree k r))) as [[c t] h] eqn:Hs.
    iApply (wp_joinIntoLeft with "Hnew Hl Hr"); try done. iIntros (res) "Hres".
    iApply (wp_join_rebalance with "Hres HQ").
    eapply (join_left_grown l); [done | by apply delete_tree_avl | | done]. lia.
  - destruct (last_elem l) as [k v] eqn:Hf. pose proof (delete_tree_height k l Hl). simpl in *.
    rewrite /join_into_right.
    destruct (spine_left r [] (zheight r) (zheight (delete_tree k l))) as [[c t] h] eqn:Hs.
    iApply (wp_joinIntoRight with "Hnew Hl Hr"); try done; [lia |]. iIntros (res) "Hres".
    iApply (wp_join_rebalance with "Hres HQ").
    eapply (join_right_grown _ _ _ r); [by apply delete_tree_avl | done | | done]. lia.
Qed.

Lemma wp_join lt rt l r Q :
  avl l → avl r → (l ≠ Leaf → r ≠ Leaf → join_key l r ≠ AVL.INVALID_KEY) →
  avl_at lt l -∗ avl_at rt r -∗
  (∀ new, avl_at new (join_tree l r) -∗ avl_at lt Leaf -∗ avl_at rt Leaf -∗ Q (Some new)) -∗
  wp (AVL.join (Some lt) (Some rt)) Q.
Proof.
  iIntros (Hl Hr Hk) "Hl Hr HQ". rewrite /AVL.join.
  iDestruct "Hr" as (pr) "[Hrt Hr]". wp_step.
  iApply wp_bind. iApply wp_assert; [done |]. iApply wp_bind. iApply wp_new. iIntros (new) "Hnew". iDestruct "Hl" as (pl) "[Hlt Hl]". wp_step.
  destruct (decide (l = Leaf)) as [->|Hnl].
  { iDestruct "Hl" as %->. simpl. do 4 wp_step.
    iApply ("HQ" with "[Hnew Hr] [Hlt] [Hrt]"); [|by iExists NULL; iFrame..].
    iExists pr. destruct r; iFrame. }
  iDestruct (tree_at_Some with "Hl") as %Hpl; [done |]. rewrite bool_decide_false //. wp_step.
  destruct (decide (r = Leaf)) as [->|Hnr].
  { iDestruct "Hr" as %->. simpl. do 4 wp_step.
    iApply ("HQ" with "[Hnew Hl] [Hlt] [Hrt]"); [|by iExists NULL; iFrame..].
    iExists pl. destruct l; iFrame. }
  iDestruct (tree_at_Some with "Hr") as %Hpr; [done |]. rewrite bool_decide_false //.
  iApply wp_bind. iApply (wp_computeHeight _ l with "[Hlt Hl]"); [done | by iExists pl; iFrame |].
  iIntros "Hl".
  iApply wp_bind. iApply (wp_computeHeight _ r with "[Hrt Hr]"); [done | by iExists pr; iFrame |].
  iIntros "Hr". iApply (wp_join_nonempty with "Hnew Hl Hr HQ"); auto.
Qed.

(** ** Split *)

(** What [split] returns, and what it leaves of the tree it splits. *)
Definition split_post (this : loc) (t : atree) (res : Z * ptr * ptr) : hprop :=
  match split_tree t with
  | None => <affine> ⌜res = (AVL.INVALID_KEY, NULL, NULL)⌝ ∗ avl_at this t
  | Some (k, l, r) => ∃ lt rt, <affine> ⌜res = (k, Some lt, Some rt)⌝ ∗
      avl_at lt l ∗ avl_at rt r ∗ avl_at this Leaf
  end%I.

Lemma wp_split_trees this x pl pr (k : Z) l r Q :
  this ↦ AvlTree x -∗ tree_at pl NULL l -∗ tree_at pr NULL r -∗
  (∀ lt rt, avl_at lt l -∗ avl_at rt r -∗ avl_at this Leaf -∗ Q (k, Some lt, Some rt)) -∗
  wp (leftTree ← AVL.newTree; leftTree ~> AVL.root ::= pl;;
      rightTree ← AVL.newTree; rightTree ~> AVL.root ::= pr;;
      (Some this) ~> AVL.root ::= NULL;; mret (k, leftTree, rightTree)) Q.
Proof.
  iIntros "Hthis Hl Hr HQ".
  iApply wp_bind. iApply wp_new. iIntros (lt) "Hlt". wp_step.
  iApply wp_bind. iApply wp_new. iIntros (rt) "Hrt". do 3 wp_step.
  iApply ("HQ" with "[Hlt Hl] [Hrt Hr] [Hthis]"); iExists _; by iFrame.
Qed.

Lemma wp_split this t Q :
  avl t → avl_at this t -∗ (∀ res, split_post this t res -∗ Q res) -∗
  wp (AVL.split (Some this)) Q.
Proof.
  iIntros (Ht) "(%p & Hthis & Ht) HQ". rewrite /AVL.split. wp_step.
  destruct t as [|l k v b r].
  { iDestruct "Ht" as %->. simpl. wp_step. iApply "HQ". iSplit; [done |].
    iExists NULL. by iFrame. }
  iDestruct "Ht" as (x pl pr ->) "(Hx & Hl & Hr)". simpl. do 3 wp_step.
  destruct Ht as (Hla & Hra & _ & _).
  destruct l as [|a ka va ba c]; [iDestruct "Hl" as %-> |
    iDestruct "Hl" as (y py1 py2 ->) "(Hy & Ha & Hc)"];
  (destruct r as [|d kd vd bd e]; [iDestruct "Hr" as %-> |
    iDestruct "Hr" as (z pz1 pz2 ->) "(Hz & Hd & He)"]); simpl.
  - wp_step. iApply "HQ". iSplit; [done |]. iExists (Some x). by iFrame.
  - do 10 wp_step. iApply (wp_split_trees _ _ _ _ _ (Node Leaf k v 0 Leaf) (Node d kd vd 0 e)
      with "Hthis [Hx] [Hz Hd He]"); [iExists _, _, _; by iFrame.. |].
    iIntros (lt rt) "Hlt Hrt Hthis". iApply "HQ". iExists lt, rt. by iFrame.
  - do 9 wp_step. iApply (wp_split_trees _ _ _ _ _ (Node a ka va ba c) (Node Leaf k v 0 Leaf)
      with "Hthis [Hy Ha Hc] [Hx]"); [iExists _, _, _; by iFrame.. |].
    iIntros (lt rt) "Hlt Hrt Hthis". iApply "HQ". iExists lt, rt. by iFrame.
  - do 12 wp_step. iApply wp_bind.
    iApply (wp_insert _ (Node d kd vd bd e) with "[Hthis Hz Hd He]"); [done | |].
    { iExists (Some z). by iFrame. }
    iIntros "(%q & Hthis & Hr)". do 2 wp_step.
    iApply (wp_split_trees _ _ _ _ _ (Node a ka va ba c)
      with "Hthis [Hy Ha Hc] Hr"); [iExists _, _, _; by iFrame.. |].
    iIntros (lt rt) "Hlt Hrt Hthis". iApply "HQ". iExists lt, rt. by iFrame.
Qed.

(** ** Destruction, counting and checking *)

Lemma wp_freeChild fuel x (o : avl_node) f q s Q :
  fget f o = q → (s ≠ Leaf → tree_at q (Some x) s ⊢ wp (AVL.freeTraversal fuel q) (λ _, emp)) →
  x ↦ o -∗ tree_at q (Some x) s -∗ (x ↦ o -∗ Q ()) -∗
  wp (when (q != NULL) (l ← (Some x) ~> f; AVL.freeTraversal fuel l)) Q.
Proof.
  iIntros (Hq Hrec) "Hx Hs HQ". rewrite /when. destruct (decide (s = Leaf)) as [->|Hs].
  - iDestruct "Hs" as %->. simpl. wp_step. by iApply "HQ".
  - iDestruct (tree_at_Some with "Hs") as %Hq'; [done |]. rewrite bool_decide_false //=.
    wp_step. rewrite Hq. iApply (wp_wand with "[Hs]"); [by iApply (Hrec with "Hs") |].
    iIntros ([]) "_". by iApply "HQ".
Qed.

Lemma wp_freeTraversal t p par fuel :
  t ≠ Leaf → (height t ≤ fuel)%nat →
  tree_at p par t ⊢ wp (AVL.freeTraversal fuel p) (λ _, emp).
Proof.
  revert p par fuel. induction t as [|l IHl k v b r IHr]; intros p par fuel Hne Hfuel; [done |].
  destruct fuel as [|fuel]; [simpl in *; lia |]. simpl in Hfuel |- *.
  iIntros "(%x & %pl & %pr & -> & Hx & Hl & Hr)".
  iApply wp_bind. iApply wp_assert; [done |]. wp_step.
  iApply wp_bind. iApply (wp_freeChild with "Hx Hl"); [done | intros; apply IHl; [done | lia] |].
  iIntros "Hx". wp_step.
  iApply wp_bind. iApply (wp_freeChild with "Hx Hr"); [done | intros; apply IHr; [done | lia] |].
  iIntros "Hx". by wp_step.
Qed.

Lemma wp_deleteTree this t Q : avl_at this t -∗ Q () -∗ wp (AVL.deleteTree (Some this)) Q.
Proof.
  iIntros "(%p & Hthis & Ht) HQ". rewrite /AVL.deleteTree /when. wp_step.
  destruct (decide (t = Leaf)) as [->|Hne].
  - iDestruct "Ht" as %->. simpl. do 2 wp_step. done.
  - iDestruct (tree_at_Some with "Ht") as %Hp; [done |]. rewrite bool_decide_false //=.
    wp_step. iApply (wp_with_fuel (height t)). iSplit.
    { iApply (at_least_weaken with "[-]"); [|iApply (tree_at_size with "Ht")].
      apply height_le_tsize. }
    iIntros (fuel Hfuel). iApply (wp_wand with "[Ht]").
    { iApply (wp_freeTraversal with "Ht"); [done | lia]. }
    iIntros ([]) "_". by wp_step.
Qed.

(** The sum of an attribute of the nodes, as the two recursive helpers compute it. *)
Fixpoint tree_sum (f : Z → Z) (t : atree) : Z :=
  match t with
  | Leaf => 0
  | Node l k _ _ r => size_t (size_t (f k + tree_sum f l) + tree_sum f r)
  end.

Lemma tree_sum_elements f t :
  tree_sum f t = size_t (foldr (λ kv s, f kv.1 + s) 0 (elements t)).
Proof.
  induction t as [|l IHl k v b r IHr]; [done |]. simpl. rewrite foldr_sum_app IHl IHr /= /size_t.
  rewrite (Zplus_mod_idemp_r _ (f k)) Zplus_mod_idemp_r Zplus_mod_idemp_l. f_equal. lia.
Qed.

Lemma wp_sumOfKeysHelper t p par fuel Q :
  (height t < fuel)%nat →
  tree_at p par t -∗ (tree_at p par t -∗ Q (tree_sum id t)) -∗
  wp (AVL.sumOfKeysHelper fuel p) Q.
Proof.
  iIntros (Hfuel) "Ht HQ".
  iInduction t as [|l IHl k v b r IHr] forall (fuel Hfuel p par Q);
    (destruct fuel as [|fuel]; [lia |]); simpl.
  - iDestruct "Ht" as %->. simpl. wp_step. by iApply "HQ".
  - iDestruct "Ht" as (x pl pr ->) "(Hx & Hl & Hr)". simpl. do 2 wp_step.
    iApply wp_bind. iApply ("IHl" with "[%] Hl"); [simpl in *; lia |]. iIntros "Hl". wp_step.
    iApply wp_bind. iApply ("IHr" with "[%] Hr"); [simpl in *; lia |]. iIntros "Hr". wp_step.
    iApply "HQ". iExists _, _, _. by iFrame.
Qed.

Lemma wp_numKeysHelper t p par fuel Q :
  (height t < fuel)%nat →
  tree_at p par t -∗ (tree_at p par t -∗ Q (tree_sum (λ _, 1) t)) -∗
  wp (AVL.numKeysHelper fuel p) Q.
Proof.
  iIntros (Hfuel) "Ht HQ".
  iInduction t as [|l IHl k v b r IHr] forall (fuel Hfuel p par Q);
    (destruct fuel as [|fuel]; [lia |]); simpl.
  - iDestruct "Ht" as %->. simpl. wp_step. by iApply "HQ".
  - iDestruct "Ht" as (x pl pr ->) "(Hx & Hl & Hr)". simpl. wp_step.
    iApply wp_bind. iApply ("IHl" with "[%] Hl"); [simpl in *; lia |]. iIntros "Hl". wp_step.
    iApply wp_bind. iApply ("IHr" with "[%] Hr"); [simpl in *; lia |]. iIntros "Hr". wp_step.
    iApply "HQ". iExists _, _, _. by iFrame.
Qed.

(** A recursive traversal from the root gets enough fuel. *)
Tactic Notation "wp_traverse" constr(t) :=
  iIntros "(%p & Hthis & Ht) HQ"; wp_step; iApply (wp_with_fuel (height t)); iSplit;
  [iApply (at_least_weaken with "[-]"); [|iApply (tree_at_size with "Ht")];
   apply height_le_tsize |];
  let fuel := fresh "fuel" in let Hf := fresh "Hfuel" in
  iIntros (fuel Hf).

Lemma wp_sumOfKeys this t Q :
  avl_at this t -∗ (avl_at this t -∗ Q (tree_sum id t)) -∗ wp (AVL.sumOfKeys (Some this)) Q.
Proof.
  rewrite /AVL.sumOfKeys. wp_traverse t. iApply (wp_sumOfKeysHelper with "Ht"); [done |].
  iIntros "Ht". iApply "HQ". iExists p. by iFrame.
Qed.

Lemma wp_numKeys this t Q :
  avl_at this t -∗ (avl_at this t -∗ Q (tree_sum (λ _, 1) t)) -∗ wp (AVL.numKeys (Some this)) Q.
Proof.
  rewrite /AVL.numKeys. wp_traverse t. iApply (wp_numKeysHelper with "Ht"); [done |].
  iIntros "Ht". iApply "HQ". iExists p. by iFrame.
Qed.

Lemma wp_checkChild fuel x (o : avl_node) f q s Q :
  fget f o = q →
  (tree_at q (Some x) s ⊢
     wp (AVL.doesAVLHold fuel q) (λ b, <affine> ⌜b = true⌝ ∗ tree_at q (Some x) s)) →
  x ↦ o -∗ tree_at q (Some x) s -∗ (x ↦ o -∗ tree_at q (Some x) s -∗ Q true) -∗
  wp (if q != NULL then l ← (Some x) ~> f; AVL.doesAVLHold fuel l else mret true) Q.
Proof.
  iIntros (Hq Hrec) "Hx Hs HQ". destruct (bool_decide (q = NULL)); simpl; wp_step.
  - iApply ("HQ" with "Hx Hs").
  - rewrite Hq. iApply (wp_wand with "[Hs]"); [by iApply (Hrec with "Hs") |].
    iIntros (?) "[-> Hs]". iApply ("HQ" with "Hx Hs").
Qed.

Lemma wp_doesAVLHold t p par fuel :
  avl t → (height t < fuel)%nat →
  tree_at p par t ⊢ wp (AVL.doesAVLHold fuel p) (λ b, <affine> ⌜b = true⌝ ∗ tree_at p par t).
Proof.
  revert p par fuel. induction t as [|l IHl k v b r IHr]; intros p par fuel Ht Hfuel;
    (destruct fuel as [|fuel]; [simpl in *; lia |]); simpl in Hfuel |- *.
  - iIntros (->). simpl. wp_step. done.
  - iIntros "(%x & %pl & %pr & -> & Hx & Hl & Hr)". destruct Ht as (? & ? & ? & ?). simpl. wp_step.
    iApply wp_bind. iApply (wp_checkChild with "Hx Hl"); [done | apply IHl; [done | lia] |].
    iIntros "Hx Hl". wp_step.
    iApply wp_bind. iApply (wp_checkChild with "Hx Hr"); [done | apply IHr; [done | lia] |].
    iIntros "Hx Hr". do 2 wp_step. iSplit; [iPureIntro; apply Z.leb_le; lia |].
    iExists _, _, _. by iFrame.
Qed.

Lemma wp_checkAVL this t Q :
  avl t → avl_at this t -∗ (avl_at this t -∗ Q true) -∗ wp (AVL.checkAVL (Some this)) Q.
Proof.
  intros Ht. rewrite /AVL.checkAVL. wp_traverse t. iApply (wp_wand with "[Ht]").
  { iApply (wp_doesAVLHold with "Ht"); [done | lia]. }
  iIntros (?) "[-> Ht]". iApply "HQ". iExists p. by iFrame.
Qed.

Lemma wp_isEmpty this t Q :
  avl_at this t -∗ (avl_at this t -∗ Q (is_leaf t)) -∗ wp (AVL.isEmpty (Some this)) Q.
Proof.
  iIntros "(%p & Hthis & Ht) HQ". rewrite /AVL.isEmpty. do 2 wp_step.
  destruct t as [|l k v b r].
  - iDestruct "Ht" as %->. iApply "HQ". iExists NULL. by iFrame.
  - iDestruct "Ht" as (x pl pr ->) "(Hx & Hl & Hr)". simpl. iApply "HQ". iExists (Some x).
    by iFrame.
Qed.
