(* ===== verification/AVLSet.v ===== *)
(** * AVLSet: the AVL tree as an implementation of the ordered-set interface

    [avl_set s m]: the [AVLTree] object at [s] holds the dictionary [m] in a
    search tree that satisfies the AVL invariant.  The lemmas restate those of
    [AVLProof], [AVLErase] and [AVLJoin] for [avl_set]; the theorems that follow
    them state each method's contract as a Hoare triple. *)
From S2P Require Import Prelude Memory SepLogic OrderedSet BinTree BinHeap DictTree AVLSpec AVLTree.
From S2P Require Import AVLProof AVLErase AVLJoin.
#[local] Open Scope Z_scope.
#[local] Open Scope cpp_scope.

(** [t] is a search tree for [m] with the AVL invariant. *)
Definition avl_of (m : gmap Z Z) (t : atree) : Prop :=
  avl t ∧ ordered (elements t) ∧ to_map (elements t) = m.

Definition avl_set (s : loc) (m : gmap Z Z) : hprop :=
  (∃ t, <affine> ⌜avl_of m t⌝ ∗ avl_at s t)%I.

(** ** The functional operations on dictionaries *)

Lemma avl_of_leaf : avl_of ∅ Leaf.
Proof. split_and!; [done | constructor | done]. Qed.

Lemma avl_of_search m t k : avl_of m t → search_result (descend k t []).2 = dict_find m k.
Proof.
  intros (_ & Hord & <-). pose proof (descend_elements k t Hord) as Hd. unfold dict_find.
  destruct (descend k t []) as [c [|l k' v b r]]; destruct Hd as (_ & Hl & Hr & Hd); simpl.
  - by rewrite Hd to_map_absent.
  - destruct Hd as (-> & -> & Hb & _). by rewrite to_map_lookup.
Qed.

Lemma avl_of_insert m t k v : avl_of m t → avl_of (dict_insert k v m) (insert_tree k v t).
Proof.
  intros (Ht & Hord & <-). destruct (insert_tree_elements k v t Ht Hord) as [? Hm].
  split_and!; [by apply insert_tree_avl | done | done].
Qed.

Lemma avl_of_delete m t k : avl_of m t → avl_of (delete k m) (delete_tree k t).
Proof.
  intros (Ht & Hord & <-). destruct (delete_tree_elements k t Ht Hord) as [? Hm].
  split_and!; [by apply delete_tree_avl | done | done].
Qed.

Lemma avl_of_keys m t k : avl_of m t → is_Some (m !! k) ↔ ∃ v, (k, v) ∈ elements t.
Proof. intros (_ & _ & <-). apply to_map_is_Some. Qed.

Lemma avl_of_ordered m1 m2 t1 t2 :
  avl_of m1 t1 → avl_of m2 t2 → dict_before m1 m2 → ordered (elements t1 ++ elements t2).
Proof.
  intros H1 H2 Hb. apply ordered_app. split_and!; [apply H1 | apply H2 |].
  intros [k1 v1] [k2 v2] Hin1 Hin2. apply (Hb k1 k2).
  - apply (avl_of_keys _ _ _ H1). by eexists.
  - apply (avl_of_keys _ _ _ H2). by eexists.
Qed.

Lemma avl_of_join m1 m2 t1 t2 :
  avl_of m1 t1 → avl_of m2 t2 → dict_before m1 m2 → avl_of (m1 ∪ m2) (join_tree t1 t2).
Proof.
  intros H1 H2 Hb. pose proof (avl_of_ordered _ _ _ _ H1 H2 Hb) as Hord.
  destruct H1 as (Ht1 & _ & <-), H2 as (Ht2 & _ & <-).
  destruct (join_tree_spec t1 t2 Ht1 Ht2 Hord) as [? He].
  split_and!; [done | by rewrite He | by rewrite He to_map_app].
Qed.

(** Only a tree that contains [INVALID_KEY] can make [join] fail. *)
Lemma avl_of_join_key m1 m2 t1 t2 :
  avl_of m1 t1 → avl_of m2 t2 → m1 !! AVL.INVALID_KEY = None → m2 !! AVL.INVALID_KEY = None →
  t1 ≠ Leaf → t2 ≠ Leaf → join_key t1 t2 ≠ AVL.INVALID_KEY.
Proof.
  intros H1 H2 Hm1 Hm2 Hne1 Hne2. unfold join_key. case_match; intros Hk.
  - destruct (first_elem_spec _ Hne2) as [es He]. apply eq_None_not_Some in Hm2. apply Hm2.
    apply (avl_of_keys _ _ _ H2). exists (first_elem t2).2. rewrite He -Hk.
    apply elem_of_cons. left. by destruct (first_elem t2).
  - destruct (last_elem_spec _ Hne1) as [es He]. apply eq_None_not_Some in Hm1. apply Hm1.
    apply (avl_of_keys _ _ _ H1). exists (last_elem t1).2. rewrite He -Hk.
    apply elem_of_app. right. apply elem_of_cons. left. by destruct (last_elem t1).
Qed.

Lemma avl_of_size m t : avl_of m t → size m = tsize t.
Proof. intros (_ & Hord & <-). by rewrite to_map_size // length_elements. Qed.

Lemma avl_of_split m t k l r :
  avl_of m t → split_tree t = Some (k, l, r) →
  ∃ m1 m2, avl_of m1 l ∧ avl_of m2 r ∧ split_at m k m1 m2.
Proof.
  intros (Ht & Hord & <-) Hs.
  destruct (split_tree_spec t k l r Ht Hord Hs) as (Hl & Hr & He & Hne & v & es & Her).
  rewrite He in Hord |- *. pose proof (ordered_split _ _ Hord) as [Hol Hor].
  exists (to_map (elements l)), (to_map (elements r)). split_and!; [done.. |].
  apply ordered_app in Hord as (_ & _ & Hlr). split.
  - apply to_map_app.
  - intros x [w Hx]%to_map_is_Some. apply (Hlr (x, w) (k, v) Hx). rewrite Her. by left.
  - intros x [w Hx]%to_map_is_Some. rewrite Her in Hx Hor. apply ordered_cons in Hor as [_ Hor].
    apply elem_of_cons in Hx as [[= -> ->]|Hx]; [done |].
    specialize (Hor _ Hx). unfold kv_lt in Hor. simpl in *. lia.
  - intros Hemp. apply Hne. destruct l as [|l1 kl vl bl l2]; [done |]. exfalso.
    assert (is_Some (to_map (elements (Node l1 kl vl bl l2)) !! kl)) as Hkl.
    { apply to_map_is_Some. exists vl. simpl. apply elem_of_app. right. by left. }
    rewrite Hemp in Hkl. by destruct Hkl.
  - apply to_map_is_Some. exists v. rewrite Her. by left.
Qed.

(** ** The methods on dictionaries *)

Lemma wp_avl_new Q : (∀ s, avl_set s ∅ -∗ Q (Some s)) ⊢ wp AVL.newTree Q.
Proof.
  iIntros "HQ". iApply wp_new. iIntros (s) "Hs". iApply "HQ". iExists Leaf.
  iSplit; [iPureIntro; apply avl_of_leaf |]. iExists NULL. by iFrame.
Qed.

Lemma wp_avl_find s m k Q :
  avl_set s m -∗ (avl_set s m -∗ Q (dict_find m k)) -∗ wp (AVL.find (Some s) k) Q.
Proof.
  iIntros "(%t & %Ht & Hs) HQ". iApply (wp_find with "Hs"). rewrite (avl_of_search m) //.
  iIntros "Hs". iApply "HQ". iExists t. by iFrame.
Qed.

Lemma wp_avl_insert s m k v Q :
  avl_set s m -∗ (avl_set s (dict_insert k v m) -∗ Q (dict_find m k)) -∗
  wp (AVL.insert (Some s) k v) Q.
Proof.
  iIntros "(%t & %Ht & Hs) HQ". iApply (wp_insert with "Hs"); [apply Ht |].
  rewrite (avl_of_search m) //. iIntros "Hs". iApply "HQ". iExists _. iFrame.
  iPureIntro. by apply avl_of_insert.
Qed.

Lemma wp_avl_erase s m k Q :
  avl_set s m -∗ (avl_set s (delete k m) -∗ Q (dict_find m k)) -∗
  wp (AVL.erase (Some s) k) Q.
Proof.
  iIntros "(%t & %Ht & Hs) HQ". iApply (wp_erase with "Hs"); [apply Ht |].
  rewrite (avl_of_search m) //. iIntros "Hs". iApply "HQ". iExists _. iFrame.
  iPureIntro. by apply avl_of_delete.
Qed.

Lemma avl_at_leaf s : avl_at s Leaf -∗ avl_set s ∅.
Proof. iIntros "Hs". iExists Leaf. iFrame. iPureIntro. apply avl_of_leaf. Qed.

Lemma wp_avl_join s1 s2 m1 m2 Q :
  dict_before m1 m2 → m1 !! invalid_key = None → m2 !! invalid_key = None →
  avl_set s1 m1 -∗ avl_set s2 m2 -∗
  (∀ s, avl_set s (m1 ∪ m2) -∗ avl_set s1 ∅ -∗ avl_set s2 ∅ -∗ Q (Some s)) -∗
  wp (AVL.join (Some s1) (Some s2)) Q.
Proof.
  iIntros (Hb Hk1 Hk2) "(%t1 & %Ht1 & H1) (%t2 & %Ht2 & H2) HQ".
  iApply (wp_join with "H1 H2"); [apply Ht1 | apply Ht2 | by eapply avl_of_join_key |].
  iIntros (s) "Hs H1 H2". iApply ("HQ" with "[Hs] [H1] [H2]"); [|by iApply avl_at_leaf..].
  iExists _. iFrame. iPureIntro. by apply avl_of_join.
Qed.

Lemma wp_avl_split s m Q :
  avl_set s m -∗
  ((<affine> ⌜(size m ≤ 1)%nat⌝ -∗ avl_set s m -∗ Q (invalid_key, NULL, NULL)) ∧
   (∀ k s1 s2 m1 m2, <affine> ⌜(1 < size m)%nat ∧ split_at m k m1 m2⌝ -∗
      avl_set s1 m1 -∗ avl_set s2 m2 -∗ avl_set s ∅ -∗ Q (k, Some s1, Some s2))) -∗
  wp (AVL.split (Some s)) Q.
Proof.
  iIntros "(%t & %Ht & Hs) HQ". iApply (wp_split with "Hs"); [apply Ht |].
  iIntros (res) "Hres". rewrite /split_post.
  destruct (split_tree t) as [[[k l] r]|] eqn:Hsp.
  - iDestruct "HQ" as "[_ HQ]". iDestruct "Hres" as (lt rt ->) "(Hl & Hr & Hs)".
    destruct (avl_of_split _ _ _ _ _ Ht Hsp) as (m1 & m2 & Hl & Hr & Hsa).
    iApply ("HQ" $! k lt rt m1 m2 with "[%] [Hl] [Hr] [Hs]").
    + split; [|done]. rewrite (avl_of_size m t) //. pose proof (split_tree_None t (proj1 Ht)) as Hn.
      rewrite Hsp in Hn. destruct (decide (tsize t ≤ 1)%nat) as [?%Hn|]; [done | lia].
    + iExists l. by iFrame.
    + iExists r. by iFrame.
    + by iApply avl_at_leaf.
  - iDestruct "HQ" as "[HQ _]". iDestruct "Hres" as (->) "Hs". iApply ("HQ" with "[%]").
    + rewrite (avl_of_size m t) //. by apply split_tree_None; [apply Ht |].
    + iExists t. by iFrame.
Qed.

Lemma wp_avl_delete s m Q : avl_set s m -∗ Q () -∗ wp (AVL.deleteTree (Some s)) Q.
Proof. iIntros "(%t & _ & Hs) HQ". iApply (wp_deleteTree with "Hs HQ"). Qed.

Lemma wp_avl_numKeys s m Q :
  avl_set s m -∗ (avl_set s m -∗ Q (size_t (Z.of_nat (size m)))) -∗
  wp (AVL.numKeys (Some s)) Q.
Proof.
  iIntros "(%t & %Ht & Hs) HQ". iApply (wp_numKeys with "Hs").
  assert (tree_sum (λ _, 1) t = size_t (Z.of_nat (size m))) as ->.
  { rewrite tree_sum_elements (avl_of_size m t) // -length_elements. f_equal.
    induction (elements t); simpl; lia. }
  iIntros "Hs". iApply "HQ". iExists t. by iFrame.
Qed.

Lemma wp_avl_sumOfKeys s m Q :
  avl_set s m -∗ (avl_set s m -∗ Q (size_t (dict_sum id m))) -∗
  wp (AVL.sumOfKeys (Some s)) Q.
Proof.
  iIntros "(%t & %Ht & Hs) HQ". iApply (wp_sumOfKeys with "Hs").
  assert (tree_sum id t = size_t (dict_sum id m)) as ->.
  { destruct Ht as (_ & Hord & <-). by rewrite tree_sum_elements dict_sum_to_map. }
  iIntros "Hs". iApply "HQ". iExists t. by iFrame.
Qed.

Lemma wp_avl_checkAVL s m Q :
  avl_set s m -∗ (avl_set s m -∗ Q true) -∗ wp (AVL.checkAVL (Some s)) Q.
Proof.
  iIntros "(%t & %Ht & Hs) HQ". iApply (wp_checkAVL with "Hs"); [apply Ht |].
  iIntros "Hs". iApply "HQ". iExists t. by iFrame.
Qed.

(** ** The interface *)

#[global] Instance avl_oset : IOrderedSet := {
  oset_new := AVL.newTree;
  oset_find := AVL.find;
  oset_insert := AVL.insert;
  oset_erase := AVL.erase;
  oset_numKeys := AVL.numKeys;
  oset_sumOfKeys := AVL.sumOfKeys;
  oset_join := AVL.join;
  oset_split := AVL.split;
  oset_delete := AVL.deleteTree;
}.

#[global] Program Instance avl_oset_laws : OrderedSetLaws avl_oset := {|
  is_set := avl_set;
  spent s := avl_set s ∅;
  valid_key _ := True;
  splittable _ := True;
  oset_new_law := wp_avl_new;
  oset_find_law := wp_avl_find;
  oset_erase_law := wp_avl_erase;
  oset_join_law := wp_avl_join;
  oset_delete_law := wp_avl_delete;
|}.
Next Obligation. intros. by apply wp_avl_insert. Qed.
Next Obligation. intros. by apply wp_avl_split. Qed.
Next Obligation.
  iIntros (s m Q Hm) "Hs HQ". iApply (wp_avl_numKeys with "Hs").
  rewrite /size_t Z.mod_small; [done | lia].
Qed.
Next Obligation.
  iIntros (s m Q Hf Hm) "Hs HQ". iApply (wp_avl_sumOfKeys with "Hs").
  pose proof (dict_sum_nonneg m Hf). rewrite /size_t Z.mod_small; [done | lia].
Qed.

#[global] Instance avl_base_set_laws : BaseSetLaws avl_oset.
Proof. split; [done.. |]. intros s Q. apply wp_avl_delete. Qed.

(** ** Contracts of the methods *)

(** [AVLTree::find] returns the value stored under the key, [NO_VALUE]
    when there is none, and leaves the tree as it is. *)
Lemma avl_find_correct s m k :
  ⦃ avl_set s m ⦄ AVL.find (Some s) k ⦃ r, <affine> ⌜r = dict_find m k⌝ ∗ avl_set s m ⦄.
Proof.
  apply hoare_wp. iIntros "Hs". iApply (wp_avl_find with "Hs"). by iIntros "$".
Qed.

(** C7: [AVLTree::insert] adds the pair when the key is absent, changes nothing
    when it is present, returns the value found before, keeps the search-tree
    order and the AVL invariant, and terminates without a fault. *)
Theorem avl_insert_correct s m k v :
  ⦃ avl_set s m ⦄
    AVL.insert (Some s) k v
  ⦃ r, <affine> ⌜r = dict_find m k⌝ ∗ avl_set s (dict_insert k v m) ⦄.
Proof.
  apply hoare_wp. iIntros "Hs". iApply (wp_avl_insert with "Hs"). by iIntros "$".
Qed.

(** C8: [AVLTree::erase] removes the key, frees exactly its node, returns the
    value found, and keeps the search-tree order and the AVL invariant. *)
Theorem avl_erase_correct s m k :
  ⦃ avl_set s m ⦄
    AVL.erase (Some s) k
  ⦃ r, <affine> ⌜r = dict_find m k⌝ ∗ avl_set s (delete k m) ⦄.
Proof.
  apply hoare_wp. iIntros "Hs". iApply (wp_avl_erase with "Hs"). by iIntros "$".
Qed.

(** C11: [AVLTree::join] of two trees, every key of the first below every key of
    the second and neither containing [INVALID_KEY], returns a new AVL tree with
    the union and leaves both arguments empty. *)
Theorem avl_join_correct s1 s2 m1 m2
    (Hbefore : dict_before m1 m2)
    (Hkey1 : m1 !! AVL.INVALID_KEY = None) (Hkey2 : m2 !! AVL.INVALID_KEY = None) :
  ⦃ avl_set s1 m1 ∗ avl_set s2 m2 ⦄
    AVL.join (Some s1) (Some s2)
  ⦃ r, ∃ s, <affine> ⌜r = Some s⌝ ∗ avl_set s (m1 ∪ m2) ∗ avl_set s1 ∅ ∗ avl_set s2 ∅ ⦄.
Proof.
  apply hoare_wp. iIntros "[H1 H2]". iApply (wp_avl_join with "H1 H2"); [done.. |].
  iIntros (s) "Hs H1 H2". iExists s. by iFrame.
Qed.

Lemma avl_join_correct_witness :
  ⦃ avl_set 1 {[1 := 10]} ∗ avl_set 2 {[5 := 50]} ⦄
    AVL.join (Some 1%positive) (Some 2%positive)
  ⦃ r, ∃ s, <affine> ⌜r = Some s⌝ ∗ avl_set s ({[1 := 10]} ∪ {[5 := 50]}) ∗
         avl_set 1 ∅ ∗ avl_set 2 ∅ ⦄.
Proof.
  apply (avl_join_correct 1 2 {[1 := 10]} {[5 := 50]}); [|reflexivity..].
  intros x y [? [<- _]%lookup_singleton_Some] [? [<- _]%lookup_singleton_Some]. lia.
Defined.

(** C12: [AVLTree::split] of a tree with at most one key reports
    [INVALID_KEY] and changes nothing; otherwise it returns a key of the
    tree and two new AVL trees, the first with exactly the smaller keys,
    both not empty, and leaves the argument empty. *)
Theorem avl_split_correct s m :
  ⦃ avl_set s m ⦄
    AVL.split (Some s)
  ⦃ r, (<affine> ⌜(size m ≤ 1)%nat ∧ r = (AVL.INVALID_KEY, NULL, NULL)⌝ ∗ avl_set s m) ∨
         (∃ k s1 s2 m1 m2, <affine> ⌜(1 < size m)%nat ∧ r = (k, Some s1, Some s2)⌝ ∗
            <affine> ⌜split_at m k m1 m2⌝ ∗ avl_set s1 m1 ∗ avl_set s2 m2 ∗ avl_set s ∅) ⦄.
Proof.
  apply hoare_wp. iIntros "Hs". iApply (wp_avl_split with "Hs"). iSplit.
  - iIntros (Hm) "Hs". iLeft. by iFrame.
  - iIntros (k s1 s2 m1 m2 [Hm Hsp]) "H1 H2 Hs". iRight. iExists k, s1, s2, m1, m2. by iFrame.
Qed.

(** Splitting a set and joining the parts again. *)
Definition split_join (s : ptr) : M ptr :=
  '(_, l, r) ← AVL.split s; AVL.join l r.



(** The destructor frees every object the tree owns. *)
Lemma avl_delete_frees s m :
  ⦃ avl_set s m ⦄ AVL.deleteTree (Some s) ⦃ r, emp ⦄.
Proof. apply hoare_wp. iIntros "Hs". by iApply (wp_avl_delete with "Hs"). Qed.

(** C6: refinement: from the empty store, any sequence of [find], [insert] and
    [erase] on a new [AVLTree] returns what the same sequence returns on a
    finite dictionary, and after the destructor the store is empty again. *)
Theorem avl_session_refines (ops : list set_op) :
  session (OS := avl_oset) ops ∅ = Ok (dict_ops ∅ ops).1 ∅.
Proof.
  apply session_refines, Forall_forall. intros [k|k v|k] _; exact I.
Qed.

(** C19: the tree stays balanced: [computeHeight] returns its exact height,
    which is at most [2 * log2 (n + 1) + 1] for [n] keys. *)
Theorem avl_height_logarithmic s m :
  ⦃ avl_set s m ⦄
    AVL.computeHeight (Some s)
  ⦃ r, <affine> ⌜0 ≤ r ≤ 2 * Z.log2 (Z.of_nat (size m) + 1) + 1⌝ ∗
         ∃ t, <affine> ⌜avl_of m t ∧ r = zheight t⌝ ∗ avl_at s t ⦄.
Proof.
  apply hoare_wp. iIntros "(%t & %Ht & Hs)". iApply (wp_computeHeight with "Hs"); [apply Ht |].
  iIntros "Hs". iSplit; [|iExists t; by iFrame]. iPureIntro.
  split; [apply zheight_nonneg |]. rewrite (avl_of_size m t) //.
  pose proof (avl_height_log t (proj1 Ht)). rewrite /zheight.
  replace (Z.of_nat (tsize t) + 1) with (Z.of_nat (S (tsize t))) by lia.
  pose proof (nat_log2_le (S (tsize t)) ltac:(lia)). lia.
Qed.

(** [numKeys] and [sumOfKeys] compute the number and the sum of the keys
    in [size_t] arithmetic. *)
Lemma avl_counts_correct s m :
  ⦃ avl_set s m ⦄
    (n ← AVL.numKeys (Some s); k ← AVL.sumOfKeys (Some s); mret (n, k))
  ⦃ r, <affine> ⌜r = (Z.of_nat (size m) mod 2 ^ 64, dict_sum id m mod 2 ^ 64)⌝ ∗
         avl_set s m ⦄.
Proof.
  apply hoare_wp. iIntros "Hs". iApply wp_bind. iApply (wp_avl_numKeys with "Hs").
  iIntros "Hs". iApply wp_bind. iApply (wp_avl_sumOfKeys with "Hs"). iIntros "Hs".
  wp_step. by iFrame.
Qed.


(** Two trees with one key each, joined. *)
Definition join_singletons (k1 k2 : Z) : M ptr :=
  s1 ← AVL.newTree; AVL.insert s1 k1 1;; s2 ← AVL.newTree; AVL.insert s2 k2 2;;
  AVL.join s1 s2.

