(* ===== verification/RBSpec.v ===== *)
(** * RBSpec: red-black trees and the paths in them

    The functional side of the red-black tree: the colour and black-height
    invariant of a tree, and of a path whose hole expects a subtree of a given
    black height. *)
From S2P Require Import Prelude Memory BinTree.
#[local] Open Scope Z_scope.

Abbreviation rtree := (tree color).
Abbreviation rframe := (frame color).
Abbreviation rctx := (ctx color).

Definition rcol (t : rtree) : color := match t with Leaf => BLACK | Node _ _ _ c _ => c end.
Definition weight (c : color) : Z := match c with RED => 0 | BLACK => 1 end.

(** [rbt t n]: every path from the root of [t] to a leaf has [n] black nodes,
    and no red node has a red child. *)
Fixpoint rbt (t : rtree) (n : Z) : Prop :=
  match t with
  | Leaf => n = 0
  | Node l _ _ c r =>
      rbt l (n - weight c) ∧ rbt r (n - weight c) ∧
      (c = RED → rcol l = BLACK ∧ rcol r = BLACK)
  end.

(** A whole tree: its root is black. *)
Definition rbwf (t : rtree) (n : Z) : Prop := rbt t n ∧ rcol t = BLACK.

Definition fcol (f : rframe) : color := match f with FL _ _ c _ | FR _ _ _ c => c end.
Definition fsib (f : rframe) : rtree := match f with FL _ _ _ r => r | FR l _ _ _ => l end.

(** The colour above the hole; a root has to be black, as if it were below a
    red node. *)
Definition ccol (c : rctx) : color := match c with [] => RED | f :: _ => fcol f end.

(** [rbc c n top]: the hole of [c] expects a subtree of black height [n]; the
    whole tree then has black height [top]. *)
Fixpoint rbc (c : rctx) (n top : Z) : Prop :=
  match c with
  | [] => n = top
  | f :: c =>
      rbt (fsib f) n ∧ (fcol f = RED → rcol (fsib f) = BLACK ∧ ccol c = BLACK) ∧
      rbc c (n + weight (fcol f)) top
  end.

Lemma rbt_nonneg t n : rbt t n → 0 ≤ n.
Proof.
  revert n. induction t as [|l IHl k v c r IHr]; intros n; simpl; [lia |].
  intros (Hl%IHl & _). destruct c; simpl in *; lia.
Qed.

Lemma rbt_unique t n n' : rbt t n → rbt t n' → n = n'.
Proof.
  revert n n'. induction t as [|l IHl k v c r IHr]; intros n n'; simpl; [lia |].
  intros (Hl & _) (Hl' & _). specialize (IHl _ _ Hl Hl'). lia.
Qed.

Lemma rbt_black_pos l k v r n : rbt (Node l k v BLACK r) n → 0 < n.
Proof. intros ([|]%rbt_nonneg%Z.le_lteq & _); simpl in *; lia. Qed.

(** A subtree of positive black height is not empty. *)
Lemma rbt_nonempty t n : rbt t n → 0 < n → ∃ l k v c r, t = Node l k v c r.
Proof. destruct t as [|l k v c r]; simpl; [lia |]. intros _ _. by exists l, k, v, c, r. Qed.

Lemma rbt_red_child l k v r n : rbt (Node l k v RED r) n → rbt l n ∧ rbt r n ∧ rcol l = BLACK ∧ rcol r = BLACK.
Proof. simpl. intros (? & ? & ?). replace (n - 0) with n in * by lia. naive_solver. Qed.

Lemma rbt_plug c t n top :
  rbc c n top → rbt t n → (ccol c = RED → rcol t = BLACK) → rbwf (plug c t) top.
Proof.
  revert t n. induction c as [|f c IH]; intros t n; simpl.
  - intros -> Ht Hc. split; [done | by apply Hc].
  - intros (Hs & Hred & Hc) Ht Hcol. apply (IH _ _ Hc).
    + destruct f as [k v a r|l k v a]; simpl in *;
        replace (n + weight a - weight a) with n by lia; (split_and!; [done..|]);
        intros ->; destruct Hred; auto.
    + intros Hcc. destruct f as [k v [] r|l k v []]; simpl in *; try done;
        destruct Hred as [_ Hb]; try done; by rewrite Hb in Hcc.
Qed.

Lemma rbt_unplug c t top :
  rbwf (plug c t) top → ∃ n, rbc c n top ∧ rbt t n ∧ (ccol c = RED → rcol t = BLACK).
Proof.
  revert t. induction c as [|f c IH]; intros t; simpl.
  { intros [Ht Hc]. by exists top. }
  intros (n & Hc & Hp & Hcol)%IH. exists (n - weight (fcol f)).
  replace (n - weight (fcol f) + weight (fcol f)) with n by lia.
  destruct f as [k v a r|l k v a]; simpl in *; destruct Hp as (? & ? & Ha); split_and!; try done;
    intros ->; destruct (Ha eq_refl); try done; (split; [done |]); destruct (ccol c); auto.
Qed.

(** The black height of a well-formed tree is logarithmic in its size. *)
Lemma rbt_size t n : rbt t n → 2 ^ n ≤ Z.of_nat (tsize t) + 1.
Proof.
  revert n. induction t as [|l IHl k v c r IHr]; intros n; simpl; [by intros -> |].
  intros (Hl & Hr & _). pose proof (rbt_nonneg _ _ Hl) as Hn.
  specialize (IHl _ Hl). specialize (IHr _ Hr).
  assert (2 ^ n ≤ 2 * 2 ^ (n - weight c)); [|lia].
  rewrite -Z.pow_succ_r //. apply Z.pow_le_mono_r; [lia |]. destruct c; simpl; lia.
Qed.

(** ... and so is its height. *)
Lemma rbt_height t n : rbt t n → Z.of_nat (height t) ≤ 2 * n + (1 - weight (rcol t)).
Proof.
  revert n. induction t as [|l IHl k v c r IHr]; intros n; simpl; [by intros -> |].
  intros (Hl & Hr & Hc). specialize (IHl _ Hl). specialize (IHr _ Hr).
  assert (∀ c : color, 0 ≤ weight c ≤ 1) as Hw by (intros []; simpl; lia).
  pose proof (Hw (rcol l)). pose proof (Hw (rcol r)).
  destruct c; simpl in *; [|lia]. destruct (Hc eq_refl) as [Hcl Hcr].
  rewrite Hcl Hcr /= in IHl IHr. lia.
Qed.

(** The state of the repair after an insertion: a red subtree that fits into
    its path, except that its parent may be red, too. *)
Definition growing (c : rctx) (t : rtree) (top : Z) : Prop :=
  rcol t = RED ∧ ∃ n, rbt t n ∧ rbc c n top.

(** ** Colours by side *)

Definition recolor (t : rtree) (c : color) : rtree :=
  match t with Leaf => Leaf | Node l k v _ r => Node l k v c r end.

Lemma rbt_sn d a k v c b n :
  rbt (sn d a k v c b) n ↔
  rbt a (n - weight c) ∧ rbt b (n - weight c) ∧ (c = RED → rcol a = BLACK ∧ rcol b = BLACK).
Proof. destruct d; simpl; naive_solver. Qed.
Lemma rcol_sn d a k v c b : rcol (sn d a k v c b) = c.
Proof. by destruct d. Qed.
Lemma rbc_sf d k v c s cs n top :
  rbc (sf d k v c s :: cs) n top ↔
  rbt s n ∧ (c = RED → rcol s = BLACK ∧ ccol cs = BLACK) ∧ rbc cs (n + weight c) top.
Proof. by destruct d. Qed.
Lemma ccol_sf d k v c s cs : ccol (sf d k v c s :: cs) = c.
Proof. by destruct d. Qed.
Lemma rbt_recolor_black t n : rcol t = RED → rbt t n → rbt (recolor t BLACK) (n + 1).
Proof.
  destruct t as [|l k v [] r]; simpl; [done | | done]. intros _ (Hl & Hr & _).
  by replace (n + 1 - 1) with (n - 0) by lia.
Qed.

(** ** The cases of the repair after an insertion *)

Lemma growing_uncle_red d e kp vp s kg vg u c t top :
  growing (sf e kp vp RED s :: sf d kg vg BLACK u :: c) t top → rcol u = RED →
  growing c (sn d (sn e t kp vp BLACK s) kg vg RED (recolor u BLACK)) top.
Proof.
  intros (Hcol & n & Ht & Hc) Hu. rewrite !rbc_sf in Hc.
  destruct Hc as (Hs & _ & Hru & _ & Hc). simpl in *. rewrite Z.add_0_r in Hru Hc.
  split; [apply rcol_sn |]. exists (n + 1). split; [|done].
  rewrite !rbt_sn /= rcol_sn. replace (n + 1 - 0) with (n + 1) by lia.
  replace (n + 1 - 1) with n by lia.
  split_and!; [done..| by apply rbt_recolor_black |]. intros _. split; [done |]. by destruct u.
Qed.

Lemma growing_outer d kp vp s kg vg u c t top :
  growing (sf d kp vp RED s :: sf d kg vg BLACK u :: c) t top → rcol u = BLACK →
  growing (sf d kp vp BLACK (sn d s kg vg RED u) :: c) t top.
Proof.
  intros (Hcol & n & Ht & Hc) Hu. rewrite !rbc_sf in Hc.
  destruct Hc as (Hs & Hred & Hru & _ & Hc). simpl in *. rewrite Z.add_0_r in Hru Hc.
  split; [done |]. exists n. rewrite rbc_sf rbt_sn /= Z.sub_0_r. naive_solver.
Qed.

Lemma growing_inner d kp vp s kg vg u c a k v b top :
  growing (sf (negb d) kp vp RED s :: sf d kg vg BLACK u :: c) (sn d a k v RED b) top →
  rcol u = BLACK →
  growing (sf d k v BLACK (sn d b kg vg RED u) :: c) (sn d s kp vp RED a) top.
Proof.
  intros (Hcol & n & Ht & Hc) Hu. rewrite !rbc_sf in Hc.
  destruct Hc as (Hs & Hred & Hru & _ & Hc). simpl in *. rewrite Z.add_0_r in Hru Hc.
  rewrite rbt_sn /= Z.sub_0_r in Ht. destruct Ht as (Ha & Hb & Hab).
  split; [apply rcol_sn |]. exists n. rewrite rbc_sf !rbt_sn /= !Z.sub_0_r. naive_solver.
Qed.

(** ** The cases of the repair after a deletion *)

(** A subtree with one black node too few on its paths; a red root can make up
    for it. *)
Definition shrinking (c : rctx) (t : rtree) (top : Z) : Prop :=
  ∃ n, rbc c (n + 1) top ∧
    match rcol t with BLACK => rbt t n | RED => rbt (recolor t BLACK) (n + 1) end.

(** The sibling of such a subtree is not empty. *)
Lemma shrinking_sibling d kp vp cp s c t top :
  shrinking (sf d kp vp cp s :: c) t top → ∃ a ks vs cs b, s = sn d a ks vs cs b.
Proof.
  intros (n & Hc & Ht). apply rbc_sf in Hc as (Hs & _).
  assert (0 ≤ n).
  { destruct t as [|l k v [] r]; simpl in Ht.
    - lia.
    - destruct Ht as (Hl%rbt_nonneg & _). lia.
    - destruct Ht as (Hl%rbt_nonneg & _). lia. }
  destruct (rbt_nonempty _ _ Hs) as (l & k & v & cs & r & ->); [lia |].
  destruct d; [by exists l, k, v, cs, r | by exists r, k, v, cs, l].
Qed.

Lemma shrinking_red d kp vp cp a ks vs b c t top :
  shrinking (sf d kp vp cp (sn d a ks vs RED b) :: c) t top →
  shrinking (sf d kp vp RED a :: sf d ks vs BLACK b :: c) t top ∧ rcol a = BLACK.
Proof.
  intros (n & Hc & Ht). rewrite rbc_sf rbt_sn rcol_sn /= in Hc.
  destruct Hc as ((Ha & Hb & Hab) & Hp & Hc). destruct (Hab eq_refl) as [Hca Hcb].
  destruct cp; [by destruct Hp |]. split; [|done]. exists n.
  rewrite !rbc_sf ccol_sf /=. replace (n + 1 - 0) with (n + 1) in * by lia.
  replace (n + 1 + 0) with (n + 1) by lia. by split_and!.
Qed.

Lemma shrinking_up d kp vp cp a ks vs b c t top :
  shrinking (sf d kp vp cp (sn d a ks vs BLACK b) :: c) t top →
  rcol t = BLACK → rcol a = BLACK → rcol b = BLACK →
  shrinking c (sn d t kp vp cp (sn d a ks vs RED b)) top.
Proof.
  intros (n & Hc & Ht) Hct Ha Hb. rewrite Hct in Ht. rewrite rbc_sf rbt_sn /= in Hc.
  destruct Hc as ((Hra & Hrb & _) & _ & Hc). replace (n + 1 - 1) with n in * by lia.
  destruct cp; simpl in Hc; [rewrite Z.add_0_r in Hc; exists n | exists (n + 1)];
    rewrite rcol_sn; (split; [done |]).
  - assert (recolor (sn d t kp vp RED (sn d a ks vs RED b)) BLACK =
            sn d t kp vp BLACK (sn d a ks vs RED b)) as -> by by destruct d.
    rewrite !rbt_sn /=. replace (n + 1 - 1) with n by lia. rewrite Z.sub_0_r. by split_and!.
  - rewrite !rbt_sn /=. replace (n + 1 - 1) with n by lia. rewrite Z.sub_0_r. by split_and!.
Qed.

Lemma shrinking_inner d kp vp cp a1 k1 v1 b1 ks vs b c t top :
  shrinking (sf d kp vp cp (sn d (sn d a1 k1 v1 RED b1) ks vs BLACK b) :: c) t top →
  rcol b = BLACK →
  shrinking (sf d kp vp cp (sn d a1 k1 v1 BLACK (sn d b1 ks vs RED b)) :: c) t top.
Proof.
  intros (n & Hc & Ht) Hb. exists n. split; [|done]. rewrite !rbc_sf !rbt_sn !rcol_sn /= in Hc |- *.
  replace (n + 1 - 1) with n in * by lia. rewrite Z.sub_0_r in Hc |- *. naive_solver.
Qed.

Lemma shrinking_outer d kp vp cp a ks vs b c t top :
  shrinking (sf d kp vp cp (sn d a ks vs BLACK b) :: c) t top →
  rcol t = BLACK → rcol b = RED →
  rbwf (plug c (sn d (sn d t kp vp BLACK a) ks vs cp (recolor b BLACK))) top.
Proof.
  intros (n & Hc & Ht) Hct Hb. rewrite Hct in Ht. rewrite rbc_sf rbt_sn rcol_sn /= in Hc.
  destruct Hc as ((Hra & Hrb & _) & Hp & Hc). replace (n + 1 - 1) with n in * by lia.
  apply (rbt_plug _ _ _ _ Hc).
  - rewrite !rbt_sn !rcol_sn /=. replace (n + 1 + weight cp - weight cp) with (n + 1) by lia.
    replace (n + 1 - 1) with n by lia. split_and!; [done..| by apply rbt_recolor_black |].
    intros _. split; [done |]. by destruct b.
  - rewrite rcol_sn. intros Hcc. destruct cp; [|done]. destruct Hp as [_ Hp]; [done |].
    by rewrite Hcc in Hp.
Qed.

(** The repair is over when the subtree is red. *)
Lemma shrinking_done c t top :
  shrinking c t top → rcol t = RED → rbwf (plug c (recolor t BLACK)) top.
Proof.
  intros (n & Hc & Ht) Hr. rewrite Hr in Ht. apply (rbt_plug _ _ _ _ Hc Ht). by destruct t.
Qed.

(** ... or when it is the whole tree. *)
Lemma shrinking_root t top : shrinking [] t top → rcol t = BLACK → rbwf t (top - 1).
Proof.
  intros (n & Hc & Ht) Hb. rewrite Hb in Ht. simpl in Hc. split; [|done].
  by replace (top - 1) with n by lia.
Qed.
