(* ===== verification/RBTree.v ===== *)
(** * RBTree: the red-black tree

    Translation of [cpp/ds/winblad_catree/redblack_tree.h] (the live branches
    of its [#if 0 ... #else]).  [this] is the address of the [RedBlackTree]
    object.  Code that the source writes twice, for the two sides, is one
    definition over the two child members and the two rotations.  [blackHeight]
    is at most the logarithm of the number of nodes, far below the range of
    [int], and is an unbounded integer here. *)
From S2P Require Import Prelude Memory.
#[local] Open Scope Z_scope.
#[local] Open Scope cpp_scope.

Module RB.

Definition key : field rb_node Z := Field rb_key (λ x n,
  RbNode x n.(rb_val) n.(rb_parent) n.(rb_left) n.(rb_right) n.(rb_color)).
Definition val : field rb_node Z := Field rb_val (λ x n,
  RbNode n.(rb_key) x n.(rb_parent) n.(rb_left) n.(rb_right) n.(rb_color)).
Definition parent : field rb_node ptr := Field rb_parent (λ x n,
  RbNode n.(rb_key) n.(rb_val) x n.(rb_left) n.(rb_right) n.(rb_color)).
Definition left : field rb_node ptr := Field rb_left (λ x n,
  RbNode n.(rb_key) n.(rb_val) n.(rb_parent) x n.(rb_right) n.(rb_color)).
Definition right : field rb_node ptr := Field rb_right (λ x n,
  RbNode n.(rb_key) n.(rb_val) n.(rb_parent) n.(rb_left) x n.(rb_color)).
Definition col : field rb_node color := Field rb_color (λ x n,
  RbNode n.(rb_key) n.(rb_val) n.(rb_parent) n.(rb_left) n.(rb_right) x).
Definition root : field rb_tree ptr := Field rbt_root (λ x t, RbTree x t.(rbt_blackHeight)).
Definition blackHeight : field rb_tree Z := Field rbt_blackHeight (λ x t, RbTree t.(rbt_root) x).

Definition NO_VALUE : Z := 0.
Definition INVALID_KEY : Z := 0.

Definition is_red (c : color) : bool := match c with RED => true | BLACK => false end.

(** [new Node(k, v, parent, left, right, color)] *)
Definition newNode (k v : Z) (_parent _left _right : ptr) (_color : color) : M ptr :=
  new (RbNode k v _parent _left _right _color).

(** [new RedBlackTree()], and the empty destructor *)
Definition newTree : M ptr := new (RbTree NULL 0).
Definition deleteTree (this : ptr) : M unit := free rb_tree this.

Definition findStep (k : Z) (currNode : ptr) : M (ptr + Z) :=
  if currNode == NULL then break NO_VALUE
  else
    nodeKey ← currNode ~> key;
    if k <? nodeKey then l ← currNode ~> left; continue l
    else if k >? nodeKey then r ← currNode ~> right; continue r
    else v ← currNode ~> val; break v.

Definition find (this : ptr) (k : Z) : M Z :=
  currNode ← this ~> root; loop (findStep k) currNode.

(** ** Rotations *)

(** [leftRotate] is [rotate right left], [rightRotate] is [rotate left right]:
    the child [far] of [x] takes its place. *)
Definition rotate (far near : field rb_node ptr) (this x : ptr) : M unit :=
  assert_ (x != NULL);;
  y ← x ~> far;
  assert_ (y != NULL);;
  yn ← y ~> near;
  x ~> far ::= yn;;
  yn ← y ~> near;
  when (yn != NULL) (yn ← y ~> near; yn ~> parent ::= x);;
  xp ← x ~> parent;
  y ~> parent ::= xp;;
  xp ← x ~> parent;
  (if xp == NULL then this ~> root ::= y
   else
     xp ← x ~> parent;
     pl ← xp ~> left;
     xp ← x ~> parent;
     if x == pl then xp ~> left ::= y else xp ~> right ::= y);;
  y ~> near ::= x;;
  x ~> parent ::= y.

Definition leftRotate (this x : ptr) : M unit := rotate right left this x.
Definition rightRotate (this x : ptr) : M unit := rotate left right this x.

Definition getColor (node : ptr) : M color :=
  if node == NULL then mret BLACK else node ~> col.

Definition setColor (node : ptr) (newColor : color) : M unit :=
  when (node != NULL) (node ~> col ::= newColor).

(** ** Insertion *)

(** A turn of the loop of [insertFixup] when [z->parent] is the child [near] of
    its parent; the new [z]. *)
Definition insertFixupSide (near far : field rb_node ptr)
    (rotateNear rotateFar : ptr → ptr → M unit) (this z : ptr) : M ptr :=
  p ← z ~> parent; g ← p ~> parent;
  y ← g ~> far;
  cy ← getColor y;
  if is_red cy then
    p ← z ~> parent; setColor p BLACK;;
    setColor y BLACK;;
    p ← z ~> parent; g ← p ~> parent; setColor g RED;;
    p ← z ~> parent; p ~> parent
  else
    p ← z ~> parent; x ← p ~> far;
    z ← (if z == x then z ← z ~> parent; rotateNear this z;; mret z else mret z);
    p ← z ~> parent; setColor p BLACK;;
    p ← z ~> parent; g ← p ~> parent; setColor g RED;;
    p ← z ~> parent; g ← p ~> parent; rotateFar this g;;
    mret z.

Definition insertFixupStep (this z : ptr) : M (ptr + unit) :=
  r ← this ~> root;
  if z == r then break ()
  else
    p ← z ~> parent;
    c ← getColor p;
    if is_red c then
      p ← z ~> parent; g ← p ~> parent; gl ← g ~> left;
      if p == gl then z ← insertFixupSide left right leftRotate rightRotate this z; continue z
      else z ← insertFixupSide right left rightRotate leftRotate this z; continue z
    else break ().

Definition insertFixup (this z : ptr) : M unit :=
  loop (insertFixupStep this) z;;
  r ← this ~> root;
  c ← getColor r;
  when (is_red c)
    (r ← this ~> root; setColor r BLACK;;
     h ← this ~> blackHeight; this ~> blackHeight ::= h + 1).

Definition insertSearchStep (k : Z) (s : ptr * ptr) : M (ptr * ptr + (Z + ptr)) :=
  let '(prevNode, currNode) := s in
  if currNode == NULL then break (inr prevNode)
  else
    ck ← currNode ~> key;
    if k <? ck then l ← currNode ~> left; continue (currNode, l)
    else
      ck ← currNode ~> key;
      if k >? ck then r ← currNode ~> right; continue (currNode, r)
      else v ← currNode ~> val; break (inl v).

Definition insert (this : ptr) (k v : Z) : M Z :=
  currNode ← this ~> root;
  found ← loop (insertSearchStep k) (NULL, currNode);
  match found with
  | inl w => mret w
  | inr prevNode =>
      n ← newNode k v prevNode NULL NULL RED;
      (if prevNode == NULL then this ~> root ::= n
       else
         nk ← n ~> key; pk ← prevNode ~> key;
         if nk <? pk then prevNode ~> left ::= n else prevNode ~> right ::= n);;
      insertFixup this n;;
      mret NO_VALUE
  end.

(** ** Deletion *)

(** The child [old] of [p] is replaced by [new]. *)
Definition replaceChild (p old new : ptr) : M unit :=
  pl ← p ~> left;
  if pl == old then p ~> left ::= new else p ~> right ::= new.

(** The half of [transplant] that moves one child: unless [u] is itself the
    child [c] of [v], the child's parent becomes [u] and [u] takes the child;
    otherwise [u] gets [v]. *)
Definition moveChild (side : field rb_node ptr) (u v c : ptr) : M unit :=
  if u != c then
    when (c != NULL) (c ~> parent ::= u);;
    u ~> side ::= c
  else u ~> side ::= v.

(** [transplant]: the nodes [u] and [v] change places. *)
Definition transplant (this u v : ptr) : M unit :=
  uColor ← u ~> col;
  uParent ← u ~> parent;
  uRight ← u ~> right;
  uLeft ← u ~> left;
  c ← v ~> col;
  u ~> col ::= c;;
  vp ← v ~> parent;
  (if u != vp then
     (if vp == NULL then this ~> root ::= u else replaceChild vp v u);;
     vp ← v ~> parent; u ~> parent ::= vp
   else u ~> parent ::= v);;
  vr ← v ~> right;
  moveChild right u v vr;;
  vl ← v ~> left;
  moveChild left u v vl;;
  v ~> col ::= uColor;;
  (if v != uParent then
     (if uParent == NULL then this ~> root ::= v else replaceChild uParent u v);;
     v ~> parent ::= uParent
   else v ~> parent ::= u);;
  moveChild right v u uRight;;
  moveChild left v u uLeft.

Definition endOfSpineStep (side : field rb_node ptr) (curr : ptr) : M (ptr + ptr) :=
  c ← curr ~> side;
  if c != NULL then c ← curr ~> side; continue c else break curr.
Definition tree_minimum (node : ptr) : M ptr := loop (endOfSpineStep left) node.
Definition tree_maximum (node : ptr) : M ptr := loop (endOfSpineStep right) node.

(** The end of a turn of [eraseFixup] when the far child of the sibling is red:
    the repair is complete, and [curr] becomes the root to end the loop. *)
Definition eraseFixupLast (far : field rb_node ptr) (rotateNear : ptr → ptr → M unit)
    (this currParent sibling : ptr) : M (ptr * ptr) :=
  cp ← getColor currParent;
  setColor sibling cp;;
  setColor currParent BLACK;;
  sf ← sibling ~> far;
  when (sf != NULL) (sf ← sibling ~> far; setColor sf BLACK);;
  rotateNear this currParent;;
  r ← this ~> root;
  mret (r, currParent).

(** A turn of the loop of [eraseFixup] when [curr] is the child [near] of
    [currParent]: the new [curr] and [currParent].  First the part after a red
    sibling has been replaced by a black one. *)
Definition eraseFixupBlack (near far : field rb_node ptr)
    (rotateNear rotateFar : ptr → ptr → M unit) (this currParent sibling : ptr) : M (ptr * ptr) :=
  assert_ (sibling != NULL);;
  sn ← sibling ~> near; cn ← getColor sn;
  sf ← sibling ~> far; cf ← getColor sf;
  if negb (is_red cn) && negb (is_red cf) then
    setColor sibling RED;;
    let curr := currParent in
    currParent ← currParent ~> parent;
    r ← this ~> root;
    when (curr == r) (h ← this ~> blackHeight; this ~> blackHeight ::= h - 1);;
    mret (curr, currParent)
  else
    sf ← sibling ~> far; cf ← getColor sf;
    sibling ← (if negb (is_red cf) then
                 sn ← sibling ~> near; setColor sn BLACK;;
                 setColor sibling RED;;
                 rotateFar this sibling;;
                 currParent ~> far
               else mret sibling);
    eraseFixupLast far rotateNear this currParent sibling.

Definition eraseFixupSide (near far : field rb_node ptr)
    (rotateNear rotateFar : ptr → ptr → M unit) (this currParent : ptr) : M (ptr * ptr) :=
  sibling ← currParent ~> far;
  c ← getColor sibling;
  sibling ← (if is_red c then
               setColor sibling BLACK;; setColor currParent RED;;
               rotateNear this currParent;; currParent ~> far
             else mret sibling);
  eraseFixupBlack near far rotateNear rotateFar this currParent sibling.

Definition eraseFixupStep (this : ptr) (s : ptr * ptr) : M (ptr * ptr + ptr) :=
  let '(curr, currParent) := s in
  r ← this ~> root;
  if curr == r then break curr
  else
    c ← getColor curr;
    if is_red c then break curr
    else
      pl ← currParent ~> left;
      if curr == pl then
        s ← eraseFixupSide left right leftRotate rightRotate this currParent; continue s
      else
        s ← eraseFixupSide right left rightRotate leftRotate this currParent; continue s.

Definition eraseFixup (this node _parent : ptr) : M unit :=
  curr ← loop (eraseFixupStep this) (node, _parent);
  c ← getColor curr;
  when (is_red c)
    (setColor curr BLACK;;
     r ← this ~> root;
     when (curr == r) (h ← this ~> blackHeight; this ~> blackHeight ::= h + 1)).

Definition eraseSearchStep (k : Z) (node : ptr) : M (ptr + ptr * Z) :=
  if node == NULL then break (NULL, 0)
  else
    nk ← node ~> key;
    if k <? nk then l ← node ~> left; continue l
    else
      nk ← node ~> key;
      if k >? nk then r ← node ~> right; continue r
      else v ← node ~> val; break (node, v).

(** The part of [erase] after the successor of a node with two children has
    been moved: [node] has at most one child, which takes its place. *)
Definition unlink (this node : ptr) : M unit :=
  l ← node ~> left;
  child ← (if l != NULL then node ~> left else node ~> right);
  when (child != NULL) (p ← node ~> parent; child ~> parent ::= p);;
  p ← node ~> parent;
  (if p == NULL then
     this ~> root ::= child;;
     c ← getColor node;
     when (negb (is_red c)) (h ← this ~> blackHeight; this ~> blackHeight ::= h - 1)
   else
     p ← node ~> parent; pl ← p ~> left;
     p ← node ~> parent;
     if node == pl then p ~> left ::= child else p ~> right ::= child);;
  c ← getColor node;
  when (negb (is_red c)) (p ← node ~> parent; eraseFixup this child p).

Definition erase (this : ptr) (k : Z) : M Z :=
  r ← this ~> root;
  '(node, retval) ← loop (eraseSearchStep k) r;
  if node == NULL then mret NO_VALUE
  else
    r ← this ~> root;
    l ← node ~> left;
    rt ← node ~> right;
    if (node == r) && (l == NULL) && (rt == NULL) then
      this ~> root ::= NULL;;
      this ~> blackHeight ::= 0;;
      mret retval
    else
      l ← node ~> left; rt ← node ~> right;
      when ((l != NULL) && (rt != NULL))
        (rt ← node ~> right; succ ← tree_minimum rt; transplant this node succ);;
      unlink this node;;
      mret retval.

(** ** Join and split *)

(** The loop of [join] that looks for a node of black height [target] on a
    spine. *)
Definition joinSpineStep (side : field rb_node ptr) (target : Z) (s : ptr * Z)
    : M (ptr * Z + ptr) :=
  let '(node, currBHeight) := s in
  if currBHeight >? target then
    c ← getColor node;
    let currBHeight := if is_red c then currBHeight else currBHeight - 1 in
    n ← node ~> side;
    continue (n, currBHeight)
  else break node.

Definition joinSpine (side : field rb_node ptr) (target : Z) (node : ptr) (currBHeight : Z) : M ptr :=
  node ← loop (joinSpineStep side target) (node, currBHeight);
  c ← getColor node;
  if is_red c then node ~> side else mret node.

(** The last key of one tree, taken out: [side] is the side of its parent it is
    on, [other] the side its child is on. *)
Definition takeEnd (side other : field rb_node ptr) (this node : ptr) : M unit :=
  c ← node ~> other;
  p ← node ~> parent;
  p ~> side ::= c;;
  c ← node ~> other;
  when (c != NULL) (c ← node ~> other; p ← node ~> parent; c ~> parent ::= p);;
  c ← getColor node;
  when (negb (is_red c)) (c ← node ~> other; p ← node ~> parent; eraseFixup this c p).

(** The second half of [join]: the node [aux], between the two trees. *)
Definition joinAt (this rightTree aux : ptr) : M ptr :=
  node1 ← this ~> root;
  node2 ← rightTree ~> root;
  bh ← this ~> blackHeight;
  bhr ← rightTree ~> blackHeight;
  '(node1, node2) ←
    (if bh <=? bhr then
       node2 ← rightTree ~> root;
       n ← joinSpine left bh node2 bhr; mret (node1, n)
     else
       node1 ← this ~> root;
       n ← joinSpine right bhr node1 bh; mret (n, node2));
  r ← this ~> root;
  '(newRoot, p) ←
    (if node1 == r then
       p ← node2 ~> parent;
       if p == NULL then mret (aux, p)
       else
         newRoot ← rightTree ~> root;
         p ~> left ::= aux;;
         mret (newRoot, p)
     else
       p ← node1 ~> parent;
       assert_ (p != NULL);;
       newRoot ← this ~> root;
       p ~> right ::= aux;;
       mret (newRoot, p));
  aux ~> parent ::= p;;
  setColor aux RED;;
  aux ~> left ::= node1;;
  aux ~> right ::= node2;;
  node1 ~> parent ::= aux;;
  node2 ~> parent ::= aux;;
  r ← this ~> root;
  when (r != newRoot)
    (h ← rightTree ~> blackHeight; this ~> blackHeight ::= h;; this ~> root ::= newRoot);;
  insertFixup this aux;;
  mret this.

Definition join (this rightSet : ptr) : M ptr :=
  rightTree ← dynamic_cast rb_tree rightSet;
  assert_ (rightTree != NULL);;
  rr ← rightTree ~> root;
  if rr == NULL then mret this
  else
    r ← this ~> root;
    if r == NULL then mret rightSet
    else
      r ← this ~> root; maxT1 ← tree_maximum r;
      rr ← rightTree ~> root; minT2 ← tree_minimum rr;
      k1 ← maxT1 ~> key; k2 ← minT2 ~> key;
      assert_ (k1 <? k2);;
      r ← this ~> root;
      if maxT1 != r then
        takeEnd right left this maxT1;; joinAt this rightTree maxT1
      else
        rr ← rightTree ~> root;
        if minT2 != rr then
          takeEnd left right rightTree minT2;; joinAt this rightTree minT2
        else
          r ← this ~> root;
          r ~> right ::= minT2;;
          r ← this ~> root;
          minT2 ~> parent ::= r;;
          setColor minT2 RED;;
          minT2 ~> left ::= NULL;;
          c ← minT2 ~> right;
          when (c != NULL) (c ← minT2 ~> right; insertFixup this c);;
          mret this.

(** [split] of a tree of two nodes: new trees for the two pairs; the nodes are
    deleted. *)
Definition splitTwo (this : ptr) (k1 v1 k2 v2 : Z) (child : field rb_node ptr) : M (Z * ptr * ptr) :=
  leftTree ← newTree;
  rightTree ← newTree;
  insert leftTree k1 v1;;
  insert rightTree k2 v2;;
  r ← this ~> root; c ← r ~> child; free rb_node c;;
  r ← this ~> root; free rb_node r;;
  mret (k2, leftTree, rightTree).

(** A new tree takes the subtree [child], whose black height is [h] less one
    when its root is red. *)
Definition adopt (t child : ptr) (h : Z) : M unit :=
  t ~> root ::= child;;
  t ~> blackHeight ::= h;;
  r ← t ~> root; r ~> parent ::= NULL;;
  r ← t ~> root; c ← getColor r;
  when (is_red c)
    (r ← t ~> root; setColor r BLACK;;
     h ← t ~> blackHeight; t ~> blackHeight ::= h + 1).

Definition split (this : ptr) : M (Z * ptr * ptr) :=
  r ← this ~> root;
  if r == NULL then mret (INVALID_KEY, NULL, NULL)
  else
    rl ← r ~> left; rr ← r ~> right;
    if (rl == NULL) && (rr == NULL) then mret (INVALID_KEY, NULL, NULL)
    else if rl == NULL then
      k1 ← r ~> key; v1 ← r ~> val; k2 ← rr ~> key; v2 ← rr ~> val;
      splitTwo this k1 v1 k2 v2 right
    else if rr == NULL then
      k1 ← rl ~> key; v1 ← rl ~> val; k2 ← r ~> key; v2 ← r ~> val;
      splitTwo this k1 v1 k2 v2 left
    else
      leftTree ← newTree;
      rightTree ← newTree;
      currBHeight ← this ~> blackHeight;
      splitNode ← this ~> root;
      splitKey ← splitNode ~> key;
      curr ← this ~> root;
      assert_ (curr != NULL);;
      c ← getColor curr;
      assert_ (negb (is_red c));;
      child ← curr ~> right;
      adopt rightTree child (currBHeight - 1);;
      spineRight ← rightTree ~> root;
      child ← curr ~> left;
      adopt leftTree child (currBHeight - 1);;
      spineRight ← loop (endOfSpineStep left) spineRight;
      splitNode ~> parent ::= spineRight;;
      setColor splitNode RED;;
      splitNode ~> right ::= NULL;;
      splitNode ~> left ::= NULL;;
      spineRight ~> left ::= splitNode;;
      insertFixup rightTree splitNode;;
      mret (splitKey, leftTree, rightTree).

(** ** Sums and checks *)

Fixpoint sumOfKeysHelper (fuel : nat) (node : ptr) : M Z :=
  match fuel with
  | O => throw OutOfFuel
  | S fuel =>
      if node == NULL then mret 0
      else
        k ← node ~> key;
        l ← node ~> left; a ← sumOfKeysHelper fuel l;
        r ← node ~> right; b ← sumOfKeysHelper fuel r;
        mret (size_t (k + a + b))
  end.
Definition sumOfKeys (this : ptr) : M Z :=
  with_fuel (λ fuel, r ← this ~> root; sumOfKeysHelper fuel r).

Fixpoint numKeysHelper (fuel : nat) (node : ptr) : M Z :=
  match fuel with
  | O => throw OutOfFuel
  | S fuel =>
      if node == NULL then mret 0
      else
        l ← node ~> left; a ← numKeysHelper fuel l;
        r ← node ~> right; b ← numKeysHelper fuel r;
        mret (size_t (1 + a + b))
  end.
Definition numKeys (this : ptr) : M Z :=
  with_fuel (λ fuel, r ← this ~> root; numKeysHelper fuel r).

(** [TODO implement] in the source *)
Definition getSize (this : ptr) : M Z := mret 0.

Fixpoint calcBlackHeight (fuel : nat) (node : ptr) : M Z :=
  match fuel with
  | O => throw OutOfFuel
  | S fuel =>
      if node == NULL then mret 1
      else
        l ← node ~> left; leftBlackHeight ← calcBlackHeight fuel l;
        if leftBlackHeight =? 0 then mret leftBlackHeight
        else
          r ← node ~> right; rightBlackHeight ← calcBlackHeight fuel r;
          if rightBlackHeight =? 0 then mret rightBlackHeight
          else
            assert_ (negb (leftBlackHeight =? 0));;
            assert_ (negb (rightBlackHeight =? 0));;
            if negb (leftBlackHeight =? rightBlackHeight) then mret 0
            else
              c ← node ~> col;
              mret (leftBlackHeight + (if is_red c then 0 else 1))
  end.
Definition verifyBlackHeight (this : ptr) : M Z :=
  with_fuel (λ fuel, r ← this ~> root; calcBlackHeight fuel r).

End RB.
