(* ===== verification/RBProof.v ===== *)
(** * RBProof: rotation, search and insertion of the red-black tree

    [d] says which side is meant: [near true] is [left].  A lemma over [d] is
    about both copies of the code. *)
From S2P Require Import Prelude Memory SepLogic BinTree BinHeap RBSpec RBTree.
#[local] Open Scope Z_scope.
#[local] Open Scope cpp_scope.

(** ** Representation *)

Abbreviation tree_at := (BinHeap.tree_at (λ k l r p c v, RbNode k v p l r c)).
Abbreviation path_at := (BinHeap.path_at (λ k l r p c v, RbNode k v p l r c)).
Abbreviation lctx := (list (loc * rframe)).
Abbreviation cpar c := (par_of c NULL).

(** A tree object, with its black height, and the path from its root to a hole. *)
Definition rctx_at (this : loc) (h : Z) (c : lctx) (p : ptr) : hprop :=
  (∃ rp, this ↦ RbTree rp h ∗ path_at c p rp NULL)%I.

Definition rb_at (this : loc) (h : Z) (t : rtree) : hprop :=
  (∃ p, this ↦ RbTree p h ∗ tree_at p NULL t)%I.

Definition hole_at (this : loc) (h : Z) (c : lctx) (p : ptr) (t : rtree) : hprop :=
  (rctx_at this h c p ∗ tree_at p (cpar c) t)%I.

Lemma hole_at_plug this h c p t : hole_at this h c p t -∗ rb_at this h (plug c.*2 t).
Proof.
  iIntros "[(%rp & Hthis & Hc) Ht]". iExists rp. iFrame. iApply (plug_at with "Hc Ht").
Qed.

(** ** Sides *)

Definition near (d : bool) := if d then RB.left else RB.right.
Definition far (d : bool) := if d then RB.right else RB.left.
Definition rotNear (d : bool) := if d then RB.leftRotate else RB.rightRotate.
Abbreviation nd := (BinHeap.nd (λ k l r p c v, RbNode k v p l r c)).

Lemma rctx_at_sf d this h x k v c s cs p :
  rctx_at this h ((x, sf d k v c s) :: cs) p ⊣⊢
  ∃ q, x ↦ nd d k v (cpar cs) p q c ∗ tree_at q (Some x) s ∗ rctx_at this h cs (Some x).
Proof.
  rewrite /rctx_at. setoid_rewrite path_at_sf. iSplit.
  - iIntros "(%rp & Hthis & %q & Hx & Hs & Hc)". iExists q. iFrame.
  - iIntros "(%q & Hx & Hs & %rp & Hthis & Hc)". iExists rp. iFrame.
Qed.

Lemma rctx_at_fold d this h x k v c s cs p q :
  x ↦ nd d k v (cpar cs) p q c -∗ tree_at q (Some x) s -∗ rctx_at this h cs (Some x) -∗
  rctx_at this h ((x, sf d k v c s) :: cs) p.
Proof. iIntros "Hx Hs Hc". rewrite rctx_at_sf. iExists q. iFrame. Qed.

(** ** Colours *)

Lemma wp_getColor p par t Q :
  tree_at p par t -∗ (tree_at p par t -∗ Q (rcol t)) -∗ wp (RB.getColor p) Q.
Proof.
  iIntros "Ht HQ". rewrite /RB.getColor. destruct t as [|l k v c r]; simpl.
  - iDestruct "Ht" as %->. rewrite bool_decide_true //. wp_step. by iApply "HQ".
  - iDestruct "Ht" as (x pl pr ->) "(Hx & Hl & Hr)". rewrite bool_decide_false //.
    wp_step. iApply "HQ". iExists x, pl, pr. by iFrame.
Qed.

Lemma wp_getColor_node x (o : rb_node) Q :
  x ↦ o -∗ (x ↦ o -∗ Q (rb_color o)) -∗ wp (RB.getColor (Some x)) Q.
Proof. iIntros "Hx HQ". rewrite /RB.getColor /=. wp_step. by iApply "HQ". Qed.

Lemma wp_setColor_node x (o : rb_node) c Q :
  x ↦ o -∗ (x ↦ fset RB.col c o -∗ Q ()) -∗ wp (RB.setColor (Some x) c) Q.
Proof. iIntros "Hx HQ". rewrite /RB.setColor /when /=. wp_step. by iApply "HQ". Qed.

Lemma wp_setColor p par t c Q :
  tree_at p par t -∗ (tree_at p par (recolor t c) -∗ Q ()) -∗ wp (RB.setColor p c) Q.
Proof.
  iIntros "Ht HQ". destruct t as [|l k v c' r]; simpl.
  - iDestruct "Ht" as %->. rewrite /RB.setColor /when /=. wp_step. by iApply "HQ".
  - iDestruct "Ht" as (x pl pr ->) "(Hx & Hl & Hr)". iApply (wp_setColor_node with "Hx").
    iIntros "Hx". iApply "HQ". iExists x, pl, pr. by iFrame.
Qed.

(** ** Rotation *)

(** The pointer to [x] in its parent is redirected to [y]. *)
Lemma wp_relink this h f c x (o : rb_node) y Q :
  rb_parent o = cpar (f :: c) →
  x ↦ o -∗ rctx_at this h (f :: c) (Some x) -∗
  (x ↦ o -∗ rctx_at this h (f :: c) y -∗ Q ()) -∗
  wp (xp ← Some x ~> RB.parent;
      pl ← xp ~> RB.left;
      xp ← Some x ~> RB.parent;
      if Some x == pl then xp ~> RB.left ::= y else xp ~> RB.right ::= y) Q.
Proof.
  iIntros (Hpar) "Hx (%rp & Hthis & Hc) HQ". wp_step. rewrite Hpar.
  destruct f as [z [k v b r|l k v b]]; simpl.
  - iDestruct "Hc" as (pr) "(Hz & Hr & Hc)". do 2 wp_step. rewrite Hpar bool_decide_true //=.
    wp_step. iApply ("HQ" with "Hx"). iExists rp. by iFrame.
  - iDestruct "Hc" as (pl) "(Hz & Hl & Hc)". do 2 wp_step.
    rewrite Hpar. iDestruct (tree_at_ne with "Hx Hl") as %Hne.
    rewrite bool_decide_false; [|congruence]. simpl. wp_step.
    iApply ("HQ" with "Hx"). iExists rp. by iFrame.
Qed.

Lemma wp_replace this h c x (o : rb_node) y Q :
  rb_parent o = cpar c →
  x ↦ o -∗ rctx_at this h c (Some x) -∗
  (x ↦ o -∗ rctx_at this h c y -∗ Q ()) -∗
  wp (if (cpar c) == NULL then Some this ~> RB.root ::= y
      else
        xp ← Some x ~> RB.parent;
        pl ← xp ~> RB.left;
        xp ← Some x ~> RB.parent;
        if Some x == pl then xp ~> RB.left ::= y else xp ~> RB.right ::= y) Q.
Proof.
  iIntros (Hpar) "Hx Hc HQ". destruct c as [|f c].
  - iDestruct "Hc" as (rp) "[Hthis ->]". simpl. wp_step. iApply ("HQ" with "Hx"). iExists y. by iFrame.
  - assert ((cpar (f :: c) == NULL) = false) as -> by (by destruct f).
    iApply (wp_relink with "Hx Hc HQ"). done.
Qed.

(** The update of a child's parent pointer, where the child is read from the
    member [f] of the node [z]. *)
Lemma wp_rb_reparent z (o : rb_node) (f : field rb_node ptr) p par q t Q :
  fget f o = p →
  z ↦ o -∗ tree_at p par t -∗ (z ↦ o -∗ tree_at p q t -∗ Q ()) -∗
  wp (when (p != NULL) (x ← get (Some z) f; x ~> RB.parent ::= q)) Q.
Proof.
  iIntros (Hp) "Hz Ht HQ". rewrite /when. destruct t as [|l k v b r]; simpl.
  - iDestruct "Ht" as %->. rewrite bool_decide_true //=. wp_step. by iApply ("HQ" with "Hz").
  - iDestruct "Ht" as (y pl pr ->) "(Hy & Hl & Hr)". rewrite bool_decide_false //=.
    wp_step. rewrite Hp. wp_step. iApply ("HQ" with "Hz").
    iExists y, pl, pr. by iFrame.
Qed.

Lemma wp_rotNear d this h c x y k v pa c1 k2 v2 pn pf c2 tn Q :
  rctx_at this h c (Some x) -∗
  x ↦ nd d k v (cpar c) pa (Some y) c1 -∗ y ↦ nd d k2 v2 (Some x) pn pf c2 -∗
  tree_at pn (Some y) tn -∗
  (rctx_at this h c (Some y) -∗ x ↦ nd d k v (Some y) pa pn c1 -∗ y ↦ nd d k2 v2 (cpar c) (Some x) pf c2 -∗
   tree_at pn (Some x) tn -∗ Q ()) -∗
  wp (rotNear d (Some this) (Some x)) Q.
Proof.
  iIntros "Hc Hx Hy Ht HQ". destruct d; simpl; rewrite /RB.leftRotate /RB.rightRotate /RB.rotate;
    (iApply wp_bind; iApply wp_assert; [done |]); wp_step;
    (iApply wp_bind; iApply wp_assert; [done |]); do 3 wp_step;
    (iApply wp_bind; iApply (wp_rb_reparent with "Hy Ht"); [done |]; iIntros "Hy Ht"; simpl);
    do 3 wp_step; iApply wp_bind;
    (iApply (wp_replace with "Hx Hc"); [done |]; iIntros "Hx Hc"); do 2 wp_step;
    iApply ("HQ" with "Hc Hx Hy Ht").
Qed.

Lemma wp_leftRotate this h c x y k v pa c1 k2 v2 pn pf c2 tn Q :
  rctx_at this h c (Some x) -∗
  x ↦ RbNode k v (cpar c) pa (Some y) c1 -∗ y ↦ RbNode k2 v2 (Some x) pn pf c2 -∗
  tree_at pn (Some y) tn -∗
  (rctx_at this h c (Some y) -∗ x ↦ RbNode k v (Some y) pa pn c1 -∗ y ↦ RbNode k2 v2 (cpar c) (Some x) pf c2 -∗
   tree_at pn (Some x) tn -∗ Q ()) -∗
  wp (RB.leftRotate (Some this) (Some x)) Q.
Proof. apply (wp_rotNear true). Qed.

Lemma wp_rightRotate this h c x y k v pa c1 k2 v2 pn pf c2 tn Q :
  rctx_at this h c (Some x) -∗
  x ↦ RbNode k v (cpar c) (Some y) pa c1 -∗ y ↦ RbNode k2 v2 (Some x) pf pn c2 -∗
  tree_at pn (Some y) tn -∗
  (rctx_at this h c (Some y) -∗ x ↦ RbNode k v (Some y) pn pa c1 -∗ y ↦ RbNode k2 v2 (cpar c) pf (Some x) c2 -∗
   tree_at pn (Some x) tn -∗ Q ()) -∗
  wp (RB.rightRotate (Some this) (Some x)) Q.
Proof. apply (wp_rotNear false). Qed.

(** [rb_rotate hs]: run a rotation; [hs] names the path, the two nodes, and the
    subtree that changes its parent. *)
Ltac try_bind :=
  repeat match goal with |- environments.envs_entails _ (wp (mbind _ _) _) => iApply wp_bind end.
Tactic Notation "rb_rotate" constr(hs) :=
  try_bind;
  first [iApply (wp_leftRotate with hs) | iApply (wp_rightRotate with hs)]; iIntros hs; simpl.
Tactic Notation "rb_setColor" constr(H) :=
  try_bind; first [iApply (wp_setColor_node with H) | iApply (wp_setColor with H)];
  iIntros H; simpl.
Tactic Notation "rb_getColor" constr(H) :=
  try_bind; first [iApply (wp_getColor_node with H) | iApply (wp_getColor with H)];
  iIntros H; simpl.

(** ** The repair after an insertion *)

(** What a turn of the loop of [insertFixup] leads to. *)
Definition grown (this : loc) (top : Z) (c : lctx) (t : rtree) (Q : ptr → hprop) : hprop :=
  (∀ (c1 : lctx) (z1 : loc) (t1 : rtree),
     ⌜growing c1.*2 t1 top ∧ (length c1 < length c)%nat ∧
      elements (plug c1.*2 t1) = elements (plug c.*2 t)⌝ →
     hole_at this top c1 (Some z1) t1 -∗ Q (Some z1))%I.

(** Two trees with the same elements in symmetric order. *)
Ltac rb_elements :=
  simpl; rewrite ?elements_plug; simpl; rewrite ?app_nil_r;
  repeat (rewrite -app_assoc; simpl); done.

(** Closes a goal that hangs the nodes in scope into a path. *)
Ltac rb_frame :=
  rewrite /hole_at; iDestruct "Hc" as (?) "[Hthis Hc]"; rewrite /rctx_at /=; by iFrame.

Lemma wp_insertFixupSide d e this top c xp kp vp s xg kg vg u z t Q :
  growing (sf e kp vp RED s :: sf d kg vg BLACK u :: c.*2) t top →
  hole_at this top ((xp, sf e kp vp RED s) :: (xg, sf d kg vg BLACK u) :: c) (Some z) t -∗
  grown this top ((xp, sf e kp vp RED s) :: (xg, sf d kg vg BLACK u) :: c) t Q -∗
  wp (RB.insertFixupSide (near d) (far d) (rotNear d) (rotNear (negb d)) (Some this) (Some z)) Q.
Proof.
  iIntros (Hg) "[Hc Ht] HQ".
  rewrite rctx_at_sf. iDestruct "Hc" as (q1) "(Hp & Hs & Hc)".
  rewrite rctx_at_sf. iDestruct "Hc" as (q2) "(Hg & Hu & Hc)".
  destruct (rcol u) eqn:Hu; [|destruct (decide (e = d)) as [->|He]].
  - destruct t as [|l k v [] r]; [by destruct Hg| |by destruct Hg].
    iSpecialize ("HQ" $! c xg (sn d (sn e (Node l k v RED r) kp vp BLACK s) kg vg RED
      (recolor u BLACK)) with "[%]").
    { split; [by apply growing_uncle_red | split; [simpl; lia |]].
      destruct u as [|ul ku vu [] ur]; simplify_eq/=. destruct d, e; rb_elements. }
    destruct u as [|ul ku vu [] ur]; simplify_eq/=.
    iDestruct "Hu" as (y pl1 pr1 ->) "(Hy & Hul & Hur)".
    iDestruct "Ht" as (? pl pr [= <-]) "(Hz & Hl & Hr)". rewrite /RB.insertFixupSide.
    destruct d, e; simpl in *; do 3 wp_step; rb_getColor "Hy"; wp_step;
      rb_setColor "Hp"; rb_setColor "Hy"; do 2 wp_step; rb_setColor "Hg"; do 2 wp_step;
      iApply "HQ"; rb_frame.
  - destruct t as [|l k v [] r]; [by destruct Hg| |by destruct Hg].
    iSpecialize ("HQ" $! ((xp, sf d kp vp BLACK (sn d s kg vg RED u)) :: c) z
      (Node l k v RED r) with "[%]").
    { split; [by apply growing_outer | split; [simpl; lia |]]. destruct d; rb_elements. }
    simpl. iDestruct "Ht" as (? pl pr [= <-]) "(Hz & Hl & Hr)". rewrite /RB.insertFixupSide.
    destruct d; simpl; do 3 wp_step; rb_getColor "Hu"; rewrite Hu /=;
      do 2 wp_step; iDestruct (tree_at_ne with "Hz Hs") as %Hne;
      (rewrite bool_decide_false; [|congruence]); do 2 wp_step;
      rb_setColor "Hp"; do 2 wp_step; rb_setColor "Hg"; do 2 wp_step;
      rb_rotate "Hc Hg Hp Hs"; wp_step; iApply "HQ"; rb_frame.
  - assert (e = negb d) as -> by (by destruct d, e).
    assert (∃ a k v b, t = sn d a k v RED b) as (a & k & v & b & ->).
    { destruct Hg as [Hr _]. destruct t as [|l k v [] r]; try done.
      destruct d; [by exists l, k, v, r | by exists r, k, v, l]. }
    iSpecialize ("HQ" $! ((z, sf d k v BLACK (sn d b kg vg RED u)) :: c) xp
      (sn d s kp vp RED a) with "[%]").
    { split; [by apply growing_inner | split; [simpl; lia |]]. destruct d; rb_elements. }
    rewrite tree_at_sn. iDestruct "Ht" as (? pa pb [= <-]) "(Hz & Ha & Hb)".
    rewrite /RB.insertFixupSide.
    pose proof (rctx_at_fold d this top xg kg vg BLACK u c (Some xp) q2) as Hfold.
    pose proof (rctx_at_sf d this top xg kg vg BLACK u c (Some z)) as Hunfold.
    destruct d; simpl in *; do 3 wp_step; rb_getColor "Hu"; rewrite Hu /=;
      do 2 wp_step; (rewrite bool_decide_true //); wp_step;
      iDestruct (Hfold with "Hg Hu Hc") as "Hc"; rb_rotate "Hc Hp Hz Ha"; wp_step;
      iEval (rewrite Hunfold) in "Hc"; iDestruct "Hc" as (q2') "(Hg & Hu & Hc)"; wp_step;
      rb_setColor "Hz"; do 2 wp_step; rb_setColor "Hg"; do 2 wp_step;
      rb_rotate "Hc Hg Hz Hb"; wp_step; iApply "HQ"; rb_frame.
Qed.

Lemma rctx_at_ne this h x (o : rb_node) f c p :
  x ↦ o -∗ rctx_at this h (f :: c) p -∗
  ∃ rp, <affine> ⌜rp ≠ Some x⌝ ∗ x ↦ o ∗ this ↦ RbTree rp h ∗ path_at (f :: c) p rp NULL.
Proof.
  iIntros "Hx (%rp & Hthis & Hc)". iDestruct (path_at_ne with "Hx Hc") as %Hne.
  iExists rp. by iFrame.
Qed.

Lemma wp_insertFixupLoop fuel this top c z t Q :
  growing c.*2 t top → (length c < fuel)%nat →
  hole_at this top c (Some z) t -∗
  (∀ t', ⌜rbt t' top ∧ elements t' = elements (plug c.*2 t)⌝ → rb_at this top t' -∗ Q ()) -∗
  wp (iter fuel (RB.insertFixupStep (Some this)) (Some z)) Q.
Proof.
  iIntros (Hg Hf) "Hh HQ". iInduction fuel as [|fuel IH] forall (c z t Hg Hf); [lia |].
  iApply wp_iter_S. iEval (rewrite {1}/RB.insertFixupStep).
  destruct c as [|[xp f] c].
  { iDestruct "Hh" as "[(%rp & Hthis & ->) Ht]". wp_step. rewrite bool_decide_true //. wp_step.
    destruct Hg as (_ & n & Ht & ->). iApply ("HQ" $! t with "[//]"). iExists _. iFrame. }
  pose proof Hg as (Hcol & n & Ht & Hc). destruct t as [|l k v c0 r]; [done |].
  destruct (frame_side f) as (e & kp & vp & cp & s & ->).
  iDestruct "Hh" as "[Hc Ht]". iSimpl in "Ht".
  iDestruct "Ht" as (? pl pr [= <-]) "(Hz & Hl & Hr)".
  iDestruct (rctx_at_ne with "Hz Hc") as (rp Hne) "(Hz & Hthis & Hc)".
  rewrite path_at_sf. iDestruct "Hc" as (q1) "(Hp & Hs & Hc)". wp_step.
  rewrite bool_decide_false; [|congruence]. wp_step. rb_getColor "Hp".
  assert (rb_color (nd e kp vp (cpar c) (Some z) q1 cp) = cp) as -> by by destruct e.
  destruct cp; simpl; last first.
  { wp_step. iApply ("HQ" $! (plug (sf e kp vp BLACK s :: c.*2) (Node l k v c0 r)) with "[%]").
    { split; [|done]. apply (rbt_plug _ _ n); [done.. |]. by rewrite ccol_sf. }
    iApply (hole_at_plug _ _ ((xp, sf e kp vp BLACK s) :: c) (Some z)). iSplitR "Hz Hl Hr".
    - iExists rp. rewrite path_at_sf. iFrame.
    - iExists z, pl, pr. by iFrame. }
  destruct c as [|[xg g] c]; [simpl in Hc; destruct e; naive_solver |].
  destruct (frame_side g) as (d & kg & vg & cg & u & ->).
  assert (cg = BLACK) as ->.
  { change (rbc (sf e kp vp RED s :: sf d kg vg cg u :: c.*2) n top) in Hc.
    apply rbc_sf in Hc as (_ & Hr & _). destruct (Hr eq_refl) as [_ <-]. by rewrite ccol_sf. }
  rewrite path_at_sf. iDestruct "Hc" as (q2) "(Hg & Hu & Hc)".
  pose proof (wp_insertFixupSide d e this top c xp kp vp s xg kg vg u z (Node l k v c0 r)) as Hside.
  iAssert (∀ c1 z1 t1, ⌜growing c1.*2 t1 top ∧ (length c1 < S (S (length c)))%nat ∧
      elements (plug c1.*2 t1) =
        elements (plug c.*2 (plug_frame (sf d kg vg BLACK u) (plug_frame (sf e kp vp RED s)
          (Node l k v c0 r))))⌝ →
    hole_at this top c1 (Some z1) t1 -∗
    wp (iter fuel (RB.insertFixupStep (Some this)) (Some z1)) Q)%I with "[HQ]" as "HQ".
  { iIntros (c1 z1 t1 (Hg1 & Hl1 & Hel)) "Hh". iApply ("IH" with "[//] [%] Hh"); [simpl in *; lia |].
    by rewrite Hel. }
  iClear "IH". destruct d, e; simpl in *; do 3 wp_step;
    first [rewrite bool_decide_true; [|done]
          |iDestruct (tree_at_ne with "Hp Hu") as %Hne2; rewrite bool_decide_false; [|congruence]];
    (iApply wp_bind; iApply (Hside _ Hg with "[-HQ]"); [rewrite /hole_at /rctx_at /=; by iFrame |]);
    iIntros (c1 z1 t1 H1) "Hh"; wp_step; iApply ("HQ" with "[//] Hh").
Qed.

Lemma wp_insertFixup this top c z t Q :
  growing c.*2 t top →
  hole_at this top c (Some z) t -∗
  (∀ t' top', ⌜rbwf t' top' ∧ elements t' = elements (plug c.*2 t)⌝ → rb_at this top' t' -∗ Q ()) -∗
  wp (RB.insertFixup (Some this) (Some z)) Q.
Proof.
  iIntros (Hg) "Hh HQ". rewrite /RB.insertFixup. iApply wp_bind. iApply (wp_loop (length c)). iSplit.
  { iDestruct "Hh" as "[(%rp & _ & Hc) _]". iApply (path_at_size with "Hc"). }
  iIntros (fuel Hfuel). iApply (wp_insertFixupLoop with "Hh"); [done | lia |].
  iIntros (t' [Ht' Hel]) "(%p & Hthis & Ht)". wp_step. rb_getColor "Ht". rewrite /when.
  destruct t' as [|l k v [] r]; simpl.
  - wp_step. iApply ("HQ" $! Leaf with "[//]"). iExists p. by iFrame.
  - iDestruct "Ht" as (x pl pr ->) "(Hx & Hl & Hr)". wp_step. rb_setColor "Hx". do 2 wp_step.
    iApply ("HQ" $! (Node l k v BLACK r) with "[%]").
    { split; [|done]. split; [|done]. by apply (rbt_recolor_black (Node l k v RED r)). }
    iExists (Some x). by iFrame.
  - wp_step. iApply ("HQ" $! (Node l k v BLACK r) with "[//]"). iExists p. by iFrame.
Qed.

(** ** Searching *)

Lemma wp_findLoop fuel k p par t Q :
  (height t < fuel)%nat →
  tree_at p par t -∗ (tree_at p par t -∗ Q (default RB.NO_VALUE (tfind k t))) -∗
  wp (iter fuel (RB.findStep k) p) Q.
Proof.
  iIntros (Hf) "Ht HQ". iInduction t as [|l IHl k' v c r IHr] forall (fuel Hf p par Q);
    (destruct fuel as [|fuel]; [lia |]); iApply wp_iter_S; iEval (rewrite {1}/RB.findStep); simpl in *.
  - iDestruct "Ht" as %->. rewrite bool_decide_true //. wp_step. by iApply "HQ".
  - iDestruct "Ht" as (x pl pr ->) "(Hx & Hl & Hr)". simpl. wp_step.
    destruct (k <? k'); [|destruct (k >? k')].
    + do 2 wp_step. iApply ("IHl" with "[%] Hl"); [lia |]. iIntros "Hl". iApply "HQ".
      iExists x, pl, pr. by iFrame.
    + do 2 wp_step. iApply ("IHr" with "[%] Hr"); [lia |]. iIntros "Hr". iApply "HQ".
      iExists x, pl, pr. by iFrame.
    + do 2 wp_step. iApply "HQ". iExists x, pl, pr. by iFrame.
Qed.

Lemma wp_rb_find this h t k Q :
  rb_at this h t -∗ (rb_at this h t -∗ Q (default RB.NO_VALUE (tfind k t))) -∗
  wp (RB.find (Some this) k) Q.
Proof.
  iIntros "(%p & Hthis & Ht) HQ". rewrite /RB.find. wp_step.
  wp_while (height t) from tree_at_size "Ht". iApply (wp_findLoop with "Ht"); [lia |].
  iIntros "Ht". iApply "HQ". iExists p. iFrame.
Qed.

(** The search of [insert]: it stops at a node with the key, or with the path
    to the empty place of the key. *)
Lemma wp_insertSearchLoop fuel this h k c p t Q :
  (height t < fuel)%nat →
  hole_at this h c p t -∗
  (match tfind k t with
   | Some v => rb_at this h (plug c.*2 t) -∗ Q (inl v)
   | None => ∀ c' : lctx, ⌜c'.*2 = (descend k t c.*2).1⌝ → hole_at this h c' NULL Leaf -∗
               Q (inr (cpar c'))
   end) -∗
  wp (iter fuel (RB.insertSearchStep k) (cpar c, p)) Q.
Proof.
  iIntros (Hf) "Hh HQ". iInduction t as [|l IHl k' v b r IHr] forall (fuel Hf c p);
    (destruct fuel as [|fuel]; [lia |]); iApply wp_iter_S; iEval (rewrite {1}/RB.insertSearchStep);
    iDestruct "Hh" as "[Hc Ht]"; simpl in *.
  - iDestruct "Ht" as %->. rewrite bool_decide_true //. wp_step.
    iApply ("HQ" $! c with "[//]"). by iFrame.
  - iDestruct "Ht" as (x pl pr ->) "(Hx & Hl & Hr)". simpl. wp_step.
    destruct (k <? k') eqn:Hlt; [|wp_step; destruct (k >? k') eqn:Hgt].
    + do 2 wp_step.
      iApply ("IHl" $! fuel _ ((x, FL k' v b r) :: c) with "[Hc Hx Hl Hr] HQ").
      rewrite /hole_at (rctx_at_sf true). by iFrame.
    + do 2 wp_step.
      iApply ("IHr" $! fuel _ ((x, FR l k' v b) :: c) with "[Hc Hx Hl Hr] HQ").
      rewrite /hole_at (rctx_at_sf false). by iFrame.
    + do 2 wp_step. iApply "HQ". iApply (hole_at_plug _ _ c (Some x)). by iFrame.
      Unshelve. all: simpl in *; lia.
Qed.
