(* ===== verification/RBInsert.v ===== *)
(** * RBInsert: find and insert of the red-black tree on dictionaries *)
From S2P Require Import Prelude Memory SepLogic OrderedSet BinTree BinHeap DictTree.
From S2P Require Import RBSpec RBTree RBProof.
#[local] Open Scope Z_scope.
#[local] Open Scope cpp_scope.

(** [rb_set s m]: the [RedBlackTree] object at [s] holds the dictionary [m] in
    a search tree with the red-black invariant, and its [blackHeight] is right. *)
Definition rb_set (s : loc) (m : gmap Z Z) : hprop :=
  (∃ t h, <affine> ⌜rbwf t h ∧ dict_of m t⌝ ∗ rb_at s h t)%I.

Lemma wp_rbs_new Q : (∀ s, rb_set s ∅ -∗ Q (Some s)) ⊢ wp RB.newTree Q.
Proof.
  iIntros "HQ". iApply wp_new. iIntros (s) "Hs". iApply "HQ". iExists Leaf, 0.
  iSplit; [iPureIntro; split; [done | apply dict_of_leaf] |]. iExists NULL. by iFrame.
Qed.

Lemma wp_rbs_find s m k Q :
  rb_set s m -∗ (rb_set s m -∗ Q (dict_find m k)) -∗ wp (RB.find (Some s) k) Q.
Proof.
  iIntros "(%t & %h & [%Hwf %Hd] & Hs) HQ". iApply (wp_rb_find with "Hs"). iIntros "Hs".
  rewrite (dict_of_find m t k Hd). iApply "HQ". iExists t, h. by iFrame.
Qed.

Lemma growing_new k v t h :
  rbwf t h → tfind k t = None → growing (descend k t []).1 (Node Leaf k v RED Leaf) h.
Proof.
  intros Hwf Hf. pose proof (descend_plug k t []) as Hp. pose proof (descend_tfind k t []) as Hs.
  destruct (descend k t []) as [c [|l k' w b r]]; simpl in *; [|congruence].
  rewrite -Hp in Hwf. apply rbt_unplug in Hwf as (n & Hc & -> & _). split; [done |].
  exists 0. by split_and!.
Qed.

Lemma wp_rbs_insert s m k v Q :
  rb_set s m -∗ (rb_set s (dict_insert k v m) -∗ Q (dict_find m k)) -∗
  wp (RB.insert (Some s) k v) Q.
Proof.
  iIntros "(%t & %h & [%Hwf %Hd] & %p & Hs & Ht) HQ". rewrite /RB.insert. wp_step.
  rewrite -(dict_of_find m t k Hd).
  iApply wp_bind. wp_while (height t) from tree_at_size "Ht".
  iApply (wp_insertSearchLoop fuel s h k [] p t with "[Hs Ht]"); [lia | by iFrame |].
  destruct (tfind k t) as [w|] eqn:Hf; simpl.
  { iIntros "Hs". wp_step. rewrite (dict_of_present m t k v w) //. iApply "HQ".
    iExists t, h. by iFrame. }
  iIntros (c Hc) "[Hc _]". rewrite /RB.newNode. iApply wp_bind. iApply wp_new. iIntros (z) "Hz".
  iAssert (hole_at s h c (Some z) (Node Leaf k v RED Leaf) -∗
    wp (RB.insertFixup (Some s) (Some z) ≫= λ _, mret RB.NO_VALUE) Q)%I with "[HQ]" as "HQ".
  { iIntros "Hh". iApply wp_bind. iApply (wp_insertFixup with "Hh").
    - rewrite Hc. by apply growing_new.
    - iIntros (t' h' [Hwf' Hel]) "Hs". wp_step. iApply "HQ". iExists t', h'. iFrame. iPureIntro.
      split; [done |]. apply (dict_of_insert m t k v RED); [done..|]. by rewrite Hel Hc. }
  iDestruct "Hc" as (rp) "[Hs Hc]". destruct c as [|[x f] c]; simpl.
  { iDestruct "Hc" as %->. wp_step. iApply "HQ". rewrite /hole_at /rctx_at /=. by iFrame. }
  pose proof (descend_side k t f c.*2 (proj1 Hd) (eq_sym Hc)) as Hside.
  destruct f as [k' v' b r|l k' v' b]; iDestruct "Hc" as (q) "(Hx & Ht & Hc)"; do 2 wp_step;
    destruct (Z.ltb_spec k k'); try lia; wp_step; iApply "HQ"; rewrite /hole_at /rctx_at /=;
    by iFrame.
Qed.
