(* ===== verification/RBErase.v ===== *)
(** * RBErase: deletion in the red-black tree *)
From S2P Require Import Prelude Memory SepLogic OrderedSet BinTree BinHeap DictTree.
From S2P Require Import RBSpec RBTree RBProof RBInsert.
#[local] Open Scope Z_scope.
#[local] Open Scope cpp_scope.

(** ** The repair after a deletion *)

(** The stored black height while the hole of [c] has one black node too few:
    the code counts it when the hole is the root. *)
Definition stored (c : lctx) (top : Z) : Z := match c with [] => top - 1 | _ => top end.

Definition steps (c : lctx) (t : rtree) : nat :=
  length c + match rcol t with RED => 0 | BLACK => 1 end.

(** What a turn of the loop of [eraseFixup] leads to: a smaller problem, or the
    repaired tree and its root. *)
Definition repaired (this : loc) (top : Z) (els : list (Z * Z)) (n : nat) (Q : ptr * ptr → hprop) : hprop :=
  ((∀ (c1 : lctx) (z1 : loc) (t1 : rtree),
      ⌜shrinking c1.*2 t1 top ∧ (steps c1 t1 ≤ n)%nat ∧ elements (plug c1.*2 t1) = els⌝ →
      hole_at this (stored c1 top) c1 (Some z1) t1 -∗ Q (Some z1, cpar c1)) ∧
   (∀ t1 : rtree, ⌜rbwf t1 top ∧ elements t1 = els⌝ → ∀ r q : ptr,
      this ↦ RbTree r top -∗ tree_at r NULL t1 -∗ Q (r, q)))%I.

Lemma wp_dropHeight this c x (o : rb_node) rp top Q :
  x ↦ o -∗ this ↦ RbTree rp top -∗ path_at c (Some x) rp NULL -∗
  (x ↦ o -∗ rctx_at this (stored c top) c (Some x) -∗ Q ()) -∗
  wp (when (Some x == rp)
        (h ← Some this ~> RB.blackHeight; Some this ~> RB.blackHeight ::= h - 1)) Q.
Proof.
  iIntros "Hx Hthis Hc HQ". rewrite /when. destruct c as [|f c].
  - iDestruct "Hc" as %->. rewrite bool_decide_true //. do 2 wp_step. iApply ("HQ" with "Hx").
    iExists (Some x). by iFrame.
  - iDestruct (path_at_ne with "Hx Hc") as %Hne. rewrite bool_decide_false; [|congruence]. wp_step.
    iApply ("HQ" with "Hx"). iExists rp. iFrame.
Qed.

Lemma wp_eraseFixupBlack_up d this top c x kp vp cp p y ks vs pa pb a b t els n Q :
  shrinking (sf d kp vp cp (sn d a ks vs BLACK b) :: c.*2) t top →
  rcol t = BLACK → rcol a = BLACK → rcol b = BLACK →
  (length c + match cp with RED => 0 | BLACK => 1 end ≤ n)%nat →
  elements (plug c.*2 (sn d t kp vp cp (sn d a ks vs BLACK b))) = els →
  rctx_at this top c (Some x) -∗ x ↦ nd d kp vp (cpar c) p (Some y) cp -∗ tree_at p (Some x) t -∗
  y ↦ nd d ks vs (Some x) pa pb BLACK -∗ tree_at pa (Some y) a -∗ tree_at pb (Some y) b -∗
  repaired this top els n Q -∗
  wp (RB.eraseFixupBlack (near d) (far d) (rotNear d) (rotNear (negb d))
        (Some this) (Some x) (Some y)) Q.
Proof.
  iIntros (Hs Ht Ha Hb Hn Hel) "Hc Hx Ht Hy Ha Hb [HQ _]".
  iSpecialize ("HQ" $! c x (sn d t kp vp cp (sn d a ks vs RED b)) with "[%]").
  { split; [by apply shrinking_up |]. split; [by rewrite /steps rcol_sn |].
    rewrite -Hel. destruct d; rb_elements. }
  rewrite /RB.eraseFixupBlack. destruct d; simpl; (iApply wp_bind; iApply wp_assert; [done |]);
    wp_step; rb_getColor "Ha"; wp_step; rb_getColor "Hb"; rewrite Ha Hb /=; rb_setColor "Hy"; wp_step.
  all: iDestruct "Hc" as (rp) "[Hthis Hc]"; wp_step; iApply wp_bind;
    iApply (wp_dropHeight with "Hx Hthis Hc"); iIntros "Hx Hc"; wp_step; iApply "HQ"; rb_frame.
Qed.

(** The last case: [b] is red; the rotation ends the repair. *)
Lemma wp_eraseFixupBlack_outer d this top c x kp vp cp p y ks vs pa pb a b t els n Q :
  shrinking (sf d kp vp cp (sn d a ks vs BLACK b) :: c.*2) t top →
  rcol t = BLACK → rcol b = RED →
  elements (plug c.*2 (sn d t kp vp cp (sn d a ks vs BLACK b))) = els →
  rctx_at this top c (Some x) -∗ x ↦ nd d kp vp (cpar c) p (Some y) cp -∗ tree_at p (Some x) t -∗
  y ↦ nd d ks vs (Some x) pa pb BLACK -∗ tree_at pa (Some y) a -∗ tree_at pb (Some y) b -∗
  repaired this top els n Q -∗
  wp (RB.eraseFixupLast (far d) (rotNear d) (Some this) (Some x) (Some y)) Q.
Proof.
  iIntros (Hs Ht Hb Hel) "Hc Hx Ht Hy Ha Hb [_ HQ]".
  iSpecialize ("HQ" $! (plug c.*2 (sn d (sn d t kp vp BLACK a) ks vs cp (recolor b BLACK))) with "[%]").
  { split; [by apply shrinking_outer |].
    rewrite -Hel. destruct b; [done |]. destruct d; rb_elements. }
  destruct b as [|bl bk bv [] br]; simplify_eq/=.
  iDestruct "Hb" as (z pl pr ->) "(Hz & Hbl & Hbr)".
  rewrite /RB.eraseFixupLast.
  destruct d; simpl; rb_getColor "Hx"; rb_setColor "Hy"; rb_setColor "Hx"; wp_step;
    rewrite /when /=; wp_step; rb_setColor "Hz"; rb_rotate "Hc Hx Hy Ha";
    iDestruct "Hc" as (rp) "[Hthis Hc]"; do 2 wp_step; iApply ("HQ" with "Hthis");
    iApply (plug_at with "Hc"); simpl; by iFrame.
Qed.

Lemma wp_eraseFixupBlack d this top c x kp vp cp p y ks vs pa pb a b t els n Q :
  shrinking (sf d kp vp cp (sn d a ks vs BLACK b) :: c.*2) t top →
  rcol t = BLACK →
  (length c + match cp with RED => 0 | BLACK => 1 end ≤ n)%nat →
  elements (plug c.*2 (sn d t kp vp cp (sn d a ks vs BLACK b))) = els →
  rctx_at this top c (Some x) -∗ x ↦ nd d kp vp (cpar c) p (Some y) cp -∗ tree_at p (Some x) t -∗
  y ↦ nd d ks vs (Some x) pa pb BLACK -∗ tree_at pa (Some y) a -∗ tree_at pb (Some y) b -∗
  repaired this top els n Q -∗
  wp (RB.eraseFixupBlack (near d) (far d) (rotNear d) (rotNear (negb d))
        (Some this) (Some x) (Some y)) Q.
Proof.
  iIntros (Hs Ht Hn Hel) "Hc Hx Ht Hy Ha Hb HQ".
  destruct (rcol b) eqn:Hb; [|destruct (rcol a) eqn:Ha].
  - pose proof (wp_eraseFixupBlack_outer d this top c x kp vp cp p y ks vs pa pb a b t els n Q
      Hs Ht Hb Hel) as Hlast.
    rewrite /RB.eraseFixupBlack. destruct d; simpl in *;
      (iApply wp_bind; iApply wp_assert; [done |]); wp_step; rb_getColor "Ha"; wp_step;
      rb_getColor "Hb"; rewrite Hb andb_false_r; wp_step; rb_getColor "Hb"; rewrite Hb; wp_step;
      iApply (Hlast with "Hc Hx Ht Hy Ha Hb HQ").
  - assert (∃ a1 k1 v1 b1, a = sn d a1 k1 v1 RED b1) as (a1 & k1 & v1 & b1 & ->).
    { destruct a as [|l k v [] r]; try done.
      destruct d; [by exists l, k, v, r | by exists r, k, v, l]. }
    iEval (rewrite tree_at_sn) in "Ha". iDestruct "Ha" as (z pa1 pb1 ->) "(Hz & Ha1 & Hb1)".
    pose proof (λ p, wp_eraseFixupBlack_outer d this top c x kp vp cp p z k1 v1 pa1 (Some y) a1
      (sn d b1 ks vs RED b) t els n Q (shrinking_inner _ _ _ _ _ _ _ _ _ _ _ _ _ _ Hs Hb) Ht
      (rcol_sn _ _ _ _ _ _)) as Hlast.
    pose proof (rctx_at_fold (negb d) this top x kp vp cp t c (Some y) p) as Hfold.
    pose proof (rctx_at_sf (negb d) this top x kp vp cp t c (Some z)) as Hunfold.
    rewrite /RB.eraseFixupBlack. destruct d; simpl in *;
      (iApply wp_bind; iApply wp_assert; [done |]); wp_step; rb_getColor "Hz"; wp_step;
      rb_getColor "Hb"; wp_step; rb_getColor "Hb"; rewrite Hb /=; wp_step; rb_setColor "Hz";
      rb_setColor "Hy"; iDestruct (Hfold with "Hx Ht Hc") as "Hc"; rb_rotate "Hc Hy Hz Hb1";
      iEval (rewrite Hunfold) in "Hc"; iDestruct "Hc" as (p') "(Hx & Ht & Hc)"; wp_step;
      (iApply (Hlast p' with "Hc Hx Ht Hz Ha1 [Hy Hb1 Hb] HQ");
         [rewrite -Hel; rb_elements | by iFrame]).
  - iApply (wp_eraseFixupBlack_up with "Hc Hx Ht Hy Ha Hb HQ"); done.
Qed.

Lemma wp_eraseFixupSide d this top c x kp vp cp s p t els n Q :
  shrinking (sf d kp vp cp s :: c.*2) t top → rcol t = BLACK → (length c + 1 ≤ n)%nat →
  elements (plug c.*2 (sn d t kp vp cp s)) = els →
  hole_at this top ((x, sf d kp vp cp s) :: c) p t -∗
  repaired this top els n Q -∗
  wp (RB.eraseFixupSide (near d) (far d) (rotNear d) (rotNear (negb d)) (Some this) (Some x)) Q.
Proof.
  iIntros (Hs Ht Hn Hel) "[Hc Ht] HQ". rewrite rctx_at_sf. iDestruct "Hc" as (q) "(Hx & Hs & Hc)".
  destruct (shrinking_sibling _ _ _ _ _ _ _ _ Hs) as (a & ks & vs & cs & b & ->).
  rewrite tree_at_sn. iDestruct "Hs" as (y pa pb ->) "(Hy & Ha & Hb)".
  destruct cs.
  - destruct (shrinking_red _ _ _ _ _ _ _ _ _ _ _ Hs) as [Hs' Ha].
    destruct (shrinking_sibling _ _ _ _ _ _ _ _ Hs') as (a1 & k1 & v1 & c1 & b1 & Heq).
    rewrite Heq rcol_sn in Ha. subst c1. pose proof Hs' as Hs2. rewrite Heq in Hs2.
    pose proof (λ p pa pb z, wp_eraseFixupBlack d this top ((y, sf d ks vs BLACK b) :: c) x kp vp
      RED p z k1 v1 pa pb a1 b1 t els n Q Hs2 Ht) as Hblack.
    pose proof (λ q, rctx_at_fold d this top y ks vs BLACK b c (Some x) q) as Hfold.
    rewrite /RB.eraseFixupSide. destruct d; simpl in *; wp_step; rb_getColor "Hy"; rb_setColor "Hy";
      rb_setColor "Hx"; rb_rotate "Hc Hx Hy Ha"; iDestruct (Hfold with "Hy Hb Hc") as "Hc";
      subst a; iDestruct "Ha" as (z q1 q2 ->) "(Hz & H1 & H2)"; wp_step;
      (first [iApply (Hblack p q1 q2 z with "Hc Hx Ht Hz H1 H2 HQ")
             |iApply (Hblack p q2 q1 z with "Hc Hx Ht Hz H2 H1 HQ")]; [lia |]);
      rewrite -Hel; rb_elements.
  - pose proof (wp_eraseFixupBlack d this top c x kp vp cp p y ks vs pa pb a b t els n Q Hs Ht) as Hblack.
    rewrite /RB.eraseFixupSide. destruct d; simpl in *; wp_step; rb_getColor "Hy"; wp_step;
      (iApply (Hblack with "Hc Hx Ht Hy Ha Hb HQ"); [destruct cp; lia | done]).
Qed.

(** ** The loop *)

Lemma sibling_ne d kp vp cp s c t top q p x par :
  shrinking (sf d kp vp cp s :: c) t top →
  tree_at q (Some x) s -∗ tree_at p par t -∗ ⌜p ≠ q⌝.
Proof.
  iIntros (Hs) "Hs Ht". destruct (shrinking_sibling _ _ _ _ _ _ _ _ Hs) as (a & ks & vs & cs & b & ->).
  rewrite tree_at_sn. iDestruct "Hs" as (y pa pb ->) "(Hy & _)". iApply (tree_at_ne with "Hy Ht").
Qed.

(** The loop ends at a red node or at the root. *)
Lemma wp_eraseFixupLoop fuel this top c p t Q :
  shrinking c.*2 t top → (steps c t < fuel)%nat →
  hole_at this (stored c top) c p t -∗
  ((∀ c1 p1 t1, ⌜shrinking c1.*2 t1 top ∧ rcol t1 = RED ∧
      elements (plug c1.*2 t1) = elements (plug c.*2 t)⌝ →
      hole_at this (stored c1 top) c1 p1 t1 -∗ Q p1) ∧
   (∀ t1 h1 r, ⌜rbwf t1 h1 ∧ elements t1 = elements (plug c.*2 t)⌝ →
      this ↦ RbTree r h1 -∗ tree_at r NULL t1 -∗ Q r)) -∗
  wp (iter fuel (RB.eraseFixupStep (Some this)) (p, cpar c)) Q.
Proof.
  iIntros (Hs Hf) "Hh HQ". iInduction fuel as [|fuel IH] forall (c p t Hs Hf); [lia |].
  iApply wp_iter_S. iEval (rewrite {1}/RB.eraseFixupStep).
  iDestruct "Hh" as "[(%rp & Hthis & Hc) Ht]". destruct c as [|[x f] c].
  { iDestruct "Hc" as %->. wp_step. rewrite bool_decide_true //. wp_step.
    destruct (rcol t) eqn:Ht.
    - iDestruct "HQ" as "[HQ _]". iApply ("HQ" $! [] p t with "[//]"). rewrite /hole_at /rctx_at. by iFrame.
    - iDestruct "HQ" as "[_ HQ]". iApply ("HQ" $! t with "[%] Hthis Ht").
      split; [by apply shrinking_root | done]. }
  iDestruct (tree_path_ne with "Ht Hc") as %Hne.
  destruct (frame_side f) as (d & kp & vp & cp & s & ->).
  rewrite path_at_sf. iDestruct "Hc" as (q) "(Hx & Hs & Hc)".
  iDestruct (sibling_ne with "Hs Ht") as %Hq; [exact Hs |]. wp_step.
  rewrite bool_decide_false; [|congruence]. rb_getColor "Ht". destruct (rcol t) eqn:Ht; simpl.
  { wp_step. iDestruct "HQ" as "[HQ _]". iApply ("HQ" $! ((x, sf d kp vp cp s) :: c) p t with "[//]").
    rewrite /hole_at rctx_at_sf. iFrame "Ht". iExists q. rewrite /rctx_at. by iFrame. }
  iAssert (repaired this top (elements (plug c.*2 (sn d t kp vp cp s))) (length c + 1)
    (λ s, wp (iter fuel (RB.eraseFixupStep (Some this)) s) Q)) with "[HQ]" as "HQ".
  { assert (elements (plug ((x, sf d kp vp cp s) :: c).*2 t) =
            elements (plug c.*2 (sn d t kp vp cp s))) as Hel by (by destruct d). rewrite Hel.
    rewrite /steps Ht /= in Hf. iSplit.
    - iIntros (c1 z1 t1 (Hs1 & Hn & He)) "Hh". rewrite -He.
      iApply ("IH" with "[//] [%] Hh HQ"). lia.
    - iIntros (t1 [Hwf He] r q0) "Hthis Ht". iClear "IH". destruct fuel as [|fuel]; [lia |].
      iApply wp_iter_S. iEval (rewrite {1}/RB.eraseFixupStep). wp_step.
      rewrite bool_decide_true //. wp_step. iDestruct "HQ" as "[_ HQ]".
      iApply ("HQ" with "[//] Hthis Ht"). }
  pose proof (wp_eraseFixupSide d this top c x kp vp cp s p t _ (length c + 1)
    (λ s, wp (iter fuel (RB.eraseFixupStep (Some this)) s) Q) Hs Ht ltac:(lia) eq_refl) as Hside.
  iClear "IH". destruct d; simpl in *; wp_step;
    first [rewrite bool_decide_true; [|done] | rewrite bool_decide_false; [|done]];
    iApply wp_bind; (iApply (wp_wand with "[-]"); [|iIntros (s') "Hs'"; by wp_step]);
    iApply (Hside with "[-HQ] HQ"); rewrite /hole_at /rctx_at /=; by iFrame.
Qed.

Lemma wp_eraseFixup this top c p t Q :
  shrinking c.*2 t top →
  hole_at this (stored c top) c p t -∗
  (∀ t' h', ⌜rbwf t' h' ∧ elements t' = elements (plug c.*2 t)⌝ → rb_at this h' t' -∗ Q ()) -∗
  wp (RB.eraseFixup (Some this) p (cpar c)) Q.
Proof.
  iIntros (Hs) "Hh HQ". rewrite /RB.eraseFixup. iApply wp_bind. iApply (wp_loop (length c + 1)). iSplit.
  { iDestruct "Hh" as "[(%rp & Hthis & Hc) _]". rewrite (path_at_size _ c) at_least_pt.
    iCombine "Hc Hthis" as "H". by rewrite at_least_sep. }
  iIntros (fuel Hfuel).
  iApply (wp_eraseFixupLoop with "Hh"); [done | rewrite /steps; destruct (rcol t); lia |]. iSplit.
  - iIntros (c1 p1 t1 (Hs1 & Hr & Hel)) "[Hc Ht]".
    destruct t1 as [|l k v [] r]; simplify_eq/=. iDestruct "Ht" as (x pl pr ->) "(Hx & Hl & Hr)".
    rb_getColor "Hx". rewrite /when. rb_setColor "Hx".
    iDestruct "Hc" as (rp) "[Hthis Hc]". wp_step. pose proof (shrinking_done _ _ _ Hs1 eq_refl) as Hwf.
    iSpecialize ("HQ" $! (plug c1.*2 (Node l k v BLACK r)) top with "[%]").
    { split; [done |]. rewrite -Hel. rb_elements. }
    destruct c1 as [|f1 c1].
    + iDestruct "Hc" as %->. rewrite bool_decide_true //. do 2 wp_step.
      replace (top - 1 + 1) with top by lia. iApply "HQ". iExists (Some x). by iFrame.
    + iDestruct (path_at_ne with "Hx Hc") as %Hne. rewrite bool_decide_false; [|congruence]. wp_step.
      iApply "HQ". iExists rp. iFrame "Hthis".
      iApply (plug_at _ (f1 :: c1) (Some x) with "Hc"). simpl. by iFrame.
  - iIntros (t1 h1 r [Hwf Hel]) "Hthis Ht". rb_getColor "Ht". rewrite /when (proj2 Hwf) /=. wp_step.
    iApply ("HQ" with "[//]"). iExists r. iFrame.
Qed.

(** ** Unlinking a node with at most one child *)

Lemma wp_childParent pc x (o : rb_node) par t Q :
  x ↦ o -∗ tree_at pc par t -∗ (x ↦ o -∗ tree_at pc (rb_parent o) t -∗ Q ()) -∗
  wp (when (pc != NULL) (p ← Some x ~> RB.parent; pc ~> RB.parent ::= p)) Q.
Proof.
  iIntros "Hx Ht HQ". rewrite /when. destruct t as [|l k v b r]; simpl.
  - iDestruct "Ht" as %->. simpl. wp_step. by iApply ("HQ" with "Hx").
  - iDestruct "Ht" as (y pl pr ->) "(Hy & Hl & Hr)". simpl. do 2 wp_step.
    iApply ("HQ" with "Hx"). by iFrame.
Qed.

(** The child takes the place of a black node ... *)
Lemma shrinking_unlink c l k v r t top :
  rbwf (plug c (Node l k v BLACK r)) top → (l = Leaf ∧ t = r) ∨ (r = Leaf ∧ t = l) →
  shrinking c t top.
Proof.
  intros (n & Hc & (Hl & Hr & _) & _)%rbt_unplug Ht. exists (n - 1).
  replace (n - 1 + 1) with n by lia. split; [done |]. simpl in *.
  assert (rbt t (n - 1)) as Hrt by (destruct Ht as [[_ ->]|[_ ->]]; done).
  destruct (rcol t) eqn:Hcol; [|done]. replace n with (n - 1 + 1) by lia. by apply rbt_recolor_black.
Qed.

(** ... or of a red one. *)
Lemma red_unlink c l k v r t top :
  rbwf (plug c (Node l k v RED r)) top → (l = Leaf ∧ t = r) ∨ (r = Leaf ∧ t = l) →
  rbwf (plug c t) top ∧ c ≠ [].
Proof.
  intros Hwf Ht. split; [|intros ->; by destruct Hwf].
  apply rbt_unplug in Hwf as (n & Hc & (Hl & Hr & Hcol) & _). destruct (Hcol eq_refl) as [Hcl Hcr].
  simpl in *. rewrite Z.sub_0_r in Hl Hr. apply (rbt_plug _ _ n); [done | |];
    destruct Ht as [[_ ->]|[_ ->]]; done.
Qed.

(** The rest of [unlink], from the choice of the child on. *)
Lemma wp_unlinkChild this top c x l k v col r pl pr pc t Q :
  rbwf (plug c.*2 (Node l k v col r)) top → (l = Leaf ∧ t = r) ∨ (r = Leaf ∧ t = l) →
  rctx_at this top c (Some x) -∗ x ↦ RbNode k v (cpar c) pl pr col -∗ tree_at pc (Some x) t -∗
  (∀ t' h', ⌜rbwf t' h' ∧ elements t' = elements (plug c.*2 t)⌝ → rb_at this h' t' -∗
     x ↦ RbNode k v (cpar c) pl pr col -∗ Q ()) -∗
  wp (when (pc != NULL) (p ← Some x ~> RB.parent; pc ~> RB.parent ::= p);;
      p ← Some x ~> RB.parent;
      (if p == NULL then
         Some this ~> RB.root ::= pc;;
         c ← RB.getColor (Some x);
         when (negb (RB.is_red c))
           (h ← Some this ~> RB.blackHeight; Some this ~> RB.blackHeight ::= h - 1)
       else
         p ← Some x ~> RB.parent; pl ← p ~> RB.left;
         p ← Some x ~> RB.parent;
         if Some x == pl then p ~> RB.left ::= pc else p ~> RB.right ::= pc);;
      c ← RB.getColor (Some x);
      when (negb (RB.is_red c)) (p ← Some x ~> RB.parent; RB.eraseFixup (Some this) pc p)) Q.
Proof.
  iIntros (Hwf Ht) "Hc Hx Ht HQ". iApply wp_bind. iApply (wp_childParent with "Hx Ht").
  iIntros "Hx Ht". simpl. wp_step. destruct c as [|f c].
  - simpl. destruct Hwf as [Hwf Hcol]. simpl in Hcol. subst col.
    iDestruct "Hc" as (rp) "[Hthis ->]". wp_step. rb_getColor "Hx". rewrite /when /=. do 2 wp_step.
    rb_getColor "Hx". wp_step.
    iApply (wp_eraseFixup this top [] with "[Hthis Ht]").
    + by apply (shrinking_unlink [] l k v r).
    + rewrite /hole_at /rctx_at /=. by iFrame.
    + iIntros (t' h' H') "Ht". iApply ("HQ" with "[//] Ht Hx").
  - assert ((cpar (f :: c) == NULL) = false) as -> by (by destruct f).
    iApply wp_bind. iApply (wp_relink with "Hx Hc"); [done |]. iIntros "Hx Hc". rb_getColor "Hx".
    rewrite /when. destruct col; simpl.
    + wp_step. destruct (red_unlink _ _ _ _ _ _ _ Hwf Ht) as [Hwf' _].
      iApply ("HQ" $! (plug (f :: c).*2 t) with "[//] [Hc Ht] Hx"). iApply hole_at_plug. iFrame.
    + wp_step. iApply (wp_eraseFixup this top (f :: c) with "[Hc Ht]").
      * by apply (shrinking_unlink _ l k v r).
      * iFrame.
      * iIntros (t' h' H') "Ht". iApply ("HQ" with "[//] Ht Hx").
Qed.
