(* ===== verification/RBDelete.v ===== *)
(** * RBDelete: erase of the red-black tree *)
From S2P Require Import Prelude Memory SepLogic OrderedSet BinTree BinHeap DictTree.
From S2P Require Import RBSpec RBTree RBProof RBInsert RBErase.
#[local] Open Scope Z_scope.
#[local] Open Scope cpp_scope.

(** ** The ends of a tree *)

Lemma wp_spineLoop d fuel cs p q par t Q :
  t ≠ Leaf → (height t < fuel)%nat → spine d cs.*2 →
  path_at cs p q par -∗ tree_at p (par_of cs par) t -∗
  (∀ (cs' : lctx) y k v c r pr,
     ⌜spine d cs'.*2 ∧ plug cs.*2 t = plug cs'.*2 (sn d Leaf k v c r)⌝ →
     path_at cs' (Some y) q par -∗ y ↦ nd d k v (par_of cs' par) NULL pr c -∗
     tree_at pr (Some y) r -∗ Q (Some y)) -∗
  wp (iter fuel (RB.endOfSpineStep (near d)) p) Q.
Proof.
  iIntros (Ht Hf Hcs) "Hc Ht HQ". iInduction fuel as [|fuel IH] forall (cs p t Ht Hf Hcs); [lia |].
  destruct (node_side d t Ht) as (a & k & v & c & b & ->).
  rewrite tree_at_sn. iDestruct "Ht" as (y pa pb ->) "(Hy & Ha & Hb)".
  iApply wp_iter_S. iEval (rewrite {1}/RB.endOfSpineStep).
  assert (fget (near d) (nd d k v (par_of cs par) pa pb c) = pa) as Hpa by (by destruct d).
  wp_step. rewrite Hpa. destruct (decide (a = Leaf)) as [->|Ha].
  - iDestruct "Ha" as %->. simpl. wp_step. iApply ("HQ" with "[//] Hc Hy Hb").
  - iAssert (⌜pa ≠ NULL⌝)%I as %Hne.
    { destruct a as [|al ak av ac ar]; [done |]. by iDestruct "Ha" as (z ? ? ->) "_". }
    rewrite bool_decide_false //. simpl. do 2 wp_step. rewrite Hpa.
    iApply ("IH" $! ((y, sf d k v c b) :: cs) pa a with "[//] [%] [%] [Hc Hy Hb] Ha").
    + destruct d; simpl in Hf; lia.
    + constructor; [|done]. by eexists _, _, _, _.
    + rewrite path_at_sf. iExists pb. iFrame.
    + assert (plug ((y, sf d k v c b) :: cs).*2 a = plug cs.*2 (sn d a k v c b)) as -> by by destruct d.
      done.
Qed.

Lemma wp_endOfSpine d p par t Q :
  t ≠ Leaf →
  tree_at p par t -∗
  (∀ (cs : lctx) y k v c r pr, ⌜spine d cs.*2 ∧ t = plug cs.*2 (sn d Leaf k v c r)⌝ →
     path_at cs (Some y) p par -∗ y ↦ nd d k v (par_of cs par) NULL pr c -∗
     tree_at pr (Some y) r -∗ Q (Some y)) -∗
  wp (loop (RB.endOfSpineStep (near d)) p) Q.
Proof.
  iIntros (Ht) "Ht HQ". wp_while (height t) from tree_at_size "Ht".
  iApply (wp_spineLoop d fuel [] p p par t with "[//] Ht HQ"); [done | done | constructor].
Qed.

(** ** Exchanging two nodes *)

Lemma wp_moveChild side u (o : rb_node) v pc par t Q :
  u ↦ o -∗ tree_at pc par t -∗
  (u ↦ fset side pc o -∗ tree_at pc (Some u) t -∗ Q ()) -∗
  wp (RB.moveChild side (Some u) v pc) Q.
Proof.
  iIntros "Hu Ht HQ". rewrite /RB.moveChild. iDestruct (tree_at_ne with "Hu Ht") as %Hne.
  rewrite bool_decide_false; [|congruence]. rewrite /when /=. destruct t as [|l k w b r]; simpl.
  - iDestruct "Ht" as %->. simpl. do 2 wp_step. by iApply ("HQ" with "Hu").
  - iDestruct "Ht" as (y pl pr ->) "(Hy & Hl & Hr)". simpl. do 2 wp_step.
    iApply ("HQ" with "Hu"). by iFrame.
Qed.

Lemma wp_rb_replaceChild this h c x (o : rb_node) y Q :
  x ↦ o -∗ rctx_at this h c (Some x) -∗
  (x ↦ o -∗ rctx_at this h c y -∗ Q ()) -∗
  wp (if (cpar c) == NULL then Some this ~> RB.root ::= y
      else RB.replaceChild (cpar c) (Some x) y) Q.
Proof.
  iIntros "Hx (%rp & Hthis & Hc) HQ". destruct c as [|[z [k v b r|l k v b]] c]; simpl.
  - iDestruct "Hc" as %->. wp_step. iApply ("HQ" with "Hx"). iExists y. by iFrame.
  - iDestruct "Hc" as (pr) "(Hz & Hr & Hc)". rewrite /RB.replaceChild. wp_step.
    rewrite bool_decide_true //. wp_step. iApply ("HQ" with "Hx"). iExists rp. by iFrame.
  - iDestruct "Hc" as (pl) "(Hz & Hl & Hc)". rewrite /RB.replaceChild. wp_step.
    iDestruct (tree_at_ne with "Hx Hl") as %Hne. rewrite bool_decide_false; [|congruence]. wp_step.
    iApply ("HQ" with "Hx"). iExists rp. by iFrame.
Qed.

(** The parent of the topmost node of a path. *)
Lemma wp_path_parent f cs p rp rpar q Q :
  path_at (f :: cs) p rp rpar -∗ (path_at (f :: cs) p rp q -∗ Q ()) -∗
  wp (rp ~> RB.parent ::= q) Q.
Proof.
  iIntros "Hc HQ". destruct (exists_last (l := f :: cs)) as (cs' & [z g] & ->); [done |].
  rewrite path_at_app. iDestruct "Hc" as (r) "[H1 H2]". simpl.
  destruct g; iDestruct "H2" as (s) "(Hz & Ht & ->)"; wp_step; iApply "HQ"; rewrite path_at_app;
    iExists r; simpl; by iFrame.
Qed.

Lemma rctx_at_par_ne this h c p x (o : rb_node) :
  x ↦ o -∗ rctx_at this h c p -∗ ⌜cpar c ≠ Some x⌝.
Proof.
  iIntros "Hx (%rp & _ & Hc)". destruct c as [|[z []] c]; [done | |]; simpl;
    iDestruct "Hc" as (q) "(Hz & _)"; iIntros ([= ->]); iApply (pt_exclusive with "[$Hx $Hz]").
Qed.

(** [transplant] of a node and the first node of its right subtree: they
    exchange their places and colours, not their keys. *)
Lemma wp_transplant this h c x k v col l pl cs y p ks vs cols rs pr Q :
  spine true cs.*2 →
  rctx_at this h c (Some x) -∗ x ↦ RbNode k v (cpar c) pl p col -∗ tree_at pl (Some x) l -∗
  path_at cs (Some y) p (Some x) -∗
  y ↦ RbNode ks vs (par_of cs (Some x)) NULL pr cols -∗ tree_at pr (Some y) rs -∗
  (hole_at this h (cs ++ (y, FR l ks vs col) :: c) (Some x) (Node Leaf k v cols rs) -∗ Q ()) -∗
  wp (RB.transplant (Some this) (Some x) (Some y)) Q.
Proof.
  iIntros (Hsp) "Hc Hx Hl Hcs Hy Hrs HQ". rewrite /RB.transplant. do 7 wp_step.
  iDestruct (rctx_at_par_ne with "Hy Hc") as %Hpar.
  destruct cs as [|[z f] cs]; simpl.
  - iDestruct "Hcs" as %->. rewrite (bool_decide_true (Some x = Some x)) //=. do 2 wp_step.
    iApply wp_bind. iApply (wp_moveChild with "Hx Hrs"). iIntros "Hx Hrs". simpl. wp_step.
    iApply wp_bind. iApply (wp_moveChild _ _ _ _ NULL NULL Leaf with "Hx []"); [done |]. iIntros "Hx _". simpl.
    wp_step. rewrite (bool_decide_false (Some y = cpar c)); [|congruence]. simpl.
    iApply wp_bind. iApply wp_bind. iApply (wp_rb_replaceChild with "Hx Hc"). iIntros "Hx Hc". wp_step.
    iApply wp_bind. rewrite {1}/RB.moveChild. rewrite (bool_decide_true (Some y = Some y)) //=. wp_step.
    iApply (wp_moveChild with "Hy Hl"). iIntros "Hy Hl". simpl. iApply "HQ".
    rewrite /hole_at (rctx_at_sf false). by iFrame.
  - apply Forall_cons in Hsp as [(kz & vz & cz & rz & Hf) Hsp]. simpl in Hf. subst f. simpl.
    iDestruct "Hcs" as (q) "(Hz & Hrz & Hcs)".
    iAssert (⌜z ≠ x⌝)%I as %Hzx. { iIntros (->). iApply (pt_exclusive with "[$Hx $Hz]"). }
    rewrite (bool_decide_false (Some x = Some z)); [|congruence]. simpl. iApply wp_bind.
    iApply wp_bind. rewrite {1}/RB.replaceChild. wp_step. rewrite (bool_decide_true (Some y = Some y)) //. do 4 wp_step.
    iApply wp_bind. iApply (wp_moveChild with "Hx Hrs"). iIntros "Hx Hrs". simpl. wp_step.
    iApply wp_bind. iApply (wp_moveChild _ _ _ _ NULL NULL Leaf with "Hx []"); [done |]. iIntros "Hx _". simpl.
    wp_step. rewrite (bool_decide_false (Some y = cpar c)); [|congruence]. simpl.
    iApply wp_bind. iApply wp_bind. iApply (wp_rb_replaceChild with "Hx Hc"). iIntros "Hx Hc". wp_step.
    iAssert (path_at ((z, FL kz vz cz rz) :: cs) (Some x) p (Some x)) with "[Hz Hrz Hcs]" as "Hcs".
    { iExists q. iFrame. }
    iDestruct (path_at_ne with "Hy Hcs") as %Hpy.
    iDestruct (tree_path_ne (λ k l r p c v, RbNode k v p l r c) NULL NULL Leaf with "[//] Hcs") as %Hp0.
    iApply wp_bind. rewrite {1}/RB.moveChild. rewrite (bool_decide_false (Some y = p)); [|congruence].
    rewrite /when (bool_decide_false (p = NULL)) //. iSimpl. iApply wp_bind.
    iApply (wp_path_parent with "Hcs"). iIntros "Hcs". wp_step.
    iApply (wp_moveChild with "Hy Hl"). iIntros "Hy Hl". iApply "HQ". rewrite /hole_at. iSplitR "Hx Hrs".
    + iDestruct "Hc" as (rp) "[Hthis Hc]". iExists rp. iFrame "Hthis".
      iApply (path_at_app _ ((z, FL kz vz cz rz) :: cs)). iExists p. iFrame "Hcs". iExists pl. by iFrame.
    + simpl. by iFrame.
Qed.

(** ** Unlinking *)

Lemma wp_unlink this top c x l k v col r Q :
  rbwf (plug c.*2 (Node l k v col r)) top → l = Leaf ∨ r = Leaf →
  hole_at this top c (Some x) (Node l k v col r) -∗
  (∀ t' h', ⌜rbwf t' h' ∧ elements t' = ctx_l c.*2 ++ (elements l ++ elements r) ++ ctx_r c.*2⌝ →
     rb_at this h' t' -∗ (∃ o : rb_node, x ↦ o) -∗ Q ()) -∗
  wp (RB.unlink (Some this) (Some x)) Q.
Proof.
  iIntros (Hwf Hlr) "[Hc Ht] HQ". simpl. iDestruct "Ht" as (? pl pr [= <-]) "(Hx & Hl & Hr)".
  rewrite /RB.unlink. wp_step. destruct l as [|ll lk lv lc lr].
  - iDestruct "Hl" as %->. simpl. wp_step.
    iApply (wp_unlinkChild _ _ _ _ Leaf k v col r _ _ _ r with "Hc Hx Hr"); [done | by left |].
    iIntros (t' h' [Hwf' Hel]) "Ht Hx". iApply ("HQ" with "[%] Ht [Hx]"); [|by iExists _].
    by rewrite Hel elements_plug.
  - destruct Hlr as [?| ->]; [done |]. iDestruct "Hr" as %->. iSimpl in "Hl".
    iAssert (⌜pl ≠ NULL⌝)%I as %Hne. { by iDestruct "Hl" as (z ? ? ->) "_". }
    rewrite bool_decide_false //. simpl. wp_step.
    iApply (wp_unlinkChild _ _ _ _ (Node ll lk lv lc lr) k v col Leaf _ _ _ (Node ll lk lv lc lr)
      with "Hc Hx Hl"); [done | by right |].
    iIntros (t' h' [Hwf' Hel]) "Ht Hx". iApply ("HQ" with "[%] Ht [Hx]"); [|by iExists _].
    rewrite Hel elements_plug app_nil_r. done.
Qed.

(** ** Searching the node *)

Lemma wp_eraseSearchLoop fuel this h k c p t Q :
  (height t < fuel)%nat →
  hole_at this h c p t -∗
  ((∀ (c' : lctx) x l v b r, ⌜descend k t c.*2 = (c'.*2, Node l k v b r)⌝ →
      hole_at this h c' (Some x) (Node l k v b r) -∗ Q (Some x, v)) ∧
   (⌜tfind k t = None⌝ → rb_at this h (plug c.*2 t) -∗ Q (NULL, 0))) -∗
  wp (iter fuel (RB.eraseSearchStep k) p) Q.
Proof.
  iIntros (Hf) "Hh HQ". iInduction t as [|l IHl k' v b r IHr] forall (fuel Hf c p);
    (destruct fuel as [|fuel]; [lia |]); iApply wp_iter_S; iEval (rewrite {1}/RB.eraseSearchStep);
    iDestruct "Hh" as "[Hc Ht]"; simpl in *.
  - iDestruct "Ht" as %->. simpl. wp_step. iDestruct "HQ" as "[_ HQ]". iApply ("HQ" with "[//]").
    iApply (hole_at_plug _ _ c NULL). by iFrame.
  - iDestruct "Ht" as (x pl pr ->) "(Hx & Hl & Hr)". simpl. wp_step.
    destruct (k <? k') eqn:Hlt; [|wp_step; destruct (k >? k') eqn:Hgt].
    + do 2 wp_step. iApply ("IHl" $! fuel _ ((x, FL k' v b r) :: c) with "[Hc Hx Hl Hr] HQ").
      rewrite /hole_at (rctx_at_sf true). by iFrame.
    + do 2 wp_step. iApply ("IHr" $! fuel _ ((x, FR l k' v b) :: c) with "[Hc Hx Hl Hr] HQ").
      rewrite /hole_at (rctx_at_sf false). by iFrame.
    + assert (k = k') as -> by lia. do 2 wp_step. iDestruct "HQ" as "[HQ _]".
      iApply ("HQ" $! c x l v b r with "[//]"). by iFrame.
      Unshelve. all: simpl in *; lia.
Qed.

(** ** Exchanging a node with its successor keeps the colours *)

Lemma rbwf_exchange c l k v col cs ks vs cols rs top :
  rbwf (plug c (Node l k v col (plug cs (Node Leaf ks vs cols rs)))) top →
  rbwf (plug (cs ++ FR l ks vs col :: c) (Node Leaf k v cols rs)) top.
Proof.
  intros Hwf. replace (plug c _) with (plug (cs ++ FR l k v col :: c) (Node Leaf ks vs cols rs)) in Hwf
    by (by rewrite plug_app).
  apply rbt_unplug in Hwf as (n & Hc & Ht & Hcol). apply (rbt_plug _ _ n); [|done|].
  - clear -Hc. revert n Hc. induction cs as [|f cs IH]; intros n; simpl; [done |].
    intros (? & Hf & Hc). split_and!; [done | | by apply IH]. intros Hr. destruct (Hf Hr) as [? Hcc].
    split; [done |]. by destruct cs.
  - by destruct cs.
Qed.

(** ** erase *)

(** The node of an erased key is never deleted. *)
Definition leaked (o : option Z) : hprop :=
  match o with Some _ => ∃ (x : loc) (n : rb_node), x ↦ n | None => emp end%I.

(** The main case of [erase]: the node at [x], which is not a childless root. *)
Lemma wp_eraseNode this top c x l k v col r (w : Z) Q :
  rbwf (plug c.*2 (Node l k v col r)) top →
  hole_at this top c (Some x) (Node l k v col r) -∗
  (∀ t' h', ⌜rbwf t' h' ∧ elements t' = ctx_l c.*2 ++ (elements l ++ elements r) ++ ctx_r c.*2⌝ →
     rb_at this h' t' -∗ (∃ o : rb_node, x ↦ o) -∗ Q w) -∗
  wp (l ← Some x ~> RB.left; rt ← Some x ~> RB.right;
      when ((l != NULL) && (rt != NULL))
        (rt ← Some x ~> RB.right; succ ← RB.tree_minimum rt; RB.transplant (Some this) (Some x) succ);;
      RB.unlink (Some this) (Some x);; mret w) Q.
Proof.
  iIntros (Hwf) "[Hc Ht] HQ". simpl. iDestruct "Ht" as (? pl pr [= <-]) "(Hx & Hl & Hr)". do 2 wp_step.
  iAssert (⌜pl ≠ NULL ↔ l ≠ Leaf⌝)%I as %Hpl.
  { destruct l; simpl; [by iDestruct "Hl" as %-> | by iDestruct "Hl" as (? ? ? ->) "_"]. }
  iAssert (⌜pr ≠ NULL ↔ r ≠ Leaf⌝)%I as %Hpr.
  { destruct r; simpl; [by iDestruct "Hr" as %-> | by iDestruct "Hr" as (? ? ? ->) "_"]. }
  destruct (decide (l = Leaf ∨ r = Leaf)) as [Hlr|Hlr].
  - rewrite /when. assert ((pl != NULL) && (pr != NULL) = false) as ->.
    { apply andb_false_iff. rewrite !negb_false_iff !bool_decide_eq_true.
      destruct Hlr as [?| ?]; [left | right]; apply dec_stable; naive_solver. }
    wp_step. iApply wp_bind. iApply (wp_unlink with "[Hc Hx Hl Hr]"); [done | done | |].
    { rewrite /hole_at /=. by iFrame. }
    iIntros (t' h' Ht') "Ht Hx". wp_step. iApply ("HQ" with "[//] Ht Hx").
  - rewrite /when. assert ((pl != NULL) && (pr != NULL) = true) as ->.
    { apply andb_true_iff. rewrite !negb_true_iff !bool_decide_eq_false. naive_solver. }
    iApply wp_bind. wp_step. iApply wp_bind. rewrite /RB.tree_minimum.
    iApply (wp_endOfSpine true with "Hr"); [naive_solver |].
    iIntros (cs y ks vs cols rs prs [Hsp ->]) "Hcs Hy Hrs".
    iApply (wp_transplant with "Hc Hx Hl Hcs Hy Hrs"); [done |]. iIntros "Hh".
    iApply wp_bind. iApply (wp_unlink with "Hh"); [| by left |].
    { rewrite fmap_app. by apply rbwf_exchange. }
    iIntros (t' h' [Hwf' Hel]) "Ht Hx". wp_step. iApply ("HQ" with "[%] Ht Hx"). split; [done |].
    rewrite Hel elements_plug fmap_app ctx_l_app ctx_r_app (spine_ctx_l cs.*2) //= app_nil_r.
    by rewrite -!app_assoc /= -!app_assoc.
Qed.

(** ** erase on dictionaries *)

Lemma wp_rbs_erase s m k Q :
  rb_set s m -∗ (rb_set s (delete k m) -∗ leaked (m !! k) -∗ Q (dict_find m k)) -∗
  wp (RB.erase (Some s) k) Q.
Proof.
  iIntros "(%t & %h & [%Hwf %Hd] & %p & Hs & Ht) HQ". rewrite /RB.erase. wp_step.
  rewrite -(dict_of_find m t k Hd). destruct Hd as [Hord Hm]. rewrite -{2}Hm tfind_to_map //.
  pose proof (conj Hord Hm : dict_of m t) as Hd.
  iApply wp_bind. wp_while (height t) from tree_at_size "Ht".
  iApply (wp_eraseSearchLoop fuel s h k [] p t with "[Hs Ht]"); [lia | by iFrame |]. iSplit.
  2:{ iIntros (Hf) "Hs". simpl. wp_step. rewrite Hf /=. iApply ("HQ" with "[Hs] [//]").
      rewrite (dict_of_absent m t) //. iExists t, h. by iFrame. }
  iIntros (c x l v b r Hdes) "[Hc Ht]".
  pose proof (descend_elements k t Hord) as Hel. pose proof (descend_tfind k t []) as Hfi.
  rewrite Hdes /= in Hel Hfi. destruct Hel as (Hpl & _ & _ & _ & Hel & _). rewrite Hfi /=.
  iDestruct "Hc" as (rp) "[Hs Hc]". iSimpl in "Ht". iDestruct "Ht" as (? pl pr [= <-]) "(Hx & Hl & Hr)".
  do 3 wp_step. destruct ((Some x == rp) && (pl == NULL) && (pr == NULL)) eqn:Hroot.
  - apply andb_prop in Hroot as [[Hx0%bool_decide_eq_true Hl0%bool_decide_eq_true]%andb_prop
      Hr0%bool_decide_eq_true]. subst rp pl pr.
    iAssert (⌜c = []⌝)%I as %->.
    { destruct c as [|f c]; [done |]. by iDestruct (path_at_ne with "Hx Hc") as %?. }
    destruct l; [|by iDestruct "Hl" as (? ? ? [=]) "_"].
    destruct r; [|by iDestruct "Hr" as (? ? ? [=]) "_"].
    do 3 wp_step. iApply ("HQ" with "[Hs] [Hx]"); [|by iExists _, _].
    iExists Leaf, 0. iSplit; [|iExists NULL; by iFrame]. iPureIntro. split; [done |].
    by apply (dict_of_delete m t k v [] []).
  - iApply (wp_eraseNode s h c x l k v b r v with "[Hs Hc Hx Hl Hr]"); [by rewrite Hpl | |].
    { iSplitL "Hs Hc"; [iExists rp; iFrame |]. simpl. by iFrame. }
    iIntros (t' h' [Hwf' Hel']) "Ht Hx". iApply ("HQ" with "[Ht] [Hx]").
    + iExists t', h'. iFrame. iPureIntro. split; [done |].
      apply (dict_of_delete m t k v _ _ _ Hd Hel). by rewrite Hel' -!app_assoc.
    + iDestruct "Hx" as (o) "Hx". by iExists _, _.
Qed.
