(* ===== verification/RBJoin.v ===== *)
(** * RBJoin: join of the red-black tree *)
From S2P Require Import Prelude Memory SepLogic OrderedSet BinTree BinHeap DictTree.
From S2P Require Import RBSpec RBTree RBProof RBInsert RBErase RBDelete.
#[local] Open Scope Z_scope.
#[local] Open Scope cpp_scope.

(** ** Taking the last node out *)

(** A node with no near child, by its side. *)
Lemma sn_end d k v col (r : rtree) :
  ∃ l' r', sn d Leaf k v col r = Node l' k v col r' ∧ ((l' = Leaf ∧ r = r') ∨ (r' = Leaf ∧ r = l')).
Proof. destruct d; [exists Leaf, r | exists r, Leaf]; naive_solver. Qed.

Lemma wp_moveUp y (o : rb_node) (f : field rb_node ptr) p q t Q :
  fget f o = p → rb_parent o = q →
  y ↦ o -∗ tree_at p (Some y) t -∗ (y ↦ o -∗ tree_at p q t -∗ Q ()) -∗
  wp (when (p != NULL) (c ← get (Some y) f; r ← Some y ~> RB.parent; c ~> RB.parent ::= r)) Q.
Proof.
  iIntros (Hp Hq) "Hy Ht HQ". rewrite /when. destruct t as [|l k v b r]; simpl.
  - iDestruct "Ht" as %->. rewrite bool_decide_true //=. wp_step. by iApply ("HQ" with "Hy").
  - iDestruct "Ht" as (x pl pr ->) "(Hx & Hl & Hr)". rewrite bool_decide_false //=.
    do 2 wp_step. rewrite Hp Hq. wp_step. iApply ("HQ" with "Hy"). by iFrame.
Qed.

Lemma wp_takeEnd d this top c y k v col r pr Q :
  c ≠ [] → spine d c.*2 → rbwf (plug c.*2 (sn d Leaf k v col r)) top →
  rctx_at this top c (Some y) -∗ y ↦ nd d k v (cpar c) NULL pr col -∗ tree_at pr (Some y) r -∗
  (∀ t' h', ⌜rbwf t' h' ∧ elements t' = elements (plug c.*2 r)⌝ → rb_at this h' t' -∗
     y ↦ nd d k v (cpar c) NULL pr col -∗ Q ()) -∗
  wp (RB.takeEnd (near d) (far d) (Some this) (Some y)) Q.
Proof.
  iIntros (Hne Hsp Hwf) "Hc Hy Hr HQ". destruct c as [|[x f] c]; [done |].
  apply Forall_cons in Hsp as [(kx & vx & cx & s & Hf) Hsp]. simpl in Hf. subst f.
  destruct (sn_end d k v col r) as (l' & r' & Hsn & Hlr). rewrite Hsn in Hwf.
  assert (fget (far d) (nd d k v (Some x) NULL pr col) = pr) as Hfar by (by destruct d).
  assert (rb_parent (nd d k v (Some x) NULL pr col) = Some x) as Hpar by (by destruct d).
  assert (rb_color (nd d k v (Some x) NULL pr col) = col) as Hcol by (by destruct d).
  rewrite rctx_at_sf. iDestruct "Hc" as (q) "(Hx & Hs & Hc)".
  change (cpar ((x, sf d kx vx cx s) :: c)) with (Some x).
  rewrite /RB.takeEnd. wp_step. rewrite Hfar. wp_step. rewrite Hpar. wp_step.
  assert (fset (near d) pr (nd d kx vx (cpar c) (Some y) q cx) = nd d kx vx (cpar c) pr q cx) as ->
    by (by destruct d).
  iDestruct (rctx_at_fold with "Hx Hs Hc") as "Hc". wp_step. rewrite Hfar.
  iApply wp_bind. iApply (wp_moveUp with "Hy Hr"); [done..|]. iIntros "Hy Hr".
  iApply wp_bind. iApply (wp_getColor_node with "Hy"). iIntros "Hy". rewrite Hcol /when.
  change ((x, sf d kx vx cx s) :: c).*2 with (sf d kx vx cx s :: c.*2) in *.
  destruct col; simpl.
  - wp_step. destruct (red_unlink _ _ _ _ _ _ _ Hwf Hlr) as [Hwf' _].
    iApply ("HQ" $! (plug (sf d kx vx cx s :: c.*2) r) with "[//] [Hc Hr] Hy").
    iApply (hole_at_plug _ _ ((x, sf d kx vx cx s) :: c)). iFrame.
  - do 2 wp_step. rewrite Hfar Hpar.
    iApply (wp_eraseFixup this top ((x, sf d kx vx cx s) :: c) with "[Hc Hr]").
    + by apply (shrinking_unlink _ l' k v r').
    + iFrame.
    + iIntros (t' h' H') "Ht". iApply ("HQ" with "[//] Ht Hy").
Qed.

(** ** The place for the joining node *)

Lemma wp_joinSpineLoop d fuel target cs p q par t n Q :
  rbt t n → 0 < target ≤ n → (height t < fuel)%nat → spine d cs.*2 →
  path_at cs p q par -∗ tree_at p (par_of cs par) t -∗
  (∀ (cs' : lctx) y t',
     ⌜spine d cs'.*2 ∧ plug cs.*2 t = plug cs'.*2 t' ∧ rbt t' target ∧ (n = target → cs' = cs ∧ t' = t)⌝ →
     path_at cs' (Some y) q par -∗ tree_at (Some y) (par_of cs' par) t' -∗ Q (Some y)) -∗
  wp (iter fuel (RB.joinSpineStep (near d) target) (p, n)) Q.
Proof.
  iIntros (Ht Hn Hf Hcs) "Hc Ht HQ". iInduction fuel as [|fuel IH] forall (cs p t n Ht Hn Hf Hcs); [lia |].
  destruct (rbt_nonempty _ _ Ht ltac:(lia)) as (l & k & v & c & r & ->).
  destruct (node_side d (Node l k v c r)) as (a & k' & v' & c' & b & Hnode); [done |]. rewrite Hnode in Ht Hf |- *.
  clear Hnode l k v c r. iApply wp_iter_S. iEval (rewrite {1}/RB.joinSpineStep).
  rewrite tree_at_sn. iDestruct "Ht" as (y pa pb ->) "(Hy & Ha & Hb)".
  destruct (Z.gtb_spec n target).
  - iApply wp_bind. iApply (wp_getColor_node with "Hy"). iIntros "Hy".
    assert (fget (near d) (nd d k' v' (par_of cs par) pa pb c') = pa) as Hpa by (by destruct d).
    assert (rb_color (nd d k' v' (par_of cs par) pa pb c') = c') as -> by (by destruct d).
    do 2 wp_step. rewrite Hpa. apply rbt_sn in Ht as (Ha & Hb & _).
    replace (if RB.is_red c' then n else n - 1) with (n - weight c') by (destruct c'; simpl; lia).
    iApply ("IH" $! ((y, sf d k' v' c' b) :: cs) pa a (n - weight c') with "[//] [%] [%] [%] [Hc Hy Hb] Ha").
    + destruct c'; simpl; lia.
    + destruct d; simpl in Hf; lia.
    + constructor; [|done]. by eexists _, _, _, _.
    + rewrite path_at_sf. iExists pb. iFrame.
    + iIntros (cs' z t' (Hs & Hp & Hr & _)). iApply "HQ". iPureIntro.
      split_and!; [done | | done | lia]. rewrite -Hp. by destruct d.
  - wp_step. assert (n = target) as -> by lia.
    iApply ("HQ" $! cs y (sn d a k' v' c' b) with "[//] Hc"). rewrite tree_at_sn. by iFrame.
Qed.

(** A black node on the spine, the root of a subtree of the given black height;
    it is the root of the tree just when the tree has that black height. *)
Lemma wp_joinSpine d target p t n Q :
  rbwf t n → 0 < target ≤ n →
  tree_at p NULL t -∗
  (∀ (cs : lctx) y t',
     ⌜spine d cs.*2 ∧ t = plug cs.*2 t' ∧ rbwf t' target ∧ (cs = [] ↔ n = target)⌝ →
     path_at cs (Some y) p NULL -∗ tree_at (Some y) (cpar cs) t' -∗ Q (Some y)) -∗
  wp (RB.joinSpine (near d) target p n) Q.
Proof.
  iIntros ([Ht Hcol] Hn) "Ht HQ". rewrite /RB.joinSpine. iApply wp_bind.
  wp_while (height t) from tree_at_size "Ht".
  iApply (wp_joinSpineLoop d fuel target [] p p NULL t n with "[//] Ht"); [done.. | constructor |].
  iIntros (cs y t' (Hsp & Hp & Hr & Heq)) "Hc Ht". simpl in Hp.
  destruct (rbt_nonempty _ _ Hr ltac:(lia)) as (l & k & v & c & r & Hnode).
  destruct (node_side d t') as (a & k' & v' & c' & b & ->); [by rewrite Hnode |]. clear Hnode l k v c r.
  rewrite tree_at_sn. iDestruct "Ht" as (? pa pb [= <-]) "(Hy & Ha & Hb)".
  iApply wp_bind. iApply (wp_getColor_node with "Hy"). iIntros "Hy".
  assert (fget (near d) (nd d k' v' (cpar cs) pa pb c') = pa) as Hpa by (by destruct d).
  assert (rb_color (nd d k' v' (cpar cs) pa pb c') = c') as -> by (by destruct d).
  destruct c'; simpl.
  - apply rbt_sn in Hr as (Hra & _ & Hred). simpl in Hra. rewrite Z.sub_0_r in Hra.
    destruct (rbt_nonempty _ _ Hra ltac:(lia)) as (l & k & v & c & r & ->).
    iSimpl in "Ha". iDestruct "Ha" as (z pl pr ->) "Ha". wp_step. rewrite Hpa.
    iApply ("HQ" $! ((y, sf d k' v' RED b) :: cs) z (Node l k v c r) with "[%] [Hc Hy Hb] [Ha]").
    + split_and!.
      * constructor; [|done]. by eexists _, _, _, _.
      * rewrite Hp. by destruct d.
      * split; [done | by apply Hred].
      * split; [done |]. intros He. destruct (Heq He) as [-> <-]. by rewrite rcol_sn in Hcol.
    + rewrite path_at_sf. iExists pb. iFrame.
    + simpl. by iFrame.
  - wp_step. iApply ("HQ" $! cs y (sn d a k' v' BLACK b) with "[%] Hc").
    + split_and!; [done | done | split; [done | apply rcol_sn] |]. split; [|intros He; by destruct (Heq He)].
      intros ->. simpl in Hp. subst t. by apply (rbt_unique _ _ _ Ht).
    + rewrite tree_at_sn. by iFrame.
Qed.

(** ** Joining around a node *)

(** The node [aux] takes two subtrees and is painted red. *)
Lemma wp_attach {A} x (o : rb_node) p n1 n2 q1 q2 t1 t2 (K : M A) Q :
  t1 ≠ Leaf → t2 ≠ Leaf →
  x ↦ o -∗ tree_at n1 q1 t1 -∗ tree_at n2 q2 t2 -∗
  (tree_at (Some x) p (Node t1 (rb_key o) (rb_val o) RED t2) -∗ wp K Q) -∗
  wp (Some x ~> RB.parent ::= p;; RB.setColor (Some x) RED;;
      Some x ~> RB.left ::= n1;; Some x ~> RB.right ::= n2;;
      n1 ~> RB.parent ::= Some x;; n2 ~> RB.parent ::= Some x;; K) Q.
Proof.
  iIntros (H1 H2) "Hx Ht1 Ht2 HQ". wp_step. rb_setColor "Hx". do 2 wp_step.
  destruct t1 as [|l1 k1 v1 c1 r1]; [done |]. destruct t2 as [|l2 k2 v2 c2 r2]; [done |].
  iSimpl in "Ht1 Ht2". iDestruct "Ht1" as (y1 pl1 pr1 ->) "(Hy1 & Hl1 & Hr1)".
  iDestruct "Ht2" as (y2 pl2 pr2 ->) "(Hy2 & Hl2 & Hr2)". do 2 wp_step. iApply "HQ". simpl. by iFrame.
Qed.

Lemma growing_join c t1 t2 k v n top :
  rbc c n top → rbwf t1 n → rbwf t2 n → growing c (Node t1 k v RED t2) top.
Proof.
  intros Hc [H1 Hc1] [H2 Hc2]. split; [done |]. exists n. split; [|done]. simpl.
  rewrite Z.sub_0_r. naive_solver.
Qed.

Lemma rbwf_unplug_at c t n top : rbwf (plug c t) top → rbwf t n → rbc c n top.
Proof. intros (n' & Hc & Ht & _)%rbt_unplug [Ht' _]. by rewrite (rbt_unique t n n'). Qed.

(** The last step: the repair, in the tree that now holds everything. *)
Lemma wp_joinFixup this top c x t1 k v t2 n els Q :
  rbc c.*2 n top → rbwf t1 n → rbwf t2 n → elements (plug c.*2 (Node t1 k v RED t2)) = els →
  hole_at this top c (Some x) (Node t1 k v RED t2) -∗
  (∀ t h, ⌜rbwf t h ∧ elements t = els⌝ → rb_at this h t -∗ Q (Some this)) -∗
  wp (RB.insertFixup (Some this) (Some x);; mret (Some this)) Q.
Proof.
  iIntros (Hc H1 H2 Hel) "Hh HQ". iApply wp_bind. iApply (wp_insertFixup with "Hh").
  { by eapply growing_join. }
  iIntros (t' h' [Hwf Hel']) "Ht". wp_step. iApply ("HQ" with "[%] Ht"). split; [done |]. by rewrite Hel'.
Qed.

Definition rb_spent (s : loc) : hprop := (∃ o : rb_tree, s ↦ o)%I.

Lemma rbwf_nonleaf t n : rbwf t n → 0 < n → t ≠ Leaf.
Proof. intros [Ht _] Hn ->. simpl in Ht. lia. Qed.

Lemma wp_rootParent y q t Q :
  t ≠ Leaf → tree_at y q t -∗ (tree_at y q t -∗ Q q) -∗ wp (y ~> RB.parent) Q.
Proof.
  iIntros (Ht) "Ht HQ". destruct t; [done |]. iSimpl in "Ht".
  iDestruct "Ht" as (z pl pr ->) "(Hz & Hl & Hr)". wp_step. iApply "HQ". simpl. by iFrame.
Qed.

(** [join] when the right tree is at least as tall. *)
Lemma wp_joinAt_left s1 s2 x (o : rb_node) h1 h2 t1 t2 Q :
  rbwf t1 h1 → rbwf t2 h2 → 0 < h1 ≤ h2 →
  rb_at s1 h1 t1 -∗ rb_at s2 h2 t2 -∗ x ↦ o -∗
  (∀ t h, ⌜rbwf t h ∧ elements t = elements t1 ++ (rb_key o, rb_val o) :: elements t2⌝ →
     rb_at s1 h t -∗ rb_spent s2 -∗ Q (Some s1)) -∗
  wp (RB.joinAt (Some s1) (Some s2) (Some x)) Q.
Proof.
  iIntros (H1 H2 Hh) "(%p1 & Hs1 & Ht1) (%p2 & Hs2 & Ht2) Hx HQ".
  rewrite /RB.joinAt. do 4 wp_step. rewrite (proj2 (Z.leb_le h1 h2)); [|lia]. wp_step.
  iApply wp_bind. iApply (wp_joinSpine true with "Ht2"); [done | lia |].
  iIntros (cs y t' (Hsp & -> & Ht' & Heq)) "Hc Ht2". do 2 wp_step.
  rewrite (bool_decide_true (p1 = p1)) //.
  pose proof (rbwf_unplug_at _ _ _ _ H2 Ht') as Hrc.
  assert (t' ≠ Leaf) as Hne2 by (apply (rbwf_nonleaf t' h1); [done | lia]).
  assert (t1 ≠ Leaf) as Hne3 by (apply (rbwf_nonleaf t1 h1); [done | lia]).
  iDestruct (tree_at_ne with "Hx Ht1") as %Hne1.
  iApply wp_bind. iApply wp_bind. iApply (wp_rootParent with "Ht2"); [done |]. iIntros "Ht2".
  assert (elements (plug cs.*2 (Node t1 (rb_key o) (rb_val o) RED t')) =
    elements t1 ++ (rb_key o, rb_val o) :: elements (plug cs.*2 t')) as Hel.
  { rewrite !elements_plug (spine_ctx_l cs.*2) //=. by rewrite -!app_assoc. }
  destruct cs as [|[z f] cs].
  - iDestruct "Hc" as %->. assert (h2 = h1) as -> by by apply Heq. simpl. wp_step.
    iApply (wp_attach with "Hx Ht1 Ht2"); [done | done |]. iIntros "Ht". wp_step.
    rewrite (bool_decide_false (p1 = Some x)) //. rewrite /when /=. do 3 wp_step.
    iApply (wp_joinFixup s1 h1 [] _ _ _ _ _ _ _ _ Hrc H1 Ht' Hel with "[Hs1 Ht]").
    { rewrite /hole_at /rctx_at /=. by iFrame. }
    iIntros (t h Ht) "Ht". iApply ("HQ" with "[//] Ht"). by iExists _.
  - iDestruct (tree_path_ne with "Ht1 Hc") as %Hne.
    apply Forall_cons in Hsp as [(kz & vz & cz & rz & Hf) Hsp]. simpl in Hf. subst f.
    iSimpl in "Hc". iDestruct "Hc" as (q) "(Hz & Hrz & Hc)". simpl. do 3 wp_step.
    iApply (wp_attach with "Hx Ht1 Ht2"); [done | done |]. iIntros "Ht". wp_step.
    rewrite (bool_decide_false (p1 = p2)) //. rewrite /when /=. do 3 wp_step.
    iApply (wp_joinFixup s1 h2 ((z, FL kz vz cz rz) :: cs) _ _ _ _ _ _ _ _ Hrc H1 Ht' Hel
      with "[Hs1 Ht Hc Hz Hrz]").
    { rewrite /hole_at (rctx_at_sf true) /rctx_at. by iFrame. }
    iIntros (t h Ht) "Ht". iApply ("HQ" with "[//] Ht"). by iExists _.
Qed.

(** [join] when the left tree is taller. *)
Lemma wp_joinAt_right s1 s2 x (o : rb_node) h1 h2 t1 t2 Q :
  rbwf t1 h1 → rbwf t2 h2 → 0 < h2 < h1 →
  rb_at s1 h1 t1 -∗ rb_at s2 h2 t2 -∗ x ↦ o -∗
  (∀ t h, ⌜rbwf t h ∧ elements t = elements t1 ++ (rb_key o, rb_val o) :: elements t2⌝ →
     rb_at s1 h t -∗ rb_spent s2 -∗ Q (Some s1)) -∗
  wp (RB.joinAt (Some s1) (Some s2) (Some x)) Q.
Proof.
  iIntros (H1 H2 Hh) "(%p1 & Hs1 & Ht1) (%p2 & Hs2 & Ht2) Hx HQ".
  rewrite /RB.joinAt. do 4 wp_step. rewrite (proj2 (Z.leb_gt h1 h2)); [|lia]. wp_step.
  iApply wp_bind. iApply (wp_joinSpine false with "Ht1"); [done | lia |].
  iIntros (cs y t' (Hsp & -> & Ht' & Heq)) "Hc Ht1". do 2 wp_step.
  pose proof (rbwf_unplug_at _ _ _ _ H1 Ht') as Hrc.
  assert (t' ≠ Leaf) as Hne2 by (apply (rbwf_nonleaf t' h2); [done | lia]).
  assert (t2 ≠ Leaf) as Hne3 by (apply (rbwf_nonleaf t2 h2); [done | lia]).
  destruct cs as [|[z f] cs]; [destruct Heq as [Heq _]; specialize (Heq eq_refl); lia |].
  iDestruct (tree_path_ne with "Ht1 Hc") as %Hne. rewrite (bool_decide_false (Some y = p1)) //.
  iApply wp_bind. iApply wp_bind. iApply (wp_rootParent with "Ht1"); [done |]. iIntros "Ht1".
  assert (elements (plug ((z, f) :: cs).*2 (Node t' (rb_key o) (rb_val o) RED t2)) =
    elements (plug ((z, f) :: cs).*2 t') ++ (rb_key o, rb_val o) :: elements t2) as Hel.
  { rewrite !elements_plug (spine_ctx_r ((z, f) :: cs).*2) // !app_nil_r.
    rewrite -[elements (Node _ _ _ _ _)]/(_ ++ _ :: _). by rewrite !app_assoc. }
  apply Forall_cons in Hsp as [(kz & vz & cz & rz & Hf) Hsp]. simpl in Hf. subst f.
  iSimpl in "Hc". iDestruct "Hc" as (q) "(Hz & Hrz & Hc)". simpl. wp_step; [done |]. do 3 wp_step.
  iApply (wp_attach with "Hx Ht1 Ht2"); [done | done |]. iIntros "Ht". wp_step.
  rewrite (bool_decide_true (p1 = p1)) //. rewrite /when /=. wp_step.
  iApply (wp_joinFixup s1 h1 ((z, FR rz kz vz cz) :: cs) _ _ _ _ _ _ _ _ Hrc Ht' H2 Hel
    with "[Hs1 Ht Hc Hz Hrz]").
  { rewrite /hole_at (rctx_at_sf false) /rctx_at. by iFrame. }
  iIntros (t h Ht) "Ht". iApply ("HQ" with "[//] Ht"). by iExists _.
Qed.

Lemma rbwf_pos t n : rbwf t n → t ≠ Leaf → 0 < n.
Proof. intros [Ht Hc]. destruct t as [|l k v c r]; [done |]. simpl in Hc. subst c. intros _. by eapply rbt_black_pos. Qed.

Lemma wp_joinAt s1 s2 x (o : rb_node) h1 h2 t1 t2 Q :
  rbwf t1 h1 → rbwf t2 h2 → t1 ≠ Leaf → t2 ≠ Leaf →
  rb_at s1 h1 t1 -∗ rb_at s2 h2 t2 -∗ x ↦ o -∗
  (∀ t h, ⌜rbwf t h ∧ elements t = elements t1 ++ (rb_key o, rb_val o) :: elements t2⌝ →
     rb_at s1 h t -∗ rb_spent s2 -∗ Q (Some s1)) -∗
  wp (RB.joinAt (Some s1) (Some s2) (Some x)) Q.
Proof.
  intros H1 H2 Hp1%(rbwf_pos _ _ H1) Hp2%(rbwf_pos _ _ H2). destruct (decide (h1 ≤ h2)).
  - apply wp_joinAt_left; [done..| lia].
  - apply wp_joinAt_right; [done..| lia].
Qed.

(** Neither tree has a node beside its root on the spine that joins them: the
    right root becomes the right child of the left one. *)
Lemma wp_joinRoots s1 h1 h2 x l1 k1 v1 pl1 y k2 v2 r2 pr2 Q :
  rbwf (Node l1 k1 v1 BLACK Leaf) h1 → rbwf (Node Leaf k2 v2 BLACK r2) h2 →
  s1 ↦ RbTree (Some x) h1 -∗ x ↦ RbNode k1 v1 NULL pl1 NULL BLACK -∗ tree_at pl1 (Some x) l1 -∗
  y ↦ RbNode k2 v2 NULL NULL pr2 BLACK -∗ tree_at pr2 (Some y) r2 -∗
  (∀ t h, ⌜rbwf t h ∧ elements t = (elements l1 ++ [(k1, v1)]) ++ (k2, v2) :: elements r2⌝ →
     rb_at s1 h t -∗ Q (Some s1)) -∗
  wp (r ← Some s1 ~> RB.root;
      r ~> RB.right ::= Some y;;
      r ← Some s1 ~> RB.root;
      Some y ~> RB.parent ::= r;;
      RB.setColor (Some y) RED;;
      Some y ~> RB.left ::= NULL;;
      c ← Some y ~> RB.right;
      when (c != NULL) (c ← Some y ~> RB.right; RB.insertFixup (Some s1) c);;
      mret (Some s1)) Q.
Proof.
  iIntros (H1 H2) "Hs1 Hx Hl Hy Hr HQ". do 4 wp_step. rb_setColor "Hy". do 2 wp_step.
  destruct H1 as ((Hl1 & Hr1 & _) & _), H2 as ((Hl2 & Hr2 & _) & _). simpl in *.
  assert (h1 = 1) as -> by lia. assert (h2 = 1) as -> by lia.
  rewrite -app_assoc /=. destruct r2 as [|l k v c r]; rewrite /when.
  - iDestruct "Hr" as %->. rewrite (bool_decide_true (NULL = NULL)) //=. do 2 wp_step.
    iApply ("HQ" $! (Node l1 k1 v1 BLACK (Node Leaf k2 v2 RED Leaf)) 1 with "[%]").
    + split; [|done]. by repeat split.
    + iExists (Some x). iFrame. simpl. by iFrame.
  - iSimpl in "Hr". iDestruct "Hr" as (z pl pr ->) "(Hz & Hl2 & Hr2)". simpl. wp_step.
    iApply (wp_insertFixup s1 1 [(y, FR Leaf k2 v2 RED); (x, FR l1 k1 v1 BLACK)] z (Node l k v c r) with "[-HQ]").
    + destruct c; [|destruct Hr2 as [?%rbt_nonneg _]; simpl in *; lia].
      split; [done |]. exists 0. simpl. split_and!; try done; apply Hr2; done.
    + rewrite /hole_at /rctx_at /=. by iFrame.
    + iIntros (t' h' [Hwf Hel]) "Ht". wp_step. iApply ("HQ" with "[%] Ht"). split; [done |].
      rewrite Hel. done.
Qed.

(** ** join *)

Lemma path_nonleaf (f : rframe) cs t (t' : rtree) : elements t' = elements (plug (f :: cs) t) → t' ≠ Leaf.
Proof.
  intros Hel ->. apply (f_equal length) in Hel. rewrite /= elements_plug !length_app in Hel.
  destruct f; simpl in Hel; rewrite ?length_app /= in Hel; lia.
Qed.

Lemma rb_at_path this h c p t rp :
  this ↦ RbTree rp h -∗ path_at c p rp NULL -∗ tree_at p (cpar c) t -∗ rb_at this h (plug c.*2 t).
Proof. iIntros "Hs Hc Ht". iExists rp. iFrame. iApply (plug_at with "Hc Ht"). Qed.

Lemma nd_key d k v p a b c : rb_key (nd d k v p a b c) = k.
Proof. by destruct d. Qed.
Lemma nd_val d k v p a b c : rb_val (nd d k v p a b c) = v.
Proof. by destruct d. Qed.

(** What [join] returns: one of the two objects, with everything. *)
Definition joined (s1 s2 : loc) (els : list (Z * Z)) (Q : ptr → hprop) : hprop :=
  (∀ s s' t h, ⌜rbwf t h ∧ elements t = els ∧ (s, s') ∈ [(s1, s2); (s2, s1)]⌝ →
     rb_at s h t -∗ rb_spent s' -∗ Q (Some s))%I.

Section join_trees.
Context (s1 s2 : loc) (h1 h2 : Z) (t1 t2 : rtree) (p1 p2 : ptr).
Context (cs1 cs2 : lctx) (y1 y2 : loc) (k1 v1 k2 v2 : Z) (c1 c2 : color) (r1 r2 : rtree) (pr1 pr2 : ptr).
Hypotheses (H1 : rbwf t1 h1) (H2 : rbwf t2 h2).
Hypotheses (Ht1 : t1 = plug cs1.*2 (sn false Leaf k1 v1 c1 r1)) (Hsp1 : spine false cs1.*2).
Hypotheses (Ht2 : t2 = plug cs2.*2 (sn true Leaf k2 v2 c2 r2)) (Hsp2 : spine true cs2.*2).

(** The two trees, each with its last node at the end of a spine. *)
Let left_end : hprop :=
  (s1 ↦ RbTree p1 h1 ∗ path_at cs1 (Some y1) p1 NULL ∗
   y1 ↦ nd false k1 v1 (cpar cs1) NULL pr1 c1 ∗ tree_at pr1 (Some y1) r1)%I.
Let right_end : hprop :=
  (s2 ↦ RbTree p2 h2 ∗ path_at cs2 (Some y2) p2 NULL ∗
   y2 ↦ nd true k2 v2 (cpar cs2) NULL pr2 c2 ∗ tree_at pr2 (Some y2) r2)%I.

Lemma left_end_tree : left_end -∗ rb_at s1 h1 t1.
Proof.
  iIntros "(Hs & Hc & Hy & Hr)". rewrite Ht1. iApply (rb_at_path with "Hs Hc"). rewrite tree_at_sn. by iFrame.
Qed.
Lemma right_end_tree : right_end -∗ rb_at s2 h2 t2.
Proof.
  iIntros "(Hs & Hc & Hy & Hr)". rewrite Ht2. iApply (rb_at_path with "Hs Hc"). rewrite tree_at_sn. by iFrame.
Qed.
Lemma left_nonleaf : t1 ≠ Leaf.
Proof. rewrite Ht1. destruct cs1; [done | by eapply path_nonleaf]. Qed.
Lemma right_nonleaf : t2 ≠ Leaf.
Proof. rewrite Ht2. destruct cs2; [done | by eapply path_nonleaf]. Qed.

Lemma wp_joinLeft Q :
  cs1 ≠ [] → left_end -∗ right_end -∗ joined s1 s2 (elements t1 ++ elements t2) Q -∗
  wp (RB.takeEnd RB.right RB.left (Some s1) (Some y1);; RB.joinAt (Some s1) (Some s2) (Some y1)) Q.
Proof.
  iIntros (Hne) "(Hs & Hc & Hy & Hr) Hright HQ". iDestruct (right_end_tree with "Hright") as "Ht2".
  iApply wp_bind. iApply (wp_takeEnd false s1 h1 cs1 with "[Hs Hc] Hy Hr"); [done | done | by rewrite -Ht1 | |].
  { rewrite /rctx_at. iExists p1. iFrame. }
  iIntros (t' h' [Hwf Hel]) "Ht1 Hy".
  iApply (wp_joinAt with "Ht1 Ht2 Hy"); [done | done | | apply right_nonleaf |].
  { destruct cs1; [done |]. by eapply path_nonleaf. }
  iIntros (t h [Ht Hel']) "Ht Hs2". iApply ("HQ" $! s1 s2 t h with "[%] Ht Hs2").
  split_and!; [done | | set_solver]. rewrite Hel' Hel nd_key nd_val Ht1 (elements_end false) //.
  by rewrite -app_assoc.
Qed.

Lemma wp_joinRight Q :
  cs2 ≠ [] → left_end -∗ right_end -∗ joined s1 s2 (elements t1 ++ elements t2) Q -∗
  wp (RB.takeEnd RB.left RB.right (Some s2) (Some y2);; RB.joinAt (Some s1) (Some s2) (Some y2)) Q.
Proof.
  iIntros (Hne) "Hleft (Hs & Hc & Hy & Hr) HQ". iDestruct (left_end_tree with "Hleft") as "Ht1".
  iApply wp_bind. iApply (wp_takeEnd true s2 h2 cs2 with "[Hs Hc] Hy Hr"); [done | done | by rewrite -Ht2 | |].
  { rewrite /rctx_at. iExists p2. iFrame. }
  iIntros (t' h' [Hwf Hel]) "Ht2 Hy".
  iApply (wp_joinAt with "Ht1 Ht2 Hy"); [done | done | apply left_nonleaf | |].
  { destruct cs2; [done |]. by eapply path_nonleaf. }
  iIntros (t h [Ht Hel']) "Ht Hs2". iApply ("HQ" $! s1 s2 t h with "[%] Ht Hs2").
  split_and!; [done | | set_solver]. by rewrite Hel' Hel nd_key nd_val Ht2 (elements_end true).
Qed.

Lemma wp_joinTrees Q :
  left_end -∗ right_end -∗ joined s1 s2 (elements t1 ++ elements t2) Q -∗
  wp (r ← Some s1 ~> RB.root;
      if Some y1 != r then
        RB.takeEnd RB.right RB.left (Some s1) (Some y1);; RB.joinAt (Some s1) (Some s2) (Some y1)
      else
        rr ← Some s2 ~> RB.root;
        if Some y2 != rr then
          RB.takeEnd RB.left RB.right (Some s2) (Some y2);; RB.joinAt (Some s1) (Some s2) (Some y2)
        else
          r ← Some s1 ~> RB.root;
          r ~> RB.right ::= Some y2;;
          r ← Some s1 ~> RB.root;
          Some y2 ~> RB.parent ::= r;;
          RB.setColor (Some y2) RED;;
          Some y2 ~> RB.left ::= NULL;;
          c ← Some y2 ~> RB.right;
          when (c != NULL) (c ← Some y2 ~> RB.right; RB.insertFixup (Some s1) c);;
          mret (Some s1)) Q.
Proof.
  iIntros "(Hs1 & Hc1 & Hy1 & Hr1) (Hs2 & Hc2 & Hy2 & Hr2) HQ". wp_step.
  destruct (decide (cs1 = [])) as [Hcs1|Hcs1].
  2:{ iAssert (⌜p1 ≠ Some y1⌝)%I as %Hne.
      { destruct cs1 as [|f c]; [done |]. iApply (path_at_ne with "Hy1 Hc1"). }
      rewrite (bool_decide_false (Some y1 = p1)) //=.
      iApply (wp_joinLeft with "[Hs1 Hc1 Hy1 Hr1] [Hs2 Hc2 Hy2 Hr2] HQ"); [done | iFrame..]. }
  iAssert (⌜p1 = Some y1⌝)%I as %Hp1. { rewrite Hcs1. by iDestruct "Hc1" as %->. }
  rewrite (bool_decide_true (Some y1 = p1)) //=. wp_step.
  destruct (decide (cs2 = [])) as [Hcs2|Hcs2].
  2:{ iAssert (⌜p2 ≠ Some y2⌝)%I as %Hne.
      { destruct cs2 as [|f c]; [done |]. iApply (path_at_ne with "Hy2 Hc2"). }
      rewrite (bool_decide_false (Some y2 = p2)) //=.
      iApply (wp_joinRight with "[Hs1 Hc1 Hy1 Hr1] [Hs2 Hc2 Hy2 Hr2] HQ"); [done | iFrame..]. }
  iAssert (⌜p2 = Some y2⌝)%I as %Hp2. { rewrite Hcs2. by iDestruct "Hc2" as %->. }
  rewrite (bool_decide_true (Some y2 = p2)) //=.
  clear left_end right_end. subst cs1 cs2 p1 p2. simpl in Ht1, Ht2. subst t1 t2.
  destruct (conj H1 H2) as [[_ Hb1] [_ Hb2]]. simpl in Hb1, Hb2. subst c1 c2.
  iDestruct "Hc1" as "_". iDestruct "Hc2" as "_".
  iApply (wp_joinRoots with "Hs1 Hy1 Hr1 Hy2 Hr2"); [done | done |].
  iIntros (t h [Hwf Hel]) "Ht". iApply ("HQ" $! s1 s2 t h with "[%] Ht"); [|by iExists _].
  split_and!; [done | done | set_solver].
Qed.
End join_trees.

Lemma wp_rb_join s1 s2 h1 h2 t1 t2 Q :
  rbwf t1 h1 → rbwf t2 h2 → ordered (elements t1 ++ elements t2) →
  rb_at s1 h1 t1 -∗ rb_at s2 h2 t2 -∗ joined s1 s2 (elements t1 ++ elements t2) Q -∗
  wp (RB.join (Some s1) (Some s2)) Q.
Proof.
  iIntros (H1 H2 Hord) "(%p1 & Hs1 & Ht1) (%p2 & Hs2 & Ht2) HQ". rewrite /RB.join. wp_step.
  wp_step; [done |]. wp_step. destruct (decide (t2 = Leaf)) as [->|Hne2].
  { iDestruct "Ht2" as %->. rewrite (bool_decide_true (NULL = NULL)) //. wp_step.
    iApply ("HQ" $! s1 s2 t1 h1 with "[%] [Hs1 Ht1]"); [|iExists p1; iFrame | by iExists _].
    rewrite app_nil_r. split_and!; [done | done | set_solver]. }
  iAssert (⌜p2 ≠ NULL⌝)%I as %Hp2.
  { destruct t2; [done |]. iSimpl in "Ht2". by iDestruct "Ht2" as (? ? ? ->) "_". }
  rewrite (bool_decide_false (p2 = NULL)) //. wp_step. destruct (decide (t1 = Leaf)) as [->|Hne1].
  { iDestruct "Ht1" as %->. rewrite (bool_decide_true (NULL = NULL)) //. wp_step.
    iApply ("HQ" $! s2 s1 t2 h2 with "[%] [Hs2 Ht2]"); [|iExists p2; iFrame | by iExists _].
    split_and!; [done | done | set_solver]. }
  iAssert (⌜p1 ≠ NULL⌝)%I as %Hp1.
  { destruct t1; [done |]. iSimpl in "Ht1". by iDestruct "Ht1" as (? ? ? ->) "_". }
  rewrite (bool_decide_false (p1 = NULL)) //. wp_step. iApply wp_bind. rewrite /RB.tree_maximum.
  iApply (wp_endOfSpine false with "Ht1"); [done |].
  iIntros (cs1 y1 k1 v1 c1 r1 pr1 [Hsp1 Ht1]) "Hc1 Hy1 Hr1". wp_step. iApply wp_bind.
  rewrite /RB.tree_minimum. iApply (wp_endOfSpine true with "Ht2"); [done |].
  iIntros (cs2 y2 k2 v2 c2 r2 pr2 [Hsp2 Ht2]) "Hc2 Hy2 Hr2". do 2 wp_step. wp_step.
  { pose proof Hord as Hord'. rewrite Ht1 Ht2 (elements_end false) // (elements_end true) // in Hord'.
    apply ordered_app in Hord' as (_ & _ & Hlt). apply Z.ltb_lt.
    apply (Hlt (k1, v1) (k2, v2)); set_solver. }
  iApply (wp_joinTrees with "[Hs1 Hc1 Hy1 Hr1] [Hs2 Hc2 Hy2 Hr2] HQ"); [done..| |]; iFrame.
Qed.
