(* ===== verification/RBSplit.v ===== *)
(** * RBSplit: split of the red-black tree *)
From S2P Require Import Prelude Memory SepLogic OrderedSet BinTree BinHeap DictTree.
From S2P Require Import RBSpec RBTree RBProof RBInsert RBErase RBDelete RBJoin.
#[local] Open Scope Z_scope.
#[local] Open Scope cpp_scope.

(** ** split *)

(** A subtree becomes a tree of its own; its root is painted black. *)
Lemma wp_adopt s x q t n Q :
  t ≠ Leaf → rbt t n →
  s ↦ RbTree NULL 0 -∗ tree_at x q t -∗
  (∀ t' h', ⌜rbwf t' h' ∧ elements t' = elements t ∧ t' ≠ Leaf⌝ → s ↦ RbTree x h' -∗ tree_at x NULL t' -∗ Q ()) -∗
  wp (RB.adopt (Some s) x n) Q.
Proof.
  iIntros (Hne Ht) "Hs Ht HQ". rewrite /RB.adopt. destruct t as [|l k v c r]; [done |].
  iSimpl in "Ht". iDestruct "Ht" as (y pl pr ->) "(Hy & Hl & Hr)". do 5 wp_step. rb_getColor "Hy".
  rewrite /when. destruct c; simpl.
  - wp_step. rb_setColor "Hy". do 2 wp_step.
    iApply ("HQ" $! (Node l k v BLACK r) (n + 1) with "[%] Hs").
    + split_and!; [|done..]. split; [|done]. by apply (rbt_recolor_black (Node l k v RED r)).
    + simpl. by iFrame.
  - wp_step. iApply ("HQ" $! (Node l k v BLACK r) n with "[//] Hs"). simpl. by iFrame.
Qed.

(** The removed root becomes the first node of the right tree. *)
Lemma wp_putFirst {A} s h t p x (o : rb_node) k v (K : M A) Q :
  rbwf t h → t ≠ Leaf → rb_key o = k → rb_val o = v →
  s ↦ RbTree p h -∗ tree_at p NULL t -∗ x ↦ o -∗
  (∀ t' h', ⌜rbwf t' h' ∧ elements t' = (k, v) :: elements t⌝ → rb_at s h' t' -∗ wp K Q) -∗
  wp (spineRight ← loop (RB.endOfSpineStep RB.left) p;
      Some x ~> RB.parent ::= spineRight;;
      RB.setColor (Some x) RED;;
      Some x ~> RB.right ::= NULL;;
      Some x ~> RB.left ::= NULL;;
      spineRight ~> RB.left ::= Some x;;
      RB.insertFixup (Some s) (Some x);; K) Q.
Proof.
  iIntros (Hwf Hne <- <-) "Hs Ht Hx HQ". iApply wp_bind. iApply (wp_endOfSpine true with "Ht"); [done |].
  iIntros (cs y ky vy cy r pr [Hsp ->]) "Hc Hy Hr". wp_step. rb_setColor "Hx". do 3 wp_step.
  iApply wp_bind. iApply (wp_insertFixup s h ((y, FL ky vy cy r) :: cs) x (Node Leaf (rb_key o) (rb_val o) RED Leaf)
    with "[Hs Hc Hx Hy Hr]").
  - split; [done |]. exists 0. split; [done |].
    pose proof Hwf as (n & Hc & (Hl & Hr & Hcol) & Hcc)%rbt_unplug. simpl in *.
    assert (n = weight cy) as -> by lia. split_and!; [by rewrite Z.sub_diag in Hr | | done].
    intros ->. split; [by apply Hcol |]. match goal with |- ?c = _ => destruct c eqn:Ec end; [|done]. by specialize (Hcc Ec).
  - rewrite /hole_at /rctx_at /=. by iFrame.
  - iIntros (t' h' [Hwf' Hel]) "Ht". iApply ("HQ" with "[%] Ht"). split; [done |].
    rewrite Hel /= (elements_end true) // !elements_plug spine_ctx_l //=.
Qed.

(** A tree of two nodes: two new trees, and the nodes are freed. *)
Lemma wp_splitTwo s h x y (o o' : rb_node) k1 v1 k2 v2 child Q :
  fget child o = Some y →
  s ↦ RbTree (Some x) h -∗ x ↦ o -∗ y ↦ o' -∗
  (∀ s1 s2, rb_set s1 (dict_insert k1 v1 ∅) -∗ rb_set s2 (dict_insert k2 v2 ∅) -∗ rb_spent s -∗
     Q (k2, Some s1, Some s2)) -∗
  wp (RB.splitTwo (Some s) k1 v1 k2 v2 child) Q.
Proof.
  iIntros (Hch) "Hs Hx Hy HQ". rewrite /RB.splitTwo. iApply wp_bind. iApply wp_rbs_new. iIntros (s1) "H1".
  iApply wp_bind. iApply wp_rbs_new. iIntros (s2) "H2".
  iApply wp_bind. iApply (wp_rbs_insert with "H1"). iIntros "H1".
  iApply wp_bind. iApply (wp_rbs_insert with "H2"). iIntros "H2".
  do 2 wp_step. rewrite Hch. do 4 wp_step. iApply ("HQ" with "H1 H2"). by iExists _.
Qed.

(** What [split] of a set with two keys or more gives. *)
Definition rb_splits (s : loc) (m : gmap Z Z) (Q : Z * ptr * ptr → hprop) : hprop :=
  (∀ k s1 s2 m1 m2, ⌜split_at m k m1 m2⌝ →
     rb_set s1 m1 -∗ rb_set s2 m2 -∗ rb_spent s -∗ Q (k, Some s1, Some s2))%I.

Lemma split_at_two m (t : rtree) k1 v1 k2 v2 :
  dict_of m t → elements t = [(k1, v1); (k2, v2)] →
  split_at m k2 (dict_insert k1 v1 ∅) (dict_insert k2 v2 ∅).
Proof.
  intros Hd Hel.
  destruct (dict_of_split m t k2 v2 [(k1, v1)] [] (Node Leaf k1 v1 BLACK Leaf) (Node Leaf k2 v2 BLACK Leaf))
    as (m1 & m2 & [_ Hm1] & [_ Hm2] & Hs); [done..|]. by rewrite -Hm1 -Hm2 in Hs.
Qed.

(** The root has one child: it is a leaf of the tree. *)
Lemma rbwf_one_child d k v c t h :
  rbwf (sn d Leaf k v c t) h → t ≠ Leaf → ∃ k' v' c', t = Node Leaf k' v' c' Leaf.
Proof.
  intros [Ht Hc]. rewrite rcol_sn in Hc. subst c. apply rbt_sn in Ht as (H0 & Ht & _). simpl in *.
  rewrite H0 in Ht. destruct t as [|l k' v' [] r]; simpl; [done | |].
  - simpl in Ht. destruct Ht as (Hl & Hr & Hc). destruct (Hc eq_refl) as [Hcl Hcr].
    destruct l as [|? ? ? [] ?]; [|done | apply rbt_black_pos in Hl; simpl in *; lia].
    destruct r as [|? ? ? [] ?]; [|done | apply rbt_black_pos in Hr; simpl in *; lia]. by exists k', v', RED.
  - apply rbt_black_pos in Ht. lia.
Qed.

(** The root has two children. *)
Lemma wp_splitRoot s h x l k v r pl pr m Q :
  rbwf (Node l k v BLACK r) h → dict_of m (Node l k v BLACK r) → l ≠ Leaf → r ≠ Leaf →
  s ↦ RbTree (Some x) h -∗ x ↦ RbNode k v NULL pl pr BLACK -∗
  tree_at pl (Some x) l -∗ tree_at pr (Some x) r -∗ rb_splits s m Q -∗
  wp (leftTree ← RB.newTree;
      rightTree ← RB.newTree;
      currBHeight ← Some s ~> RB.blackHeight;
      splitNode ← Some s ~> RB.root;
      splitKey ← splitNode ~> RB.key;
      curr ← Some s ~> RB.root;
      assert_ (curr != NULL);;
      c ← RB.getColor curr;
      assert_ (negb (RB.is_red c));;
      child ← curr ~> RB.right;
      RB.adopt rightTree child (currBHeight - 1);;
      spineRight ← rightTree ~> RB.root;
      child ← curr ~> RB.left;
      RB.adopt leftTree child (currBHeight - 1);;
      spineRight ← loop (RB.endOfSpineStep RB.left) spineRight;
      splitNode ~> RB.parent ::= spineRight;;
      RB.setColor splitNode RED;;
      splitNode ~> RB.right ::= NULL;;
      splitNode ~> RB.left ::= NULL;;
      spineRight ~> RB.left ::= splitNode;;
      RB.insertFixup rightTree splitNode;;
      mret (splitKey, leftTree, rightTree)) Q.
Proof.
  iIntros (Hwf Hd Hl Hr) "Hs Hx Hl Hr HQ". rewrite /RB.newTree.
  iApply wp_bind. iApply wp_new. iIntros (s1) "H1". iApply wp_bind. iApply wp_new. iIntros (s2) "H2".
  do 4 wp_step. wp_step; [done |]. rb_getColor "Hx". wp_step; [done |]. wp_step.
  destruct Hwf as ((Hrl & Hrr & _) & _). simpl in Hrl, Hrr.
  iApply wp_bind. iApply (wp_adopt with "H2 Hr"); [done..|]. iIntros (r' hr (Hwr & Her & Hnr)) "H2 Hr". do 2 wp_step.
  iApply wp_bind. iApply (wp_adopt with "H1 Hl"); [done..|]. iIntros (l' hl (Hwl & Hel & Hnl)) "H1 Hl".
  iApply (wp_putFirst with "H2 Hr Hx"); [done..|]. iIntros (r'' hr' [Hwr' Her']) "H2". wp_step.
  destruct (dict_of_split m _ k v (elements l) (elements r) l' r'' Hd) as (m1 & m2 & H1 & H2 & Hs); [done| |done| |].
  { destruct l; [done |]. simpl. by destruct (elements l1). }
  { by rewrite Her' Her. }
  iApply ("HQ" $! k s1 s2 m1 m2 with "[//] [H1 Hl] [H2] [Hs]").
  - iExists l', hl. iSplit; [done |]. iExists pl. iFrame.
  - iExists r'', hr'. by iFrame.
  - by iExists _.
Qed.

Lemma wp_rbs_split s m Q :
  rb_set s m -∗
  ((⌜(size m ≤ 1)%nat⌝ → rb_set s m -∗ Q (invalid_key, NULL, NULL)) ∧
   (⌜(1 < size m)%nat⌝ → rb_splits s m Q)) -∗
  wp (RB.split (Some s)) Q.
Proof.
  iIntros "(%t & %h & [%Hwf %Hd] & %p & Hs & Ht) HQ". rewrite /RB.split. wp_step.
  rewrite (dict_of_size m t) //.
  destruct t as [|l k v c r]; iSimpl in "Ht".
  { iDestruct "Ht" as %->. rewrite (bool_decide_true (NULL = NULL)) //. wp_step.
    iDestruct "HQ" as "[HQ _]". iApply ("HQ" with "[%]"); [simpl; lia |].
    iExists Leaf, h. iSplit; [done |]. iExists NULL. by iFrame. }
  iDestruct "Ht" as (x pl pr ->) "(Hx & Hl & Hr)". simpl. do 2 wp_step.
  pose proof (proj2 Hwf) as Hc. simpl in Hc. subst c.
  iAssert (⌜l = Leaf ↔ pl = NULL⌝)%I as %Hpl.
  { destruct l; iSimpl in "Hl"; [by iDestruct "Hl" as %-> | by iDestruct "Hl" as (? ? ? ->) "_"]. }
  iAssert (⌜r = Leaf ↔ pr = NULL⌝)%I as %Hpr.
  { destruct r; iSimpl in "Hr"; [by iDestruct "Hr" as %-> | by iDestruct "Hr" as (? ? ? ->) "_"]. }
  destruct (decide (l = Leaf)) as [Hl|Hl], (decide (r = Leaf)) as [Hr|Hr].
  - rewrite (bool_decide_true (pl = NULL)) ?(bool_decide_true (pr = NULL)) //=; [|tauto..]. wp_step.
    subst l r. iDestruct "HQ" as "[HQ _]". iApply ("HQ" with "[%]"); [simpl; lia |].
    iExists (Node Leaf k v BLACK Leaf), h. iSplit; [done |]. iExists (Some x). iFrame. simpl. by iFrame.
  - rewrite (bool_decide_true (pl = NULL)) ?(bool_decide_false (pr = NULL)) //=; [|tauto..].
    iDestruct "HQ" as "[_ HQ]".
    destruct (rbwf_one_child true k v BLACK r h) as (k' & v' & c' & ->); [by subst l | done |]. subst l.
    iSimpl in "Hr". iDestruct "Hr" as (y ? ? ->) "(Hy & -> & ->)". iDestruct "Hl" as "_". do 4 wp_step.
    iApply (wp_splitTwo with "Hs Hx Hy"); [done |]. iIntros (s1 s2) "H1 H2 Hs".
    iApply ("HQ" with "[%] [%] H1 H2 Hs"); [simpl; lia |]. by apply (split_at_two m (Node Leaf k v BLACK (Node Leaf k' v' c' Leaf))).
  - rewrite (bool_decide_false (pl = NULL)) ?(bool_decide_true (pr = NULL)) //=; [|tauto..].
    iDestruct "HQ" as "[_ HQ]".
    destruct (rbwf_one_child false k v BLACK l h) as (k' & v' & c' & ->); [by subst r | done |]. subst r.
    iSimpl in "Hl". iDestruct "Hl" as (y ? ? ->) "(Hy & -> & ->)". iDestruct "Hr" as "_". do 4 wp_step.
    iApply (wp_splitTwo with "Hs Hx Hy"); [done |]. iIntros (s1 s2) "H1 H2 Hs".
    iApply ("HQ" with "[%] [%] H1 H2 Hs"); [simpl; lia |]. by apply (split_at_two m (Node (Node Leaf k' v' c' Leaf) k v BLACK Leaf)).
  - rewrite (bool_decide_false (pl = NULL)) ?(bool_decide_false (pr = NULL)) //=; [|tauto..].
    iDestruct "HQ" as "[_ HQ]".
    iApply (wp_splitRoot with "Hs Hx Hl Hr [HQ]"); [done..|]. iApply "HQ". iPureIntro.
    destruct l; [done |]. simpl. lia.
Qed.
