(* ===== verification/RBSet.v ===== *)
(** * RBSet: the contracts of the red-black tree

    [rb_set s m] holds between the methods: [m] is the dictionary, the tree is
    ordered and satisfies the red-black invariant, and [blackHeight] is right.
    Two methods do not free what they take out: [erase] leaves the node of the
    erased key in the store ([leaked]), and after [join] and [split] one of the
    objects keeps stale members ([rb_spent]). *)
From S2P Require Import Prelude Memory SepLogic OrderedSet BinTree BinHeap DictTree.
From S2P Require Import RBSpec RBTree RBProof RBInsert RBErase RBDelete RBJoin RBSplit.
#[local] Open Scope Z_scope.
#[local] Open Scope cpp_scope.

(** ** Totals and the self-check *)

(** A recursive traversal from the root gets enough fuel. *)
Ltac wp_walk :=
  iIntros "(%t & %h & [%Hwf %Hd] & %p & Hs & Ht) HQ";
  match goal with _ : rbwf ?t _ |- _ => iApply (wp_with_fuel (height t)) end; iSplit;
  [iApply (at_least_weaken with "[-]"); [|iApply (tree_at_size with "Ht")];
   apply height_le_tsize |];
  let fuel := fresh "fuel" in let Hf := fresh "Hfuel" in
  iIntros (fuel Hf); wp_step.

Lemma size_t_sum a b c : size_t (a + size_t b + size_t c) = size_t (a + b + c).
Proof.
  rewrite /size_t Zplus_mod_idemp_r. replace (a + b mod 2 ^ 64 + c) with (a + c + b mod 2 ^ 64) by lia.
  rewrite Zplus_mod_idemp_r. f_equal. lia.
Qed.

Lemma wp_rb_sumHelper t p par fuel Q :
  (height t < fuel)%nat →
  tree_at p par t -∗ (tree_at p par t -∗ Q (size_t (tsum id t))) -∗ wp (RB.sumOfKeysHelper fuel p) Q.
Proof.
  iIntros (Hf) "Ht HQ". iInduction t as [|l IHl k v b r IHr] forall (fuel Hf p par Q);
    (destruct fuel as [|fuel]; [lia |]); simpl.
  - iDestruct "Ht" as %->. simpl. wp_step. by iApply "HQ".
  - iDestruct "Ht" as (x pl pr ->) "(Hx & Hl & Hr)". simpl. do 2 wp_step.
    iApply wp_bind. iApply ("IHl" with "[%] Hl"); [simpl in *; lia |]. iIntros "Hl". wp_step.
    iApply wp_bind. iApply ("IHr" with "[%] Hr"); [simpl in *; lia |]. iIntros "Hr". wp_step.
    rewrite size_t_sum.
    iApply "HQ". iExists x, pl, pr. by iFrame.
Qed.

Lemma wp_rb_numHelper t p par fuel Q :
  (height t < fuel)%nat →
  tree_at p par t -∗ (tree_at p par t -∗ Q (size_t (tsum (λ _, 1) t))) -∗ wp (RB.numKeysHelper fuel p) Q.
Proof.
  iIntros (Hf) "Ht HQ". iInduction t as [|l IHl k v b r IHr] forall (fuel Hf p par Q);
    (destruct fuel as [|fuel]; [lia |]); simpl.
  - iDestruct "Ht" as %->. simpl. wp_step. by iApply "HQ".
  - iDestruct "Ht" as (x pl pr ->) "(Hx & Hl & Hr)". simpl. wp_step.
    iApply wp_bind. iApply ("IHl" with "[%] Hl"); [simpl in *; lia |]. iIntros "Hl". wp_step.
    iApply wp_bind. iApply ("IHr" with "[%] Hr"); [simpl in *; lia |]. iIntros "Hr". wp_step.
    rewrite size_t_sum.
    iApply "HQ". iExists x, pl, pr. by iFrame.
Qed.

Lemma wp_calcBlackHeight t n p par fuel Q :
  rbt t n → (height t < fuel)%nat →
  tree_at p par t -∗ (tree_at p par t -∗ Q (n + 1)) -∗ wp (RB.calcBlackHeight fuel p) Q.
Proof.
  iIntros (Ht Hf) "Ht HQ". iInduction t as [|l IHl k v b r IHr] forall (fuel Hf n Ht p par Q);
    (destruct fuel as [|fuel]; [lia |]); simpl in *.
  - iDestruct "Ht" as %->. subst n. simpl. wp_step. by iApply "HQ".
  - iDestruct "Ht" as (x pl pr ->) "(Hx & Hl & Hr)". destruct Ht as (Hl & Hr & _).
    pose proof (rbt_nonneg _ _ Hl). simpl. wp_step.
    iApply wp_bind. iApply ("IHl" with "[%] [//] Hl"); [lia |]. iIntros "Hl".
    rewrite (proj2 (Z.eqb_neq (n - weight b + 1) 0)); [|lia]. wp_step.
    iApply wp_bind. iApply ("IHr" with "[%] [//] Hr"); [lia |]. iIntros "Hr".
    rewrite (proj2 (Z.eqb_neq (n - weight b + 1) 0)); [|lia]. wp_step; [done |]. wp_step; [done |].
    rewrite Z.eqb_refl /=. do 2 wp_step.
    replace (n - weight b + 1 + (if RB.is_red b then 0 else 1)) with (n + 1) by (destruct b; simpl; lia).
    iApply "HQ". iExists x, pl, pr. by iFrame.
Qed.

Lemma wp_rbs_sumOfKeys s m Q :
  rb_set s m -∗ (rb_set s m -∗ Q (size_t (dict_sum id m))) -∗ wp (RB.sumOfKeys (Some s)) Q.
Proof.
  rewrite /RB.sumOfKeys. wp_walk. iApply (wp_rb_sumHelper with "Ht"); [done |]. iIntros "Ht".
  rewrite (dict_of_sum m t) //. iApply "HQ". iExists t, h. iSplit; [done |]. iExists p. iFrame.
Qed.

Lemma wp_rbs_numKeys s m Q :
  rb_set s m -∗ (rb_set s m -∗ Q (size_t (Z.of_nat (size m)))) -∗ wp (RB.numKeys (Some s)) Q.
Proof.
  rewrite /RB.numKeys. wp_walk. iApply (wp_rb_numHelper with "Ht"); [done |]. iIntros "Ht".
  rewrite (dict_of_size m t) // tsum_one. iApply "HQ". iExists t, h. iSplit; [done |]. iExists p. iFrame.
Qed.

(** ** join on dictionaries *)

Lemma wp_rbs_join s1 s2 m1 m2 Q :
  dict_before m1 m2 →
  rb_set s1 m1 -∗ rb_set s2 m2 -∗
  (∀ s s', ⌜(s, s') ∈ [(s1, s2); (s2, s1)]⌝ → rb_set s (m1 ∪ m2) -∗ rb_spent s' -∗ Q (Some s)) -∗
  wp (RB.join (Some s1) (Some s2)) Q.
Proof.
  iIntros (Hb) "(%t1 & %h1 & [%H1 %Hd1] & Ht1) (%t2 & %h2 & [%H2 %Hd2] & Ht2) HQ".
  assert (ordered (elements t1 ++ elements t2)) as Hord.
  { apply ordered_app. split_and!; [apply Hd1 | apply Hd2 |].
    intros [k1 v1] [k2 v2] Hin1 Hin2.
    apply (Hb k1 k2); eapply dict_of_keys; try done; by eexists. }
  iApply (wp_rb_join with "Ht1 Ht2"); [done..|]. iIntros (s s' t h (Hwf & Hel & Hss)) "Ht Hs'".
  iApply ("HQ" with "[//] [Ht] Hs'"). iExists t, h. iFrame. iPureIntro. split; [done |].
  by apply (dict_of_union m1 m2 t1 t2).
Qed.

(** ** Sequences of operations *)

#[global] Instance rb_oset : IOrderedSet := {
  oset_new := RB.newTree;
  oset_find := RB.find;
  oset_insert := RB.insert;
  oset_erase := RB.erase;
  oset_numKeys := RB.numKeys;
  oset_sumOfKeys := RB.sumOfKeys;
  oset_join := RB.join;
  oset_split := RB.split;
  oset_delete := RB.deleteTree;
}.

(** The nodes that a sequence of operations leaks: one for each erased key. *)
Fixpoint leaks (m : gmap Z Z) (ops : list set_op) : hprop :=
  match ops with
  | [] => emp
  | op :: ops =>
      (match op with OpErase k => leaked (m !! k) | _ => emp end) ∗ leaks (dict_op m op).2 ops
  end%I.

Lemma wp_rb_run_ops s m ops Q :
  rb_set s m -∗
  (rb_set s (dict_ops m ops).2 -∗ leaks m ops -∗ Q (dict_ops m ops).1) -∗
  wp (run_ops (OS := rb_oset) (Some s) ops) Q.
Proof.
  iIntros "Hs HQ". iInduction ops as [|op ops IH] forall (m Q); simpl.
  { wp_step. by iApply ("HQ" with "Hs"). }
  iAssert (∀ Q', (∀ r, <affine> ⌜r = (dict_op m op).1⌝ -∗ rb_set s (dict_op m op).2 -∗
      (match op with OpErase k => leaked (m !! k) | _ => emp end) -∗ Q' r) -∗
      wp (run_op (OS := rb_oset) (Some s) op) Q')%I with "[Hs]" as "Hop".
  { iIntros (Q') "HQ". destruct op as [k|k v|k]; simpl.
    - iApply (wp_rbs_find with "Hs"). iIntros "Hs". by iApply ("HQ" with "[//] Hs").
    - iApply (wp_rbs_insert with "Hs"). iIntros "Hs". by iApply ("HQ" with "[//] Hs").
    - iApply (wp_rbs_erase with "Hs"). iIntros "Hs Hl". by iApply ("HQ" with "[//] Hs"). }
  iApply wp_bind. iApply "Hop". iIntros (r ->) "Hs Hl". destruct (dict_op m op) as [r m']. simpl.
  iApply wp_bind. iApply ("IH" with "Hs"). iIntros "Hs Hls".
  destruct (dict_ops m' ops) as [rs m'']. simpl. wp_step. iApply ("HQ" with "Hs"). iFrame.
Qed.

(** ** Contracts *)

Lemma rbwf_log t h :
  rbwf t h → 0 ≤ h ≤ Z.log2 (Z.of_nat (tsize t) + 1) ∧
    Z.of_nat (height t) ≤ 2 * Z.log2 (Z.of_nat (tsize t) + 1).
Proof.
  intros [Ht Hc]. pose proof (rbt_nonneg _ _ Ht). pose proof (rbt_height _ _ Ht) as Hh.
  rewrite Hc /= in Hh.
  pose proof (proj1 (Z.log2_le_pow2 (Z.of_nat (tsize t) + 1) h ltac:(lia)) (rbt_size _ _ Ht)). lia.
Qed.

(** C22: refinement: any sequence of [find], [insert] and [erase] on a new
    [RedBlackTree] runs without a fault, returns what the same sequence
    returns on a finite dictionary, leaves a red-black search tree for the
    final dictionary, and leaks exactly one node for each erased key. *)
Theorem rb_session_refines (ops : list set_op) :
  ⦃ emp ⦄
    (s ← RB.newTree; rs ← run_ops (OS := rb_oset) s ops; mret (s, rs))
  ⦃ r, ∃ s, <affine> ⌜r = (Some s, (dict_ops ∅ ops).1)⌝ ∗ rb_set s (dict_ops ∅ ops).2 ∗ leaks ∅ ops ⦄.
Proof.
  apply hoare_wp. iIntros "_". iApply wp_bind. iApply wp_rbs_new. iIntros (s) "Hs". iApply wp_bind.
  iApply (wp_rb_run_ops with "Hs"). iIntros "Hs Hl". wp_step. iExists s. by iFrame.
Qed.

(** C23: [RedBlackTree::insert] adds the pair when the key is absent, changes
    nothing when it is present, returns the value found before and restores
    the red-black invariant and the stored black height. *)
Theorem rb_insert_correct s m k v :
  ⦃ rb_set s m ⦄
    RB.insert (Some s) k v
  ⦃ r, <affine> ⌜r = dict_find m k⌝ ∗ rb_set s (dict_insert k v m) ⦄.
Proof. apply hoare_wp. iIntros "Hs". iApply (wp_rbs_insert with "Hs"). by iIntros "$". Qed.

(** C24: [RedBlackTree::erase] removes the key, returns the value found and
    restores the red-black invariant and the stored black height; the node of
    the key stays allocated. *)
Theorem rb_erase_correct s m k :
  ⦃ rb_set s m ⦄
    RB.erase (Some s) k
  ⦃ r, <affine> ⌜r = dict_find m k⌝ ∗ rb_set s (delete k m) ∗ leaked (m !! k) ⦄.
Proof. apply hoare_wp. iIntros "Hs". iApply (wp_rbs_erase with "Hs"). iIntros "$ $". done. Qed.

(** C25: [RedBlackTree::join] of two trees, every key of the first below every
    key of the second: one of the two objects is returned with the union and
    the red-black invariant; the other keeps stale members. *)
Theorem rb_join_correct s1 s2 m1 m2 (Hbefore : dict_before m1 m2) :
  ⦃ rb_set s1 m1 ∗ rb_set s2 m2 ⦄
    RB.join (Some s1) (Some s2)
  ⦃ r, ∃ s s', <affine> ⌜r = Some s ∧ (s, s') ∈ [(s1, s2); (s2, s1)]⌝ ∗
         rb_set s (m1 ∪ m2) ∗ rb_spent s' ⦄.
Proof.
  apply hoare_wp. iIntros "[H1 H2]". iApply (wp_rbs_join with "H1 H2"); [done |].
  iIntros (s s' Hss) "Hs Hs'". iExists s, s'. by iFrame.
Qed.

Lemma rb_join_correct_witness :
  ⦃ rb_set 1 {[1 := 10]} ∗ rb_set 2 {[5 := 50]} ⦄
    RB.join (Some 1%positive) (Some 2%positive)
  ⦃ r, ∃ s s', <affine> ⌜r = Some s ∧ (s, s') ∈ [(1%positive, 2%positive); (2%positive, 1%positive)]⌝ ∗
         rb_set s ({[1 := 10]} ∪ {[5 := 50]}) ∗ rb_spent s' ⦄.
Proof.
  apply (rb_join_correct 1 2 {[1 := 10]} {[5 := 50]}).
  intros x y [? [<- _]%lookup_singleton_Some] [? [<- _]%lookup_singleton_Some]. lia.
Defined.

(** C26: [RedBlackTree::split] of a tree with at most one key reports
    [INVALID_KEY] and changes nothing; otherwise it returns a key of the tree
    and two new red-black trees, the first with exactly the smaller keys, both
    not empty. *)
Theorem rb_split_correct s m :
  ⦃ rb_set s m ⦄
    RB.split (Some s)
  ⦃ r, (<affine> ⌜(size m ≤ 1)%nat ∧ r = (RB.INVALID_KEY, NULL, NULL)⌝ ∗ rb_set s m) ∨
         (∃ k s1 s2 m1 m2, <affine> ⌜(1 < size m)%nat ∧ r = (k, Some s1, Some s2)⌝ ∗
            <affine> ⌜split_at m k m1 m2⌝ ∗ rb_set s1 m1 ∗ rb_set s2 m2 ∗ rb_spent s) ⦄.
Proof.
  apply hoare_wp. iIntros "Hs". iApply (wp_rbs_split with "Hs"). iSplit.
  - iIntros (Hm) "Hs". iLeft. by iFrame.
  - iIntros (Hm). rewrite /rb_splits. iIntros (k s1 s2 m1 m2 Hsp) "H1 H2 Hs". iRight.
    iExists k, s1, s2, m1, m2. by iFrame.
Qed.

(** C27: [verifyBlackHeight] finds equal black heights on all paths of every
    tree the methods build, one more than the stored [blackHeight]; the black
    height is at most the logarithm of the number of keys, and the height at
    most twice the logarithm. *)
Theorem rb_black_height s m :
  ⦃ rb_set s m ⦄
    (v ← RB.verifyBlackHeight (Some s); h ← Some s ~> RB.blackHeight; mret (v, h))
  ⦃ r, ∃ (h : Z) t, <affine> ⌜r = ((h + 1)%Z, h) ∧ rbwf t h ∧ dict_of m t ∧
           0 ≤ h ≤ Z.log2 (Z.of_nat (size m) + 1) ∧
           Z.of_nat (height t) ≤ 2 * Z.log2 (Z.of_nat (size m) + 1)⌝ ∗ rb_at s h t ⦄.
Proof.
  apply hoare_wp. iIntros "(%t & %h & [%Hwf %Hd] & %p & Hs & Ht)". iApply wp_bind.
  rewrite /RB.verifyBlackHeight. iApply (wp_with_fuel (height t)). iSplit.
  { iApply (at_least_weaken with "[-]"); [|iApply (tree_at_size with "Ht")]. apply height_le_tsize. }
  iIntros (fuel Hf). wp_step. iApply (wp_calcBlackHeight t h with "Ht"); [apply Hwf | done |].
  iIntros "Ht". do 2 wp_step. iExists h, t. iSplit; [|iExists p; iFrame]. iPureIntro.
  rewrite (dict_of_size m t) //. destruct (rbwf_log t h Hwf). split_and!; try done; lia.
Qed.

(** [numKeys] and [sumOfKeys] compute the number and the sum of the keys in
    [size_t] arithmetic. *)
Lemma rb_counts_correct s m :
  ⦃ rb_set s m ⦄
    (n ← RB.numKeys (Some s); k ← RB.sumOfKeys (Some s); mret (n, k))
  ⦃ r, <affine> ⌜r = (Z.of_nat (size m) mod 2 ^ 64, dict_sum id m mod 2 ^ 64)⌝ ∗ rb_set s m ⦄.
Proof.
  apply hoare_wp. iIntros "Hs". iApply wp_bind. iApply (wp_rbs_numKeys with "Hs").
  iIntros "Hs". iApply wp_bind. iApply (wp_rbs_sumOfKeys with "Hs"). iIntros "Hs".
  wp_step. by iFrame.
Qed.
