(* ===== verification/GsatMap.v ===== *)
(** * GsatMap: the interface of the sequential maps of [cpp/gsat/ds]

    The splay tree and the B-tree have the same methods, [Find], [Insert] and
    [Delete], which return the constructor's [no_value] for an absent key.
    [MapOps] collects them, [MapLaws] says what they promise, and the session
    of a client is proved against the laws. *)
From S2P Require Import Prelude Memory SepLogic OrderedSet.
#[local] Open Scope Z_scope.

Class MapOps := {
  map_new : Z → M ptr;
  map_Find : ptr → Z → M Z;
  map_Insert : ptr → Z → Z → M Z;
  map_Delete : ptr → Z → M Z;
  map_Validate : ptr → M bool;
  map_delete : ptr → M unit;
}.

(** What each method returns: the value before the call. *)
Definition value_or (nv : Z) (m : gmap Z Z) (k : Z) : Z := default nv (m !! k).

(** The bounds that [Validate] passes down; a null pointer is no bound. *)
Definition bounded (lo hi : option Z) (k : Z) : Prop :=
  from_option (λ lo, lo < k) True lo ∧ from_option (λ hi, k < hi) True hi.

(** No key is mapped to [no_value]. *)
Definition no_reserved (nv : Z) (m : gmap Z Z) : Prop := ∀ k, m !! k ≠ Some nv.

(** [is_map s nv m]: the object at [s], created with [no_value = nv], stands for
    [m].  [fits m op]: the operation is within the limits of the implementation
    (its depth or its range of keys). *)
Class MapLaws (S : MapOps) := {
  is_map : loc → Z → gmap Z Z → hprop;
  fits : gmap Z Z → set_op → Prop;

  map_new_law nv Q : (∀ s, is_map s nv ∅ -∗ Q (Some s)) ⊢ wp (map_new nv) Q;
  map_Find_law s nv m k Q :
    is_map s nv m -∗ (is_map s nv m -∗ Q (value_or nv m k)) -∗ wp (map_Find (Some s) k) Q;
  map_Insert_law s nv m k v Q :
    fits m (OpInsert k v) →
    is_map s nv m -∗ (is_map s nv (dict_insert k v m) -∗ Q (value_or nv m k)) -∗
    wp (map_Insert (Some s) k v) Q;
  map_Delete_law s nv m k Q :
    fits m (OpErase k) →
    is_map s nv m -∗ (is_map s nv (delete k m) -∗ Q (value_or nv m k)) -∗
    wp (map_Delete (Some s) k) Q;
  map_delete_law s nv m Q : is_map s nv m -∗ Q () -∗ wp (map_delete (Some s)) Q;
}.

(** The self-check accepts what the methods build. *)
Class MapChecked (S : MapOps) `{!MapLaws S} := {
  map_Validate_law s nv m Q :
    no_reserved nv m →
    is_map s nv m -∗ (is_map s nv m -∗ Q true) -∗ wp (map_Validate (Some s)) Q;
}.

(** ** Sessions *)

Definition map_op (nv : Z) (m : gmap Z Z) (op : set_op) : Z * gmap Z Z :=
  match op with
  | OpFind k => (value_or nv m k, m)
  | OpInsert k v => (value_or nv m k, dict_insert k v m)
  | OpErase k => (value_or nv m k, delete k m)
  end.
Fixpoint map_ops (nv : Z) (m : gmap Z Z) (ops : list set_op) : list Z * gmap Z Z :=
  match ops with
  | [] => ([], m)
  | op :: ops =>
      let '(r, m) := map_op nv m op in
      let '(rs, m) := map_ops nv m ops in (r :: rs, m)
  end.

Section sessions.
Context {S : MapOps} {Laws : MapLaws S}.

Definition run_map_op (s : ptr) (op : set_op) : M Z :=
  match op with
  | OpFind k => map_Find s k
  | OpInsert k v => map_Insert s k v
  | OpErase k => map_Delete s k
  end.
Fixpoint run_map_ops (s : ptr) (ops : list set_op) : M (list Z) :=
  match ops with
  | [] => mret []
  | op :: ops => r ← run_map_op s op; rs ← run_map_ops s ops; mret (r :: rs)
  end.
Definition map_session (nv : Z) (ops : list set_op) : M (list Z) :=
  s ← map_new nv; rs ← run_map_ops s ops; map_delete s;; mret rs.

(** The dictionaries that a sequence of operations passes through. *)
Fixpoint all_fit (nv : Z) (m : gmap Z Z) (ops : list set_op) : Prop :=
  match ops with
  | [] => True
  | op :: ops => fits m op ∧ all_fit nv (map_op nv m op).2 ops
  end.

Lemma wp_run_map_ops s nv m ops Q :
  all_fit nv m ops →
  is_map s nv m -∗ (is_map s nv (map_ops nv m ops).2 -∗ Q (map_ops nv m ops).1) -∗
  wp (run_map_ops (Some s) ops) Q.
Proof.
  iIntros (Hf) "Hs HQ". iInduction ops as [|op ops IH] forall (m Q Hf); simpl in *.
  { wp_step. by iApply "HQ". }
  destruct Hf as [Hm Hf]. iApply wp_bind.
  iAssert (∀ Q', (is_map s nv (map_op nv m op).2 -∗ Q' (map_op nv m op).1) -∗
    wp (run_map_op (Some s) op) Q')%I with "[Hs]" as "Hop".
  { iIntros (Q') "HQ". destruct op; simpl;
      [iApply (map_Find_law with "Hs HQ") | by iApply (map_Insert_law with "Hs HQ") |
       by iApply (map_Delete_law with "Hs HQ")]. }
  iApply "Hop". iIntros "Hs". destruct (map_op nv m op) as [r m']. simpl in *. iApply wp_bind.
  iApply ("IH" with "[//] Hs"). iIntros "Hs". destruct (map_ops nv m' ops) as [rs m'']. simpl.
  wp_step. by iApply "HQ".
Qed.

(** From the empty store a session returns what the dictionary returns, and
    leaves the store empty. *)
Lemma map_session_refines nv ops :
  all_fit nv ∅ ops → map_session nv ops ∅ = Ok (map_ops nv ∅ ops).1 ∅.
Proof.
  intros Hf. apply wp_closed. rewrite /map_session. iIntros "_".
  iApply wp_bind. iApply map_new_law. iIntros (s) "Hs".
  iApply wp_bind. iApply (wp_run_map_ops with "Hs"); [done |]. iIntros "Hs".
  iApply wp_bind. iApply (map_delete_law with "Hs"). by wp_step.
Qed.
End sessions.
