(* ===== verification/SplayModel.v ===== *)
(** * SplayModel: the splay tree

    Translation of [cpp/gsat/ds/splay_tree/splay_tree.h], [splay_node.h] and
    [splay_node_handler.h], and of the adapter [cpp/ds/splay_tree/adapter.h]
    with [Key = Value = Z].  [this] is the address of the [SplayTree] object.
    Code that the source writes twice, for the two sides, is one definition
    over the two child members. *)
From S2P Require Import Prelude Memory.
#[local] Open Scope Z_scope.
#[local] Open Scope cpp_scope.

Module Splay.

Definition key : field splay_node Z := Field sp_key (λ x n,
  SplayNode x n.(sp_value) n.(sp_left) n.(sp_right) n.(sp_parent)).
Definition value : field splay_node Z := Field sp_value (λ x n,
  SplayNode n.(sp_key) x n.(sp_left) n.(sp_right) n.(sp_parent)).
Definition left : field splay_node ptr := Field sp_left (λ x n,
  SplayNode n.(sp_key) n.(sp_value) x n.(sp_right) n.(sp_parent)).
Definition right : field splay_node ptr := Field sp_right (λ x n,
  SplayNode n.(sp_key) n.(sp_value) n.(sp_left) x n.(sp_parent)).
Definition parent : field splay_node ptr := Field sp_parent (λ x n,
  SplayNode n.(sp_key) n.(sp_value) n.(sp_left) n.(sp_right) x).
Definition no_value_ : field splay_tree Z := Field spt_no_value (λ x t, SplayTree x t.(spt_root)).
Definition root_ : field splay_tree ptr := Field spt_root (λ x t, SplayTree t.(spt_no_value) x).

(** [new Node(key, value)] *)
Definition newNode (k v : Z) : M ptr := new (SplayNode k v NULL NULL NULL).

(** The constructor *)
Definition newTree (no_value : Z) : M ptr := new (SplayTree no_value NULL).

(** ** Pointer helpers *)

Definition GetChild (side : field splay_node ptr) (node : ptr) : M ptr :=
  if node != NULL then node ~> side else mret NULL.
Definition GetRight (node : ptr) : M ptr := GetChild right node.
Definition GetParent (node : ptr) : M ptr :=
  if node != NULL then node ~> parent else mret NULL.
Definition SetParent (node p : ptr) : M unit := when (node != NULL) (node ~> parent ::= p).

(** [SetLeft] and [SetRight] *)
Definition SetChild (side : field splay_node ptr) (node c : ptr) : M unit :=
  when (node != NULL) (node ~> side ::= c);;
  SetParent c node.
Definition SetLeft (node c : ptr) : M unit := SetChild left node c.
Definition SetRight (node c : ptr) : M unit := SetChild right node c.

(** ** Rotations *)

Definition UpdateParents (p node : ptr) : M unit :=
  grand_parent ← GetParent p;
  r ← GetRight grand_parent;
  (if r == p then SetRight grand_parent node else SetLeft grand_parent node);;
  SetParent p node.

(** [RotateRight] is [rotate left right], [RotateLeft] is [rotate right left]:
    [node], the child [near] of its parent, takes the parent's place. *)
Definition rotate (near far : field splay_node ptr) (node : ptr) : M unit :=
  assert_ (node != NULL);;
  p ← node ~> parent;
  UpdateParents p node;;
  c ← node ~> far;
  SetChild near p c;;
  SetChild far node p.
Definition RotateRight (node : ptr) : M unit := rotate left right node.
Definition RotateLeft (node : ptr) : M unit := rotate right left node.

(** ** Splaying *)

Definition SplayStep (node : ptr) : M (ptr + unit) :=
  p ← GetParent node;
  if p == NULL then break ()
  else
    p ← node ~> parent;
    grand_parent ← GetParent p;
    pr ← p ~> right;
    (if grand_parent != NULL then
       if pr == node then
         gr ← grand_parent ~> right;
         if gr == p then RotateLeft p;; RotateLeft node
         else RotateLeft node;; RotateRight node
       else
         gl ← grand_parent ~> left;
         if gl == p then RotateRight p;; RotateRight node
         else RotateRight node;; RotateLeft node
     else
       if pr == node then RotateLeft node else RotateRight node);;
    continue node.

Definition SplayUp (node : ptr) : M unit := loop SplayStep node.

Definition SplayAssign (this node : ptr) : M unit :=
  SplayUp node;;
  this ~> root_ ::= node.

(** ** Searching *)

Definition FindStep (k : Z) (s : ptr * ptr) : M (ptr * ptr + ptr * ptr) :=
  let '(node, p) := s in
  if node == NULL then break (node, p)
  else
    nk ← node ~> key;
    if nk =? k then break (node, p)
    else
      nk ← node ~> key;
      if k <? nk then l ← node ~> left; continue (l, node)
      else r ← node ~> right; continue (r, node).

Definition FindNodeAndParent (this : ptr) (k : Z) : M (ptr * ptr) :=
  r ← this ~> root_; loop (FindStep k) (r, NULL).

(** [Min] and [Max] *)
Definition EndStep (side : field splay_node ptr) (node : ptr) : M (ptr + ptr) :=
  c ← node ~> side;
  if c != NULL then c ← node ~> side; continue c else break node.
Definition Min (node : ptr) : M ptr := assert_ (node != NULL);; loop (EndStep left) node.
Definition Max (node : ptr) : M ptr := assert_ (node != NULL);; loop (EndStep right) node.

(** ** The operations *)

Definition AddNode (this p node : ptr) : M unit :=
  if p != NULL then
    nk ← node ~> key; pk ← p ~> key;
    if nk <? pk then SetLeft p node else SetRight p node
  else this ~> root_ ::= node.

Definition Find (this : ptr) (k : Z) : M Z :=
  '(node, p) ← FindNodeAndParent this k;
  if node != NULL then SplayAssign this node;; node ~> value
  else SplayAssign this p;; this ~> no_value_.

Definition Contains (this : ptr) (k : Z) : M bool :=
  v ← Find this k; nv ← this ~> no_value_; mret (negb (v =? nv)).

Definition Insert (this : ptr) (k v : Z) : M Z :=
  '(node, p) ← FindNodeAndParent this k;
  result ← this ~> no_value_;
  '(node, result) ←
    (if node != NULL then result ← node ~> value; mret (node, result)
     else node ← newNode k v; AddNode this p node;; mret (node, result));
  SplayAssign this node;;
  mret result.

Definition Delete (this : ptr) (k : Z) : M Z :=
  '(node, p) ← FindNodeAndParent this k;
  if node == NULL then SplayAssign this p;; this ~> no_value_
  else
    SplayUp node;;
    result ← node ~> value;
    l ← node ~> left;
    r ← node ~> right;
    free splay_node node;;
    new_root ←
      (if l != NULL then
         l ~> parent ::= NULL;;
         new_root ← Max l; SplayUp new_root;; SetRight new_root r;; mret new_root
       else if r != NULL then
         r ~> parent ::= NULL;;
         new_root ← Min r; SplayUp new_root;; SetLeft new_root l;; mret new_root
       else mret NULL);
    this ~> root_ ::= new_root;;
    mret result.

(** ** Validation and destruction *)

(** [false] when a [Check] throws. *)
Fixpoint ValidateNode (fuel : nat) (no_value : Z) (node : ptr) (lo hi : option Z) : M bool :=
  match fuel with
  | O => throw OutOfFuel
  | S fuel =>
      if node == NULL then mret true
      else
        nk ← node ~> key;
        if negb (from_option (λ lo, lo <? nk) true lo) then mret false
        else if negb (from_option (λ hi, nk <? hi) true hi) then mret false
        else
          v ← node ~> value;
          if v =? no_value then mret false
          else
            l ← node ~> left;
            ok ← ValidateNode fuel no_value l lo (Some nk);
            if negb ok then mret false
            else r ← node ~> right; ValidateNode fuel no_value r (Some nk) hi
  end.
Definition Validate (this : ptr) : M bool :=
  with_fuel (λ fuel,
    nv ← this ~> no_value_; r ← this ~> root_; ValidateNode fuel nv r None None).

Fixpoint Free (fuel : nat) (node : ptr) : M unit :=
  match fuel with
  | O => throw OutOfFuel
  | S fuel =>
      if node == NULL then mret ()
      else
        l ← node ~> left; Free fuel l;;
        r ← node ~> right; Free fuel r;;
        free splay_node node
  end.
(** The destructor *)
Definition deleteTree (this : ptr) : M unit :=
  with_fuel (λ fuel, r ← this ~> root_; Free fuel r);;
  free splay_tree this.

Definition GetRoot (this : ptr) : M ptr := this ~> root_.

(** ** The node handler *)

(** [ChildIterator]: the node and the position [at_] *)
Definition Advance (node : ptr) (at_ : Z) : M Z :=
  at_ ← (if at_ =? 0 then l ← node ~> left; mret (if l == NULL then at_ + 1 else at_) else mret at_);
  if at_ =? 1 then r ← node ~> right; mret (if r == NULL then at_ + 1 else at_) else mret at_.
Definition GetChildIterator (node : ptr) : M (ptr * Z) :=
  at_ ← Advance node 0; mret (node, at_).
Definition HasNext (it : ptr * Z) : bool := negb (it.2 =? 2).
Definition Next (it : ptr * Z) : M (ptr * (ptr * Z)) :=
  let '(node, at_) := it in
  result ← (if negb (at_ =? 0) then node ~> right else node ~> left);
  at_ ← Advance node (at_ + 1);
  mret (result, (node, at_)).
Definition IsLeaf (node : ptr) : M bool :=
  l ← node ~> left;
  if l == NULL then r ← node ~> right; mret (r == NULL) else mret false.
Definition GetNumKeys (node : ptr) : Z := 1.
Definition GetSumKeys (node : ptr) : M Z := node ~> key.

(** ** The adapter *)

Definition insertIfAbsent (ds : ptr) (k v : Z) : M Z := Insert ds k v.
Definition erase (ds : ptr) (k : Z) : M Z := Delete ds k.
Definition find (ds : ptr) (k : Z) : M Z := Find ds k.
Definition contains (ds : ptr) (k : Z) : M bool := Contains ds k.
Definition insert_replace (ds : ptr) (k v : Z) : M Z := throw ProgramExit.
Definition rangeQuery (ds : ptr) (lo hi : Z) : M Z := throw ProgramExit.
Definition validateStructure (ds : ptr) : M bool := Validate ds.

(** ** A small run *)
Definition demo : M (list Z * bool) :=
  t ← newTree (-1);
  a ← Insert t 5 50; b ← Insert t 3 30; c ← Insert t 8 80; d ← Insert t 3 31;
  e ← Find t 5; f ← Find t 4; g ← Delete t 5; h ← Find t 5; i ← Delete t 7; j ← Find t 8;
  ok ← Validate t;
  deleteTree t;;
  mret ([a; b; c; d; e; f; g; h; i; j], ok).
Example splay_demo_runs : demo ∅ = Ok ([-1; -1; -1; 30; 50; -1; 50; -1; -1; 80], true) ∅.
Proof. vm_compute. reflexivity. Qed.

End Splay.
