(* ===== verification/SplayProof.v ===== *)
(** * SplayProof: rotations, splaying and searching of the splay tree *)
From S2P Require Import Prelude Memory SepLogic OrderedSet BinTree BinHeap DictTree SplayModel.
#[local] Open Scope Z_scope.
#[local] Open Scope cpp_scope.

(** ** Representation *)

Abbreviation stree := (tree unit).
Abbreviation sframe := (frame unit).
Abbreviation smk := (λ k l r p (_ : unit) v, SplayNode k v l r p).
Abbreviation tree_at := (BinHeap.tree_at smk).
Abbreviation path_at := (BinHeap.path_at smk).
Abbreviation nd d k v par a b := (BinHeap.nd smk d k v par a b ()).
Abbreviation lctx := (list (loc * sframe)).
Abbreviation cpar c := (par_of c NULL).

(** The object of the tree. *)
Definition sp_at (this : loc) (nv : Z) (t : stree) : hprop :=
  (∃ p, this ↦ SplayTree nv p ∗ tree_at p NULL t)%I.

Definition near (d : bool) := if d then Splay.left else Splay.right.
Definition far (d : bool) := if d then Splay.right else Splay.left.

(** ** Splaying as a function

    [splay_up c l r]: the subtrees of a node with subtrees [l] and [r] at the
    hole of [c] after it has been splayed to the root. *)
Fixpoint splay_up (c : ctx unit) (l r : stree) : stree * stree :=
  match c with
  | [] => (l, r)
  | FL kp vp _ s :: FL kg vg _ u :: c => splay_up c l (Node r kp vp () (Node s kg vg () u))
  | FR s kp vp _ :: FR u kg vg _ :: c => splay_up c (Node (Node u kg vg () s) kp vp () l) r
  | FR s kp vp _ :: FL kg vg _ u :: c => splay_up c (Node s kp vp () l) (Node r kg vg () u)
  | FL kp vp _ s :: FR u kg vg _ :: c => splay_up c (Node u kg vg () l) (Node r kp vp () s)
  | [FL kp vp _ s] => (l, Node r kp vp () s)
  | [FR s kp vp _] => (Node s kp vp () l, r)
  end.

Lemma list_pairs_ind {A} (P : list A → Prop) :
  P [] → (∀ x, P [x]) → (∀ x y l, P l → P (x :: y :: l)) → ∀ l, P l.
Proof.
  intros H0 H1 H2. fix IH 1. intros [|x [|y l]]; [apply H0 | apply H1 | apply H2, IH].
Qed.

(** Splaying keeps the symmetric order. *)
Lemma splay_up_elements c l r k v :
  elements (Node (splay_up c l r).1 k v () (splay_up c l r).2) = elements (plug c (Node l k v () r)).
Proof.
  revert l r. induction c as [|[kp vp a s|s kp vp a]|[kp vp a s|s kp vp a] [kg vg b u|u kg vg b] c IH]
    using list_pairs_ind; intros l r; try done;
    try (simpl; by rewrite -?app_assoc /= -?app_assoc); cbn [splay_up];
    rewrite IH !elements_plug; cbn [ctx_l ctx_r frame_l frame_r elements app];
    by rewrite ?app_nil_r -?app_assoc /= -?app_assoc /= -?app_assoc.
Qed.

(** ** Rotations *)

Lemma wp_SetChild side x (o : splay_node) c par t Q :
  x ↦ o -∗ tree_at c par t -∗ (x ↦ fset side c o -∗ tree_at c (Some x) t -∗ Q ()) -∗
  wp (Splay.SetChild side (Some x) c) Q.
Proof.
  iIntros "Hx Ht HQ". rewrite /Splay.SetChild /Splay.SetParent /when /=. wp_step.
  destruct t as [|l k v b r]; simpl.
  - iDestruct "Ht" as %->. simpl. wp_step. by iApply ("HQ" with "Hx").
  - iDestruct "Ht" as (y pl pr ->) "(Hy & Hl & Hr)". simpl. wp_step. iApply ("HQ" with "Hx"). by iFrame.
Qed.

Lemma wp_SetChild_node side x (o : splay_node) y (o' : splay_node) Q :
  x ↦ o -∗ y ↦ o' -∗ (x ↦ fset side (Some y) o -∗ y ↦ fset Splay.parent (Some x) o' -∗ Q ()) -∗
  wp (Splay.SetChild side (Some x) (Some y)) Q.
Proof.
  iIntros "Hx Hy HQ". rewrite /Splay.SetChild /Splay.SetParent /when /=. do 2 wp_step.
  iApply ("HQ" with "Hx Hy").
Qed.

Lemma wp_UpdateParents c xp (op : splay_node) x (o : splay_node) rp Q :
  sp_parent op = cpar c →
  path_at c (Some xp) rp NULL -∗ xp ↦ op -∗ x ↦ o -∗
  (∀ rp', path_at c (Some x) rp' NULL -∗ xp ↦ fset Splay.parent (Some x) op -∗
     x ↦ fset Splay.parent (cpar c) o -∗ Q ()) -∗
  wp (Splay.UpdateParents (Some xp) (Some x)) Q.
Proof.
  iIntros (Hpar) "Hc Hp Hx HQ". rewrite /Splay.UpdateParents /Splay.GetParent /=. wp_step. rewrite Hpar.
  destruct c as [|[z [k v b s|s k v b]] c]; simpl.
  - rewrite /Splay.GetRight /Splay.GetChild /=. wp_step. rewrite /Splay.SetLeft /Splay.SetChild /when /=.
    wp_step. rewrite /Splay.SetParent /when /=. do 2 wp_step. iApply ("HQ" with "[//] Hp Hx").
  - iDestruct "Hc" as (q) "(Hz & Hs & Hc)". rewrite /Splay.GetRight /Splay.GetChild /=. wp_step.
    iDestruct (tree_at_ne with "Hp Hs") as %Hne. rewrite (bool_decide_false (q = Some xp)) //.
    iApply wp_bind. iApply (wp_SetChild_node with "Hz Hx"). iIntros "Hz Hx".
    rewrite /Splay.SetParent /when /=. wp_step. iApply ("HQ" $! rp with "[Hz Hs Hc] Hp Hx").
    iExists q. iFrame.
  - iDestruct "Hc" as (q) "(Hz & Hs & Hc)". rewrite /Splay.GetRight /Splay.GetChild /=. wp_step.
    rewrite (bool_decide_true (Some xp = Some xp)) //.
    iApply wp_bind. iApply (wp_SetChild_node with "Hz Hx"). iIntros "Hz Hx".
    rewrite /Splay.SetParent /when /=. wp_step. iApply ("HQ" $! rp with "[Hz Hs Hc] Hp Hx").
    iExists q. iFrame.
Qed.

(** [RotateRight] ([d] true) and [RotateLeft]. *)
Definition rotateUp (d : bool) := if d then Splay.RotateRight else Splay.RotateLeft.

Lemma wp_rotateUp d c x k v pa pb b xp kp vp ps rp Q :
  path_at c (Some xp) rp NULL -∗
  xp ↦ nd d kp vp (cpar c) (Some x) ps -∗ x ↦ nd d k v (Some xp) pa pb -∗ tree_at pb (Some x) b -∗
  (∀ rp', path_at c (Some x) rp' NULL -∗ x ↦ nd d k v (cpar c) pa (Some xp) -∗
     xp ↦ nd d kp vp (Some x) pb ps -∗ tree_at pb (Some xp) b -∗ Q ()) -∗
  wp (rotateUp d (Some x)) Q.
Proof.
  iIntros "Hc Hp Hx Hb HQ".
  assert (rotateUp d (Some x) = Splay.rotate (near d) (far d) (Some x)) as -> by by destruct d.
  rewrite /Splay.rotate. wp_step; [done |]. wp_step.
  assert (sp_parent (nd d k v (Some xp) pa pb) = Some xp) as -> by by destruct d.
  iApply wp_bind. iApply (wp_UpdateParents with "Hc Hp Hx"); [by destruct d |].
  assert (∀ q, fset Splay.parent q (nd d k v (Some xp) pa pb) = nd d k v q pa pb) as -> by by destruct d.
  iIntros (rp') "Hc Hp Hx".
  assert (fget (far d) (nd d k v (cpar c) pa pb) = pb) as Hfar by by destruct d. wp_step. rewrite Hfar.
  iApply wp_bind. iApply (wp_SetChild with "Hp Hb"). iIntros "Hp Hb".
  iApply (wp_SetChild_node with "Hx Hp"). iIntros "Hx Hp".
  iApply ("HQ" $! rp' with "Hc [Hx] [Hp] Hb"); by destruct d.
Qed.

(** ** The three steps of splaying *)

(** The node at [x] at the hole of a path. *)
Definition node_at (c : lctx) (x : loc) (t : stree) : hprop :=
  (∃ rp, path_at c (Some x) rp NULL ∗ tree_at (Some x) (cpar c) t)%I.

Lemma wp_zig d c xp kp vp s x a k v b Q :
  node_at ((xp, sf d kp vp () s) :: c) x (sn d a k v () b) -∗
  (node_at c x (sn d a k v () (sn d b kp vp () s)) -∗ Q ()) -∗
  wp (rotateUp d (Some x)) Q.
Proof.
  iIntros "(%rp & Hc & Ht) HQ". rewrite path_at_sf tree_at_sn.
  iDestruct "Hc" as (q) "(Hp & Hs & Hc)". iDestruct "Ht" as (? pa pb [= <-]) "(Hx & Ha & Hb)".
  iApply (wp_rotateUp with "Hc Hp Hx Hb"). iIntros (rp') "Hc Hx Hp Hb". iApply "HQ".
  iExists rp'. iFrame "Hc". rewrite !tree_at_sn. iExists x, pa, (Some xp). iFrame "Hx Ha".
  iSplit; [done |]. rewrite tree_at_sn. by iFrame.
Qed.

Lemma nd_negb d k v p a b : nd (negb d) k v p a b = nd d k v p b a.
Proof. by destruct d. Qed.

Lemma wp_zigzig d c xp kp vp s xg kg vg u x a k v b Q :
  node_at ((xp, sf d kp vp () s) :: (xg, sf d kg vg () u) :: c) x (sn d a k v () b) -∗
  (node_at c x (sn d a k v () (sn d b kp vp () (sn d s kg vg () u))) -∗ Q ()) -∗
  wp (rotateUp d (Some xp);; rotateUp d (Some x)) Q.
Proof.
  iIntros "(%rp & Hc & Ht) HQ". rewrite path_at_sf tree_at_sn.
  iDestruct "Hc" as (q1) "(Hp & Hs & Hc)". iDestruct "Ht" as (? pa pb [= <-]) "(Hx & Ha & Hb)".
  rewrite path_at_sf. iDestruct "Hc" as (q2) "(Hg & Hu & Hc)". iApply wp_bind.
  iApply (wp_rotateUp with "Hc Hg Hp Hs"). iIntros (rp') "Hc Hp Hg Hs".
  iApply (wp_rotateUp with "Hc Hp Hx Hb"). iIntros (rp'') "Hc Hx Hp Hb". iApply "HQ".
  iExists rp''. iFrame "Hc". rewrite tree_at_sn. iExists x, pa, (Some xp). iFrame "Hx Ha".
  iSplit; [done |]. rewrite tree_at_sn. iExists xp, pb, (Some xg). iFrame "Hp Hb". iSplit; [done |].
  rewrite tree_at_sn. by iFrame.
Qed.

Lemma wp_zigzag d c xp kp vp s xg kg vg u x a k v b Q :
  node_at ((xp, sf (negb d) kp vp () s) :: (xg, sf d kg vg () u) :: c) x (sn d a k v () b) -∗
  (node_at c x (sn d (sn (negb d) a kp vp () s) k v () (sn d b kg vg () u)) -∗ Q ()) -∗
  wp (rotateUp (negb d) (Some x);; rotateUp d (Some x)) Q.
Proof.
  iIntros "(%rp & Hc & Ht) HQ". rewrite path_at_sf tree_at_sn.
  iDestruct "Hc" as (q1) "(Hp & Hs & Hc)". iDestruct "Ht" as (? pa pb [= <-]) "(Hx & Ha & Hb)".
  rewrite -(nd_negb d k v). iApply wp_bind. iApply (wp_rotateUp with "Hc Hp Hx Ha").
  iIntros (rp') "Hc Hx Hp Ha".
  rewrite path_at_sf. iDestruct "Hc" as (q2) "(Hg & Hu & Hc)". rewrite (nd_negb d k v).
  iApply (wp_rotateUp with "Hc Hg Hx Hb"). iIntros (rp'') "Hc Hx Hg Hb". iApply "HQ".
  iExists rp''. iFrame "Hc". rewrite tree_at_sn. iExists x, (Some xp), (Some xg). iFrame "Hx".
  iSplit; [done |]. iSplitL "Hp Ha Hs"; rewrite tree_at_sn; by iFrame.
Qed.

(** ** The loop *)

Lemma wp_SplayLoop fuel c x l k v r Q :
  (length c < fuel)%nat →
  node_at c x (Node l k v () r) -∗
  (tree_at (Some x) NULL (Node (splay_up c.*2 l r).1 k v () (splay_up c.*2 l r).2) -∗ Q ()) -∗
  wp (iter fuel Splay.SplayStep (Some x)) Q.
Proof.
  iIntros (Hf) "Hn HQ". iInduction fuel as [|fuel IH] forall (c l r Hf); [lia |].
  iApply wp_iter_S. iEval (rewrite {1}/Splay.SplayStep /Splay.GetParent /=).
  iDestruct "Hn" as (rp) "[Hc Ht]". iSimpl in "Ht".
  iDestruct "Ht" as (? pl pr [= <-]) "(Hx & Hl & Hr)".
  destruct c as [|[xp f] [|[xg g] c]].
  - iDestruct "Hc" as %->. do 2 wp_step. iApply "HQ". simpl. by iFrame.
  - destruct f as [kp vp [] s|s kp vp []]; iSimpl in "Hc"; iDestruct "Hc" as (q) "(Hp & Hs & Hc)";
      do 4 wp_step.
    + iDestruct (tree_at_ne with "Hx Hs") as %Hne. rewrite (bool_decide_false (q = Some x)) //.
      iApply wp_bind. iApply (wp_zig true [] xp kp vp s x l k v r with "[-HQ]").
      { rewrite /node_at /=. by iFrame. }
      iIntros "Hn". wp_step. iApply ("IH" $! [] with "[%] Hn HQ"). simpl in *; lia.
    + rewrite (bool_decide_true (Some x = Some x)) //.
      iApply wp_bind. iApply (wp_zig false [] xp kp vp s x r k v l with "[-HQ]").
      { rewrite /node_at /=. by iFrame. }
      iIntros "Hn". wp_step. iApply ("IH" $! [] with "[%] Hn HQ"). simpl in *; lia.
  - destruct f as [kp vp [] s|s kp vp []], g as [kg vg [] u|u kg vg []]; iSimpl in "Hc";
      iDestruct "Hc" as (q1) "(Hp & Hs & %q2 & Hg & Hu & Hc)"; do 4 wp_step;
      try (iDestruct (tree_at_ne with "Hx Hs") as %Hne; rewrite (bool_decide_false (q1 = Some x)) //);
      try rewrite (bool_decide_true (Some x = Some x)) //; wp_step;
      try (iDestruct (tree_at_ne with "Hp Hu") as %Hne2; rewrite (bool_decide_false (q2 = Some xp)) //);
      try rewrite (bool_decide_true (Some xp = Some xp)) //.
    + iApply (wp_zigzig true c xp kp vp s xg kg vg u x l k v r with "[-HQ]").
      { rewrite /node_at /=. by iFrame. }
      iIntros "Hn". wp_step. iApply ("IH" $! c with "[%] Hn HQ"). simpl in *; lia.
    + iApply (wp_zigzag false c xp kp vp s xg kg vg u x r k v l with "[-HQ]").
      { rewrite /node_at /=. by iFrame. }
      iIntros "Hn". wp_step. iApply ("IH" $! c with "[%] Hn HQ"). simpl in *; lia.
    + iApply (wp_zigzag true c xp kp vp s xg kg vg u x l k v r with "[-HQ]").
      { rewrite /node_at /=. by iFrame. }
      iIntros "Hn". wp_step. iApply ("IH" $! c with "[%] Hn HQ"). simpl in *; lia.
    + iApply (wp_zigzig false c xp kp vp s xg kg vg u x r k v l with "[-HQ]").
      { rewrite /node_at /=. by iFrame. }
      iIntros "Hn". wp_step. iApply ("IH" $! c with "[%] Hn HQ"). simpl in *; lia.
Qed.

Lemma wp_SplayUp c x l k v r Q :
  node_at c x (Node l k v () r) -∗
  (tree_at (Some x) NULL (Node (splay_up c.*2 l r).1 k v () (splay_up c.*2 l r).2) -∗ Q ()) -∗
  wp (Splay.SplayUp (Some x)) Q.
Proof.
  iIntros "Hn HQ". iApply (wp_loop (length c)). iSplit.
  { iDestruct "Hn" as (rp) "[Hc _]". iApply (path_at_size with "Hc"). }
  iIntros (fuel Hf). by iApply (wp_SplayLoop with "Hn HQ").
Qed.

Lemma wp_SplayAssign this nv q c x l k v r Q :
  this ↦ SplayTree nv q -∗ node_at c x (Node l k v () r) -∗
  (this ↦ SplayTree nv (Some x) -∗
   tree_at (Some x) NULL (Node (splay_up c.*2 l r).1 k v () (splay_up c.*2 l r).2) -∗ Q ()) -∗
  wp (Splay.SplayAssign (Some this) (Some x)) Q.
Proof.
  iIntros "Hs Hn HQ". rewrite /Splay.SplayAssign. iApply wp_bind. iApply (wp_SplayUp with "Hn").
  iIntros "Ht". wp_step. iApply ("HQ" with "Hs Ht").
Qed.

(** ** Searching *)

Lemma wp_FindLoop fuel k c p t rp Q :
  (height t < fuel)%nat →
  path_at c p rp NULL -∗ tree_at p (cpar c) t -∗
  (∀ (c' : lctx) p' t', ⌜descend k t c.*2 = (c'.*2, t')⌝ →
     path_at c' p' rp NULL -∗ tree_at p' (cpar c') t' -∗ Q (p', cpar c')) -∗
  wp (iter fuel (Splay.FindStep k) (p, cpar c)) Q.
Proof.
  iIntros (Hf) "Hc Ht HQ". iInduction t as [|l IHl k' v [] r IHr] forall (fuel Hf c p);
    (destruct fuel as [|fuel]; [lia |]); iApply wp_iter_S; iEval (rewrite {1}/Splay.FindStep).
  - iDestruct "Ht" as %->. rewrite (bool_decide_true (NULL = NULL)) //. wp_step.
    by iApply ("HQ" $! c NULL Leaf with "[//] Hc").
  - iSimpl in "Ht". iDestruct "Ht" as (x pl pr ->) "(Hx & Hl & Hr)". simpl. wp_step.
    destruct (Z.eqb_spec k' k) as [->|Hne].
    + wp_step. iApply ("HQ" $! c (Some x) (Node l k v () r) with "[%] Hc"); [|simpl; by iFrame].
      by rewrite Z.ltb_irrefl Z.gtb_ltb Z.ltb_irrefl.
    + wp_step. destruct (Z.ltb_spec k k').
      * do 2 wp_step. iApply ("IHl" $! fuel _ ((x, FL k' v () r) :: c) with "[Hc Hx Hr] Hl HQ").
        iApply (path_at_sf _ true x k' v () r c). iExists pr. iFrame.
      * destruct (Z.gtb_spec k k'); [|lia].
        do 2 wp_step. iApply ("IHr" $! fuel _ ((x, FR l k' v ()) :: c) with "[Hc Hx Hl] Hr HQ").
        iApply (path_at_sf _ false x k' v () l c). iExists pl. iFrame.
        Unshelve. all: simpl in *; lia.
Qed.

Lemma wp_FindNodeAndParent this nv k t Q :
  sp_at this nv t -∗
  (∀ rp (c : lctx) p t', ⌜descend k t [] = (c.*2, t')⌝ → this ↦ SplayTree nv rp -∗
     path_at c p rp NULL -∗ tree_at p (cpar c) t' -∗ Q (p, cpar c)) -∗
  wp (Splay.FindNodeAndParent (Some this) k) Q.
Proof.
  iIntros "(%p & Hs & Ht) HQ". rewrite /Splay.FindNodeAndParent. wp_step.
  wp_while (height t) from tree_at_size "Ht".
  iApply (wp_FindLoop fuel k [] p t p with "[//] Ht"); [done |].
  iIntros (c p' t' Hd) "Hc Ht". iApply ("HQ" with "[//] Hs Hc Ht").
Qed.

Lemma wp_EndLoop d fuel cs p q par t Q :
  t ≠ Leaf → (height t < fuel)%nat → spine d cs.*2 →
  path_at cs p q par -∗ tree_at p (par_of cs par) t -∗
  (∀ (cs' : lctx) y k v r,
     ⌜spine d cs'.*2 ∧ plug cs.*2 t = plug cs'.*2 (sn d Leaf k v tt r)⌝ →
     path_at cs' (Some y) q par -∗ tree_at (Some y) (par_of cs' par) (sn d Leaf k v () r) -∗ Q (Some y)) -∗
  wp (iter fuel (Splay.EndStep (near d)) p) Q.
Proof.
  iIntros (Ht Hf Hcs) "Hc Ht HQ". iInduction fuel as [|fuel IH] forall (cs p t Ht Hf Hcs); [lia |].
  destruct (node_side d t Ht) as (a & k & v & [] & b & ->).
  rewrite tree_at_sn. iDestruct "Ht" as (y pa pb ->) "(Hy & Ha & Hb)".
  iApply wp_iter_S. iEval (rewrite {1}/Splay.EndStep).
  assert (fget (near d) (nd d k v (par_of cs par) pa pb) = pa) as Hpa by (by destruct d).
  wp_step. rewrite Hpa. destruct (decide (a = Leaf)) as [->|Ha].
  - iDestruct "Ha" as %->. simpl. wp_step.
    iApply ("HQ" $! cs y k v b with "[//] Hc"). rewrite tree_at_sn. by iFrame.
  - iAssert (⌜pa ≠ NULL⌝)%I as %Hne.
    { destruct a as [|al ak av ac ar]; [done |]. iSimpl in "Ha". by iDestruct "Ha" as (z ? ? ->) "_". }
    rewrite (bool_decide_false (pa = NULL)) //. simpl. do 2 wp_step. rewrite Hpa.
    iApply ("IH" $! ((y, sf d k v () b) :: cs) pa a with "[//] [%] [%] [Hc Hy Hb] Ha").
    + destruct d; simpl in Hf; lia.
    + constructor; [|done]. by eexists _, _, _, _.
    + rewrite path_at_sf. iExists pb. iFrame.
    + assert (plug ((y, sf d k v () b) :: cs).*2 a = plug cs.*2 (sn d a k v () b)) as -> by by destruct d.
      done.
Qed.
