(* ===== verification/SplaySet.v ===== *)
(** * SplaySet: the operations of the splay tree on dictionaries *)
From S2P Require Import Prelude Memory SepLogic OrderedSet BinTree BinHeap DictTree GsatMap.
From S2P Require Import SplayModel SplayProof.
#[local] Open Scope Z_scope.
#[local] Open Scope cpp_scope.

Definition sp_set (s : loc) (nv : Z) (m : gmap Z Z) : hprop :=
  (∃ t, <affine> ⌜dict_of m t⌝ ∗ sp_at s nv t)%I.

(** The key is at the root, when it is in the dictionary. *)
Definition at_root (k : Z) (m : gmap Z Z) (t : stree) : Prop :=
  ∀ v, m !! k = Some v → ∃ l r, t = Node l k v () r.

Lemma sp_at_intro this nv p t : this ↦ SplayTree nv p -∗ tree_at p NULL t -∗ sp_at this nv t.
Proof. iIntros "Hs Ht". iExists p. iFrame. Qed.

Lemma wp_sps_new nv Q : (∀ s, sp_set s nv ∅ -∗ Q (Some s)) ⊢ wp (Splay.newTree nv) Q.
Proof.
  iIntros "HQ". iApply wp_new. iIntros (s) "Hs". iApply "HQ". iExists Leaf.
  iSplit; [iPureIntro; apply dict_of_leaf |]. iExists NULL. by iFrame.
Qed.

(** ** Splaying what a search has found *)

Lemma wp_splayNull this nv q Q :
  this ↦ SplayTree nv q -∗ (sp_at this nv Leaf -∗ Q ()) -∗ wp (Splay.SplayAssign (Some this) NULL) Q.
Proof.
  iIntros "Hs HQ". rewrite /Splay.SplayAssign /Splay.SplayUp. iApply wp_bind. iApply (wp_loop 0). iSplit.
  { iApply at_least_0. iAccu. }
  iIntros (fuel Hf). destruct fuel as [|fuel]; [lia |]. iApply wp_iter_S. rewrite /Splay.SplayStep /Splay.GetParent /=.
  do 3 wp_step. iApply "HQ". iExists NULL. by iFrame.
Qed.

(** After a failed search the last node of the path is splayed. *)
Lemma wp_splayLast this nv q c rp Q :
  this ↦ SplayTree nv q -∗ path_at c NULL rp NULL -∗
  (∀ t, ⌜elements t = elements (plug c.*2 Leaf)⌝ → sp_at this nv t -∗ Q ()) -∗
  wp (Splay.SplayAssign (Some this) (cpar c)) Q.
Proof.
  iIntros "Hs Hc HQ". destruct c as [|[x f] c].
  { iDestruct "Hc" as %->. iApply (wp_splayNull with "Hs"). by iApply ("HQ" $! Leaf). }
  destruct (frame_side f) as (d & k & v & [] & s & ->). rewrite path_at_sf.
  iDestruct "Hc" as (p) "(Hx & Hs' & Hc)".
  iAssert (node_at c x (sn d Leaf k v () s)) with "[Hx Hs' Hc]" as "Hn".
  { iExists rp. iFrame "Hc". rewrite tree_at_sn. by iFrame. }
  destruct d; iApply (wp_SplayAssign with "Hs Hn"); iIntros "Hs Ht";
    (iApply ("HQ" with "[%] [Hs Ht]"); [|iExists _; iFrame]); by rewrite splay_up_elements.
Qed.

(** ** Find *)

Lemma wp_rootValue y q l k v r Q :
  tree_at y q (Node l k v () r) -∗ (tree_at y q (Node l k v () r) -∗ Q v) -∗ wp (y ~> Splay.value) Q.
Proof.
  iIntros "Ht HQ". iSimpl in "Ht". iDestruct "Ht" as (z pl pr ->) "(Hz & Hl & Hr)". wp_step.
  iApply "HQ". simpl. by iFrame.
Qed.

Lemma wp_sps_find s nv m k Q :
  sp_set s nv m -∗
  (∀ t, ⌜dict_of m t ∧ at_root k m t⌝ → sp_at s nv t -∗ Q (value_or nv m k)) -∗
  wp (Splay.Find (Some s) k) Q.
Proof.
  iIntros "(%t & %Hd & Hs) HQ". rewrite /Splay.Find. iApply wp_bind.
  iApply (wp_FindNodeAndParent with "Hs"). iIntros (rp c p t' Hdes) "Hs Hc Ht".
  pose proof (descend_plug k t []) as Hpl. pose proof (descend_tfind k t []) as Hf.
  pose proof (tfind_to_map k t (proj1 Hd)) as Hm. rewrite (proj2 Hd) in Hm.
  pose proof (descend_stops k t []) as Hst.
  rewrite Hdes /= in Hpl Hf Hst. rewrite /value_or. destruct t' as [|l k' v [] r].
  - iDestruct "Ht" as %->. simpl. rewrite Hm Hf. iApply wp_bind. iApply (wp_splayLast with "Hs Hc").
    iIntros (t1 Hel) "(%p & Hs & Ht)". wp_step. iApply ("HQ" $! t1 with "[%]").
    + split; [|intros v Hv; congruence]. apply (dict_of_elements m t); [by rewrite Hel Hpl | done].
    + iExists p. iFrame.
  - destruct Hst as [?|(? & ? & ? & ? & [= <- -> <- <- <-])]; [done |].
    iAssert (⌜∃ y, p = Some y⌝)%I as %[y ->].
    { iSimpl in "Ht". iDestruct "Ht" as (y ? ? ->) "_". iPureIntro. by exists y. }
    simpl. rewrite Hm Hf. iApply wp_bind. iApply (wp_SplayAssign with "Hs [Hc Ht]").
    { iExists rp. iFrame. }
    iIntros "Hs Ht". iApply (wp_rootValue with "Ht"). iIntros "Ht". iApply ("HQ" with "[%] [Hs Ht]"); [|iExists _; iFrame].
    split; [|intros w; rewrite Hm Hf; intros [= ->]; by eexists _, _].
    apply (dict_of_elements m t); [by rewrite splay_up_elements Hpl | done].
Qed.

Lemma wp_sps_contains s nv m k Q :
  sp_set s nv m -∗ (sp_set s nv m -∗ Q (negb (value_or nv m k =? nv))) -∗ wp (Splay.Contains (Some s) k) Q.
Proof.
  iIntros "Hs HQ". rewrite /Splay.Contains. iApply wp_bind. iApply (wp_sps_find with "Hs").
  iIntros (t [Hd _]) "(%p & Hs & Ht)". do 2 wp_step. iApply "HQ". iExists t. iSplit; [done |]. iExists p. iFrame.
Qed.

(** ** Insert *)

Lemma wp_AddNode this nv rp c z k v Q :
  match c with
  | [] => True
  | (_, FL k' _ _ _) :: _ => k < k'
  | (_, FR _ k' _ _) :: _ => k' < k
  end →
  this ↦ SplayTree nv rp -∗ path_at c NULL rp NULL -∗ z ↦ SplayNode k v NULL NULL NULL -∗
  (∀ q, this ↦ SplayTree nv q -∗ node_at c z (Node Leaf k v () Leaf) -∗ Q ()) -∗
  wp (Splay.AddNode (Some this) (cpar c) (Some z)) Q.
Proof.
  iIntros (Hk) "Hs Hc Hz HQ". rewrite /Splay.AddNode. destruct c as [|[x f] c]; simpl.
  - wp_step. iApply ("HQ" with "Hs"). iExists (Some z). simpl. by iFrame.
  - destruct f as [k' v' b s|s k' v' b]; iDestruct "Hc" as (q) "(Hx & Ht & Hc)"; do 2 wp_step;
      destruct (Z.ltb_spec k k'); try lia;
      iApply (wp_SetChild_node with "Hx Hz"); iIntros "Hx Hz"; iApply ("HQ" with "Hs");
      rewrite /node_at /=; by iFrame.
Qed.

Lemma wp_sps_insert s nv m k v Q :
  sp_set s nv m -∗
  (∀ t, ⌜dict_of (dict_insert k v m) t ∧ at_root k (dict_insert k v m) t⌝ → sp_at s nv t -∗ Q (value_or nv m k)) -∗
  wp (Splay.Insert (Some s) k v) Q.
Proof.
  iIntros "(%t & %Hd & Hs) HQ". rewrite /Splay.Insert. iApply wp_bind.
  iApply (wp_FindNodeAndParent with "Hs"). iIntros (rp c p t' Hdes) "Hs Hc Ht".
  pose proof (descend_plug k t []) as Hpl. pose proof (descend_tfind k t []) as Hf.
  pose proof (tfind_to_map k t (proj1 Hd)) as Hm. rewrite (proj2 Hd) in Hm.
  pose proof (descend_stops k t []) as Hst. pose proof (λ x c, descend_side k t x c (proj1 Hd)) as Hside.
  pose proof (λ t', dict_of_insert m t k v () t' Hd) as Hins.
  rewrite Hdes /= in Hpl Hf Hst Hside Hins. wp_step. rewrite /value_or. destruct t' as [|l k' w [] r].
  - iDestruct "Ht" as %->. simpl. rewrite Hm Hf /Splay.newNode. iApply wp_bind. iApply wp_bind. iApply wp_new.
    iIntros (z) "Hz". iApply wp_bind. iApply (wp_AddNode with "Hs Hc Hz").
    { destruct c as [|[x f] c]; [done |]. apply (Hside f c.*2 eq_refl). }
    iIntros (q) "Hs Hn". wp_step. iApply wp_bind. iApply (wp_SplayAssign with "Hs Hn"). iIntros "Hs Ht".
    iDestruct (sp_at_intro with "Hs Ht") as "Hs". wp_step. iApply ("HQ" with "[%] Hs"). split.
    + apply Hins; [done |]. by rewrite splay_up_elements.
    + intros w. rewrite /dict_insert Hm Hf lookup_insert_eq. intros [= ->]. by eexists _, _.
  - destruct Hst as [?|(? & ? & ? & ? & [= <- -> <- <- <-])]; [done |].
    iAssert (⌜∃ y, p = Some y⌝)%I as %[y ->].
    { iSimpl in "Ht". iDestruct "Ht" as (y ? ? ->) "_". iPureIntro. by exists y. }
    simpl. rewrite Hm Hf. iApply wp_bind. iApply wp_bind. iApply (wp_rootValue with "Ht"). iIntros "Ht". wp_step.
    iApply wp_bind. iApply (wp_SplayAssign with "Hs [Hc Ht]").
    { iExists rp. iFrame. }
    iIntros "Hs Ht". iDestruct (sp_at_intro with "Hs Ht") as "Hs". wp_step. iApply ("HQ" with "[%] Hs").
    rewrite (dict_of_present m t k v _ Hd Hf). split; [|intros w0; rewrite Hm Hf; intros [= ->]; by eexists _, _].
    apply (dict_of_elements m t); [by rewrite splay_up_elements Hpl | done].
Qed.

(** ** Delete *)

(** Splaying the end of a spine leaves its empty side empty. *)
Lemma splay_up_spine d c l r :
  spine d c → if d then (splay_up c l r).1 = l else (splay_up c l r).2 = r.
Proof.
  revert l r. induction c as [|f|f g c IH] using list_pairs_ind; intros l r Hsp.
  - by destruct d.
  - apply Forall_singleton in Hsp as (k & v & [] & s & ->). by destruct d.
  - apply Forall_cons in Hsp as [(k & v & [] & s & ->) Hsp].
    apply Forall_cons in Hsp as [(k' & v' & [] & s' & ->) Hsp].
    pose proof (λ l r, IH l r Hsp) as IH'. destruct d; apply IH'.
Qed.

Lemma sn_splay_end d c k v (s : stree) :
  spine d c → ∃ t',
    Node (splay_up c (if d then Leaf else s) (if d then s else Leaf)).1 k v ()
      (splay_up c (if d then Leaf else s) (if d then s else Leaf)).2 = sn d Leaf k v () t' ∧
    elements (sn d Leaf k v () t') = elements (plug c (sn d Leaf k v () s)).
Proof.
  intros Hsp. pose proof (splay_up_spine d c) as Hend. destruct d; simpl in *.
  - exists (splay_up c Leaf s).2. rewrite -splay_up_elements /= Hend //.
  - exists (splay_up c s Leaf).1. rewrite -splay_up_elements /= Hend //.
Qed.

(** The first or last node of a subtree that is now a tree is splayed to its
    root; its near side is empty. *)
Lemma wp_splayEnd {A} d p q t (K : ptr → M A) Q :
  t ≠ Leaf →
  tree_at p q t -∗
  (∀ y k v t', ⌜elements (sn d Leaf k v tt t') = elements t⌝ →
     tree_at (Some y) NULL (sn d Leaf k v () t') -∗ wp (K (Some y)) Q) -∗
  wp (p ~> Splay.parent ::= NULL;;
      new_root ← (assert_ (p != NULL);; loop (Splay.EndStep (near d)) p);
      Splay.SplayUp new_root;; K new_root) Q.
Proof.
  iIntros (Hne) "Ht HQ". destruct t as [|l k v [] r]; [done |].
  iSimpl in "Ht". iDestruct "Ht" as (x pl pr ->) "(Hx & Hl & Hr)". wp_step. iApply wp_bind.
  iAssert (tree_at (Some x) NULL (Node l k v () r)) with "[Hx Hl Hr]" as "Ht". { simpl. by iFrame. }
  iApply wp_bind. iApply wp_assert; [done |]. wp_while (height (Node l k v () r)) from tree_at_size "Ht".
  iApply (wp_EndLoop d fuel [] (Some x) (Some x) NULL with "[//] Ht"); [done | done | constructor |].
  iIntros (cs y ky vy s [Hsp Hpl]) "Hc Ht". iApply wp_bind.
  destruct (sn_splay_end d cs.*2 ky vy s Hsp) as (t' & Ht' & Hel).
  iApply (wp_SplayUp cs y (if d then Leaf else s) ky vy (if d then s else Leaf) with "[Hc Ht]").
  { iExists (Some x). iFrame "Hc". by destruct d. }
  rewrite Ht'. iIntros "Ht". iApply ("HQ" with "[%] Ht"). by rewrite Hel -Hpl.
Qed.

Lemma wp_joinSubtrees pl pr q lt rt Q :
  tree_at pl q lt -∗ tree_at pr q rt -∗
  (∀ p t, ⌜elements t = elements lt ++ elements rt⌝ → tree_at p NULL t -∗ Q p) -∗
  wp (if pl != NULL then
        pl ~> Splay.parent ::= NULL;;
        new_root ← Splay.Max pl; Splay.SplayUp new_root;; Splay.SetRight new_root pr;; mret new_root
      else if pr != NULL then
        pr ~> Splay.parent ::= NULL;;
        new_root ← Splay.Min pr; Splay.SplayUp new_root;; Splay.SetLeft new_root pl;; mret new_root
      else mret NULL) Q.
Proof.
  iIntros "Hl Hr HQ". destruct (decide (lt = Leaf)) as [->|Hlt].
  - iDestruct "Hl" as %->. rewrite (bool_decide_true (NULL = NULL)) //=.
    destruct (decide (rt = Leaf)) as [->|Hrt].
    { iDestruct "Hr" as %->. simpl. wp_step. by iApply ("HQ" $! NULL Leaf). }
    iAssert (⌜pr ≠ NULL⌝)%I as %Hne.
    { destruct rt; [done |]. iSimpl in "Hr". by iDestruct "Hr" as (? ? ? ->) "_". }
    rewrite (bool_decide_false (pr = NULL)) //. simpl. rewrite /Splay.Min.
    iApply (wp_splayEnd true with "Hr"); [done |]. iIntros (y k v t' Hel) "Ht".
    iSimpl in "Ht". iDestruct "Ht" as (? ? p2 [= <-]) "(Hy & -> & Ht)". iApply wp_bind.
    iApply (wp_SetChild _ _ _ NULL NULL Leaf with "Hy []"); [done |]. iIntros "Hy _". wp_step.
    iApply ("HQ" $! (Some y) (Node Leaf k v () t') with "[%]"); [done |]. simpl. by iFrame.
  - iAssert (⌜pl ≠ NULL⌝)%I as %Hne.
    { destruct lt; [done |]. iSimpl in "Hl". by iDestruct "Hl" as (? ? ? ->) "_". }
    rewrite (bool_decide_false (pl = NULL)) //. simpl. rewrite /Splay.Max.
    iApply (wp_splayEnd false with "Hl"); [done |]. iIntros (y k v t' Hel) "Ht".
    iSimpl in "Ht". iDestruct "Ht" as (? p1 ? [= <-]) "(Hy & Ht & ->)". iApply wp_bind.
    iApply (wp_SetChild with "Hy Hr"). iIntros "Hy Hr". wp_step.
    iApply ("HQ" $! (Some y) (Node t' k v () rt) with "[%]"); [|simpl; by iFrame].
    rewrite -Hel /=. by rewrite -app_assoc.
Qed.

Lemma wp_sps_delete s nv m k Q :
  sp_set s nv m -∗ (sp_set s nv (delete k m) -∗ Q (value_or nv m k)) -∗
  wp (Splay.Delete (Some s) k) Q.
Proof.
  iIntros "(%t & %Hd & Hs) HQ". rewrite /Splay.Delete. iApply wp_bind.
  iApply (wp_FindNodeAndParent with "Hs"). iIntros (rp c p t' Hdes) "Hs Hc Ht".
  pose proof (descend_plug k t []) as Hpl. pose proof (descend_tfind k t []) as Hf.
  pose proof (tfind_to_map k t (proj1 Hd)) as Hm. rewrite (proj2 Hd) in Hm.
  pose proof (descend_stops k t []) as Hst.
  rewrite Hdes /= in Hpl Hf Hst. rewrite /value_or. destruct t' as [|l k' v [] r].
  - iDestruct "Ht" as %->. simpl. rewrite Hm Hf. iApply wp_bind. iApply (wp_splayLast with "Hs Hc").
    iIntros (t1 Hel) "(%p & Hs & Ht)". wp_step. iApply "HQ". rewrite (dict_of_absent m t) //.
    iExists t1. iSplit; [|iExists p; iFrame]. iPureIntro.
    apply (dict_of_elements m t); [by rewrite Hel Hpl | done].
  - destruct Hst as [?|(? & ? & ? & ? & [= <- -> <- <- <-])]; [done |].
    iAssert (⌜∃ y, p = Some y⌝)%I as %[y ->].
    { iSimpl in "Ht". iDestruct "Ht" as (y ? ? ->) "_". iPureIntro. by exists y. }
    simpl. rewrite Hm Hf. iApply wp_bind. iApply (wp_SplayUp with "[Hc Ht]"). { iExists rp. iFrame. }
    pose proof (splay_up_elements c.*2 l r k v) as Hel. rewrite Hpl in Hel.
    destruct (splay_up c.*2 l r) as [l' r']. iSimpl. iIntros "Ht".
    iDestruct "Ht" as (? pl pr [= <-]) "(Hy & Hl & Hr)". do 4 wp_step. iApply wp_bind.
    iApply (wp_joinSubtrees with "Hl Hr"). iIntros (p1 t1 Hel1) "Ht".
    iApply wp_bind. iApply (wp_put with "Hs"). iIntros "Hs".
    iDestruct (sp_at_intro with "Hs Ht") as "Hs". wp_step. iApply "HQ". iExists t1. iFrame. iPureIntro.
    by apply (dict_of_delete m t k v (elements l') (elements r')).
Qed.

(** ** Validate *)

(** What [Validate] computes, and what it means. *)
Fixpoint valid (nv : Z) (t : stree) (lo hi : option Z) : bool :=
  match t with
  | Leaf => true
  | Node l k v _ r =>
      from_option (λ lo, lo <? k) true lo && from_option (λ hi, k <? hi) true hi &&
      negb (v =? nv) && valid nv l lo (Some k) && valid nv r (Some k) hi
  end.

Lemma bounded_spec lo hi k :
  from_option (λ lo, lo <? k) true lo && from_option (λ hi, k <? hi) true hi = true ↔ bounded lo hi k.
Proof. rewrite andb_true_iff /bounded. destruct lo, hi; simpl; rewrite ?Z.ltb_lt; tauto. Qed.

Lemma valid_spec nv t lo hi :
  valid nv t lo hi = true ↔
  ordered (elements t) ∧ Forall (λ kv, kv.2 ≠ nv ∧ bounded lo hi kv.1) (elements t).
Proof.
  revert lo hi. induction t as [|l IHl k v a r IHr]; intros lo hi; simpl.
  { split; [intros _; split; constructor | done]. }
  rewrite !andb_true_iff -andb_true_iff bounded_spec negb_true_iff Z.eqb_neq IHl IHr.
  rewrite ordered_app ordered_cons Forall_app Forall_cons !Forall_forall /bounded /kv_lt. simpl. split.
  - intros ((([Hlo Hhi] & Hv) & Hol & Hl) & Hor & Hr). split_and!; try done.
    + intros y Hy. by destruct (Hr y Hy) as (_ & ? & _).
    + intros x y Hx [->|Hy]%elem_of_cons; destruct (Hl x Hx) as (_ & _ & Hxk); [done |].
      destruct (Hr y Hy) as (_ & ? & _). lia.
    + intros x Hx. destruct (Hl x Hx) as (? & ? & Hxk). split_and!; [done..|]. destruct hi; simpl in *; lia.
    + intros x Hx. destruct (Hr x Hx) as (? & Hkx & ?). split_and!; [done | | done]. destruct lo; simpl in *; lia.
  - intros ((Hol & [Hor Hkr] & Hlr) & Hl & [Hv [Hlo Hhi]] & Hr). split_and!; try done.
    + intros x Hx. destruct (Hl x Hx) as (? & ? & _). split_and!; [done..|].
      apply (Hlr x (k, v) Hx). by left.
    + intros x Hx. destruct (Hr x Hx) as (? & _ & ?). split_and!; [done | | done]. by apply Hkr.
Qed.

Lemma wp_ValidateNode nv t p par lo hi fuel Q :
  (height t < fuel)%nat →
  tree_at p par t -∗ (tree_at p par t -∗ Q (valid nv t lo hi)) -∗
  wp (Splay.ValidateNode fuel nv p lo hi) Q.
Proof.
  iIntros (Hf) "Ht HQ". iInduction t as [|l IHl k v b r IHr] forall (fuel Hf p par lo hi Q);
    (destruct fuel as [|fuel]; [lia |]); simpl.
  - iDestruct "Ht" as %->. simpl. wp_step. by iApply "HQ".
  - iDestruct "Ht" as (x pl pr ->) "(Hx & Hl & Hr)". simpl. wp_step.
    destruct (from_option (λ lo, lo <? k) true lo); simpl; [|wp_step; iApply "HQ"; by iFrame].
    destruct (from_option (λ hi, k <? hi) true hi); simpl; [|wp_step; iApply "HQ"; by iFrame].
    wp_step. destruct (v =? nv); simpl; [wp_step; iApply "HQ"; by iFrame |]. wp_step.
    iApply wp_bind. iApply ("IHl" with "[%] Hl"); [simpl in *; lia |]. iIntros "Hl".
    destruct (valid nv l lo (Some k)); simpl; [|wp_step; iApply "HQ"; by iFrame]. wp_step.
    iApply ("IHr" with "[%] Hr"); [simpl in *; lia |]. iIntros "Hr". iApply "HQ". by iFrame.
Qed.

Lemma wp_sp_Validate s nv t Q :
  sp_at s nv t -∗ (sp_at s nv t -∗ Q (valid nv t None None)) -∗ wp (Splay.Validate (Some s)) Q.
Proof.
  iIntros "(%p & Hs & Ht) HQ". rewrite /Splay.Validate. iApply (wp_with_fuel (height t)). iSplit.
  { iApply (at_least_weaken with "[-]"); [|iApply (tree_at_size with "Ht")]. apply height_le_tsize. }
  iIntros (fuel Hf). do 2 wp_step. iApply (wp_ValidateNode with "Ht"); [done |]. iIntros "Ht".
  iApply "HQ". iExists p. iFrame.
Qed.

Lemma dict_values m (t : stree) nv :
  dict_of m t → no_reserved nv m ↔ Forall (λ kv, kv.2 ≠ nv ∧ bounded None None kv.1) (elements t).
Proof.
  intros [Hord <-]. rewrite Forall_forall /no_reserved. split.
  - intros Hnr [k v] Hin. split; [|done]. simpl. intros ->. by apply (Hnr k), to_map_elem_of.
  - intros Hall k Hk. apply to_map_elem_of in Hk; [|done]. by destruct (Hall _ Hk).
Qed.

Lemma valid_dict m t nv : dict_of m t → valid nv t None None = true ↔ no_reserved nv m.
Proof. intros Hd. rewrite valid_spec (dict_values m t nv Hd). destruct Hd. tauto. Qed.

(** ** The destructor *)

Lemma wp_Free t p par fuel Q :
  (height t < fuel)%nat → tree_at p par t -∗ Q () -∗ wp (Splay.Free fuel p) Q.
Proof.
  iIntros (Hf) "Ht HQ". iInduction t as [|l IHl k v b r IHr] forall (fuel Hf p par Q);
    (destruct fuel as [|fuel]; [lia |]); simpl.
  - iDestruct "Ht" as %->. simpl. by wp_step.
  - iDestruct "Ht" as (x pl pr ->) "(Hx & Hl & Hr)". simpl. wp_step.
    iApply wp_bind. iApply ("IHl" with "[%] Hl"); [simpl in *; lia |]. wp_step.
    iApply wp_bind. iApply ("IHr" with "[%] Hr"); [simpl in *; lia |]. by wp_step.
Qed.

Lemma wp_sps_delete_tree s nv m Q : sp_set s nv m -∗ Q () -∗ wp (Splay.deleteTree (Some s)) Q.
Proof.
  iIntros "(%t & _ & %p & Hs & Ht) HQ". rewrite /Splay.deleteTree. iApply wp_bind.
  iApply (wp_with_fuel (height t)). iSplit.
  { iApply (at_least_weaken with "[-]"); [|iApply (tree_at_size with "Ht")]. apply height_le_tsize. }
  iIntros (fuel Hf). wp_step. iApply (wp_Free with "Ht"); [done |]. by wp_step.
Qed.

(** ** The interface *)

#[global] Instance splay_map : MapOps := {
  map_new := Splay.newTree;
  map_Find := Splay.Find;
  map_Insert := Splay.Insert;
  map_Delete := Splay.Delete;
  map_Validate := Splay.Validate;
  map_delete := Splay.deleteTree;
}.

#[global] Program Instance splay_map_laws : MapLaws splay_map := {|
  is_map := sp_set;
  fits _ _ := True;
  map_new_law := wp_sps_new;
  map_delete_law := wp_sps_delete_tree;
|}.
Next Obligation.
  iIntros (s nv m k Q) "Hs HQ". iApply (wp_sps_find with "Hs"). iIntros (t [Hd _]) "Hs".
  iApply "HQ". iExists t. by iFrame.
Qed.
Next Obligation.
  iIntros (s nv m k v Q _) "Hs HQ". iApply (wp_sps_insert with "Hs"). iIntros (t [Hd _]) "Hs".
  iApply "HQ". iExists t. by iFrame.
Qed.
Next Obligation. iIntros (s nv m k Q _). iApply wp_sps_delete. Qed.

#[global] Instance splay_map_checked : MapChecked splay_map.
Proof.
  split. iIntros (s nv m Q Hnr) "(%t & %Hd & Hs) HQ". iApply (wp_sp_Validate with "Hs"). iIntros "Hs".
  rewrite (proj2 (valid_dict m t nv Hd) Hnr). iApply "HQ". iExists t. by iFrame.
Qed.

(** ** Contracts *)

(** C28: refinement: from the empty store, any sequence of [Find], [Insert] and
    [Delete] on a new [SplayTree] returns what it returns on a finite
    dictionary, and after the destructor the store is empty again. *)
Theorem splay_session_refines (nv : Z) (ops : list set_op) :
  map_session (S := splay_map) nv ops ∅ = Ok (map_ops nv ∅ ops).1 ∅.
Proof. apply map_session_refines. generalize (∅ : gmap Z Z). induction ops; by split. Qed.

(** [Find] returns the value of the key, or [no_value_]; it keeps the
    dictionary and the order, and a key that is found is then at the root. *)
Lemma splay_find_correct s nv m k :
  ⦃ sp_set s nv m ⦄
    Splay.Find (Some s) k
  ⦃ r, <affine> ⌜r = value_or nv m k⌝ ∗ ∃ t, <affine> ⌜dict_of m t ∧ at_root k m t⌝ ∗ sp_at s nv t ⦄.
Proof.
  apply hoare_wp. iIntros "Hs". iApply (wp_sps_find with "Hs"). iIntros (t Ht) "Hs". iSplit; [done |].
  iExists t. by iFrame.
Qed.

(** [Insert] adds the pair when the key is absent and changes nothing when
    it is present; the key is then at the root. *)
Lemma splay_insert_correct s nv m k v :
  ⦃ sp_set s nv m ⦄
    Splay.Insert (Some s) k v
  ⦃ r, <affine> ⌜r = value_or nv m k⌝ ∗
         ∃ t, <affine> ⌜dict_of (dict_insert k v m) t ∧ at_root k (dict_insert k v m) t⌝ ∗ sp_at s nv t ⦄.
Proof.
  apply hoare_wp. iIntros "Hs". iApply (wp_sps_insert with "Hs"). iIntros (t Ht) "Hs". iSplit; [done |].
  iExists t. by iFrame.
Qed.

(** [Delete] removes the key, frees exactly its node and returns the value
    found. *)
Lemma splay_delete_correct s nv m k :
  ⦃ sp_set s nv m ⦄
    Splay.Delete (Some s) k
  ⦃ r, <affine> ⌜r = value_or nv m k⌝ ∗ sp_set s nv (delete k m) ⦄.
Proof. apply hoare_wp. iIntros "Hs". iApply (wp_sps_delete with "Hs"). by iIntros "$". Qed.

(** C29: [Validate] accepts a tree just when its keys are in symmetric order and
    no value is [no_value_]. *)
Theorem splay_validate_exact s nv t :
  ⦃ sp_at s nv t ⦄
    Splay.Validate (Some s)
  ⦃ r, <affine> ⌜r = true ↔ ordered (elements t) ∧ Forall (λ kv, kv.2 ≠ nv) (elements t)⌝ ∗ sp_at s nv t ⦄.
Proof.
  apply hoare_wp. iIntros "Hs". iApply (wp_sp_Validate with "Hs"). iIntros "$". iPureIntro.
  rewrite valid_spec. rewrite !Forall_forall. split; intros [? Hall]; (split; [done |]);
    intros x Hx; [apply (Hall x Hx) | split; [by apply Hall | done]].
Qed.
