(* ===== verification/BTreeModel.v ===== *)
(** * BTreeModel: the B-tree

    Translation of [cpp/gsat/ds/btree/btree.h], [btree_node.h] and
    [btree_node_handler.h], and of the adapter [cpp/ds/btree/adapter.h] with
    [Key = Value = Z].  The arrays [nodes] and
    [indices] of [Insert] and [Delete] are one list, the innermost node first;
    [depth] is its length less one.  [kMinKeys] is the template parameter. *)
From S2P Require Import Prelude Memory Arrays.
#[local] Open Scope Z_scope.
#[local] Open Scope cpp_scope.

Module BT.

Definition keys : field btree_node (list Z) := Field bt_keys (λ x n,
  BTreeNode x n.(bt_values) n.(bt_children) n.(bt_size)).
Definition values : field btree_node (list Z) := Field bt_values (λ x n,
  BTreeNode n.(bt_keys) x n.(bt_children) n.(bt_size)).
Definition children : field btree_node (list ptr) := Field bt_children (λ x n,
  BTreeNode n.(bt_keys) n.(bt_values) x n.(bt_size)).
Definition size_ : field btree_node Z := Field bt_size (λ x n,
  BTreeNode n.(bt_keys) n.(bt_values) n.(bt_children) x).
Definition no_value_ : field btree Z := Field btt_no_value (λ x t, BTree x t.(btt_root)).
Definition root_ : field btree ptr := Field btt_root (λ x t, BTree t.(btt_no_value) x).

(** ** Arrays *)

(** The elements [i .. j-1]. *)
Definition slice {A} (xs : list A) (i j : Z) : list A :=
  take (Z.to_nat (j - i)) (drop (Z.to_nat i) xs).
(** [ys] with [zs] written from index [d] on. *)
Definition blit {A} (zs : list A) (ys : list A) (d : Z) : list A :=
  take (Z.to_nat d) ys ++ zs ++ drop (Z.to_nat d + length zs) ys.

(** [std::move(p->f + i, p->f + j, q->f + d)], also [std::copy] *)
Definition amove {A} (f : field btree_node (list A)) (p : ptr) (i j : Z) (q : ptr) (d : Z) : M unit :=
  xs ← p ~> f;
  ys ← q ~> f;
  if (0 <=? i) && (i <=? j) && (j <=? Z.of_nat (length xs)) &&
     (0 <=? d) && (d + (j - i) <=? Z.of_nat (length ys))
  then q ~> f ::= blit (slice xs i j) ys d
  else throw InvalidAccess.

(** ** Searching in a node *)

Definition SearchStep (node : ptr) (k : Z) : Z * Z → M (Z * Z + Z) := searchStep keys node k.

(** The fuel is the size of the node: each turn shortens the interval. *)
Definition Search (node : ptr) (k : Z) : M Z :=
  n ← node ~> size_;
  iter (Z.to_nat (n + 1)) (SearchStep node k) (-1, n).

Definition KeyFound (node : ptr) (index k : Z) : M bool :=
  n ← node ~> size_;
  if negb (index =? n) then ki ← aget node keys index; mret (ki =? k) else mret false.

Section btree.
Context (kMinKeys : Z).
Definition kMaxKeys : Z := 2 * kMinKeys.
Definition kMaxDepth : Z := 16.

(** ** Nodes *)

(** [new Node()] sets every member to zero. *)
Definition newNode : M ptr :=
  new (BTreeNode (replicate (Z.to_nat kMaxKeys) 0) (replicate (Z.to_nat kMaxKeys) 0)
    (replicate (Z.to_nat (kMaxKeys + 1)) NULL) 0).

Definition InitializeDefault (node : ptr) : M unit :=
  cs ← node ~> children;
  node ~> children ::= blit (replicate (Z.to_nat (kMaxKeys + 1)) NULL) cs 0;;
  node ~> size_ ::= 0.

Definition InitializeMove (node : ptr) (ikeys ivalues : list Z) (ichildren : list ptr) (isize : Z) : M unit :=
  ks ← node ~> keys;
  node ~> keys ::= blit (slice ikeys 0 isize) ks 0;;
  vs ← node ~> values;
  node ~> values ::= blit (slice ivalues 0 isize) vs 0;;
  cs ← node ~> children;
  node ~> children ::= blit (slice ichildren 0 (isize + 1)) cs 0;;
  cs ← node ~> children;
  node ~> children ::= blit (replicate (Z.to_nat (kMaxKeys - isize)) NULL) cs (isize + 1);;
  node ~> size_ ::= isize.

(** The constructor *)
Definition newTree (no_value : Z) : M ptr :=
  r ← newNode;
  t ← new (BTree no_value r);
  InitializeDefault r;;
  mret t.

(** ** Find *)

Definition FindStep (this : ptr) (k : Z) (node : ptr) : M (ptr + Z) :=
  if node == NULL then nv ← this ~> no_value_; break nv
  else
    index ← Search node k;
    found ← KeyFound node index k;
    if (found : bool) then v ← aget node values index; break v
    else c ← aget node children index; continue c.

Definition Find (this : ptr) (k : Z) : M Z :=
  r ← this ~> root_; loop (FindStep this k) r.

Definition Contains (this : ptr) (k : Z) : M bool :=
  v ← Find this k; nv ← this ~> no_value_; mret (negb (v =? nv)).

(** ** Insert *)

(** [Split]: the local arrays are lists; the middle pair and the new left node
    are returned. *)
Definition Split (node : ptr) (index k v : Z) (next_node : ptr) : M (Z * Z * ptr) :=
  n ← node ~> size_;
  nks ← node ~> keys; nvs ← node ~> values; ncs ← node ~> children;
  let ks := slice nks 0 index ++ k :: slice nks index n in
  let vs := slice nvs 0 index ++ v :: slice nvs index n in
  let cs := slice ncs 0 index ++ next_node :: slice ncs index (n + 1) in
  new_node ← newNode;
  InitializeMove new_node ks vs cs kMinKeys;;
  InitializeMove node (drop (Z.to_nat (kMinKeys + 1)) ks) (drop (Z.to_nat (kMinKeys + 1)) vs)
    (drop (Z.to_nat (kMinKeys + 1)) cs) kMinKeys;;
  match ks !! Z.to_nat kMinKeys, vs !! Z.to_nat kMinKeys with
  | Some k', Some v' => mret (k', v', new_node)
  | _, _ => throw InvalidAccess
  end.

(** The loops that make room at [index], with [n] turns to go. *)
Fixpoint shiftKeys (node : ptr) (index : Z) (n : nat) : M unit :=
  match n with
  | O => mret ()
  | S n =>
      let at_ := index + Z.of_nat n in
      x ← aget node keys at_; aset node keys (at_ + 1) x;;
      x ← aget node values at_; aset node values (at_ + 1) x;;
      shiftKeys node index n
  end.
Fixpoint shiftChildren (node : ptr) (index : Z) (n : nat) : M unit :=
  match n with
  | O => mret ()
  | S n =>
      let at_ := index + Z.of_nat n in
      x ← aget node children at_; aset node children (at_ + 1) x;;
      shiftChildren node index n
  end.

Definition insertAt (node : ptr) (index k v : Z) (next_node : ptr) : M unit :=
  n ← node ~> size_;
  shiftKeys node index (Z.to_nat (n - index));;
  n ← node ~> size_;
  shiftChildren node index (Z.to_nat (n + 1 - index));;
  aset node keys index k;;
  aset node values index v;;
  aset node children index next_node;;
  n ← node ~> size_;
  node ~> size_ ::= n + 1.

Abbreviation path := (list (ptr * Z)).

Definition InsertSearchStep (k : Z) (s : ptr * path) : M (ptr * path + (Z + path)) :=
  let '(node, p) := s in
  assert_ (Z.of_nat (length p) <? kMaxDepth);;
  index ← Search node k;
  let p := (node, index) :: p in
  found ← KeyFound node index k;
  if (found : bool) then v ← aget node values index; break (inl v)
  else
    c ← aget node children index;
    if c == NULL then break (inr p)
    else c ← aget node children index; continue (c, p).

Definition growRoot (this : ptr) (k v : Z) (next_node : ptr) : M unit :=
  assert_ (next_node != NULL);;
  new_root ← newNode;
  InitializeDefault new_root;;
  aset new_root keys 0 k;;
  aset new_root values 0 v;;
  aset new_root children 0 next_node;;
  r ← this ~> root_;
  aset new_root children 1 r;;
  new_root ~> size_ ::= 1;;
  this ~> root_ ::= new_root.

(** The loop of [Insert] that goes up the path. *)
Fixpoint insertUp (this : ptr) (p : path) (k v : Z) (next_node : ptr) : M unit :=
  match p with
  | [] => growRoot this k v next_node
  | (node, index) :: p =>
      n ← node ~> size_;
      if n =? kMaxKeys then
        '(k, v, next_node) ← Split node index k v next_node;
        insertUp this p k v next_node
      else insertAt node index k v next_node
  end.

Definition Insert (this : ptr) (k v : Z) : M Z :=
  r ← this ~> root_;
  found ← loop (InsertSearchStep k) (r, []);
  match found with
  | inl w => mret w
  | inr p => insertUp this p k v NULL;; this ~> no_value_
  end.

(** ** Delete *)

Definition TransferFromLeftToRight (node : ptr) (left_index : Z) : M unit :=
  left_child ← aget node children left_index;
  right_child ← aget node children (left_index + 1);
  left_size ← left_child ~> size_;
  n ← right_child ~> size_;
  shiftKeys right_child 0 (Z.to_nat n);;
  n ← right_child ~> size_;
  shiftChildren right_child 0 (Z.to_nat (n + 1));;
  x ← aget node keys left_index; aset right_child keys 0 x;;
  x ← aget node values left_index; aset right_child values 0 x;;
  x ← aget left_child children left_size; aset right_child children 0 x;;
  x ← aget left_child keys (left_size - 1); aset node keys left_index x;;
  x ← aget left_child values (left_size - 1); aset node values left_index x;;
  n ← left_child ~> size_; left_child ~> size_ ::= n - 1;;
  n ← right_child ~> size_; right_child ~> size_ ::= n + 1.

Definition TransferFromRightToLeft (node : ptr) (left_index : Z) : M unit :=
  left_child ← aget node children left_index;
  right_child ← aget node children (left_index + 1);
  left_size ← left_child ~> size_;
  right_size ← right_child ~> size_;
  x ← aget node keys left_index; aset left_child keys left_size x;;
  x ← aget node values left_index; aset left_child values left_size x;;
  x ← aget right_child children 0; aset left_child children (left_size + 1) x;;
  x ← aget right_child keys 0; aset node keys left_index x;;
  x ← aget right_child values 0; aset node values left_index x;;
  amove keys right_child 1 right_size right_child 0;;
  amove values right_child 1 right_size right_child 0;;
  amove children right_child 1 (right_size + 1) right_child 0;;
  n ← left_child ~> size_; left_child ~> size_ ::= n + 1;;
  n ← right_child ~> size_; right_child ~> size_ ::= n - 1.

Definition MergeChildren (node : ptr) (left_index : Z) : M unit :=
  left_child ← aget node children left_index;
  right_child ← aget node children (left_index + 1);
  left_size ← left_child ~> size_;
  right_size ← right_child ~> size_;
  assert_ (left_size + right_size + 1 =? kMaxKeys);;
  x ← aget node keys left_index; aset left_child keys left_size x;;
  x ← aget node values left_index; aset left_child values left_size x;;
  n ← node ~> size_;
  amove keys node (left_index + 1) n node left_index;;
  n ← node ~> size_;
  amove values node (left_index + 1) n node left_index;;
  n ← node ~> size_;
  amove children node (left_index + 2) (n + 1) node (left_index + 1);;
  n ← node ~> size_;
  node ~> size_ ::= n - 1;;
  amove keys right_child 0 right_size left_child (left_size + 1);;
  amove values right_child 0 right_size left_child (left_size + 1);;
  amove children right_child 0 (right_size + 1) left_child (left_size + 1);;
  left_child ~> size_ ::= left_size + right_size + 1;;
  free btree_node right_child.

Definition DeleteSearchStep (k : Z) (s : ptr * path) : M (ptr * path + (ptr * path)) :=
  let '(node, p) := s in
  if node == NULL then break (NULL, p)
  else
    assert_ (Z.of_nat (length p) <? kMaxDepth);;
    index ← Search node k;
    let p := (node, index) :: p in
    found ← KeyFound node index k;
    if (found : bool) then break (node, p)
    else c ← aget node children index; continue (c, p).

(** Down to the node with the largest key below [children[index]]; the last
    element of the path is the node the walk is at.  The arrays [nodes] and
    [indices] have [kMaxDepth] elements; this loop does not assert it. *)
Definition DownStep (s : ptr * Z * path) : M (ptr * Z * path + ptr * Z * path) :=
  let '(node, index, p) := s in
  c ← aget node children index;
  if c == NULL then break (node, index, p)
  else
    node ← aget node children index;
    index ← node ~> size_;
    if Z.of_nat (length p) <? kMaxDepth then continue (node, index, (node, index) :: p)
    else throw InvalidAccess.

(** [true]: [Delete] returns at once. *)
Fixpoint fixUp (child : ptr) (p : path) : M bool :=
  match p with
  | [] => mret false
  | (node, index) :: p =>
      cn ← child ~> size_;
      if cn >=? kMinKeys then mret false
      else
        cn ← child ~> size_;
        assert_ (cn =? kMinKeys - 1);;
        left_ok ← (if index =? 0 then mret false
                   else c ← aget node children (index - 1); n ← c ~> size_; mret (n >? kMinKeys));
        if (left_ok : bool) then TransferFromLeftToRight node (index - 1);; mret true
        else
          n ← node ~> size_;
          right_ok ← (if index =? n then mret false
                      else c ← aget node children (index + 1); n ← c ~> size_; mret (n >? kMinKeys));
          if (right_ok : bool) then TransferFromRightToLeft node index;; mret true
          else
            MergeChildren node (if index =? 0 then index else index - 1);;
            fixUp node p
  end.

(** The part of [Delete] after the key has been found: the key at [index] of
    [node] is replaced by its predecessor, which is removed from a leaf. *)
Definition removeKey (node : ptr) (index : Z) (p : path) : M (ptr * path) :=
  c ← aget node children index;
  '(leaf, index, p) ←
    (if c != NULL then
       '(leaf, i, p) ← loop DownStep (node, index, p);
       let i := i - 1 in
       x ← aget leaf keys i; aset node keys index x;;
       x ← aget leaf values i; aset node values index x;;
       mret (leaf, i, p)
     else mret (node, index, p));
  n ← leaf ~> size_;
  amove keys leaf (index + 1) n leaf index;;
  n ← leaf ~> size_;
  amove values leaf (index + 1) n leaf index;;
  n ← leaf ~> size_;
  leaf ~> size_ ::= n - 1;;
  mret (leaf, p).

Definition shrinkRoot (this : ptr) : M unit :=
  r ← this ~> root_;
  new_root ← aget r children 0;
  r ← this ~> root_;
  n ← r ~> size_;
  when ((n =? 0) && (new_root != NULL))
    (r ← this ~> root_; free btree_node r;; this ~> root_ ::= new_root).

Definition Delete (this : ptr) (k : Z) : M Z :=
  r ← this ~> root_;
  '(node, p) ← loop (DeleteSearchStep k) (r, []);
  match node, p with
  | None, _ => this ~> no_value_
  | Some _, [] => throw InvalidAccess
  | Some _, (_, index) :: _ =>
      result ← aget node values index;
      '(leaf, p) ← removeKey node index p;
      n ← leaf ~> size_;
      if n >=? kMinKeys then mret result
      else
        returned ← fixUp leaf (tail p);
        if (returned : bool) then mret result
        else shrinkRoot this;; mret result
  end.

(** ** Validation and destruction *)

(** The checks at position [index] of a node: [false] when one throws. *)
Definition checkAt (nv : Z) (node : ptr) (index n : Z) (lo hi : option Z) : M bool :=
  ok ← (match lo, hi with Some a, Some b => mret (a <? b) | _, _ => mret true end);
  if negb (ok : bool) then mret false
  else if index <? n then v ← aget node values index; mret (negb (v =? nv))
  else mret true.

(** The loop over the positions of a node, with [todo] to go; [validate] is the
    recursive call. *)
Fixpoint validateAt (validate : ptr → option Z → option Z → M bool) (this node : ptr) (n : Z)
    (lo hi : option Z) (todo : nat) (index : Z) : M bool :=
  match todo with
  | O => mret true
  | S todo =>
      lo' ← (if index =? 0 then mret lo else k ← aget node keys (index - 1); mret (Some k));
      hi' ← (if index =? n then mret hi else k ← aget node keys index; mret (Some k));
      nv ← this ~> no_value_;
      ok ← checkAt nv node index n lo' hi';
      if negb (ok : bool) then mret false
      else
        c ← aget node children index;
        ok ← validate c lo' hi';
        if negb (ok : bool) then mret false
        else validateAt validate this node n lo hi todo (index + 1)
  end.

Fixpoint ValidateNode (fuel : nat) (this : ptr) (node : ptr) (lo hi : option Z) : M bool :=
  match fuel with
  | O => throw OutOfFuel
  | S fuel =>
      if node == NULL then mret true
      else
        r ← this ~> root_;
        n ← node ~> size_;
        if negb ((node == r) || (kMinKeys <=? n)) then mret false
        else if negb (n <=? kMaxKeys) then mret false
        else validateAt (ValidateNode fuel this) this node n lo hi (Z.to_nat (n + 1)) 0
  end.
Definition Validate (this : ptr) : M bool :=
  with_fuel (λ fuel, r ← this ~> root_; ValidateNode fuel this r None None).

Fixpoint Free (fuel : nat) (node : ptr) : M unit :=
  match fuel with
  | O => throw OutOfFuel
  | S fuel =>
      if node == NULL then mret ()
      else
        n ← node ~> size_;
        forChildren children (Free fuel) node (Z.to_nat (n + 1)) 0;;
        free btree_node node
  end.
Definition deleteTree (this : ptr) : M unit :=
  with_fuel (λ fuel, r ← this ~> root_; Free fuel r);;
  free btree this.

Definition GetRoot (this : ptr) : M ptr := this ~> root_.

(** ** The node handler *)

(** [ChildIterator]: the node and the position [at_] *)
Definition AdvanceStep (node : ptr) (at_ : Z) : M (Z + Z) :=
  n ← node ~> size_;
  if at_ <=? n then
    c ← aget node children at_;
    if c == NULL then continue (at_ + 1) else break at_
  else break at_.
(** At most one turn for each child from [at_] on. *)
Definition Advance (node : ptr) (at_ : Z) : M Z :=
  n ← node ~> size_; iter (Z.to_nat (n + 2 - at_)) (AdvanceStep node) at_.
Definition GetChildIterator (node : ptr) : M (ptr * Z) :=
  at_ ← Advance node 0; mret (node, at_).
Definition HasNext (it : ptr * Z) : M bool :=
  n ← it.1 ~> size_; mret (negb (it.2 =? n + 1)).
Definition Next (it : ptr * Z) : M (ptr * (ptr * Z)) :=
  let '(node, at_) := it in
  result ← aget node children at_;
  at_ ← Advance node (at_ + 1);
  mret (result, (node, at_)).

Fixpoint noChild (node : ptr) (todo : nat) (index : Z) : M bool :=
  match todo with
  | O => mret true
  | S todo => c ← aget node children index; if c != NULL then mret false else noChild node todo (index + 1)
  end.
Definition IsLeaf (node : ptr) : M bool :=
  n ← node ~> size_; noChild node (Z.to_nat (n + 1)) 0.

Definition GetNumKeys (node : ptr) : M Z := node ~> size_.

(** [sum += node->keys[index]] on [int64_t] *)
Definition int64 (z : Z) : Z := (z + 2 ^ 63) mod 2 ^ 64 - 2 ^ 63.
Fixpoint sumKeys (node : ptr) (todo : nat) (index sum : Z) : M Z :=
  match todo with
  | O => mret sum
  | S todo => k ← aget node keys index; sumKeys node todo (index + 1) (int64 (sum + k))
  end.
Definition GetSumKeys (node : ptr) : M Z :=
  n ← node ~> size_; sumKeys node (Z.to_nat n) 0 0.

(** ** The adapter *)

Definition insertIfAbsent (ds : ptr) (k v : Z) : M Z := Insert ds k v.
Definition erase (ds : ptr) (k : Z) : M Z := Delete ds k.
Definition find (ds : ptr) (k : Z) : M Z := Find ds k.
Definition contains (ds : ptr) (k : Z) : M bool := Contains ds k.
Definition insert_replace (ds : ptr) (k v : Z) : M Z := throw ProgramExit.
Definition rangeQuery (ds : ptr) (lo hi : Z) : M Z := throw ProgramExit.
Definition validateStructure (ds : ptr) : M bool := Validate ds.

End btree.

(** ** A small run *)

Fixpoint insertAll (t : ptr) (ks : list Z) : M unit :=
  match ks with [] => mret () | k :: ks => Insert 1 t k (10 * k);; insertAll t ks end.
Fixpoint deleteAll (t : ptr) (ks : list Z) : M (list Z) :=
  match ks with
  | [] => mret []
  | k :: ks => v ← Delete 1 t k; vs ← deleteAll t ks; mret (v :: vs)
  end.
Definition demo : M (list Z * (bool * bool)) :=
  t ← newTree 1 (-1);
  insertAll t [5; 3; 8; 1; 9; 2; 7; 6; 4; 10; 11; 12];;
  a ← Find t 7; b ← Find t 13; c ← Insert 1 t 7 71;
  ok ← Validate 1 t;
  ds ← deleteAll t [5; 1; 12; 13; 8; 3; 4; 2];
  ok2 ← Validate 1 t;
  d ← Find t 9; e ← Find t 8;
  deleteTree t;;
  mret ([a; b; c; d; e] ++ ds, (ok, ok2)).
Example btree_demo_runs :
  demo ∅ = Ok ([70; -1; 70; 90; -1; 50; 10; 120; -1; 80; 30; 40; 20], (true, true)) ∅.
Proof. vm_compute. reflexivity. Qed.

End BT.
