(* ===== verification/BTreeSpec.v ===== *)
(** * BTreeSpec: B-trees and the paths in them

    The functional side of the B-tree.  A node has its pairs and one child more;
    the children of a leaf node are all [BNil], as the pointers in the store are
    all [nullptr].  A frame is a node with one child taken out. *)
From S2P Require Import Prelude OrderedSet BinTree.
#[local] Open Scope Z_scope.

Abbreviation kv := (Z * Z)%type.

Inductive btr :=
  | BNil
  | BN (kvs : list kv) (cs : list btr).

(** The pairs in symmetric order: lists of pairs with separators between them. *)
Fixpoint weave {A} (kvs : list A) (ess : list (list A)) : list A :=
  match ess with
  | [] => []
  | e :: ess => match kvs with [] => e | x :: kvs => e ++ x :: weave kvs ess end
  end.
Fixpoint belems (t : btr) : list kv :=
  match t with BNil => [] | BN kvs cs => weave kvs (map belems cs) end.

Lemma weave_app {A} (k1 : list A) x k2 e1 e2 :
  length e1 = S (length k1) →
  weave (k1 ++ x :: k2) (e1 ++ e2) = weave k1 e1 ++ x :: weave k2 e2.
Proof.
  revert k1. induction e1 as [|e e1 IH]; intros [|y k1] Hl; simplify_eq/=.
  - by destruct e1.
  - by rewrite IH // -app_assoc.
Qed.

(** What stands left and right of a child. *)
Lemma weave_hole {A} (k1 k2 : list A) e1 e e2 :
  length e1 = length k1 →
  weave (k1 ++ k2) (e1 ++ e :: e2) = weave k1 (e1 ++ [[]]) ++ e ++ weave k2 ([] :: e2).
Proof.
  revert k1. induction e1 as [|e' e1 IH]; intros [|y k1] Hl; simplify_eq/=.
  - destruct k2; [by rewrite app_nil_r | done].
  - by rewrite IH // -app_assoc.
Qed.

(** A new pair with the list left of it, next to a child. *)
Lemma weave_insert {A} (k1 : list A) x k2 e1 a b e2 :
  length e1 = length k1 →
  weave (k1 ++ x :: k2) (e1 ++ a :: b :: e2) =
    weave k1 (e1 ++ [[]]) ++ a ++ x :: b ++ weave k2 ([] :: e2).
Proof.
  revert k1. induction e1 as [|e' e1 IH]; intros [|y k1] Hl; simplify_eq/=.
  - destruct k2; [by rewrite app_nil_r | done].
  - by rewrite IH // -app_assoc.
Qed.

Lemma weave_sublist {A} (kvs : list A) ess : length ess = S (length kvs) → sublist kvs (weave kvs ess).
Proof.
  revert kvs. induction ess as [|e ess IH]; intros [|x kvs] Hl; simplify_eq/=.
  - apply sublist_nil_l.
  - apply sublist_inserts_l, sublist_skip, IH. lia.
Qed.

Lemma ordered_sublist l1 l2 : sublist l1 l2 → ordered l2 → ordered l1.
Proof.
  induction 1 as [|x l1 l2 Hs IH|x l1 l2 Hs IH]; intros Ho; [constructor | |];
    apply ordered_cons in Ho as [Ho Hx]; [|by apply IH].
  apply ordered_cons. split; [by apply IH |]. intros y Hy. apply Hx. by eapply elem_of_submseteq, sublist_submseteq.
Qed.

Lemma ordered_lookup l i j x y : ordered l → (i < j)%nat → l !! i = Some x → l !! j = Some y → x.1 < y.1.
Proof.
  revert i j. induction l as [|z l IH]; intros i j Ho Hij Hx Hy; [done |].
  apply ordered_cons in Ho as [Ho Hz]. destruct j as [|j]; [lia |]. destruct i as [|i]; simplify_eq/=.
  - apply Hz. by eapply list_elem_of_lookup_2.
  - apply (IH i j); [done | lia | done..].
Qed.

Lemma weave_below k k1 e1 :
  length e1 = length k1 → ordered (weave k1 (e1 ++ [[]])) → keys_below k1 k →
  keys_below (weave k1 (e1 ++ [[]])) k.
Proof.
  revert k1. induction e1 as [|e e1 IH]; intros [|x k1] Hl Ho Hb; simplify_eq/=; [constructor |].
  apply Forall_cons in Hb as [Hx Hb]. apply ordered_middle in Ho as (Ho & He & _).
  apply Forall_app. split; [eapply Forall_impl; [apply He | simpl; lia] |].
  constructor; [done |]. apply IH; [done | by apply ordered_split in Ho as [_ ?] | done].
Qed.

Lemma weave_above k k2 e2 :
  length e2 = length k2 → ordered (weave k2 ([] :: e2)) → keys_above k2 k →
  keys_above (weave k2 ([] :: e2)) k.
Proof.
  revert k2. induction e2 as [|e e2 IH]; intros [|x k2] Hl Ho Ha; simplify_eq/=; [constructor |].
  apply Forall_cons in Ha as [Hx Ha]. apply (ordered_middle []) in Ho as (_ & _ & Hab). simpl in Hab.
  constructor; [done |]. eapply Forall_impl; [apply Hab | simpl; lia].
Qed.

(** ** Paths *)

Record bframe := BFrame { fk1 : list kv; fc1 : list btr; fk2 : list kv; fc2 : list btr }.

Definition bplug_frame (f : bframe) (t : btr) : btr :=
  BN (f.(fk1) ++ f.(fk2)) (f.(fc1) ++ t :: f.(fc2)).
Fixpoint bplug (c : list bframe) (t : btr) : btr :=
  match c with [] => t | f :: c => bplug c (bplug_frame f t) end.

Definition bframe_l (f : bframe) : list kv := weave f.(fk1) (map belems f.(fc1) ++ [[]]).
Definition bframe_r (f : bframe) : list kv := weave f.(fk2) ([] :: map belems f.(fc2)).
Fixpoint bctx_l (c : list bframe) : list kv :=
  match c with [] => [] | f :: c => bctx_l c ++ bframe_l f end.
Fixpoint bctx_r (c : list bframe) : list kv :=
  match c with [] => [] | f :: c => bframe_r f ++ bctx_r c end.

(** As many children as keys on each side. *)
Definition frame_ok (f : bframe) : Prop :=
  length f.(fc1) = length f.(fk1) ∧ length f.(fc2) = length f.(fk2).

Lemma belems_plug_frame f t : frame_ok f → belems (bplug_frame f t) = bframe_l f ++ belems t ++ bframe_r f.
Proof. intros [H1 H2]. simpl. rewrite map_app /= weave_hole //. by rewrite length_map. Qed.

Lemma belems_insert f n x t :
  frame_ok f →
  belems (BN (fk1 f ++ x :: fk2 f) (fc1 f ++ n :: t :: fc2 f)) =
    bframe_l f ++ belems n ++ x :: belems t ++ bframe_r f.
Proof. intros [H1 H2]. simpl. rewrite map_app /= weave_insert //. by rewrite length_map. Qed.

(** A node cut in two at one of its pairs. *)
Lemma belems_cut kl x kr cl cr :
  length cl = S (length kl) → belems (BN (kl ++ x :: kr) (cl ++ cr)) = belems (BN kl cl) ++ x :: belems (BN kr cr).
Proof. intros Hl. simpl. rewrite map_app weave_app //. by rewrite length_map. Qed.

(** A pair moves between neighbours. *)
Lemma belems_rotate kl e cl ct e' kr cr l :
  length cl = S (length kl) →
  belems (BN (kl ++ [e]) (cl ++ [ct])) ++ e' :: belems (BN kr cr) ++ l =
    belems (BN kl cl) ++ e :: belems (BN (e' :: kr) (ct :: cr)) ++ l.
Proof. intros Hl. by rewrite belems_cut //= -?app_assoc /= -?app_assoc. Qed.

Lemma belems_plug c t : Forall frame_ok c → belems (bplug c t) = bctx_l c ++ belems t ++ bctx_r c.
Proof.
  intros Hc. revert t. induction Hc as [|f c Hf Hc IH]; intros t; simpl; [by rewrite app_nil_r |].
  by rewrite IH belems_plug_frame // -!app_assoc.
Qed.

Lemma bctx_l_app c1 c2 : bctx_l (c1 ++ c2) = bctx_l c2 ++ bctx_l c1.
Proof. induction c1 as [|f c1 IH]; simpl; [by rewrite app_nil_r | by rewrite IH -app_assoc]. Qed.
Lemma bctx_r_app c1 c2 : bctx_r (c1 ++ c2) = bctx_r c1 ++ bctx_r c2.
Proof. induction c1 as [|f c1 IH]; simpl; [done | by rewrite IH -app_assoc]. Qed.

(** ** Shape *)

Section shape.
Context (kMin : nat).

(** [bwf h t]: an inner subtree of height [h]: every node has between [kMin] and
    [2 kMin] keys, and all leaves are at the same depth. *)
Fixpoint bwf (h : nat) (t : btr) : Prop :=
  match h, t with
  | O, BNil => True
  | S h, BN kvs cs =>
      (kMin ≤ length kvs ≤ 2 * kMin)%nat ∧ length cs = S (length kvs) ∧ Forall (bwf h) cs
  | _, _ => False
  end.

(** The root may have fewer keys, but not none when it has children. *)
Definition broot (h : nat) (t : btr) : Prop :=
  match h, t with
  | S h, BN kvs cs =>
      (length kvs ≤ 2 * kMin)%nat ∧ length cs = S (length kvs) ∧ Forall (bwf h) cs ∧
      (h = 0%nat ∨ (0 < length kvs)%nat)
  | _, _ => False
  end.

(** A path whose hole expects a subtree of height [h]; the root has height
    [top]. *)
Definition frame_wf (f : bframe) (h : nat) (root : bool) : Prop :=
  frame_ok f ∧ Forall (bwf h) f.(fc1) ∧ Forall (bwf h) f.(fc2) ∧
  (length (f.(fk1) ++ f.(fk2)) ≤ 2 * kMin)%nat ∧
  (if root then h = 0%nat ∨ 0 < length (f.(fk1) ++ f.(fk2)) else kMin ≤ length (f.(fk1) ++ f.(fk2)))%nat.
Fixpoint ctx_wf (c : list bframe) (h top : nat) : Prop :=
  match c with
  | [] => h = top
  | f :: c => frame_wf f h (bool_decide (c = [])) ∧ ctx_wf c (S h) top
  end.

Lemma ctx_wf_ok c h top : ctx_wf c h top → Forall frame_ok c.
Proof.
  revert h. induction c as [|f c IH]; intros h; simpl; [constructor |].
  intros [[? _] Hc]. constructor; [done | by eapply IH].
Qed.

Lemma ctx_wf_length c h top : ctx_wf c h top → (length c + h = top)%nat.
Proof.
  revert h. induction c as [|f c IH]; intros h; simpl; [done |]. intros [_ Hc%IH]. lia.
Qed.

(** Another pair in a node of the path. *)
Lemma ctx_wf_pair sp k1 c1 e e' k2 c2 c h top :
  ctx_wf (sp ++ BFrame k1 c1 (e :: k2) c2 :: c) h top → ctx_wf (sp ++ BFrame k1 c1 (e' :: k2) c2 :: c) h top.
Proof.
  revert h. induction sp as [|f sp IH]; intros h; simpl; intros [Hf Hc]; (split; [|by eauto]).
  - revert Hf. rewrite /frame_wf /frame_ok /= !length_app. done.
  - by destruct sp.
Qed.

(** A subtree at the end of a path: the whole tree, or an inner one. *)
Definition sub_wf (c : list bframe) (h : nat) (t : btr) : Prop :=
  match c with [] => broot h t | _ => bwf h t end.

Lemma sub_wf_frame c h f t :
  sub_wf c (S h) (bplug_frame f t) → frame_ok f → frame_wf f h (bool_decide (c = [])) ∧ bwf h t.
Proof.
  intros Hs Hf. destruct c as [|g c]; simpl in Hs.
  - destruct Hs as (Hle & _ & [H1 [Ht H2]%Forall_cons]%Forall_app & Hpos). by split.
  - destruct Hs as ([Hge Hle] & _ & [H1 [Ht H2]%Forall_cons]%Forall_app). by split.
Qed.

Lemma ctx_wf_down c h top f t :
  ctx_wf c (S h) top → c ≠ [] → bwf (S h) (bplug_frame f t) → frame_ok f → ctx_wf (f :: c) h top.
Proof.
  intros Hc Hne Ht Hf. split; [|done]. destruct c as [|g c]; [done |].
  by destruct (sub_wf_frame (g :: c) h f t Ht Hf).
Qed.

Lemma frame_wf_sub f h c t :
  frame_wf f h (bool_decide (c = [])) → bwf h t → sub_wf c (S h) (bplug_frame f t).
Proof.
  intros ([Hf1 Hf2] & H1 & H2 & Hle & Hlo) Ht.
  assert (length (fc1 f ++ t :: fc2 f) = S (length (fk1 f ++ fk2 f))) by (rewrite !length_app /=; lia).
  assert (Forall (bwf h) (fc1 f ++ t :: fc2 f)) by (by apply Forall_app; split; [|constructor]).
  by destruct c; simpl in *; split_and!.
Qed.

(** One more pair in a node that is not full. *)
Lemma frame_wf_insert f h c n x t :
  frame_wf f h (bool_decide (c = [])) → bwf h n → bwf h t → (length (f.(fk1) ++ f.(fk2)) < 2 * kMin)%nat →
  sub_wf c (S h) (BN (fk1 f ++ x :: fk2 f) (fc1 f ++ n :: t :: fc2 f)).
Proof.
  intros ([Hf1 Hf2] & H1 & H2 & Hle & Hlo) Hn Ht Hlt. rewrite length_app in Hlt, Hlo.
  assert (length (fc1 f ++ n :: t :: fc2 f) = S (length (fk1 f ++ x :: fk2 f))) by (rewrite !length_app /=; lia).
  assert (Forall (bwf h) (fc1 f ++ n :: t :: fc2 f)) by (apply Forall_app; split; [done | by repeat constructor]).
  assert (length (fk1 f ++ x :: fk2 f) = S (length (fk1 f) + length (fk2 f))) as Hl by (rewrite length_app /=; lia).
  destruct c; simpl in *; rewrite Hl; split_and!; try done; lia.
Qed.

(** A full node with one more pair, cut in the middle. *)
Lemma frame_wf_halves f h root n x t kl y kr cl cr :
  frame_wf f h root → bwf h n → bwf h t →
  fc1 f ++ n :: t :: fc2 f = cl ++ cr → fk1 f ++ x :: fk2 f = kl ++ y :: kr →
  length kl = kMin → length kr = kMin → length cl = S kMin → length cr = S kMin →
  bwf (S h) (BN kl cl) ∧ bwf (S h) (BN kr cr) ∧
  belems (BN kl cl) ++ y :: belems (BN kr cr) = bframe_l f ++ belems n ++ x :: belems t ++ bframe_r f.
Proof.
  intros (Hok & H1 & H2 & _) Hn Ht HC HK Hkl Hkr Hcl Hcr.
  assert (Forall (bwf h) (cl ++ cr)) as [? ?]%Forall_app.
  { rewrite -HC. apply Forall_app; split; [done | by repeat constructor]. }
  split_and!; [split_and!; [lia | lia | congruence | done].. |].
  rewrite -belems_insert // HC HK belems_cut //. congruence.
Qed.

(** A node that may be one key short; a root may have no key at all. *)
Definition sub_low (c : list bframe) (h : nat) (t : btr) : Prop :=
  match h, t with
  | S h, BN kvs cs =>
      (length kvs ≤ 2 * kMin)%nat ∧ length cs = S (length kvs) ∧ Forall (bwf h) cs ∧
      (c = [] ∨ (kMin ≤ S (length kvs))%nat)
  | _, _ => False
  end.

Lemma sub_wf_low c h t : sub_wf c (S h) t → sub_low c (S h) t.
Proof.
  destruct c, t as [|kvs cs]; simpl; try done.
  - intros (? & ? & ? & ?). split_and!; [done..| by left].
  - intros (? & ? & ?). split_and!; [lia | done..| right; lia].
Qed.
Lemma sub_low_wf c h kvs cs :
  (0 < kMin)%nat → sub_low c (S h) (BN kvs cs) → (kMin ≤ length kvs)%nat → sub_wf c (S h) (BN kvs cs).
Proof. intros ? (? & ? & ? & ?) ?. destruct c; simpl; split_and!; try done. right. lia. Qed.

(** A node without one of its pairs and the two children around it. *)
Definition pair_wf (g : bframe) (h : nat) (root : bool) : Prop :=
  frame_ok g ∧ Forall (bwf h) g.(fc1) ∧ Forall (bwf h) g.(fc2) ∧
  (S (length (g.(fk1) ++ g.(fk2))) ≤ 2 * kMin)%nat ∧
  (root = true ∨ (kMin ≤ S (length (g.(fk1) ++ g.(fk2))))%nat).

Lemma pair_wf_left K1 C1 K2 C2 x n h root :
  length C1 = length K1 → frame_wf (BFrame (K1 ++ [x]) (C1 ++ [n]) K2 C2) h root →
  pair_wf (BFrame K1 C1 K2 C2) h root ∧ bwf h n.
Proof.
  intros Hl ([H1 H2] & [Hc1 [Hn _]%Forall_cons]%Forall_app & Hc2 & Hle & Hlo). simpl in *.
  rewrite !length_app /= in Hle, Hlo. split; [|done]. split_and!; simpl; try done.
  - rewrite length_app. lia.
  - rewrite length_app. destruct root; [by left | right; lia].
Qed.
Lemma pair_wf_right K1 C1 K2 C2 x n h root :
  frame_wf (BFrame K1 C1 (x :: K2) (n :: C2)) h root → pair_wf (BFrame K1 C1 K2 C2) h root ∧ bwf h n.
Proof.
  intros ([H1 H2] & Hc1 & [Hn Hc2]%Forall_cons & Hle & Hlo). simpl in *.
  rewrite !length_app /= in Hle, Hlo. split; [|done]. split_and!; simpl; try done; try lia.
  - split; simpl; lia.
  - rewrite length_app. lia.
  - rewrite length_app. destruct root; [by left | right; lia].
Qed.

(** The node with a pair and two children put in. *)
Lemma pair_wf_sub g h c n x t :
  pair_wf g h (bool_decide (c = [])) → bwf h n → bwf h t →
  sub_wf c (S h) (BN (fk1 g ++ x :: fk2 g) (fc1 g ++ n :: t :: fc2 g)).
Proof.
  intros ([Hf1 Hf2] & H1 & H2 & Hle & Hlo) Hn Ht. rewrite length_app in Hle, Hlo.
  assert (length (fc1 g ++ n :: t :: fc2 g) = S (length (fk1 g ++ x :: fk2 g))) by (rewrite !length_app /=; lia).
  assert (Forall (bwf h) (fc1 g ++ n :: t :: fc2 g)) by (apply Forall_app; split; [done | by repeat constructor]).
  assert (length (fk1 g ++ x :: fk2 g) = S (length (fk1 g) + length (fk2 g))) as Hl by (rewrite length_app /=; lia).
  destruct c; simpl in *; rewrite Hl; split_and!; try done; try lia.
Qed.

(** The node with the two children merged into one. *)
Lemma pair_wf_merged g h c t :
  pair_wf g h (bool_decide (c = [])) → bwf h t → sub_low c (S h) (bplug_frame g t).
Proof.
  intros ([Hf1 Hf2] & H1 & H2 & Hle & Hlo) Ht. split_and!.
  - lia.
  - rewrite !length_app /=. lia.
  - apply Forall_app; split; [done | by constructor].
  - destruct Hlo as [Hc|]; [left; by apply bool_decide_eq_true in Hc | by right].
Qed.

Lemma ctx_wf_plug c h top t : ctx_wf c h top → sub_wf c h t → broot top (bplug c t).
Proof.
  revert h t. induction c as [|f c IH]; intros h t; simpl; [by intros -> |].
  intros [Hf Hc] Ht. apply (IH (S h)); [done |]. by apply frame_wf_sub.
Qed.
End shape.

(** ** Searching *)

(** All leaves at depth [h], whatever the sizes of the nodes. *)
Fixpoint bshape (h : nat) (t : btr) : Prop :=
  match h, t with
  | O, BNil => True
  | S h, BN kvs cs => length cs = S (length kvs) ∧ Forall (bshape h) cs
  | _, _ => False
  end.

Lemma bwf_shape kMin h t : bwf kMin h t → bshape h t.
Proof.
  revert t. induction h as [|h IH]; intros [|kvs cs]; simpl; [done..|].
  intros (_ & Hl & Hcs). split; [done |]. eapply Forall_impl; [apply Hcs | apply IH].
Qed.
Lemma broot_shape kMin h t : broot kMin h t → bshape h t.
Proof.
  destruct h, t; simpl; [done..|]. intros (_ & Hl & Hcs & _). split; [done |].
  eapply Forall_impl; [apply Hcs | apply bwf_shape].
Qed.

Lemma bshape_leaf t : bshape 0 t → t = BNil.
Proof. by destruct t. Qed.

(** A leaf node has just its own pairs. *)
Lemma belems_leaf kMin kvs cs :
  Forall (bwf kMin 0) cs → length cs = S (length kvs) → belems (BN kvs cs) = kvs.
Proof.
  simpl. intros Hcs. revert kvs. induction Hcs as [|c cs Hc Hcs IH]; intros kvs Hl; [done |].
  destruct c; [|done]. destruct kvs as [|x kvs]; simpl; [done |]. f_equal. apply IH. simpl in Hl. lia.
Qed.

(** The keys of a node, at the position a search returns. *)
Definition key_position (k : Z) (k1 k2 : list kv) : Prop :=
  keys_below k1 k ∧ Forall (λ y, k ≤ y.1) k2.

Lemma position_absent k k1 k2 :
  ordered (k1 ++ k2) → key_position k k1 k2 →
  match k2 with (a, _) :: _ => a =? k | [] => false end = false → keys_above k2 k.
Proof.
  intros Ho [_ Hge] Hf. destruct k2 as [|[a b] k2]; [constructor |]. apply Z.eqb_neq in Hf.
  apply ordered_split in Ho as [_ Ho]. apply ordered_cons in Ho as [_ Ho].
  apply Forall_cons in Hge as [Ha _]. simpl in Ha. constructor; [simpl; lia |].
  apply Forall_forall. intros y Hy. specialize (Ho y Hy). unfold kv_lt in Ho. simpl in Ho. lia.
Qed.

Lemma ordered_node kvs cs : ordered (belems (BN kvs cs)) → length cs = S (length kvs) → ordered kvs.
Proof. intros Ho Hl. eapply ordered_sublist, Ho. apply weave_sublist. by rewrite length_map. Qed.

Lemma absent_frame k f t :
  frame_ok f → ordered (belems (bplug_frame f t)) → keys_below (fk1 f) k → keys_above (fk2 f) k →
  keys_below (bframe_l f) k ∧ keys_above (bframe_r f) k ∧ ordered (belems t).
Proof.
  intros Hf Ho Hb Ha. rewrite belems_plug_frame // in Ho. destruct Hf as [H1 H2].
  apply ordered_split in Ho as [Hol Ho]. apply ordered_split in Ho as [Hot Hor]. split_and!; [| |done].
  - apply weave_below; [by rewrite length_map | done..].
  - apply weave_above; [by rewrite length_map | done..].
Qed.

Lemma to_map_hole l1 l l2 k :
  keys_below l1 k → keys_above l2 k → to_map (l1 ++ l ++ l2) !! k = to_map l !! k.
Proof.
  intros Hb Ha. rewrite !to_map_app lookup_union_r; [rewrite lookup_union_l; [done |] |];
    apply to_map_None; eapply Forall_impl; [apply Ha | | apply Hb |]; simpl; lia.
Qed.

(** The elements around a key that is found in a node. *)
Lemma belems_found k1 k b k2 cs :
  length cs = S (length (k1 ++ (k, b) :: k2)) →
  ∃ l1 l2, belems (BN (k1 ++ (k, b) :: k2) cs) = l1 ++ (k, b) :: l2 ∧
    l1 = weave k1 (map belems (take (S (length k1)) cs)) ∧
    l2 = weave k2 (map belems (drop (S (length k1)) cs)).
Proof.
  intros Hl. eexists _, _. split; [|done]. simpl. rewrite -{1}(take_drop (S (length k1)) cs) map_app weave_app //.
  rewrite length_map length_take_le //. rewrite Hl length_app /=. lia.
Qed.

(** ** Dictionaries *)

Definition dict_is (m : gmap Z Z) (es : list kv) : Prop := ordered es ∧ to_map es = m.

Lemma dict_is_found m l1 k b l2 : dict_is m (l1 ++ (k, b) :: l2) → m !! k = Some b.
Proof. intros [Ho <-]. apply ordered_middle in Ho as (_ & Hb & _). by apply to_map_lookup. Qed.

Lemma dict_is_absent m l1 l2 k : dict_is m (l1 ++ l2) → keys_below l1 k → keys_above l2 k → m !! k = None.
Proof. intros [_ <-]. apply to_map_absent. Qed.

Lemma dict_is_insert m l1 l2 k v :
  dict_is m (l1 ++ l2) → keys_below l1 k → keys_above l2 k → dict_is (dict_insert k v m) (l1 ++ (k, v) :: l2).
Proof.
  intros Hd Hb Ha. rewrite /dict_insert (dict_is_absent m l1 l2 k Hd Hb Ha). destruct Hd as [Ho <-].
  split; [by apply ordered_insert | by apply to_map_insert].
Qed.

Lemma dict_is_delete m l1 k b l2 : dict_is m (l1 ++ (k, b) :: l2) → dict_is (delete k m) (l1 ++ l2).
Proof.
  intros [Ho <-]. apply ordered_middle in Ho as (Ho & Hb & Ha). split; [done |]. by apply to_map_delete.
Qed.
