(* ===== verification/BTreeProof.v ===== *)
(** * BTreeProof: nodes, search and paths of the B-tree in the store *)
From S2P Require Import Prelude Memory SepLogic Arrays OrderedSet BinTree BTreeModel BTreeSpec.
#[local] Open Scope Z_scope.
#[local] Open Scope cpp_scope.

(** ** Representation *)

Lemma list_lookup_middle_split {A} (l : list A) n :
  (n < length l)%nat → ∃ l1 x l2, l = l1 ++ x :: l2 ∧ length l1 = n.
Proof.
  intros [x Hx]%lookup_lt_is_Some_2. exists (take n l), x, (drop (S n) l). split.
  - by rewrite take_drop_middle.
  - rewrite length_take_le //. apply lookup_lt_Some in Hx. lia.
Qed.

Section rep.
Context (kMin : nat).

(** A node with its pairs and child pointers; the rest of its arrays is junk. *)
Definition node_rep (x : loc) (kvs : list kv) (ptrs : list ptr) : hprop :=
  (∃ ks vs ch,
     <affine> ⌜(length kvs + length ks = 2 * kMin)%nat ∧ length vs = length ks ∧
       length ch = length ks ∧ length ptrs = S (length kvs)⌝ ∗
     x ↦ BTreeNode (kvs.*1 ++ ks) (kvs.*2 ++ vs) (ptrs ++ ch) (Z.of_nat (length kvs)))%I.

Fixpoint bt_at (p : ptr) (t : btr) {struct t} : hprop :=
  match t with
  | BNil => <affine> ⌜p = NULL⌝
  | BN kvs cs => ∃ x ptrs, <affine> ⌜p = Some x⌝ ∗ node_rep x kvs ptrs ∗
      (fix go (ptrs : list ptr) (cs : list btr) {struct cs} : hprop := match cs, ptrs with
         | [], [] => emp
         | c :: cs, q :: ptrs => bt_at q c ∗ go ptrs cs
         | _, _ => False
         end) ptrs cs
  end%I.

Abbreviation kids ptrs cs := ([∗ list] q;c ∈ ptrs;cs, bt_at q c)%I.

Lemma bt_at_BN p kvs cs :
  bt_at p (BN kvs cs) ⊣⊢ ∃ x ptrs, <affine> ⌜p = Some x⌝ ∗ node_rep x kvs ptrs ∗ kids ptrs cs.
Proof.
  simpl. apply bi.exist_proper=> x. apply bi.exist_proper=> ptrs. do 2 f_equiv. clear p. revert ptrs.
  induction cs as [|c cs IH]; intros [|q ptrs]; simpl; [done..| | by rewrite IH]. done.
Qed.

Lemma bt_at_BNil p : bt_at p BNil ⊣⊢ <affine> ⌜p = NULL⌝.
Proof. done. Qed.

Lemma kids_length ptrs cs : kids ptrs cs -∗ ⌜length ptrs = length cs⌝.
Proof. iApply big_sepL2_length. Qed.

(** A path with the address of each of its nodes. *)
Abbreviation lbctx := (list (loc * bframe)).

(** [bpath_at c p rp]: the nodes of the path [c]; its hole holds [p]; the pointer
    to its topmost node is [rp]. *)
Fixpoint bpath_at (c : lbctx) (p rp : ptr) : hprop :=
  match c with
  | [] => <affine> ⌜rp = p⌝
  | (x, f) :: c => ∃ q1 q2, node_rep x (fk1 f ++ fk2 f) (q1 ++ p :: q2) ∗
      kids q1 (fc1 f) ∗ kids q2 (fc2 f) ∗ bpath_at c (Some x) rp
  end%I.

(** The path as [Insert] and [Delete] record it. *)
Definition steps (c : lbctx) : list (ptr * Z) :=
  map (λ xf, (Some xf.1, Z.of_nat (length (fk1 xf.2)))) c.

Lemma bframe_at x f q1 q2 p t :
  node_rep x (fk1 f ++ fk2 f) (q1 ++ p :: q2) -∗ kids q1 (fc1 f) -∗ kids q2 (fc2 f) -∗ bt_at p t -∗
  bt_at (Some x) (bplug_frame f t).
Proof.
  iIntros "Hx H1 H2 Ht". rewrite /bplug_frame bt_at_BN. iExists x, (q1 ++ p :: q2). iFrame "Hx". iSplit; [done |].
  iApply (big_sepL2_app with "H1"). simpl. iFrame.
Qed.

Lemma bplug_at c p rp t : bpath_at c p rp -∗ bt_at p t -∗ bt_at rp (bplug c.*2 t).
Proof.
  iIntros "Hc Ht". iInduction c as [|[x f] c] "IH" forall (p t); simpl.
  - by iDestruct "Hc" as %->.
  - iDestruct "Hc" as (q1 q2) "(Hx & H1 & H2 & Hc)". iApply ("IH" with "Hc").
    iApply (bframe_at with "Hx H1 H2 Ht").
Qed.

Lemma bpath_at_app c1 c2 p q rp : bpath_at c1 p q -∗ bpath_at c2 q rp -∗ bpath_at (c1 ++ c2) p rp.
Proof.
  iIntros "H1 H2". iInduction c1 as [|[x f] c1] "IH" forall (p); simpl.
  - by iDestruct "H1" as %->.
  - iDestruct "H1" as (q1 q2) "(Hx & Hk1 & Hk2 & H1)". iExists q1, q2. iFrame. iApply ("IH" with "H1 H2").
Qed.

(** A child taken out of a node. *)
Lemma bt_at_frame x k1 k2 cs ptrs :
  length cs = S (length (k1 ++ k2)) →
  node_rep x (k1 ++ k2) ptrs -∗ kids ptrs cs -∗
  ∃ q1 q q2 c1 c c2, <affine> ⌜ptrs = q1 ++ q :: q2 ∧ cs = c1 ++ c :: c2 ∧ length c1 = length k1 ∧
      length c2 = length k2⌝ ∗
    node_rep x (k1 ++ k2) (q1 ++ q :: q2) ∗ kids q1 c1 ∗ bt_at q c ∗ kids q2 c2.
Proof.
  iIntros (Hl) "Hx Hk". iDestruct (kids_length with "Hk") as %Hlen. rewrite length_app in Hl.
  destruct (list_lookup_middle_split cs (length k1)) as (c1 & c & c2 & -> & Hc1); [lia |].
  destruct (list_lookup_middle_split ptrs (length k1)) as (q1 & q & q2 & -> & Hq1).
  { rewrite length_app /= in Hlen |- *. lia. }
  iDestruct (big_sepL2_app_inv with "Hk") as "[H1 H2]"; [left; lia |]. simpl. iDestruct "H2" as "[H H2]".
  iExists q1, q, q2, c1, c, c2. iFrame. iPureIntro. rewrite length_app /= in Hl. split_and!; [done..|]. lia.
Qed.
End rep.
#[global] Arguments bt_at : simpl never.
#[global] Arguments belems : simpl never.

(** ** Reading a node *)

Section read.
Context (kMin : nat) (x : loc).

Lemma wp_node_size kvs ptrs Q :
  node_rep kMin x kvs ptrs -∗ (node_rep kMin x kvs ptrs -∗ Q (Z.of_nat (length kvs))) -∗
  wp (Some x ~> BT.size_) Q.
Proof.
  iIntros "(%ks & %vs & %ch & %Hl & Hx) HQ". wp_step. iApply "HQ". iExists ks, vs, ch. by iFrame.
Qed.

Lemma wp_node_key k1 a b k2 ptrs i Q :
  i = Z.of_nat (length k1) →
  node_rep kMin x (k1 ++ (a, b) :: k2) ptrs -∗ (node_rep kMin x (k1 ++ (a, b) :: k2) ptrs -∗ Q a) -∗
  wp (aget (Some x) BT.keys i) Q.
Proof.
  iIntros (->) "(%ks & %vs & %ch & %Hl & Hx) HQ".
  iApply (wp_aget_at _ _ _ _ k1.*1 a (k2.*1 ++ ks) with "Hx").
  - simpl. by rewrite fmap_app -app_assoc.
  - by rewrite length_fmap.
  - iIntros "Hx". iApply "HQ". iExists ks, vs, ch. by iFrame.
Qed.

Lemma wp_node_value k1 a b k2 ptrs i Q :
  i = Z.of_nat (length k1) →
  node_rep kMin x (k1 ++ (a, b) :: k2) ptrs -∗ (node_rep kMin x (k1 ++ (a, b) :: k2) ptrs -∗ Q b) -∗
  wp (aget (Some x) BT.values i) Q.
Proof.
  iIntros (->) "(%ks & %vs & %ch & %Hl & Hx) HQ".
  iApply (wp_aget_at _ _ _ _ k1.*2 b (k2.*2 ++ vs) with "Hx").
  - simpl. by rewrite fmap_app -app_assoc.
  - by rewrite length_fmap.
  - iIntros "Hx". iApply "HQ". iExists ks, vs, ch. by iFrame.
Qed.

Lemma wp_node_child kvs q1 q q2 i Q :
  i = Z.of_nat (length q1) →
  node_rep kMin x kvs (q1 ++ q :: q2) -∗ (node_rep kMin x kvs (q1 ++ q :: q2) -∗ Q q) -∗
  wp (aget (Some x) BT.children i) Q.
Proof.
  iIntros (->) "(%ks & %vs & %ch & %Hl & Hx) HQ".
  iApply (wp_aget_at _ _ _ _ q1 q (q2 ++ ch) with "Hx").
  - simpl. by rewrite -app_assoc.
  - done.
  - iIntros "Hx". iApply "HQ". iExists ks, vs, ch. by iFrame.
Qed.

Lemma wp_node_Search kvs ptrs k Q :
  ordered kvs →
  node_rep kMin x kvs ptrs -∗
  (∀ k1 k2, ⌜kvs = k1 ++ k2 ∧ keys_below k1 k ∧ Forall (λ y, k ≤ y.1) k2⌝ →
     node_rep kMin x (k1 ++ k2) ptrs -∗ Q (Z.of_nat (length k1))) -∗
  wp (BT.Search (Some x) k) Q.
Proof.
  iIntros (Hord) "(%ks & %vs & %ch & %Hl & Hx) HQ".
  assert (∀ i a, (i < length kvs)%nat → (kvs.*1 ++ ks) !! i = Some a ↔ ∃ b, kvs !! i = Some (a, b)) as Hlk.
  { intros i a Hi. rewrite lookup_app_l; [|by rewrite length_fmap]. rewrite list_lookup_fmap fmap_Some.
    split; [intros ([? b] & ? & ->); by exists b | intros [b ?]; by exists (a, b)]. }
  rewrite /BT.Search. wp_step. rewrite /BT.SearchStep.
  iApply (wp_arraySearch BT.keys k x _ (length kvs) with "Hx"); [| |lia..|].
  - rewrite length_app length_fmap. lia.
  - intros i j a b Hij [v Ha]%Hlk [w Hb]%Hlk; [|lia..].
    apply (ordered_lookup kvs i j (a, v) (b, w)); [done | lia | done..].
  - iIntros (p (Hp & Hlo & Hhi)) "Hx". iSpecialize ("HQ" $! (take p kvs) (drop p kvs) with "[%]").
    + rewrite take_drop. split_and!; [done | |].
      * apply Forall_lookup. intros i [a b] Hi. apply lookup_take_Some in Hi as [Hi Hlt].
        apply (Hlo i a Hlt), Hlk; [lia | by exists b].
      * apply Forall_lookup. intros i [a b] Hi. rewrite lookup_drop in Hi.
        pose proof (lookup_lt_Some _ _ _ Hi). apply (Hhi (p + i)%nat a); [lia |]. apply Hlk; [lia | by exists b].
    + rewrite length_take_le // take_drop. iApply "HQ". iExists ks, vs, ch. by iFrame.
Qed.

Lemma wp_node_KeyFound k1 k2 ptrs k i Q :
  i = Z.of_nat (length k1) →
  node_rep kMin x (k1 ++ k2) ptrs -∗
  (node_rep kMin x (k1 ++ k2) ptrs -∗ Q (match k2 with (a, _) :: _ => a =? k | [] => false end)) -∗
  wp (BT.KeyFound (Some x) i k) Q.
Proof.
  iIntros (->) "Hx HQ". rewrite /BT.KeyFound. iApply wp_bind. iApply (wp_node_size with "Hx"). iIntros "Hx".
  destruct k2 as [|[a b] k2].
  - rewrite app_nil_r Z.eqb_refl /=. wp_step. by iApply "HQ".
  - rewrite length_app /= (proj2 (Z.eqb_neq (Z.of_nat (length k1)) (Z.of_nat (length k1 + S (length k2))))); [|lia]. simpl. iApply wp_bind.
    iApply (wp_node_key with "Hx"); [done |]. iIntros "Hx". wp_step. by iApply "HQ".
Qed.
End read.

(** ** Find *)

Section find.
Context (kMin : nat).

Lemma bt_at_null p h t : bshape h t → bt_at kMin p t -∗ ⌜p = NULL ↔ h = 0%nat⌝.
Proof.
  iIntros (Hs) "Ht". destruct h, t as [|kvs cs]; try done.
  - rewrite bt_at_BNil. by iDestruct "Ht" as %->.
  - rewrite bt_at_BN. by iDestruct "Ht" as (x ptrs ->) "_".
Qed.

Lemma bt_at_height p h t : bshape h t → bt_at kMin p t ⊢ at_least h.
Proof.
  revert p t. induction h as [|h IH]; intros p t; [intros _; apply at_least_0 |].
  destruct t as [|kvs cs]; [done |]. intros [Hl Hcs]. destruct cs as [|c cs]; [done |].
  apply Forall_cons in Hcs as [Hc _]. rewrite bt_at_BN. iIntros "(%x & %ptrs & -> & Hx & Hk)".
  destruct ptrs as [|q ptrs]; [by iDestruct (kids_length with "Hk") as %? |].
  iDestruct "Hk" as "[Hq _]". rewrite IH //. iDestruct "Hx" as (ks vs ch) "[_ Hx]". rewrite at_least_pt.
  iCombine "Hx Hq" as "H". by rewrite at_least_sep.
Qed.

Lemma wp_bt_FindLoop fuel h s nv rp k p t Q :
  (h < fuel)%nat → bshape h t → ordered (belems t) →
  s ↦ BTree nv rp -∗ bt_at kMin p t -∗
  (s ↦ BTree nv rp -∗ bt_at kMin p t -∗ Q (default nv (to_map (belems t) !! k))) -∗
  wp (iter fuel (BT.FindStep (Some s) k) p) Q.
Proof.
  iIntros (Hf Hs Ho) "Hs Ht HQ". iInduction h as [|h IH] forall (fuel p t Hf Hs Ho Q);
    (destruct fuel as [|fuel]; [lia |]); iApply wp_iter_S; iEval (rewrite {1}/BT.FindStep).
  { rewrite (bshape_leaf t Hs) bt_at_BNil. iDestruct "Ht" as %->. simpl. do 2 wp_step. by iApply ("HQ" with "Hs"). }
  destruct t as [|kvs cs]; [done |]. destruct Hs as [Hl Hcs]. iEval (rewrite bt_at_BN) in "Ht".
  iDestruct "Ht" as (x ptrs ->) "[Hx Hk]". rewrite (bool_decide_false (Some x = NULL)) //.
  iApply wp_bind. iApply (wp_node_Search with "Hx"); [by eapply ordered_node |].
  iIntros (k1 k2 (-> & Hpos)) "Hx". iApply wp_bind. iApply (wp_node_KeyFound with "Hx"); [done |]. iIntros "Hx".
  destruct (match k2 with (a, _) :: _ => a =? k | [] => false end) eqn:Hfound.
  - destruct k2 as [|[a b] k2]; [done |]. apply Z.eqb_eq in Hfound as ->.
    iApply wp_bind. iApply (wp_node_value with "Hx"); [done |]. iIntros "Hx". wp_step.
    destruct (belems_found k1 k b k2 cs Hl) as (l1 & l2 & Hel & _).
    rewrite Hel to_map_lookup; last first.
    { rewrite Hel in Ho. by apply ordered_middle in Ho as (_ & ? & _). }
    iApply ("HQ" with "Hs"). rewrite bt_at_BN. iExists x, ptrs. by iFrame.
  - pose proof (position_absent k k1 k2 (ordered_node _ _ Ho Hl) Hpos Hfound) as Habove.
    iDestruct (bt_at_frame with "Hx Hk") as (q1 q q2 c1 c c2 (-> & -> & H1 & H2)) "(Hx & Hk1 & Hc & Hk2)"; [done |].
    iDestruct (kids_length with "Hk1") as %Hq1.
    iApply wp_bind. iApply (wp_node_child with "Hx"); [by rewrite Hq1 H1 |]. iIntros "Hx". wp_step.
    destruct (absent_frame k (BFrame k1 c1 k2 c2) c) as (Hb & Ha & Hoc); [done | done | apply Hpos | done |].
    iApply ("IH" with "[%] [%] [//] Hs Hc"); [lia | by apply Forall_app in Hcs as [_ [? _]%Forall_cons] |].
    iIntros "Hs Hc". change (BN (k1 ++ k2) (c1 ++ c :: c2)) with (bplug_frame (BFrame k1 c1 k2 c2) c).
    rewrite belems_plug_frame // to_map_hole //. iApply ("HQ" with "Hs").
    iApply (bframe_at _ _ (BFrame k1 c1 k2 c2) with "Hx Hk1 Hk2 Hc").
Qed.
End find.
