(* ===== verification/BTreeInsert.v ===== *)
(** * BTreeInsert: insertion into the B-tree *)
From S2P Require Import Prelude Memory SepLogic Arrays OrderedSet BinTree BTreeModel BTreeSpec BTreeProof.
#[local] Open Scope Z_scope.
#[local] Open Scope cpp_scope.

(** ** Making room *)

Lemma wp_shiftKeys x a1 b1 y1 z1 a2 b2 y2 z2 ch n i Q :
  i = Z.of_nat (length a1) → length a2 = length a1 → length b2 = length b1 →
  x ↦ BTreeNode (a1 ++ b1 ++ y1 :: z1) (a2 ++ b2 ++ y2 :: z2) ch n -∗
  (∀ u1 u2, x ↦ BTreeNode (a1 ++ u1 :: b1 ++ z1) (a2 ++ u2 :: b2 ++ z2) ch n -∗ Q ()) -∗
  wp (BT.shiftKeys (Some x) i (length b1)) Q.
Proof.
  iIntros (-> Ha Hb) "Hx HQ".
  iInduction b1 as [|l1 b1 IH] using rev_ind forall (b2 Hb y1 z1 y2 z2).
  { destruct b2; [|done]. simpl. wp_step. iApply ("HQ" with "Hx"). }
  destruct b2 as [|l2 b2 _] using rev_ind; [by rewrite length_app /= Nat.add_comm in Hb |].
  rewrite !length_app /= in Hb. rewrite length_app Nat.add_1_r /=.
  iApply wp_bind. iApply (wp_aget_at _ _ _ _ (a1 ++ b1) l1 (y1 :: z1) with "Hx").
  { simpl. by rewrite -?app_assoc. } { rewrite length_app. lia. } iIntros "Hx".
  iApply wp_bind. iApply (wp_aset_at _ _ _ _ (a1 ++ b1 ++ [l1]) y1 z1 with "Hx").
  { simpl. by rewrite -?app_assoc. } { rewrite !length_app /=. lia. } iIntros "Hx". iSimpl in "Hx".
  iApply wp_bind. iApply (wp_aget_at _ _ _ _ (a2 ++ b2) l2 (y2 :: z2) with "Hx").
  { simpl. by rewrite -?app_assoc. } { rewrite length_app. lia. } iIntros "Hx".
  iApply wp_bind. iApply (wp_aset_at _ _ _ _ (a2 ++ b2 ++ [l2]) y2 z2 with "Hx").
  { simpl. by rewrite -?app_assoc. } { rewrite !length_app /=. lia. } iIntros "Hx". iSimpl in "Hx".
  rewrite -!app_assoc /=. iApply ("IH" $! b2 with "[%] Hx"); [lia |].
  iIntros (u1 u2) "Hx". iApply ("HQ" with "Hx").
Qed.

Lemma wp_shiftChildren x a b y z ks vs n i Q :
  i = Z.of_nat (length a) →
  x ↦ BTreeNode ks vs (a ++ b ++ y :: z) n -∗
  (∀ u, x ↦ BTreeNode ks vs (a ++ u :: b ++ z) n -∗ Q ()) -∗
  wp (BT.shiftChildren (Some x) i (length b)) Q.
Proof.
  iIntros (->) "Hx HQ". iInduction b as [|l b IH] using rev_ind forall (y z).
  { simpl. wp_step. iApply ("HQ" with "Hx"). }
  rewrite length_app Nat.add_1_r /=.
  iApply wp_bind. iApply (wp_aget_at _ _ _ _ (a ++ b) l (y :: z) with "Hx").
  { simpl. by rewrite -?app_assoc. } { rewrite length_app. lia. } iIntros "Hx".
  iApply wp_bind. iApply (wp_aset_at _ _ _ _ (a ++ b ++ [l]) y z with "Hx").
  { simpl. by rewrite -?app_assoc. } { rewrite !length_app /=. lia. } iIntros "Hx". iSimpl in "Hx".
  rewrite -!app_assoc /=. iApply ("IH" with "Hx").
  iIntros (u) "Hx". iApply ("HQ" with "Hx").
Qed.

Section insert.
Context (kMin : nat) (HkMin : (0 < kMin)%nat).
Abbreviation kMinZ := (Z.of_nat kMin).
Abbreviation kids ptrs cs := ([∗ list] q;c ∈ ptrs;cs, bt_at kMin q c)%I.

Lemma wp_insertAt x k1 k2 q1 q2 k v q i Q :
  i = Z.of_nat (length k1) → length q1 = length k1 → (length (k1 ++ k2) < 2 * kMin)%nat →
  node_rep kMin x (k1 ++ k2) (q1 ++ q2) -∗
  (node_rep kMin x (k1 ++ (k, v) :: k2) (q1 ++ q :: q2) -∗ Q ()) -∗
  wp (BT.insertAt (Some x) i k v q) Q.
Proof.
  iIntros (-> Hq1 Hlt) "(%ks & %vs & %ch & %Hl & Hx) HQ". destruct Hl as (H1 & H2 & H3 & H4).
  rewrite length_app in Hlt. rewrite !length_app in H1, H4.
  destruct ks as [|y1 ks]; [simpl in *; lia |]. destruct vs as [|y2 vs]; [done |].
  destruct ch as [|y3 ch]; [done |]. rewrite /BT.insertAt !fmap_app -!app_assoc length_app. wp_step.
  iApply wp_bind. replace (Z.to_nat _) with (length k2.*1) by (rewrite length_fmap; lia).
  iApply (wp_shiftKeys with "Hx"); [by rewrite length_fmap | by rewrite !length_fmap.. |].
  iIntros (u1 u2) "Hx". wp_step. iApply wp_bind. replace (Z.to_nat _) with (length q2) by lia.
  iApply (wp_shiftChildren with "Hx"); [by rewrite Hq1 |]. iIntros (u3) "Hx".
  iApply wp_bind. iApply (wp_aset_at with "Hx"); [done | by rewrite length_fmap |]. iIntros "Hx". iSimpl in "Hx".
  iApply wp_bind. iApply (wp_aset_at with "Hx"); [done | by rewrite length_fmap |]. iIntros "Hx". iSimpl in "Hx".
  iApply wp_bind. iApply (wp_aset_at with "Hx"); [done | by rewrite Hq1 |]. iIntros "Hx". iSimpl in "Hx".
  do 2 wp_step. iApply "HQ". iExists ks, vs, ch. iSplit.
  - iPureIntro. rewrite !length_app /=. simpl in *. lia.
  - rewrite !fmap_app -!app_assoc /= !length_app /=.
    by replace (Z.of_nat (length k1 + S (length k2))) with (Z.of_nat (length k1 + length k2) + 1) by lia.
Qed.

(** ** New nodes *)

Lemma slice_0 {A} (l : list A) n : BT.slice l 0 (Z.of_nat n) = take n l.
Proof. by rewrite /BT.slice Z.sub_0_r Nat2Z.id drop_0. Qed.

Lemma slice_app {A} (l1 l2 : list A) i j :
  i = Z.of_nat (length l1) → j = Z.of_nat (length l1 + length l2) → BT.slice (l1 ++ l2) i j = l2.
Proof. intros -> ->. rewrite /BT.slice Nat2Z.id drop_app_length take_ge //. lia. Qed.

Lemma slice_insert {A} (l1 l2 : list A) a i j :
  i = Z.of_nat (length l1) → j = Z.of_nat (length l1 + length l2) →
  BT.slice (l1 ++ l2) 0 i ++ a :: BT.slice (l1 ++ l2) i j = l1 ++ a :: l2.
Proof. intros -> ->. by rewrite slice_0 take_app_length (slice_app l1 l2). Qed.

Lemma wp_InitializeMove x ks0 vs0 ch0 n0 kvs ptrs rk rv rc n Q :
  n = Z.of_nat (length kvs) →
  length ks0 = (2 * kMin)%nat → length vs0 = (2 * kMin)%nat → length ch0 = S (2 * kMin) →
  (length kvs ≤ 2 * kMin)%nat → length ptrs = S (length kvs) →
  x ↦ BTreeNode ks0 vs0 ch0 n0 -∗ (node_rep kMin x kvs ptrs -∗ Q ()) -∗
  wp (BT.InitializeMove kMinZ (Some x) (kvs.*1 ++ rk) (kvs.*2 ++ rv) (ptrs ++ rc) n) Q.
Proof.
  iIntros (-> H1 H2 H3 Hle Hp) "Hx HQ". rewrite /BT.InitializeMove. do 9 wp_step.
  rewrite !slice_0. replace (Z.of_nat (length kvs) + 1) with (Z.of_nat (length ptrs)) by lia.
  rewrite slice_0 (take_app_length' kvs.*1) ?length_fmap // (take_app_length' kvs.*2) ?length_fmap // take_app_length.
  rewrite /BT.blit /= length_fmap length_fmap Nat2Z.id.
  assert (Z.to_nat (BT.kMaxKeys kMinZ - Z.of_nat (length kvs)) = 2 * kMin - length kvs)%nat as ->
    by (rewrite /BT.kMaxKeys; lia).
  rewrite take_app_length length_replicate (drop_ge (ptrs ++ _)); last first.
  { rewrite length_app length_drop. lia. }
  rewrite app_nil_r. iApply "HQ".
  iExists (drop (length kvs) ks0), (drop (length kvs) vs0), (replicate (2 * kMin - length kvs) NULL).
  iFrame "Hx". iPureIntro. rewrite !length_drop length_replicate. lia.
Qed.
Lemma wp_newNode Q :
  (∀ y, y ↦ BTreeNode (replicate (2 * kMin) 0) (replicate (2 * kMin) 0) (replicate (S (2 * kMin)) NULL) 0 -∗
     Q (Some y)) -∗ wp (BT.newNode kMinZ) Q.
Proof.
  iIntros "HQ". rewrite /BT.newNode /BT.kMaxKeys.
  replace (Z.to_nat (2 * kMinZ)) with (2 * kMin)%nat by lia.
  replace (Z.to_nat (2 * kMinZ + 1)) with (S (2 * kMin)) by lia. iApply (wp_new with "HQ").
Qed.

(** ** Splitting a full node *)

(** The keys and children of the full node and the new pair, cut in halves. *)
Definition halves (K : list kv) (P : list ptr) (kl : list kv) (x : kv) (kr : list kv) (pl pr : list ptr) : Prop :=
  K = kl ++ x :: kr ∧ P = pl ++ pr ∧ length kl = kMin ∧ length kr = kMin ∧
  length pl = S kMin ∧ length pr = S kMin.

Lemma halves_exist K P :
  length K = S (2 * kMin) → length P = S (S (2 * kMin)) → ∃ kl x kr pl pr, halves K P kl x kr pl pr.
Proof.
  intros HK HP. destruct (list_lookup_middle_split K kMin) as (kl & x & kr & -> & Hkl); [lia |].
  exists kl, x, kr, (take (S kMin) P), (drop (S kMin) P). rewrite length_app /= in HK.
  split_and!; [done | by rewrite take_drop | done | lia | rewrite length_take; lia | rewrite length_drop; lia].
Qed.

Lemma wp_Split x k1 k2 q1 q2 k v q i Q :
  i = Z.of_nat (length k1) → length q1 = length k1 → length (k1 ++ k2) = (2 * kMin)%nat →
  node_rep kMin x (k1 ++ k2) (q1 ++ q2) -∗
  (∀ kl k' v' kr pl pr y, ⌜halves (k1 ++ (k, v) :: k2) (q1 ++ q :: q2) kl (k', v') kr pl pr⌝ →
     node_rep kMin y kl pl -∗ node_rep kMin x kr pr -∗ Q (k', v', Some y)) -∗
  wp (BT.Split kMinZ (Some x) i k v q) Q.
Proof.
  iIntros (-> Hq1 Hlen) "(%ks & %vs & %ch & %Hl & Hx) HQ". destruct Hl as (H1 & H2 & H3 & H4).
  destruct ks; [|simpl in *; lia]. destruct vs; [|done]. destruct ch; [|done].
  rewrite length_app in Hlen. rewrite !length_app in H4.
  destruct (halves_exist (k1 ++ (k, v) :: k2) (q1 ++ q :: q2)) as (kl & [k' v'] & kr & pl & pr & Hh).
  { rewrite length_app /=. lia. } { rewrite length_app /=. lia. }
  pose proof Hh as (HK & HP & Hkl & Hkr & Hpl & Hpr).
  iAssert (∀ y, node_rep kMin y kl pl -∗ node_rep kMin x kr pr -∗ Q (k', v', Some y))%I with "[HQ]" as "HQ".
  { iIntros (y) "Hy Hx". iApply ("HQ" with "[//] Hy Hx"). }
  rewrite /BT.Split !app_nil_r !fmap_app length_app. do 4 wp_step.
  rewrite (slice_insert k1.*1 k2.*1) ?length_fmap // (slice_insert k1.*2 k2.*2) ?length_fmap //.
  rewrite (slice_insert q1 q2); [|by rewrite Hq1 | lia].
  assert (k1.*1 ++ k :: k2.*1 = kl.*1 ++ k' :: kr.*1) as ->
    by (apply (f_equal (fmap fst)) in HK; by rewrite !fmap_app in HK).
  assert (k1.*2 ++ v :: k2.*2 = kl.*2 ++ v' :: kr.*2) as ->
    by (apply (f_equal (fmap snd)) in HK; by rewrite !fmap_app in HK).
  rewrite HP. iApply wp_bind. iApply wp_newNode. iIntros (y) "Hy". iApply wp_bind.
  iApply (wp_InitializeMove y _ _ _ _ kl pl (k' :: kr.*1) (v' :: kr.*2) pr with "Hy");
    [by rewrite Hkl | by rewrite length_replicate.. | lia | lia |].
  iIntros "Hy". replace (Z.to_nat (kMinZ + 1)) with (S kMin) by lia.
  rewrite !(drop_app_ge _ _ (S kMin)) ?length_fmap; [|lia..].
  rewrite Hkl Hpl Nat.sub_diag. replace (S kMin - kMin)%nat with 1%nat by lia. rewrite /= !drop_0.
  iApply wp_bind.
  rewrite -(app_nil_r kr.*1) -(app_nil_r kr.*2) -(app_nil_r pr).
  iApply (wp_InitializeMove x _ _ _ _ kr pr [] [] [] with "Hx");
    [by rewrite Hkr | | | | lia | lia |].
  { rewrite length_app !length_fmap. lia. } { rewrite length_app !length_fmap. lia. }
  { rewrite length_app. lia. }
  iIntros "Hx". rewrite Nat2Z.id !list_lookup_middle ?length_fmap //. wp_step.
  rewrite app_nil_r. iApply ("HQ" with "Hy Hx").
Qed.

(** ** The search, which records its path *)

(** Where a search for [k] stands: its path is well formed, the subtree is what
    its hole expects, and [k] belongs into the subtree. *)
Definition searching (k : Z) (c : list bframe) (h top : nat) (t : btr) : Prop :=
  ctx_wf kMin c h top ∧ sub_wf kMin c h t ∧ ordered (belems t) ∧
  keys_below (bctx_l c) k ∧ keys_above (bctx_r c) k.

Lemma sub_wf_shape c h t : sub_wf kMin c h t → bshape h t.
Proof. destruct c; [apply broot_shape | apply bwf_shape]. Qed.

Lemma searching_step k c h top f t :
  searching k c (S h) top (bplug_frame f t) → frame_ok f → keys_below (fk1 f) k → keys_above (fk2 f) k →
  searching k (f :: c) h top t.
Proof.
  intros (Hc & Hs & Ho & Hb & Ha) Hf Hk1 Hk2. destruct (absent_frame k f t Hf Ho Hk1 Hk2) as (Hb' & Ha' & Ho').
  destruct (sub_wf_frame _ _ _ _ _ Hs Hf). split_and!; [done | done | done | |]; simpl; by apply Forall_app.
Qed.

(** A search at one node: the key is found in it, or the search goes on in one
    of its children. *)
Lemma wp_visit {A} k c h top x kvs cs ptrs (K : Z → bool → M A) Q :
  searching k c (S h) top (BN kvs cs) →
  node_rep kMin x kvs ptrs -∗ kids ptrs cs -∗
  ((∀ k1 b k2, ⌜kvs = k1 ++ (k, b) :: k2 ∧ length cs = S (length kvs)⌝ →
      node_rep kMin x (k1 ++ (k, b) :: k2) ptrs -∗ kids ptrs cs -∗
      wp (K (Z.of_nat (length k1)) true) Q) ∧
   (∀ f q1 q q2 t, ⌜BN kvs cs = bplug_frame f t ∧ searching k (f :: c) h top t ∧ length q1 = length (fk1 f)⌝ →
      node_rep kMin x (fk1 f ++ fk2 f) (q1 ++ q :: q2) -∗ kids q1 (fc1 f) -∗
      bt_at kMin q t -∗ kids q2 (fc2 f) -∗
      wp (K (Z.of_nat (length (fk1 f))) false) Q)) -∗
  wp (index ← BT.Search (Some x) k; found ← BT.KeyFound (Some x) index k; K index found) Q.
Proof.
  iIntros (Hs) "Hx Hk HQ". pose proof Hs as (_ & Hsub & Ho & _). apply sub_wf_shape in Hsub as [Hl _].
  iApply wp_bind. iApply (wp_node_Search with "Hx"); [by eapply ordered_node |].
  iIntros (k1 k2 (-> & Hpos)) "Hx". iApply wp_bind. iApply (wp_node_KeyFound with "Hx"); [done |]. iIntros "Hx".
  destruct (match k2 with (a, _) :: _ => a =? k | [] => false end) eqn:Hfound.
  - destruct k2 as [|[a b] k2]; [done |]. apply Z.eqb_eq in Hfound as ->. iDestruct "HQ" as "[HQ _]".
    by iApply ("HQ" with "[%] Hx Hk").
  - pose proof (position_absent k k1 k2 (ordered_node _ _ Ho Hl) Hpos Hfound) as Habove.
    iDestruct (bt_at_frame with "Hx Hk") as (q1 q q2 c1 t c2 (-> & -> & H1 & H2)) "(Hx & Hk1 & Hc & Hk2)"; [done |].
    iDestruct (kids_length with "Hk1") as %Hq1. iDestruct "HQ" as "[_ HQ]".
    iApply ("HQ" $! (BFrame k1 c1 k2 c2) q1 q q2 t with "[%] Hx Hk1 Hc Hk2").
    split_and!; [done | | simpl; congruence]. apply searching_step; [done | done | apply Hpos | done].
Qed.

Lemma searching_BN k c h top t : searching k c (S h) top t → ∃ kvs cs, t = BN kvs cs.
Proof. intros (_ & Hs%sub_wf_shape & _). destruct t as [|kvs cs]; [done |]. by exists kvs, cs. Qed.

Lemma bpath_at_cons x f c q1 q q2 rp :
  node_rep kMin x (fk1 f ++ fk2 f) (q1 ++ q :: q2) -∗ kids q1 (fc1 f) -∗
  kids q2 (fc2 f) -∗ bpath_at kMin c (Some x) rp -∗
  bpath_at kMin ((x, f) :: c) q rp.
Proof. iIntros "Hx H1 H2 Hc". iExists q1, q2. iFrame. Qed.

(** The elements around a key found below a path. *)
Lemma belems_found_plug k c h top k1 b k2 cs :
  searching k c h top (BN (k1 ++ (k, b) :: k2) cs) → length cs = S (length (k1 ++ (k, b) :: k2)) →
  ∃ l1 l2, belems (bplug c (BN (k1 ++ (k, b) :: k2) cs)) = l1 ++ (k, b) :: l2.
Proof.
  intros (Hc & _) Hl. rewrite belems_plug; [|by eapply ctx_wf_ok].
  destruct (belems_found k1 k b k2 cs Hl) as (l1 & l2 & -> & _).
  exists (bctx_l c ++ l1), (l2 ++ bctx_r c). by rewrite -!app_assoc.
Qed.

Lemma wp_InsertSearchLoop fuel k c h top p rp t Q :
  searching k c.*2 (S h) top t → (h < fuel)%nat → (top ≤ 16)%nat →
  bpath_at kMin c p rp -∗ bt_at kMin p t -∗
  ((∀ b l1 l2, ⌜belems (bplug c.*2 t) = l1 ++ (k, b) :: l2⌝ → bt_at kMin rp (bplug c.*2 t) -∗ Q (inl b)) ∧
   (∀ c', ⌜searching k c'.*2 0 top BNil ∧ bplug c.*2 t = bplug c'.*2 BNil⌝ →
      bpath_at kMin c' NULL rp -∗ Q (inr (steps c')))) -∗
  wp (iter fuel (BT.InsertSearchStep k) (p, steps c)) Q.
Proof.
  iIntros (Hs Hf Htop) "Hc Ht HQ". iInduction h as [|h IH] forall (fuel c p t Hs Hf);
    (destruct fuel as [|fuel]; [lia |]); iApply wp_iter_S; iEval (rewrite {1}/BT.InsertSearchStep);
    destruct (searching_BN _ _ _ _ _ Hs) as (kvs & cs & ->);
    pose proof (ctx_wf_length _ _ _ _ (proj1 Hs)) as Hlen; rewrite length_fmap in Hlen;
    iEval (rewrite bt_at_BN) in "Ht"; iDestruct "Ht" as (x ptrs ->) "[Hx Hk]";
    (iApply wp_bind; iApply wp_assert; [rewrite length_map /BT.kMaxDepth; apply Z.ltb_lt; lia |]);
    iApply (wp_visit with "Hx Hk"); try done; (iSplit;
      [iIntros (k1 b k2 [-> Hl]) "Hx Hk"; iDestruct "HQ" as "[HQ _]"; iApply wp_bind;
       iApply (wp_node_value with "Hx"); [done |]; iIntros "Hx"; wp_step;
       destruct (belems_found_plug _ _ _ _ _ _ _ _ Hs Hl) as (l1 & l2 & Hel);
       iApply ("HQ" with "[//]"); iApply (bplug_at with "Hc"); rewrite bt_at_BN; by iFrame
      |iIntros (f q1 q q2 t (Heq & Hs' & Hq1)) "Hx Hk1 Ht Hk2"; iApply wp_bind;
       iApply (wp_node_child with "Hx"); [by rewrite Hq1 |]; iIntros "Hx"]).
  - destruct Hs' as (Hc' & Hsub & Hrest). pose proof (bshape_leaf _ (sub_wf_shape _ _ _ Hsub)) as ->.
    iEval (rewrite bt_at_BNil) in "Ht". iDestruct "Ht" as %->. simpl. wp_step.
    iDestruct "HQ" as "[_ HQ]". iApply ("HQ" $! ((x, f) :: c) with "[%] [Hx Hk1 Hk2 Hc]").
    + by rewrite Heq.
    + iApply (bpath_at_cons with "Hx Hk1 Hk2 Hc").
  - iAssert (⌜q ≠ NULL⌝)%I as %Hne.
    { iDestruct (bt_at_null _ _ (S h) with "Ht") as %Hq; [|by iIntros (?%Hq)].
      destruct Hs' as (_ & Hsub & _). by apply sub_wf_shape in Hsub. }
    rewrite (bool_decide_false (q = NULL)) //. iApply wp_bind.
    iApply (wp_node_child with "Hx"); [by rewrite Hq1 |]. iIntros "Hx". wp_step.
    iApply ("IH" $! fuel ((x, f) :: c) with "[//] [%] [Hx Hk1 Hk2 Hc] Ht"); [lia | |].
    + iApply (bpath_at_cons with "Hx Hk1 Hk2 Hc").
    + by rewrite Heq.
Qed.

(** ** Going up *)

Lemma wp_InitializeDefault x ks vs ch n Q :
  length ch = S (2 * kMin) →
  x ↦ BTreeNode ks vs ch n -∗ (x ↦ BTreeNode ks vs (replicate (S (2 * kMin)) NULL) 0 -∗ Q ()) -∗
  wp (BT.InitializeDefault kMinZ (Some x)) Q.
Proof.
  iIntros (Hch) "Hx HQ". rewrite /BT.InitializeDefault /BT.kMaxKeys. do 3 wp_step.
  replace (Z.to_nat (2 * kMinZ + 1)) with (S (2 * kMin)) by lia.
  rewrite /BT.blit length_replicate (drop_ge ch); [|simpl; lia]. rewrite app_nil_r. by iApply "HQ".
Qed.

Lemma wp_growRoot s nv rp h n t k v q Q :
  bwf kMin (S h) n → bwf kMin (S h) t →
  s ↦ BTree nv rp -∗ bt_at kMin q n -∗ bt_at kMin rp t -∗
  (∀ rp', s ↦ BTree nv rp' -∗ bt_at kMin rp' (BN [(k, v)] [n; t]) -∗ Q ()) -∗
  wp (BT.growRoot kMinZ (Some s) k v q) Q.
Proof.
  iIntros (Hn Ht) "Hs Hn Ht HQ". rewrite /BT.growRoot.
  iDestruct (bt_at_null with "Hn") as %Hq; [by eapply bwf_shape |].
  iApply wp_bind. iApply wp_assert; [rewrite (bool_decide_false (q = NULL)) //; by intros ?%Hq |].
  iApply wp_bind. iApply wp_newNode. iIntros (y) "Hy". iApply wp_bind.
  iApply (wp_InitializeDefault with "Hy"); [by rewrite length_replicate |].
  destruct kMin as [|m] eqn:Hm; [lia |]. replace (2 * S m)%nat with (S (S (2 * m))) by lia.
  cbn [replicate]. iIntros "Hy".
  iApply wp_bind. iApply (wp_aset_at _ _ _ _ [] with "Hy"); [done | done |]. iIntros "Hy". iSimpl in "Hy".
  iApply wp_bind. iApply (wp_aset_at _ _ _ _ [] with "Hy"); [done | done |]. iIntros "Hy". iSimpl in "Hy".
  iApply wp_bind. iApply (wp_aset_at _ _ _ _ [] with "Hy"); [done | done |]. iIntros "Hy". iSimpl in "Hy".
  wp_step. iApply wp_bind. iApply (wp_aset_at _ _ _ _ [q] with "Hy"); [done | done |]. iIntros "Hy". iSimpl in "Hy".
  do 2 wp_step. iApply ("HQ" with "Hs"). rewrite bt_at_BN. iExists y, [q; rp]. simpl. iFrame "Hn Ht".
  iSplit; [done |].
  iExists (0 :: replicate (2 * m) 0), (0 :: replicate (2 * m) 0), (NULL :: replicate (2 * m) NULL). iFrame "Hy".
  iPureIntro. rewrite /= !length_replicate. lia.
Qed.

(** The pair [(k, v)] and the subtree [n] left of it are put next to [t], which
    is at the end of the path. *)
Lemma wp_insertUp s nv rp c h top n t k v q p Q :
  ctx_wf kMin c.*2 h top → bwf kMin h n → bwf kMin h t → (0 < length c + h)%nat →
  s ↦ BTree nv rp -∗ bpath_at kMin c p rp -∗ bt_at kMin q n -∗ bt_at kMin p t -∗
  (∀ top' t' rp', ⌜broot kMin top' t' ∧
       belems t' = bctx_l c.*2 ++ (belems n ++ (k, v) :: belems t) ++ bctx_r c.*2⌝ →
     s ↦ BTree nv rp' -∗ bt_at kMin rp' t' -∗ Q ()) -∗
  wp (BT.insertUp kMinZ (Some s) (steps c) k v q) Q.
Proof.
  iIntros (Hc Hn Ht Hpos) "Hs Hc Hn Ht HQ".
  iInduction c as [|[x f] c IH] forall (h n t k v q p Hc Hn Ht Hpos); simpl.
  { iDestruct "Hc" as %->. destruct h as [|h]; [simpl in *; lia |].
    iApply (wp_growRoot with "Hs Hn Ht"); [done..|]. iIntros (rp') "Hs Ht".
    iApply ("HQ" $! (S (S h)) with "[%] Hs Ht"). split; [|by rewrite app_nil_r].
    split_and!; [simpl; lia | done | by repeat constructor | right; simpl; lia]. }
  rewrite fmap_cons in Hc. destruct Hc as [Hf Hc]. simpl in Hf. iDestruct "Hc" as (q1 q2) "(Hx & H1 & H2 & Hc)".
  iDestruct (kids_length with "H1") as %Hq1. pose proof Hf as ([Hf1 Hf2] & _ & _ & Hle & _).
  iApply wp_bind. iApply (wp_node_size with "Hx"). iIntros "Hx".
  iAssert (kids (q1 ++ q :: p :: q2) (fc1 f ++ n :: t :: fc2 f)) with "[Hn Ht H1 H2]" as "Hk".
  { iApply (big_sepL2_app with "H1"). simpl. iFrame. }
  rewrite /BT.kMaxKeys. destruct (Z.eqb_spec (Z.of_nat (length (fk1 f ++ fk2 f))) (2 * kMinZ)) as [Hfull|Hroom].
  - iApply wp_bind. iApply (wp_Split with "Hx"); [done | congruence | lia |].
    iIntros (kl k' v' kr pl pr y (HK & HP & Hkl & Hkr & Hpl & Hpr)) "Hy Hx". rewrite HP.
    iDestruct (big_sepL2_app_inv_l with "Hk") as (cl cr HC) "[Hl Hr]".
    iDestruct (kids_length with "Hl") as %Hcl. iDestruct (kids_length with "Hr") as %Hcr.
    destruct (frame_wf_halves _ _ _ _ _ _ _ _ _ _ _ _ Hf Hn Ht HC HK) as (Hbl & Hbr & Hel); [lia..|].
    iApply ("IH" $! (S h) (BN kl cl) (BN kr cr) with "[%] [%] [%] [%] Hs Hc [Hy Hl] [Hx Hr]"); [done | done | done | lia | | |].
    + rewrite bt_at_BN. by iFrame.
    + rewrite bt_at_BN. by iFrame.
    + by rewrite Hel -!app_assoc /= -!app_assoc.
  - iApply (wp_insertAt with "Hx"); [done | congruence | lia |]. iIntros "Hx".
    iApply ("HQ" $! top (bplug c.*2 (BN (fk1 f ++ (k, v) :: fk2 f) (fc1 f ++ n :: t :: fc2 f))) with "[%] Hs").
    + split; [eapply ctx_wf_plug; [done |]; apply frame_wf_insert; [done..| lia] |].
      rewrite belems_plug; [|by eapply ctx_wf_ok]. rewrite belems_insert //. by rewrite -!app_assoc /= -!app_assoc.
    + iApply (bplug_at with "Hc"). rewrite bt_at_BN. by iFrame.
Qed.
End insert.
