(* ===== verification/BTreeDelete.v ===== *)
(** * BTreeDelete: deletion from the B-tree *)
From S2P Require Import Prelude Memory SepLogic Arrays OrderedSet BinTree BTreeModel BTreeSpec BTreeProof BTreeInsert.
#[local] Open Scope Z_scope.
#[local] Open Scope cpp_scope.

(** ** Moving parts of arrays *)

Section move.
Context {A : Type} (f : field btree_node (list A)).

(** Within one node, to the left, over the elements [b]. *)
Lemma wp_amove_left x o a b c z i j d Q :
  fget f o = a ++ b ++ c ++ z → d = Z.of_nat (length a) → i = d + Z.of_nat (length b) →
  j = i + Z.of_nat (length c) →
  x ↦ o -∗ (∀ junk, ⌜length junk = (length b + length z)%nat⌝ → x ↦ fset f (a ++ c ++ junk) o -∗ Q ()) -∗
  wp (BT.amove f (Some x) i j (Some x) d) Q.
Proof.
  iIntros (Ho -> -> ->) "Hx HQ". rewrite /BT.amove. do 2 wp_step. rewrite Ho !length_app.
  rewrite !(proj2 (Z.leb_le _ _)) /=; [|lia..]. wp_step.
  assert (BT.slice (a ++ b ++ c ++ z) (Z.of_nat (length a) + Z.of_nat (length b))
    (Z.of_nat (length a) + Z.of_nat (length b) + Z.of_nat (length c)) = c) as ->.
  { rewrite /BT.slice app_assoc drop_app_length'; [|rewrite length_app; lia]. apply take_app_length'. lia. }
  rewrite /BT.blit Nat2Z.id take_app_length. iApply ("HQ" with "[%] Hx").
  rewrite length_drop !length_app. lia.
Qed.

(** From the front of one node into another. *)
Lemma wp_amove_copy x o y o' c z a z' j d Q :
  fget f o = c ++ z → fget f o' = a ++ z' → (length c ≤ length z')%nat →
  j = Z.of_nat (length c) → d = Z.of_nat (length a) →
  x ↦ o -∗ y ↦ o' -∗
  (∀ junk, ⌜(length c + length junk = length z')%nat⌝ → x ↦ o -∗ y ↦ fset f (a ++ c ++ junk) o' -∗ Q ()) -∗
  wp (BT.amove f (Some x) 0 j (Some y) d) Q.
Proof.
  iIntros (Ho Ho' Hle -> ->) "Hx Hy HQ". rewrite /BT.amove. do 2 wp_step. rewrite Ho Ho' !length_app.
  rewrite !(proj2 (Z.leb_le _ _)) /=; [|lia..]. wp_step.
  rewrite slice_0 take_app_length /BT.blit Nat2Z.id take_app_length.
  iApply ("HQ" with "[%] Hx Hy"). rewrite length_drop !length_app. lia.
Qed.
End move.

Section delete.
Context (kMin : nat) (HkMin : (0 < kMin)%nat).
Abbreviation kMinZ := (Z.of_nat kMin).
Abbreviation kids ptrs cs := ([∗ list] q;c ∈ ptrs;cs, bt_at kMin q c)%I.

(** ** Writing a pair *)

Lemma wp_node_set_key x k1 a b k2 ptrs i a' Q :
  i = Z.of_nat (length k1) →
  node_rep kMin x (k1 ++ (a, b) :: k2) ptrs -∗ (node_rep kMin x (k1 ++ (a', b) :: k2) ptrs -∗ Q ()) -∗
  wp (aset (Some x) BT.keys i a') Q.
Proof.
  iIntros (->) "(%ks & %vs & %ch & %Hl & Hx) HQ".
  iApply (wp_aset_at _ _ _ _ k1.*1 a (k2.*1 ++ ks) with "Hx").
  - simpl. by rewrite fmap_app -app_assoc.
  - by rewrite length_fmap.
  - iIntros "Hx". iApply "HQ". iExists ks, vs, ch. rewrite /= !length_app /= in Hl |- *. iSplit; [done |].
    by rewrite !fmap_app -!app_assoc.
Qed.

Lemma wp_node_set_value x k1 a b k2 ptrs i b' Q :
  i = Z.of_nat (length k1) →
  node_rep kMin x (k1 ++ (a, b) :: k2) ptrs -∗ (node_rep kMin x (k1 ++ (a, b') :: k2) ptrs -∗ Q ()) -∗
  wp (aset (Some x) BT.values i b') Q.
Proof.
  iIntros (->) "(%ks & %vs & %ch & %Hl & Hx) HQ".
  iApply (wp_aset_at _ _ _ _ k1.*2 b (k2.*2 ++ vs) with "Hx").
  - simpl. by rewrite fmap_app -app_assoc.
  - by rewrite length_fmap.
  - iIntros "Hx". iApply "HQ". iExists ks, vs, ch. rewrite /= !length_app /= in Hl |- *. iSplit; [done |].
    by rewrite !fmap_app -!app_assoc.
Qed.

(** ** Two neighbouring children of a node *)

(** The node at [x] without its children [p] and [q] around the pair [e]. *)
Definition pair_at (x : loc) (g : bframe) (e : kv) (p q : ptr) : hprop :=
  (∃ P1 P2, <affine> ⌜length P1 = length (fk1 g)⌝ ∗ node_rep kMin x (fk1 g ++ e :: fk2 g) (P1 ++ p :: q :: P2) ∗
     kids P1 (fc1 g) ∗ kids P2 (fc2 g))%I.

Lemma pair_at_plug x g e p q n t :
  pair_at x g e p q -∗ bt_at kMin p n -∗ bt_at kMin q t -∗
  bt_at kMin (Some x) (BN (fk1 g ++ e :: fk2 g) (fc1 g ++ n :: t :: fc2 g)).
Proof.
  iIntros "(%P1 & %P2 & _ & Hx & H1 & H2) Hn Ht". rewrite bt_at_BN. iExists x, _. iSplit; [done |].
  iFrame "Hx". iApply (big_sepL2_app with "H1"). simpl. iFrame.
Qed.

Lemma wp_pair_children {A} x g e p q i (K : ptr → ptr → M A) Q :
  i = Z.of_nat (length (fk1 g)) →
  pair_at x g e p q -∗ (pair_at x g e p q -∗ wp (K p q) Q) -∗
  wp (l ← aget (Some x) BT.children i; r ← aget (Some x) BT.children (i + 1); K l r) Q.
Proof.
  iIntros (->) "(%P1 & %P2 & %HP & Hx & H1 & H2) HQ". iApply wp_bind.
  iApply (wp_node_child with "Hx"); [by rewrite HP |]. iIntros "Hx". iApply wp_bind.
  replace (P1 ++ p :: q :: P2) with ((P1 ++ [p]) ++ q :: P2) by by rewrite -app_assoc.
  iApply (wp_node_child with "Hx"); [rewrite length_app /= HP; lia |]. rewrite -app_assoc. iIntros "Hx".
  iApply "HQ". iExists P1, P2. by iFrame.
Qed.

Lemma wp_pair_key x g a b p q i Q :
  i = Z.of_nat (length (fk1 g)) →
  pair_at x g (a, b) p q -∗ (pair_at x g (a, b) p q -∗ Q a) -∗ wp (aget (Some x) BT.keys i) Q.
Proof.
  iIntros (->) "(%P1 & %P2 & %HP & Hx & H1 & H2) HQ". iApply (wp_node_key with "Hx"); [done |]. iIntros "Hx".
  iApply "HQ". iExists P1, P2. by iFrame.
Qed.
Lemma wp_pair_value x g a b p q i Q :
  i = Z.of_nat (length (fk1 g)) →
  pair_at x g (a, b) p q -∗ (pair_at x g (a, b) p q -∗ Q b) -∗ wp (aget (Some x) BT.values i) Q.
Proof.
  iIntros (->) "(%P1 & %P2 & %HP & Hx & H1 & H2) HQ". iApply (wp_node_value with "Hx"); [done |]. iIntros "Hx".
  iApply "HQ". iExists P1, P2. by iFrame.
Qed.
Lemma wp_pair_set_key x g a b p q i a' Q :
  i = Z.of_nat (length (fk1 g)) →
  pair_at x g (a, b) p q -∗ (pair_at x g (a', b) p q -∗ Q ()) -∗ wp (aset (Some x) BT.keys i a') Q.
Proof.
  iIntros (->) "(%P1 & %P2 & %HP & Hx & H1 & H2) HQ". iApply (wp_node_set_key with "Hx"); [done |]. iIntros "Hx".
  iApply "HQ". iExists P1, P2. by iFrame.
Qed.
Lemma wp_pair_set_value x g a b p q i b' Q :
  i = Z.of_nat (length (fk1 g)) →
  pair_at x g (a, b) p q -∗ (pair_at x g (a, b') p q -∗ Q ()) -∗ wp (aset (Some x) BT.values i b') Q.
Proof.
  iIntros (->) "(%P1 & %P2 & %HP & Hx & H1 & H2) HQ". iApply (wp_node_set_value with "Hx"); [done |]. iIntros "Hx".
  iApply "HQ". iExists P1, P2. by iFrame.
Qed.

(** A key moves from the left child over the parent to the right child. *)
Lemma wp_TransferFromLeftToRight x g e l r kl e' pl q kr pr i Q :
  i = Z.of_nat (length (fk1 g)) → (length kr < 2 * kMin)%nat →
  pair_at x g e (Some l) (Some r) -∗ node_rep kMin l (kl ++ [e']) (pl ++ [q]) -∗ node_rep kMin r kr pr -∗
  (pair_at x g e' (Some l) (Some r) -∗ node_rep kMin l kl pl -∗ node_rep kMin r (e :: kr) (q :: pr) -∗ Q ()) -∗
  wp (BT.TransferFromLeftToRight (Some x) i) Q.
Proof.
  iIntros (Hi Hlt) "Hx (%ks & %vs & %ch & %Hl & Hl) (%ks' & %vs' & %ch' & %Hr & Hr) HQ".
  destruct Hl as (L1 & L2 & L3 & L4), Hr as (R1 & R2 & R3 & R4), e as [a b], e' as [a' b'].
  rewrite length_app /= in L1. rewrite !length_app /= in L4.
  destruct ks' as [|y1 ks']; [simpl in *; lia |]. destruct vs' as [|y2 vs']; [done |]. destruct ch' as [|y3 ch']; [done |].
  rewrite /BT.TransferFromLeftToRight. iApply (wp_pair_children with "Hx"); [done |]. iIntros "Hx".
  do 2 wp_step. iApply wp_bind. rewrite Nat2Z.id -{2}(length_fmap fst kr).
  iApply (wp_shiftKeys _ [] kr.*1 y1 ks' [] kr.*2 y2 vs' with "Hr"); [done | done | by rewrite !length_fmap |].
  iIntros (u1 u2) "Hr". wp_step. iApply wp_bind. replace (Z.to_nat _) with (length pr) by lia.
  iApply (wp_shiftChildren _ [] pr with "Hr"); [done |]. iIntros (u3) "Hr". simpl.
  iApply wp_bind. iApply (wp_pair_key with "Hx"); [done |]. iIntros "Hx".
  iApply wp_bind. iApply (wp_aset_at _ _ _ _ [] with "Hr"); [done..|]. iIntros "Hr". iSimpl in "Hr".
  iApply wp_bind. iApply (wp_pair_value with "Hx"); [done |]. iIntros "Hx".
  iApply wp_bind. iApply (wp_aset_at _ _ _ _ [] with "Hr"); [done..|]. iIntros "Hr". iSimpl in "Hr".
  iApply wp_bind. iApply (wp_aget_at _ _ _ _ pl q ch with "Hl"); [simpl; by rewrite -app_assoc | rewrite length_app /=; lia |].
  iIntros "Hl". iApply wp_bind. iApply (wp_aset_at _ _ _ _ [] with "Hr"); [done..|]. iIntros "Hr". iSimpl in "Hr".
  iApply wp_bind. iApply (wp_aget_at _ _ _ _ kl.*1 a' ks with "Hl").
  { simpl. by rewrite fmap_app -app_assoc. } { rewrite length_app length_fmap /=. lia. } iIntros "Hl".
  iApply wp_bind. iApply (wp_pair_set_key with "Hx"); [done |]. iIntros "Hx".
  iApply wp_bind. iApply (wp_aget_at _ _ _ _ kl.*2 b' vs with "Hl").
  { simpl. by rewrite fmap_app -app_assoc. } { rewrite length_app length_fmap /=. lia. } iIntros "Hl".
  iApply wp_bind. iApply (wp_pair_set_value with "Hx"); [done |]. iIntros "Hx". do 4 wp_step.
  iApply ("HQ" with "Hx [Hl] [Hr]").
  - iExists (a' :: ks), (b' :: vs), (q :: ch). rewrite !fmap_app -!app_assoc length_app /=.
    replace (Z.of_nat (length kl + 1) - 1) with (Z.of_nat (length kl)) by lia. iFrame "Hl". iPureIntro. lia.
  - iExists ks', vs', ch'. simpl. replace (Z.of_nat (S (length kr))) with (Z.of_nat (length kr) + 1) by lia.
    iFrame "Hr". iPureIntro. simpl in *. lia.
Qed.

Lemma wp_TransferFromRightToLeft x g e l r kl pl e' q kr pr i Q :
  i = Z.of_nat (length (fk1 g)) → (length kl < 2 * kMin)%nat →
  pair_at x g e (Some l) (Some r) -∗ node_rep kMin l kl pl -∗ node_rep kMin r (e' :: kr) (q :: pr) -∗
  (pair_at x g e' (Some l) (Some r) -∗ node_rep kMin l (kl ++ [e]) (pl ++ [q]) -∗ node_rep kMin r kr pr -∗ Q ()) -∗
  wp (BT.TransferFromRightToLeft (Some x) i) Q.
Proof.
  iIntros (Hi Hlt) "Hx (%ks & %vs & %ch & %Hl & Hl) (%ks' & %vs' & %ch' & %Hr & Hr) HQ".
  destruct Hl as (L1 & L2 & L3 & L4), Hr as (R1 & R2 & R3 & R4), e as [a b], e' as [a' b']. simpl in R1, R4.
  destruct ks as [|y1 ks]; [simpl in *; lia |]. destruct vs as [|y2 vs]; [done |]. destruct ch as [|y3 ch]; [done |].
  rewrite /BT.TransferFromRightToLeft. iApply (wp_pair_children with "Hx"); [done |]. iIntros "Hx".
  do 2 wp_step. iApply wp_bind. iApply (wp_pair_key with "Hx"); [done |]. iIntros "Hx".
  iApply wp_bind. iApply (wp_aset_at with "Hl"); [done | by rewrite length_fmap |]. iIntros "Hl". iSimpl in "Hl".
  iApply wp_bind. iApply (wp_pair_value with "Hx"); [done |]. iIntros "Hx".
  iApply wp_bind. iApply (wp_aset_at with "Hl"); [done | by rewrite length_fmap |]. iIntros "Hl". iSimpl in "Hl".
  iApply wp_bind. iApply (wp_aget_at _ _ _ _ [] with "Hr"); [done..|]. iIntros "Hr".
  iApply wp_bind. iApply (wp_aset_at with "Hl"); [done | lia |]. iIntros "Hl". iSimpl in "Hl".
  iApply wp_bind. iApply (wp_aget_at _ _ _ _ [] with "Hr"); [done..|]. iIntros "Hr".
  iApply wp_bind. iApply (wp_pair_set_key with "Hx"); [done |]. iIntros "Hx".
  iApply wp_bind. iApply (wp_aget_at _ _ _ _ [] with "Hr"); [done..|]. iIntros "Hr".
  iApply wp_bind. iApply (wp_pair_set_value with "Hx"); [done |]. iIntros "Hx".
  iApply wp_bind. iApply (wp_amove_left _ _ _ [] [a'] kr.*1 ks' with "Hr"); [done | done | done | rewrite length_fmap /=; lia |].
  iIntros (j1 J1) "Hr". iSimpl in "Hr".
  iApply wp_bind. iApply (wp_amove_left _ _ _ [] [b'] kr.*2 vs' with "Hr"); [done | done | done | rewrite length_fmap /=; lia |].
  iIntros (j2 J2) "Hr". iSimpl in "Hr".
  iApply wp_bind. iApply (wp_amove_left _ _ _ [] [q] pr ch' with "Hr"); [done | done | done | simpl; lia |].
  iIntros (j3 J3) "Hr". iSimpl in "Hr". do 4 wp_step. iApply ("HQ" with "Hx [Hl] [Hr]").
  - iExists ks, vs, ch. rewrite !fmap_app -!app_assoc !length_app /=.
    replace (Z.of_nat (length kl + 1)) with (Z.of_nat (length kl) + 1) by lia. iFrame "Hl". iPureIntro. simpl in *. lia.
  - iExists j1, j2, j3. replace (Z.of_nat (S (length kr)) - 1) with (Z.of_nat (length kr)) by lia.
    iFrame "Hr". iPureIntro. simpl in *. lia.
Qed.

(** A pair is taken out of the node, together with the child right of it. *)
Lemma wp_MergeChildren x g e l r kl pl kr pr i Q :
  i = Z.of_nat (length (fk1 g)) → (length kl + length kr + 1 = 2 * kMin)%nat →
  pair_at x g e (Some l) (Some r) -∗ node_rep kMin l kl pl -∗ node_rep kMin r kr pr -∗
  (∀ P1 P2, node_rep kMin x (fk1 g ++ fk2 g) (P1 ++ Some l :: P2) -∗ kids P1 (fc1 g) -∗ kids P2 (fc2 g) -∗
     node_rep kMin l (kl ++ e :: kr) (pl ++ pr) -∗ Q ()) -∗
  wp (BT.MergeChildren kMinZ (Some x) i) Q.
Proof.
  iIntros (Hi Hsum) "Hx (%ks & %vs & %ch & %Hl & Hl) (%ks' & %vs' & %ch' & %Hr & Hr) HQ".
  destruct Hl as (L1 & L2 & L3 & L4), Hr as (R1 & R2 & R3 & R4), e as [a b].
  destruct ks as [|y1 ks]; [simpl in *; lia |]. destruct vs as [|y2 vs]; [done |]. simpl in L1, L2, L3.
  rewrite /BT.MergeChildren. iApply (wp_pair_children with "Hx"); [done |]. iIntros "Hx".
  do 2 wp_step. iApply wp_bind. iApply wp_assert; [rewrite /BT.kMaxKeys; apply Z.eqb_eq; lia |].
  iApply wp_bind. iApply (wp_pair_key with "Hx"); [done |]. iIntros "Hx".
  iApply wp_bind. iApply (wp_aset_at with "Hl"); [done | by rewrite length_fmap |]. iIntros "Hl". iSimpl in "Hl".
  iApply wp_bind. iApply (wp_pair_value with "Hx"); [done |]. iIntros "Hx".
  iApply wp_bind. iApply (wp_aset_at with "Hl"); [done | by rewrite length_fmap |]. iIntros "Hl". iSimpl in "Hl".
  iDestruct "Hx" as (P1 P2 HP) "((%kx & %vx & %cx & %Hx & Hx) & H1 & H2)". destruct Hx as (X1 & X2 & X3 & X4).
  rewrite !length_app /= in X1. rewrite !length_app /= in X4. wp_step.
  iApply wp_bind. iApply (wp_amove_left _ _ _ (fk1 g).*1 [a] (fk2 g).*1 kx with "Hx").
  { simpl. by rewrite fmap_app -app_assoc. } { by rewrite length_fmap. } { done. }
  { rewrite length_fmap length_app /=. lia. }
  iIntros (j1 J1) "Hx". iSimpl in "Hx". wp_step.
  iApply wp_bind. iApply (wp_amove_left _ _ _ (fk1 g).*2 [b] (fk2 g).*2 vx with "Hx").
  { simpl. by rewrite fmap_app -app_assoc. } { by rewrite length_fmap. } { done. }
  { rewrite length_fmap length_app /=. lia. }
  iIntros (j2 J2) "Hx". iSimpl in "Hx". wp_step.
  iApply wp_bind. iApply (wp_amove_left _ _ _ (P1 ++ [Some l]) [Some r] P2 cx with "Hx").
  { simpl. by rewrite -!app_assoc. } { rewrite length_app /=. lia. } { simpl. lia. }
  { rewrite length_app /=. lia. }
  iIntros (j3 J3) "Hx". iSimpl in "Hx". do 2 wp_step.
  iApply wp_bind. iApply (wp_amove_copy _ r _ l _ kr.*1 ks' (kl.*1 ++ [a]) ks with "Hr Hl").
  { done. } { simpl. by rewrite -app_assoc. } { rewrite length_fmap. lia. } { by rewrite length_fmap. }
  { rewrite length_app length_fmap /=. lia. }
  iIntros (j4 J4) "Hr Hl". iSimpl in "Hl".
  iApply wp_bind. iApply (wp_amove_copy _ r _ l _ kr.*2 vs' (kl.*2 ++ [b]) vs with "Hr Hl").
  { done. } { simpl. by rewrite -app_assoc. } { rewrite length_fmap. lia. } { by rewrite length_fmap. }
  { rewrite length_app length_fmap /=. lia. }
  iIntros (j5 J5) "Hr Hl". iSimpl in "Hl".
  iApply wp_bind. iApply (wp_amove_copy _ r _ l _ pr ch' pl ch with "Hr Hl"); [done | done | lia | lia | lia |].
  iIntros (j6 J6) "Hr Hl". iSimpl in "Hl". do 2 wp_step. iApply ("HQ" $! P1 P2 with "[Hx] H1 H2 [Hl]").
  - iExists j1, j2, j3. rewrite !fmap_app -!app_assoc !length_app /=.
    replace (Z.of_nat (length (fk1 g) + S (length (fk2 g))) - 1) with (Z.of_nat (length (fk1 g) + length (fk2 g))) by lia.
    iFrame "Hx". iPureIntro. simpl in *. lia.
  - iExists j4, j5, j6. rewrite !fmap_app -!app_assoc !length_app /=.
    replace (Z.of_nat (length kl + S (length kr))) with (Z.of_nat (length kl) + Z.of_nat (length kr) + 1) by lia.
    iFrame "Hl". iPureIntro. rewrite length_fmap in J4. rewrite length_fmap in J5. simpl in *.
    lia.
Qed.

(** ** The search *)

Lemma wp_DeleteSearchLoop fuel k c h top p rp t Q :
  searching kMin k c.*2 h top t → (h < fuel)%nat → (top ≤ 16)%nat →
  bpath_at kMin c p rp -∗ bt_at kMin p t -∗
  ((∀ pth l1 l2, ⌜belems (bplug c.*2 t) = l1 ++ l2 ∧ keys_below l1 k ∧ keys_above l2 k⌝ →
      bt_at kMin rp (bplug c.*2 t) -∗ Q (NULL, pth)) ∧
   (∀ c' h' x k1 b k2 cs ptrs,
      ⌜searching kMin k c'.*2 (S h') top (BN (k1 ++ (k, b) :: k2) cs) ∧
        bplug c.*2 t = bplug c'.*2 (BN (k1 ++ (k, b) :: k2) cs)⌝ →
      bpath_at kMin c' (Some x) rp -∗ node_rep kMin x (k1 ++ (k, b) :: k2) ptrs -∗ kids ptrs cs -∗
      Q (Some x, (Some x, Z.of_nat (length k1)) :: steps c'))) -∗
  wp (iter fuel (BT.DeleteSearchStep k) (p, steps c)) Q.
Proof.
  iIntros (Hs Hf Htop) "Hc Ht HQ". iInduction h as [|h IH] forall (fuel c p t Hs Hf);
    (destruct fuel as [|fuel]; [lia |]); iApply wp_iter_S; iEval (rewrite {1}/BT.DeleteSearchStep).
  - pose proof Hs as (Hc & Hsub%sub_wf_shape%bshape_leaf & _ & Hb & Ha). subst t.
    iAssert (⌜p = NULL⌝)%I as %->. { iEval (rewrite bt_at_BNil) in "Ht". by iDestruct "Ht" as %->. }
    rewrite (bool_decide_true (NULL = NULL)) //. wp_step. iDestruct "HQ" as "[HQ _]".
    iApply ("HQ" $! _ (bctx_l c.*2) (bctx_r c.*2) with "[%]"); [|iApply (bplug_at with "Hc Ht")].
    rewrite belems_plug; [done | by eapply ctx_wf_ok].
  - destruct (searching_BN _ _ _ _ _ _ Hs) as (kvs & cs & ->).
    pose proof (ctx_wf_length _ _ _ _ (proj1 Hs)) as Hlen. rewrite length_fmap in Hlen.
    iEval (rewrite bt_at_BN) in "Ht". iDestruct "Ht" as (x ptrs ->) "[Hx Hk]".
    rewrite (bool_decide_false (Some x = NULL)) //.
    iApply wp_bind; iApply wp_assert; [rewrite length_map /BT.kMaxDepth; apply Z.ltb_lt; lia |].
    iApply (wp_visit with "Hx Hk"); [done |]. iSplit.
    + iIntros (k1 b k2 [-> Hl]) "Hx Hk". iDestruct "HQ" as "[_ HQ]". wp_step.
      by iApply ("HQ" with "[%] Hc Hx Hk").
    + iIntros (f q1 q q2 t (Heq & Hs' & Hq1)) "Hx Hk1 Ht Hk2". iApply wp_bind.
      iApply (wp_node_child with "Hx"); [by rewrite Hq1 |]. iIntros "Hx". wp_step.
      iApply ("IH" $! fuel ((x, f) :: c) with "[//] [%] [Hx Hk1 Hk2 Hc] Ht"); [lia | |].
      * iApply (bpath_at_cons with "Hx Hk1 Hk2 Hc").
      * by rewrite Heq.
Qed.

(** ** Removing the key *)

(** A pair is taken out of a leaf. *)
Lemma wp_removeAt {A} z k1 e k2 ptrs cs i (r : A) Q :
  i = Z.of_nat (length k1) → Forall (bwf kMin 0) cs →
  node_rep kMin z (k1 ++ e :: k2) ptrs -∗ kids ptrs cs -∗
  (∀ ptrs' cs', ⌜length cs' = S (length (k1 ++ k2)) ∧ Forall (bwf kMin 0) cs'⌝ →
     node_rep kMin z (k1 ++ k2) ptrs' -∗ kids ptrs' cs' -∗ Q r) -∗
  wp (n ← Some z ~> BT.size_;
      BT.amove BT.keys (Some z) (i + 1) n (Some z) i;;
      n ← Some z ~> BT.size_;
      BT.amove BT.values (Some z) (i + 1) n (Some z) i;;
      n ← Some z ~> BT.size_;
      Some z ~> BT.size_ ::= n - 1;;
      mret r) Q.
Proof.
  iIntros (-> Hcs) "(%ks & %vs & %ch & %Hl & Hx) Hk HQ". destruct Hl as (L1 & L2 & L3 & L4).
  iDestruct (kids_length with "Hk") as %Hlen. rewrite length_app /= in L1, L4. destruct e as [a b].
  destruct ptrs as [|q ptrs _] using rev_ind; [done |]. destruct cs as [|c cs _] using rev_ind.
  { by rewrite length_app /= Nat.add_comm in Hlen. }
  rewrite !length_app /= in Hlen. rewrite length_app /= in L4. apply Forall_app in Hcs as [Hcs [Hc _]%Forall_cons].
  iDestruct (big_sepL2_app_inv with "Hk") as "[Hk [Hq _]]"; [left; lia |].
  rewrite (bshape_leaf c (bwf_shape _ _ _ Hc)) bt_at_BNil. iDestruct "Hq" as %->. wp_step.
  iApply wp_bind. iApply (wp_amove_left _ _ _ k1.*1 [a] k2.*1 ks with "Hx").
  { simpl. by rewrite fmap_app -app_assoc. } { by rewrite length_fmap. } { done. }
  { rewrite length_fmap length_app /=. lia. }
  iIntros (j1 J1) "Hx". iSimpl in "Hx". wp_step.
  iApply wp_bind. iApply (wp_amove_left _ _ _ k1.*2 [b] k2.*2 vs with "Hx").
  { simpl. by rewrite fmap_app -app_assoc. } { by rewrite length_fmap. } { done. }
  { rewrite length_fmap length_app /=. lia. }
  iIntros (j2 J2) "Hx". iSimpl in "Hx". do 3 wp_step.
  iApply ("HQ" $! ptrs cs with "[%] [Hx] Hk"); [split; [rewrite length_app; lia | done] |].
  iExists j1, j2, (NULL :: ch). rewrite !fmap_app -!app_assoc !length_app /=.
  replace (Z.of_nat (length k1 + S (length k2)) - 1) with (Z.of_nat (length k1 + length k2)) by lia.
  iFrame "Hx". iPureIntro. simpl in *. lia.
Qed.

(** The last child of a node. *)
Lemma bt_at_last (kvs : list kv) cs ptrs :
  length cs = S (length kvs) → kids ptrs cs -∗
  ∃ q1 q c1 t, <affine> ⌜ptrs = q1 ++ [q] ∧ cs = c1 ++ [t] ∧ length q1 = length kvs ∧ length c1 = length kvs⌝ ∗
    kids q1 c1 ∗ bt_at kMin q t.
Proof.
  iIntros (Hl) "Hk". iDestruct (kids_length with "Hk") as %Hlen.
  destruct ptrs as [|q ptrs _] using rev_ind; [simpl in *; lia |].
  destruct cs as [|t cs _] using rev_ind; [done |]. rewrite !length_app /= in Hlen, Hl.
  iDestruct (big_sepL2_app_inv with "Hk") as "[Hk [Hq _]]"; [left; lia |].
  iExists ptrs, q, cs, t. iFrame. iPureIntro. split_and!; [done..| lia | lia].
Qed.

Lemma frame_last kvs c1 t : bplug_frame (BFrame kvs c1 [] []) t = BN kvs (c1 ++ [t]).
Proof. by rewrite /bplug_frame /= app_nil_r. Qed.

(** The walk to the last node below [y]. *)
Lemma wp_DownLoop fuel h c top sp y kvs cs ptrs q0 rest Q :
  ctx_wf kMin (sp.*2 ++ c) (S h) top → bwf kMin (S h) (BN kvs cs) → bctx_r sp.*2 = [] → (h < fuel)%nat →
  length rest = length c → c ≠ [] → (top ≤ 16)%nat →
  bpath_at kMin sp (Some y) q0 -∗ node_rep kMin y kvs ptrs -∗ kids ptrs cs -∗
  (∀ sp' z kvs' cs' ptrs',
     ⌜ctx_wf kMin (sp'.*2 ++ c) 1 top ∧ bwf kMin 1 (BN kvs' cs') ∧ bctx_r sp'.*2 = [] ∧
       bctx_l sp'.*2 ++ belems (BN kvs' cs') = bctx_l sp.*2 ++ belems (BN kvs cs)⌝ →
     bpath_at kMin sp' (Some z) q0 -∗ node_rep kMin z kvs' ptrs' -∗ kids ptrs' cs' -∗
     Q (Some z, Z.of_nat (length kvs'), (Some z, Z.of_nat (length kvs')) :: steps sp' ++ rest)) -∗
  wp (iter fuel BT.DownStep (Some y, Z.of_nat (length kvs), (Some y, Z.of_nat (length kvs)) :: steps sp ++ rest)) Q.
Proof.
  iIntros (Hc Hw Hr Hf Hrest Hne Htop) "Hc Hx Hk HQ".
  iInduction h as [|h IH] forall (fuel sp y kvs cs ptrs Hc Hw Hr Hf); (destruct fuel as [|fuel]; [lia |]);
    iApply wp_iter_S; iEval (rewrite {1}/BT.DownStep); pose proof Hw as (_ & Hl & Hcs);
    iDestruct (bt_at_last with "Hk") as (q1 q c1 t (-> & -> & Hq1 & Hc1)) "[Hk Ht]"; try done;
    iApply wp_bind; (iApply (wp_node_child with "Hx"); [by rewrite Hq1 |]); iIntros "Hx";
    pose proof Hcs as [_ [Ht _]%Forall_cons]%Forall_app.
  - iAssert (⌜q = NULL⌝)%I as %->.
    { rewrite (bshape_leaf t (bwf_shape _ _ _ Ht)) bt_at_BNil. by iDestruct "Ht" as %->. }
    rewrite (bool_decide_true (NULL = NULL)) //. wp_step.
    iApply ("HQ" with "[%] Hc Hx"); [done |]. iApply (big_sepL2_app with "Hk"). simpl. iFrame.
  - destruct t as [|kvs' cs']; [done |]. iEval (rewrite bt_at_BN) in "Ht". iDestruct "Ht" as (y' ptrs' ->) "[Hy' Hk']".
    rewrite (bool_decide_false (Some y' = NULL)) //. iApply wp_bind.
    iApply (wp_node_child with "Hx"); [by rewrite Hq1 |]. iIntros "Hx".
    iApply wp_bind. iApply (wp_node_size with "Hy'"). iIntros "Hy'".
    pose proof (ctx_wf_length _ _ _ _ Hc) as Hlen. rewrite length_app length_fmap in Hlen.
    rewrite (proj2 (Z.ltb_lt _ _)); last first.
    { rewrite /BT.kMaxDepth /= length_app /steps length_map. lia. }
    wp_step. set (f := BFrame kvs c1 [] []).
    iApply ("IH" $! fuel ((y, f) :: sp) with "[%] [//] [%] [%] [Hc Hx Hk] Hy' Hk'").
    + apply (ctx_wf_down _ _ _ _ f (BN kvs' cs')); [done | by destruct sp | by rewrite frame_last | done].
    + done.
    + lia.
    + iApply (bpath_at_cons _ _ f with "[Hx] Hk [] Hc"); [|done]. by rewrite /= app_nil_r.
    + iIntros (sp' z kvs1 cs1 ptrs1 (? & ? & ? & Hel)) "Hc Hz Hk". iApply ("HQ" with "[%] Hc Hz Hk").
      do 3 (split; [done |]). rewrite Hel /= -app_assoc -frame_last belems_plug_frame //.
      by rewrite /bframe_r /= app_nil_r.
Qed.

(** What is left when [k] has been removed: a path to a leaf that may be one key
    short. *)
Definition removed (k b : Z) (es : list kv) (c : list bframe) (top : nat) (t : btr) : Prop :=
  ctx_wf kMin c 1 top ∧ sub_low kMin c 1 t ∧
  ∃ l1 l2, es = l1 ++ (k, b) :: l2 ∧ bctx_l c ++ belems t ++ bctx_r c = l1 ++ l2.

Lemma sub_low_remove c k1 e k2 cs cs' :
  sub_wf kMin c 1 (BN (k1 ++ e :: k2) cs) → length cs' = S (length (k1 ++ k2)) → Forall (bwf kMin 0) cs' →
  sub_low kMin c 1 (BN (k1 ++ k2) cs').
Proof.
  intros Hs Hl Hcs. destruct c; simpl in Hs.
  - destruct Hs as (Hle & _). rewrite length_app /= in Hle.
    split_and!; [rewrite length_app; lia | done | done | by left].
  - destruct Hs as ([Hge Hle] & _). rewrite length_app /= in Hge, Hle.
    split_and!; [rewrite length_app; lia | done | done | right; rewrite length_app; lia].
Qed.

Lemma removed_leaf c top k1 k b k2 cs cs' :
  ctx_wf kMin c 1 top → sub_wf kMin c 1 (BN (k1 ++ (k, b) :: k2) cs) →
  length cs' = S (length (k1 ++ k2)) → Forall (bwf kMin 0) cs' →
  removed k b (belems (bplug c (BN (k1 ++ (k, b) :: k2) cs))) c top (BN (k1 ++ k2) cs').
Proof.
  intros Hc Hs Hl Hcs. split; [done |]. split; [by eapply sub_low_remove |].
  exists (bctx_l c ++ k1), (k2 ++ bctx_r c). rewrite belems_plug; [|by eapply ctx_wf_ok].
  apply sub_wf_low in Hs as (_ & Hl' & Hcs' & _). rewrite !(belems_leaf kMin) //. by rewrite -!app_assoc.
Qed.

(** The pair [e] from the end of a leaf takes the place of [(k, b)]. *)
Lemma removed_inner c top k1 c1 k b k2 c2 t sp kl e cs cs' :
  ctx_wf kMin (sp ++ BFrame k1 c1 ((k, b) :: k2) c2 :: c) 1 top →
  bwf kMin 1 (BN (kl ++ [e]) cs) → bctx_r sp = [] → bctx_l sp ++ belems (BN (kl ++ [e]) cs) = belems t →
  length cs' = S (length (kl ++ [])) → Forall (bwf kMin 0) cs' →
  removed k b (belems (bplug c (bplug_frame (BFrame k1 c1 ((k, b) :: k2) c2) t)))
    (sp ++ BFrame k1 c1 (e :: k2) c2 :: c) top (BN (kl ++ []) cs').
Proof.
  intros Hc Hs Hr Hel Hl Hcs. pose proof (ctx_wf_ok _ _ _ _ Hc) as [_ [Hf Hok]%Forall_cons]%Forall_app.
  split; [by eapply ctx_wf_pair |]. split.
  { apply (sub_low_remove _ kl e [] cs); [by destruct sp | done..]. }
  exists (bctx_l c ++ bframe_l (BFrame k1 c1 k2 c2) ++ bctx_l sp ++ kl ++ [e]), (weave k2 (map belems c2) ++ bctx_r c).
  destruct Hs as (_ & Hl' & Hcs'). rewrite (belems_leaf kMin) // in Hel.
  rewrite belems_plug // belems_plug_frame // -Hel bctx_l_app bctx_r_app Hr (belems_leaf kMin) // app_nil_r.
  by rewrite /= -!app_assoc /= -?app_assoc.
Qed.

Lemma wp_removeKey k c h top x k1 b k2 cs ptrs rp Q :
  searching kMin k c.*2 (S h) top (BN (k1 ++ (k, b) :: k2) cs) → (top ≤ 16)%nat →
  bpath_at kMin c (Some x) rp -∗ node_rep kMin x (k1 ++ (k, b) :: k2) ptrs -∗ kids ptrs cs -∗
  (∀ c' z kvs cs' ptrs' i,
     ⌜removed k b (belems (bplug c.*2 (BN (k1 ++ (k, b) :: k2) cs))) c'.*2 top (BN kvs cs')⌝ →
     bpath_at kMin c' (Some z) rp -∗ node_rep kMin z kvs ptrs' -∗ kids ptrs' cs' -∗
     Q (Some z, (Some z, i) :: steps c')) -∗
  wp (BT.removeKey (Some x) (Z.of_nat (length k1)) ((Some x, Z.of_nat (length k1)) :: steps c)) Q.
Proof.
  iIntros (Hs Htop) "Hc Hx Hk HQ". pose proof Hs as (Hc & Hsub & _). pose proof (sub_wf_low _ _ _ _ Hsub) as (_ & Hl & Hcs & _).
  iDestruct (bt_at_frame with "Hx Hk") as (q1 q q2 c1 t c2 (-> & -> & H1 & H2)) "(Hx & Hk1 & Ht & Hk2)"; [done |].
  iDestruct (kids_length with "Hk1") as %Hq1. rewrite /BT.removeKey. iApply wp_bind.
  iApply (wp_node_child with "Hx"); [congruence |]. iIntros "Hx".
  destruct h as [|h].
  - pose proof Hcs as [_ [Ht _]%Forall_cons]%Forall_app.
    iAssert (⌜q = NULL⌝)%I as %->.
    { rewrite (bshape_leaf t (bwf_shape _ _ _ Ht)) bt_at_BNil. by iDestruct "Ht" as %->. }
    rewrite (bool_decide_true (NULL = NULL)) //=. wp_step.
    iApply (wp_removeAt with "Hx [Hk1 Ht Hk2]"); [done | done | |].
    { iApply (big_sepL2_app with "Hk1"). simpl. iFrame. }
    iIntros (ptrs' cs' [Hl' Hcs']) "Hx Hk". iApply ("HQ" $! c x with "[%] Hc Hx Hk"). by apply removed_leaf.
  - set (f := BFrame k1 c1 ((k, b) :: k2) c2).
    change (BN (k1 ++ (k, b) :: k2) (c1 ++ t :: c2)) with (bplug_frame f t) in *.
    assert (ctx_wf kMin (f :: c.*2) (S h) top ∧ bwf kMin (S h) t) as [Hcf Ht].
    { destruct (sub_wf_frame kMin _ _ f t Hsub) as [? ?]; [done |]. by split. }
    destruct t as [|kvs cs]; [done |]. iEval (rewrite bt_at_BN) in "Ht". iDestruct "Ht" as (y ptrs ->) "[Hy Hk]".
    rewrite (bool_decide_false (Some y = NULL)) //=. do 2 iApply wp_bind.
    pose proof (ctx_wf_length _ _ _ _ Hcf) as Hlen. simpl in Hlen. rewrite length_fmap in Hlen.
    iApply (wp_loop (S h)). iSplit.
    { iApply (bt_at_height kMin (Some y) _ (BN kvs cs) with "[Hy Hk]"); [by eapply bwf_shape |].
      rewrite bt_at_BN. by iFrame. }
    iIntros (fuel Hf). destruct fuel as [|fuel]; [lia |]. iApply wp_iter_S. iEval (rewrite {1}/BT.DownStep).
    iApply wp_bind. iApply (wp_node_child with "Hx"); [congruence |]. iIntros "Hx".
    rewrite (bool_decide_false (Some y = NULL)) //=. iApply wp_bind.
    iApply (wp_node_child with "Hx"); [congruence |]. iIntros "Hx".
    iApply wp_bind. iApply (wp_node_size with "Hy"). iIntros "Hy".
    rewrite (proj2 (Z.ltb_lt _ _)); [|rewrite /BT.kMaxDepth /steps length_map; lia]. wp_step.
    iApply (wp_DownLoop fuel h (f :: c.*2) top [] with "[] Hy Hk"); try done; [lia | by rewrite /= /steps length_map length_fmap |].
    iIntros (sp z kvs' cs' ptrs' (Hsp & Hleaf & Hr & Hel)) "Hsp Hz Hk".
    pose proof Hleaf as ([Hge _] & _ & Hcs'). destruct kvs' as [|[a b'] kl _] using rev_ind; [simpl in Hge; lia |].
    iEval (rewrite length_app Nat.add_1_r). iApply wp_bind.
    iApply (wp_node_key with "Hz"); [lia |]. iIntros "Hz".
    iApply wp_bind. iApply (wp_node_set_key with "Hx"); [done |]. iIntros "Hx".
    iApply wp_bind. iApply (wp_node_value with "Hz"); [lia |]. iIntros "Hz".
    iApply wp_bind. iApply (wp_node_set_value with "Hx"); [done |]. iIntros "Hx". wp_step.
    iApply (wp_removeAt with "Hz Hk"); [lia | done |].
    iIntros (ptrs1 cs1 [Hl1 Hcs1]) "Hz Hk". set (f' := BFrame k1 c1 ((a, b') :: k2) c2).
    iSpecialize ("HQ" $! (sp ++ (x, f') :: c) z (kl ++ []) cs1 ptrs1 with "[%]").
    + rewrite fmap_app fmap_cons /=. by eapply removed_inner.
    + rewrite /steps map_app. iApply ("HQ" with "[-Hz Hk] Hz Hk"). iApply (bpath_at_app with "Hsp").
      iApply (bpath_at_cons _ _ f' with "Hx Hk1 Hk2 Hc").
Qed.

(** ** Siblings *)

Lemma pair_at_left x K1 e K2 C1 n C2 q1 p q2 :
  length C1 = length K1 →
  node_rep kMin x ((K1 ++ [e]) ++ K2) (q1 ++ p :: q2) -∗ kids q1 (C1 ++ [n]) -∗ kids q2 C2 -∗
  ∃ pn, pair_at x (BFrame K1 C1 K2 C2) e pn p ∗ bt_at kMin pn n.
Proof.
  iIntros (Hl) "Hx H1 H2". iDestruct (big_sepL2_app_inv_r with "H1") as (P1 P ->) "[H1 Hn]".
  iDestruct (kids_length with "H1") as %HP. iDestruct (kids_length with "Hn") as %HPn.
  destruct P as [|pn []]; [done | | done]. iDestruct "Hn" as "[Hn _]".
  iExists pn. iFrame "Hn". iExists P1, q2. rewrite -!app_assoc /=. iFrame. iPureIntro. congruence.
Qed.

Lemma pair_at_right x K1 e K2 C1 n C2 q1 p q2 :
  length C1 = length K1 →
  node_rep kMin x (K1 ++ e :: K2) (q1 ++ p :: q2) -∗ kids q1 C1 -∗ kids q2 (n :: C2) -∗
  ∃ pn, pair_at x (BFrame K1 C1 K2 C2) e p pn ∗ bt_at kMin pn n.
Proof.
  iIntros (Hl) "Hx H1 H2". iDestruct (kids_length with "H1") as %HP.
  iDestruct (big_sepL2_cons_inv_r with "H2") as (pn P2 ->) "[Hn H2]".
  iExists pn. iFrame "Hn". iExists q1, P2. iFrame. iPureIntro. simpl. congruence.
Qed.

Definition nkeys (t : btr) : nat := match t with BN kvs _ => length kvs | BNil => 0 end.

Lemma wp_bt_size p h t Q :
  bwf kMin (S h) t → bt_at kMin p t -∗ (bt_at kMin p t -∗ Q (Z.of_nat (nkeys t))) -∗ wp (p ~> BT.size_) Q.
Proof.
  iIntros (Ht) "Ht HQ". destruct t as [|kvs cs]; [done |]. iEval (rewrite bt_at_BN) in "Ht".
  iDestruct "Ht" as (x ptrs ->) "[Hx Hk]". iApply (wp_node_size with "Hx"). iIntros "Hx". iApply "HQ".
  rewrite bt_at_BN. by iFrame.
Qed.

(** A key is borrowed from the left sibling. *)
Lemma wp_borrowLeft x g e pn y kr cr pr n h c i Q :
  i = Z.of_nat (length (fk1 g)) → pair_wf kMin g (S h) (bool_decide (c = [])) → bwf kMin (S h) n →
  (kMin < nkeys n)%nat → S (length kr) = kMin → Forall (bwf kMin h) cr → length cr = S (length kr) →
  pair_at x g e pn (Some y) -∗ bt_at kMin pn n -∗ node_rep kMin y kr pr -∗ kids pr cr -∗
  (∀ t', ⌜sub_wf kMin c (S (S h)) t' ∧
       belems t' = belems (BN (fk1 g ++ e :: fk2 g) (fc1 g ++ n :: BN kr cr :: fc2 g))⌝ →
     bt_at kMin (Some x) t' -∗ Q ()) -∗
  wp (BT.TransferFromLeftToRight (Some x) i) Q.
Proof.
  iIntros (Hi Hg Hn Hlt Hkr Hcr Hlr) "Hx Hn Hy Hk HQ". destruct n as [|kvs cs]; [done |]. simpl in Hlt.
  destruct Hn as (Hsz & Hl & Hcs). iEval (rewrite bt_at_BN) in "Hn". iDestruct "Hn" as (l ptrs ->) "[Hl Hkl]".
  iDestruct (bt_at_last with "Hkl") as (pl q cl ct (-> & -> & Hpl & Hcl)) "[Hkl Hq]"; [done |].
  destruct kvs as [|e' kl _] using rev_ind; [simpl in Hlt; lia |]. rewrite length_app /= in Hsz, Hlt, Hpl, Hcl.
  apply Forall_app in Hcs as [Hcs [Hct _]%Forall_cons].
  iApply (wp_TransferFromLeftToRight with "Hx Hl Hy"); [done | lia |]. iIntros "Hx Hl Hy".
  iApply ("HQ" $! (BN (fk1 g ++ e' :: fk2 g) (fc1 g ++ BN kl cl :: BN (e :: kr) (ct :: cr) :: fc2 g)) with "[%]").
  - split.
    + apply pair_wf_sub; [done | |]; split_and!; simpl; try done; try lia. by constructor.
    + destruct Hg as [Hok _]. rewrite !belems_insert // belems_rotate //. lia.
  - iApply (pair_at_plug with "Hx [Hl Hkl] [Hy Hk Hq]"); rewrite bt_at_BN.
    + iExists l, pl. by iFrame.
    + iExists y, (q :: pr). by iFrame.
Qed.

(** A key is borrowed from the right sibling. *)
Lemma wp_borrowRight x g e pn y kl cl pl n h c i Q :
  i = Z.of_nat (length (fk1 g)) → pair_wf kMin g (S h) (bool_decide (c = [])) → bwf kMin (S h) n →
  (kMin < nkeys n)%nat → S (length kl) = kMin → Forall (bwf kMin h) cl → length cl = S (length kl) →
  pair_at x g e (Some y) pn -∗ bt_at kMin pn n -∗ node_rep kMin y kl pl -∗ kids pl cl -∗
  (∀ t', ⌜sub_wf kMin c (S (S h)) t' ∧
       belems t' = belems (BN (fk1 g ++ e :: fk2 g) (fc1 g ++ BN kl cl :: n :: fc2 g))⌝ →
     bt_at kMin (Some x) t' -∗ Q ()) -∗
  wp (BT.TransferFromRightToLeft (Some x) i) Q.
Proof.
  iIntros (Hi Hg Hn Hlt Hkl Hcl Hll) "Hx Hn Hy Hk HQ". destruct n as [|kvs cs]; [done |]. simpl in Hlt.
  destruct Hn as (Hsz & Hl & Hcs). iEval (rewrite bt_at_BN) in "Hn". iDestruct "Hn" as (r ptrs ->) "[Hr Hkr]".
  destruct kvs as [|e' kr]; [simpl in Hlt; lia |]. destruct cs as [|ct cr]; [done |].
  iDestruct (big_sepL2_cons_inv_r with "Hkr") as (q pr ->) "[Hq Hkr]". simpl in Hsz, Hlt, Hl.
  apply Forall_cons in Hcs as [Hct Hcs].
  iApply (wp_TransferFromRightToLeft with "Hx Hy Hr"); [done | lia |]. iIntros "Hx Hy Hr".
  iApply ("HQ" $! (BN (fk1 g ++ e' :: fk2 g) (fc1 g ++ BN (kl ++ [e]) (cl ++ [ct]) :: BN kr cr :: fc2 g)) with "[%]").
  - split.
    + apply pair_wf_sub; [done | |]; split_and!; rewrite ?length_app /=; try done; try lia.
      apply Forall_app. split; [done | by constructor].
    + destruct Hg as [Hok _]. by rewrite !belems_insert // belems_rotate.
  - iApply (pair_at_plug with "Hx [Hy Hk Hq] [Hr Hkr]"); rewrite bt_at_BN.
    + iExists y, (pl ++ [q]). iFrame "Hy". iSplit; [done |]. iApply (big_sepL2_app with "Hk"). by iFrame.
    + iExists r, pr. by iFrame.
Qed.

(** Two siblings become one node; their parent loses a key. *)
Lemma wp_merge x g e l kl cl pl r kr cr pr h c i Q :
  i = Z.of_nat (length (fk1 g)) → pair_wf kMin g (S h) (bool_decide (c = [])) →
  (length kl + length kr + 1 = 2 * kMin)%nat → length cl = S (length kl) → length cr = S (length kr) →
  Forall (bwf kMin h) cl → Forall (bwf kMin h) cr →
  pair_at x g e (Some l) (Some r) -∗ node_rep kMin l kl pl -∗ kids pl cl -∗ node_rep kMin r kr pr -∗ kids pr cr -∗
  (∀ ptrs kvs cs, ⌜sub_low kMin c (S (S h)) (BN kvs cs) ∧
       belems (BN kvs cs) = belems (BN (fk1 g ++ e :: fk2 g) (fc1 g ++ BN kl cl :: BN kr cr :: fc2 g))⌝ →
     node_rep kMin x kvs ptrs -∗ kids ptrs cs -∗ Q ()) -∗
  wp (BT.MergeChildren kMinZ (Some x) i) Q.
Proof.
  iIntros (Hi Hg Hsum Hll Hlr Hcl Hcr) "Hx Hl Hkl Hr Hkr HQ".
  iApply (wp_MergeChildren with "Hx Hl Hr"); [done..|]. iIntros (P1 P2) "Hx H1 H2 Hl".
  iApply ("HQ" $! _ (fk1 g ++ fk2 g) (fc1 g ++ BN (kl ++ e :: kr) (cl ++ cr) :: fc2 g) with "[%] Hx").
  - split.
    + apply (pair_wf_merged kMin g (S h)); [done |]. split_and!; rewrite ?length_app /=; try lia. by apply Forall_app.
    + destruct Hg as [Hok _]. rewrite belems_insert //.
      rewrite (belems_plug_frame g (BN (kl ++ e :: kr) (cl ++ cr)) Hok) belems_cut //. by rewrite -!app_assoc.
  - iApply (big_sepL2_app with "H1"). simpl. iFrame "H2". rewrite bt_at_BN. iExists l, _. iFrame "Hl".
    iSplit; [done |]. iApply (big_sepL2_app with "Hkl Hkr").
Qed.

(** ** Going up *)

Definition rich (t : option btr) : bool :=
  match t with Some t => bool_decide (kMin < nkeys t)%nat | None => false end.

Lemma wp_rich p h t Q :
  bwf kMin (S h) t → bt_at kMin p t -∗ (bt_at kMin p t -∗ Q (rich (Some t))) -∗
  wp (n ← p ~> BT.size_; mret (n >? kMinZ)) Q.
Proof.
  iIntros (Ht) "Ht HQ". iApply wp_bind. iApply (wp_bt_size with "Ht"); [done |]. iIntros "Ht". wp_step.
  assert ((Z.of_nat (nkeys t) >? kMinZ) = rich (Some t)) as ->; [|by iApply "HQ"].
  rewrite Z.gtb_ltb /=. case_bool_decide; [apply Z.ltb_lt | apply Z.ltb_ge]; lia.
Qed.

Lemma wp_leftRich x f q1 p q2 h Q :
  frame_ok f → Forall (bwf kMin (S h)) (fc1 f) →
  node_rep kMin x (fk1 f ++ fk2 f) (q1 ++ p :: q2) -∗ kids q1 (fc1 f) -∗
  (node_rep kMin x (fk1 f ++ fk2 f) (q1 ++ p :: q2) -∗ kids q1 (fc1 f) -∗ Q (rich (last (fc1 f)))) -∗
  wp (if Z.of_nat (length (fk1 f)) =? 0 then mret false
      else c ← aget (Some x) BT.children (Z.of_nat (length (fk1 f)) - 1);
           n ← c ~> BT.size_; mret (n >? kMinZ)) Q.
Proof.
  iIntros ([Hl _] Hc) "Hx H1 HQ". destruct (fc1 f) as [|n C1 _] using rev_ind.
  { rewrite -Hl /=. wp_step. by iApply ("HQ" with "Hx"). }
  rewrite last_snoc -Hl length_app (proj2 (Z.eqb_neq _ _)); [|simpl; lia].
  iDestruct (big_sepL2_app_inv_r with "H1") as (P1 P ->) "[H1 Hn]".
  iDestruct (kids_length with "H1") as %HP. iDestruct (kids_length with "Hn") as %HPn.
  destruct P as [|pn []]; [done | | done]. iDestruct "Hn" as "[Hn _]". rewrite -app_assoc.
  iApply wp_bind. iApply (wp_node_child with "Hx"); [simpl; lia |]. iIntros "Hx".
  apply Forall_app in Hc as [_ [Hn _]%Forall_cons]. iApply (wp_rich with "Hn"); [done |]. iIntros "Hn".
  iApply ("HQ" with "Hx"). iApply (big_sepL2_app with "H1"). by iFrame.
Qed.

Lemma wp_rightRich x f q1 p q2 h Q :
  frame_ok f → Forall (bwf kMin (S h)) (fc2 f) → length q1 = length (fk1 f) →
  node_rep kMin x (fk1 f ++ fk2 f) (q1 ++ p :: q2) -∗ kids q2 (fc2 f) -∗
  (node_rep kMin x (fk1 f ++ fk2 f) (q1 ++ p :: q2) -∗ kids q2 (fc2 f) -∗ Q (rich (head (fc2 f)))) -∗
  wp (if Z.of_nat (length (fk1 f)) =? Z.of_nat (length (fk1 f ++ fk2 f)) then mret false
      else c ← aget (Some x) BT.children (Z.of_nat (length (fk1 f)) + 1);
           n ← c ~> BT.size_; mret (n >? kMinZ)) Q.
Proof.
  iIntros ([_ Hl] Hc Hq1) "Hx H2 HQ". rewrite length_app -Hl. destruct (fc2 f) as [|n C2].
  { rewrite Nat.add_0_r Z.eqb_refl. wp_step. by iApply ("HQ" with "Hx"). }
  rewrite (proj2 (Z.eqb_neq _ _)); [|simpl; lia].
  iDestruct (big_sepL2_cons_inv_r with "H2") as (pn P2 ->) "[Hn H2]".
  replace (q1 ++ p :: pn :: P2) with ((q1 ++ [p]) ++ pn :: P2) by by rewrite -app_assoc.
  iApply wp_bind. iApply (wp_node_child with "Hx"); [rewrite length_app /=; lia |]. iIntros "Hx".
  apply Forall_cons in Hc as [Hn _]. iApply (wp_rich with "Hn"); [done |]. iIntros "Hn".
  iApply ("HQ" with "Hx"). by iFrame.
Qed.

(** What is to be shown of a subtree that has been repaired. *)
Lemma repaired c h top t t' :
  ctx_wf kMin c (S h) top → sub_wf kMin c (S h) t' → belems t' = belems t →
  broot kMin top (bplug c t') ∧ belems (bplug c t') = bctx_l c ++ belems t ++ bctx_r c.
Proof.
  intros Hc Ht Hel. split; [by eapply ctx_wf_plug |]. rewrite -Hel. apply belems_plug. by eapply ctx_wf_ok.
Qed.

Lemma bctx_frame c f t :
  frame_ok f → bctx_l (f :: c) ++ belems t ++ bctx_r (f :: c) = bctx_l c ++ belems (bplug_frame f t) ++ bctx_r c.
Proof. intros Hf. by rewrite belems_plug_frame //= -!app_assoc. Qed.

Lemma broot_low h t : broot kMin h t → sub_low kMin [] h t.
Proof. destruct h; [done |]. apply (sub_wf_low kMin []). Qed.

(** The pair and the sibling next to a child. *)
Lemma frame_left f :
  frame_ok f → (fk1 f = [] ∧ fc1 f = []) ∨
  ∃ K e C n K2 C2, f = BFrame (K ++ [e]) (C ++ [n]) K2 C2 ∧ length C = length K.
Proof.
  destruct f as [K1 C1 K2 C2]. intros [Hl _]. simpl in *.
  destruct K1 as [|e K _] using rev_ind; [left; by destruct C1 |]. right.
  destruct C1 as [|n C _] using rev_ind; [by rewrite length_app /= Nat.add_comm in Hl |].
  rewrite !length_app /= in Hl. exists K, e, C, n, K2, C2. split; [done | lia].
Qed.
Lemma frame_right f :
  frame_ok f → (fk2 f = [] ∧ fc2 f = []) ∨
  ∃ K1 C1 e K n C, f = BFrame K1 C1 (e :: K) (n :: C).
Proof.
  destruct f as [K1 C1 K2 C2]. intros [_ Hl]. simpl in *.
  destruct K2 as [|e K], C2 as [|n C]; try done; [by left | right]. by exists K1, C1, e, K, n, C.
Qed.

Lemma wp_fixLeft {A} x K1 e C1 n K2 C2 q1 y q2 kr cr pr h c (r : A) Q :
  length C1 = length K1 → frame_wf kMin (BFrame (K1 ++ [e]) (C1 ++ [n]) K2 C2) (S h) (bool_decide (c = [])) →
  (kMin < nkeys n)%nat → S (length kr) = kMin → Forall (bwf kMin h) cr → length cr = S (length kr) →
  node_rep kMin x ((K1 ++ [e]) ++ K2) (q1 ++ Some y :: q2) -∗ kids q1 (C1 ++ [n]) -∗ kids q2 C2 -∗
  node_rep kMin y kr pr -∗ kids pr cr -∗
  (∀ t', ⌜sub_wf kMin c (S (S h)) t' ∧
       belems t' = belems (bplug_frame (BFrame (K1 ++ [e]) (C1 ++ [n]) K2 C2) (BN kr cr))⌝ →
     bt_at kMin (Some x) t' -∗ Q r) -∗
  wp (BT.TransferFromLeftToRight (Some x) (Z.of_nat (length (K1 ++ [e])) - 1);; mret r) Q.
Proof.
  iIntros (Hl Hf Hn Hkr Hcr Hlr) "Hx H1 H2 Hy Hk HQ". destruct (pair_wf_left _ _ _ _ _ _ _ _ _ Hl Hf) as [Hg Hbn].
  iDestruct (pair_at_left with "Hx H1 H2") as (pn) "[Hx Hn]"; [done |]. iApply wp_bind.
  iApply (wp_borrowLeft with "Hx Hn Hy Hk"); [rewrite length_app /=; lia | done..|].
  iIntros (t' [Ht' Hel]) "Ht". wp_step. iApply ("HQ" with "[%] Ht"). split; [done |].
  by rewrite Hel /bplug_frame /= -!app_assoc.
Qed.

Lemma wp_fixRight {A} x K1 e C1 n K2 C2 q1 y q2 kl cl pl h c (r : A) Q :
  frame_wf kMin (BFrame K1 C1 (e :: K2) (n :: C2)) (S h) (bool_decide (c = [])) →
  (kMin < nkeys n)%nat → S (length kl) = kMin → Forall (bwf kMin h) cl → length cl = S (length kl) →
  node_rep kMin x (K1 ++ e :: K2) (q1 ++ Some y :: q2) -∗ kids q1 C1 -∗ kids q2 (n :: C2) -∗
  node_rep kMin y kl pl -∗ kids pl cl -∗
  (∀ t', ⌜sub_wf kMin c (S (S h)) t' ∧
       belems t' = belems (bplug_frame (BFrame K1 C1 (e :: K2) (n :: C2)) (BN kl cl))⌝ →
     bt_at kMin (Some x) t' -∗ Q r) -∗
  wp (BT.TransferFromRightToLeft (Some x) (Z.of_nat (length K1));; mret r) Q.
Proof.
  iIntros (Hf Hn Hkr Hcr Hlr) "Hx H1 H2 Hy Hk HQ". destruct (pair_wf_right _ _ _ _ _ _ _ _ _ Hf) as [Hg Hbn].
  iDestruct (pair_at_right with "Hx H1 H2") as (pn) "[Hx Hn]"; [apply Hf |]. iApply wp_bind.
  iApply (wp_borrowRight with "Hx Hn Hy Hk"); [done..|].
  iIntros (t' [Ht' Hel]) "Ht". wp_step. by iApply ("HQ" with "[%] Ht").
Qed.

(** Neither sibling can give a key. *)
Lemma wp_fixMerge x f q1 y q2 kvs cs ptrs h c Q :
  frame_wf kMin f (S h) (bool_decide (c = [])) → rich (last (fc1 f)) = false → rich (head (fc2 f)) = false →
  S (length kvs) = kMin → Forall (bwf kMin h) cs → length cs = S (length kvs) →
  node_rep kMin x (fk1 f ++ fk2 f) (q1 ++ Some y :: q2) -∗ kids q1 (fc1 f) -∗ kids q2 (fc2 f) -∗
  node_rep kMin y kvs ptrs -∗ kids ptrs cs -∗
  (∀ ptrs' kvs' cs', ⌜sub_low kMin c (S (S h)) (BN kvs' cs') ∧
       belems (BN kvs' cs') = belems (bplug_frame f (BN kvs cs))⌝ →
     node_rep kMin x kvs' ptrs' -∗ kids ptrs' cs' -∗ Q ()) -∗
  wp (BT.MergeChildren kMinZ (Some x)
        (if Z.of_nat (length (fk1 f)) =? 0 then Z.of_nat (length (fk1 f)) else Z.of_nat (length (fk1 f)) - 1)) Q.
Proof.
  iIntros (Hf Hleft Hright Hkvs Hcs Hl) "Hx H1 H2 Hy Hk HQ". pose proof Hf as (Hok & _ & _ & _ & Hpos).
  destruct (frame_left f Hok) as [[Hk1 Hc1]|(K & e & C & n & K2 & C2 & -> & HlC)]; simpl in *.
  - destruct (frame_right f Hok) as [[Hk2 Hc2]|(K1 & C1 & e & K & n & C & ->)]; simpl in *.
    { rewrite Hk1 Hk2 /= in Hpos. case_bool_decide; lia. }
    subst. destruct (pair_wf_right _ _ _ _ _ _ _ _ _ Hf) as [Hg Hbn].
    iDestruct (pair_at_right with "Hx H1 H2") as (pn) "[Hx Hn]"; [done |].
    destruct n as [|kr cr]; [done |]. destruct Hbn as (? & Hlr & Hcr). apply bool_decide_eq_false in Hright. simpl in Hright.
    iEval (rewrite bt_at_BN) in "Hn". iDestruct "Hn" as (r pr ->) "[Hr Hkr]".
    iApply (wp_merge with "Hx Hy Hk Hr Hkr"); [done | done | lia | done..|].
    iIntros (ptrs' kvs' cs' [Hlow Hel]) "Hx Hk". by iApply ("HQ" with "[%] Hx Hk").
  - rewrite (proj2 (Z.eqb_neq _ _)); [|rewrite length_app /=; lia].
    destruct (pair_wf_left _ _ _ _ _ _ _ _ _ HlC Hf) as [Hg Hbn]. rewrite last_snoc in Hleft.
    iDestruct (pair_at_left with "Hx H1 H2") as (pn) "[Hx Hn]"; [done |].
    destruct n as [|kl cl]; [done |]. destruct Hbn as (? & Hll & Hcl). apply bool_decide_eq_false in Hleft. simpl in Hleft.
    iEval (rewrite bt_at_BN) in "Hn". iDestruct "Hn" as (l pl ->) "[Hl Hkl]".
    iApply (wp_merge with "Hx Hl Hkl Hy Hk"); [rewrite length_app /=; lia | done | lia | done..|].
    iIntros (ptrs' kvs' cs' [Hlow Hel]) "Hx Hk". iApply ("HQ" with "[%] Hx Hk"). split; [done |].
    by rewrite Hel /bplug_frame /= -!app_assoc.
Qed.

Lemma wp_fixUp c h top y kvs cs ptrs rp Q :
  ctx_wf kMin c.*2 (S h) top → sub_low kMin c.*2 (S h) (BN kvs cs) →
  bpath_at kMin c (Some y) rp -∗ node_rep kMin y kvs ptrs -∗ kids ptrs cs -∗
  (∀ (b : bool) t', ⌜(if b then broot kMin top t' else sub_low kMin [] top t') ∧
       belems t' = bctx_l c.*2 ++ belems (BN kvs cs) ++ bctx_r c.*2⌝ → bt_at kMin rp t' -∗ Q b) -∗
  wp (BT.fixUp kMinZ (Some y) (steps c)) Q.
Proof.
  iIntros (Hc Hlow) "Hc Hy Hk HQ". iInduction c as [|[x f] c IH] forall (h y kvs cs ptrs Hc Hlow).
  { iDestruct "Hc" as %->. simpl in Hc. subst top. simpl. wp_step.
    iApply ("HQ" $! false (BN kvs cs) with "[%]"); [by rewrite app_nil_r | rewrite bt_at_BN; by iFrame]. }
  rewrite fmap_cons in Hc, Hlow |- *. destruct Hc as [Hf Hc]. simpl in Hf. pose proof Hf as (Hok & Hf1 & Hf2 & _).
  pose proof Hlow as (Hle & Hl & Hcs & [?|Hge]); [done |]. rewrite bctx_frame //.
  iDestruct "Hc" as (q1 q2) "(Hx & H1 & H2 & Hc)". iDestruct (kids_length with "H1") as %Hq1. simpl.
  iApply wp_bind. iApply (wp_node_size with "Hy"). iIntros "Hy". rewrite Z.geb_leb.
  destruct (Z.leb_spec kMinZ (Z.of_nat (length kvs))) as [Hfull|Hshort].
  { wp_step. apply sub_low_wf in Hlow; [|done | lia].
    destruct (repaired c.*2 (S h) top (bplug_frame f (BN kvs cs)) (bplug_frame f (BN kvs cs))) as [Hr Hel];
      [done | by apply frame_wf_sub | done |].
    iApply ("HQ" $! false with "[%]"); [split; [by apply broot_low | done] |].
    iApply (bplug_at with "Hc"). iApply (bframe_at with "Hx H1 H2"). rewrite bt_at_BN. by iFrame. }
  iApply wp_bind. iApply (wp_node_size with "Hy"). iIntros "Hy".
  iApply wp_bind. iApply wp_assert; [apply Z.eqb_eq; lia |]. assert (S (length kvs) = kMin) as Hkvs by lia.
  iApply wp_bind. iApply (wp_leftRich with "Hx H1"); [done..|]. iIntros "Hx H1".
  destruct (rich (last (fc1 f))) eqn:Hleft.
  { destruct (frame_left f Hok) as [[_ Hc1]|(K & e & C & n & K2 & C2 & -> & HlC)]; [by rewrite Hc1 in Hleft |]. simpl. rewrite /= last_snoc in Hleft.
    apply bool_decide_eq_true in Hleft. iApply (wp_fixLeft with "Hx H1 H2 Hy Hk"); [done..|].
    iIntros (t' [Ht' Hel]) "Ht". iApply ("HQ" $! true with "[%]"); [by eapply repaired | iApply (bplug_at with "Hc Ht")]. }
  iApply wp_bind. iApply (wp_node_size with "Hx"). iIntros "Hx".
  iApply wp_bind. iApply (wp_rightRich with "Hx H2"); [done | done | destruct Hok; congruence |]. iIntros "Hx H2".
  destruct (rich (head (fc2 f))) eqn:Hright.
  { destruct (frame_right f Hok) as [[_ Hc2]|(K1 & C1 & e & K & n & C & ->)]; [by rewrite Hc2 in Hright |]. simpl in *.
    apply bool_decide_eq_true in Hright. iApply (wp_fixRight with "Hx H1 H2 Hy Hk"); [done..|].
    iIntros (t' [Ht' Hel]) "Ht". iApply ("HQ" $! true with "[%]"); [by eapply repaired | iApply (bplug_at with "Hc Ht")]. }
  iApply wp_bind. iApply (wp_fixMerge with "Hx H1 H2 Hy Hk"); [done..|].
  iIntros (ptrs' kvs' cs' [Hlow' Hel]) "Hx Hk". iApply ("IH" with "[//] [//] Hc Hx Hk"). by rewrite Hel.
Qed.

(** An empty root is replaced by its only child. *)
Lemma wp_shrinkRoot s nv rp top t Q :
  sub_low kMin [] top t →
  s ↦ BTree nv rp -∗ bt_at kMin rp t -∗
  (∀ top' t' rp', ⌜broot kMin top' t' ∧ belems t' = belems t⌝ →
     s ↦ BTree nv rp' -∗ bt_at kMin rp' t' -∗ Q ()) -∗
  wp (BT.shrinkRoot (Some s)) Q.
Proof.
  iIntros (Hlow) "Hs Ht HQ". destruct top as [|h], t as [|kvs cs]; try done. destruct Hlow as (Hle & Hl & Hcs & _).
  iEval (rewrite bt_at_BN) in "Ht". iDestruct "Ht" as (x ptrs ->) "[Hx Hk]".
  destruct cs as [|ct cs]; [done |]. iDestruct (big_sepL2_cons_inv_r with "Hk") as (q ptrs' ->) "[Hq Hk]".
  pose proof Hcs as [Hct _]%Forall_cons. iDestruct (bt_at_null with "Hq") as %Hq; [by eapply bwf_shape |].
  rewrite /BT.shrinkRoot /when. wp_step. iApply wp_bind. iApply (wp_node_child _ _ _ [] with "Hx"); [done |]. iIntros "Hx".
  wp_step. iApply wp_bind. iApply (wp_node_size with "Hx"). iIntros "Hx".
  destruct (decide (kvs = [] ∧ h ≠ 0%nat)) as [[-> Hh]|Hkeep].
  - rewrite (bool_decide_false (q = NULL)) /=; [|by intros ?%Hq]. iDestruct "Hx" as (ks vs ch _) "Hx". do 3 wp_step.
    destruct cs; [|done]. iDestruct (big_sepL2_nil_inv_r with "Hk") as %->.
    destruct h as [|h]; [done |]. iApply ("HQ" $! (S h) ct with "[%] Hs Hq"). split; [|done].
    destruct ct as [|kvs cs]; [done |]. destruct Hct as (? & ? & ?). split_and!; try done; [lia | right; lia].
  - assert ((Z.of_nat (length kvs) =? 0) && (q != NULL) = false) as ->.
    { destruct kvs; [|done]. rewrite (bool_decide_true (q = NULL)) //. apply Hq. destruct h; [done |]. by destruct Hkeep. }
    simpl. wp_step. iApply ("HQ" $! (S h) (BN kvs (ct :: cs)) with "[%] Hs").
    + split; [|done]. split_and!; try done. destruct h; [by left |]. right. destruct kvs; [by destruct Hkeep | simpl; lia].
    + rewrite bt_at_BN. iExists x, (q :: ptrs'). by iFrame.
Qed.

Lemma wp_bt_Delete s nv rp top t k Q :
  broot kMin top t → ordered (belems t) → (top ≤ 16)%nat →
  s ↦ BTree nv rp -∗ bt_at kMin rp t -∗
  ((∀ l1 l2, ⌜belems t = l1 ++ l2 ∧ keys_below l1 k ∧ keys_above l2 k⌝ →
      s ↦ BTree nv rp -∗ bt_at kMin rp t -∗ Q nv) ∧
   (∀ l1 b l2 top' t' rp', ⌜belems t = l1 ++ (k, b) :: l2 ∧ broot kMin top' t' ∧ belems t' = l1 ++ l2⌝ →
      s ↦ BTree nv rp' -∗ bt_at kMin rp' t' -∗ Q b)) -∗
  wp (BT.Delete kMinZ (Some s) k) Q.
Proof.
  iIntros (Hr Ho Htop) "Hs Ht HQ". rewrite /BT.Delete. wp_step. iApply wp_bind. iApply (wp_loop top). iSplit.
  { iApply (bt_at_height with "Ht"). by eapply broot_shape. }
  iIntros (fuel Hf). iApply (wp_DeleteSearchLoop fuel k [] top top rp rp t with "[//] Ht"); [|done..|].
  { split_and!; [done | done | done | constructor | constructor]. }
  iSplit.
  { iIntros (pth l1 l2 Hl) "Ht". iDestruct "HQ" as "[HQ _]". wp_step. by iApply ("HQ" with "[%] Hs Ht"). }
  iIntros (c h x k1 b k2 cs ptrs [Hs Hpl]) "Hc Hx Hk". simpl in Hpl. subst t. iDestruct "HQ" as "[_ HQ]".
  iApply wp_bind. iApply (wp_node_value with "Hx"); [done |]. iIntros "Hx".
  iApply wp_bind. iApply (wp_removeKey with "Hc Hx Hk"); [done..|].
  iIntros (c' z kvs cs' ptrs' i (Hc' & Hlow & l1 & l2 & Hel & Hel')) "Hc Hz Hk".
  iApply wp_bind. iApply (wp_node_size with "Hz"). iIntros "Hz". rewrite Z.geb_leb.
  destruct (Z.leb_spec kMinZ (Z.of_nat (length kvs))) as [Hfull|Hshort].
  { wp_step. apply sub_low_wf in Hlow; [|done | lia].
    destruct (repaired c'.*2 0 top (BN kvs cs') (BN kvs cs')) as [Hr' Hel2]; [done..|].
    iApply ("HQ" $! l1 b l2 top (bplug c'.*2 (BN kvs cs')) with "[%] Hs"); [by rewrite Hel2 Hel' |]. iApply (bplug_at with "Hc"). rewrite bt_at_BN. by iFrame. }
  iApply wp_bind. iApply (wp_fixUp with "Hc Hz Hk"); [done..|]. rewrite Hel'. iIntros ([] t' [Ht' Hel2]) "Ht".
  - wp_step. by iApply ("HQ" with "[%] Hs Ht").
  - iApply wp_bind. iApply (wp_shrinkRoot with "Hs Ht"); [done |]. iIntros (top' t1 rp' [Ht1 Hel3]) "Hs Ht". wp_step.
    iApply ("HQ" $! l1 b l2 top' t1 with "[%] Hs Ht"). by rewrite Hel3 Hel2.
Qed.
End delete.
