(* ===== verification/BTreeSet.v ===== *)
(** * BTreeSet: the operations of the B-tree on dictionaries *)
From S2P Require Import Prelude Memory SepLogic Arrays OrderedSet BinTree GsatMap.
From S2P Require Import BTreeModel BTreeSpec BTreeProof BTreeInsert BTreeDelete.
#[local] Open Scope Z_scope.
#[local] Open Scope cpp_scope.

(** ** Heights *)

Lemma weave_length n kvs ess :
  length ess = S (length kvs) → Forall (λ e : list kv, (n ≤ S (length e))%nat) ess →
  (S (length kvs) * n ≤ S (length (weave kvs ess)))%nat.
Proof.
  intros Hl He. revert kvs Hl. induction He as [|e ess He Hes IH]; intros kvs Hl; [done |].
  destruct kvs as [|x kvs]; simpl in *; [lia |]. rewrite length_app /=. specialize (IH kvs). lia.
Qed.

Section set.
Context (kMin : nat) (HkMin : (0 < kMin)%nat).
Abbreviation kMinZ := (Z.of_nat kMin).
Abbreviation kids ptrs cs := ([∗ list] q;c ∈ ptrs;cs, bt_at kMin q c)%I.

Lemma bwf_size h t : bwf kMin h t → (S kMin ^ h ≤ S (length (belems t)))%nat.
Proof.
  revert t. induction h as [|h IH]; intros [|kvs cs]; try done.
  intros (Hk & Hl & Hcs). rewrite Nat.pow_succ_r'. etransitivity; [|apply (weave_length (S kMin ^ h))].
  - apply Nat.mul_le_mono_r. lia.
  - by rewrite length_map.
  - apply Forall_map. eapply Forall_impl; [exact Hcs | exact IH].
Qed.

Lemma broot_size h t : broot kMin (S h) t → h = 0%nat ∨ (2 * S kMin ^ h ≤ S (length (belems t)))%nat.
Proof.
  destruct t as [|kvs cs]; [done |]. intros (_ & Hl & Hcs & [->|Hpos]); [by left | right].
  etransitivity; [|apply (weave_length (S kMin ^ h))].
  - apply Nat.mul_le_mono_r. lia.
  - by rewrite length_map.
  - apply Forall_map. eapply Forall_impl; [exact Hcs |]. intros t. apply bwf_size.
Qed.

(** So many pairs do not need more than [kMaxDepth] levels. *)
Definition bt_fits (m : gmap Z Z) : Prop := Z.of_nat (size m) < 2 * (kMinZ + 1) ^ BT.kMaxDepth - 1.

Lemma bt_fits_height m h t :
  bt_fits m → broot kMin h t → dict_is m (belems t) → (h ≤ 16)%nat.
Proof.
  intros Hm Hr [Ho <-]. rewrite /bt_fits to_map_size // /BT.kMaxDepth in Hm. destruct h as [|h]; [lia |].
  destruct (broot_size h t Hr) as [->|Hsz]; [lia |]. destruct (decide (h < 16)%nat) as [|Hge]; [lia | exfalso].
  assert (S kMin ^ 16 ≤ S kMin ^ h)%nat as Hpow by (apply Nat.pow_le_mono_r; lia).
  apply Nat2Z.inj_le in Hpow. rewrite Nat2Z.inj_pow Nat2Z.inj_succ in Hpow.
  change (Z.of_nat 16) with 16 in Hpow. lia.
Qed.

(** ** The object *)

Definition btree_at (s : loc) (nv : Z) (t : btr) : hprop := (∃ rp, s ↦ BTree nv rp ∗ bt_at kMin rp t)%I.
Definition bt_set (s : loc) (nv : Z) (m : gmap Z Z) : hprop :=
  (∃ h t, <affine> ⌜broot kMin h t ∧ dict_is m (belems t)⌝ ∗ btree_at s nv t)%I.

Lemma wp_bts_new nv Q : (∀ s, bt_set s nv ∅ -∗ Q (Some s)) ⊢ wp (BT.newTree kMinZ nv) Q.
Proof.
  iIntros "HQ". rewrite /BT.newTree. iApply wp_bind. iApply (wp_newNode kMin HkMin). iIntros (x) "Hx".
  iApply wp_bind. iApply wp_new. iIntros (s) "Hs". iApply wp_bind.
  iApply (wp_InitializeDefault kMin HkMin with "Hx"); [by rewrite length_replicate |]. iIntros "Hx". wp_step.
  iApply "HQ". iExists 1%nat, (BN [] [BNil]). iSplit.
  { iPureIntro. split; [|by split; [constructor |]].
    split_and!; [simpl; lia | done | by repeat constructor | by left]. }
  iExists (Some x). iFrame "Hs". rewrite bt_at_BN. iExists x, [NULL]. iSplit; [done |]. iSplitL; [|by rewrite /= bt_at_BNil; iSplit].
  iExists _, _, (replicate (2 * kMin) NULL). iFrame "Hx". iPureIntro. by rewrite !length_replicate.
Qed.

Lemma wp_bts_find s nv m k Q :
  bt_set s nv m -∗ (bt_set s nv m -∗ Q (value_or nv m k)) -∗ wp (BT.Find (Some s) k) Q.
Proof.
  iIntros "(%h & %t & [%Hr %Hd] & %rp & Hs & Ht) HQ". rewrite /BT.Find. wp_step. iApply (wp_loop h). iSplit.
  { iApply (bt_at_height with "Ht"). by eapply broot_shape. }
  iIntros (fuel Hf). iApply (wp_bt_FindLoop with "Hs Ht"); [done | by eapply broot_shape | apply Hd |].
  iIntros "Hs Ht". rewrite /value_or -(proj2 Hd). iApply "HQ". iExists h, t. rewrite (proj2 Hd). iFrame. done.
Qed.

Lemma wp_bts_insert s nv m k v Q :
  bt_fits m →
  bt_set s nv m -∗ (bt_set s nv (dict_insert k v m) -∗ Q (value_or nv m k)) -∗
  wp (BT.Insert kMinZ (Some s) k v) Q.
Proof.
  iIntros (Hm) "(%top & %t & [%Hr %Hd] & %rp & Hs & Ht) HQ". rewrite /BT.Insert. wp_step. iApply wp_bind.
  iApply (wp_loop top). iSplit. { iApply (bt_at_height with "Ht"). by eapply broot_shape. }
  pose proof (bt_fits_height m top t Hm Hr Hd) as Htop. destruct top as [|h]; [by destruct t |].
  iIntros (fuel Hf). iApply (wp_InsertSearchLoop kMin HkMin fuel k [] h (S h) rp rp t with "[//] Ht"); [|lia | done |].
  { split_and!; [done | done | apply Hd | constructor | constructor]. }
  iSplit.
  - iIntros (b l1 l2 Hel) "Ht". wp_step. simpl in Hel. rewrite Hel in Hd.
    pose proof (dict_is_found m l1 k b l2 Hd) as Hk. rewrite /value_or /dict_insert Hk. iApply "HQ".
    iExists (S h), t. rewrite Hel. iFrame. done.
  - iIntros (c [Hs Hpl]) "Hc". simpl in Hpl. destruct Hs as (Hc & _ & _ & Hb & Ha).
    rewrite Hpl belems_plug in Hd; [|by eapply ctx_wf_ok]. simpl in Hd.
    pose proof (dict_is_absent _ _ _ _ Hd Hb Ha) as Hk. iApply wp_bind.
    iApply (wp_insertUp kMin HkMin s nv rp c 0 (S h) BNil BNil with "Hs Hc"); [done | done | done | | done | done |].
    { pose proof (ctx_wf_length _ _ _ _ Hc) as Hl. rewrite length_fmap in Hl. lia. }
    iIntros (top' t' rp' [Hr' Hel]) "Hs Ht". wp_step. rewrite /value_or Hk /=. iApply "HQ".
    iExists top', t'. iSplit; [|iExists rp'; iFrame]. iPureIntro. split; [done |]. rewrite Hel.
    by apply dict_is_insert.
Qed.

Lemma wp_bts_delete s nv m k Q :
  bt_fits m →
  bt_set s nv m -∗ (bt_set s nv (delete k m) -∗ Q (value_or nv m k)) -∗
  wp (BT.Delete kMinZ (Some s) k) Q.
Proof.
  iIntros (Hm) "(%top & %t & [%Hr %Hd] & %rp & Hs & Ht) HQ".
  pose proof (bt_fits_height m top t Hm Hr Hd) as Htop.
  iApply (wp_bt_Delete kMin HkMin with "Hs Ht"); [done | apply Hd | done |]. iSplit.
  - iIntros (l1 l2 (Hel & Hb & Ha)) "Hs Ht". pose proof Hd as Hd'. rewrite Hel in Hd'.
    pose proof (dict_is_absent _ _ _ _ Hd' Hb Ha) as Hk. rewrite /value_or Hk delete_id //. iApply "HQ".
    iExists top, t. iSplit; [done |]. iExists rp. iFrame.
  - iIntros (l1 b l2 top' t' rp' (Hel & Hr' & Hel')) "Hs Ht". rewrite Hel in Hd.
    pose proof (dict_is_found _ _ _ _ _ Hd) as Hk. rewrite /value_or Hk. iApply "HQ".
    iExists top', t'. iSplit; [|iExists rp'; iFrame]. iPureIntro. split; [done |]. rewrite Hel'.
    by eapply dict_is_delete.
Qed.

(** ** The destructor *)

Lemma wp_bt_Free h t p fuel Q :
  (h < fuel)%nat → bshape h t → bt_at kMin p t -∗ Q () -∗ wp (BT.Free fuel p) Q.
Proof.
  iIntros (Hf Hs) "Ht HQ". iInduction h as [|h IH] forall (fuel Hf t Hs p Q);
    (destruct fuel as [|fuel]; [lia |]); simpl.
  { rewrite (bshape_leaf t Hs) bt_at_BNil. iDestruct "Ht" as %->. simpl. by wp_step. }
  destruct t as [|kvs cs]; [done |]. destruct Hs as [Hl Hcs]. iEval (rewrite bt_at_BN) in "Ht".
  iDestruct "Ht" as (x ptrs ->) "[Hx Hk]". rewrite (bool_decide_false (Some x = NULL)) //.
  iDestruct (kids_length with "Hk") as %Hlen. iDestruct "Hx" as (ks vs ch _) "Hx". wp_step.
  iApply wp_bind. replace (Z.to_nat _) with (length ptrs) by lia.
  iApply (wp_forChildren (bt_at kMin) _ _ _ _ [] ptrs with "[] Hx Hk"); [done | done | |].
  - iIntros "!>" (q t Q' Hin) "Ht HQ'". iApply ("IH" with "[%] [%] Ht HQ'"); [lia |].
    by eapply Forall_forall in Hcs.
  - iIntros "Hx". by wp_step.
Qed.

Lemma wp_bts_delete_tree s nv m Q : bt_set s nv m -∗ Q () -∗ wp (BT.deleteTree (Some s)) Q.
Proof.
  iIntros "(%h & %t & [%Hr _] & %rp & Hs & Ht) HQ". rewrite /BT.deleteTree. iApply wp_bind.
  iApply (wp_with_fuel h). iSplit. { iApply (bt_at_height with "Ht"). by eapply broot_shape. }
  iIntros (fuel Hf). wp_step. iApply (wp_bt_Free with "Ht"); [done | by eapply broot_shape |]. by wp_step.
Qed.

(** ** Validate *)

Definition good_values (nv : Z) (es : list kv) : Prop := Forall (λ e, e.2 ≠ nv) es.
#[local] Instance good_values_dec nv es : Decision (good_values nv es).
Proof. apply _. Defined.

Definition opt_lt (lo hi : option Z) : Prop :=
  match lo, hi with Some a, Some b => a < b | _, _ => True end.
(** What [Validate] checks of the keys of a subtree. *)
Definition fits_between (lo hi : option Z) (es : list kv) : Prop :=
  ordered es ∧ Forall (λ e, bounded lo hi e.1) es ∧ opt_lt lo hi.

Lemma fits_between_split lo hi es a b w :
  fits_between lo hi (es ++ (a, b) :: w) → fits_between lo (Some a) es ∧ fits_between (Some a) hi w.
Proof.
  intros (Ho & [He [Hab Hw]%Forall_cons]%Forall_app & _).
  pose proof (proj1 (ordered_middle _ _ _) Ho) as (_ & Hb & Ha). apply ordered_split in Ho as [Hoe How].
  apply ordered_cons in How as [How _]. destruct Hab as [Hlo Hhi]. simpl in *.
  split; (split_and!; [done | |]).
  - apply Forall_forall. intros e Hin.
    split; [by apply (proj1 (Forall_forall _ _) He) | by apply (proj1 (Forall_forall _ _) Hb)].
  - by destruct lo.
  - apply Forall_forall. intros e Hin.
    split; [by apply (proj1 (Forall_forall _ _) Ha) | by apply (proj1 (Forall_forall _ _) Hw)].
  - by destruct hi.
Qed.

Definition last_key (lo : option Z) (k1 : list kv) : option Z :=
  match last k1 with Some e => Some e.1 | None => lo end.
Definition head_key (hi : option Z) (k2 : list kv) : option Z :=
  match head k2 with Some e => Some e.1 | None => hi end.

Lemma wp_lastKey x k1 k2 ptrs lo Q :
  node_rep kMin x (k1 ++ k2) ptrs -∗ (node_rep kMin x (k1 ++ k2) ptrs -∗ Q (last_key lo k1)) -∗
  wp (if Z.of_nat (length k1) =? 0 then mret lo
      else k ← aget (Some x) BT.keys (Z.of_nat (length k1) - 1); mret (Some k)) Q.
Proof.
  iIntros "Hx HQ". destruct k1 as [|[a b] k1 _] using rev_ind; [simpl; wp_step; by iApply "HQ" |].
  rewrite /last_key last_snoc length_app (proj2 (Z.eqb_neq _ _)); [|simpl; lia]. rewrite -app_assoc.
  iApply wp_bind. iApply (wp_node_key with "Hx"); [simpl; lia |]. iIntros "Hx". wp_step. by iApply "HQ".
Qed.

Lemma wp_headKey x k1 k2 ptrs hi Q :
  node_rep kMin x (k1 ++ k2) ptrs -∗ (node_rep kMin x (k1 ++ k2) ptrs -∗ Q (head_key hi k2)) -∗
  wp (if Z.of_nat (length k1) =? Z.of_nat (length (k1 ++ k2)) then mret hi
      else k ← aget (Some x) BT.keys (Z.of_nat (length k1)); mret (Some k)) Q.
Proof.
  iIntros "Hx HQ". destruct k2 as [|[a b] k2].
  { rewrite app_nil_r Z.eqb_refl. wp_step. by iApply "HQ". }
  rewrite length_app (proj2 (Z.eqb_neq _ _)); [|simpl; lia].
  iApply wp_bind. iApply (wp_node_key with "Hx"); [done |]. iIntros "Hx". wp_step. by iApply "HQ".
Qed.

Lemma wp_checkAt nv x k1 k2 ptrs lo hi Q :
  opt_lt lo hi →
  node_rep kMin x (k1 ++ k2) ptrs -∗
  (node_rep kMin x (k1 ++ k2) ptrs -∗ Q (match head k2 with Some e => negb (e.2 =? nv) | None => true end)) -∗
  wp (BT.checkAt nv (Some x) (Z.of_nat (length k1)) (Z.of_nat (length (k1 ++ k2))) lo hi) Q.
Proof.
  iIntros (Hlt) "Hx HQ". rewrite /BT.checkAt.
  assert (match lo, hi with Some a, Some b => mret (a <? b) | _, _ => mret true end = (mret true : M bool)) as ->.
  { destruct lo, hi; try done. simpl in Hlt. by rewrite (proj2 (Z.ltb_lt _ _)). }
  wp_step. destruct k2 as [|[a b] k2]; rewrite length_app.
  - rewrite Nat.add_0_r Z.ltb_irrefl. wp_step. by iApply "HQ".
  - rewrite (proj2 (Z.ltb_lt _ _)); [|simpl; lia]. iApply wp_bind.
    iApply (wp_node_value with "Hx"); [done |]. iIntros "Hx". wp_step. by iApply "HQ".
Qed.

(** What a (recursive) call of [Validate] promises. *)
Definition validates (s : loc) (nv : Z) (rp : ptr) (validate : ptr → option Z → option Z → M bool) (t : btr) : hprop :=
  (∀ q lo hi Q, ⌜fits_between lo hi (belems t)⌝ → s ↦ BTree nv rp -∗ bt_at kMin q t -∗
     (s ↦ BTree nv rp -∗ bt_at kMin q t -∗ Q (bool_decide (good_values nv (belems t)))) -∗
     wp (validate q lo hi) Q)%I.

Lemma wp_validateAt s nv rp validate x k1 k2 q1 q2 cs lo hi Q :
  length q1 = length k1 → length cs = S (length k2) →
  fits_between (last_key lo k1) hi (weave k2 (map belems cs)) →
  □ (∀ t, ⌜t ∈ cs⌝ → validates s nv rp validate t) -∗
  s ↦ BTree nv rp -∗ node_rep kMin x (k1 ++ k2) (q1 ++ q2) -∗ kids q2 cs -∗
  (s ↦ BTree nv rp -∗ node_rep kMin x (k1 ++ k2) (q1 ++ q2) -∗ kids q2 cs -∗
     Q (bool_decide (good_values nv (weave k2 (map belems cs))))) -∗
  wp (BT.validateAt validate (Some s) (Some x) (Z.of_nat (length (k1 ++ k2))) lo hi (length q2)
        (Z.of_nat (length k1))) Q.
Proof.
  iIntros (Hq1 Hl Hfit) "#Hrec Hs Hx Hk HQ".
  iInduction cs as [|t cs IH] forall (k1 k2 q1 q2 Hq1 Hl Hfit) "Hrec"; [done |].
  iDestruct (big_sepL2_cons_inv_r with "Hk") as (q q2' ->) "[Ht Hk]". simpl.
  iApply wp_bind. iApply (wp_lastKey with "Hx"). iIntros "Hx".
  iApply wp_bind. iApply (wp_headKey with "Hx"). iIntros "Hx". wp_step.
  assert (fits_between (last_key lo k1) (head_key hi k2) (belems t)) as Hfit1.
  { destruct k2 as [|[a b] k2], cs as [|t' cs]; try done. by apply fits_between_split in Hfit as [? _]. }
  iApply wp_bind. iApply (wp_checkAt with "Hx"); [apply Hfit1 |]. iIntros "Hx".
  iDestruct ("Hrec" $! t with "[%]") as "Ht'"; [by left |].
  destruct k2 as [|[a b] k2], cs as [|t' cs]; try done.
  - simpl. iApply wp_bind. iApply (wp_node_child with "Hx"); [by rewrite Hq1 |]. iIntros "Hx".
    iApply wp_bind. iApply ("Ht'" with "[//] Hs Ht"). iIntros "Hs Ht".
    iDestruct (big_sepL2_nil_inv_r with "Hk") as %->.
    iSpecialize ("HQ" with "Hs Hx [Ht]"); [by iFrame |].
    destruct (bool_decide (good_values nv (belems t))); simpl; by wp_step.
  - cbn [head snd]. destruct (Z.eqb_spec b nv) as [->|Hb].
    { simpl. wp_step. iSpecialize ("HQ" with "Hs Hx [Ht Hk]"); [by iFrame |].
      rewrite (bool_decide_false (good_values _ _)) //. intros [_ [? _]%Forall_cons]%Forall_app. done. }
    iApply wp_bind. iApply (wp_node_child with "Hx"); [by rewrite Hq1 |]. iIntros "Hx".
    iApply wp_bind. iApply ("Ht'" with "[//] Hs Ht"). iIntros "Hs Ht".
    destruct (bool_decide_reflect (good_values nv (belems t))) as [Hgood|Hbad]; simpl; last first.
    { wp_step. iSpecialize ("HQ" with "Hs Hx [Ht Hk]"); [by iFrame |].
      rewrite (bool_decide_false (good_values _ _)) //. by intros [? _]%Forall_app. }
    replace (Z.of_nat (length k1) + 1) with (Z.of_nat (length (k1 ++ [(a, b)]))) by (rewrite length_app /=; lia).
    replace (k1 ++ (a, b) :: k2) with ((k1 ++ [(a, b)]) ++ k2) by by rewrite -app_assoc.
    replace (q1 ++ q :: q2') with ((q1 ++ [q]) ++ q2') by by rewrite -app_assoc.
    iApply ("IH" with "[%] [%] [%] Hs Hx Hk [HQ Ht] []").
    + rewrite !length_app. simpl. lia.
    + simpl in *. lia.
    + rewrite /last_key last_snoc. by apply fits_between_split in Hfit as [_ ?].
    + iIntros "Hs Hx Hk". iSpecialize ("HQ" with "Hs Hx [Ht Hk]"); [by iFrame |].
      erewrite bool_decide_ext; [done |]. rewrite /good_values Forall_app Forall_cons. simpl. tauto.
    + iIntros "!>" (t0 Hin). iApply "Hrec". iPureIntro. by right.
Qed.

Lemma wp_ValidateStep s nv rp fuel x kvs cs lo hi Q :
  (length kvs ≤ 2 * kMin)%nat → length cs = S (length kvs) → Some x = rp ∨ (kMin ≤ length kvs)%nat →
  fits_between lo hi (belems (BN kvs cs)) →
  □ (∀ t, ⌜t ∈ cs⌝ → validates s nv rp (BT.ValidateNode kMinZ fuel (Some s)) t) -∗
  s ↦ BTree nv rp -∗ bt_at kMin (Some x) (BN kvs cs) -∗
  (s ↦ BTree nv rp -∗ bt_at kMin (Some x) (BN kvs cs) -∗
     Q (bool_decide (good_values nv (belems (BN kvs cs))))) -∗
  wp (BT.ValidateNode kMinZ (S fuel) (Some s) (Some x) lo hi) Q.
Proof.
  iIntros (Hle Hl Hmin Hfit) "#Hrec Hs Ht HQ". simpl. iEval (rewrite bt_at_BN) in "Ht".
  iDestruct "Ht" as (x' ptrs [= <-]) "[Hx Hk]". iDestruct (kids_length with "Hk") as %Hlen.
  wp_step. iApply wp_bind. iApply (wp_node_size with "Hx"). iIntros "Hx".
  assert (bool_decide (Some x = rp) || (kMinZ <=? Z.of_nat (length kvs)) = true) as ->.
  { destruct Hmin as [?|?]; [by rewrite bool_decide_true | rewrite (proj2 (Z.leb_le _ _)); [by rewrite orb_true_r | lia]]. }
  rewrite /BT.kMaxKeys (proj2 (Z.leb_le _ (2 * kMinZ))); [|lia]. simpl.
  replace (Z.to_nat _) with (length ptrs) by lia.
  iApply (wp_validateAt s nv rp _ x [] kvs [] ptrs cs lo hi with "Hrec Hs Hx Hk"); [done..|].
  iIntros "Hs Hx Hk". iApply ("HQ" with "Hs"). rewrite bt_at_BN. by iFrame.
Qed.

Lemma bwf_validates s nv rp h fuel t :
  (h < fuel)%nat → bwf kMin h t → ⊢ validates s nv rp (BT.ValidateNode kMinZ fuel (Some s)) t.
Proof.
  revert fuel t. induction h as [|h IH]; intros fuel t Hf Ht; iIntros (q lo hi Q Hfit) "Hs Ht HQ";
    (destruct fuel as [|fuel]; [lia |]).
  - rewrite (bshape_leaf t (bwf_shape _ _ _ Ht)) bt_at_BNil. iDestruct "Ht" as %->. simpl. wp_step.
    by iApply ("HQ" with "Hs").
  - destruct t as [|kvs cs]; [done |]. destruct Ht as (Hsz & Hl & Hcs).
    iAssert (⌜∃ x, q = Some x⌝)%I as %[x ->].
    { iEval (rewrite bt_at_BN) in "Ht". iDestruct "Ht" as (x ptrs ->) "_". iPureIntro. by exists x. }
    iApply (wp_ValidateStep with "[] Hs Ht HQ"); [lia | done | right; lia | done |].
    iIntros "!>" (t Hin). iApply IH; [lia |]. by eapply Forall_forall in Hcs.
Qed.

Lemma wp_bt_Validate s nv h t Q :
  broot kMin h t → ordered (belems t) →
  btree_at s nv t -∗ (btree_at s nv t -∗ Q (bool_decide (good_values nv (belems t)))) -∗
  wp (BT.Validate kMinZ (Some s)) Q.
Proof.
  iIntros (Hr Ho) "(%rp & Hs & Ht) HQ". rewrite /BT.Validate. iApply (wp_with_fuel h). iSplit.
  { iApply (bt_at_height with "Ht"). by eapply broot_shape. }
  iIntros (fuel Hf). destruct h as [|h], t as [|kvs cs]; try done. destruct Hr as (Hle & Hl & Hcs & _).
  destruct fuel as [|fuel]; [lia |]. iApply wp_bind. iApply (wp_get with "Hs"). iIntros "Hs". cbn [fget BT.root_ btt_root].
  iAssert (⌜∃ x, rp = Some x⌝)%I as %[x ->].
  { iEval (rewrite bt_at_BN) in "Ht". iDestruct "Ht" as (x ptrs ->) "_". iPureIntro. by exists x. }
  iApply (wp_ValidateStep with "[] Hs Ht"); [done | done | by left | | |].
  - split_and!; [done | by apply Forall_true | done].
  - iIntros "!>" (t Hin). iApply (bwf_validates _ _ _ h); [lia |]. by eapply Forall_forall in Hcs.
  - iIntros "Hs Ht". iApply "HQ". iExists (Some x). iFrame.
Qed.

Lemma good_values_dict m es nv : dict_is m es → good_values nv es ↔ no_reserved nv m.
Proof.
  intros [Ho <-]. rewrite /good_values Forall_forall /no_reserved. split.
  - intros Hall k Hk. apply to_map_elem_of in Hk; [|done]. by apply (Hall _ Hk).
  - intros Hnr [k v] Hin. simpl. intros ->. by apply (Hnr k), to_map_elem_of.
Qed.

Lemma wp_bts_validate s nv m Q :
  bt_set s nv m -∗ (∀ b : bool, ⌜b = true ↔ no_reserved nv m⌝ → bt_set s nv m -∗ Q b) -∗
  wp (BT.Validate kMinZ (Some s)) Q.
Proof.
  iIntros "(%h & %t & [%Hr %Hd] & Hs) HQ". iApply (wp_bt_Validate with "Hs"); [done | apply Hd |]. iIntros "Hs".
  iApply ("HQ" with "[%]"); [by rewrite bool_decide_eq_true (good_values_dict m) |]. iExists h, t. by iFrame.
Qed.
End set.

(** ** The interface *)

#[global] Instance btree_map (kMin : nat) : MapOps := {
  map_new := BT.newTree (Z.of_nat kMin);
  map_Find := BT.Find;
  map_Insert := BT.Insert (Z.of_nat kMin);
  map_Delete := BT.Delete (Z.of_nat kMin);
  map_Validate := BT.Validate (Z.of_nat kMin);
  map_delete := BT.deleteTree;
}.

#[global] Program Instance btree_map_laws (kMin : nat) (HkMin : (0 < kMin)%nat) : MapLaws (btree_map kMin) := {|
  is_map := bt_set kMin;
  fits m _ := bt_fits kMin m;
  map_new_law := wp_bts_new kMin HkMin;
  map_Find_law := wp_bts_find kMin;
  map_Insert_law := wp_bts_insert kMin HkMin;
  map_Delete_law := wp_bts_delete kMin HkMin;
  map_delete_law := wp_bts_delete_tree kMin HkMin;
|}.

#[global] Instance btree_map_checked kMin HkMin : MapChecked (btree_map kMin) (MapLaws0 := btree_map_laws kMin HkMin).
Proof.
  split. iIntros (s nv m Q Hnr) "Hs HQ". iApply (wp_bts_validate kMin HkMin with "Hs"). iIntros (b Hb) "Hs".
  rewrite (proj2 Hb Hnr). by iApply "HQ".
Qed.

(** ** Sessions *)

Lemma map_op_size nv m op : (size (map_op nv m op).2 ≤ S (size m))%nat.
Proof.
  destruct op as [k|k v|k]; simpl; [lia | |].
  - rewrite /dict_insert. destruct (m !! k) eqn:Hk; [lia |]. by rewrite map_size_insert_None.
  - destruct (m !! k) eqn:Hk; [|rewrite delete_id //; lia]. rewrite map_size_delete Hk. lia.
Qed.

Lemma bt_all_fit kMin (HkMin : (0 < kMin)%nat) nv m ops :
  Z.of_nat (size m + length ops) < 2 * (Z.of_nat kMin + 1) ^ BT.kMaxDepth →
  all_fit (Laws := btree_map_laws kMin HkMin) nv m ops.
Proof.
  revert m. induction ops as [|op ops IH]; intros m Hm; simpl in *; [done |].
  split; [rewrite /bt_fits; lia |]. apply IH. pose proof (map_op_size nv m op). lia.
Qed.

(** ** Contracts *)

(** C30: refinement: from the empty store, any sequence of less than
    [2 * (kMinKeys + 1) ^ kMaxDepth] calls of [Find], [Insert] and [Delete] on a
    new [BTree] returns what it returns on a finite dictionary; no assertion
    fails, no array is left, and after the destructor the store is empty. *)
Theorem btree_session_refines (kMin : nat) (nv : Z) (ops : list set_op) :
  (0 < kMin)%nat → Z.of_nat (length ops) < 2 * (Z.of_nat kMin + 1) ^ BT.kMaxDepth →
  map_session (S := btree_map kMin) nv ops ∅ = Ok (map_ops nv ∅ ops).1 ∅.
Proof.
  intros HkMin Hops. apply (map_session_refines (Laws := btree_map_laws kMin HkMin)), bt_all_fit.
  by rewrite map_size_empty.
Qed.

Lemma btree_session_refines_witness :
  map_session (S := btree_map 1) (-1)
    [OpInsert 5 50; OpInsert 3 30; OpInsert 8 80; OpInsert 1 10; OpErase 5; OpFind 5; OpFind 8] ∅ =
  Ok [-1; -1; -1; -1; 50; -1; 80] ∅.
Proof.
  apply (btree_session_refines 1 (-1)
    [OpInsert 5 50; OpInsert 3 30; OpInsert 8 80; OpInsert 1 10; OpErase 5; OpFind 5; OpFind 8]).
  - lia.
  - by vm_compute.
Defined.





(** C33: [Validate] of a tree that the methods have built accepts it just when
    no value is [no_value_]. *)
Theorem btree_validate_exact (kMin : nat) s nv m :
  (0 < kMin)%nat →
  ⦃ bt_set kMin s nv m ⦄
    BT.Validate (Z.of_nat kMin) (Some s)
  ⦃ r, <affine> ⌜r = true ↔ no_reserved nv m⌝ ∗ bt_set kMin s nv m ⦄.
Proof.
  intros HkMin. apply hoare_wp. iIntros "Hs". iApply (wp_bts_validate kMin HkMin with "Hs"). by iIntros (b Hb) "$".
Qed.

Lemma btree_validate_exact_witness :
  ⦃ bt_set 8 1%positive 0 {[1 := 10]} ⦄ BT.Validate 8 (Some 1%positive)
  ⦃ r, <affine> ⌜r = true ↔ no_reserved 0 {[1 := 10]}⌝ ∗ bt_set 8 1%positive 0 {[1 := 10]} ⦄.
Proof. apply (btree_validate_exact 8). lia. Defined.

(** The binary search in a node ends after at most [size + 1] turns with
    the position of the first key that is not below [k]. *)
Lemma btree_search_ends (kMin : nat) x kvs ptrs k :
  ordered kvs →
  ⦃ node_rep kMin x kvs ptrs ⦄
    BT.Search (Some x) k
  ⦃ r, ∃ k1 k2, <affine> ⌜r = Z.of_nat (length k1) ∧ kvs = k1 ++ k2 ∧ key_position k k1 k2⌝ ∗
         node_rep kMin x kvs ptrs ⦄.
Proof.
  intros Ho. apply hoare_wp. iIntros "Hx". iApply (wp_node_Search with "Hx"); [done |].
  iIntros (k1 k2 (-> & Hpos)) "Hx". iExists k1, k2. by iFrame.
Qed.

Lemma btree_search_ends_witness :
  hoare (node_rep 1 1%positive [(3, 30); (5, 50)] [NULL; NULL; NULL]) (BT.Search (Some 1%positive) 4)
    (λ r, ∃ k1 k2, <affine> ⌜r = Z.of_nat (length k1) ∧ [(3, 30); (5, 50)] = k1 ++ k2 ∧ key_position 4 k1 k2⌝ ∗
      node_rep 1 1%positive [(3, 30); (5, 50)] [NULL; NULL; NULL])%I.
Proof. apply btree_search_ends. by repeat constructor. Defined.
