(* ===== verification/GsatModel.v ===== *)
(** * GsatModel: the generic self-adjusting search tree

    Translation of [cpp/gsat/ds/gsat] (the template [GSAT], its node base class
    and its node handler), of its instances [sabt], [salt] and [sast], and of
    their adapters, with [Key = Value = Z].  A key is deleted by making its
    access counter negative; a subtree whose counter of operations passes its
    bound is collected into arrays and built anew.

    The template parameters are a type class: the node class, the delimiter and
    the clearing policy.  [rebuild_factor_ * total_accesses], converted to an
    integer, is a function of the accesses; [ceil] of the quotient of two
    integers is computed exactly.  Counters are unbounded.  The arrays that
    [SALTNode] allocates are part of the node object. *)
From S2P Require Import Prelude Memory Arrays.
#[local] Open Scope Z_scope.
#[local] Open Scope cpp_scope.

Inductive ClearPolicy := kNone | kRoot | kRapid.

Module Gs.

(** ** Members *)

Definition base_field {A} (get : gsat_base → A) (set : A → gsat_base → gsat_base) : field gsat_node A :=
  Field (λ n, get n.(gs_base)) (λ x n,
    GsatNode (set x n.(gs_base)) n.(gs_rep) n.(gs_value_data) n.(gs_children) n.(gs_capacity)).
Definition nleft : field gsat_node Z := base_field gb_left (λ x b,
  GsatBase x b.(gb_right) b.(gb_rep_size) b.(gb_total_asize) b.(gb_leaf) b.(gb_rebuild_bound) b.(gb_counter)).
Definition nright : field gsat_node Z := base_field gb_right (λ x b,
  GsatBase b.(gb_left) x b.(gb_rep_size) b.(gb_total_asize) b.(gb_leaf) b.(gb_rebuild_bound) b.(gb_counter)).
Definition rep_size : field gsat_node Z := base_field gb_rep_size (λ x b,
  GsatBase b.(gb_left) b.(gb_right) x b.(gb_total_asize) b.(gb_leaf) b.(gb_rebuild_bound) b.(gb_counter)).
Definition total_asize : field gsat_node Z := base_field gb_total_asize (λ x b,
  GsatBase b.(gb_left) b.(gb_right) b.(gb_rep_size) x b.(gb_leaf) b.(gb_rebuild_bound) b.(gb_counter)).
Definition leaf : field gsat_node bool := base_field gb_leaf (λ x b,
  GsatBase b.(gb_left) b.(gb_right) b.(gb_rep_size) b.(gb_total_asize) x b.(gb_rebuild_bound) b.(gb_counter)).
Definition rebuild_bound : field gsat_node Z := base_field gb_rebuild_bound (λ x b,
  GsatBase b.(gb_left) b.(gb_right) b.(gb_rep_size) b.(gb_total_asize) b.(gb_leaf) x b.(gb_counter)).
Definition counter : field gsat_node Z := base_field gb_counter (λ x b,
  GsatBase b.(gb_left) b.(gb_right) b.(gb_rep_size) b.(gb_total_asize) b.(gb_leaf) b.(gb_rebuild_bound) x).
Definition rep : field gsat_node (list Z) := Field gs_rep (λ x n,
  GsatNode n.(gs_base) x n.(gs_value_data) n.(gs_children) n.(gs_capacity)).
Definition value_data : field gsat_node (list (Z * Z)) := Field gs_value_data (λ x n,
  GsatNode n.(gs_base) n.(gs_rep) x n.(gs_children) n.(gs_capacity)).
Definition children : field gsat_node (list ptr) := Field gs_children (λ x n,
  GsatNode n.(gs_base) n.(gs_rep) n.(gs_value_data) x n.(gs_capacity)).
Definition capacity : field gsat_node Z := Field gs_capacity (λ x n,
  GsatNode n.(gs_base) n.(gs_rep) n.(gs_value_data) n.(gs_children) x).

Definition no_value_ : field gsat Z := Field gst_no_value (λ x t,
  Gsat x t.(gst_left) t.(gst_right) t.(gst_leaf_size) t.(gst_min_rebuild_bound) t.(gst_root)).
Definition left_ : field gsat Z := Field gst_left (λ x t,
  Gsat t.(gst_no_value) x t.(gst_right) t.(gst_leaf_size) t.(gst_min_rebuild_bound) t.(gst_root)).
Definition right_ : field gsat Z := Field gst_right (λ x t,
  Gsat t.(gst_no_value) t.(gst_left) x t.(gst_leaf_size) t.(gst_min_rebuild_bound) t.(gst_root)).
Definition leaf_size_ : field gsat Z := Field gst_leaf_size (λ x t,
  Gsat t.(gst_no_value) t.(gst_left) t.(gst_right) x t.(gst_min_rebuild_bound) t.(gst_root)).
Definition min_rebuild_bound_ : field gsat Z := Field gst_min_rebuild_bound (λ x t,
  Gsat t.(gst_no_value) t.(gst_left) t.(gst_right) t.(gst_leaf_size) x t.(gst_root)).
Definition root_ : field gsat ptr := Field gst_root (λ x t,
  Gsat t.(gst_no_value) t.(gst_left) t.(gst_right) t.(gst_leaf_size) t.(gst_min_rebuild_bound) x).

(** ** Node classes *)

(** The binary search of [SABTNode] and [SALTNode]; the fuel is the number of
    keys. *)
Definition SearchBinary (node : ptr) (k : Z) : M Z :=
  n ← node ~> rep_size;
  iter (Z.to_nat (n + 1)) (searchStep rep node k) (-1, n).
(** [SASTNode::Search] *)
Definition SearchOne (node : ptr) (k : Z) : M Z :=
  n ← node ~> rep_size;
  if n =? 0 then mret 0
  else k0 ← aget node rep 0; mret (if k <=? k0 then 0 else 1).

(** What a node class, a delimiter and the other template and constructor
    parameters provide. *)
Class Params := {
  node_slots : Z → Z;           (** the length of the arrays, from the capacity *)
  GetCapacity : ptr → M Z;
  Search : ptr → Z → M Z;
  delimiter : Z → Z;
  scale : Z → Z;                (** [static_cast<int64_t>(rebuild_factor_ * total_accesses)] *)
  CP : ClearPolicy;
}.

Section gsat.
Context {Ps : Params}.

(** The constructor of a node class *)
Definition newNode (l r cap bound : Z) : M ptr :=
  new (GsatNode (GsatBase l r 0 0 true bound 0)
    (replicate (Z.to_nat (node_slots cap)) 0) (replicate (Z.to_nat (node_slots cap)) (0, 0))
    (replicate (Z.to_nat (node_slots cap + 1)) NULL) cap).

(** The destructor of a node class *)
Fixpoint deleteNode (fuel : nat) (node : ptr) : M unit :=
  match fuel with
  | O => throw OutOfFuel
  | S fuel =>
      if node == NULL then mret ()
      else
        n ← node ~> rep_size;
        forChildren children (deleteNode fuel) node (Z.to_nat (n + 1)) 0;;
        free gsat_node node
  end.

Definition Access (node : ptr) : M bool :=
  c ← node ~> counter;
  node ~> counter ::= c + 1;;
  c ← node ~> counter;
  b ← node ~> rebuild_bound;
  mret (c >? b).

Definition CreateRoot (this : ptr) : M ptr :=
  l ← this ~> left_; r ← this ~> right_; s ← this ~> leaf_size_; b ← this ~> min_rebuild_bound_;
  newNode l r s b.

(** The constructor; its [Check] of [rebuild_factor_] is on a [double] that is
    a parameter here. *)
Definition newTree (no_value l r leaf_size min_rebuild_bound : Z) : M ptr :=
  root ← newNode l r leaf_size min_rebuild_bound;
  this ← new (Gsat no_value l r leaf_size min_rebuild_bound root);
  if (l <? r) && (leaf_size >? 0) && (min_rebuild_bound >? 1) then mret this
  else throw RuntimeError.

Definition deleteTree (this : ptr) : M unit :=
  with_fuel (λ fuel, r ← this ~> root_; deleteNode fuel r);;
  free gsat this.

(** ** Macros *)

Definition KEY_FOUND (node : ptr) (index k : Z) : M bool :=
  n ← node ~> rep_size;
  if negb (index =? n) then ki ← aget node rep index; mret (ki =? k) else mret false.

Fixpoint shiftRep (node : ptr) (index : Z) (n : nat) : M unit :=
  match n with
  | O => mret ()
  | S n =>
      let at_ := index + Z.of_nat n in
      x ← aget node rep at_; aset node rep (at_ + 1) x;;
      x ← aget node value_data at_; aset node value_data (at_ + 1) x;;
      shiftRep node index n
  end.
Definition INSERT (node : ptr) (index k v accesses : Z) : M unit :=
  n ← node ~> rep_size;
  shiftRep node index (Z.to_nat (n - index));;
  aset node rep index k;;
  aset node value_data index (v, accesses);;
  n ← node ~> rep_size;
  node ~> rep_size ::= n + 1.

(** [INITIALIZE_LEAF], with [todo] children to look at: the body of [Complete] *)
Fixpoint initializeLeaf (node : ptr) (todo : nat) (index : Z) : M unit :=
  match todo with
  | O => mret ()
  | S todo =>
      c ← aget node children index;
      if c != NULL then node ~> leaf ::= false else initializeLeaf node todo (index + 1)
  end.
Definition Complete (node : ptr) : M unit :=
  n ← node ~> rep_size; initializeLeaf node (Z.to_nat (n + 1)) 0.

(** ** Rebuilding *)

(** The arrays that [RebuildTree] fills, as far as they are filled; they have
    [count] elements. *)
Abbreviation buffers := (list Z * list (Z * Z))%type.
Definition push (count : Z) (bs : buffers) (k : Z) (d : Z * Z) : M buffers :=
  if Z.of_nat (length bs.1) <? count then mret (bs.1 ++ [k], bs.2 ++ [d]) else throw InvalidAccess.

(** The loop over the keys of a node; [collect] is the recursive call. *)
Fixpoint collectAt (collect : ptr → buffers → M buffers) (node : ptr) (count : Z) (clear : bool)
    (todo : nat) (index : Z) (bs : buffers) : M buffers :=
  match todo with
  | O => mret bs
  | S todo =>
      '(v, a) ← aget node value_data index;
      bs ← (if negb clear || (a >? 0) then k ← aget node rep index; push count bs k (v, a) else mret bs);
      c ← aget node children (index + 1);
      bs ← (if c != NULL then collect c bs else mret bs);
      collectAt collect node count clear todo (index + 1) bs
  end.
Fixpoint CollectAndClear (fuel : nat) (count : Z) (clear : bool) (node : ptr) (bs : buffers) : M buffers :=
  match fuel with
  | O => throw OutOfFuel
  | S fuel =>
      assert_ (node != NULL);;
      c ← aget node children 0;
      bs ← (if c != NULL then CollectAndClear fuel count clear c bs else mret bs);
      n ← node ~> rep_size;
      collectAt (CollectAndClear fuel count clear) node count clear (Z.to_nat n) 0 bs
  end.

(** [pac]: the sums of the accesses of the first pairs, from [sum] on *)
Fixpoint pacs (sum : Z) (ds : list (Z * Z)) : list Z :=
  sum :: match ds with [] => [] | d :: ds => pacs (sum + Z.abs d.2) ds end.

(** An element of a local array *)
Definition rd {A} (xs : list A) (i : Z) : M A :=
  match (if i <? 0 then None else xs !! Z.to_nat i) with Some x => mret x | None => throw InvalidAccess end.

Section build.
Context (this : ptr) (krep : list Z) (kdata : list (Z * Z)) (pac : list Z).

Fixpoint fillLeaf (node : ptr) (left : Z) (todo : nat) (index : Z) : M unit :=
  match todo with
  | O => mret ()
  | S todo =>
      k ← rd krep (left + index); aset node rep index k;;
      d ← rd kdata (left + index); aset node value_data index d;;
      fillLeaf node left todo (index + 1)
  end.

(** The binary search for the next key of a node *)
Definition splitStep (left child_accesses : Z) (s : Z * Z) : M (Z * Z + (Z * Z)) :=
  let '(from, to) := s in
  if to - from >? 1 then
    let m := Z.shiftr (from + to) 1 in
    pm ← rd pac m; pl ← rd pac left;
    if pm - pl <? child_accesses then continue (m, to) else continue (from, m)
  else break (from, to).

(** A turn of the loop over the keys of a new node; the state is [index], [left]
    and [left_bound], and [build] is the recursive call. *)
Definition buildStep (build : Z → Z → Z → Z → M ptr) (node : ptr) (cap child_accesses right : Z)
    (s : Z * Z * Z) : M (Z * Z * Z + (Z * Z * Z)) :=
  let '(index, l, lb) := s in
  if index <? cap then
    '(from, to) ← iter (Z.to_nat (right - l)) (splitStep l child_accesses) (l, right);
    k ← rd krep from; aset node rep index k;;
    d ← rd kdata from; aset node value_data index d;;
    k ← aget node rep index;
    c ← build l from lb k; aset node children index c;;
    lb ← aget node rep index;
    if to =? right then break (index + 1, to, lb) else continue (index + 1, to, lb)
  else break (index, l, lb).

(** [ceil(total_accesses / (capacity + 1.0))] *)
Definition childAccesses (total cap : Z) : Z := (total + cap) / (cap + 1).

(** The depth of the recursion is at most the number of keys. *)
Fixpoint BuildIdealTree (fuel : nat) (left right left_bound right_bound : Z) : M ptr :=
  match fuel with
  | O => throw OutOfFuel
  | S fuel =>
      let size := right - left in
      if size <=? 0 then mret NULL
      else
        pr ← rd pac right; pl ← rd pac left;
        let total_accesses := pr - pl in
        mb ← this ~> min_rebuild_bound_;
        let bound := Z.max mb (scale total_accesses) in
        ls ← this ~> leaf_size_;
        if size <=? ls then
          node ← newNode left_bound right_bound ls bound;
          node ~> rep_size ::= size;;
          node ~> total_asize ::= size;;
          fillLeaf node left (Z.to_nat size) 0;;
          mret node
        else
          let cap := delimiter total_accesses in
          let child_accesses := childAccesses total_accesses cap in
          node ← newNode left_bound right_bound cap bound;
          node ~> total_asize ::= size;;
          '(index, l, lb) ←
            iter (Z.to_nat (size + 1)) (buildStep (BuildIdealTree fuel) node cap child_accesses right)
              (0, left, left_bound);
          c ← BuildIdealTree fuel l right lb right_bound;
          aset node children index c;;
          node ~> rep_size ::= index;;
          Complete node;;
          mret node
  end.
End build.

Definition RebuildTree (this node : ptr) : M ptr :=
  count ← node ~> total_asize;
  root ← this ~> root_;
  let clear := match CP with kNone => false | kRapid => true | kRoot => node == root end in
  '(krep, kdata) ← with_fuel (λ fuel, CollectAndClear fuel count clear node ([], []));
  l ← node ~> nleft; r ← node ~> nright;
  result ← BuildIdealTree this krep kdata (pacs 0 kdata) (S (length krep)) 0 (Z.of_nat (length krep)) l r;
  root ← this ~> root_;
  result ← (if (result == NULL) && (root == node) then CreateRoot this else mret result);
  with_fuel (λ fuel, deleteNode fuel node);;
  mret result.

(** ** Operations *)

(** [Node **]: the member [root_] or an element of [children] *)
Inductive slot := RootSlot | ChildSlot (node : ptr) (index : Z).
Definition assign (this : ptr) (s : slot) (p : ptr) : M unit :=
  match s with RootSlot => this ~> root_ ::= p | ChildSlot node index => aset node children index p end.

(** [node], [node_at], and [rebuild_node] with [rebuild_node_at] *)
Abbreviation rebuild := (option (ptr * slot)).
Abbreviation state := (ptr * slot * rebuild)%type.

Definition visit (node : ptr) (node_at : slot) (rb : rebuild) : M rebuild :=
  due ← Access node;
  mret (match rb with None => if (due : bool) then Some (node, node_at) else None | Some _ => rb end).

(** The end of the three operations *)
Definition finish (this : ptr) (rb : rebuild) (result : Z) : M Z :=
  match rb with
  | Some (node, at_) => p ← RebuildTree this node; assign this at_ p;; mret result
  | None => mret result
  end.

Definition FindStep (this : ptr) (k : Z) (s : state) : M (state + (Z * rebuild)) :=
  let '(node, node_at, rb) := s in
  if node == NULL then nv ← this ~> no_value_; break (nv, rb)
  else
    rb ← visit node node_at rb;
    index ← Search node k;
    found ← KEY_FOUND node index k;
    if (found : bool) then
      '(v, a) ← aget node value_data index;
      if a <? 0 then
        aset node value_data index (v, a - 1);; nv ← this ~> no_value_; break (nv, rb)
      else aset node value_data index (v, a + 1);; break (v, rb)
    else
      c ← aget node children index;
      continue (c, ChildSlot node index, rb).
Definition Find (this : ptr) (k : Z) : M Z :=
  r ← this ~> root_;
  assert_ (r != NULL);;
  '(result, rb) ← loop (FindStep this k) (r, RootSlot, None);
  finish this rb result.

Definition Contains (this : ptr) (k : Z) : M bool :=
  v ← Find this k; nv ← this ~> no_value_; mret (negb (v =? nv)).

(** A new child for a key that is in no node *)
Definition insertChild (this node : ptr) (index k v : Z) : M unit :=
  child_left ← (if index =? 0 then node ~> nleft else aget node rep (index - 1));
  n ← node ~> rep_size;
  child_right ← (if index =? n then node ~> nright else aget node rep index);
  s ← this ~> leaf_size_; b ← this ~> min_rebuild_bound_;
  child ← newNode child_left child_right s b;
  INSERT child 0 k v 1;;
  x ← child ~> total_asize; child ~> total_asize ::= x + 1;;
  x ← child ~> counter; child ~> counter ::= x + 1;;
  aset node children index child.

Definition InsertStep (this : ptr) (k v : Z) (s : state) : M (state + (Z * rebuild)) :=
  let '(node, node_at, rb) := s in
  x ← node ~> total_asize;
  node ~> total_asize ::= x + 1;;
  rb ← visit node node_at rb;
  index ← Search node k;
  found ← KEY_FOUND node index k;
  if (found : bool) then
    '(w, a) ← aget node value_data index;
    if a <? 0 then
      aset node value_data index (v, - a + 1);; nv ← this ~> no_value_; break (nv, rb)
    else aset node value_data index (w, a + 1);; break (w, rb)
  else
    c ← aget node children index;
    if c == NULL then
      is_leaf ← node ~> leaf;
      room ← (if (is_leaf : bool) then n ← node ~> rep_size; cap ← GetCapacity node; mret (n <? cap) else mret false);
      (if (room : bool) then INSERT node index k v 1 else insertChild this node index k v);;
      nv ← this ~> no_value_;
      break (nv, rb)
    else
      c ← aget node children index;
      continue (c, ChildSlot node index, rb).
Definition Insert (this : ptr) (k v : Z) : M Z :=
  r ← this ~> root_;
  assert_ (r != NULL);;
  lo ← r ~> nleft; hi ← r ~> nright;
  assert_ ((lo <=? k) && (k <? hi));;
  '(result, rb) ← loop (InsertStep this k v) (r, RootSlot, None);
  finish this rb result.

Definition DeleteStep (this : ptr) (k : Z) (s : state) : M (state + (Z * rebuild)) :=
  let '(node, node_at, rb) := s in
  if node == NULL then nv ← this ~> no_value_; break (nv, rb)
  else
    rb ← visit node node_at rb;
    index ← Search node k;
    found ← KEY_FOUND node index k;
    if (found : bool) then
      '(v, a) ← aget node value_data index;
      if a >? 0 then aset node value_data index (v, - a - 1);; break (v, rb)
      else aset node value_data index (v, a - 1);; nv ← this ~> no_value_; break (nv, rb)
    else
      c ← aget node children index;
      continue (c, ChildSlot node index, rb).
Definition Delete (this : ptr) (k : Z) : M Z :=
  r ← this ~> root_;
  assert_ (r != NULL);;
  '(result, rb) ← loop (DeleteStep this k) (r, RootSlot, None);
  finish this rb result.

Definition GetRoot (this : ptr) : M ptr := this ~> root_.

(** ** Validation *)

(** The loop of [Validate] over the children, with [todo] to go and the keys
    counted so far; [None] when a [Check] throws. *)
Fixpoint validateAt (validate : ptr → Z → Z → M (option Z)) (this node : ptr) (n lo hi : Z)
    (todo : nat) (index total : Z) : M (option Z) :=
  match todo with
  | O => mret (Some total)
  | S todo =>
      child_left ← (if index =? 0 then mret lo else aget node rep (index - 1));
      child_right ← (if index =? n then mret hi else aget node rep index);
      if negb (child_left <=? child_right) then mret None
      else
        nv ← this ~> no_value_;
        counted ← (if index <? n then
                     '(v, a) ← aget node value_data index;
                     mret (if v =? nv then None else Some (total + if a >? 0 then 1 else 0))
                   else mret (Some total));
        match counted with
        | None => mret None
        | Some total =>
            c ← aget node children index;
            r ← validate c child_left child_right;
            match r with
            | None => mret None
            | Some m => validateAt validate this node n lo hi todo (index + 1) (total + m)
            end
        end
  end.
Fixpoint ValidateNode (fuel : nat) (this node : ptr) (lo hi : Z) : M (option Z) :=
  match fuel with
  | O => throw OutOfFuel
  | S fuel =>
      if node == NULL then mret (Some 0)
      else
        l ← node ~> nleft;
        if negb (l =? lo) then mret None
        else
          r ← node ~> nright;
          if negb (r =? hi) then mret None
          else
            n ← node ~> rep_size;
            total ← validateAt (ValidateNode fuel this) this node n lo hi (Z.to_nat (n + 1)) 0 0;
            match total with
            | None => mret None
            | Some total =>
                asize ← node ~> total_asize;
                mret (if total <=? asize then Some total else None)
            end
  end.
Definition Validate (this : ptr) : M bool :=
  with_fuel (λ fuel,
    root ← this ~> root_; l ← this ~> left_; r ← this ~> right_;
    total ← ValidateNode fuel this root l r;
    mret (if total is Some _ then true else false)).

(** ** The node handler *)

Definition AdvanceStep (node : ptr) (at_ : Z) : M (Z + Z) :=
  n ← node ~> rep_size;
  if at_ <=? n then
    c ← aget node children at_;
    if c == NULL then continue (at_ + 1) else break at_
  else break at_.
Definition Advance (node : ptr) (at_ : Z) : M Z :=
  n ← node ~> rep_size; iter (Z.to_nat (n + 2 - at_)) (AdvanceStep node) at_.
Definition GetChildIterator (node : ptr) : M (ptr * Z) :=
  at_ ← Advance node 0; mret (node, at_).
Definition HasNext (it : ptr * Z) : M bool :=
  n ← it.1 ~> rep_size; mret (negb (it.2 =? n + 1)).
Definition Next (it : ptr * Z) : M (ptr * (ptr * Z)) :=
  let '(node, at_) := it in
  result ← aget node children at_;
  at_ ← Advance node (at_ + 1);
  mret (result, (node, at_)).

Fixpoint noChild (node : ptr) (todo : nat) (index : Z) : M bool :=
  match todo with
  | O => mret true
  | S todo => c ← aget node children index; if c != NULL then mret false else noChild node todo (index + 1)
  end.
Definition IsLeaf (node : ptr) : M bool :=
  n ← node ~> rep_size; noChild node (Z.to_nat (n + 1)) 0.

Fixpoint countKeys (node : ptr) (todo : nat) (index size : Z) : M Z :=
  match todo with
  | O => mret size
  | S todo =>
      '(_, a) ← aget node value_data index;
      countKeys node todo (index + 1) (int (size + if a >? 0 then 1 else 0))
  end.
Definition GetNumKeys (node : ptr) : M Z := n ← node ~> rep_size; countKeys node (Z.to_nat n) 0 0.

Definition int64 (z : Z) : Z := (z + 2 ^ 63) mod 2 ^ 64 - 2 ^ 63.
Fixpoint sumKeys (node : ptr) (todo : nat) (index sum : Z) : M Z :=
  match todo with
  | O => mret sum
  | S todo =>
      '(_, a) ← aget node value_data index;
      sum ← (if a >? 0 then k ← aget node rep index; mret (int64 (sum + k)) else mret sum);
      sumKeys node todo (index + 1) sum
  end.
Definition GetSumKeys (node : ptr) : M Z := n ← node ~> rep_size; sumKeys node (Z.to_nat n) 0 0.

(** ** The adapters *)

Definition insertIfAbsent (ds : ptr) (k v : Z) : M Z := Insert ds k v.
Definition erase (ds : ptr) (k : Z) : M Z := Delete ds k.
Definition find (ds : ptr) (k : Z) : M Z := Find ds k.
Definition contains (ds : ptr) (k : Z) : M bool := Contains ds k.
Definition insert_replace (ds : ptr) (k v : Z) : M Z := throw ProgramExit.
Definition rangeQuery (ds : ptr) (lo hi : Z) : M Z := throw ProgramExit.
Definition validateStructure (ds : ptr) : M bool := Validate ds.

End gsat.

(** ** The instances *)

(** [SABTNode<Key,Value,kMaxKeys>] with [ConstantDelimiter<kMaxKeys>] *)
Definition sabt (kMaxKeys : Z) (scale : Z → Z) (CP : ClearPolicy) : Params := {|
  node_slots _ := kMaxKeys;
  GetCapacity _ := mret kMaxKeys;
  Search := SearchBinary;
  delimiter _ := kMaxKeys;
  scale := scale;
  CP := CP;
|}.
Definition GetMaxKeys (min_keys : Z) : Z := 2 * min_keys.

(** [LogDelimiter]: the accesses are at most [2 ^ 62], so that no shift
    overflows, and 63 turns are enough. *)
Fixpoint logLoop (fuel : nat) (total_accesses pow : Z) : Z :=
  match fuel with
  | O => pow
  | S fuel => if 2 ^ pow <? total_accesses then logLoop fuel total_accesses (pow + 1) else pow
  end.
Definition LogDelimiter (total_accesses : Z) : Z := logLoop 63 total_accesses 0.

Definition salt (scale : Z → Z) (CP : ClearPolicy) : Params := {|
  node_slots cap := cap;
  GetCapacity node := node ~> capacity;
  Search := SearchBinary;
  delimiter := LogDelimiter;
  scale := scale;
  CP := CP;
|}.

Definition sast (scale : Z → Z) (CP : ClearPolicy) : Params := {|
  node_slots _ := 1;
  GetCapacity _ := mret 1;
  Search := SearchOne;
  delimiter _ := 1;
  scale := scale;
  CP := CP;
|}.

(** What the adapters construct *)
Definition sabt_adapter (value_reserved key_min key_max : Z) : M ptr :=
  newTree (Ps := sabt (GetMaxKeys 16) id kRoot) value_reserved key_min (key_max + 1) (GetMaxKeys 16) 250.
Definition salt_adapter (value_reserved key_min key_max : Z) : M ptr :=
  newTree (Ps := salt (λ n, 3 * n / 4) kRoot) value_reserved key_min (key_max + 1) 4 225.
Definition sast_adapter (value_reserved key_min key_max : Z) : M ptr :=
  newTree (Ps := sast (λ n, 3 * n / 4) kRoot) value_reserved key_min (key_max + 1) 1 200.

(** ** A small run, with rebuilding after every few operations *)

Section demo.
Context (Ps : Params).
Fixpoint insertAll (t : ptr) (ks : list Z) : M unit :=
  match ks with [] => mret () | k :: ks => Insert t k (10 * k);; insertAll t ks end.
Fixpoint deleteAll (t : ptr) (ks : list Z) : M (list Z) :=
  match ks with [] => mret [] | k :: ks => v ← Delete t k; vs ← deleteAll t ks; mret (v :: vs) end.
Definition demo (leaf_size : Z) : M (list Z * (bool * bool)) :=
  t ← newTree (-1) 0 100 leaf_size 2;
  insertAll t [50; 30; 80; 10; 90; 20; 70; 60; 40; 5; 11; 12];;
  a ← Find t 70; b ← Find t 13; c ← Insert t 70 71;
  ok ← Validate t;
  ds ← deleteAll t [50; 10; 12; 13; 80; 30; 40; 20];
  ok2 ← Validate t;
  d ← Find t 90; e ← Find t 80; f ← Insert t 80 8; g ← Find t 80;
  deleteTree t;;
  mret ([a; b; c; d; e; f; g] ++ ds, (ok, ok2)).
End demo.
Definition demo_result : list Z * (bool * bool) :=
  ([700; -1; 700; 900; -1; -1; 8; 500; 100; 120; -1; 800; 300; 400; 200], (true, true)).
Example gsat_demo_runs :
  demo (sabt 2 (λ n, n / 4) kRoot) 2 ∅ = Ok demo_result ∅ ∧ demo (salt (λ n, n / 4) kRapid) 3 ∅ = Ok demo_result ∅ ∧
  demo (sast (λ n, n / 4) kNone) 1 ∅ = Ok demo_result ∅.
Proof. vm_compute. done. Qed.

End Gs.
