(* ===== verification/GsatSpec.v ===== *)
(** * GsatSpec: self-adjusting trees, their paths and dictionaries

    The functional side of [GSAT].  A node has its base class members, its
    capacity, its pairs and one child more; a pair is a key with its value and
    its counter of accesses, which is negative for a deleted key. *)
From S2P Require Import Prelude Memory OrderedSet BinTree BTreeSpec.
#[local] Open Scope Z_scope.

Abbreviation gkv := (Z * (Z * Z))%type.

Inductive gtr :=
  | GNil
  | GN (b : gsat_base) (cap : Z) (kvs : list gkv) (cs : list gtr).

Lemma gtr_ind' (P : gtr → Prop) :
  P GNil → (∀ b cap kvs cs, Forall P cs → P (GN b cap kvs cs)) → ∀ t, P t.
Proof.
  intros Hnil HN. fix IH 1. intros [|b cap kvs cs]; [done |]. apply HN.
  induction cs as [|c cs IHcs]; constructor; [apply IH | apply IHcs].
Qed.

Fixpoint gelems (t : gtr) : list gkv :=
  match t with GNil => [] | GN _ _ kvs cs => weave kvs (map gelems cs) end.
Fixpoint gnodes (t : gtr) : nat :=
  match t with GNil => 0 | GN _ _ _ cs => S (sum_list (map gnodes cs)) end.

Lemma gnodes_child c1 c c2 : (gnodes c ≤ sum_list (map gnodes (c1 ++ c :: c2)))%nat.
Proof. induction c1 as [|d c1 IH]; simpl; lia. Qed.

(** ** Bounds of the children *)

Fixpoint last_bound (lo : Z) (ks : list Z) : Z := match ks with [] => lo | k :: ks => last_bound k ks end.
Definition head_bound (hi : Z) (ks : list Z) : Z := match ks with [] => hi | k :: _ => k end.
(** The intervals before, and after, the keys. *)
Fixpoint before (lo : Z) (ks : list Z) : list (Z * Z) :=
  match ks with [] => [] | k :: ks => (lo, k) :: before k ks end.
Fixpoint after (hi : Z) (ks : list Z) : list (Z * Z) :=
  match ks with [] => [] | k :: ks => (k, head_bound hi ks) :: after hi ks end.
Definition bounds (lo hi : Z) (ks : list Z) : list (Z * Z) := (lo, head_bound hi ks) :: after hi ks.

Lemma bounds_app lo hi k1 k2 :
  bounds lo hi (k1 ++ k2) = before lo k1 ++ (last_bound lo k1, head_bound hi k2) :: after hi k2.
Proof. revert lo. induction k1 as [|k k1 IH]; intros lo; [done |]. simpl. rewrite -IH. by destruct k1. Qed.

Lemma before_snoc lo ks k : before lo (ks ++ [k]) = before lo ks ++ [(last_bound lo ks, k)].
Proof. revert lo. induction ks as [|k' ks IH]; intros lo; [done |]. simpl. by rewrite IH. Qed.
Lemma last_bound_snoc lo ks k : last_bound lo (ks ++ [k]) = k.
Proof. revert lo. induction ks as [|k' ks IH]; intros lo; [done | apply IH]. Qed.
Lemma length_before lo ks : length (before lo ks) = length ks.
Proof. revert lo. induction ks as [|k ks IH]; intros lo; simpl; [done | by rewrite IH]. Qed.
Lemma length_after hi ks : length (after hi ks) = length ks.
Proof. induction ks as [|k ks IH]; simpl; [done | by rewrite IH]. Qed.
Lemma length_bounds lo hi ks : length (bounds lo hi ks) = S (length ks).
Proof. by rewrite /= length_after. Qed.

(** ** Well-formed trees *)

Section shape.
Context (slots : Z → Z).

(** [total_asize] is at least the number of pairs, and a leaf with room has no
    children. *)
Definition node_ok (lo hi : Z) (b : gsat_base) (cap : Z) (kvs : list gkv) (n : nat) : Prop :=
  gb_left b = lo ∧ gb_right b = hi ∧ gb_rep_size b = Z.of_nat (length kvs) ∧
  Z.of_nat n ≤ gb_total_asize b.
Definition leaf_room (b : gsat_base) (cap : Z) (kvs : list gkv) : Prop :=
  gb_leaf b = true ∧ Z.of_nat (length kvs) < slots cap.

Fixpoint gwf (lo hi : Z) (t : gtr) {struct t} : Prop :=
  match t with
  | GNil => True
  | GN b cap kvs cs =>
      node_ok lo hi b cap kvs (length (gelems t)) ∧ (leaf_room b cap kvs → Forall (GNil =.) cs) ∧
      (fix go (ps : list (Z * Z)) (cs : list gtr) {struct cs} : Prop :=
         match cs, ps with
         | [], [] => True
         | c :: cs, p :: ps => gwf p.1 p.2 c ∧ go ps cs
         | _, _ => False
         end) (bounds lo hi kvs.*1) cs
  end.
Definition kids_wf (ps : list (Z * Z)) (cs : list gtr) : Prop := Forall2 (λ p c, gwf p.1 p.2 c) ps cs.

Lemma gwf_GN lo hi b cap kvs cs :
  gwf lo hi (GN b cap kvs cs) ↔
  node_ok lo hi b cap kvs (length (gelems (GN b cap kvs cs))) ∧
  (leaf_room b cap kvs → Forall (GNil =.) cs) ∧ kids_wf (bounds lo hi kvs.*1) cs.
Proof.
  cbn [gwf]. do 2 (apply and_iff_compat_l). generalize (bounds lo hi kvs.*1). clear kvs.
  induction cs as [|c cs IH]; intros [|p ps]; split; try done; try (by inversion 1); try (by constructor).
  - intros [? ?%IH]. by constructor.
  - intros (? & ?)%Forall2_cons. split; [done | by apply IH].
Qed.

Lemma kids_wf_length lo hi kvs cs : kids_wf (bounds lo hi (kvs : list gkv).*1) cs → length cs = S (length kvs).
Proof. intros Hk%Forall2_length. by rewrite length_bounds length_fmap in Hk. Qed.

(** ** Paths *)

Record gframe := GF {
  gf_b : gsat_base; gf_cap : Z;
  gf_k1 : list gkv; gf_c1 : list gtr; gf_k2 : list gkv; gf_c2 : list gtr;
}.
Definition gplug_frame (f : gframe) (t : gtr) : gtr :=
  GN f.(gf_b) f.(gf_cap) (f.(gf_k1) ++ f.(gf_k2)) (f.(gf_c1) ++ t :: f.(gf_c2)).
Fixpoint gplug (c : list gframe) (t : gtr) : gtr :=
  match c with [] => t | f :: c => gplug c (gplug_frame f t) end.
Definition gframe_l (f : gframe) : list gkv := weave f.(gf_k1) (map gelems f.(gf_c1) ++ [[]]).
Definition gframe_r (f : gframe) : list gkv := weave f.(gf_k2) ([] :: map gelems f.(gf_c2)).
Fixpoint gctx_l (c : list gframe) : list gkv :=
  match c with [] => [] | f :: c => gctx_l c ++ gframe_l f end.
Fixpoint gctx_r (c : list gframe) : list gkv :=
  match c with [] => [] | f :: c => gframe_r f ++ gctx_r c end.

(** A frame of a node with bounds [L] and [R]; its hole has bounds [lo] and [hi]
    and room for [n] pairs. *)
Definition fsize (f : gframe) : nat := length (gframe_l f) + length (gframe_r f).
Definition gframe_wf (f : gframe) (lo hi : Z) (n : nat) (L R : Z) : Prop :=
  node_ok L R f.(gf_b) f.(gf_cap) (f.(gf_k1) ++ f.(gf_k2)) (fsize f + n) ∧
  ¬ leaf_room f.(gf_b) f.(gf_cap) (f.(gf_k1) ++ f.(gf_k2)) ∧
  lo = last_bound L f.(gf_k1).*1 ∧ hi = head_bound R f.(gf_k2).*1 ∧
  kids_wf (before L f.(gf_k1).*1) f.(gf_c1) ∧ kids_wf (after R f.(gf_k2).*1) f.(gf_c2).
Fixpoint gctx_wf (c : list gframe) (lo hi : Z) (n : nat) (L R : Z) : Prop :=
  match c with
  | [] => lo = L ∧ hi = R
  | f :: c => ∃ L' R', gframe_wf f lo hi n L' R' ∧ gctx_wf c L' R' (fsize f + n) L R
  end.

Lemma gframe_wf_length f lo hi n L R :
  gframe_wf f lo hi n L R → length f.(gf_c1) = length f.(gf_k1) ∧ length f.(gf_c2) = length f.(gf_k2).
Proof.
  intros (_ & _ & _ & _ & H1%Forall2_length & H2%Forall2_length).
  by rewrite length_before length_fmap in H1; rewrite length_after length_fmap in H2.
Qed.

Lemma gelems_plug_frame f t :
  length f.(gf_c1) = length f.(gf_k1) → gelems (gplug_frame f t) = gframe_l f ++ gelems t ++ gframe_r f.
Proof. intros Hl. simpl. rewrite map_app /= weave_hole //. by rewrite length_map. Qed.

Lemma gframe_plug f lo hi n L R t :
  gframe_wf f lo hi n L R → gwf lo hi t → (length (gelems t) ≤ n)%nat → gwf L R (gplug_frame f t).
Proof.
  intros Hf Ht Hn. pose proof (gframe_wf_length _ _ _ _ _ _ Hf) as [Hl _].
  destruct Hf as ((H1 & H2 & H3 & H4) & Hroom & -> & -> & Hk1 & Hk2). apply gwf_GN. split_and!; try done.
  - change (GN _ _ _ _) with (gplug_frame f t). rewrite gelems_plug_frame // !length_app.
    rewrite /fsize in H4. split_and!; [done..|]. lia.
  - rewrite fmap_app bounds_app. apply Forall2_app; [done |]. by constructor.
Qed.

Lemma gctx_plug c lo hi n L R t :
  gctx_wf c lo hi n L R → gwf lo hi t → (length (gelems t) ≤ n)%nat → gwf L R (gplug c t).
Proof.
  revert lo hi n t. induction c as [|f c IH]; intros lo hi n t; simpl; [by intros [-> ->] |].
  intros (L' & R' & Hf & Hc) Ht Hn. apply (IH L' R' (fsize f + n)%nat); [done | by eapply gframe_plug |].
  pose proof (gframe_wf_length _ _ _ _ _ _ Hf) as [Hl _]. rewrite gelems_plug_frame // !length_app /fsize. lia.
Qed.

Lemma gelems_plug c lo hi n L R t :
  gctx_wf c lo hi n L R → gelems (gplug c t) = gctx_l c ++ gelems t ++ gctx_r c.
Proof.
  revert lo hi n t. induction c as [|f c IH]; intros lo hi n t; simpl; [by rewrite app_nil_r |].
  intros (L' & R' & Hf & Hc). rewrite (IH L' R' (fsize f + n)%nat) // gelems_plug_frame -?app_assoc //.
  by apply gframe_wf_length in Hf as [? _].
Qed.

Lemma gctx_wf_app c1 c2 lo hi n L R :
  gctx_wf (c1 ++ c2) lo hi n L R → ∃ n' L' R', gctx_wf c1 lo hi n L' R' ∧ gctx_wf c2 L' R' n' L R ∧
    (∀ t, (length (gelems t) ≤ n)%nat → (length (gelems (gplug c1 t)) ≤ n')%nat).
Proof.
  revert lo hi n. induction c1 as [|f c1 IH]; intros lo hi n; simpl; [intros Hc; by exists n, lo, hi |].
  intros (L1 & R1 & Hf & Hc). destruct (IH _ _ _ Hc) as (n' & L' & R' & Hc1 & Hc2 & Hsz).
  exists n', L', R'. split; [by exists L1, R1 |]. split; [done |]. intros t Ht. apply Hsz.
  pose proof (gframe_wf_length _ _ _ _ _ _ Hf) as [Hl _]. rewrite gelems_plug_frame // !length_app /fsize. lia.
Qed.
End shape.

(** ** Dictionaries *)

Definition strip (es : list gkv) : list kv := (λ e, (e.1, e.2.1)) <$> es.
Definition live (es : list gkv) : list kv := strip (filter (λ e, 0 < e.2.2) es).

(** A property of all pairs that were ever inserted, deleted ones included. *)
Class PairInv := pair_ok : Z → Z → Prop.

Section dict.
Context {PI : PairInv}.

(** The pairs are in order, no counter is zero, and the live pairs are [m]. *)
Definition gpair_ok (e : gkv) : Prop := e.2.2 ≠ 0 ∧ pair_ok e.1 e.2.1.
Definition gdict (m : gmap Z Z) (es : list gkv) : Prop :=
  ordered (strip es) ∧ Forall gpair_ok es ∧ to_map (live es) = m.

Lemma strip_app l1 l2 : strip (l1 ++ l2) = strip l1 ++ strip l2.
Proof. apply fmap_app. Qed.
Lemma live_app l1 l2 : live (l1 ++ l2) = live l1 ++ live l2.
Proof. by rewrite /live filter_app strip_app. Qed.
Lemma live_cons k v a l : live ((k, (v, a)) :: l) = if a >? 0 then (k, v) :: live l else live l.
Proof.
  rewrite /live Z.gtb_ltb. destruct (Z.ltb_spec 0 a); [rewrite filter_cons_True // | rewrite filter_cons_False //; simpl; lia].
Qed.
Lemma filter_sublist {A} (P : A → Prop) `{!∀ x, Decision (P x)} l : sublist (filter P l) l.
Proof.
  induction l as [|x l IH]; [done |]. destruct (decide (P x)).
  - rewrite filter_cons_True //. by apply sublist_skip.
  - rewrite filter_cons_False //. by apply sublist_cons.
Qed.
Lemma strip_sublist l1 l2 : sublist l1 l2 → sublist (strip l1) (strip l2).
Proof. induction 1; simpl; [done | by apply sublist_skip | by apply sublist_cons]. Qed.
Lemma Forall_sublist {A} (P : A → Prop) l1 l2 : Forall P l2 → sublist l1 l2 → Forall P l1.
Proof.
  rewrite !Forall_forall. intros Hl Hs x Hx. apply Hl. by eapply elem_of_submseteq, sublist_submseteq.
Qed.
Lemma live_sublist l : sublist (live l) (strip l).
Proof. apply strip_sublist, filter_sublist. Qed.
Lemma live_below l k : keys_below (strip l) k → keys_below (live l) k.
Proof. intros Hl. eapply Forall_sublist; [done | apply live_sublist]. Qed.
Lemma live_above l k : keys_above (strip l) k → keys_above (live l) k.
Proof. intros Hl. eapply Forall_sublist; [done | apply live_sublist]. Qed.

(** One pair in the list decides about its key. *)
Lemma gdict_middle m l1 k v a l2 :
  gdict m (l1 ++ (k, (v, a)) :: l2) →
  to_map (live l1 ++ live l2) !! k = None ∧
  m = if a >? 0 then <[k := v]> (to_map (live l1 ++ live l2)) else to_map (live l1 ++ live l2).
Proof.
  intros (Ho & _ & <-). rewrite strip_app in Ho. apply (ordered_middle _ (k, v)) in Ho as (_ & Hb & Ha).
  apply live_below in Hb. apply live_above in Ha. split; [by apply to_map_absent |].
  rewrite live_app live_cons. destruct (a >? 0); [by apply to_map_insert | done].
Qed.

Lemma gdict_lookup m l1 k v a l2 :
  gdict m (l1 ++ (k, (v, a)) :: l2) → m !! k = if a >? 0 then Some v else None.
Proof.
  intros [Hk ->]%gdict_middle. destruct (a >? 0); [apply lookup_insert_eq | done].
Qed.

Lemma gdict_set m l1 k v a l2 v' a' :
  gdict m (l1 ++ (k, (v, a)) :: l2) → a' ≠ 0 → pair_ok k v' →
  gdict (if a' >? 0 then <[k := v']> m else delete k m) (l1 ++ (k, (v', a')) :: l2).
Proof.
  intros Hd Ha' Hok. pose proof (gdict_middle _ _ _ _ _ _ Hd) as [Hk Hm]. destruct Hd as (Ho & [Hz1 [_ Hz2]%Forall_cons]%Forall_app & _).
  rewrite strip_app in Ho. apply (ordered_middle _ (k, v)) in Ho as (Ho & Hb & Ha). split_and!.
  - rewrite strip_app. by apply (ordered_middle _ (k, v')).
  - apply Forall_app. by split; [|constructor].
  - apply live_below in Hb. apply live_above in Ha. rewrite live_app live_cons Hm.
    destruct (a' >? 0); [rewrite to_map_insert //|]; destruct (a >? 0); rewrite ?insert_insert_eq // ?delete_insert_id //.
    by rewrite delete_id.
Qed.

Lemma gdict_absent m l1 l2 k :
  gdict m (l1 ++ l2) → keys_below (strip l1) k → keys_above (strip l2) k → m !! k = None.
Proof.
  intros (_ & _ & <-) Hb%live_below Ha%live_above. rewrite live_app. by apply to_map_absent.
Qed.

Lemma gdict_new m l1 l2 k v :
  gdict m (l1 ++ l2) → keys_below (strip l1) k → keys_above (strip l2) k → pair_ok k v →
  gdict (<[k := v]> m) (l1 ++ (k, (v, 1)) :: l2).
Proof.
  intros (Ho & [Hz1 Hz2]%Forall_app & <-) Hb Ha Hok. rewrite strip_app in Ho. split_and!.
  - rewrite strip_app. by apply (ordered_insert _ (k, v)).
  - apply Forall_app. by split; [|constructor].
  - rewrite !live_app live_cons /=. by apply to_map_insert, live_below.
Qed.

(** Clearing drops the deleted pairs. *)
Definition cleared (clear : bool) (es : list gkv) : list gkv :=
  if clear then filter (λ e, 0 < e.2.2) es else es.

Lemma gdict_cleared m clear l1 es l2 :
  gdict m (l1 ++ es ++ l2) → gdict m (l1 ++ cleared clear es ++ l2).
Proof.
  destruct clear; [|done]. simpl. intros (Ho & Hz & <-).
  assert (sublist (l1 ++ filter (λ e, 0 < e.2.2) es ++ l2) (l1 ++ es ++ l2)) as Hs.
  { apply sublist_app; [done |]. apply sublist_app; [apply filter_sublist | done]. }
  split_and!.
  - by eapply ordered_sublist; [apply strip_sublist |].
  - by eapply Forall_sublist.
  - rewrite !live_app. do 3 f_equal. rewrite /live list_filter_filter. f_equal. apply list_filter_iff. intros x. tauto.
Qed.
End dict.
