(* ===== verification/GsatProof.v ===== *)
(** * GsatProof: nodes, search and paths of the self-adjusting trees *)
From S2P Require Import Prelude Memory SepLogic Arrays OrderedSet BinTree BTreeSpec BTreeProof.
From S2P Require Import GsatModel GsatSpec.
#[local] Open Scope Z_scope.
#[local] Open Scope cpp_scope.

(** ** Representation *)

Section rep.
Context {Ps : Gs.Params}.
Abbreviation slots := Gs.node_slots.

(** A node with its pairs and child pointers; the rest of its arrays is junk,
    but there are no children there. *)
Definition gnode (x : loc) (b : gsat_base) (cap : Z) (kvs : list gkv) (ptrs : list ptr) : hprop :=
  (∃ ks ds,
     <affine> ⌜Z.of_nat (length kvs + length ks) = slots cap ∧ length ds = length ks ∧
       length ptrs = S (length kvs)⌝ ∗
     x ↦ GsatNode b (kvs.*1 ++ ks) (kvs.*2 ++ ds) (ptrs ++ replicate (length ks) NULL) cap)%I.

Fixpoint gt_at (p : ptr) (t : gtr) {struct t} : hprop :=
  match t with
  | GNil => <affine> ⌜p = NULL⌝
  | GN b cap kvs cs => ∃ x ptrs, <affine> ⌜p = Some x⌝ ∗ gnode x b cap kvs ptrs ∗
      (fix go (ptrs : list ptr) (cs : list gtr) {struct cs} : hprop := match cs, ptrs with
         | [], [] => emp
         | c :: cs, q :: ptrs => gt_at q c ∗ go ptrs cs
         | _, _ => False
         end) ptrs cs
  end%I.
Abbreviation gkids ptrs cs := ([∗ list] q;c ∈ ptrs;cs, gt_at q c)%I.

Lemma gt_at_GN p b cap kvs cs :
  gt_at p (GN b cap kvs cs) ⊣⊢ ∃ x ptrs, <affine> ⌜p = Some x⌝ ∗ gnode x b cap kvs ptrs ∗ gkids ptrs cs.
Proof.
  simpl. apply bi.exist_proper=> x. apply bi.exist_proper=> ptrs. do 2 f_equiv. clear p. revert ptrs.
  induction cs as [|c cs IH]; intros [|q ptrs]; simpl; [done..| | by rewrite IH]. done.
Qed.
Lemma gt_at_GNil p : gt_at p GNil ⊣⊢ <affine> ⌜p = NULL⌝.
Proof. done. Qed.

Abbreviation lgctx := (list (loc * gframe)).
Fixpoint gpath_at (c : lgctx) (p rp : ptr) : hprop :=
  match c with
  | [] => <affine> ⌜rp = p⌝
  | (x, f) :: c => ∃ q1 q2, gnode x (gf_b f) (gf_cap f) (gf_k1 f ++ gf_k2 f) (q1 ++ p :: q2) ∗
      gkids q1 (gf_c1 f) ∗ gkids q2 (gf_c2 f) ∗ gpath_at c (Some x) rp
  end%I.
End rep.
#[global] Arguments gt_at : simpl never.
#[global] Arguments gelems : simpl never.
#[global] Arguments gwf : simpl never.

Section rep_lemmas.
Context {Ps : Gs.Params}.
Abbreviation slots := Gs.node_slots.
Abbreviation gkids ptrs cs := ([∗ list] q;c ∈ ptrs;cs, gt_at q c)%I.

Lemma gkids_length ptrs cs : gkids ptrs cs -∗ ⌜length ptrs = length cs⌝.
Proof. iApply big_sepL2_length. Qed.

Lemma gt_at_null p t : gt_at p t -∗ ⌜p = NULL ↔ t = GNil⌝.
Proof.
  iIntros "Ht". destruct t as [|b cap kvs cs].
  - rewrite gt_at_GNil. by iDestruct "Ht" as %->.
  - rewrite gt_at_GN. by iDestruct "Ht" as (x ptrs ->) "_".
Qed.

Lemma gt_at_nodes p t : gt_at p t ⊢ at_least (gnodes t).
Proof.
  revert p. induction t as [|b cap kvs cs IH] using gtr_ind'; intros p; [apply at_least_0 |].
  rewrite gt_at_GN. iIntros "(%x & %ptrs & -> & (%ks & %ds & _ & Hx) & Hk)". rewrite at_least_pt.
  iAssert (at_least (sum_list (map gnodes cs))) with "[Hk]" as "Hk".
  { clear -IH. iInduction IH as [|c cs Hc _] "IH" forall (ptrs); [iApply (at_least_0 with "Hk") |].
    iDestruct (big_sepL2_cons_inv_r with "Hk") as (q ptrs' ->) "[Hc Hk]". iDestruct ("IH" with "Hk") as "Hk".
    rewrite Hc. iCombine "Hc Hk" as "H". by rewrite at_least_sep. }
  iCombine "Hx Hk" as "H". by rewrite at_least_sep.
Qed.

Lemma gframe_at x f q1 q2 p t :
  gnode x (gf_b f) (gf_cap f) (gf_k1 f ++ gf_k2 f) (q1 ++ p :: q2) -∗
  gkids q1 (gf_c1 f) -∗ gkids q2 (gf_c2 f) -∗ gt_at p t -∗ gt_at (Some x) (gplug_frame f t).
Proof.
  iIntros "Hx H1 H2 Ht". rewrite /gplug_frame gt_at_GN. iExists x, (q1 ++ p :: q2). iFrame "Hx". iSplit; [done |].
  iApply (big_sepL2_app with "H1"). simpl. iFrame.
Qed.

Lemma gplug_at c p rp t : gpath_at c p rp -∗ gt_at p t -∗ gt_at rp (gplug c.*2 t).
Proof.
  iIntros "Hc Ht". iInduction c as [|[x f] c] "IH" forall (p t); simpl.
  - by iDestruct "Hc" as %->.
  - iDestruct "Hc" as (q1 q2) "(Hx & H1 & H2 & Hc)". iApply ("IH" with "Hc").
    iApply (gframe_at with "Hx H1 H2 Ht").
Qed.

(** The pointer to the topmost node of a path. *)
Definition gtop (c : list (loc * gframe)) (p : ptr) : ptr :=
  match last c with Some xf => Some xf.1 | None => p end.

Lemma gpath_at_split c1 c2 p rp :
  gpath_at (c1 ++ c2) p rp -∗ gpath_at c1 p (gtop c1 p) ∗ gpath_at c2 (gtop c1 p) rp.
Proof.
  iIntros "H". iInduction c1 as [|[x f] c1] "IH" forall (p); simpl; [by iFrame |].
  iDestruct "H" as (q1 q2) "(Hx & H1 & H2 & Hc)". iDestruct ("IH" with "Hc") as "[Hc1 Hc2]".
  assert (gtop ((x, f) :: c1) p = gtop c1 (Some x)) as ->.
  { rewrite /gtop last_cons. by destruct (last c1). }
  iFrame.
Qed.

Lemma gpath_at_root c p rp : c ≠ [] → gpath_at c p rp -∗ ⌜∃ x f, last c = Some (x, f) ∧ rp = Some x⌝.
Proof.
  iIntros (Hc) "H". iInduction c as [|[x f] c] "IH" forall (p Hc); [done |]. simpl.
  iDestruct "H" as (q1 q2) "(_ & _ & _ & H)". destruct c as [|[y g] c].
  - simpl. iDestruct "H" as %->. iPureIntro. by exists x, f.
  - iDestruct ("IH" with "[%] H") as %(z & h & Hl & ->); [done |]. iPureIntro. by exists z, h.
Qed.

(** A child taken out of a node. *)
Lemma gt_at_frame k1 k2 cs ptrs :
  length cs = S (length (k1 ++ k2 : list gkv)) →
  gkids ptrs cs -∗
  ∃ q1 q q2 c1 c c2, <affine> ⌜ptrs = q1 ++ q :: q2 ∧ cs = c1 ++ c :: c2 ∧ length q1 = length k1 ∧
      length c1 = length k1 ∧ length c2 = length k2⌝ ∗
    gkids q1 c1 ∗ gt_at q c ∗ gkids q2 c2.
Proof.
  iIntros (Hl) "Hk". iDestruct (gkids_length with "Hk") as %Hlen. rewrite length_app in Hl.
  destruct (list_lookup_middle_split cs (length k1)) as (c1 & c & c2 & -> & Hc1); [lia |].
  destruct (list_lookup_middle_split ptrs (length k1)) as (q1 & q & q2 & -> & Hq1).
  { rewrite length_app /= in Hlen |- *. lia. }
  iDestruct (big_sepL2_app_inv with "Hk") as "[H1 H2]"; [left; lia |]. simpl. iDestruct "H2" as "[H H2]".
  iExists q1, q, q2, c1, c, c2. iFrame. iPureIntro. rewrite length_app /= in Hl. split_and!; [done..|]. lia.
Qed.
End rep_lemmas.

(** ** Reading and writing a node *)

Section read.
Context {Ps : Gs.Params} (x : loc) (b : gsat_base) (cap : Z).
Abbreviation node := (gnode x b cap).

Lemma wp_gget {A} (get : gsat_base → A) set kvs ptrs Q :
  node kvs ptrs -∗ (node kvs ptrs -∗ Q (get b)) -∗ wp (Some x ~> (Gs.base_field get set)) Q.
Proof. iIntros "(%ks & %ds & %Hl & Hx) HQ". wp_step. iApply "HQ". iExists ks, ds. by iFrame. Qed.

Lemma wp_gput {A} (get : gsat_base → A) set a kvs ptrs Q :
  node kvs ptrs -∗ (gnode x (set a b) cap kvs ptrs -∗ Q ()) -∗ wp (Some x ~> (Gs.base_field get set) ::= a) Q.
Proof. iIntros "(%ks & %ds & %Hl & Hx) HQ". wp_step. iApply "HQ". iExists ks, ds. by iFrame. Qed.

Lemma wp_gkey k1 a d k2 ptrs i Q :
  i = Z.of_nat (length k1) →
  node (k1 ++ (a, d) :: k2) ptrs -∗ (node (k1 ++ (a, d) :: k2) ptrs -∗ Q a) -∗ wp (aget (Some x) Gs.rep i) Q.
Proof.
  iIntros (->) "(%ks & %ds & %Hl & Hx) HQ". iApply (wp_aget_at _ _ _ _ k1.*1 a (k2.*1 ++ ks) with "Hx").
  - simpl. by rewrite fmap_app -app_assoc.
  - by rewrite length_fmap.
  - iIntros "Hx". iApply "HQ". iExists ks, ds. by iFrame.
Qed.

Lemma wp_gdata k1 a d k2 ptrs i Q :
  i = Z.of_nat (length k1) →
  node (k1 ++ (a, d) :: k2) ptrs -∗ (node (k1 ++ (a, d) :: k2) ptrs -∗ Q d) -∗ wp (aget (Some x) Gs.value_data i) Q.
Proof.
  iIntros (->) "(%ks & %ds & %Hl & Hx) HQ". iApply (wp_aget_at _ _ _ _ k1.*2 d (k2.*2 ++ ds) with "Hx").
  - simpl. by rewrite fmap_app -app_assoc.
  - by rewrite length_fmap.
  - iIntros "Hx". iApply "HQ". iExists ks, ds. by iFrame.
Qed.

Lemma wp_gset_data k1 a d k2 ptrs i d' Q :
  i = Z.of_nat (length k1) →
  node (k1 ++ (a, d) :: k2) ptrs -∗ (node (k1 ++ (a, d') :: k2) ptrs -∗ Q ()) -∗
  wp (aset (Some x) Gs.value_data i d') Q.
Proof.
  iIntros (->) "(%ks & %ds & %Hl & Hx) HQ". iApply (wp_aset_at _ _ _ _ k1.*2 d (k2.*2 ++ ds) with "Hx").
  - simpl. by rewrite fmap_app -app_assoc.
  - by rewrite length_fmap.
  - iIntros "Hx". iApply "HQ". iExists ks, ds. rewrite /= !length_app /= in Hl |- *. iSplit; [done |].
    by rewrite !fmap_app -!app_assoc.
Qed.

Lemma wp_gchild kvs q1 q q2 i Q :
  i = Z.of_nat (length q1) →
  node kvs (q1 ++ q :: q2) -∗ (node kvs (q1 ++ q :: q2) -∗ Q q) -∗ wp (aget (Some x) Gs.children i) Q.
Proof.
  iIntros (->) "(%ks & %ds & %Hl & Hx) HQ". iApply (wp_aget_at _ _ _ _ q1 q (q2 ++ replicate (length ks) NULL) with "Hx").
  - simpl. by rewrite -app_assoc.
  - done.
  - iIntros "Hx". iApply "HQ". iExists ks, ds. by iFrame.
Qed.

Lemma wp_gset_child kvs q1 q q2 i q' Q :
  i = Z.of_nat (length q1) →
  node kvs (q1 ++ q :: q2) -∗ (node kvs (q1 ++ q' :: q2) -∗ Q ()) -∗ wp (aset (Some x) Gs.children i q') Q.
Proof.
  iIntros (->) "(%ks & %ds & %Hl & Hx) HQ". iApply (wp_aset_at _ _ _ _ q1 q (q2 ++ replicate (length ks) NULL) with "Hx").
  - simpl. by rewrite -app_assoc.
  - done.
  - iIntros "Hx". iApply "HQ". iExists ks, ds. rewrite !length_app /= in Hl |- *. iSplit; [done |].
    by rewrite /= -!app_assoc.
Qed.
End read.

(** ** What the node classes and delimiters promise *)

Class ParamsLaws (Ps : Gs.Params) (leaf_size : Z) := {
  slots_leaf : leaf_size ≤ Gs.node_slots leaf_size;
  slots_delimiter n : 2 ≤ n → 1 ≤ Gs.delimiter n ≤ Gs.node_slots (Gs.delimiter n);
  GetCapacity_law x b cap kvs ptrs Q :
    gnode x b cap kvs ptrs -∗ (gnode x b cap kvs ptrs -∗ Q (Gs.node_slots cap)) -∗
    wp (Gs.GetCapacity (Some x)) Q;
  Search_law x b cap kvs ptrs k Q :
    ordered (strip kvs) → gb_rep_size b = Z.of_nat (length kvs) →
    gnode x b cap kvs ptrs -∗
    (∀ k1 k2, ⌜kvs = k1 ++ k2 ∧ key_position k (strip k1) (strip k2)⌝ →
       gnode x b cap (k1 ++ k2) ptrs -∗ Q (Z.of_nat (length k1))) -∗
    wp (Gs.Search (Some x) k) Q;
}.

Lemma wp_SearchBinary {Ps : Gs.Params} x b cap kvs ptrs k Q :
  ordered (strip kvs) → gb_rep_size b = Z.of_nat (length kvs) →
  gnode x b cap kvs ptrs -∗
  (∀ k1 k2, ⌜kvs = k1 ++ k2 ∧ key_position k (strip k1) (strip k2)⌝ →
     gnode x b cap (k1 ++ k2) ptrs -∗ Q (Z.of_nat (length k1))) -∗
  wp (Gs.SearchBinary (Some x) k) Q.
Proof.
  iIntros (Hord Hsz) "(%ks & %ds & %Hl & Hx) HQ".
  assert (∀ i a, (i < length kvs)%nat → (kvs.*1 ++ ks) !! i = Some a ↔ ∃ b, strip kvs !! i = Some (a, b)) as Hlk.
  { intros i a Hi. rewrite lookup_app_l; [|by rewrite length_fmap]. rewrite !list_lookup_fmap.
    destruct (kvs !! i) as [[a' [v c]]|]; simpl; naive_solver. }
  rewrite /Gs.SearchBinary. wp_step. rewrite Hsz.
  iApply (wp_arraySearch Gs.rep k x _ (length kvs) with "Hx"); [| |lia..|].
  - rewrite /= length_app length_fmap. lia.
  - intros i j a c Hij [v Ha]%Hlk [w Hb]%Hlk; [|lia..].
    apply (ordered_lookup (strip kvs) i j (a, v) (c, w)); [done | lia | done..].
  - iIntros (p (Hp & Hlo & Hhi)) "Hx". iSpecialize ("HQ" $! (take p kvs) (drop p kvs) with "[%]").
    + rewrite take_drop. split; [done |]. split.
      * apply Forall_lookup. intros i [a c] Hi. rewrite /strip fmap_take in Hi.
        apply lookup_take_Some in Hi as [Hi Hlt]. apply (Hlo i a Hlt), Hlk; [lia | by exists c].
      * apply Forall_lookup. intros i [a c] Hi. rewrite /strip fmap_drop lookup_drop in Hi.
        pose proof (lookup_lt_Some _ _ _ Hi) as Hlt. rewrite length_fmap in Hlt.
        apply (Hhi (p + i)%nat a); [lia |]. apply Hlk; [lia | by exists c].
    + rewrite length_take_le // take_drop. iApply "HQ". iExists ks, ds. by iFrame.
Qed.

(** ** A step of the descent *)

Section descent.
Context {Ps : Gs.Params} {leaf_size : Z} {Laws : ParamsLaws Ps leaf_size} {PI : PairInv}.
Abbreviation slots := Gs.node_slots.
Abbreviation gkids ptrs cs := ([∗ list] q;c ∈ ptrs;cs, gt_at q c)%I.

Lemma wp_KEY_FOUND x b cap k1 k2 ptrs k i Q :
  i = Z.of_nat (length k1) → gb_rep_size b = Z.of_nat (length (k1 ++ k2)) →
  gnode x b cap (k1 ++ k2) ptrs -∗
  (gnode x b cap (k1 ++ k2) ptrs -∗ Q (match k2 with (a, _) :: _ => a =? k | [] => false end)) -∗
  wp (Gs.KEY_FOUND (Some x) i k) Q.
Proof.
  iIntros (-> Hsz) "Hx HQ". rewrite /Gs.KEY_FOUND. iApply wp_bind. iApply (wp_gget with "Hx"). iIntros "Hx".
  rewrite Hsz. destruct k2 as [|[a d] k2].
  - rewrite app_nil_r Z.eqb_refl /=. wp_step. by iApply "HQ".
  - rewrite length_app (proj2 (Z.eqb_neq (Z.of_nat (length k1)) _)); [|simpl; lia]. simpl. iApply wp_bind.
    iApply (wp_gkey with "Hx"); [done |]. iIntros "Hx". wp_step. by iApply "HQ".
Qed.

(** A node that has been counted. *)
Definition bump (b : gsat_base) : gsat_base :=
  GsatBase b.(gb_left) b.(gb_right) b.(gb_rep_size) b.(gb_total_asize) b.(gb_leaf) b.(gb_rebuild_bound) (b.(gb_counter) + 1).

(** The place that holds the pointer to the subtree in the hole. *)
Definition slot_of (c : list (loc * gframe)) : Gs.slot :=
  match c with [] => Gs.RootSlot | (x, f) :: _ => Gs.ChildSlot (Some x) (Z.of_nat (length (gf_k1 f))) end.

(** [rebuild_node] is a node of the path [c], or the node [p] at its end. *)
Definition rb_ok (rb : option (ptr * Gs.slot)) (c : list (loc * gframe)) (p : ptr) : Prop :=
  match rb with
  | None => True
  | Some r => ∃ c1 c2, c = c1 ++ c2 ∧ r = (gtop c1 p, slot_of c2)
  end.
(** [rebuild_node] is a proper ancestor. *)
Definition rb_above (rb : option (ptr * Gs.slot)) (c : list (loc * gframe)) : Prop :=
  match rb with
  | None => True
  | Some r => ∃ c1 x f c2, c = c1 ++ (x, f) :: c2 ∧ r = (Some x, slot_of c2)
  end.

Lemma rb_above_ok rb c p : rb_above rb c → rb_ok rb c p.
Proof.
  destruct rb as [r|]; [|done]. intros (c1 & x & f & c2 & -> & ->). exists (c1 ++ [(x, f)]), c2.
  split; [by rewrite -app_assoc |]. by rewrite /gtop last_snoc.
Qed.
Lemma rb_ok_above rb c x f : rb_ok rb c (Some x) → rb_above rb ((x, f) :: c).
Proof.
  destruct rb as [r|]; [|done]. intros (c1 & c2 & -> & ->). rewrite /gtop.
  destruct c1 as [|[y g] c1 _] using rev_ind; simpl; [by exists [], x, f, c2 |].
  rewrite last_snoc. exists ((x, f) :: c1), y, g, c2. split; [by rewrite -app_assoc | done].
Qed.

Lemma wp_gvisit x b cap kvs ptrs c rb Q :
  rb_above rb c →
  gnode x b cap kvs ptrs -∗
  (∀ rb', ⌜rb_ok rb' c (Some x)⌝ → gnode x (bump b) cap kvs ptrs -∗ Q rb') -∗
  wp (Gs.visit (Some x) (slot_of c) rb) Q.
Proof.
  iIntros (Hrb) "Hx HQ". rewrite /Gs.visit /Gs.Access. iApply wp_bind.
  iApply wp_bind. iApply (wp_gget with "Hx"). iIntros "Hx".
  iApply wp_bind. iApply (wp_gput with "Hx"). iIntros "Hx".
  iApply wp_bind. iApply (wp_gget with "Hx"). iIntros "Hx".
  iApply wp_bind. iApply (wp_gget with "Hx"). iIntros "Hx". do 2 wp_step.
  iApply ("HQ" with "[%] Hx"). destruct rb as [r|]; [by apply rb_above_ok |].
  case_match; [|done]. by exists [], c.
Qed.

(** Where the search for [k] stands; the path has room for [d] more pairs. *)
Definition gsearching (k : Z) (c : list gframe) (lo hi : Z) (d : nat) (L R : Z) (t : gtr) : Prop :=
  gctx_wf slots c lo hi (d + length (gelems t)) L R ∧ gwf slots lo hi t ∧ ordered (strip (gelems t)) ∧
  keys_below (strip (gctx_l c)) k ∧ keys_above (strip (gctx_r c)) k.

(** What an operation leaves before it rebuilds: a tree for [m] with some path
    into it. *)
Definition settled (m : gmap Z Z) (c : list gframe) (L R : Z) (t : gtr) : Prop :=
  gplug c t ≠ GNil ∧ gdict m (gelems (gplug c t)) ∧
  ∃ lo hi n, gctx_wf slots c lo hi n L R ∧ gwf slots lo hi t ∧ (length (gelems t) ≤ n)%nat.

Lemma gplug_nil c t : t ≠ GNil → gplug c t ≠ GNil.
Proof. revert t. induction c as [|f c IH]; intros t Ht; [done |]. by apply IH. Qed.

Lemma strip_weave kvs ess : strip (weave kvs ess) = weave (strip kvs) (map strip ess).
Proof.
  revert kvs. induction ess as [|e ess IH]; intros [|x kvs]; simpl; [done..|].
  by rewrite strip_app /= IH.
Qed.

Lemma gelems_found b cap k1 e k2 cs :
  length cs = S (length (k1 ++ e :: k2)) →
  gelems (GN b cap (k1 ++ e :: k2) cs) =
    weave k1 (map gelems (take (S (length k1)) cs)) ++ e :: weave k2 (map gelems (drop (S (length k1)) cs)).
Proof.
  intros Hl. rewrite /gelems -/gelems -{1}(take_drop (S (length k1)) cs) map_app weave_app //.
  rewrite length_map length_take_le //. rewrite Hl length_app /=. lia.
Qed.

Lemma gordered_node b cap kvs cs :
  ordered (strip (gelems (GN b cap kvs cs))) → length cs = S (length kvs) → ordered (strip kvs).
Proof.
  intros Ho Hl. eapply ordered_sublist, Ho. apply strip_sublist, weave_sublist. by rewrite length_map.
Qed.

(** The pair of a key that has been found gets another value and counter. *)
Lemma settled_found m k c lo hi d L R b cap k1 v a k2 cs v' a' :
  gsearching k c lo hi d L R (GN b cap (k1 ++ (k, (v, a)) :: k2) cs) →
  gdict m (gelems (gplug c (GN b cap (k1 ++ (k, (v, a)) :: k2) cs))) →
  a' ≠ 0 → v' = v ∨ pair_ok k v' →
  m !! k = (if a >? 0 then Some v else None) ∧ a ≠ 0 ∧
  settled (if a' >? 0 then <[k := v']> m else delete k m) c L R (GN (bump b) cap (k1 ++ (k, (v', a')) :: k2) cs).
Proof.
  intros (Hc & Ht & _) Hd Ha' Hv. pose proof Ht as (Hok & Hroom & Hk)%gwf_GN. pose proof (kids_wf_length _ _ _ _ _ Hk) as Hl.
  assert (length cs = S (length (k1 ++ (k, (v', a')) :: k2))) as Hl' by (rewrite Hl !length_app; done).
  rewrite (gelems_plug _ _ _ _ _ _ _ _ Hc) gelems_found // -app_assoc app_assoc /= in Hd.
  split; [by eapply gdict_lookup |]. pose proof Hd as (_ & [_ [[Ha Hpok] _]%Forall_cons]%Forall_app & _).
  split; [done |]. split; [by apply gplug_nil |]. split.
  - rewrite (gelems_plug _ _ _ _ _ _ _ _ Hc) gelems_found // -app_assoc app_assoc /=. eapply gdict_set; [done | done |].
    by destruct Hv as [->|].
  - exists lo, hi. eexists. split; [done |]. rewrite !gelems_found // !length_app /=. split; [|lia]. apply gwf_GN.
    rewrite !gelems_found // /leaf_room !length_app /= !fmap_app /= in Hok, Hroom, Hk |- *.
    rewrite /node_ok !length_app /= in Hok |- *. split_and!; try done; by destruct Hok as (? & ? & ? & ?).
Qed.

(** The descent into a child; a leaf that has room for a key has no children. *)
Lemma gsearching_child k c lo hi d L R b cap k1 k2 c1 t c2 :
  gsearching k c lo hi d L R (GN b cap (k1 ++ k2) (c1 ++ t :: c2)) → length c1 = length k1 →
  Z.of_nat (d + length (gelems (GN b cap (k1 ++ k2) (c1 ++ t :: c2)))) ≤ gb_total_asize b →
  keys_below (strip k1) k → keys_above (strip k2) k →
  let f := GF (bump b) cap k1 c1 k2 c2 in
  ordered (strip (gelems t)) ∧ keys_below (strip (gctx_l (f :: c))) k ∧ keys_above (strip (gctx_r (f :: c))) k ∧
  (¬ leaf_room slots b cap (k1 ++ k2) → ∃ lo' hi', gsearching k (f :: c) lo' hi' d L R t).
Proof.
  intros (Hc & Ht & Ho & Hb & Ha) Hl1 Hd Hk1 Hk2 f. apply gwf_GN in Ht as ((HL & HR & Hsz & Has) & Hroom & Hk).
  pose proof (kids_wf_length _ _ _ _ _ Hk) as Hl. rewrite !length_app /= in Hl.
  change (GN b cap (k1 ++ k2) (c1 ++ t :: c2)) with (gplug_frame (GF b cap k1 c1 k2 c2) t) in Ho, Has, Hd, Hc.
  rewrite gelems_plug_frame // in Ho, Has, Hd, Hc. rewrite !strip_app in Ho.
  apply ordered_split in Ho as [Hol Ho]. apply ordered_split in Ho as [Hot Hor].
  assert (keys_below (strip (gframe_l f)) k) as Hbf.
  { change (gframe_l f) with (gframe_l (GF b cap k1 c1 k2 c2)). revert Hol. rewrite /gframe_l strip_weave map_app /=.
    intros Hol. apply weave_below; [by rewrite /strip !length_map ?length_fmap | done | done]. }
  assert (keys_above (strip (gframe_r f)) k) as Haf.
  { change (gframe_r f) with (gframe_r (GF b cap k1 c1 k2 c2)). revert Hor. rewrite /gframe_r strip_weave /=.
    intros Hor. apply weave_above; [rewrite /strip !length_map ?length_fmap; lia | done | done]. }
  assert (keys_below (strip (gctx_l (f :: c))) k) by (rewrite /= strip_app; by apply Forall_app).
  assert (keys_above (strip (gctx_r (f :: c))) k) by (rewrite /= strip_app; by apply Forall_app).
  split_and!; [done..|]. intros Hnr. exists (last_bound lo k1.*1), (head_bound hi k2.*1).
  rewrite fmap_app bounds_app in Hk. apply Forall2_app_inv in Hk as [Hka [Hkt Hkb]%Forall2_cons]; last first.
  { by rewrite length_before length_fmap. }
  split_and!; try done. exists lo, hi. rewrite !length_app in Has, Hc, Hd. split.
  - split; [|done]. split_and!; try done. rewrite /fsize.
    change (gframe_l f) with (gframe_l (GF b cap k1 c1 k2 c2)).
    change (gframe_r f) with (gframe_r (GF b cap k1 c1 k2 c2)). simpl. lia.
  - replace (fsize f + (d + length (gelems t)))%nat with (d + (length (gframe_l (GF b cap k1 c1 k2 c2)) +
      (length (gelems t) + length (gframe_r (GF b cap k1 c1 k2 c2)))))%nat; [done |].
    rewrite /fsize. change (gframe_l f) with (gframe_l (GF b cap k1 c1 k2 c2)).
    change (gframe_r f) with (gframe_r (GF b cap k1 c1 k2 c2)). lia.
Qed.
End descent.
