(* ===== verification/GsatBuild.v ===== *)
(** * GsatBuild: rebuilding a self-adjusting tree *)
From S2P Require Import Prelude Memory SepLogic Arrays OrderedSet BinTree BTreeSpec BTreeProof.
From S2P Require Import GsatModel GsatSpec GsatProof.
#[local] Open Scope Z_scope.
#[local] Open Scope cpp_scope.

Lemma weave_cons {A} (ks : list A) e ess : weave ks (e :: ess) = e ++ weave ks ([] :: ess).
Proof. destruct ks; simpl; [by rewrite app_nil_r | done]. Qed.

Section rebuild.
Context {Ps : Gs.Params} {leaf_size : Z} {Laws : ParamsLaws Ps leaf_size}.
Abbreviation slots := Gs.node_slots.
Abbreviation gkids ptrs cs := ([∗ list] q;c ∈ ptrs;cs, gt_at q c)%I.

Lemma gnodes_elem t cs : t ∈ cs → (gnodes t ≤ sum_list (map gnodes cs))%nat.
Proof. intros (c1 & c2 & ->)%list_elem_of_split. apply gnodes_child. Qed.

Lemma kids_wf_elem ps cs t : kids_wf slots ps cs → t ∈ cs → ∃ lo hi, gwf slots lo hi t.
Proof.
  intros Hk (i & Ht)%list_elem_of_lookup. destruct (Forall2_lookup_r _ _ _ _ _ Hk Ht) as ([lo hi] & _ & Hwf).
  by exists lo, hi.
Qed.

(** ** Deleting a subtree *)

Lemma wp_deleteNode t lo hi p fuel Q :
  (gnodes t < fuel)%nat → gwf slots lo hi t → gt_at p t -∗ Q () -∗ wp (Gs.deleteNode fuel p) Q.
Proof.
  revert lo hi p fuel Q. induction t as [|b cap kvs cs IH] using gtr_ind'; intros lo hi p fuel Q Hf Ht;
    (destruct fuel as [|fuel]; [simpl in *; lia |]); iIntros "Ht HQ"; simpl.
  { rewrite gt_at_GNil. iDestruct "Ht" as %->. simpl. by wp_step. }
  apply gwf_GN in Ht as ((_ & _ & Hsz & _) & _ & Hk). iEval (rewrite gt_at_GN) in "Ht".
  iDestruct "Ht" as (x ptrs ->) "[(%ks & %ds & %Hl & Hx) Hk]". rewrite (bool_decide_false (Some x = NULL)) //.
  wp_step. rewrite Hsz. iApply wp_bind. replace (Z.to_nat _) with (length ptrs) by lia.
  iApply (wp_forChildren gt_at _ _ _ _ [] ptrs with "[] Hx Hk"); [done | done | |].
  - iIntros "!>" (q t Q' Hin) "Ht HQ'". destruct (kids_wf_elem _ _ _ Hk Hin) as (lo' & hi' & Hwf).
    rewrite Forall_forall in IH. iApply (IH t Hin lo' hi' with "Ht HQ'"); [|done].
    apply gnodes_elem in Hin. simpl in Hf. lia.
  - iIntros "Hx". by wp_step.
Qed.

(** ** Collecting the pairs *)

Definition bufs (A : list gkv) : list Z * list (Z * Z) := (A.*1, A.*2).

Lemma cleared_app clear l1 l2 : cleared clear (l1 ++ l2) = cleared clear l1 ++ cleared clear l2.
Proof. destruct clear; [apply filter_app | done]. Qed.
Lemma cleared_length clear l : (length (cleared clear l) ≤ length l)%nat.
Proof. destruct clear; [apply length_filter | done]. Qed.

(** What a (recursive) call promises, with the test that guards it. *)
Definition collects (count : Z) (clear : bool) (collect : ptr → list Z * list (Z * Z) → M (list Z * list (Z * Z)))
    (t : gtr) : hprop :=
  (∀ q A Q, ⌜Z.of_nat (length A + length (gelems t)) ≤ count⌝ → gt_at q t -∗
     (gt_at q t -∗ Q (bufs (A ++ cleared clear (gelems t)))) -∗
     wp (if q != NULL then collect q (bufs A) else mret (bufs A)) Q)%I.

Lemma wp_collectAt count clear collect x b cap k1 k2 q1 q2 cs A Q :
  length q1 = S (length k1) → length cs = length k2 →
  Z.of_nat (length A + length (weave k2 ([] :: map gelems cs))) ≤ count →
  □ (∀ t, ⌜t ∈ cs⌝ → collects count clear collect t) -∗
  gnode x b cap (k1 ++ k2) (q1 ++ q2) -∗ gkids q2 cs -∗
  (gnode x b cap (k1 ++ k2) (q1 ++ q2) -∗ gkids q2 cs -∗
     Q (bufs (A ++ cleared clear (weave k2 ([] :: map gelems cs))))) -∗
  wp (Gs.collectAt collect (Some x) count clear (length k2) (Z.of_nat (length k1)) (bufs A)) Q.
Proof.
  iIntros (Hq1 Hl Hcount) "#Hrec Hx Hk HQ".
  iInduction k2 as [|[k [v a]] k2 IH] forall (k1 q1 q2 cs A Hq1 Hl Hcount) "Hrec"; simpl.
  { destruct cs; [|done]. wp_step. iSpecialize ("HQ" with "Hx Hk"). destruct clear; by rewrite /= app_nil_r. }
  destruct cs as [|t cs]; [done |]. iDestruct (big_sepL2_cons_inv_r with "Hk") as (q q2' ->) "[Ht Hk]".
  simpl in Hcount, Hl. rewrite weave_cons length_app in Hcount. injection Hl as Hl.
  iApply wp_bind. iApply (wp_gdata with "Hx"); [done |]. iIntros "Hx". simpl. iApply wp_bind.
  iAssert (∀ Q', (gnode x b cap (k1 ++ (k, (v, a)) :: k2) (q1 ++ q :: q2') -∗ Q' (bufs (A ++ cleared clear [(k, (v, a))]))) -∗
    wp (if negb clear || (a >? 0) then k ← aget (Some x) Gs.rep (Z.of_nat (length k1)); Gs.push count (bufs A) k (v, a)
        else mret (bufs A)) Q')%I with "[Hx]" as "Hpush".
  { iIntros (Q') "HQ". assert (cleared clear [(k, (v, a))] = if negb clear || (a >? 0) then [(k, (v, a))] else []) as ->.
    { destruct clear; [|done]. simpl. rewrite Z.gtb_ltb. destruct (Z.ltb_spec 0 a).
      - by rewrite filter_cons_True. - rewrite filter_cons_False //. simpl. lia. }
    destruct (negb clear || (a >? 0)).
    - iApply wp_bind. iApply (wp_gkey with "Hx"); [done |]. iIntros "Hx". rewrite /Gs.push /= length_fmap.
      rewrite (proj2 (Z.ltb_lt _ _)); [|lia]. wp_step. rewrite /bufs !fmap_app. by iApply "HQ".
    - wp_step. rewrite app_nil_r. by iApply "HQ". }
  iApply "Hpush". iIntros "Hx". iApply wp_bind. iApply (wp_gchild with "Hx"); [lia |]. iIntros "Hx".
  pose proof (cleared_length clear [(k, (v, a))]) as Hle1. simpl in Hle1.
  pose proof (cleared_length clear (gelems t)) as Hle2. iApply wp_bind.
  iApply ("Hrec" $! t with "[%] [%] Ht"); [by left | rewrite length_app; lia |]. iIntros "Ht".
  replace (Z.of_nat (length k1) + 1) with (Z.of_nat (length (k1 ++ [(k, (v, a))]))) by (rewrite length_app /=; lia).
  replace (k1 ++ (k, (v, a)) :: k2) with ((k1 ++ [(k, (v, a))]) ++ k2) by by rewrite -app_assoc.
  replace (q1 ++ q :: q2') with ((q1 ++ [q]) ++ q2') by by rewrite -app_assoc.
  iApply ("IH" with "[%] [%] [%] Hx Hk [HQ Ht] []"); [rewrite !length_app /=; lia | done | rewrite !length_app; lia | |].
  - iIntros "Hx Hk". iSpecialize ("HQ" with "Hx [Ht Hk]"); [by iFrame |]. rewrite -!app_assoc.
    rewrite -!cleared_app /=. by rewrite (weave_cons k2 (gelems t)).
  - iIntros "!>" (t' Hin). iApply "Hrec". iPureIntro. by right.
Qed.

Lemma gwf_collects t lo hi count clear fuel :
  (gnodes t ≤ fuel)%nat → gwf slots lo hi t → ⊢ collects count clear (Gs.CollectAndClear fuel count clear) t.
Proof.
  revert lo hi fuel. induction t as [|b cap kvs cs IH] using gtr_ind'; intros lo hi fuel Hf Ht;
    iIntros (q A Q Hcount) "Ht HQ".
  { rewrite gt_at_GNil. iDestruct "Ht" as %->. simpl. wp_step. destruct clear; rewrite app_nil_r; by iApply "HQ". }
  destruct fuel as [|fuel]; [simpl in Hf; lia |]. apply gwf_GN in Ht as ((_ & _ & Hsz & _) & _ & Hk).
  pose proof (kids_wf_length _ _ _ _ _ Hk) as Hl. iEval (rewrite gt_at_GN) in "Ht".
  iDestruct "Ht" as (x ptrs ->) "[Hx Hk]". rewrite (bool_decide_false (Some x = NULL)) //=.
  destruct cs as [|t0 cs]; [done |]. iDestruct (big_sepL2_cons_inv_r with "Hk") as (q0 ptrs' ->) "[Ht0 Hk]".
  assert (∀ t, t ∈ t0 :: cs → ⊢ collects count clear (Gs.CollectAndClear fuel count clear) t) as Hrec.
  { intros t Hin. destruct (kids_wf_elem _ _ _ Hk Hin) as (lo' & hi' & Hwf). rewrite Forall_forall in IH.
    apply (IH t Hin lo' hi'); [|done]. apply gnodes_elem in Hin. simpl in Hf, Hin. lia. }
  assert (gelems (GN b cap kvs (t0 :: cs)) = gelems t0 ++ weave kvs ([] :: map gelems cs)) as Hel.
  { by rewrite -weave_cons. }
  rewrite Hel length_app in Hcount. wp_step; [done |].
  iApply wp_bind. iApply (wp_gchild _ _ _ _ [] with "Hx"); [done |]. iIntros "Hx". iApply wp_bind.
  iApply (Hrec t0 with "[%] Ht0"); [by left | lia |]. iIntros "Ht0".
  iApply wp_bind. iApply (wp_gget with "Hx"). iIntros "Hx". rewrite Hsz Nat2Z.id.
  pose proof (cleared_length clear (gelems t0)) as Hle.
  iApply (wp_collectAt count clear _ x b cap [] kvs [q0] ptrs' cs with "[] Hx Hk"); [done | by simpl in Hl; lia | | |].
  - rewrite length_app. lia.
  - iIntros "!>" (t Hin). iApply Hrec. by right.
  - iIntros "Hx Hk". rewrite Hel cleared_app app_assoc. iApply "HQ". rewrite gt_at_GN.
    iExists x, (q0 :: ptrs'). by iFrame.
Qed.

(** ** Local arrays *)

Lemma wp_rd {A} (xs : list A) i a Q : xs !! i = Some a → Q a -∗ wp (Gs.rd xs (Z.of_nat i)) Q.
Proof.
  iIntros (Ha) "HQ". rewrite /Gs.rd (proj2 (Z.ltb_ge _ 0)); [|lia]. rewrite Nat2Z.id Ha. by wp_step.
Qed.

Definition accesses (es : list gkv) : Z := foldr (λ e n, Z.abs e.2.2 + n) 0 es.

Lemma accesses_app l1 l2 : accesses (l1 ++ l2) = accesses l1 + accesses l2.
Proof. induction l1 as [|e l1 IH]; simpl; [done | rewrite IH; lia]. Qed.
Lemma accesses_length es : Forall (λ e : gkv, e.2.2 ≠ 0) es → Z.of_nat (length es) ≤ accesses es.
Proof. induction 1 as [|e es He _ IH]; simpl; lia. Qed.

Lemma pacs_lookup sum A B : Gs.pacs sum (A ++ B).*2 !! length A = Some (sum + accesses A).
Proof.
  revert sum. induction A as [|e A IH]; intros sum; simpl; [destruct B; simpl; f_equal; lia |].
  rewrite IH. f_equal. lia.
Qed.

(** ** Leaves *)

Lemma kids_wf_nil ps n : length ps = n → kids_wf slots ps (replicate n GNil).
Proof. intros <-. induction ps as [|p ps IH]; constructor; done. Qed.

Lemma gelems_leaf b cap kvs : gelems (GN b cap kvs (replicate (S (length kvs)) GNil)) = kvs.
Proof.
  rewrite /gelems -/gelems. induction kvs as [|e kvs IH]; [done |].
  change (replicate (S (length (e :: kvs))) GNil) with (GNil :: replicate (S (length kvs)) GNil).
  rewrite map_cons. simpl. f_equal. apply IH.
Qed.

Lemma gkids_nil n : ⊢ gkids (replicate n NULL) (replicate n GNil).
Proof. induction n as [|n IH]; simpl; [done |]. iSplit; [by rewrite gt_at_GNil | iApply IH]. Qed.

(** ** The flag [leaf] *)

Definition with_leaf (lf : bool) (b : gsat_base) : gsat_base :=
  GsatBase b.(gb_left) b.(gb_right) b.(gb_rep_size) b.(gb_total_asize) lf b.(gb_rebuild_bound) b.(gb_counter).

Lemma wp_initializeLeaf x b cap kvs q1 q2 Q :
  gnode x b cap kvs (q1 ++ q2) -∗
  (∀ lf, ⌜lf = true → Forall (NULL =.) q2⌝ → ⌜lf = false ∨ lf = gb_leaf b⌝ →
     gnode x (with_leaf lf b) cap kvs (q1 ++ q2) -∗ Q ()) -∗
  wp (Gs.initializeLeaf (Some x) (length q2) (Z.of_nat (length q1))) Q.
Proof.
  iIntros "Hx HQ". iInduction q2 as [|q q2 IH] forall (q1); simpl.
  { wp_step. iApply ("HQ" $! (gb_leaf b) with "[%] [%]"); [done | by right |]. by destruct b. }
  iApply wp_bind. iApply (wp_gchild with "Hx"); [done |]. iIntros "Hx". destruct q as [y|].
  - rewrite (bool_decide_false (Some y = NULL)) //=. iApply (wp_gput with "Hx"). iIntros "Hx".
    iApply ("HQ" $! false with "[%] [%] Hx"); [done | by left].
  - rewrite (bool_decide_true (NULL = NULL)) //=.
    replace (Z.of_nat (length q1) + 1) with (Z.of_nat (length (q1 ++ [NULL]))) by (rewrite length_app /=; lia).
    replace (q1 ++ NULL :: q2) with ((q1 ++ [NULL]) ++ q2) by by rewrite -app_assoc.
    iApply ("IH" with "Hx"). iIntros (lf Hlf Hb) "Hx". iApply ("HQ" with "[%] [//] Hx").
    intros ?. constructor; [done | by apply Hlf].
Qed.

Lemma wp_Complete x b cap kvs ptrs Q :
  gb_rep_size b = Z.of_nat (length kvs) → length ptrs = S (length kvs) →
  gnode x b cap kvs ptrs -∗
  (∀ lf, ⌜lf = true → Forall (NULL =.) ptrs⌝ → gnode x (with_leaf lf b) cap kvs ptrs -∗ Q ()) -∗
  wp (Gs.Complete (Some x)) Q.
Proof.
  iIntros (Hsz Hl) "Hx HQ". rewrite /Gs.Complete. iApply wp_bind. iApply (wp_gget with "Hx"). iIntros "Hx".
  rewrite Hsz. replace (Z.to_nat _) with (length ptrs) by lia.
  iApply (wp_initializeLeaf x b cap kvs [] ptrs with "Hx"). iIntros (lf Hlf _) "Hx". by iApply ("HQ" with "[%] Hx").
Qed.

Lemma gkids_null ptrs cs : Forall (NULL =.) ptrs → gkids ptrs cs -∗ ⌜Forall (GNil =.) cs⌝.
Proof.
  iIntros (Hp) "Hk". iInduction Hp as [|q ptrs <-] "IH" forall (cs).
  { by iDestruct (big_sepL2_nil_inv_l with "Hk") as %->. }
  iDestruct (big_sepL2_cons_inv_l with "Hk") as (c cs' ->) "[Hc Hk]".
  iDestruct (gt_at_null with "Hc") as %Hc. iDestruct ("IH" with "Hk") as %Hcs. iPureIntro.
  constructor; [symmetry; by apply Hc | done].
Qed.

(** ** Building *)

Section build.
Context (s : loc) (nv L R mb : Z) (rp : ptr) (es : list gkv).
Context (Hleaf : 0 < leaf_size).
Abbreviation tree := (s ↦ Gsat nv L R leaf_size mb rp)%I.
Abbreviation krep := (es.*1).
Abbreviation kdata := (es.*2).
Abbreviation pac := (Gs.pacs 0 es.*2).

Lemma wp_pac A B Q : es = A ++ B → Q (accesses A) -∗ wp (Gs.rd pac (Z.of_nat (length A))) Q.
Proof. iIntros (->) "HQ". iApply wp_rd; [apply pacs_lookup | done]. Qed.
Lemma wp_krep A e B Q : es = A ++ e :: B → Q e.1 -∗ wp (Gs.rd krep (Z.of_nat (length A))) Q.
Proof.
  iIntros (->) "HQ". iApply wp_rd; [|done]. rewrite fmap_app fmap_cons.
  by rewrite list_lookup_middle // length_fmap.
Qed.
Lemma wp_kdata A e B Q : es = A ++ e :: B → Q e.2 -∗ wp (Gs.rd kdata (Z.of_nat (length A))) Q.
Proof.
  iIntros (->) "HQ". iApply wp_rd; [|done]. rewrite fmap_app fmap_cons.
  by rewrite list_lookup_middle // length_fmap.
Qed.

Lemma wp_fillLeaf x b cap A F G B jk jd ch Q :
  es = A ++ F ++ G ++ B → (length G ≤ length jk)%nat → length jd = length jk →
  x ↦ GsatNode b (F.*1 ++ jk) (F.*2 ++ jd) ch cap -∗
  (∀ jk' jd', ⌜(length G + length jk' = length jk)%nat ∧ length jd' = length jk'⌝ →
     x ↦ GsatNode b ((F ++ G).*1 ++ jk') ((F ++ G).*2 ++ jd') ch cap -∗ Q ()) -∗
  wp (Gs.fillLeaf krep kdata (Some x) (Z.of_nat (length A)) (length G) (Z.of_nat (length F))) Q.
Proof.
  iIntros (Hes Hle Hjd) "Hx HQ". iInduction G as [|e G IH] forall (F jk jd Hes Hle Hjd); simpl.
  { wp_step. iApply ("HQ" $! jk jd with "[%]"); [done |]. by rewrite app_nil_r. }
  destruct jk as [|j jk]; [simpl in *; lia |]. destruct jd as [|i jd]; [done |]. simpl in Hle, Hjd.
  rewrite -Nat2Z.inj_add -length_app.
  iApply wp_bind. iApply (wp_krep (A ++ F) e (G ++ B)); [by rewrite Hes -app_assoc |].
  iApply wp_bind. iApply (wp_aset_at with "Hx"); [done | by rewrite length_fmap |]. iIntros "Hx". iSimpl in "Hx".
  iApply wp_bind. iApply (wp_kdata (A ++ F) e (G ++ B)); [by rewrite Hes -app_assoc |].
  iApply wp_bind. iApply (wp_aset_at with "Hx"); [done | by rewrite length_fmap |]. iIntros "Hx". iSimpl in "Hx".
  replace (Z.of_nat (length F) + 1) with (Z.of_nat (length (F ++ [e]))) by (rewrite length_app /=; lia).
  iApply ("IH" $! (F ++ [e]) jk jd with "[%] [%] [%] [Hx]"); [by rewrite Hes -!app_assoc | lia | lia | |].
  - by rewrite !fmap_app -!app_assoc.
  - iIntros (jk' jd' [H1 H2]) "Hx". iApply ("HQ" $! jk' jd' with "[%]"); [simpl; lia |]. by rewrite -!app_assoc.
Qed.

Lemma wp_splitLoop A E B fuel from to n Q :
  es = A ++ E ++ B → Z.of_nat (length A) ≤ from < to → to ≤ Z.of_nat (length (A ++ E)) → to - from ≤ Z.of_nat fuel →
  (∀ F e G, ⌜E = F ++ e :: G⌝ → Q (Z.of_nat (length (A ++ F)), Z.of_nat (length (A ++ F)) + 1)) -∗
  wp (iter fuel (Gs.splitStep pac (Z.of_nat (length A)) n) (from, to)) Q.
Proof.
  iIntros (Hes Hft Hto Hf) "HQ". iInduction fuel as [|fuel IH] forall (from to Hft Hto Hf); [lia |].
  iApply wp_iter_S. iEval (rewrite {1}/Gs.splitStep). destruct (Z.gtb_spec (to - from) 1) as [Hgt|Hle].
  - rewrite Z.shiftr_div_pow2 // Z.pow_1_r. set (m := (from + to) `div` 2).
    assert (from < m < to) as Hm by (subst m; Z.div_mod_to_equations; lia).
    assert (m = Z.of_nat (length (take (Z.to_nat m) es))) as Hmt.
    { rewrite length_take Hes app_assoc length_app. lia. }
    iApply wp_bind. rewrite {1}Hmt. iApply (wp_pac _ (drop (Z.to_nat m) es)); [by rewrite take_drop |].
    iApply wp_bind. iApply (wp_pac A (E ++ B)); [done |].
    destruct (_ <? n); wp_step; iApply ("IH" with "[%] [%] [%] HQ"); lia.
  - wp_step. rewrite length_app in Hto.
    destruct (list_lookup_middle_split E (Z.to_nat from - length A)) as (F & e & G & -> & HF); [lia |].
    assert (from = Z.of_nat (length (A ++ F))) as -> by (rewrite length_app; lia).
    replace to with (Z.of_nat (length (A ++ F)) + 1) by lia. by iApply "HQ".
Qed.

(** What a (recursive) call promises for fewer than [n] pairs. *)
Definition builds (build : Z → Z → Z → Z → M ptr) (n : nat) : Prop := ∀ A E B lb rb Q,
  es = A ++ E ++ B → (length E < n)%nat →
  tree -∗ (∀ p t, ⌜gwf slots lb rb t ∧ gelems t = E⌝ → tree -∗ gt_at p t -∗ Q p) -∗
  wp (build (Z.of_nat (length A)) (Z.of_nat (length (A ++ E))) lb rb) Q.

(** A node under construction, with the children left of its keys. *)
Definition growing (x : loc) (b : gsat_base) (cap : Z) (ks : list gkv) (cs : list gtr) : hprop :=
  (∃ ps jk jd,
     <affine> ⌜Z.of_nat (length ks + length jk) = slots cap ∧ length jd = length jk ∧ length ps = length ks⌝ ∗
     x ↦ GsatNode b (ks.*1 ++ jk) (ks.*2 ++ jd) (ps ++ replicate (S (length jk)) NULL) cap ∗ gkids ps cs)%I.

Definition grown (lb : Z) (ks : list gkv) (cs : list gtr) (D : list gkv) : Prop :=
  kids_wf slots (before lb ks.*1) cs ∧ weave ks (map gelems cs ++ [[]]) = D.

Lemma grown_snoc lb ks cs D e t F :
  grown lb ks cs D → gwf slots (last_bound lb ks.*1) e.1 t → gelems t = F →
  grown lb (ks ++ [e]) (cs ++ [t]) (D ++ F ++ [e]).
Proof.
  intros [Hk <-] Ht <-. pose proof (Forall2_length _ _ _ Hk) as Hl. rewrite length_before length_fmap in Hl. split.
  - rewrite fmap_app before_snoc. apply Forall2_app; [done |]. by constructor.
  - rewrite map_app -app_assoc /= (weave_insert ks e []) ?length_map //.
Qed.

Lemma grown_length lb ks cs D : grown lb ks cs D → (length ks ≤ length D)%nat.
Proof.
  intros [Hk <-]. apply Forall2_length in Hk. rewrite length_before length_fmap in Hk.
  apply sublist_length, weave_sublist. rewrite length_app length_map /=. lia.
Qed.

Lemma wp_buildLoop build n x b cap ca lb A B D E ks cs fuel Q :
  builds build n → 1 ≤ cap ≤ slots cap →
  es = A ++ D ++ E ++ B → E ≠ [] → grown lb ks cs D → (length E < fuel)%nat → (length E ≤ n)%nat →
  tree -∗ growing x b cap ks cs -∗
  (∀ ks' cs' D' E', ⌜D ++ E = D' ++ E' ∧ grown lb ks' cs' D' ∧ ks' ≠ []⌝ →
     tree -∗ growing x b cap ks' cs' -∗
     Q (Z.of_nat (length ks'), Z.of_nat (length (A ++ D')), last_bound lb ks'.*1)) -∗
  wp (iter fuel (Gs.buildStep krep kdata pac build (Some x) cap ca (Z.of_nat (length (A ++ D ++ E))))
        (Z.of_nat (length ks), Z.of_nat (length (A ++ D)), last_bound lb ks.*1)) Q.
Proof.
  iIntros (Hbuild Hcap Hes HE Hgr Hf Hn) "Hs Hx HQ".
  iInduction fuel as [|fuel IH] forall (D E ks cs Hes HE Hgr Hf Hn); [lia |].
  iApply wp_iter_S. iEval (rewrite {1}/Gs.buildStep). destruct (Z.ltb_spec (Z.of_nat (length ks)) cap) as [Hlt|Hge]; last first.
  { wp_step. iApply ("HQ" with "[%] Hs Hx"). split_and!; [done..|]. destruct ks; [simpl in *; lia | done]. }
  iApply wp_bind. iApply (wp_splitLoop (A ++ D) E B); [by rewrite Hes -app_assoc | | by rewrite -app_assoc | lia |].
  { rewrite !length_app. destruct E; [done | simpl; lia]. }
  iIntros (F e G ->). iDestruct "Hx" as (ps jk jd (H1 & H2 & H3)) "[Hx Hk]".
  destruct jk as [|j jk]; [simpl in *; lia |]. destruct jd as [|i jd]; [done |]. simpl in H1, H2.
  iApply wp_bind. iApply (wp_krep ((A ++ D) ++ F) e (G ++ B)); [by rewrite Hes -!app_assoc |].
  iApply wp_bind. iApply (wp_aset_at with "Hx"); [done | by rewrite length_fmap |]. iIntros "Hx". iSimpl in "Hx".
  iApply wp_bind. iApply (wp_kdata ((A ++ D) ++ F) e (G ++ B)); [by rewrite Hes -!app_assoc |].
  iApply wp_bind. iApply (wp_aset_at with "Hx"); [done | by rewrite length_fmap |]. iIntros "Hx". iSimpl in "Hx".
  iApply wp_bind. iApply (wp_aget_at with "Hx"); [done | by rewrite length_fmap |]. iIntros "Hx".
  iApply wp_bind. iApply (Hbuild (A ++ D) F (e :: G ++ B) with "Hs").
  { by rewrite Hes -!app_assoc. } { rewrite length_app /= in Hn. lia. }
  iIntros (p t [Ht Hel]) "Hs Ht".
  iApply wp_bind. iApply (wp_aset_at with "Hx"); [done | by rewrite H3 |]. iIntros "Hx". iSimpl in "Hx".
  iApply wp_bind. iApply (wp_aget_at with "Hx"); [done | by rewrite length_fmap |]. iIntros "Hx".
  pose proof (grown_snoc _ _ _ _ e t F Hgr Ht Hel) as Hgr'.
  iAssert (growing x b cap (ks ++ [e]) (cs ++ [t])) with "[Hx Hk Ht]" as "Hx".
  { iExists (ps ++ [p]), jk, jd. iSplit; [iPureIntro; rewrite !length_app /=; lia |].
    rewrite !fmap_app -!app_assoc /=. iFrame "Hx". iApply (big_sepL2_app with "Hk"). by iFrame. }
  replace (Z.of_nat (length ks) + 1) with (Z.of_nat (length (ks ++ [e]))) by (rewrite length_app /=; lia).
  replace (Z.of_nat (length ((A ++ D) ++ F)) + 1) with (Z.of_nat (length (A ++ D ++ F ++ [e]))) by (rewrite !length_app /=; lia).
  rewrite -(last_bound_snoc lb ks.*1 e.1).
  replace (ks.*1 ++ [e.1]) with ((ks ++ [e]).*1) by by rewrite fmap_app.
  destruct (Z.eqb_spec (Z.of_nat (length (A ++ D ++ F ++ [e]))) (Z.of_nat (length (A ++ D ++ F ++ e :: G)))) as [Hend|Hmore].
  - assert (G = []) as ->. { rewrite !length_app /= in Hend. destruct G; [done | simpl in Hend; lia]. }
    wp_step. iApply ("HQ" $! _ _ _ [] with "[%] Hs Hx"). split_and!; [by rewrite app_nil_r | done..| by destruct ks].
  - wp_step. replace (A ++ D ++ F ++ e :: G) with (A ++ (D ++ F ++ [e]) ++ G) by by rewrite -!app_assoc.
    iApply ("IH" with "[%] [%] [%] [%] [%] Hs Hx"); [by rewrite Hes -!app_assoc | | done | | |].
    + by intros ->.
    + rewrite length_app /= in Hf. lia.
    + rewrite length_app /= in Hn. lia.
    + iIntros (ks' cs' D' E' (HDE & Hg & Hne)) "Hs Hx". iApply ("HQ" $! ks' cs' D' E' with "[%] Hs Hx"). split_and!; [|done..].
      by rewrite -HDE -!app_assoc.
Qed.

(** The last child and the number of keys finish a node. *)
Lemma wp_completeNode {A} x lb rb sz bd cap ks cs D E q t (r : A) Q :
  grown lb ks cs D → gwf slots (last_bound lb ks.*1) rb t → gelems t = E → Z.of_nat (length (D ++ E)) ≤ sz →
  growing x (GsatBase lb rb 0 sz true bd 0) cap ks cs -∗ gt_at q t -∗
  (∀ t', ⌜gwf slots lb rb t' ∧ gelems t' = D ++ E⌝ → gt_at (Some x) t' -∗ Q r) -∗
  wp (aset (Some x) Gs.children (Z.of_nat (length ks)) q;;
      Some x ~> Gs.rep_size ::= Z.of_nat (length ks);;
      Gs.Complete (Some x);;
      mret r) Q.
Proof.
  iIntros ([Hk HD] Ht HE Hsz) "(%ps & %jk & %jd & (%H1 & %H2 & %H3) & Hx & Hk) Ht HQ".
  iDestruct (gkids_length with "Hk") as %Hlen.
  iApply wp_bind. iApply (wp_aset_at with "Hx"); [done | by rewrite H3 |]. iIntros "Hx". iSimpl in "Hx". wp_step.
  iAssert (gnode x (GsatBase lb rb (Z.of_nat (length ks)) sz true bd 0) cap ks (ps ++ [q])) with "[Hx]" as "Hx".
  { iExists jk, jd. rewrite -app_assoc. iFrame "Hx". iPureIntro. rewrite length_app /=. split_and!; [done..|]. lia. }
  iApply wp_bind. iApply (wp_Complete with "Hx"); [done | rewrite length_app /=; lia |]. iIntros (lf Hlf) "Hx". wp_step.
  iAssert (gkids (ps ++ [q]) (cs ++ [t])) with "[Hk Ht]" as "Hk".
  { iApply (big_sepL2_app with "Hk"). by iFrame. }
  iAssert (⌜lf = true → Forall (GNil =.) (cs ++ [t])⌝)%I as %Hnil.
  { destruct lf; [|done]. iDestruct (gkids_null with "Hk") as %?; [by apply Hlf | done]. }
  assert (∀ b, gelems (GN b cap ks (cs ++ [t])) = D ++ E) as Hel.
  { intros b. rewrite /gelems -/gelems map_app /=. rewrite -HD -HE -(app_nil_r ks) weave_hole; last by rewrite length_map; congruence.
    by rewrite /= !app_nil_r. }
  iApply ("HQ" $! (GN (with_leaf lf _) cap ks (cs ++ [t])) with "[%]"); last first.
  { rewrite gt_at_GN. iExists x, _. by iFrame. }
  split; [|apply Hel]. apply gwf_GN. rewrite Hel. split_and!; [done.. | |].
  - intros [Hl _]. by apply Hnil.
  - rewrite -(app_nil_r ks.*1) bounds_app. apply Forall2_app; [done |]. by constructor.
Qed.

Lemma wp_BuildIdealTree fuel :
  Forall (λ e : gkv, e.2.2 ≠ 0) es → builds (Gs.BuildIdealTree (Some s) krep kdata pac fuel) fuel.
Proof.
  intros Hnz. induction fuel as [|fuel IH]; intros A E B lb rb Q Hes Hf; [lia |].
  iIntros "Hs HQ". simpl. rewrite !length_app.
  replace (Z.of_nat (length A + length E) - Z.of_nat (length A)) with (Z.of_nat (length E)) by lia.
  destruct (Z.leb_spec (Z.of_nat (length E)) 0) as [Hz|Hpos].
  { destruct E; [|simpl in *; lia]. wp_step. iApply ("HQ" $! NULL GNil with "[%] Hs"); [done | by rewrite gt_at_GNil]. }
  iApply wp_bind. rewrite -length_app. iApply (wp_pac (A ++ E) B); [by rewrite Hes -app_assoc |].
  iApply wp_bind. iApply (wp_pac A (E ++ B)); [done |]. rewrite accesses_app.
  replace (accesses A + accesses E - accesses A) with (accesses E) by lia. do 2 wp_step.
  destruct (Z.leb_spec (Z.of_nat (length E)) leaf_size) as [Hsmall|Hbig].
  - pose proof slots_leaf as Hslots. iApply wp_bind. iApply wp_new. iIntros (x) "Hx". do 2 wp_step. iApply wp_bind.
    rewrite Nat2Z.id.
    iApply (wp_fillLeaf x _ _ A [] E B with "Hx"); [done | rewrite length_replicate; lia | by rewrite !length_replicate |].
    iIntros (jk jd [H1 H2]) "Hx". rewrite length_replicate in H1. wp_step.
    iApply ("HQ" $! (Some x) (GN _ leaf_size E (replicate (S (length E)) GNil)) with "[%] Hs"); last first.
    { rewrite gt_at_GN. iExists x, (replicate (S (length E)) NULL). iSplit; [done |]. iSplitL; [|iApply gkids_nil].
      iExists jk, jd. rewrite -replicate_add. replace (S (length E) + length jk)%nat with (Z.to_nat (slots leaf_size + 1)) by lia.
      iFrame "Hx". iPureIntro. rewrite length_replicate. lia. }
    rewrite gelems_leaf. split; [|done]. apply gwf_GN. rewrite gelems_leaf.
    split; [by split_and! | split].
    + intros _. by apply Forall_replicate.
    + apply kids_wf_nil. by rewrite length_bounds length_fmap.
  - assert (Forall (λ e : gkv, e.2.2 ≠ 0) E) as HnE.
    { rewrite Hes in Hnz. by apply Forall_app in Hnz as [_ [? _]%Forall_app]. }
    pose proof (accesses_length E HnE) as Hacc. pose proof (slots_delimiter (accesses E) ltac:(lia)) as Hcap.
    iApply wp_bind. iApply wp_new. iIntros (x) "Hx". wp_step. iApply wp_bind.
    replace (Z.to_nat (Z.of_nat (length E) + 1)) with (S (length E)) by lia.
    replace (A ++ E) with (A ++ [] ++ E) by done.
    pose proof (wp_buildLoop (Gs.BuildIdealTree (Some s) krep kdata pac fuel) fuel x
      (GsatBase lb rb 0 (Z.of_nat (length E)) true (mb `max` Gs.scale (accesses E)) 0) (Gs.delimiter (accesses E))
      (Gs.childAccesses (accesses E) (Gs.delimiter (accesses E))) lb A B [] E [] [] (S (length E))) as Hloop.
    simpl in Hloop. rewrite app_nil_r in Hloop.
    iApply (Hloop with "Hs [Hx]"); [apply IH | lia | done | by intros -> | | lia | lia | |].
    + split; [constructor | done].
    + iExists [], (replicate (Z.to_nat (slots (Gs.delimiter (accesses E)))) 0), (replicate (Z.to_nat (slots (Gs.delimiter (accesses E)))) (0, 0)).
      rewrite !length_replicate /=. iSplit; [iPureIntro; lia |]. iSplitL; [|done].
      by replace (Z.to_nat (slots (Gs.delimiter (accesses E)) + 1)) with (S (Z.to_nat (slots (Gs.delimiter (accesses E))))) by lia.
    + iIntros (ks cs D E' (HDE & Hgr & Hne)) "Hs Hx". iApply wp_bind. subst E.
      pose proof (grown_length _ _ _ _ Hgr) as HD. rewrite length_app in Hf.
      replace (A ++ [] ++ D ++ E') with ((A ++ D) ++ E') by by rewrite -app_assoc.
      iApply (IH (A ++ D) E' B with "Hs"); [by rewrite Hes -!app_assoc | destruct ks; [done | simpl in *; lia] |].
      iIntros (q t [Ht Hel]) "Hs Ht". iApply (wp_completeNode with "Hx Ht"); [done | done | done | done |].
      iIntros (t' Ht') "Ht". by iApply ("HQ" with "[%] Hs Ht").
Qed.
End build.

(** ** RebuildTree *)

Lemma wp_gnewNode l r cap bd Q :
  0 ≤ slots cap →
  (∀ x, gnode x (GsatBase l r 0 0 true bd 0) cap [] [NULL] -∗ Q (Some x)) -∗ wp (Gs.newNode l r cap bd) Q.
Proof.
  iIntros (Hc) "HQ". iApply wp_new. iIntros (x) "Hx". iApply "HQ".
  iExists (replicate (Z.to_nat (slots cap)) 0), (replicate (Z.to_nat (slots cap)) (0, 0)). rewrite !length_replicate.
  iSplit; [iPureIntro; simpl; lia |]. by replace (Z.to_nat (slots cap + 1)) with (S (Z.to_nat (slots cap))) by lia.
Qed.

Definition empty_node (l r bd : Z) : gtr := GN (GsatBase l r 0 0 true bd 0) leaf_size [] [GNil].

Lemma empty_node_wf l r bd : gwf slots l r (empty_node l r bd).
Proof. apply gwf_GN. split; [by split_and! |]. split; [by constructor |]. by repeat constructor. Qed.
Lemma empty_node_at x l r bd :
  gnode x (GsatBase l r 0 0 true bd 0) leaf_size [] [NULL] -∗ gt_at (Some x) (empty_node l r bd).
Proof.
  iIntros "Hx". rewrite gt_at_GN. iExists x, [NULL]. iFrame "Hx". iSplit; [done |]. simpl. by rewrite gt_at_GNil.
Qed.

Lemma wp_gt_get {A} (get : gsat_base → A) set x b cap kvs cs Q :
  gt_at (Some x) (GN b cap kvs cs) -∗ (gt_at (Some x) (GN b cap kvs cs) -∗ Q (get b)) -∗
  wp (Some x ~> (Gs.base_field get set)) Q.
Proof.
  iIntros "Ht HQ". iEval (rewrite gt_at_GN) in "Ht". iDestruct "Ht" as (y ptrs [= <-]) "[Hx Hk]".
  iApply (wp_gget with "Hx"). iIntros "Hx". iApply "HQ". rewrite gt_at_GN. iExists x, ptrs. by iFrame.
Qed.

Section tree.
Context (s : loc) (nv L R mb : Z) (Hleaf : 0 < leaf_size).
Abbreviation tree rp := (s ↦ Gsat nv L R leaf_size mb rp)%I.

Lemma wp_CreateRoot rp Q :
  tree rp -∗ (∀ x, tree rp -∗ gt_at (Some x) (empty_node L R mb) -∗ Q (Some x)) -∗ wp (Gs.CreateRoot (Some s)) Q.
Proof.
  iIntros "Hs HQ". rewrite /Gs.CreateRoot. do 4 wp_step. pose proof slots_leaf.
  iApply wp_gnewNode; [lia |]. iIntros (x) "Hx". iApply ("HQ" with "Hs"). by iApply empty_node_at.
Qed.

(** Whether a rebuilding drops the deleted pairs. *)
Definition clears (x : loc) (rp : ptr) : bool :=
  match Gs.CP with kNone => false | kRoot => Some x == rp | kRapid => true end.

Lemma wp_RebuildTree rp x b cap kvs cs lo hi Q :
  let t := GN b cap kvs cs in
  gwf slots lo hi t → Forall (λ e, e.2.2 ≠ 0) (gelems t) → (Some x = rp → lo = L ∧ hi = R) →
  tree rp -∗ gt_at (Some x) t -∗
  (∀ t' p, ⌜gwf slots lo hi t' ∧ gelems t' = cleared (clears x rp) (gelems t) ∧ (Some x = rp → t' ≠ GNil)⌝ →
     tree rp -∗ gt_at p t' -∗ Q p) -∗
  wp (Gs.RebuildTree (Some s) (Some x)) Q.
Proof.
  iIntros (t Ht Hnz Hroot) "Hs Ht HQ". rewrite /Gs.RebuildTree.
  pose proof Ht as ((HL & HR & _ & Has) & _ & _)%gwf_GN.
  iApply wp_bind. iApply (wp_gt_get with "Ht"). iIntros "Ht". wp_step.
  change (match Gs.CP with kNone => false | kRoot => _ | kRapid => true end) with (clears x rp). set (clear := clears x rp).
  iApply wp_bind. iApply (wp_with_fuel (gnodes t)). iSplit; [iApply (gt_at_nodes with "Ht") |]. iIntros (fuel Hf).
  pose proof (gwf_collects t lo hi (gb_total_asize b) clear fuel ltac:(lia) Ht) as Hcol.
  iApply (Hcol $! (Some x) [] with "[%] Ht"); [exact Has |]. iIntros "Ht". simpl.
  set (es := cleared clear (gelems t)).
  assert (Forall (λ e : gkv, e.2.2 ≠ 0) es) as Hnzes.
  { eapply Forall_sublist; [done |]. subst es. destruct clear; [apply filter_sublist | done]. }
  iApply wp_bind. iApply (wp_gt_get with "Ht"). iIntros "Ht". iApply wp_bind. iApply (wp_gt_get with "Ht"). iIntros "Ht".
  rewrite HL HR length_fmap. iApply wp_bind.
  pose proof (wp_BuildIdealTree s nv L R mb rp es Hleaf (S (length es)) Hnzes [] es [] lo hi) as Hbuild.
  iApply (Hbuild with "Hs"); [by rewrite app_nil_r | lia |]. iIntros (p t' [Ht' Hel]) "Hs Ht'". wp_step.
  iDestruct (gt_at_null with "Ht'") as %Hp. iApply wp_bind.
  iAssert (∀ Q', tree rp -∗ gt_at p t' -∗ (∀ p1 t1, ⌜gwf slots lo hi t1 ∧ gelems t1 = es ∧ (Some x = rp → t1 ≠ GNil)⌝ →
      tree rp -∗ gt_at p1 t1 -∗ Q' p1) -∗
    wp (if (p == NULL) && (rp == Some x) then Gs.CreateRoot (Some s) else mret p) Q')%I as "Hfix".
  { iIntros (Q') "Hs Ht HQ". destruct (decide (p = NULL ∧ rp = Some x)) as [[-> ->]|Hno].
    - rewrite (bool_decide_true (NULL = NULL)) // (bool_decide_true (Some x = Some x)) //=.
      destruct (Hroot eq_refl) as [-> ->]. rewrite (proj1 Hp eq_refl) gt_at_GNil in Hel |- *. iDestruct "Ht" as "_".
      iApply (wp_CreateRoot with "Hs"). iIntros (y) "Hs Hy".
      iApply ("HQ" with "[%] Hs Hy"). split; [apply empty_node_wf |]. by rewrite -Hel.
    - assert ((p == NULL) && (rp == Some x) = false) as ->.
      { apply andb_false_iff. rewrite !bool_decide_eq_false. destruct (decide (p = NULL)); [right | by left]. naive_solver. }
      wp_step. iApply ("HQ" with "[%] Hs Ht"). split; [done |]. split; [done |]. intros <- ->. naive_solver. }
  iApply ("Hfix" with "Hs Ht'"). iIntros (p1 t1 Ht1) "Hs Ht1". iApply wp_bind.
  iApply (wp_with_fuel (gnodes t)). iSplit; [iApply (gt_at_nodes with "Ht") |]. iIntros (fuel' Hf').
  iApply (wp_deleteNode t lo hi with "Ht"); [done | done |]. wp_step. by iApply ("HQ" with "[%] Hs Ht1").
Qed.
End tree.
End rebuild.
