(* ===== verification/GsatTree.v ===== *)
(** * GsatTree: the operations of a self-adjusting tree

    The descent of the three operations and the rebuilding at their end, for
    any node class and delimiter with the laws of [ParamsLaws]. *)
From S2P Require Import Prelude Memory SepLogic Arrays OrderedSet BinTree BTreeSpec BTreeProof GsatMap.
From S2P Require Import GsatModel GsatSpec GsatProof GsatBuild.
#[local] Open Scope Z_scope.
#[local] Open Scope cpp_scope.

#[local] Abbreviation rebuild := (option (ptr * Gs.slot)).
#[local] Abbreviation state := (ptr * Gs.slot * rebuild)%type.

Section tree.
Context {Ps : Gs.Params} {leaf_size : Z} {Laws : ParamsLaws Ps leaf_size} (Hleaf : 0 < leaf_size) {PI : PairInv}.
Abbreviation slots := Gs.node_slots.
Abbreviation gkids ptrs cs := ([∗ list] q;c ∈ ptrs;cs, gt_at q c)%I.

Lemma gplug_app c1 c2 t : gplug (c1 ++ c2) t = gplug c2 (gplug c1 t).
Proof. revert t. induction c1 as [|f c1 IH]; intros t; [done | apply IH]. Qed.

(** [rebuild_node] is the root of a subtree on the path. *)
Definition rb_node (rb : rebuild) (c : list (loc * gframe)) (p : ptr) (t : gtr) : Prop :=
  match rb with
  | None => True
  | Some r => ∃ c1 c2, c = c1 ++ c2 ∧ r = (gtop c1 p, slot_of c2) ∧ gplug c1.*2 t ≠ GNil
  end.

Lemma rb_ok_node rb c p t : rb_ok rb c p → t ≠ GNil → rb_node rb c p t.
Proof.
  destruct rb as [r|]; [|done]. intros (c1 & c2 & -> & ->) Ht. exists c1, c2. split_and!; [done..|].
  by apply gplug_nil.
Qed.
Lemma rb_above_node rb c p t : rb_above rb c → rb_node rb c p t.
Proof.
  destruct rb as [r|]; [|done]. intros (c1 & x & f & c2 & -> & ->). exists (c1 ++ [(x, f)]), c2.
  rewrite -app_assoc /gtop last_snoc fmap_app gplug_app. by split_and!.
Qed.

Lemma gplug_cons (c : list (loc * gframe)) xf t : gplug (xf :: c).*2 t ≠ GNil.
Proof. rewrite fmap_cons. by apply (gplug_nil c.*2 (gplug_frame xf.2 t)). Qed.

(** The node at the root of a tree is not below another node. *)
Lemma gpath_at_self c p x t : t ≠ GNil → gpath_at c p (Some x) -∗ gt_at (Some x) t -∗ ⌜c = []⌝.
Proof.
  iIntros (Ht) "Hc Ht". iInduction c as [|[y f] c] "IH" forall (p); [done |]. simpl.
  iDestruct "Hc" as (q1 q2) "(Hy & _ & _ & Hc)". destruct c as [|yf c].
  - iDestruct "Hc" as %[= <-]. destruct t as [|b cap kvs cs]; [done |]. iEval (rewrite gt_at_GN) in "Ht".
    iDestruct "Ht" as (z ptrs [= <-]) "[Hz _]". iDestruct "Hy" as (??) "[_ Hy]". iDestruct "Hz" as (??) "[_ Hz]".
    iDestruct (pt_exclusive with "[$Hy $Hz]") as %[].
  - iDestruct ("IH" with "Hc Ht") as %?. done.
Qed.

(** ** Inserting into a node *)

Lemma wp_shiftRep x b cap (k1 ka : list gkv) z r1 w r2 ch Q :
  x ↦ GsatNode b (k1.*1 ++ ka.*1 ++ z :: r1) (k1.*2 ++ ka.*2 ++ w :: r2) ch cap -∗
  (∀ z' w', x ↦ GsatNode b (k1.*1 ++ z' :: ka.*1 ++ r1) (k1.*2 ++ w' :: ka.*2 ++ r2) ch cap -∗ Q ()) -∗
  wp (Gs.shiftRep (Some x) (Z.of_nat (length k1)) (length ka)) Q.
Proof.
  iIntros "Hx HQ". iInduction ka as [|e ka IH] using rev_ind forall (z r1 w r2).
  { simpl. wp_step. by iApply "HQ". }
  rewrite length_app Nat.add_1_r !fmap_app /=. rewrite -!app_assoc /=.
  iApply wp_bind. iApply (wp_aget_at _ _ _ _ (k1.*1 ++ ka.*1) with "Hx"); [simpl; by rewrite -!app_assoc | |].
  { rewrite length_app !length_fmap. lia. }
  iIntros "Hx". iApply wp_bind. iApply (wp_aset_at _ _ _ _ (k1.*1 ++ ka.*1 ++ [e.1]) with "Hx"); [simpl; by rewrite -!app_assoc | |].
  { rewrite !length_app !length_fmap /=. lia. }
  iIntros "Hx". iApply wp_bind. iApply (wp_aget_at _ _ _ _ (k1.*2 ++ ka.*2) with "Hx"); [simpl; by rewrite -!app_assoc | |].
  { rewrite length_app !length_fmap. lia. }
  iIntros "Hx". iApply wp_bind. iApply (wp_aset_at _ _ _ _ (k1.*2 ++ ka.*2 ++ [e.2]) with "Hx"); [simpl; by rewrite -!app_assoc | |].
  { rewrite !length_app !length_fmap /=. lia. }
  iIntros "Hx". simpl. rewrite -!app_assoc /=. iApply ("IH" with "Hx"). iIntros (z' w') "Hx". by iApply "HQ".
Qed.

(** The base class members of a node with one pair more. *)
Definition grow (b : gsat_base) : gsat_base :=
  GsatBase b.(gb_left) b.(gb_right) (b.(gb_rep_size) + 1) b.(gb_total_asize) b.(gb_leaf) b.(gb_rebuild_bound) b.(gb_counter).

Lemma wp_INSERT x b cap k1 k2 k v a Q :
  gb_rep_size b = Z.of_nat (length (k1 ++ k2)) → Z.of_nat (length (k1 ++ k2)) < slots cap →
  gnode x b cap (k1 ++ k2) (replicate (S (length (k1 ++ k2))) NULL) -∗
  (gnode x (grow b) cap (k1 ++ (k, (v, a)) :: k2) (replicate (S (length (k1 ++ (k, (v, a)) :: k2))) NULL) -∗ Q ()) -∗
  wp (Gs.INSERT (Some x) (Z.of_nat (length k1)) k v a) Q.
Proof.
  iIntros (Hsz Hroom) "(%ks & %ds & (%Hl1 & %Hl2 & _) & Hx) HQ". rewrite /Gs.INSERT. wp_step. rewrite Hsz.
  destruct ks as [|z ks]; [simpl in *; lia |]. destruct ds as [|w ds]; [done |]. simpl in Hl1, Hl2.
  replace (Z.to_nat (_ - _)) with (length k2) by (rewrite length_app; lia).
  rewrite !fmap_app -!app_assoc. iApply wp_bind. iApply (wp_shiftRep with "Hx"). iIntros (z' w') "Hx".
  iApply wp_bind. iApply (wp_aset_at _ _ _ _ k1.*1 with "Hx"); [done | by rewrite length_fmap |]. iIntros "Hx".
  iApply wp_bind. iApply (wp_aset_at _ _ _ _ k1.*2 with "Hx"); [done | by rewrite length_fmap |]. iIntros "Hx".
  do 2 wp_step. simpl. iApply "HQ". iExists ks, ds. iSplit.
  - iPureIntro. rewrite !length_app /= in Hl1 |- *. rewrite length_replicate. lia.
  - rewrite !fmap_app !fmap_cons -!app_assoc /= -(replicate_add _ (length ks)).
    change (NULL :: replicate (length ks) NULL) with (replicate (S (length ks)) NULL). rewrite -replicate_add.
    replace (length (k1 ++ (k, (v, a)) :: k2) + length ks)%nat with (length (k1 ++ k2) + S (length ks))%nat; [done |].
    rewrite !length_app /=. lia.
Qed.

Section members.
Context (s : loc) (nv L R mb : Z).
Abbreviation tree rp := (s ↦ Gsat nv L R leaf_size mb rp)%I.

Lemma wp_assign c p p' rp t' Q :
  (∃ lo hi n, gctx_wf slots c.*2 lo hi n L R) →
  tree rp -∗ gpath_at c p rp -∗ gt_at p' t' -∗ (∀ rp', tree rp' -∗ gt_at rp' (gplug c.*2 t') -∗ Q ()) -∗
  wp (Gs.assign (Some s) (slot_of c) p') Q.
Proof.
  iIntros ((lo & hi & n & Hc)) "Hs Hc Ht HQ". destruct c as [|[y f] c]; simpl.
  - wp_step. iApply ("HQ" with "Hs Ht").
  - iDestruct "Hc" as (q1 q2) "(Hy & H1 & H2 & Hc)". iDestruct (gkids_length with "H1") as %Hl.
    destruct Hc as (L' & R' & Hf & _). apply gframe_wf_length in Hf as [Hl' _]. simpl in Hl'.
    iApply (wp_gset_child with "Hy"); [by rewrite Hl Hl' |]. iIntros "Hy". iApply ("HQ" with "Hs").
    iApply (gplug_at with "Hc"). iApply (gframe_at with "Hy H1 H2 Ht").
Qed.

Definition rooted (m : gmap Z Z) (t : gtr) : Prop := gwf slots L R t ∧ t ≠ GNil ∧ gdict m (gelems t).

Lemma wp_finish m c p rp t rb r Q :
  settled m c.*2 L R t → rb_node rb c p t →
  tree rp -∗ gpath_at c p rp -∗ gt_at p t -∗
  (∀ rp' t', ⌜rooted m t'⌝ → tree rp' -∗ gt_at rp' t' -∗ Q r) -∗
  wp (Gs.finish (Some s) rb r) Q.
Proof.
  iIntros ((Hne & Hd & lo & hi & n & Hc & Ht & Hn) Hrb) "Hs Hc Ht HQ". destruct rb as [r'|]; simpl; last first.
  { wp_step. iApply ("HQ" $! rp (gplug c.*2 t) with "[%] Hs"); [|by iApply (gplug_at with "Hc")].
    split_and!; [by eapply gctx_plug | done | done]. }
  destruct Hrb as (c1 & c2 & -> & -> & Hne1). rewrite fmap_app in Hc, Hd, Hne.
  apply gctx_wf_app in Hc as (n' & L' & R' & Hc1 & Hc2 & Hsz).
  iDestruct (gpath_at_split with "Hc") as "[Hp1 Hp2]". iDestruct (gplug_at with "Hp1 Ht") as "Ht".
  rewrite gplug_app (gelems_plug _ _ _ _ _ _ _ _ Hc2) in Hd, Hne.
  pose proof (gctx_plug _ _ _ _ _ _ _ _ Hc1 Ht Hn) as Ht1. apply Hsz in Hn. revert Hd Hne Hn Ht1 Hne1.
  generalize (gplug c1.*2 t). intros t1 Hd Hne Hn Ht1 Hne1. destruct t1 as [|b cap kvs cs]; [done |].
  iAssert (∃ x, <affine> ⌜gtop c1 p = Some x⌝ ∗ gt_at (Some x) (GN b cap kvs cs))%I with "[Ht]" as (x ->) "Ht".
  { rewrite gt_at_GN. iDestruct "Ht" as (x ptrs ->) "Ht". iExists x. iSplit; [done |]. rewrite gt_at_GN.
    iExists x, ptrs. by iFrame. }
  iAssert (⌜Some x = rp ↔ c2 = []⌝)%I as %Hx.
  { iSplit; [iIntros (<-); by iApply (gpath_at_self with "Hp2 Ht") | iIntros (->)]. by iDestruct "Hp2" as %->. }
  iApply wp_bind. iApply (wp_RebuildTree with "Hs Ht"); [done | done | | |].
  - destruct Hd as (_ & [_ [Hnz _]%Forall_app]%Forall_app & _). eapply Forall_impl; [exact Hnz | by intros e []].
  - intros ->%Hx. by destruct Hc2.
  - iIntros (t' p' (Ht' & Hel & Hnil)) "Hs Ht". iApply wp_bind.
    iApply (wp_assign with "Hs Hp2 Ht"); [by exists L', R', n' |]. iIntros (rp') "Hs Ht". wp_step.
    iApply ("HQ" with "[%] Hs Ht"). split_and!.
    + eapply gctx_plug; [done | done |]. rewrite Hel. etrans; [|done]. apply sublist_length.
      destruct (clears _ _); [apply filter_sublist | done].
    + destruct c2 as [|yf c2]; [|apply gplug_cons]. by apply Hnil, Hx.
    + rewrite (gelems_plug _ _ _ _ _ _ _ _ Hc2) Hel. by apply gdict_cleared.
Qed.

(** ** The descent *)

(** A visit of a node, the search in it and the test whether it has the key. *)
Lemma wp_probe {B} (K : rebuild → Z → bool → M B) k c lo hi d x b cap kvs cs ptrs rb Q :
  gsearching k c.*2 lo hi d L R (GN b cap kvs cs) → rb_above rb c →
  gnode x b cap kvs ptrs -∗ gkids ptrs cs -∗
  (∀ rb', ⌜rb_ok rb' c (Some x)⌝ →
     (∀ k1 v a k2, ⌜kvs = k1 ++ (k, (v, a)) :: k2⌝ →
        gnode x (bump b) cap (k1 ++ (k, (v, a)) :: k2) ptrs -∗ gkids ptrs cs -∗
        wp (K rb' (Z.of_nat (length k1)) true) Q) ∧
     (∀ k1 k2 q1 q q2 c1 t c2,
        ⌜kvs = k1 ++ k2 ∧ cs = c1 ++ t :: c2 ∧ length q1 = length k1 ∧ length c1 = length k1 ∧ length c2 = length k2 ∧
          keys_below (strip k1) k ∧ keys_above (strip k2) k⌝ →
        gnode x (bump b) cap (k1 ++ k2) (q1 ++ q :: q2) -∗ gkids q1 c1 -∗ gt_at q t -∗ gkids q2 c2 -∗
        wp (K rb' (Z.of_nat (length k1)) false) Q)) -∗
  wp (rb ← Gs.visit (Some x) (slot_of c) rb; index ← Gs.Search (Some x) k;
      found ← Gs.KEY_FOUND (Some x) index k; K rb index found) Q.
Proof.
  iIntros ((_ & Ht & Ho & _) Hrb) "Hx Hk HQ". iApply wp_bind. iApply (wp_gvisit with "Hx"); [done |].
  iIntros (rb' Hrb') "Hx". iSpecialize ("HQ" with "[//]"). apply gwf_GN in Ht as ((_ & _ & Hsz & _) & _ & Hkw).
  pose proof (kids_wf_length _ _ _ _ _ Hkw) as Hl. pose proof (gordered_node _ _ _ _ Ho Hl) as Hok.
  iApply wp_bind. iApply (Search_law with "Hx"); [done | done |]. iIntros (k1 k2 [-> Hpos]) "Hx".
  iApply wp_bind. iApply (wp_KEY_FOUND with "Hx"); [done | done |]. iIntros "Hx".
  destruct (match k2 with (a, _) :: _ => a =? k | [] => false end) eqn:Hfound.
  - destruct k2 as [|[a' [v a]] k2]; [done |]. apply Z.eqb_eq in Hfound as ->.
    iDestruct "HQ" as "[HQ _]". by iApply ("HQ" with "[//] Hx Hk").
  - iDestruct "HQ" as "[_ HQ]". rewrite strip_app in Hok.
    iDestruct (gt_at_frame k1 k2 with "Hk") as (q1 q q2 c1 t c2 (-> & -> & Hq1 & Hc1 & Hc2)) "(H1 & H & H2)"; [done |].
    iApply ("HQ" with "[%] Hx H1 H H2"). split_and!; [done.. | apply Hpos |].
    apply (position_absent k (strip k1)); [done.. |]. by destruct k2 as [|[? [??]] ?].
Qed.

(** [FindStep] and [DeleteStep] differ in what they do with a key they find. *)
Definition descend (F : ptr → Z → rebuild → M (state + (Z * rebuild))) (k : Z) (st : state) :
    M (state + (Z * rebuild)) :=
  let '(node, node_at, rb) := st in
  if node == NULL then nv ← Some s ~> Gs.no_value_; break (nv, rb)
  else
    rb ← Gs.visit node node_at rb;
    index ← Gs.Search node k;
    found ← Gs.KEY_FOUND node index k;
    if (found : bool) then F node index rb
    else c ← aget node Gs.children index; continue (c, Gs.ChildSlot node index, rb).

(** What happens to the pair of a key that is found, when [m] becomes [m']. *)
Definition touches (m m' : gmap Z Z) (k : Z) (rp : ptr) (F : ptr → Z → rebuild → M (state + (Z * rebuild))) : Prop :=
  ∀ x b cap k1 v a k2 ptrs rb Q, m !! k = (if a >? 0 then Some v else None) → a ≠ 0 →
    tree rp -∗ gnode x b cap (k1 ++ (k, (v, a)) :: k2) ptrs -∗
    (∀ v' a', ⌜a' ≠ 0 ∧ (v' = v ∨ pair_ok k v') ∧ m' = if a' >? 0 then <[k := v']> m else delete k m⌝ → tree rp -∗
       gnode x b cap (k1 ++ (k, (v', a')) :: k2) ptrs -∗ Q (inr (value_or nv m k, rb))) -∗
    wp (F (Some x) (Z.of_nat (length k1)) rb) Q.

(** Where an operation ends before it rebuilds. *)
Definition arrived (m : gmap Z Z) (rp : ptr) (rb : rebuild) : hprop :=
  (∃ c p t, <affine> ⌜settled m c.*2 L R t ∧ rb_node rb c p t⌝ ∗ tree rp ∗ gpath_at c p rp ∗ gt_at p t)%I.

Lemma settled_here m k c lo hi d t :
  gsearching k c lo hi d L R t → gplug c t ≠ GNil → gdict m (gelems (gplug c t)) → settled m c L R t.
Proof.
  intros (Hc & Ht & _) Hne Hd. do 2 (split; [done |]). exists lo, hi. eexists. split_and!; [done | done | lia].
Qed.

Lemma gelems_plug_eq c t1 t2 lo hi n :
  gctx_wf slots c lo hi n L R → gelems t1 = gelems t2 → gelems (gplug c t1) = gelems (gplug c t2).
Proof. intros Hc He. by rewrite !(gelems_plug _ _ _ _ _ _ _ _ Hc) He. Qed.

Lemma gsearching_bump k c lo hi d b cap kvs cs :
  gsearching k c lo hi d L R (GN b cap kvs cs) → gsearching k c lo hi d L R (GN (bump b) cap kvs cs).
Proof. intros (Hc & Ht & Ho & Hb & Ha). by split_and!. Qed.

Lemma gsearching_absent m k c lo hi d :
  gsearching k c lo hi d L R GNil → gdict m (gelems (gplug c GNil)) → m !! k = None.
Proof.
  intros (Hc & _ & _ & Hb & Ha) Hd. rewrite (gelems_plug _ _ _ _ _ _ _ _ Hc) in Hd. by eapply gdict_absent.
Qed.

(** The pairs around a child. *)
Lemma gelems_plug_child c lo hi n b b' cap k1 k2 c1 t c2 :
  gctx_wf slots c lo hi n L R → length c1 = length k1 →
  let f := GF b' cap k1 c1 k2 c2 in
  gelems (gplug c (GN b cap (k1 ++ k2) (c1 ++ t :: c2))) = gctx_l (f :: c) ++ gelems t ++ gctx_r (f :: c).
Proof.
  intros Hc Hl f. change (GN _ _ _ _) with (gplug_frame (GF b cap k1 c1 k2 c2) t).
  by rewrite (gelems_plug _ _ _ _ _ _ _ _ Hc) gelems_plug_frame // -!app_assoc.
Qed.

#[local] Instance leaf_room_dec b cap kvs : Decision (leaf_room slots b cap kvs).
Proof. apply _. Defined.

Lemma wp_descendLoop F m m' k fuel c p rp t lo hi rb Q :
  touches m m' k rp F → (m !! k = None → m' = m) → (gnodes t < fuel)%nat →
  gsearching k c.*2 lo hi 0 L R t → gplug c.*2 t ≠ GNil → gdict m (gelems (gplug c.*2 t)) → rb_above rb c →
  tree rp -∗ gpath_at c p rp -∗ gt_at p t -∗
  (∀ rb', arrived m' rp rb' -∗ Q (value_or nv m k, rb')) -∗
  wp (iter fuel (descend F k) (p, slot_of c, rb)) Q.
Proof.
  iIntros (HF Hm' Hf Hs Hne Hd Hrb) "Hs Hc Ht HQ".
  iInduction fuel as [|fuel IH] forall (c p t lo hi rb Hf Hs Hne Hd Hrb); [lia |].
  iApply wp_iter_S. iEval (rewrite {1}/descend).
  destruct t as [|b cap kvs cs].
  { rewrite gt_at_GNil. iDestruct "Ht" as %->. rewrite (bool_decide_true (NULL = NULL)) //. do 2 wp_step.
    pose proof (gsearching_absent _ _ _ _ _ _ Hs Hd) as Hk. rewrite /value_or Hk Hm' //. iApply "HQ".
    iExists c, NULL, GNil. iFrame "Hs Hc". rewrite gt_at_GNil. iSplit; [|done].
    iPureIntro. split; [by eapply settled_here | by apply rb_above_node]. }
  iEval (rewrite gt_at_GN) in "Ht". iDestruct "Ht" as (x ptrs ->) "[Hx Hk]".
  rewrite (bool_decide_false (Some x = NULL)) //. iApply (wp_probe with "Hx Hk"); [done | done |].
  iIntros (rb' Hrb'). iSplit.
  - iIntros (k1 v a k2 ->) "Hx Hk". destruct (settled_found m k c.*2 lo hi 0 L R b cap k1 v a k2 cs v 1 Hs Hd) as (Hk & Ha & _); [done | by left |].
    iApply (HF with "Hs Hx"); [done | done |]. iIntros (v' a' (Ha' & Hv' & ->)) "Hs Hx". iApply "HQ".
    iExists c, (Some x), (GN (bump b) cap (k1 ++ (k, (v', a')) :: k2) cs). iFrame "Hs Hc". iSplit.
    + iPureIntro. split; [|by apply rb_ok_node]. by eapply settled_found.
    + rewrite gt_at_GN. iExists x, ptrs. by iFrame.
  - iIntros (k1 k2 q1 q q2 c1 t c2 (-> & -> & Hq1 & Hc1 & Hc2 & Hb & Ha)) "Hx H1 Ht H2".
    iApply wp_bind. iApply (wp_gchild with "Hx"); [by rewrite Hq1 |]. iIntros "Hx". wp_step.
    pose proof Hs as (Hcw & Hwf & _). apply gwf_GN in Hwf as ((_ & _ & _ & Has) & Hroom & _).
    destruct (gsearching_child k c.*2 lo hi 0 L R b cap k1 k2 c1 t c2 Hs Hc1 Has Hb Ha) as (_ & Hbl & Hab & Hchild).
    destruct (decide (leaf_room slots b cap (k1 ++ k2))) as [Hr|Hnr].
    + apply Hroom in Hr as [_ [<- _]%Forall_cons]%Forall_app. rewrite gt_at_GNil. iDestruct "Ht" as %->.
      destruct fuel as [|fuel]; [simpl in Hf; lia |]. iApply wp_iter_S. iEval (rewrite {1}/descend).
      rewrite (bool_decide_true (NULL = NULL)) //. do 2 wp_step. rewrite (gelems_plug_child _ _ _ _ _ (bump b) _ _ _ _ _ _ Hcw) // in Hd.
      rewrite /value_or (gdict_absent _ _ _ _ Hd Hbl Hab) Hm'; [|by eapply gdict_absent]. iApply "HQ".
      iExists c, (Some x), (GN (bump b) cap (k1 ++ k2) (c1 ++ GNil :: c2)). iFrame "Hs Hc". iSplit.
      * iPureIntro. split; [|by apply rb_ok_node]. eapply settled_here; [by apply gsearching_bump | by apply gplug_nil |].
        by rewrite (gelems_plug_child _ _ _ _ _ (bump b) _ _ _ _ _ _ Hcw).
      * iApply (gframe_at x (GF (bump b) cap k1 c1 k2 c2) with "Hx H1 H2"). by rewrite gt_at_GNil.
    + destruct (Hchild Hnr) as (lo' & hi' & Hs').
      iApply ("IH" $! ((x, GF (bump b) cap k1 c1 k2 c2) :: c) q t lo' hi' with "[%] [%] [%] [%] [%] Hs [Hx H1 H2 Hc] Ht HQ").
      * simpl in Hf. pose proof (gnodes_child c1 t c2). lia.
      * done.
      * apply (gplug_cons c).
      * rewrite fmap_cons. change (gdict m (gelems (gplug c.*2 (GN (bump b) cap (k1 ++ k2) (c1 ++ t :: c2))))).
        by rewrite (gelems_plug_eq _ _ (GN b cap (k1 ++ k2) (c1 ++ t :: c2)) _ _ _ Hcw).
      * by apply rb_ok_above.
      * iExists q1, q2. iFrame.
Qed.

(** ** Find and Delete *)

(** The tree object and its nodes stand for [m]. *)
Definition gs_set (m : gmap Z Z) : hprop := (∃ rp t, <affine> ⌜rooted m t⌝ ∗ tree rp ∗ gt_at rp t)%I.

Lemma wp_arrived_finish m rp rb r Q :
  arrived m rp rb -∗ (gs_set m -∗ Q r) -∗ wp (Gs.finish (Some s) rb r) Q.
Proof.
  iIntros "(%c & %p & %t & [%Hs %Hrb] & Hs & Hc & Ht) HQ". iApply (wp_finish with "Hs Hc Ht"); [done | done |].
  iIntros (rp' t' Hr) "Hs Ht". iApply "HQ". iExists rp', t'. by iFrame.
Qed.

Lemma rooted_searching m t k d :
  rooted m t → gsearching k [] L R d L R t ∧ gplug [] t ≠ GNil ∧ gdict m (gelems (gplug [] t)).
Proof. intros (Ht & Hne & Hd). split; [|done]. split_and!; [done.. | apply Hd | constructor | constructor]. Qed.

Lemma wp_lookup F m m' k Q :
  (∀ rp, touches m m' k rp F) → (m !! k = None → m' = m) →
  gs_set m -∗ (gs_set m' -∗ Q (value_or nv m k)) -∗
  wp (r ← Some s ~> Gs.root_; assert_ (r != NULL);;
      '(result, rb) ← loop (descend F k) (r, Gs.RootSlot, None);
      Gs.finish (Some s) rb result) Q.
Proof.
  iIntros (HF Hm') "(%rp & %t & %Hr & Hs & Ht) HQ". destruct (rooted_searching m t k 0 Hr) as (Hsr & Hne & Hd).
  wp_step. iDestruct (gt_at_null with "Ht") as %Hnull. iApply wp_bind. iApply wp_assert.
  { apply negb_true_iff, bool_decide_eq_false. intros ->%Hnull. by destruct Hr as (_ & ? & _). }
  iApply wp_bind. iApply (wp_loop (gnodes t)). iSplit; [iApply (gt_at_nodes with "Ht") |]. iIntros (fuel Hf).
  iApply (wp_descendLoop F m m' k fuel [] rp rp t with "Hs [//] Ht"); [done.. |]. iIntros (rb') "H".
  iApply (wp_arrived_finish with "H HQ").
Qed.

Definition FindFound (node : ptr) (index : Z) (rb : rebuild) : M (state + (Z * rebuild)) :=
  '(v, a) ← aget node Gs.value_data index;
  if a <? 0 then aset node Gs.value_data index (v, a - 1);; nv ← Some s ~> Gs.no_value_; break (nv, rb)
  else aset node Gs.value_data index (v, a + 1);; break (v, rb).
Definition DeleteFound (node : ptr) (index : Z) (rb : rebuild) : M (state + (Z * rebuild)) :=
  '(v, a) ← aget node Gs.value_data index;
  if a >? 0 then aset node Gs.value_data index (v, - a - 1);; break (v, rb)
  else aset node Gs.value_data index (v, a - 1);; nv ← Some s ~> Gs.no_value_; break (nv, rb).

Lemma gtb_pos a : 0 < a → (a >? 0) = true.
Proof. intros. by rewrite Z.gtb_ltb (proj2 (Z.ltb_lt _ _)). Qed.
Lemma gtb_neg a : a < 0 → (a >? 0) = false.
Proof. intros. rewrite Z.gtb_ltb (proj2 (Z.ltb_ge _ _)) //. lia. Qed.

Lemma FindFound_touches m k rp : touches m m k rp FindFound.
Proof.
  iIntros (x b cap k1 v a k2 ptrs rb Q Hk Ha) "Hs Hx HQ". rewrite /FindFound.
  iApply wp_bind. iApply (wp_gdata with "Hx"); [done |]. iIntros "Hx". rewrite /value_or.
  destruct (Z.ltb_spec a 0).
  - iApply wp_bind. iApply (wp_gset_data with "Hx"); [done |]. iIntros "Hx". do 2 wp_step.
    rewrite gtb_neg // in Hk. rewrite Hk. iApply ("HQ" with "[%] Hs Hx"). split; [lia |]. split; [by left |].
    rewrite gtb_neg; [|lia]. by rewrite delete_id.
  - iApply wp_bind. iApply (wp_gset_data with "Hx"); [done |]. iIntros "Hx". wp_step.
    rewrite gtb_pos in Hk; [|lia]. rewrite Hk. iApply ("HQ" with "[%] Hs Hx"). split; [lia |]. split; [by left |].
    rewrite gtb_pos; [|lia]. by rewrite insert_id.
Qed.

Lemma DeleteFound_touches m k rp : touches m (delete k m) k rp DeleteFound.
Proof.
  iIntros (x b cap k1 v a k2 ptrs rb Q Hk Ha) "Hs Hx HQ". rewrite /DeleteFound.
  iApply wp_bind. iApply (wp_gdata with "Hx"); [done |]. iIntros "Hx". rewrite /value_or Hk.
  destruct (a >? 0) eqn:Hpos; rewrite Z.gtb_ltb in Hpos; [apply Z.ltb_lt in Hpos | apply Z.ltb_ge in Hpos].
  - iApply wp_bind. iApply (wp_gset_data with "Hx"); [done |]. iIntros "Hx". wp_step.
    iApply ("HQ" with "[%] Hs Hx"). split; [lia |]. split; [by left |]. by rewrite gtb_neg; [|lia].
  - iApply wp_bind. iApply (wp_gset_data with "Hx"); [done |]. iIntros "Hx". do 2 wp_step.
    iApply ("HQ" with "[%] Hs Hx"). split; [lia |]. split; [by left |]. by rewrite gtb_neg; [|lia].
Qed.

Lemma wp_gs_Find m k Q : gs_set m -∗ (gs_set m -∗ Q (value_or nv m k)) -∗ wp (Gs.Find (Some s) k) Q.
Proof. apply (wp_lookup FindFound); [apply FindFound_touches | done]. Qed.

Lemma wp_gs_Delete m k Q : gs_set m -∗ (gs_set (delete k m) -∗ Q (value_or nv m k)) -∗ wp (Gs.Delete (Some s) k) Q.
Proof. apply (wp_lookup DeleteFound); [apply DeleteFound_touches | apply delete_id]. Qed.

Lemma wp_gs_Contains m k Q :
  gs_set m -∗ (gs_set m -∗ Q (negb (value_or nv m k =? nv))) -∗ wp (Gs.Contains (Some s) k) Q.
Proof.
  iIntros "Hs HQ". iApply wp_bind. iApply (wp_gs_Find with "Hs"). iIntros "(%rp & %t & %Hr & Hs & Ht)". do 2 wp_step.
  iApply "HQ". iExists rp, t. by iFrame.
Qed.

(** ** Insert *)

Definition new_leaf (l r k v : Z) : gtr := GN (GsatBase l r 1 1 true mb 1) leaf_size [(k, (v, 1))] [GNil; GNil].

Lemma new_leaf_wf l r k v : gwf slots l r (new_leaf l r k v).
Proof. apply gwf_GN. split; [by split_and! |]. split; [by repeat constructor |]. by repeat constructor. Qed.

Lemma wp_childLeft x b cap k1 k2 ptrs Q :
  gnode x b cap (k1 ++ k2) ptrs -∗
  (gnode x b cap (k1 ++ k2) ptrs -∗ Q (last_bound (gb_left b) k1.*1)) -∗
  wp (if Z.of_nat (length k1) =? 0 then Some x ~> Gs.nleft else aget (Some x) Gs.rep (Z.of_nat (length k1) - 1)) Q.
Proof.
  iIntros "Hx HQ". destruct k1 as [|[a d] k1 _] using rev_ind; [by iApply (wp_gget with "Hx") |].
  rewrite fmap_app last_bound_snoc length_app (proj2 (Z.eqb_neq _ _)); [|simpl; lia]. rewrite -app_assoc.
  iApply (wp_gkey with "Hx HQ"). simpl. lia.
Qed.

Lemma wp_childRight x b cap k1 k2 ptrs Q :
  gnode x b cap (k1 ++ k2) ptrs -∗
  (gnode x b cap (k1 ++ k2) ptrs -∗ Q (head_bound (gb_right b) k2.*1)) -∗
  wp (if Z.of_nat (length k1) =? Z.of_nat (length (k1 ++ k2)) then Some x ~> Gs.nright
      else aget (Some x) Gs.rep (Z.of_nat (length k1))) Q.
Proof.
  iIntros "Hx HQ". destruct k2 as [|[a d] k2].
  { rewrite app_nil_r Z.eqb_refl. by iApply (wp_gget with "Hx"). }
  rewrite length_app (proj2 (Z.eqb_neq _ _)); [|simpl; lia]. by iApply (wp_gkey with "Hx HQ").
Qed.

Lemma wp_insertChild rp x b cap k1 k2 q1 q q2 k v Q :
  gb_rep_size b = Z.of_nat (length (k1 ++ k2)) → length q1 = length k1 →
  tree rp -∗ gnode x b cap (k1 ++ k2) (q1 ++ q :: q2) -∗
  (∀ y, tree rp -∗ gnode x b cap (k1 ++ k2) (q1 ++ Some y :: q2) -∗
     gt_at (Some y) (new_leaf (last_bound (gb_left b) k1.*1) (head_bound (gb_right b) k2.*1) k v) -∗ Q ()) -∗
  wp (Gs.insertChild (Some s) (Some x) (Z.of_nat (length k1)) k v) Q.
Proof.
  iIntros (Hsz Hq) "Hs Hx HQ". rewrite /Gs.insertChild. iApply wp_bind. iApply (wp_childLeft with "Hx"). iIntros "Hx".
  iApply wp_bind. iApply (wp_gget with "Hx"). iIntros "Hx". rewrite Hsz.
  iApply wp_bind. iApply (wp_childRight with "Hx"). iIntros "Hx". do 2 wp_step. pose proof slots_leaf as Hslots.
  iApply wp_bind. iApply wp_gnewNode; [lia |]. iIntros (y) "Hy".
  iApply wp_bind. iApply (wp_INSERT y _ _ [] [] with "Hy"); [done | simpl; lia |]. iIntros "Hy". simpl.
  iApply wp_bind. iApply (wp_gget with "Hy"). iIntros "Hy". iApply wp_bind. iApply (wp_gput with "Hy"). iIntros "Hy".
  iApply wp_bind. iApply (wp_gget with "Hy"). iIntros "Hy". iApply wp_bind. iApply (wp_gput with "Hy"). iIntros "Hy".
  iApply (wp_gset_child with "Hx"); [by rewrite Hq |]. iIntros "Hx". iApply ("HQ" with "Hs Hx").
  rewrite /new_leaf gt_at_GN. iExists y, [NULL; NULL]. iSplit; [done |]. iFrame "Hy". simpl.
  rewrite gt_at_GNil. by iSplit; [|iSplit].
Qed.

(** A node with [total_asize] increased. *)
Definition tick (b : gsat_base) : gsat_base :=
  GsatBase b.(gb_left) b.(gb_right) b.(gb_rep_size) (b.(gb_total_asize) + 1) b.(gb_leaf) b.(gb_rebuild_bound) b.(gb_counter).

Lemma gsearching_tick k c lo hi d b cap kvs cs :
  gsearching k c lo hi d L R (GN b cap kvs cs) →
  gsearching k c lo hi d L R (GN (tick b) cap kvs cs) ∧
  Z.of_nat (1 + length (gelems (GN (tick b) cap kvs cs))) ≤ gb_total_asize (tick b).
Proof.
  intros (Hc & Ht & Ho & Hb & Ha). apply gwf_GN in Ht as ((H1 & H2 & H3 & H4) & Ht).
  change (gelems (GN (tick b) cap kvs cs)) with (gelems (GN b cap kvs cs)). split; [|simpl; lia].
  split_and!; try done. apply gwf_GN. split; [|done]. split_and!; try done. simpl.
  change (gelems (GN (tick b) cap kvs cs)) with (gelems (GN b cap kvs cs)). lia.
Qed.

Lemma nils cs n : Forall (GNil =.) cs → length cs = n → cs = replicate n GNil.
Proof. intros Hcs <-. induction Hcs as [|t cs <- _ IH]; simpl; [done | by rewrite -IH]. Qed.

Lemma gkids_nil_inv ptrs n : gkids ptrs (replicate n GNil) -∗ <affine> ⌜ptrs = replicate n NULL⌝.
Proof.
  iIntros "H". iInduction n as [|n IH] forall (ptrs); simpl.
  - by iDestruct (big_sepL2_nil_inv_r with "H") as %->.
  - iDestruct (big_sepL2_cons_inv_r with "H") as (q ptrs' ->) "[Hq H]". rewrite gt_at_GNil. iDestruct "Hq" as %->.
    iDestruct ("IH" with "H") as "He". by iDestruct "He" as %->.
Qed.

(** A pair that a leaf has room for. *)
Lemma settled_inserted m k v c lo hi b cap k1 k2 :
  let t := GN b cap (k1 ++ k2) (replicate (S (length (k1 ++ k2))) GNil) in
  gsearching k c lo hi 1 L R t → Z.of_nat (1 + length (gelems t)) ≤ gb_total_asize b →
  gdict m (gelems (gplug c t)) → keys_below (strip k1) k → keys_above (strip k2) k → pair_ok k v →
  m !! k = None ∧ settled (<[k := v]> m) c L R (GN (grow (bump b)) cap (k1 ++ (k, (v, 1)) :: k2)
    (replicate (S (length (k1 ++ (k, (v, 1)) :: k2))) GNil)).
Proof.
  intros t (Hc & Ht & Ho & Hb & Ha) Has Hd Hk1 Hk2 Hok. rewrite (gelems_plug _ _ _ _ _ _ _ _ Hc) in Hd. subst t.
  rewrite gelems_leaf in Hd, Has, Hc, Ho. rewrite -app_assoc app_assoc in Hd.
  assert (keys_below (strip (gctx_l c ++ k1)) k) as Hbl by (rewrite strip_app; by apply Forall_app).
  assert (keys_above (strip (k2 ++ gctx_r c)) k) as Hab by (rewrite strip_app; by apply Forall_app).
  split; [by eapply gdict_absent |]. split; [by apply gplug_nil |].
  rewrite (gelems_plug _ _ _ _ _ _ _ _ Hc) gelems_leaf -app_assoc app_assoc. split; [by apply gdict_new |].
  exists lo, hi. eexists. split; [done |]. rewrite !length_app /= in Has |- *. split; [|lia].
  apply gwf_GN in Ht as ((H1 & H2 & H3 & _) & _). apply gwf_GN.
  pose proof (gelems_leaf (grow (bump b)) cap (k1 ++ (k, (v, 1)) :: k2)) as Hel. rewrite length_app /= in Hel. rewrite Hel.
  split; [|split].
  - split_and!; try done; rewrite /= !length_app /= in H3 |- *; lia.
  - intros _. apply (Forall_replicate_eq (S _)).
  - apply (kids_wf_nil _ (S _)). rewrite length_bounds length_fmap length_app /=. lia.
Qed.

Definition InsertFound (v : Z) (node : ptr) (index : Z) (rb : rebuild) : M (state + (Z * rebuild)) :=
  '(w, a) ← aget node Gs.value_data index;
  if a <? 0 then aset node Gs.value_data index (v, - a + 1);; nv ← Some s ~> Gs.no_value_; break (nv, rb)
  else aset node Gs.value_data index (w, a + 1);; break (w, rb).

Lemma InsertFound_touches m k v rp : pair_ok k v → touches m (dict_insert k v m) k rp (InsertFound v).
Proof.
  intros Hok. iIntros (x b cap k1 w a k2 ptrs rb Q Hk Ha) "Hs Hx HQ". rewrite /InsertFound.
  iApply wp_bind. iApply (wp_gdata with "Hx"); [done |]. iIntros "Hx". rewrite /value_or /dict_insert.
  destruct (Z.ltb_spec a 0).
  - iApply wp_bind. iApply (wp_gset_data with "Hx"); [done |]. iIntros "Hx". do 2 wp_step.
    rewrite gtb_neg // in Hk. rewrite Hk. iApply ("HQ" with "[%] Hs Hx"). split; [lia |]. split; [by right |].
    by rewrite gtb_pos; [|lia].
  - iApply wp_bind. iApply (wp_gset_data with "Hx"); [done |]. iIntros "Hx". wp_step.
    rewrite gtb_pos in Hk; [|lia]. rewrite Hk. iApply ("HQ" with "[%] Hs Hx"). split; [lia |]. split; [by left |].
    rewrite gtb_pos; [|lia]. by rewrite insert_id.
Qed.

(** The end of the descent: a key in a leaf with room, or a new child. *)
Definition InsertAbsent (k v : Z) (node : ptr) (index : Z) (rb : rebuild) : M (state + (Z * rebuild)) :=
  is_leaf ← node ~> Gs.leaf;
  room ← (if (is_leaf : bool) then n ← node ~> Gs.rep_size; cap ← Gs.GetCapacity node; mret (n <? cap) else mret false);
  (if (room : bool) then Gs.INSERT node index k v 1 else Gs.insertChild (Some s) node index k v);;
  nv ← Some s ~> Gs.no_value_;
  break (nv, rb).

Lemma wp_room x b cap kvs ptrs Q :
  gb_rep_size b = Z.of_nat (length kvs) →
  gnode x b cap kvs ptrs -∗
  (gnode x b cap kvs ptrs -∗ Q (bool_decide (leaf_room slots b cap kvs))) -∗
  wp (if gb_leaf b then n ← Some x ~> Gs.rep_size; cap ← Gs.GetCapacity (Some x); mret (n <? cap) else mret false) Q.
Proof.
  iIntros (Hsz) "Hx HQ". destruct (gb_leaf b) eqn:Hlf.
  - iApply wp_bind. iApply (wp_gget with "Hx"). iIntros "Hx". iApply wp_bind. iApply (GetCapacity_law with "Hx").
    iIntros "Hx". wp_step. rewrite Hsz. replace (_ <? _) with (bool_decide (leaf_room slots b cap kvs)); [by iApply "HQ" |].
    destruct (Z.ltb_spec (Z.of_nat (length kvs)) (slots cap)); [by apply bool_decide_true |].
    apply bool_decide_false. intros [_ ?]. lia.
  - wp_step. rewrite (bool_decide_false (leaf_room _ _ _ _)); [by iApply "HQ" |]. by intros [? _]; congruence.
Qed.

Lemma wp_InsertAbsent m k v c lo hi rp x b cap k1 k2 c1 c2 q1 q2 rb Q :
  let t := GN b cap (k1 ++ k2) (c1 ++ GNil :: c2) in
  gsearching k c.*2 lo hi 1 L R t → Z.of_nat (1 + length (gelems t)) ≤ gb_total_asize b →
  gdict m (gelems (gplug c.*2 t)) → keys_below (strip k1) k → keys_above (strip k2) k → pair_ok k v →
  length q1 = length k1 → length c1 = length k1 → rb_ok rb c (Some x) →
  tree rp -∗ gpath_at c (Some x) rp -∗ gnode x (bump b) cap (k1 ++ k2) (q1 ++ NULL :: q2) -∗ gkids q1 c1 -∗ gkids q2 c2 -∗
  (arrived (dict_insert k v m) rp rb -∗ Q (inr (value_or nv m k, rb))) -∗
  wp (InsertAbsent k v (Some x) (Z.of_nat (length k1)) rb) Q.
Proof.
  iIntros (t Hs Has Hd Hk1 Hk2 Hok Hq1 Hc1 Hrb) "Hs Hc Hx H1 H2 HQ". rewrite /InsertAbsent.
  iApply wp_bind. iApply (wp_gget with "Hx"). iIntros "Hx".
  pose proof Hs as (Hcw & Hwf & _). apply gwf_GN in Hwf as ((_ & _ & Hsz & _) & Hroom & Hkw).
  pose proof (kids_wf_length _ _ _ _ _ Hkw) as Hl.
  destruct (gsearching_child k c.*2 lo hi 1 L R b cap k1 k2 c1 GNil c2 Hs Hc1 Has Hk1 Hk2) as (_ & Hbl & Hab & Hchild).
  iApply wp_bind. iApply (wp_room with "Hx"); [done |]. iIntros "Hx". iApply wp_bind.
  change (leaf_room slots (bump b)) with (leaf_room slots b). case_bool_decide as Hr.
  - apply Hroom in Hr as Hnils. pose proof (nils _ _ Hnils Hl) as Hcs. subst t. rewrite Hcs in Hs, Has, Hd.
    iAssert (gkids (q1 ++ NULL :: q2) (c1 ++ GNil :: c2)) with "[H1 H2]" as "Hk".
    { iApply (big_sepL2_app with "H1"). simpl. rewrite gt_at_GNil. by iFrame. }
    rewrite Hcs. iDestruct (gkids_nil_inv with "Hk") as "Hk". iDestruct "Hk" as %->.
    iApply (wp_INSERT with "Hx"); [done | apply Hr |]. iIntros "Hx". do 2 wp_step.
    destruct (settled_inserted m k v _ _ _ _ _ _ _ Hs Has Hd Hk1 Hk2 Hok) as [Hk Hset].
    rewrite /value_or /dict_insert Hk. iApply "HQ". iExists c, (Some x), _. iFrame "Hs Hc". iSplit.
    + iPureIntro. split; [exact Hset | by apply rb_ok_node].
    + rewrite gt_at_GN. iExists x, _. iFrame "Hx". iSplit; [done |]. iApply (gkids_nil (S _)).
  - destruct (Hchild Hr) as (lo' & hi' & Hs'). iApply (wp_insertChild with "Hs Hx"); [done | done |].
    iIntros (y) "Hs Hx Hy". do 2 wp_step. subst t.
    rewrite (gelems_plug_child _ _ _ _ _ (bump b) _ _ _ _ _ _ Hcw) // in Hd.
    pose proof (gdict_absent _ _ _ _ Hd Hbl Hab) as Hk. rewrite /value_or /dict_insert Hk. iApply "HQ".
    iExists ((x, GF (bump b) cap k1 c1 k2 c2) :: c), (Some y), _. iFrame "Hs Hy". iSplit.
    + iPureIntro. split; [|by apply rb_above_node, rb_ok_above]. split; [apply (gplug_cons c) |].
      destruct Hs' as (Hcw' & _). split.
      * rewrite fmap_cons (gelems_plug _ _ _ _ _ _ _ _ Hcw'). by apply gdict_new.
      * exists lo', hi', 1%nat. split; [done |].
        destruct Hcw' as (L' & R' & ((HL & HR & _) & _ & -> & -> & _) & _). simpl in *. subst.
        split; [apply new_leaf_wf | done].
    + iExists q1, q2. iFrame.
Qed.

Definition InsertProbe (k v : Z) (node : ptr) (rb : rebuild) (index : Z) (found : bool) : M (state + (Z * rebuild)) :=
  if found then InsertFound v node index rb
  else
    c ← aget node Gs.children index;
    if c == NULL then InsertAbsent k v node index rb
    else c ← aget node Gs.children index; continue (c, Gs.ChildSlot node index, rb).

Lemma InsertStep_eq k v node node_at rb :
  Gs.InsertStep (Some s) k v (node, node_at, rb) =
  (x ← node ~> Gs.total_asize; node ~> Gs.total_asize ::= x + 1;;
   rb ← Gs.visit node node_at rb; index ← Gs.Search node k;
   found ← Gs.KEY_FOUND node index k; InsertProbe k v node rb index found).
Proof. done. Qed.

Lemma wp_InsertLoop m k v fuel c p rp t lo hi rb Q :
  (gnodes t < fuel)%nat → t ≠ GNil →
  gsearching k c.*2 lo hi 1 L R t → gdict m (gelems (gplug c.*2 t)) → rb_above rb c → pair_ok k v →
  tree rp -∗ gpath_at c p rp -∗ gt_at p t -∗
  (∀ rb', arrived (dict_insert k v m) rp rb' -∗ Q (value_or nv m k, rb')) -∗
  wp (iter fuel (Gs.InsertStep (Some s) k v) (p, slot_of c, rb)) Q.
Proof.
  iIntros (Hf Hne Hs Hd Hrb Hok) "Hs Hc Ht HQ".
  iInduction fuel as [|fuel IH] forall (c p t lo hi rb Hf Hne Hs Hd Hrb); [lia |]. iApply wp_iter_S.
  destruct t as [|b cap kvs cs]; [done |]. iEval (rewrite gt_at_GN) in "Ht". iDestruct "Ht" as (x ptrs ->) "[Hx Hk]".
  rewrite InsertStep_eq. iApply wp_bind. iApply (wp_gget with "Hx"). iIntros "Hx".
  iApply wp_bind. iApply (wp_gput with "Hx"). iIntros "Hx". change (gnode x _ cap) with (gnode x (tick b) cap).
  apply gsearching_tick in Hs as [Hs Has]. pose proof Hs as (Hcw & Hwf & _).
  rewrite (gelems_plug_eq _ _ (GN (tick b) cap kvs cs) _ _ _ Hcw) // in Hd.
  iApply (wp_probe with "Hx Hk"); [done | done |]. iIntros (rb' Hrb'). iSplit.
  - iIntros (k1 w a k2 ->) "Hx Hk".
    destruct (settled_found m k c.*2 lo hi 1 L R _ cap k1 w a k2 cs w 1 Hs Hd) as (Hk & Ha & _); [done | by left |].
    iApply (InsertFound_touches with "Hs Hx"); [done.. |]. iIntros (v' a' (Ha' & Hv' & ->)) "Hs Hx". iApply "HQ".
    iExists c, (Some x), (GN (bump (tick b)) cap (k1 ++ (k, (v', a')) :: k2) cs). iFrame "Hs Hc". iSplit.
    + iPureIntro. split; [|by apply rb_ok_node]. by eapply settled_found.
    + rewrite gt_at_GN. iExists x, ptrs. by iFrame.
  - iIntros (k1 k2 q1 q q2 c1 t c2 (-> & -> & Hq1 & Hc1 & Hc2 & Hb & Ha)) "Hx H1 Ht H2".
    iApply wp_bind. iApply (wp_gchild with "Hx"); [by rewrite Hq1 |]. iIntros "Hx".
    iDestruct (gt_at_null with "Ht") as %Hnull. destruct (decide (q = NULL)) as [->|Hq].
    + rewrite (proj1 Hnull eq_refl) in Hs, Has, Hd |- *. rewrite (bool_decide_true (NULL = NULL)) //.
      rewrite gt_at_GNil. iDestruct "Ht" as "_". iApply (wp_InsertAbsent with "Hs Hc Hx H1 H2"); [done.. |].
      iIntros "H". by iApply "HQ".
    + rewrite (bool_decide_false (q = NULL)) //. iApply wp_bind.
      iApply (wp_gchild with "Hx"); [by rewrite Hq1 |]. iIntros "Hx". wp_step.
      apply gwf_GN in Hwf as (_ & Hroom & _).
      assert (¬ leaf_room slots (tick b) cap (k1 ++ k2)) as Hnr.
      { intros Hr. apply Hq, Hnull. by apply Hroom in Hr as [_ [<- _]%Forall_cons]%Forall_app. }
      destruct (gsearching_child k c.*2 lo hi 1 L R _ cap k1 k2 c1 t c2 Hs Hc1 Has Hb Ha) as (_ & _ & _ & Hchild).
      destruct (Hchild Hnr) as (lo' & hi' & Hs').
      iApply ("IH" $! ((x, GF (bump (tick b)) cap k1 c1 k2 c2) :: c) q t lo' hi' with "[%] [%] [%] [%] [%] Hs [Hx H1 H2 Hc] Ht HQ").
      * simpl in Hf. pose proof (gnodes_child c1 t c2). lia.
      * by intros ->%Hnull.
      * done.
      * rewrite fmap_cons. change (gdict m (gelems (gplug c.*2 (GN (bump (tick b)) cap (k1 ++ k2) (c1 ++ t :: c2))))).
        by rewrite (gelems_plug_eq _ _ (GN (tick b) cap (k1 ++ k2) (c1 ++ t :: c2)) _ _ _ Hcw).
      * by apply rb_ok_above.
      * iExists q1, q2. iFrame.
Qed.

Lemma wp_gs_Insert m k v Q :
  L ≤ k < R → pair_ok k v → gs_set m -∗ (gs_set (dict_insert k v m) -∗ Q (value_or nv m k)) -∗ wp (Gs.Insert (Some s) k v) Q.
Proof.
  iIntros (Hk Hok) "(%rp & %t & %Hr & Hs & Ht) HQ". destruct (rooted_searching m t k 1 Hr) as (Hsr & Hne & Hd).
  destruct Hr as (Hwf & Hnil & _). destruct t as [|b cap kvs cs]; [done |]. rewrite /Gs.Insert. wp_step.
  apply gwf_GN in Hwf as ((HL & HR & _) & _).
  iAssert (⌜∃ x, rp = Some x⌝)%I as %[x ->].
  { iEval (rewrite gt_at_GN) in "Ht". iDestruct "Ht" as (x ptrs ->) "_". iPureIntro. by exists x. }
  iApply wp_bind. iApply wp_assert; [done |].
  iApply wp_bind. iApply (wp_gt_get with "Ht"). iIntros "Ht". iApply wp_bind. iApply (wp_gt_get with "Ht"). iIntros "Ht".
  rewrite HL HR. iApply wp_bind. iApply wp_assert.
  { by rewrite (proj2 (Z.leb_le L k)) ?(proj2 (Z.ltb_lt k R)); [|lia..]. }
  iApply wp_bind. iApply (wp_loop (gnodes (GN b cap kvs cs))). iSplit; [iApply (gt_at_nodes with "Ht") |].
  iIntros (fuel Hf). iApply (wp_InsertLoop m k v fuel [] (Some x) (Some x) with "Hs [//] Ht"); [done.. |].
  iIntros (rb') "H". iApply (wp_arrived_finish with "H HQ").
Qed.

(** ** The destructor *)

Lemma wp_gs_delete_tree m Q : gs_set m -∗ Q () -∗ wp (Gs.deleteTree (Some s)) Q.
Proof.
  iIntros "(%rp & %t & (%Hwf & _) & Hs & Ht) HQ". rewrite /Gs.deleteTree. iApply wp_bind.
  iApply (wp_with_fuel (gnodes t)). iSplit; [iApply (gt_at_nodes with "Ht") |]. iIntros (fuel Hf). wp_step.
  iApply (wp_deleteNode with "Ht"); [done | done |]. by wp_step.
Qed.
End members.

(** ** The constructor *)

Lemma wp_gs_new nv L R mb Q :
  L < R → 1 < mb → (∀ s, gs_set s nv L R mb ∅ -∗ Q (Some s)) -∗ wp (Gs.newTree nv L R leaf_size mb) Q.
Proof.
  iIntros (HLR Hmb) "HQ". rewrite /Gs.newTree. pose proof slots_leaf. iApply wp_bind. iApply wp_gnewNode; [lia |].
  iIntros (x) "Hx". iApply wp_bind. iApply wp_new. iIntros (s) "Hs".
  rewrite (proj2 (Z.ltb_lt L R)) // !Z.gtb_ltb (proj2 (Z.ltb_lt 0 leaf_size)) // (proj2 (Z.ltb_lt 1 mb)) //=. wp_step.
  iApply "HQ". iExists (Some x), (empty_node L R mb). iFrame "Hs". iSplit; [|by iApply empty_node_at].
  iPureIntro. split; [apply empty_node_wf |]. split; [done |]. split_and!; [constructor | constructor | done].
Qed.
End tree.
