(* ===== verification/GsatCheck.v ===== *)
(** * GsatCheck: the self-check of the self-adjusting trees *)
From S2P Require Import Prelude Memory SepLogic Arrays OrderedSet BinTree BTreeSpec BTreeProof GsatMap.
From S2P Require Import GsatModel GsatSpec GsatProof GsatBuild GsatTree.
#[local] Open Scope Z_scope.
#[local] Open Scope cpp_scope.

(** ** What [Validate] computes *)

Definition gvalues_ok (nv : Z) (es : list gkv) : Prop := Forall (λ e, e.2.1 ≠ nv) es.
#[global] Instance gvalues_ok_dec nv es : Decision (gvalues_ok nv es).
Proof. apply _. Defined.

(** The number of live pairs, added to [total]; nothing if a value is reserved. *)
Definition counted (nv total : Z) (es : list gkv) : option Z :=
  if decide (gvalues_ok nv es) then Some (total + Z.of_nat (length (live es))) else None.

Lemma counted_bad nv total es : ¬ gvalues_ok nv es → counted nv total es = None.
Proof. intros. by rewrite /counted decide_False. Qed.

Lemma counted_middle nv total e1 k v a e2 :
  counted nv total (e1 ++ (k, (v, a)) :: e2) =
  if v =? nv then None
  else match counted nv 0 e1 with
       | Some m => counted nv (total + (if a >? 0 then 1 else 0) + m) e2
       | None => None
       end.
Proof.
  rewrite /counted /gvalues_ok. rewrite (decide_ext (Forall _ (e1 ++ _)) (Forall (λ e, e.2.1 ≠ nv) e1 ∧ v ≠ nv ∧ Forall (λ e, e.2.1 ≠ nv) e2));
    [|by rewrite Forall_app Forall_cons].
  destruct (Z.eqb_spec v nv); [by rewrite decide_False; [|tauto] |].
  destruct (decide (Forall _ e1)); [|by rewrite decide_False; [|tauto]].
  destruct (decide (Forall _ e2)); [rewrite decide_True // | by rewrite decide_False; [|tauto]].
  rewrite live_app live_cons length_app. destruct (a >? 0); simpl; f_equal; lia.
Qed.

(** The keys of a subtree are in order and between its bounds. *)
Definition gfits (lo hi : Z) (es : list gkv) : Prop :=
  ordered (strip es) ∧ Forall (λ e, lo ≤ e.1 ≤ hi) es ∧ lo ≤ hi.

Lemma strip_elem y es : y ∈ es → (y.1, y.2.1) ∈ strip es.
Proof. apply (list_elem_of_fmap_2 (λ e : gkv, (e.1, e.2.1))). Qed.

Lemma gfits_split lo hi e1 e e2 : gfits lo hi (e1 ++ e :: e2) → gfits lo e.1 e1 ∧ gfits e.1 hi e2.
Proof.
  intros (Ho & [H1 [He H2]%Forall_cons]%Forall_app & _). rewrite strip_app in Ho.
  pose proof (proj1 (ordered_middle _ (e.1, e.2.1) _) Ho) as (_ & Hb & Ha).
  apply ordered_split in Ho as [Ho1 Ho2]. apply (ordered_cons (e.1, e.2.1)) in Ho2 as [Ho2 _].
  rewrite Forall_forall in H1. rewrite Forall_forall in H2.
  pose proof (proj1 (Forall_forall _ _) Hb) as Hb'. pose proof (proj1 (Forall_forall _ _) Ha) as Ha'.
  split; (split; [done |]; split; [|lia]); apply Forall_forall; intros y Hy.
  - specialize (H1 y Hy). specialize (Hb' _ (strip_elem y _ Hy)). simpl in Hb'. lia.
  - specialize (H2 y Hy). specialize (Ha' _ (strip_elem y _ Hy)). simpl in Ha'. lia.
Qed.

Section validate.
Context {Ps : Gs.Params} {leaf_size : Z} {Laws : ParamsLaws Ps leaf_size} (s : loc) (nv L R mb : Z) (rp : ptr).
Abbreviation slots := Gs.node_slots.
Abbreviation gkids ptrs cs := ([∗ list] q;c ∈ ptrs;cs, gt_at q c)%I.
Abbreviation tree := (s ↦ Gsat nv L R leaf_size mb rp)%I.

Lemma wp_lowerBound x b cap k1 k2 ptrs lo Q :
  gnode x b cap (k1 ++ k2) ptrs -∗
  (gnode x b cap (k1 ++ k2) ptrs -∗ Q (last_bound lo k1.*1)) -∗
  wp (if Z.of_nat (length k1) =? 0 then mret lo else aget (Some x) Gs.rep (Z.of_nat (length k1) - 1)) Q.
Proof.
  iIntros "Hx HQ". destruct k1 as [|[a d] k1 _] using rev_ind; [simpl; wp_step; by iApply "HQ" |].
  rewrite fmap_app last_bound_snoc length_app (proj2 (Z.eqb_neq _ _)); [|simpl; lia]. rewrite -app_assoc.
  iApply (wp_gkey with "Hx HQ"). simpl. lia.
Qed.

Lemma wp_upperBound x b cap k1 k2 ptrs hi Q :
  gnode x b cap (k1 ++ k2) ptrs -∗
  (gnode x b cap (k1 ++ k2) ptrs -∗ Q (head_bound hi k2.*1)) -∗
  wp (if Z.of_nat (length k1) =? Z.of_nat (length (k1 ++ k2)) then mret hi
      else aget (Some x) Gs.rep (Z.of_nat (length k1))) Q.
Proof.
  iIntros "Hx HQ". destruct k2 as [|[a d] k2].
  { rewrite app_nil_r Z.eqb_refl. wp_step. by iApply "HQ". }
  rewrite length_app (proj2 (Z.eqb_neq _ _)); [|simpl; lia]. by iApply (wp_gkey with "Hx HQ").
Qed.

(** What a (recursive) call promises. *)
Definition gvalidates (validate : ptr → Z → Z → M (option Z)) (t : gtr) : hprop :=
  (∀ q lo hi Q, ⌜gwf slots lo hi t ∧ gfits lo hi (gelems t)⌝ → tree -∗ gt_at q t -∗
     (tree -∗ gt_at q t -∗ Q (counted nv 0 (gelems t))) -∗ wp (validate q lo hi) Q)%I.

Lemma wp_gvalidateAt validate x b cap k1 k2 q1 q2 cs lo hi total Q :
  length q1 = length k1 → length cs = S (length k2) →
  kids_wf slots (bounds (last_bound lo k1.*1) hi k2.*1) cs →
  gfits (last_bound lo k1.*1) hi (weave k2 (map gelems cs)) →
  □ (∀ t, ⌜t ∈ cs⌝ → gvalidates validate t) -∗
  tree -∗ gnode x b cap (k1 ++ k2) (q1 ++ q2) -∗ gkids q2 cs -∗
  (tree -∗ gnode x b cap (k1 ++ k2) (q1 ++ q2) -∗ gkids q2 cs -∗ Q (counted nv total (weave k2 (map gelems cs)))) -∗
  wp (Gs.validateAt validate (Some s) (Some x) (Z.of_nat (length (k1 ++ k2))) lo hi (length q2)
        (Z.of_nat (length k1)) total) Q.
Proof.
  iIntros (Hq1 Hl Hkw Hfit) "#Hrec Hs Hx Hk HQ".
  iInduction cs as [|t cs IH] forall (k1 k2 q1 q2 total Hq1 Hl Hkw Hfit) "Hrec"; [done |].
  iDestruct (big_sepL2_cons_inv_r with "Hk") as (q q2' ->) "[Ht Hk]". simpl.
  iApply wp_bind. iApply (wp_lowerBound with "Hx"). iIntros "Hx".
  iApply wp_bind. iApply (wp_upperBound with "Hx"). iIntros "Hx".
  apply Forall2_cons in Hkw as [Ht Hkw]. simpl in Ht.
  assert (gfits (last_bound lo k1.*1) (head_bound hi k2.*1) (gelems t)) as Hfit1.
  { destruct k2 as [|e k2], cs as [|t' cs]; try done. by apply gfits_split in Hfit as [? _]. }
  rewrite (proj2 (Z.leb_le _ _)); [|apply Hfit1]. simpl. wp_step.
  iDestruct ("Hrec" $! t with "[%]") as "Hvt"; [by left |].
  destruct k2 as [|[a [v n]] k2], cs as [|t' cs]; try done.
  - rewrite app_nil_r Z.ltb_irrefl. wp_step.
    iApply wp_bind. iApply (wp_gchild with "Hx"); [by rewrite Hq1 |]. iIntros "Hx".
    iApply wp_bind. iApply ("Hvt" with "[//] Hs Ht"). iIntros "Hs Ht".
    iDestruct (big_sepL2_nil_inv_r with "Hk") as %->. iSpecialize ("HQ" with "Hs Hx [Ht]"); [by iFrame |].
    rewrite /counted. case_decide; simpl; wp_step; by rewrite ?Z.add_0_l.
  - rewrite length_app (proj2 (Z.ltb_lt _ _)); [|simpl; lia].
    iApply wp_bind. iApply wp_bind. iApply (wp_gdata with "Hx"); [done |]. iIntros "Hx". wp_step.
    simpl. rewrite counted_middle. destruct (Z.eqb_spec v nv) as [->|Hv].
    { wp_step. iApply ("HQ" with "Hs Hx"). by iFrame. }
    iApply wp_bind. iApply (wp_gchild with "Hx"); [by rewrite Hq1 |]. iIntros "Hx".
    iApply wp_bind. iApply ("Hvt" with "[//] Hs Ht"). iIntros "Hs Ht".
    destruct (counted nv 0 (gelems t)) as [m|]; last first.
    { wp_step. iApply ("HQ" with "Hs Hx"). by iFrame. }
    replace (Z.of_nat (length k1) + 1) with (Z.of_nat (length (k1 ++ [(a, (v, n))]))) by (rewrite length_app /=; lia).
    replace (length k1 + S (length k2))%nat with (length ((k1 ++ [(a, (v, n))]) ++ k2)) by (rewrite !length_app /=; lia).
    replace (k1 ++ (a, (v, n)) :: k2) with ((k1 ++ [(a, (v, n))]) ++ k2) by by rewrite -app_assoc.
    replace (q1 ++ q :: q2') with ((q1 ++ [q]) ++ q2') by by rewrite -app_assoc.
    iApply ("IH" with "[%] [%] [%] [%] Hs Hx Hk [HQ Ht] []").
    + rewrite !length_app. simpl. lia.
    + simpl in *. lia.
    + by rewrite fmap_app last_bound_snoc.
    + rewrite fmap_app last_bound_snoc. by apply gfits_split in Hfit as [_ ?].
    + iIntros "Hs Hx Hk". iApply ("HQ" with "Hs Hx"). by iFrame.
    + iIntros "!>" (t0 Hin). iApply "Hrec". iPureIntro. by right.
Qed.

Lemma wp_gValidateNode fuel t q lo hi Q :
  (gnodes t < fuel)%nat → gwf slots lo hi t → gfits lo hi (gelems t) →
  tree -∗ gt_at q t -∗ (tree -∗ gt_at q t -∗ Q (counted nv 0 (gelems t))) -∗
  wp (Gs.ValidateNode fuel (Some s) q lo hi) Q.
Proof.
  revert t q lo hi Q. induction fuel as [|fuel IH]; intros t q lo hi Q Hf Ht Hfit; [lia |].
  iIntros "Hs Ht HQ". simpl. destruct t as [|b cap kvs cs].
  { rewrite gt_at_GNil. iDestruct "Ht" as %->. simpl. wp_step. by iApply ("HQ" with "Hs"). }
  iEval (rewrite gt_at_GN) in "Ht". iDestruct "Ht" as (x ptrs ->) "[Hx Hk]".
  pose proof Ht as ((HL & HR & Hsz & Has) & _ & Hkw)%gwf_GN. pose proof (kids_wf_length _ _ _ _ _ Hkw) as Hl.
  iDestruct (gkids_length with "Hk") as %Hlen. rewrite (bool_decide_false (Some x = NULL)) //.
  iApply wp_bind. iApply (wp_gget with "Hx"). iIntros "Hx". rewrite HL Z.eqb_refl /=.
  iApply wp_bind. iApply (wp_gget with "Hx"). iIntros "Hx". rewrite HR Z.eqb_refl /=.
  iApply wp_bind. iApply (wp_gget with "Hx"). iIntros "Hx". rewrite Hsz.
  iApply wp_bind. replace (Z.to_nat (_ + 1)) with (length ptrs) by lia.
  iApply (wp_gvalidateAt _ x b cap [] kvs [] ptrs cs lo hi 0 with "[] Hs Hx Hk"); [done..| |].
  - iIntros "!>" (t Hin q lo' hi' Q' [Hwf Hft]) "Hs Ht HQ". iApply (IH with "Hs Ht HQ"); [|done..].
    pose proof (gnodes_elem t cs Hin). simpl in Hf. lia.
  - iIntros "Hs Hx Hk". change (weave kvs (map gelems cs)) with (gelems (GN b cap kvs cs)).
    iSpecialize ("HQ" with "Hs"). rewrite gt_at_GN.
    rewrite /counted. case_decide.
    + iApply wp_bind. iApply (wp_gget with "Hx"). iIntros "Hx". wp_step.
      rewrite (proj2 (Z.leb_le _ _)); [iApply "HQ"; iExists x, ptrs; by iFrame |].
      etrans; [|exact Has]. apply inj_le. rewrite -(length_fmap (λ e : gkv, (e.1, e.2.1)) (gelems _)).
      apply sublist_length, live_sublist.
    + wp_step. iApply "HQ". iExists x, ptrs. by iFrame.
Qed.
End validate.

(** [Validate] accepts a tree just when it has no reserved value, in live or
    in deleted pairs. *)
Lemma wp_gs_Validate {Ps : Gs.Params} {leaf_size} {Laws : ParamsLaws Ps leaf_size} s nv L R mb rp t Q :
  gwf Gs.node_slots L R t → gfits L R (gelems t) →
  s ↦ Gsat nv L R leaf_size mb rp -∗ gt_at rp t -∗
  (s ↦ Gsat nv L R leaf_size mb rp -∗ gt_at rp t -∗ Q (bool_decide (gvalues_ok nv (gelems t)))) -∗
  wp (Gs.Validate (Some s)) Q.
Proof.
  iIntros (Ht Hfit) "Hs Ht HQ". rewrite /Gs.Validate. iApply (wp_with_fuel (gnodes t)). iSplit.
  { iApply (gt_at_nodes with "Ht"). }
  iIntros (fuel Hf). do 3 wp_step. iApply wp_bind. iApply (wp_gValidateNode with "Hs Ht"); [done..|].
  iIntros "Hs Ht". wp_step. iSpecialize ("HQ" with "Hs Ht"). rewrite /counted.
  by case_decide; [rewrite bool_decide_true | rewrite bool_decide_false].
Qed.

(** ** The node handler *)

(** Wrapping around early does not change a sum. *)
Lemma wrap_add_l c m x y : ((x + c) mod m - c + y + c) mod m - c = (x + y + c) mod m - c.
Proof.
  f_equal. replace ((x + c) mod m - c + y + c) with ((x + c) mod m + y) by lia.
  rewrite Zplus_mod_idemp_l. f_equal. lia.
Qed.
Lemma int_add_l x y : int (int x + y) = int (x + y).
Proof. apply wrap_add_l. Qed.
Lemma int64_add_l x y : Gs.int64 (Gs.int64 x + y) = Gs.int64 (x + y).
Proof. apply wrap_add_l. Qed.

Section handler.
Context {Ps : Gs.Params} (x : loc) (b : gsat_base) (cap : Z).
Abbreviation node := (gnode x b cap).

Definition sum_live (kvs : list gkv) : Z := foldr Z.add 0 (live kvs).*1.

Lemma wp_countKeys k1 k2 ptrs n Q :
  node (k1 ++ k2) ptrs -∗ (node (k1 ++ k2) ptrs -∗ Q (int (n + Z.of_nat (length (live k2))))) -∗
  wp (Gs.countKeys (Some x) (length k2) (Z.of_nat (length k1)) (int n)) Q.
Proof.
  iIntros "Hx HQ". iInduction k2 as [|[k [v a]] k2 IH] forall (k1 n); simpl.
  { wp_step. rewrite Z.add_0_r. by iApply "HQ". }
  iApply wp_bind. iApply (wp_gdata with "Hx"); [done |]. iIntros "Hx". rewrite int_add_l.
  replace (k1 ++ (k, (v, a)) :: k2) with ((k1 ++ [(k, (v, a))]) ++ k2) by by rewrite -app_assoc.
  replace (Z.of_nat (length k1) + 1) with (Z.of_nat (length (k1 ++ [(k, (v, a))]))) by (rewrite length_app /=; lia).
  iApply ("IH" with "Hx"). iIntros "Hx". iSpecialize ("HQ" with "Hx"). rewrite live_cons.
  destruct (a >? 0); simpl; [|by rewrite Z.add_0_r].
  by replace (n + 1 + Z.of_nat (length (live k2))) with (n + Z.of_nat (S (length (live k2)))) by lia.
Qed.

Lemma wp_sumKeys k1 k2 ptrs n Q :
  node (k1 ++ k2) ptrs -∗ (node (k1 ++ k2) ptrs -∗ Q (Gs.int64 (n + sum_live k2))) -∗
  wp (Gs.sumKeys (Some x) (length k2) (Z.of_nat (length k1)) (Gs.int64 n)) Q.
Proof.
  iIntros "Hx HQ". iInduction k2 as [|[k [v a]] k2 IH] forall (k1 n); simpl.
  { wp_step. rewrite Z.add_0_r. by iApply "HQ". }
  iApply wp_bind. iApply (wp_gdata with "Hx"); [done |]. iIntros "Hx". rewrite /sum_live live_cons.
  destruct (a >? 0) eqn:Ha.
  - do 2 iApply wp_bind. iApply (wp_gkey with "Hx"); [done |]. iIntros "Hx". wp_step. rewrite int64_add_l.
    replace (k1 ++ (k, (v, a)) :: k2) with ((k1 ++ [(k, (v, a))]) ++ k2) by by rewrite -app_assoc.
    replace (Z.of_nat (length k1) + 1) with (Z.of_nat (length (k1 ++ [(k, (v, a))]))) by (rewrite length_app /=; lia).
    iApply ("IH" with "Hx"). iIntros "Hx". iSpecialize ("HQ" with "Hx"). by rewrite /= Z.add_assoc.
  - wp_step.
    replace (k1 ++ (k, (v, a)) :: k2) with ((k1 ++ [(k, (v, a))]) ++ k2) by by rewrite -app_assoc.
    replace (Z.of_nat (length k1) + 1) with (Z.of_nat (length (k1 ++ [(k, (v, a))]))) by (rewrite length_app /=; lia).
    iApply ("IH" with "Hx HQ").
Qed.

Lemma wp_GetNumKeys kvs ptrs Q :
  gb_rep_size b = Z.of_nat (length kvs) →
  node kvs ptrs -∗ (node kvs ptrs -∗ Q (int (Z.of_nat (length (live kvs))))) -∗ wp (Gs.GetNumKeys (Some x)) Q.
Proof.
  iIntros (Hsz) "Hx HQ". iApply wp_bind. iApply (wp_gget with "Hx"). iIntros "Hx". rewrite Hsz Nat2Z.id.
  iApply (wp_countKeys [] kvs _ 0 with "Hx HQ").
Qed.

Lemma wp_GetSumKeys kvs ptrs Q :
  gb_rep_size b = Z.of_nat (length kvs) →
  node kvs ptrs -∗ (node kvs ptrs -∗ Q (Gs.int64 (sum_live kvs))) -∗ wp (Gs.GetSumKeys (Some x)) Q.
Proof.
  iIntros (Hsz) "Hx HQ". iApply wp_bind. iApply (wp_gget with "Hx"). iIntros "Hx". rewrite Hsz Nat2Z.id.
  iApply (wp_sumKeys [] kvs _ 0 with "Hx HQ").
Qed.

Abbreviation present qs := (filter (λ q : ptr, q ≠ NULL) qs).

Lemma wp_noChild kvs q1 q2 Q :
  node kvs (q1 ++ q2) -∗ (node kvs (q1 ++ q2) -∗ Q (bool_decide (present q2 = []))) -∗
  wp (Gs.noChild (Some x) (length q2) (Z.of_nat (length q1))) Q.
Proof.
  iIntros "Hx HQ". iInduction q2 as [|q q2 IH] forall (q1); simpl; [wp_step; by iApply "HQ" |].
  iApply wp_bind. iApply (wp_gchild with "Hx"); [done |]. iIntros "Hx". destruct q as [y|].
  - rewrite (bool_decide_false (Some y = NULL)) //=. wp_step. by iApply "HQ".
  - rewrite (bool_decide_true (NULL = NULL)) //=.
    replace (q1 ++ NULL :: q2) with ((q1 ++ [NULL]) ++ q2) by by rewrite -app_assoc.
    replace (Z.of_nat (length q1) + 1) with (Z.of_nat (length (q1 ++ [NULL : ptr]))) by (rewrite length_app /=; lia).
    iApply ("IH" with "Hx HQ").
Qed.

Lemma wp_AdvanceLoop kvs q1 q2 fuel Q :
  gb_rep_size b = Z.of_nat (length kvs) → length (q1 ++ q2) = S (length kvs) → (length q2 < fuel)%nat →
  node kvs (q1 ++ q2) -∗
  (∀ q3 q4, ⌜q1 ++ q2 = q3 ++ q4 ∧ present q4 = present q2 ∧ head q4 ≠ Some NULL ∧ (length q4 ≤ length q2)%nat⌝ →
     node kvs (q3 ++ q4) -∗ Q (Z.of_nat (length q3))) -∗
  wp (iter fuel (Gs.AdvanceStep (Some x)) (Z.of_nat (length q1))) Q.
Proof.
  iIntros (Hsz Hl Hf) "Hx HQ". iInduction fuel as [|fuel IH] forall (q1 q2 Hl Hf); [lia |]. iApply wp_iter_S.
  rewrite /Gs.AdvanceStep. iApply wp_bind. iApply (wp_gget with "Hx"). iIntros "Hx". rewrite Hsz. destruct q2 as [|q q2].
  - rewrite (proj2 (Z.leb_gt _ _)); [|rewrite length_app /= in Hl; lia]. wp_step.
    by iApply ("HQ" $! q1 [] with "[%] Hx").
  - rewrite (proj2 (Z.leb_le _ _)); [|rewrite length_app /= in Hl; lia].
    iApply wp_bind. iApply (wp_gchild with "Hx"); [done |]. iIntros "Hx". destruct q as [y|].
    + rewrite (bool_decide_false (Some y = NULL)) //=. wp_step. by iApply ("HQ" $! q1 (Some y :: q2) with "[%] Hx").
    + rewrite (bool_decide_true (NULL = NULL)) //=. wp_step.
      replace (q1 ++ NULL :: q2) with ((q1 ++ [NULL]) ++ q2) by by rewrite -app_assoc.
      replace (Z.of_nat (length q1) + 1) with (Z.of_nat (length (q1 ++ [NULL : ptr]))) by (rewrite length_app /=; lia).
      iApply ("IH" with "[%] [%] Hx"); [by rewrite -app_assoc | simpl in Hf; lia |].
      iIntros (q3 q4 (Heq & Hp & Hh & Hle)) "Hx". iApply ("HQ" with "[%] Hx"). rewrite -Heq -app_assoc.
      split_and!; [done.. | simpl; lia].
Qed.

Lemma wp_Advance kvs q1 q2 Q :
  gb_rep_size b = Z.of_nat (length kvs) → length (q1 ++ q2) = S (length kvs) →
  node kvs (q1 ++ q2) -∗
  (∀ q3 q4, ⌜q1 ++ q2 = q3 ++ q4 ∧ present q4 = present q2 ∧ head q4 ≠ Some NULL ∧ (length q4 ≤ length q2)%nat⌝ →
     node kvs (q3 ++ q4) -∗ Q (Z.of_nat (length q3))) -∗
  wp (Gs.Advance (Some x) (Z.of_nat (length q1))) Q.
Proof.
  iIntros (Hsz Hl) "Hx HQ". iApply wp_bind. iApply (wp_gget with "Hx"). iIntros "Hx".
  iApply (wp_AdvanceLoop with "Hx HQ"); [done | done |]. rewrite Hsz. rewrite length_app in Hl. lia.
Qed.

(** A client of the iterator: it collects the children. *)
Definition childrenStep (s : (ptr * Z) * list ptr) : M ((ptr * Z) * list ptr + list ptr) :=
  more ← Gs.HasNext s.1;
  if (more : bool) then '(q, it) ← Gs.Next s.1; continue (it, s.2 ++ [q]) else break s.2.
Definition allChildren (node : ptr) : M (list ptr) :=
  it ← Gs.GetChildIterator node; n ← node ~> Gs.rep_size; iter (Z.to_nat (n + 2)) childrenStep (it, []).

Lemma wp_childrenLoop kvs q1 q2 acc fuel Q :
  gb_rep_size b = Z.of_nat (length kvs) → length (q1 ++ q2) = S (length kvs) → (length q2 < fuel)%nat → head q2 ≠ Some NULL →
  node kvs (q1 ++ q2) -∗ (node kvs (q1 ++ q2) -∗ Q (acc ++ present q2)) -∗
  wp (iter fuel childrenStep ((Some x, Z.of_nat (length q1)), acc)) Q.
Proof.
  iIntros (Hsz Hl Hf Hh) "Hx HQ". iInduction fuel as [|fuel IH] forall (q1 q2 acc Hl Hf Hh); [lia |]. iApply wp_iter_S.
  rewrite /childrenStep /Gs.HasNext /=. iApply wp_bind. iApply wp_bind. iApply (wp_gget with "Hx"). iIntros "Hx". wp_step.
  rewrite Hsz. destruct q2 as [|[y|] q2]; [| |done].
  - rewrite (proj2 (Z.eqb_eq _ _)); [|rewrite app_nil_r in Hl; lia]. simpl. wp_step. iSpecialize ("HQ" with "Hx"). by rewrite (app_nil_r acc).
  - rewrite (proj2 (Z.eqb_neq _ _)); [|rewrite length_app /= in Hl; lia]. simpl. iApply wp_bind. iApply wp_bind.
    iApply (wp_gchild with "Hx"); [done |]. iIntros "Hx". iApply wp_bind.
    replace (q1 ++ Some y :: q2) with ((q1 ++ [Some y]) ++ q2) in * by by rewrite -app_assoc.
    replace (Z.of_nat (length q1) + 1) with (Z.of_nat (length (q1 ++ [Some y : ptr]))) by (rewrite length_app /=; lia).
    iApply (wp_Advance with "Hx"); [done | done |]. iIntros (q3 q4 (Heq & Hp & Hh4 & Hle)) "Hx". do 2 wp_step.
    iApply ("IH" with "[%] [%] [%] Hx"); [by rewrite -Heq | | done |].
    + simpl in Hf. lia.
    + iIntros "Hx". rewrite -Heq. iSpecialize ("HQ" with "Hx"). by rewrite Hp -app_assoc.
Qed.

Lemma wp_allChildren kvs ptrs Q :
  gb_rep_size b = Z.of_nat (length kvs) → length ptrs = S (length kvs) →
  node kvs ptrs -∗ (node kvs ptrs -∗ Q (present ptrs)) -∗ wp (allChildren (Some x)) Q.
Proof.
  iIntros (Hsz Hl) "Hx HQ". do 2 iApply wp_bind. iApply (wp_Advance kvs [] ptrs with "Hx"); [done | done |].
  iIntros (q3 q4 (Heq & Hp & Hh & Hle)) "Hx". wp_step. iApply wp_bind. iApply (wp_gget with "Hx"). iIntros "Hx".
  simpl in Heq. subst ptrs. iApply (wp_childrenLoop with "Hx"); [done | done | rewrite Hsz; lia | done |].
  rewrite Hp. done.
Qed.
End handler.
