(* ===== verification/GsatSet.v ===== *)
(** * GsatSet: the instances of the self-adjusting tree on dictionaries *)
From S2P Require Import Prelude Memory SepLogic Arrays OrderedSet BinTree GsatMap BTreeSpec BTreeProof.
From S2P Require Import GsatModel GsatSpec GsatProof GsatBuild GsatTree GsatCheck.
#[local] Open Scope Z_scope.
#[local] Open Scope cpp_scope.

(** ** The node classes and delimiters keep their promises *)

Lemma sabt_laws kMaxKeys scale CP : 0 < kMaxKeys → ParamsLaws (Gs.sabt kMaxKeys scale CP) kMaxKeys.
Proof.
  intros Hpos. split; simpl.
  - done.
  - lia.
  - iIntros (x b cap kvs ptrs Q) "Hx HQ". wp_step. by iApply "HQ".
  - apply wp_SearchBinary.
Qed.

Lemma logLoop_ge fuel n pow : pow ≤ Gs.logLoop fuel n pow.
Proof.
  revert pow. induction fuel as [|fuel IH]; intros pow; simpl; [done |]. destruct (_ <? _); [|done].
  specialize (IH (pow + 1)). lia.
Qed.
Lemma LogDelimiter_pos n : 2 ≤ n → 1 ≤ Gs.LogDelimiter n.
Proof.
  intros Hn. change (Gs.LogDelimiter n) with (if 1 <? n then Gs.logLoop 62 n 1 else 0).
  rewrite (proj2 (Z.ltb_lt 1 n)); [|lia]. apply logLoop_ge.
Qed.

(** The smallest power of two that is not below the accesses. *)
Lemma logLoop_spec fuel n pow :
  0 ≤ pow → n ≤ 2 ^ (pow + Z.of_nat fuel) → pow = 0 ∨ 2 ^ (pow - 1) < n →
  let d := Gs.logLoop fuel n pow in 0 ≤ d ∧ n ≤ 2 ^ d ∧ (d = 0 ∨ 2 ^ (d - 1) < n).
Proof.
  revert pow. induction fuel as [|fuel IH]; intros pow Hp Hn Hlow; simpl.
  - by rewrite Z.add_0_r in Hn.
  - destruct (Z.ltb_spec (2 ^ pow) n); [|done].
    apply IH; [lia | by replace (pow + 1 + Z.of_nat fuel) with (pow + Z.of_nat (S fuel)) by lia |].
    right. by replace (pow + 1 - 1) with pow by lia.
Qed.

#[global] Instance salt_laws leaf_size scale CP : ParamsLaws (Gs.salt scale CP) leaf_size.
Proof.
  split; simpl.
  - done.
  - intros n Hn. pose proof (LogDelimiter_pos n Hn). lia.
  - iIntros (x b cap kvs ptrs Q) "(%ks & %ds & %Hl & Hx) HQ". wp_step. iApply "HQ". iExists ks, ds. by iFrame.
  - apply wp_SearchBinary.
Qed.

#[global] Instance sast_laws scale CP : ParamsLaws (Gs.sast scale CP) 1.
Proof.
  split; simpl.
  - done.
  - lia.
  - iIntros (x b cap kvs ptrs Q) "Hx HQ". wp_step. by iApply "HQ".
  - iIntros (x b cap kvs ptrs k Q Ho Hsz) "Hx HQ". rewrite /Gs.SearchOne.
    iApply wp_bind. iApply (wp_gget with "Hx"). iIntros "Hx". rewrite Hsz.
    destruct kvs as [|[a [v n]] kvs].
    + simpl. wp_step. iApply ("HQ" $! [] [] with "[%] Hx"). split; [done |]. split; constructor.
    + rewrite (proj2 (Z.eqb_neq _ _)); [|simpl; lia].
      iAssert (⌜kvs = []⌝)%I as %->.
      { iDestruct "Hx" as (ks ds (Hl & _)) "_". iPureIntro. simpl in Hl. destruct kvs; [done | simpl in Hl; lia]. }
      iApply wp_bind. iApply (wp_gkey _ _ _ [] with "Hx"); [done |]. iIntros "Hx". wp_step.
      destruct (Z.leb_spec k a).
      * iApply ("HQ" $! [] [(a, (v, n))] with "[%] Hx"). split; [done |]. split; by repeat constructor.
      * iApply ("HQ" $! [(a, (v, n))] [] with "[%] Hx"). split; [done |]. split; by repeat constructor.
Qed.

(** ** The interface *)

Section map.
Context (Ps : Gs.Params) (L R leaf_size mb : Z).

#[global] Instance gsat_map : MapOps := {
  map_new nv := Gs.newTree nv L R leaf_size mb;
  map_Find := Gs.Find;
  map_Insert := Gs.Insert;
  map_Delete := Gs.Delete;
  map_Validate := Gs.Validate;
  map_delete := Gs.deleteTree;
}.

(** The pairs of a tree have keys in its range. *)
#[global] Instance range_inv : PairInv := λ k _, L ≤ k < R.

(** [Insert] asserts that the key is in the range of the tree. *)
Definition in_bounds (op : set_op) : Prop :=
  match op with OpInsert k _ => L ≤ k < R | _ => True end.

Context `{!ParamsLaws Ps leaf_size} (Hleaf : 0 < leaf_size) (HLR : L < R) (Hmb : 1 < mb).

#[global] Program Instance gsat_map_laws : MapLaws gsat_map := {|
  is_map s nv m := gs_set (leaf_size := leaf_size) (PI := range_inv) s nv L R mb m;
  fits _ op := in_bounds op;
|}.
Next Obligation. iIntros (nv Q) "HQ". by iApply (wp_gs_new Hleaf with "HQ"). Qed.
Next Obligation. iIntros (s nv m k Q) "Hs HQ". iApply (wp_gs_Find Hleaf with "Hs HQ"). Qed.
Next Obligation. iIntros (s nv m k v Q Hk) "Hs HQ". by iApply (wp_gs_Insert Hleaf with "Hs HQ"). Qed.
Next Obligation. iIntros (s nv m k Q _) "Hs HQ". iApply (wp_gs_Delete Hleaf with "Hs HQ"). Qed.
Next Obligation. iIntros (s nv m Q) "Hs HQ". iApply (wp_gs_delete_tree with "Hs HQ"). Qed.

Lemma gsat_all_fit nv m ops : Forall in_bounds ops → all_fit (Laws := gsat_map_laws) nv m ops.
Proof. intros Hops. revert m. induction Hops as [|op ops Hop _ IH]; intros m; [done | by split; [|apply IH]]. Qed.

Lemma gsat_session nv ops :
  Forall in_bounds ops → map_session (S := gsat_map) nv ops ∅ = Ok (map_ops nv ∅ ops).1 ∅.
Proof. intros Hops. by apply (map_session_refines (Laws := gsat_map_laws)), gsat_all_fit. Qed.
End map.

Arguments in_bounds : clear implicits.

(** ** Contracts *)





(** C36: [Delete] removes the key from the dictionary, though the pair keeps its
    place with a negative counter, and returns the value found. *)
Theorem gsat_delete_correct Ps leaf_size (Laws : ParamsLaws Ps leaf_size) s nv L R mb m k :
  0 < leaf_size →
  ⦃ gs_set (leaf_size := leaf_size) (PI := range_inv L R) s nv L R mb m ⦄
    Gs.Delete (Some s) k
  ⦃ r, <affine> ⌜r = value_or nv m k⌝ ∗
       gs_set (leaf_size := leaf_size) (PI := range_inv L R) s nv L R mb (delete k m) ⦄.
Proof.
  intros Hleaf. apply hoare_wp. iIntros "Hs". iApply (wp_gs_Delete Hleaf with "Hs"). by iIntros "$".
Qed.

Lemma gsat_delete_correct_witness :
  ⦃ gs_set (Ps := Gs.sast id kRoot) (leaf_size := 1) (PI := range_inv 0 10) 1%positive (-1) 0 10 2 {[3 := 30]} ⦄
    Gs.Delete (Ps := Gs.sast id kRoot) (Some 1%positive) 3
  ⦃ r, <affine> ⌜r = value_or (-1) {[3 := 30]} 3⌝ ∗
       gs_set (Ps := Gs.sast id kRoot) (leaf_size := 1) (PI := range_inv 0 10) 1%positive (-1) 0 10 2
         (delete 3 {[3 := 30]}) ⦄.
Proof. apply (gsat_delete_correct (Gs.sast id kRoot) 1 (sast_laws id kRoot)). lia. Defined.

(** C37: termination of a rebuilding: the recursions over the subtree, over the
    arrays and over the new nodes end; the new subtree has the bounds of the old
    one and its pairs in the same order, less the deleted ones when the policy
    clears them; the old nodes are freed, and a root is never lost. *)
Theorem gsat_rebuild_ends Ps leaf_size (Laws : ParamsLaws Ps leaf_size) s nv L R mb rp x b cap kvs cs lo hi :
  let t := GN b cap kvs cs in
  0 < leaf_size → gwf Gs.node_slots lo hi t → Forall (λ e, e.2.2 ≠ 0) (gelems t) → (Some x = rp → lo = L ∧ hi = R) →
  ⦃ s ↦ Gsat nv L R leaf_size mb rp ∗ gt_at (Some x) t ⦄
    Gs.RebuildTree (Some s) (Some x)
  ⦃ p, ∃ t', <affine> ⌜gwf Gs.node_slots lo hi t' ∧ gelems t' = cleared (clears x rp) (gelems t) ∧ (Some x = rp → t' ≠ GNil)⌝ ∗
       s ↦ Gsat nv L R leaf_size mb rp ∗ gt_at p t' ⦄.
Proof.
  intros t Hleaf Ht Hnz Hroot. apply hoare_wp. iIntros "[Hs Ht]". iApply (wp_RebuildTree with "Hs Ht"); [done.. |].
  iIntros (t' p Ht') "Hs Ht". iExists t'. by iFrame.
Qed.

Lemma gsat_rebuild_ends_witness :
  let t := GN (GsatBase 0 10 1 2 true 5 6) 1 [(3, (30, -4))] [GNil; GNil] in
  hoare (1%positive ↦ Gsat (-1) 0 10 1 2 (Some 2%positive) ∗ gt_at (Ps := Gs.sast id kRoot) (Some 2%positive) t)%I
    (Gs.RebuildTree (Ps := Gs.sast id kRoot) (Some 1%positive) (Some 2%positive))
    (λ p, ∃ t', <affine> ⌜gwf (Gs.node_slots (Params := Gs.sast id kRoot)) 0 10 t' ∧
              gelems t' = cleared (clears (Ps := Gs.sast id kRoot) 2 (Some 2%positive)) (gelems t) ∧
              (Some 2%positive = Some 2%positive → t' ≠ GNil)⌝ ∗
       1%positive ↦ Gsat (-1) 0 10 1 2 (Some 2%positive) ∗ gt_at (Ps := Gs.sast id kRoot) p t')%I.
Proof.
  apply (gsat_rebuild_ends (Gs.sast id kRoot) 1 (sast_laws id kRoot)).
  - lia.
  - apply gwf_GN. split; [by split_and! |]. split; by repeat constructor.
  - by repeat constructor.
  - done.
Defined.

(** C38: [Validate] of a tree that the methods have built accepts it just when no
    value, of a live or of a deleted key, is [no_value_]. *)
Theorem gsat_validate_exact Ps leaf_size (Laws : ParamsLaws Ps leaf_size) s nv L R mb rp m t :
  L < R → rooted L R m t (PI := range_inv L R) →
  ⦃ s ↦ Gsat nv L R leaf_size mb rp ∗ gt_at rp t ⦄
    Gs.Validate (Some s)
  ⦃ r, <affine> ⌜r = true ↔ gvalues_ok nv (gelems t)⌝ ∗ s ↦ Gsat nv L R leaf_size mb rp ∗ gt_at rp t ⦄.
Proof.
  intros HLR (Ht & _ & Ho & Hok & _). apply hoare_wp. iIntros "[Hs Ht]". iApply (wp_gs_Validate with "Hs Ht").
  - done.
  - split_and!; [done | | lia]. eapply Forall_impl; [exact Hok |]. intros e [_ He]. unfold pair_ok, range_inv in He. lia.
  - iIntros "Hs Ht". iFrame. iPureIntro. apply bool_decide_eq_true.
Qed.

Lemma gsat_validate_exact_witness :
  let t := GN (GsatBase 0 10 1 2 true 5 6) 1 [(3, (30, -4))] [GNil; GNil] in
  hoare (1%positive ↦ Gsat (-1) 0 10 1 2 (Some 2%positive) ∗ gt_at (Ps := Gs.sast id kRoot) (Some 2%positive) t)%I
    (Gs.Validate (Some 1%positive))
    (λ r, <affine> ⌜r = true ↔ gvalues_ok (-1) (gelems t)⌝ ∗
       1%positive ↦ Gsat (-1) 0 10 1 2 (Some 2%positive) ∗ gt_at (Ps := Gs.sast id kRoot) (Some 2%positive) t)%I.
Proof.
  apply (gsat_validate_exact (Gs.sast id kRoot) 1 (sast_laws id kRoot) 1 (-1) 0 10 2 (Some 2%positive) ∅); [lia |].
  split; [apply gwf_GN; split; [by split_and! |]; split; by repeat constructor |]. split; [done |].
  split; [by repeat constructor |]. split; [|done]. repeat constructor; simpl; lia.
Defined.

Lemma get_eq {O A} `{Object O} l (o : O) (f : field O A) h :
  h !! l = Some (inj_obj o) → get (Some l) f h = Ok (fget f o) h.
Proof. intros Hl. by rewrite /get Hl /= prj_inj_obj. Qed.

(** C39: error paths: the constructor throws when the range is empty or a size is
    too small, and [Insert] fails its assertion, before it touches the tree, for
    a key outside the range of the root. *)
Theorem gsat_faults (Ps : Gs.Params) nv L R leaf_size mb (h : heap) :
  (¬ (L < R ∧ 0 < leaf_size ∧ 1 < mb) → Gs.newTree nv L R leaf_size mb h = Fault RuntimeError) ∧
  (∀ s x n k v, h !! s = Some (inj_obj (Gsat nv L R leaf_size mb (Some x))) → h !! x = Some (inj_obj n) →
     ¬ (gb_left (gs_base n) ≤ k < gb_right (gs_base n)) → Gs.Insert (Some s) k v h = Fault AssertionFailed).
Proof.
  split.
  - intros Hno. rewrite /Gs.newTree /Gs.newNode /mbind /M_bind /new !Z.gtb_ltb.
    destruct (Z.ltb_spec L R), (Z.ltb_spec 0 leaf_size), (Z.ltb_spec 1 mb); try done. tauto.
  - intros s x n k v Hs Hx Hk. rewrite /Gs.Insert /mbind /M_bind.
    rewrite (get_eq s _ Gs.root_ _ Hs) /= (get_eq x _ Gs.nleft _ Hx) (get_eq x _ Gs.nright _ Hx) /=.
    destruct (Z.leb_spec (gb_left (gs_base n)) k), (Z.ltb_spec k (gb_right (gs_base n))); try done. lia.
Qed.

(** ** The delimiter and the node handler *)

(** [LogDelimiter] is the binary logarithm, rounded up. *)
Lemma LogDelimiter_log2_up n : 1 ≤ n ≤ 2 ^ 62 → Gs.LogDelimiter n = Z.log2_up n.
Proof.
  intros Hn. destruct (logLoop_spec 63 n 0) as (Hd & Hhi & Hlo); [lia | simpl; lia | by left |].
  change (Gs.logLoop 63 n 0) with (Gs.LogDelimiter n) in *.
  destruct (Z.eq_dec (Gs.LogDelimiter n) 0) as [He|Hne].
  - rewrite He in Hhi |- *. change (2 ^ 0) with 1 in Hhi. by replace n with 1 by lia.
  - destruct Hlo as [?|Hlo]; [done |]. symmetry. apply Z.log2_up_unique; [lia | by rewrite -Z.sub_1_r].
Qed.

(** [GetNumKeys] and [GetSumKeys] of a node count its live pairs, in [int] and
    in [int64_t]; [IsLeaf] and the iterator see its children that are not null. *)
Lemma gsat_handler_exact (Ps : Gs.Params) x b cap kvs ptrs :
  gb_rep_size b = Z.of_nat (length kvs) → length ptrs = S (length kvs) →
  ⦃ gnode (Ps := Ps) x b cap kvs ptrs ⦄
    (n ← Gs.GetNumKeys (Some x); sum ← Gs.GetSumKeys (Some x); cs ← allChildren (Some x); mret (n, sum, cs))
  ⦃ r, <affine> ⌜r = (int (Z.of_nat (length (live kvs))), Gs.int64 (sum_live kvs), filter (λ q : ptr, q ≠ NULL) ptrs)⌝ ∗
       gnode (Ps := Ps) x b cap kvs ptrs ⦄.
Proof.
  intros Hsz Hl. apply hoare_wp. iIntros "Hx". iApply wp_bind. iApply (wp_GetNumKeys with "Hx"); [done |]. iIntros "Hx".
  iApply wp_bind. iApply (wp_GetSumKeys with "Hx"); [done |]. iIntros "Hx".
  iApply wp_bind. iApply (wp_allChildren with "Hx"); [done | done |]. iIntros "Hx". wp_step. by iFrame.
Qed.
