(* ===== verification/ListSet.v ===== *)
(** * ListSet: the sorted linked list

    Translation of [cpp/ds/winblad_catree/linkedlist.h], the second
    implementation of the ordered-set interface.  [this] is the address of the
    [LinkedList] object.  [size] is a [size_t]; [numKeys], [sumOfKeys] and
    [split] compute with [int]s. *)
From S2P Require Import Prelude Memory.
#[local] Open Scope Z_scope.
#[local] Open Scope cpp_scope.

Module LL.

(** ** Members *)

Definition key : field list_node Z := Field ln_key (λ x n, ListNode x n.(ln_val) n.(ln_next)).
Definition val : field list_node Z := Field ln_val (λ x n, ListNode n.(ln_key) x n.(ln_next)).
Definition next : field list_node ptr := Field ln_next (λ x n, ListNode n.(ln_key) n.(ln_val) x).
Definition head : field linked_list ptr :=
  Field ll_head (λ x l, LinkedList x l.(ll_tail) l.(ll_size)).
Definition tail : field linked_list ptr :=
  Field ll_tail (λ x l, LinkedList l.(ll_head) x l.(ll_size)).
Definition size : field linked_list Z :=
  Field ll_size (λ x l, LinkedList l.(ll_head) l.(ll_tail) x).

Definition NO_VALUE : Z := 0.
Definition INVALID_KEY : Z := 0.

Definition newNode (k v : Z) (n : ptr) : M ptr := new (ListNode k v n).

(** [new LinkedList()] *)
Definition newList : M ptr := new (LinkedList NULL NULL 0).

(** [delete] of a [LinkedList]: the destructor, then the object itself *)
Definition deleteStep (curr : ptr) : M (ptr + unit) :=
  if curr == NULL then break ()
  else
    let prev := curr in
    curr ← curr ~> next;
    free list_node prev;;
    continue curr.

Definition deleteList (this : ptr) : M unit :=
  curr ← this ~> head;
  loop deleteStep curr;;
  this ~> size ::= 0;;
  free linked_list this.

(** ** Dictionary operations *)

(** The loop all three operations search with: it stops at the first node
    whose key is not below [k], and knows the node before it. *)
Definition searchStep (k : Z) (s : ptr * ptr) : M (ptr * ptr + ptr * ptr) :=
  let '(prev, curr) := s in
  if curr == NULL then break (prev, curr)
  else
    ck ← curr ~> key;
    if ck <? k then n ← curr ~> next; continue (curr, n)
    else break (prev, curr).

(** [curr != NULL && curr->key == key] *)
Definition hasKey (curr : ptr) (k : Z) : M bool :=
  if curr == NULL then mret false else ck ← curr ~> key; mret (ck =? k).

Definition find (this : ptr) (k : Z) : M Z :=
  curr ← this ~> head;
  '(_, curr) ← loop (searchStep k) (NULL, curr);
  b ← hasKey curr k;
  if (b : bool) then curr ~> val else mret NO_VALUE.

Definition insert (this : ptr) (k v : Z) : M Z :=
  h ← this ~> head;
  found ← (if h == NULL then
      newNode ← newNode k v NULL;
      this ~> head ::= newNode;;
      this ~> tail ::= newNode;;
      mret None
    else
      curr ← this ~> head;
      '(prev, curr) ← loop (searchStep k) (NULL, curr);
      b ← hasKey curr k;
      if (b : bool) then w ← curr ~> val; mret (Some w)
      else
        newNode ← newNode k v curr;
        (if prev == NULL then
           ck ← curr ~> key;
           assert_ (k <? ck);;
           this ~> head ::= newNode
         else
           prev ~> next ::= newNode;;
           t ← this ~> tail;
           when (prev == t) (this ~> tail ::= newNode));;
        mret None);
  match found with
  | Some w => mret w
  | None =>
      n ← this ~> size;
      this ~> size ::= size_t (n + 1);;
      mret NO_VALUE
  end.

Definition erase (this : ptr) (k : Z) : M Z :=
  h ← this ~> head;
  if h == NULL then mret NO_VALUE
  else
    curr ← this ~> head;
    '(prev, curr) ← loop (searchStep k) (NULL, curr);
    b ← hasKey curr k;
    if negb b then mret NO_VALUE
    else
      ck ← curr ~> key;
      assert_ (ck =? k);;
      retval ← curr ~> val;
      (if prev == NULL then
         h ← this ~> head;
         assert_ (curr == h);;
         t ← this ~> tail;
         if h == t then this ~> head ::= NULL;; this ~> tail ::= NULL
         else n ← curr ~> next; this ~> head ::= n
       else
         n ← curr ~> next;
         prev ~> next ::= n;;
         t ← this ~> tail;
         when (curr == t) (this ~> tail ::= prev));;
      free list_node curr;;
      n ← this ~> size;
      this ~> size ::= size_t (n - 1);;
      mret retval.

(** ** Counting and checking *)

Definition getSize (this : ptr) : M Z := this ~> size.
Definition isEmpty (this : ptr) : M bool := h ← this ~> head; mret (h == NULL).

(** The loops of [numKeys] and [sumOfKeys] add 1 or the key to an [int]. *)
Definition sumStep (f : Z → Z) (s : Z * ptr) : M (Z * ptr + Z) :=
  let '(sum, curr) := s in
  if curr == NULL then break sum
  else ck ← curr ~> key; n ← curr ~> next; continue (int (sum + f ck), n).

Definition numKeys (this : ptr) : M Z :=
  curr ← this ~> head;
  sum ← loop (sumStep (λ _, 1)) (0, curr);
  mret (size_t sum).

Definition sumOfKeys (this : ptr) : M Z :=
  curr ← this ~> head;
  sum ← loop (sumStep id) (0, curr);
  mret (size_t sum).

Definition checkSortedOrderStep (s : bool * ptr) : M (bool * ptr + bool) :=
  let '(sorted, curr) := s in
  if curr == NULL then break sorted
  else
    let prev := curr in
    curr ← curr ~> next;
    sorted ← (if curr != NULL then pk ← prev ~> key; ck ← curr ~> key; mret (pk <? ck)
              else mret sorted);
    if negb sorted then break sorted else continue (sorted, curr).

Definition checkSortedOrder (this : ptr) : M bool :=
  curr ← this ~> head;
  loop checkSortedOrderStep (true, curr).

(** ** Set operations *)

Definition join (this rightSet : ptr) : M ptr :=
  rightList ← dynamic_cast linked_list rightSet;
  assert_ (rightList != NULL);;
  newList ← newList;
  let leftList := this in
  el ← isEmpty leftList;
  if (el : bool) then
    x ← rightList ~> head; newList ~> head ::= x;;
    x ← rightList ~> tail; newList ~> tail ::= x;;
    a ← getSize leftList; b ← getSize rightList; newList ~> size ::= size_t (a + b);;
    mret newList
  else
    er ← isEmpty rightList;
    if (er : bool) then
      x ← leftList ~> head; newList ~> head ::= x;;
      x ← leftList ~> tail; newList ~> tail ::= x;;
      a ← getSize leftList; b ← getSize rightList; newList ~> size ::= size_t (a + b);;
      mret newList
    else
      lt ← leftList ~> tail; lk ← lt ~> key;
      rh ← rightList ~> head; rk ← rh ~> key;
      assert_ (lk <? rk);;
      x ← leftList ~> head; newList ~> head ::= x;;
      x ← rightList ~> tail; newList ~> tail ::= x;;
      lt ← leftList ~> tail; rh ← rightList ~> head; lt ~> next ::= rh;;
      a ← getSize leftList; b ← getSize rightList; newList ~> size ::= size_t (a + b);;
      mret newList.

Definition splitStep (splitPoint : Z) (s : Z * ptr * ptr) : M (Z * ptr * ptr + ptr * ptr) :=
  let '(count, prev, curr) := s in
  if count <? splitPoint then
    n ← curr ~> next; continue (int (count + 1), curr, n)
  else break (prev, curr).

(** The second half of [split]: the two new lists, which share the nodes of
    [this] up to [prev] and from [curr] on. *)
Definition splitLists (this prev curr : ptr) (origSize splitPoint : Z) : M (Z * ptr * ptr) :=
  ck ← curr ~> key;
  let splitKey := int ck in
  leftList ← newList;
  rightList ← newList;
  h ← this ~> head;
  leftList ~> head ::= h;;
  leftList ~> tail ::= prev;;
  lt ← leftList ~> tail;
  lt ~> next ::= NULL;;
  leftList ~> size ::= size_t splitPoint;;
  rightList ~> head ::= curr;;
  t ← this ~> tail;
  rightList ~> tail ::= t;;
  rightList ~> size ::= size_t (origSize - splitPoint);;
  lt ← leftList ~> tail; ltn ← lt ~> next; assert_ (ltn == NULL);;
  rt ← rightList ~> tail; rtn ← rt ~> next; assert_ (rtn == NULL);;
  mret (splitKey, leftList, rightList).

Definition split (this : ptr) : M (Z * ptr * ptr) :=
  e ← isEmpty this;
  if (e : bool) then mret (INVALID_KEY, NULL, NULL)
  else
    n ← this ~> size;
    if n =? 1 then mret (INVALID_KEY, NULL, NULL)
    else
      n ← this ~> size;
      let origSize := int n in
      let splitPoint := Z.quot origSize 2 in
      curr ← this ~> head;
      '(prev, curr) ← loop (splitStep splitPoint) (0, NULL, curr);
      splitLists this prev curr origSize splitPoint.

End LL.
