(* ===== verification/ListProof.v ===== *)
(** * ListProof: the linked list implements the ordered-set interface *)
From S2P Require Import Prelude Memory SepLogic OrderedSet BinTree AVLProof ListSet.
#[local] Open Scope Z_scope.
#[local] Open Scope cpp_scope.

(** ** List segments *)

(** [seg p0 h l p q]: the nodes of [l] from [h] on; the node before them is
    [p0], the last of them [p] ([p0] when there is none), the pointer after
    them [q]. *)
Fixpoint seg (p0 h : ptr) (l : list (Z * Z)) (p q : ptr) : hprop :=
  match l with
  | [] => <affine> ⌜h = q ∧ p = p0⌝
  | (k, v) :: l => ∃ (x : loc) (n : ptr),
      <affine> ⌜h = Some x⌝ ∗ x ↦ ListNode k v n ∗ seg (Some x) n l p q
  end%I.

(** The [LinkedList] object at [s] holds the pairs [l]. *)
Definition ll_at (s : loc) (l : list (Z * Z)) : hprop :=
  (∃ h t, s ↦ LinkedList h t (size_t (Z.of_nat (length l))) ∗ seg NULL h l t NULL)%I.

Lemma seg_app p0 h l1 l2 p q :
  seg p0 h (l1 ++ l2) p q ⊣⊢ ∃ m c, seg p0 h l1 m c ∗ seg m c l2 p q.
Proof.
  iSplit.
  - iIntros "H". iInduction l1 as [|[k v] l1 IH] forall (p0 h); simpl.
    + iExists p0, h. by iFrame.
    + iDestruct "H" as (x n ->) "[Hx H]". iDestruct ("IH" with "H") as (m c) "[H1 H2]".
      iExists m, c. by iFrame.
  - iIntros "(%m & %c & H1 & H2)". iInduction l1 as [|[k v] l1 IH] forall (p0 h); simpl.
    + by iDestruct "H1" as %[-> ->].
    + iDestruct "H1" as (x n ->) "[Hx H1]". iExists x, n. iFrame. iSplit; [done |].
      iApply ("IH" with "H1 H2").
Qed.

Lemma seg_size p0 h l p q : seg p0 h l p q ⊢ at_least (length l).
Proof.
  revert p0 h. induction l as [|[k v] l IH]; intros p0 h; simpl; [apply at_least_0 |].
  iIntros "(%x & %n & _ & Hx & H)". rewrite -(at_least_sep 1). iSplitL "Hx".
  - by iApply at_least_pt.
  - by iApply IH.
Qed.

(** The node before the hole, when there is one. *)
Lemma seg_snoc p0 h l k v p q :
  seg p0 h (l ++ [(k, v)]) p q ⊣⊢
  ∃ (x : loc) m, <affine> ⌜p = Some x⌝ ∗ seg p0 h l m (Some x) ∗ x ↦ ListNode k v q.
Proof.
  rewrite seg_app. iSplit.
  - iIntros "(%m & %c & H & (%x & %n & -> & Hx & %Hn))". destruct Hn as [-> ->].
    iExists x, m. by iFrame.
  - iIntros "(%x & %m & -> & H & Hx)". iExists m, (Some x). by iFrame.
Qed.

(** A node outside a segment is not its last one. *)
Lemma seg_last_ne x (o : list_node) p0 h l p q :
  l ≠ [] → x ↦ o -∗ seg p0 h l p q -∗ ⌜p ≠ Some x⌝.
Proof.
  iIntros (Hl) "Hx H". destruct l as [|[k v] l _] using rev_ind; [done |].
  rewrite seg_snoc. iDestruct "H" as (y m ->) "[_ Hy]". iIntros ([= ->]).
  iApply (pt_exclusive with "[$Hx $Hy]").
Qed.

(** ** Searching *)

(** The pairs with keys below [k] at the front, and the rest. *)
Fixpoint lower (k : Z) (l : list (Z * Z)) : list (Z * Z) :=
  match l with [] => [] | kv :: l => if kv.1 <? k then kv :: lower k l else [] end.
Fixpoint upper (k : Z) (l : list (Z * Z)) : list (Z * Z) :=
  match l with [] => [] | kv :: l' => if kv.1 <? k then upper k l' else l end.

Lemma lower_upper k l : lower k l ++ upper k l = l.
Proof. induction l as [|[k' v] l IH]; simpl; [done |]. case_match; [|done]. simpl. by rewrite IH. Qed.

Lemma lower_below k l : keys_below (lower k l) k.
Proof.
  induction l as [|[k' v] l IH]; simpl; [constructor |].
  destruct (Z.ltb_spec k' k); constructor; done.
Qed.

Lemma upper_cases k l :
  ordered l →
  keys_above (upper k l) k ∨ ∃ v l', upper k l = (k, v) :: l' ∧ keys_above l' k.
Proof.
  induction l as [|[k' v] l IH]; intros Hord; simpl; [by left; constructor |].
  apply ordered_cons in Hord as [Hord Hall]. destruct (Z.ltb_spec k' k); [by apply IH |].
  assert (keys_above l k') as Ha by (apply Forall_forall; intros x Hx; apply (Hall x Hx)).
  destruct (decide (k' = k)) as [->|]; [right; by exists v, l |].
  left. constructor; [simpl; lia |]. eapply Forall_impl; [exact Ha |]. simpl. lia.
Qed.

Lemma wp_searchLoop k l p c fuel t Q :
  (length l < fuel)%nat →
  seg p c l t NULL -∗
  (∀ p' c', seg p c (lower k l) p' c' -∗ seg p' c' (upper k l) t NULL -∗ Q (p', c')) -∗
  wp (iter fuel (LL.searchStep k) (p, c)) Q.
Proof.
  iIntros (Hfuel) "H HQ".
  iInduction l as [|[k' v] l IH] forall (fuel Hfuel p c Q);
    (destruct fuel as [|fuel]; [lia |]); iApply wp_iter_S; rewrite /LL.searchStep /=.
  - iDestruct "H" as %[-> ->]. simpl. wp_step. iApply ("HQ" $! p NULL); done.
  - iDestruct "H" as (x n ->) "[Hx H]". simpl. wp_step. destruct (k' <? k).
    + do 2 wp_step. iApply ("IH" with "[%] H"); [simpl in *; lia |]. iIntros (p' c') "H1 H2".
      iApply ("HQ" with "[Hx H1] H2"). iExists x, n. by iFrame.
    + wp_step. iApply ("HQ" $! p (Some x) with "[//]"). iExists x, n. by iFrame.
Qed.

Lemma wp_searchList k l c t Q :
  seg NULL c l t NULL -∗
  (∀ p' c', seg NULL c (lower k l) p' c' -∗ seg p' c' (upper k l) t NULL -∗ Q (p', c')) -∗
  wp (loop (LL.searchStep k) (NULL, c)) Q.
Proof.
  iIntros "H HQ". iApply (wp_loop (length l)). iSplit.
  - iApply (at_least_weaken with "[-]"); [|iApply (seg_size with "H")]. done.
  - iIntros (fuel Hfuel). iApply (wp_searchLoop with "H HQ"). done.
Qed.

Lemma seg_back k l p0 h p c t :
  seg p0 h (lower k l) p c -∗ seg p c (upper k l) t NULL -∗ seg p0 h l t NULL.
Proof.
  iIntros "H1 H2". iEval (rewrite -(lower_upper k l)). iApply seg_app. iExists p, c. iFrame.
Qed.

(** What the test after the loop finds. *)
Definition found (k : Z) (l : list (Z * Z)) : bool :=
  match l with (k', _) :: _ => k' =? k | [] => false end.

Lemma wp_hasKey k l p c t Q :
  seg p c l t NULL -∗ (seg p c l t NULL -∗ Q (found k l)) -∗ wp (LL.hasKey c k) Q.
Proof.
  iIntros "H HQ". rewrite /LL.hasKey. destruct l as [|[k' v] l]; simpl.
  - iDestruct "H" as %[-> ->]. simpl. wp_step. by iApply "HQ".
  - iDestruct "H" as (x n ->) "[Hx H]". simpl. do 2 wp_step. iApply "HQ". iExists x, n. by iFrame.
Qed.

Lemma found_spec k l :
  ordered l →
  (found k (upper k l) = false ∧ keys_above (upper k l) k ∧ to_map l !! k = None) ∨
  (∃ v l', upper k l = (k, v) :: l' ∧ keys_above l' k ∧ found k (upper k l) = true ∧
     to_map l !! k = Some v).
Proof.
  intros Hord. pose proof (lower_below k l) as Hb. pose proof (lower_upper k l) as Hl.
  destruct (upper_cases k l Hord) as [Ha|(v & l' & Hu & Ha)].
  - left. rewrite -{3}Hl to_map_absent //. split_and!; [|done..].
    destruct (upper k l) as [|[k' v] u]; [done |]. inversion_clear Ha. apply Z.eqb_neq. simpl in *. lia.
  - right. exists v, l'. rewrite -{3}Hl Hu to_map_lookup //. split_and!; try done.
    apply Z.eqb_refl.
Qed.

(** ** Dictionary operations *)

Lemma wp_ll_find s l k Q :
  ordered l →
  ll_at s l -∗ (ll_at s l -∗ Q (dict_find (to_map l) k)) -∗ wp (LL.find (Some s) k) Q.
Proof.
  iIntros (Hord) "(%h & %t & Hs & H) HQ". rewrite /LL.find. wp_step.
  iApply wp_bind. iApply (wp_searchList k with "H"). iIntros (p c) "H1 H2".
  iApply wp_bind. iApply (wp_hasKey with "H2"). iIntros "H2".
  iAssert (seg NULL h (lower k l) p c -∗ seg p c (upper k l) t NULL -∗
           s ↦ LinkedList h t (size_t (Z.of_nat (length l))) -∗ ll_at s l)%I as "Hback".
  { iIntros "H1 H2 Hs". iExists h, t. iFrame. iApply (seg_back with "H1 H2"). }
  rewrite /dict_find.
  destruct (found_spec k l Hord) as [(-> & _ & ->)|(v & l' & Hu & _ & -> & ->)].
  - wp_step. iApply "HQ". iApply ("Hback" with "H1 H2 Hs").
  - rewrite Hu /=. iDestruct "H2" as (x n ->) "[Hx H2]". wp_step. iApply "HQ".
    iApply ("Hback" with "H1 [Hx H2] Hs"). iExists x, n. by iFrame.
Qed.

(** The list with the pair inserted at its place. *)
Definition list_insert (k v : Z) (l : list (Z * Z)) : list (Z * Z) :=
  lower k l ++ (k, v) :: upper k l.

Lemma length_list_insert k v l : length (list_insert k v l) = S (length l).
Proof. rewrite -{2}(lower_upper k l) !length_app /=. lia. Qed.

Lemma size_t_succ a : size_t (size_t a + 1) = size_t (a + 1).
Proof. apply Zplus_mod_idemp_l. Qed.

(** The link of a new node into a non-empty list. *)
Lemma wp_ll_link s h t n l1 l2 p c k v y Q :
  (l1 = [] → l2 ≠ []) → keys_above l2 k →
  s ↦ LinkedList h t n -∗ y ↦ ListNode k v c -∗ seg NULL h l1 p c -∗ seg p c l2 t NULL -∗
  (∀ h' t', s ↦ LinkedList h' t' n -∗ seg NULL h' (l1 ++ (k, v) :: l2) t' NULL -∗ Q ()) -∗
  wp (if p == NULL then
        ck ← c ~> LL.key; assert_ (k <? ck);; (Some s) ~> LL.head ::= Some y
      else
        p ~> LL.next ::= Some y;; t ← (Some s) ~> LL.tail;
        when (p == t) ((Some s) ~> LL.tail ::= Some y)) Q.
Proof.
  iIntros (Hne Ha) "Hs Hy H1 H2 HQ". destruct l1 as [|[k1 v1] l1 _] using rev_ind.
  - iDestruct "H1" as %[<- ->]. destruct l2 as [|[k2 v2] l2]; [by destruct Hne |]. simpl.
    iDestruct "H2" as (x n2 ->) "[Hx H2]". wp_step. inversion_clear Ha.
    iApply wp_bind. iApply wp_assert; [apply Z.ltb_lt; simpl in *; lia |]. wp_step.
    iApply ("HQ" with "Hs"). iExists y, (Some x). by iFrame.
  - rewrite seg_snoc. iDestruct "H1" as (x m ->) "[H1 Hx]". simpl. do 2 wp_step.
    iAssert (∀ t', seg (Some y) c l2 t' NULL -∗ y ↦ ListNode k v c -∗
      seg NULL h l1 m (Some x) -∗ x ↦ ListNode k1 v1 (Some y) -∗
      seg NULL h ((l1 ++ [(k1, v1)]) ++ (k, v) :: l2) t' NULL)%I as "Hseg".
    { iIntros (t') "H2 Hy H1 Hx". iApply seg_app. iExists (Some x), (Some y). iSplitL "H1 Hx".
      - iApply seg_snoc. iExists x, m. by iFrame.
      - iExists y, c. by iFrame. }
    destruct l2 as [|[k2 v2] l2].
    + iDestruct "H2" as %[-> ->]. rewrite /when bool_decide_true //. wp_step.
      iApply ("HQ" with "Hs"). iApply ("Hseg" with "[//] Hy H1 Hx").
    + iDestruct (seg_last_ne with "Hx H2") as %Ht; [done |].
      rewrite /when bool_decide_false //. wp_step. iApply ("HQ" with "Hs").
      iApply ("Hseg" with "H2 Hy H1 Hx").
Qed.

Lemma seg_head p0 h l p q : l ≠ [] → seg p0 h l p q -∗ ⌜h ≠ NULL⌝.
Proof. iIntros (Hl) "H". destruct l as [|[]]; [done |]. by iDestruct "H" as (? ? ->) "_". Qed.

Lemma wp_ll_insert_absent s l k v Q :
  found k (upper k l) = false → keys_above (upper k l) k →
  ll_at s l -∗ (ll_at s (list_insert k v l) -∗ Q LL.NO_VALUE) -∗
  wp (LL.insert (Some s) k v) Q.
Proof.
  iIntros (Hf Ha) "(%h & %t & Hs & H) HQ". rewrite /LL.insert. wp_step.
  iAssert (∀ h' t', s ↦ LinkedList h' t' (size_t (Z.of_nat (length l))) -∗
    seg NULL h' (list_insert k v l) t' NULL -∗
    wp (n ← (Some s) ~> LL.size; (Some s) ~> LL.size ::= size_t (n + 1);; mret LL.NO_VALUE) Q)%I
    with "[HQ]" as "Hend".
  { iIntros (h' t') "Hs H". do 3 wp_step. iApply "HQ".
    iExists h', t'. rewrite length_list_insert size_t_succ Nat2Z.inj_succ. iFrame. }
  iApply wp_bind. destruct (decide (l = [])) as [->|Hl].
  - iDestruct "H" as %[-> ->]. simpl. iApply wp_bind. iApply wp_new.
    iIntros (y) "Hy". do 3 wp_step. iApply ("Hend" with "Hs"). iExists y, NULL. by iFrame.
  - iDestruct (seg_head with "H") as %Hh; [done |]. rewrite bool_decide_false //. wp_step.
    iApply wp_bind. iApply (wp_searchList k with "H"). iIntros (p c) "H1 H2".
    iApply wp_bind. iApply (wp_hasKey k with "H2"). iIntros "H2". rewrite Hf.
    iApply wp_bind. iApply wp_new. iIntros (y) "Hy".
    iApply wp_bind. iApply (wp_ll_link with "Hs Hy H1 H2"); [|done|].
    { pose proof (lower_upper k l) as Heq. intros Hn Hu. by rewrite Hn Hu in Heq. }
    iIntros (h' t') "Hs H". wp_step. iApply ("Hend" with "Hs H").
Qed.

Lemma wp_ll_insert_found s l k v w l' Q :
  upper k l = (k, w) :: l' → ll_at s l -∗ (ll_at s l -∗ Q w) -∗ wp (LL.insert (Some s) k v) Q.
Proof.
  iIntros (Hu) "(%h & %t & Hs & H) HQ". rewrite /LL.insert. wp_step. iApply wp_bind.
  iDestruct (seg_head with "H") as %Hh; [by intros -> |]. rewrite bool_decide_false //. wp_step.
  iApply wp_bind. iApply (wp_searchList k with "H"). iIntros (p c) "H1 H2".
  iApply wp_bind. iApply (wp_hasKey k with "H2"). iIntros "H2".
  rewrite Hu /= Z.eqb_refl. iDestruct "H2" as (x n ->) "[Hx H2]". do 3 wp_step.
  iApply "HQ". iExists h, t. iFrame. iApply (seg_back k with "H1"). rewrite Hu. iExists x, n.
  by iFrame.
Qed.

(** ** Erasing *)

(** The list without the first pair of [upper k l]. *)
Definition list_delete (k : Z) (l : list (Z * Z)) : list (Z * Z) :=
  lower k l ++ List.tl (upper k l).

Lemma wp_ll_unlink s h t n l1 l2 p x k v nx Q :
  s ↦ LinkedList h t n -∗ seg NULL h l1 p (Some x) -∗ x ↦ ListNode k v nx -∗
  seg (Some x) nx l2 t NULL -∗
  (∀ h' t', s ↦ LinkedList h' t' n -∗ x ↦ ListNode k v nx -∗
     seg NULL h' (l1 ++ l2) t' NULL -∗ Q ()) -∗
  wp (if p == NULL then
        h ← (Some s) ~> LL.head; assert_ (Some x == h);; t ← (Some s) ~> LL.tail;
        if h == t then (Some s) ~> LL.head ::= NULL;; (Some s) ~> LL.tail ::= NULL
        else n ← (Some x) ~> LL.next; (Some s) ~> LL.head ::= n
      else
        n ← (Some x) ~> LL.next; p ~> LL.next ::= n;; t ← (Some s) ~> LL.tail;
        when (Some x == t) ((Some s) ~> LL.tail ::= p)) Q.
Proof.
  iIntros "Hs H1 Hx H2 HQ". destruct l1 as [|[k1 v1] l1 _] using rev_ind.
  - iDestruct "H1" as %[-> ->]. simpl. wp_step.
    iApply wp_bind. iApply wp_assert; [by apply bool_decide_eq_true |]. wp_step.
    destruct (decide (l2 = [])) as [->|Hl2].
    + iDestruct "H2" as %[-> ->]. rewrite bool_decide_true //. do 2 wp_step.
      iApply ("HQ" with "Hs Hx"). by simpl.
    + iDestruct (seg_last_ne with "Hx H2") as %Ht; [done |]. rewrite bool_decide_false //.
      do 2 wp_step. iApply ("HQ" with "Hs Hx"). destruct l2 as [|[]]; [done |]. iExact "H2".
  - rewrite seg_snoc. iDestruct "H1" as (y m ->) "[H1 Hy]". simpl. do 3 wp_step.
    destruct (decide (l2 = [])) as [->|Hl2].
    + iDestruct "H2" as %[-> ->]. rewrite /when bool_decide_true //. wp_step.
      iApply ("HQ" with "Hs Hx"). rewrite app_nil_r seg_snoc. iExists y, m. by iFrame.
    + iDestruct (seg_last_ne with "Hx H2") as %Ht; [done |]. rewrite /when bool_decide_false //.
      wp_step. iApply ("HQ" with "Hs Hx"). rewrite seg_app. iExists (Some y), nx.
      iSplitL "H1 Hy"; [rewrite seg_snoc; iExists y, m; by iFrame |].
      destruct l2 as [|[]]; [done |]. iExact "H2".
Qed.

Lemma wp_ll_erase_absent s l k Q :
  found k (upper k l) = false → ll_at s l -∗ (ll_at s l -∗ Q LL.NO_VALUE) -∗
  wp (LL.erase (Some s) k) Q.
Proof.
  iIntros (Hf) "(%h & %t & Hs & H) HQ". rewrite /LL.erase. wp_step.
  destruct (bool_decide (h = NULL)); wp_step; [iApply "HQ"; iExists h, t; iFrame |].
  iApply wp_bind. iApply (wp_searchList k with "H"). iIntros (p c) "H1 H2".
  iApply wp_bind. iApply (wp_hasKey k with "H2"). iIntros "H2". rewrite Hf /=. wp_step.
  iApply "HQ". iExists h, t. iFrame. iApply (seg_back k with "H1 H2").
Qed.

Lemma wp_ll_erase_found s l k w l' Q :
  upper k l = (k, w) :: l' → ll_at s l -∗ (ll_at s (list_delete k l) -∗ Q w) -∗
  wp (LL.erase (Some s) k) Q.
Proof.
  iIntros (Hu) "(%h & %t & Hs & H) HQ". rewrite /LL.erase. wp_step.
  iDestruct (seg_head with "H") as %Hh; [by intros -> |]. rewrite bool_decide_false //. wp_step.
  iApply wp_bind. iApply (wp_searchList k with "H"). iIntros (p c) "H1 H2".
  iApply wp_bind. iApply (wp_hasKey k with "H2"). iIntros "H2".
  rewrite Hu /= Z.eqb_refl /=. iDestruct "H2" as (x n ->) "[Hx H2]". wp_step.
  iApply wp_bind. iApply wp_assert; [apply Z.eqb_refl |]. wp_step.
  iApply wp_bind. iApply (wp_ll_unlink with "Hs H1 Hx H2"). iIntros (h' t') "Hs Hx H".
  do 4 wp_step. iApply "HQ". iExists h', t'. rewrite /list_delete Hu /=.
  assert (length l = S (length (lower k l ++ l'))) as ->.
  { rewrite -{1}(lower_upper k l) Hu !length_app /=. lia. }
  rewrite Nat2Z.inj_succ /size_t Zminus_mod_idemp_l.
  replace (Z.succ _ - 1) with (Z.of_nat (length (lower k l ++ l'))) by lia. iFrame.
Qed.

(** ** Counting, checking and destruction *)

Lemma wp_ll_deleteLoop l p c t fuel Q :
  (length l < fuel)%nat → seg p c l t NULL -∗ Q () -∗ wp (iter fuel LL.deleteStep c) Q.
Proof.
  iIntros (Hfuel) "H HQ".
  iInduction l as [|[k v] l IH] forall (fuel Hfuel p c);
    (destruct fuel as [|fuel]; [lia |]); iApply wp_iter_S; rewrite /LL.deleteStep /=.
  - iDestruct "H" as %[-> ->]. simpl. by wp_step.
  - iDestruct "H" as (x n ->) "[Hx H]". simpl. do 3 wp_step.
    iApply ("IH" with "[%] H HQ"). simpl in *; lia.
Qed.

(** Run a loop along the list segment [H]. *)
Tactic Notation "wp_along" constr(l) constr(H) :=
  iApply (wp_loop (length l)); iSplit;
    [iApply (at_least_weaken with "[-]"); [|iApply (seg_size with H)]; done |];
  let fuel := fresh "fuel" in let Hf := fresh "Hfuel" in iIntros (fuel Hf).

Lemma wp_ll_delete s l Q : ll_at s l -∗ Q () -∗ wp (LL.deleteList (Some s)) Q.
Proof.
  iIntros "(%h & %t & Hs & H) HQ". rewrite /LL.deleteList. wp_step. iApply wp_bind.
  wp_along l "H". iApply (wp_ll_deleteLoop with "H"); [done |]. by do 2 wp_step.
Qed.

Definition list_sum (f : Z → Z) (l : list (Z * Z)) : Z := foldr (λ kv s, f kv.1 + s) 0 l.

Lemma wp_ll_sumLoop f l p c t n fuel Q :
  (length l < fuel)%nat → 0 ≤ n → Forall (λ kv, 0 ≤ f kv.1) l → n + list_sum f l < 2 ^ 31 →
  seg p c l t NULL -∗ (seg p c l t NULL -∗ Q (n + list_sum f l)) -∗
  wp (iter fuel (LL.sumStep f) (n, c)) Q.
Proof.
  iIntros (Hfuel Hn Hf Hsum) "H HQ".
  iInduction l as [|[k v] l IH] forall (fuel Hfuel p c n Hn Hf Hsum Q);
    (destruct fuel as [|fuel]; [lia |]); iApply wp_iter_S; rewrite /LL.sumStep /=.
  - iDestruct "H" as %[-> ->]. simpl. wp_step. rewrite Z.add_0_r. by iApply "HQ".
  - iDestruct "H" as (x nx ->) "[Hx H]". simpl. do 3 wp_step. simpl in Hsum.
    inversion_clear Hf. simpl in *.
    assert (0 ≤ list_sum f l).
    { clear -H0. induction H0; simpl in *; [done |]. unfold list_sum in *. lia. }
    rewrite int_small; [|unfold list_sum in *; lia].
    iApply ("IH" with "[%] [%] [%] [%] H"); [simpl in *; lia | lia | done | unfold list_sum in *; lia |].
    iIntros "H". rewrite -Z.add_assoc. iApply "HQ". iExists x, nx. by iFrame.
Qed.

Lemma wp_ll_sum f s l Q :
  Forall (λ kv, 0 ≤ f kv.1) l → list_sum f l < 2 ^ 31 →
  ll_at s l -∗ (ll_at s l -∗ Q (list_sum f l)) -∗
  wp (curr ← (Some s) ~> LL.head; sum ← loop (LL.sumStep f) (0, curr); mret (size_t sum)) Q.
Proof.
  iIntros (Hf Hsum) "(%h & %t & Hs & H) HQ". wp_step. iApply wp_bind. wp_along l "H".
  iApply (wp_ll_sumLoop with "H"); [done.. |]. iIntros "H". wp_step.
  assert (0 ≤ list_sum f l).
  { clear -Hf. unfold list_sum. induction Hf; simpl in *; [done |]. lia. }
  rewrite Z.add_0_l {2}/size_t (Z.mod_small (list_sum f l)); [|lia]. iApply "HQ". iExists h, t. iFrame.
Qed.

Lemma wp_ll_checkLoop l p c t fuel Q :
  ordered l → (length l < fuel)%nat →
  seg p c l t NULL -∗ (seg p c l t NULL -∗ Q true) -∗
  wp (iter fuel LL.checkSortedOrderStep (true, c)) Q.
Proof.
  iIntros (Hord Hfuel) "H HQ".
  iInduction l as [|[k v] l IH] forall (fuel Hfuel p c Hord Q);
    (destruct fuel as [|fuel]; [lia |]); iApply wp_iter_S; rewrite /LL.checkSortedOrderStep /=.
  - iDestruct "H" as %[-> ->]. simpl. wp_step. by iApply "HQ".
  - iDestruct "H" as (x n ->) "[Hx H]". simpl. wp_step. apply ordered_cons in Hord as [Hord Hall].
    iApply wp_bind.
    iAssert (wp (if n != NULL then pk ← (Some x) ~> LL.key; ck ← n ~> LL.key; mret (pk <? ck)
      else mret true) (λ b, <affine> ⌜b = true⌝ ∗ x ↦ ListNode k v n ∗ seg (Some x) n l t NULL))%I
      with "[Hx H]" as "Hcmp".
    { destruct l as [|[k2 v2] l]; simpl.
      - iDestruct "H" as %[-> ->]. simpl. wp_step. by iFrame.
      - iDestruct "H" as (y n2 ->) "[Hy H]". simpl. do 3 wp_step. iFrame. iPureIntro.
        split; [|done]. apply Z.ltb_lt. apply (Hall (k2, v2)). by left. }
    iApply (wp_wand with "Hcmp"). iIntros (b) "(-> & Hx & H)". simpl. wp_step.
    iApply ("IH" with "[%] [//] H"); [simpl in *; lia |]. iIntros "H". iApply "HQ".
    iExists x, n. by iFrame.
Qed.

Lemma wp_ll_check s l Q :
  ordered l → ll_at s l -∗ (ll_at s l -∗ Q true) -∗ wp (LL.checkSortedOrder (Some s)) Q.
Proof.
  iIntros (Hord) "(%h & %t & Hs & H) HQ". rewrite /LL.checkSortedOrder. wp_step.
  wp_along l "H". iApply (wp_ll_checkLoop with "H"); [done.. |]. iIntros "H". iApply "HQ".
  iExists h, t. iFrame.
Qed.

(** ** Join and split *)

Lemma wp_ll_isEmpty s l Q :
  ll_at s l -∗ (ll_at s l -∗ Q (bool_decide (l = []))) -∗ wp (LL.isEmpty (Some s)) Q.
Proof.
  iIntros "(%h & %t & Hs & H) HQ". rewrite /LL.isEmpty. do 2 wp_step.
  destruct (decide (l = [])) as [->|Hl].
  - iDestruct "H" as %[-> ->]. iApply "HQ". iExists NULL, NULL. by iFrame.
  - iDestruct (seg_head with "H") as %Hh; [done |].
    rewrite !bool_decide_false //. iApply "HQ". iExists h, t. iFrame.
Qed.

(** An object that [join] or [split] has taken the nodes of: its members are
    not reset. *)
Definition ll_spent (s : loc) : hprop := (∃ o : linked_list, s ↦ o)%I.

Lemma size_t_add a b :
  size_t (size_t (Z.of_nat a) + size_t (Z.of_nat b)) = size_t (Z.of_nat (a + b)).
Proof. rewrite /size_t -Zplus_mod. f_equal. lia. Qed.

Lemma wp_ll_join s1 s2 l1 l2 Q :
  ordered (l1 ++ l2) →
  ll_at s1 l1 -∗ ll_at s2 l2 -∗
  (∀ s, ll_at s (l1 ++ l2) -∗ ll_spent s1 -∗ ll_spent s2 -∗ Q (Some s)) -∗
  wp (LL.join (Some s1) (Some s2)) Q.
Proof.
  iIntros (Hord) "H1 (%h2 & %t2 & Hs2 & H2) HQ". rewrite /LL.join /LL.getSize. wp_step.
  iApply wp_bind. iApply wp_assert; [done |]. iApply wp_bind. iApply wp_new. iIntros (s) "Hs".
  iApply wp_bind. iApply (wp_ll_isEmpty with "H1"). iIntros "(%h1 & %t1 & Hs1 & H1)".
  destruct (decide (l1 = [])) as [->|Hl1].
  { simpl. do 8 wp_step. iDestruct "H1" as %[-> ->]. rewrite size_t_add.
    iApply ("HQ" with "[Hs H2] [Hs1] [Hs2]"); [|by iExists _..]. iExists h2, t2. iFrame. }
  rewrite bool_decide_false //.
  iApply wp_bind. iApply (wp_ll_isEmpty s2 l2 with "[Hs2 H2]"); [iExists h2, t2; iFrame |].
  iIntros "H". iDestruct "H" as (h2' t2') "[Hs2 H2]".
  destruct l2 as [|[k2 v2] l2].
  { simpl. do 8 wp_step. iDestruct "H2" as %[-> ->]. rewrite size_t_add app_nil_r Nat.add_0_r.
    iApply ("HQ" with "[Hs H1] [Hs1] [Hs2]"); [|by iExists _..]. iExists h1, t1. iFrame. }
  destruct l1 as [|[k1 v1] l1 _] using rev_ind; [done |].
  iDestruct (seg_snoc with "H1") as (x m ->) "[H1 Hx]".
  iDestruct "H2" as (y n2 ->) "[Hy H2]". simpl. do 4 wp_step.
  iApply wp_bind. iApply wp_assert.
  { apply Z.ltb_lt. apply ordered_app in Hord as (_ & _ & Hb).
    apply (Hb (k1, v1) (k2, v2)); [apply elem_of_app; right; by left | by left]. }
  do 11 wp_step. rewrite size_t_add.
  iApply ("HQ" with "[Hs H1 Hx Hy H2] [Hs1] [Hs2]"); [|by iExists _..].
  iExists h1, t2'. rewrite !length_app /=. iFrame "Hs". iApply seg_app. iExists (Some x), (Some y).
  iSplitL "H1 Hx"; [iApply seg_snoc; iExists x, m; by iFrame | iExists y, n2; by iFrame].
Qed.

Lemma wp_ll_splitLoop n cnt l p c t fuel Q :
  (length l < fuel)%nat → (n < length l)%nat → 0 ≤ cnt → cnt + Z.of_nat n < 2 ^ 31 →
  seg p c l t NULL -∗
  (∀ p' c', seg p c (take n l) p' c' -∗ seg p' c' (drop n l) t NULL -∗ Q (p', c')) -∗
  wp (iter fuel (LL.splitStep (cnt + Z.of_nat n)) (cnt, p, c)) Q.
Proof.
  iIntros (Hfuel Hn Hcnt Hmax) "H HQ".
  iInduction n as [|n IH] forall (l fuel Hfuel Hn p c cnt Hcnt Hmax Q);
    (destruct fuel as [|fuel]; [lia |]); iApply wp_iter_S; rewrite /LL.splitStep.
  - rewrite Z.add_0_r Z.ltb_irrefl. wp_step. iApply ("HQ" $! p c with "[//]").
    rewrite drop_0 //.
  - destruct (Z.ltb_spec cnt (cnt + Z.of_nat (S n))); [|lia].
    destruct l as [|[k v] l]; [simpl in *; lia |]. iDestruct "H" as (x nx ->) "[Hx H]".
    do 2 wp_step. rewrite int_small; [|lia].
    replace (cnt + Z.of_nat (S n)) with (cnt + 1 + Z.of_nat n) by lia.
    iApply ("IH" with "[%] [%] [%] [%] H"); [simpl in *; lia.. |].
    iIntros (p' c') "H1 H2". iApply ("HQ" with "[Hx H1] H2"). iExists x, nx. by iFrame.
Qed.

Lemma seg_last p0 h l t q :
  l ≠ [] → seg p0 h l t q -∗
  ∃ z o, <affine> ⌜t = Some z ∧ ln_next o = q⌝ ∗ z ↦ o ∗ (z ↦ o -∗ seg p0 h l t q).
Proof.
  iIntros (Hl) "H". destruct l as [|[k v] l _] using rev_ind; [done |].
  iDestruct (seg_snoc with "H") as (z m ->) "[H Hz]". iExists z, _. iFrame "Hz".
  iSplit; [done |]. iIntros "Hz". iApply seg_snoc. iExists z, m. by iFrame.
Qed.

(** The two lists made of a list that is cut after its node [x]. *)
Lemma wp_ll_splitLists s h t sz m x y l1 l2 k1 v1 k v n2 n a Q :
  a = Z.of_nat (S (length l1)) → n - a = Z.of_nat (S (length l2)) → - 2 ^ 31 ≤ k < 2 ^ 31 →
  s ↦ LinkedList h t sz -∗ seg NULL h l1 m (Some x) -∗ x ↦ ListNode k1 v1 (Some y) -∗
  y ↦ ListNode k v n2 -∗ seg (Some y) n2 l2 t NULL -∗
  (∀ s1 s2, ll_at s1 (l1 ++ [(k1, v1)]) -∗ ll_at s2 ((k, v) :: l2) -∗ ll_spent s -∗
     Q (k, Some s1, Some s2)) -∗
  wp (LL.splitLists (Some s) (Some x) (Some y) n a) Q.
Proof.
  iIntros (Ha Hna Hk) "Hs H1 Hx Hy H2 HQ". rewrite /LL.splitLists. wp_step.
  rewrite int_small; [|done].
  iApply wp_bind. iApply wp_new. iIntros (s1) "Hs1".
  iApply wp_bind. iApply wp_new. iIntros (s2) "Hs2". do 12 wp_step.
  iApply wp_bind. iApply wp_assert; [done |]. wp_step.
  iDestruct (seg_last (Some x) (Some y) ((k, v) :: l2) with "[Hy H2]") as (z o Ht) "[Hz H2]";
    [done | iExists y, n2; by iFrame |].
  destruct Ht as [-> Hnx]. wp_step. rewrite Hnx. iApply wp_bind. iApply wp_assert; [done |].
  wp_step. iSpecialize ("H2" with "Hz"). iApply ("HQ" with "[Hs1 H1 Hx] [Hs2 H2] [Hs]").
  - iExists h, (Some x). rewrite length_app /= Nat.add_1_r -Ha. iFrame "Hs1".
    rewrite seg_snoc. iExists x, m. by iFrame.
  - iExists (Some y), (Some z). rewrite /= -Hna. iFrame "Hs2". iExact "H2".
  - by iExists _.
Qed.

(** What [split] makes of a list with at least two pairs. *)
Lemma wp_ll_split s l Q :
  (length l < 2 ^ 31) → Forall (λ kv, - 2 ^ 31 ≤ kv.1 < 2 ^ 31) l →
  ll_at s l -∗
  ((<affine> ⌜(length l ≤ 1)%nat⌝ -∗ ll_at s l -∗ Q (LL.INVALID_KEY, NULL, NULL)) ∧
   (∀ l1 k v l2 s1 s2, <affine> ⌜l = l1 ++ (k, v) :: l2 ∧ l1 ≠ []⌝ -∗ ll_at s1 l1 -∗
      ll_at s2 ((k, v) :: l2) -∗ ll_spent s -∗ Q (k, Some s1, Some s2))) -∗
  wp (LL.split (Some s)) Q.
Proof.
  iIntros (Hlen Hint) "Hl HQ". rewrite /LL.split.
  iApply wp_bind. iApply (wp_ll_isEmpty with "Hl"). iIntros "Hl".
  destruct (decide (l = [])) as [->|Hl].
  { simpl. wp_step. iDestruct "HQ" as "[HQ _]". iApply ("HQ" with "[%] Hl"). simpl. lia. }
  rewrite bool_decide_false //. iDestruct "Hl" as (h t) "[Hs H]".
  assert (size_t (Z.of_nat (length l)) = Z.of_nat (length l)) as Hsz.
  { rewrite /size_t Z.mod_small; lia. }
  rewrite Hsz. wp_step. destruct (Z.eqb_spec (Z.of_nat (length l)) 1) as [|Hne1].
  { wp_step. iDestruct "HQ" as "[HQ _]". iApply ("HQ" with "[%] [Hs H]"); [lia |].
    iExists h, t. rewrite Hsz. iFrame. }
  iDestruct "HQ" as "[_ HQ]". do 2 wp_step. rewrite int_small; [|lia].
  set (n := (length l / 2)%nat).
  assert (Z.of_nat (length l) `quot` 2 = 0 + Z.of_nat n) as Hq.
  { rewrite Z.quot_div_nonneg; [|lia..]. subst n. rewrite Nat2Z.inj_div. lia. }
  assert (1 ≤ n < length l)%nat as Hn.
  { destruct l as [|? [|]]; [done.. |]. subst n. split; [by apply Nat.div_le_lower_bound; simpl; lia |].
    apply Nat.div_lt; simpl; lia. }
  rewrite Hq. iApply wp_bind. wp_along l "H".
  iApply (wp_ll_splitLoop with "H"); [lia.. |]. iIntros (p c) "H1 H2". rewrite Z.add_0_l.
  assert (length (take n l) = n) as Htake by (rewrite length_take; lia).
  assert (length (drop n l) = length l - n)%nat as Hdrop by (rewrite length_drop; lia).
  pose proof (take_drop n l) as Htd. rewrite -Htd in Hint. apply Forall_app in Hint as [_ Hint].
  destruct (drop n l) as [|[k v] l2]; [simpl in *; lia |]. inversion_clear Hint.
  destruct (take n l) as [|[k1 v1] l1 _] using rev_ind; [simpl in *; lia |].
  iDestruct (seg_snoc with "H1") as (x m ->) "[H1 Hx]". iDestruct "H2" as (y n2 ->) "[Hy H2]".
  iApply (wp_ll_splitLists with "Hs H1 Hx Hy H2"); [| |done |].
  { rewrite length_app /= in Htake. lia. }
  { simpl in Hdrop. lia. }
  iIntros (s1 s2) "H1 H2 Hs". iApply ("HQ" with "[%] H1 H2 Hs").
  split; [by rewrite -Htd | by destruct l1].
Qed.
