(* ===== verification/ListInstance.v ===== *)
(** * ListInstance: the linked list as an ordered set *)
From S2P Require Import Prelude Memory SepLogic OrderedSet BinTree DictTree AVLSet ListSet ListProof.
#[local] Open Scope Z_scope.
#[local] Open Scope cpp_scope.

(** [split] returns its key as an [int]: the keys the list can handle. *)
Definition int_key (k : Z) : Prop := - 2 ^ 31 ≤ k < 2 ^ 31.

Definition list_of (m : gmap Z Z) (l : list (Z * Z)) : Prop :=
  ordered l ∧ to_map l = m ∧ Forall (λ kv, int_key kv.1) l.

Definition ll_set (s : loc) (m : gmap Z Z) : hprop :=
  (∃ l, <affine> ⌜list_of m l⌝ ∗ ll_at s l)%I.

(** ** The functional operations on dictionaries *)

Lemma list_of_insert m l k v :
  list_of m l → int_key k →
  list_of (dict_insert k v m) (if found k (upper k l) then l else list_insert k v l).
Proof.
  intros (Hord & <- & Hint) Hk. pose proof (lower_upper k l) as Hl. unfold dict_insert.
  destruct (found_spec k l Hord) as [(-> & Ha & ->)|(w & l' & Hu & Ha & -> & ->)]; [|done].
  pose proof (lower_below k l) as Hb. split_and!.
  - apply ordered_insert; [by rewrite Hl | done..].
  - rewrite /list_insert to_map_insert // Hl //.
  - rewrite -Hl in Hint. apply Forall_app in Hint as [??].
    apply Forall_app. split; [done |]. by constructor.
Qed.

Lemma list_of_delete m l k v l' :
  list_of m l → upper k l = (k, v) :: l' → keys_above l' k →
  list_of (delete k m) (list_delete k l).
Proof.
  intros (Hord & <- & Hint) Hu Ha. pose proof (lower_upper k l) as Hl.
  rewrite -Hl Hu in Hord Hint. unfold list_delete. rewrite Hu /=. split_and!.
  - by apply ordered_middle in Hord as [? _].
  - rewrite (to_map_delete _ k v _ (lower_below k l) Ha) -Hu Hl. done.
  - apply Forall_app in Hint as [? Hint]. inversion_clear Hint. by apply Forall_app.
Qed.

Lemma list_of_join m1 m2 l1 l2 :
  list_of m1 l1 → list_of m2 l2 → dict_before m1 m2 → list_of (m1 ∪ m2) (l1 ++ l2).
Proof.
  intros (Ho1 & <- & Hi1) (Ho2 & <- & Hi2) Hb. split_and!.
  - apply ordered_app. split_and!; [done.. |]. intros [k1 v1] [k2 v2] H1 H2.
    apply (Hb k1 k2); apply to_map_is_Some; by eexists.
  - apply to_map_app.
  - by apply Forall_app.
Qed.

Lemma list_of_split m l1 k v l2 :
  list_of m (l1 ++ (k, v) :: l2) → l1 ≠ [] →
  list_of (to_map l1) l1 ∧ list_of (to_map ((k, v) :: l2)) ((k, v) :: l2) ∧
  split_at m k (to_map l1) (to_map ((k, v) :: l2)).
Proof.
  intros (Hord & <- & Hint) Hne. apply Forall_app in Hint as [Hi1 Hi2].
  pose proof (ordered_split _ _ Hord) as [Ho1 Ho2].
  apply ordered_app in Hord as (_ & _ & Hb). split_and!; [done.. |]. split.
  - apply to_map_app.
  - intros x [w Hx]%to_map_is_Some. apply (Hb (x, w) (k, v) Hx). by left.
  - intros x [w Hx]%to_map_is_Some. apply ordered_cons in Ho2 as [_ Ho2].
    apply elem_of_cons in Hx as [[= -> ->]|Hx]; [done |]. specialize (Ho2 _ Hx).
    unfold kv_lt in Ho2. simpl in *. lia.
  - intros Hemp. destruct l1 as [|[k1 v1] l1]; [done |].
    assert (is_Some (to_map ((k1, v1) :: l1) !! k1)) as Hk.
    { apply to_map_is_Some. exists v1. by left. }
    rewrite Hemp in Hk. by destruct Hk.
  - apply to_map_is_Some. exists v. by left.
Qed.

Lemma list_of_size m l : list_of m l → size m = length l.
Proof. intros (Hord & <- & _). by apply to_map_size. Qed.

(** ** The methods on dictionaries *)

Lemma wp_lls_new Q : (∀ s, ll_set s ∅ -∗ Q (Some s)) ⊢ wp LL.newList Q.
Proof.
  iIntros "HQ". iApply wp_new. iIntros (s) "Hs". iApply "HQ". iExists [].
  iSplit; [iPureIntro; split_and!; [constructor | done | constructor] |].
  iExists NULL, NULL. by iFrame.
Qed.

Lemma wp_lls_find s m k Q :
  ll_set s m -∗ (ll_set s m -∗ Q (dict_find m k)) -∗ wp (LL.find (Some s) k) Q.
Proof.
  iIntros "(%l & %Hl & Hs) HQ". iApply (wp_ll_find with "Hs"); [apply Hl |].
  rewrite (proj1 (proj2 Hl)). iIntros "Hs". iApply "HQ". iExists l. by iFrame.
Qed.

Lemma wp_lls_insert s m k v Q :
  int_key k →
  ll_set s m -∗ (ll_set s (dict_insert k v m) -∗ Q (dict_find m k)) -∗
  wp (LL.insert (Some s) k v) Q.
Proof.
  iIntros (Hk) "(%l & %Hl & Hs) HQ". pose proof (list_of_insert m l k v Hl Hk) as Hi.
  destruct Hl as (Hord & <- & _). rewrite /dict_find.
  destruct (found_spec k l Hord) as [(Hf & Ha & ->)|(w & l' & Hu & Ha & Hf & ->)];
    rewrite Hf in Hi; simpl.
  - iApply (wp_ll_insert_absent with "Hs"); [done.. |]. iIntros "Hs". iApply "HQ".
    iExists _. by iFrame.
  - iApply (wp_ll_insert_found with "Hs"); [done |]. iIntros "Hs". iApply "HQ".
    iExists _. by iFrame.
Qed.

Lemma wp_lls_erase s m k Q :
  ll_set s m -∗ (ll_set s (delete k m) -∗ Q (dict_find m k)) -∗ wp (LL.erase (Some s) k) Q.
Proof.
  iIntros "(%l & %Hl & Hs) HQ". pose proof Hl as (Hord & Hm & _). rewrite /dict_find.
  destruct (found_spec k l Hord) as [(Hf & Ha & Hn)|(w & l' & Hu & Ha & Hf & Hn)];
    rewrite Hm in Hn; rewrite Hn /=.
  - iApply (wp_ll_erase_absent with "Hs"); [done |]. iIntros "Hs". iApply "HQ".
    rewrite delete_id //. iExists _. by iFrame.
  - iApply (wp_ll_erase_found with "Hs"); [done |]. iIntros "Hs". iApply "HQ".
    iExists _. iFrame. iPureIntro. by eapply list_of_delete.
Qed.

Lemma wp_lls_join s1 s2 m1 m2 Q :
  dict_before m1 m2 →
  ll_set s1 m1 -∗ ll_set s2 m2 -∗
  (∀ s, ll_set s (m1 ∪ m2) -∗ ll_spent s1 -∗ ll_spent s2 -∗ Q (Some s)) -∗
  wp (LL.join (Some s1) (Some s2)) Q.
Proof.
  iIntros (Hb) "(%l1 & %Hl1 & H1) (%l2 & %Hl2 & H2) HQ".
  pose proof (list_of_join _ _ _ _ Hl1 Hl2 Hb) as Hj.
  iApply (wp_ll_join with "H1 H2"); [apply Hj |]. iIntros (s) "Hs H1 H2".
  iApply ("HQ" with "[Hs] H1 H2"). iExists _. by iFrame.
Qed.

Lemma wp_lls_split s m Q :
  Z.of_nat (size m) < 2 ^ 31 →
  ll_set s m -∗
  ((<affine> ⌜(size m ≤ 1)%nat⌝ -∗ ll_set s m -∗ Q (invalid_key, NULL, NULL)) ∧
   (∀ k s1 s2 m1 m2, <affine> ⌜(1 < size m)%nat ∧ split_at m k m1 m2⌝ -∗
      ll_set s1 m1 -∗ ll_set s2 m2 -∗ ll_spent s -∗ Q (k, Some s1, Some s2))) -∗
  wp (LL.split (Some s)) Q.
Proof.
  iIntros (Hsz) "(%l & %Hl & Hs) HQ". rewrite (list_of_size m l Hl) in Hsz |- *.
  iApply (wp_ll_split with "Hs"); [done | apply Hl |]. iSplit.
  - iDestruct "HQ" as "[HQ _]". iIntros (Hle) "Hs". iApply ("HQ" with "[//]"). iExists l. by iFrame.
  - iDestruct "HQ" as "[_ HQ]". iIntros (l1 k v l2 s1 s2 [-> Hne]) "H1 H2 Hs".
    destruct (list_of_split _ _ _ _ _ Hl Hne) as (? & ? & ?).
    iApply ("HQ" with "[%] [H1] [H2] Hs"); [|iExists _; by iFrame..].
    split; [|done]. rewrite length_app /=. destruct l1; [done |]. simpl. lia.
Qed.

Lemma wp_lls_numKeys s m Q :
  Z.of_nat (size m) < 2 ^ 31 →
  ll_set s m -∗ (ll_set s m -∗ Q (Z.of_nat (size m))) -∗ wp (LL.numKeys (Some s)) Q.
Proof.
  iIntros (Hsz) "(%l & %Hl & Hs) HQ". rewrite (list_of_size m l Hl) in Hsz |- *.
  assert (∀ l : list (Z * Z), list_sum (λ _, 1) l = Z.of_nat (length l)) as Hlen.
  { unfold list_sum. induction l0; simpl; [done |]. lia. }
  iApply (wp_ll_sum with "Hs"); [by apply Forall_forall | by rewrite Hlen |]. rewrite Hlen.
  iIntros "Hs". iApply "HQ". iExists l. by iFrame.
Qed.

Lemma wp_lls_sumOfKeys s m Q :
  dict_from m 0 → dict_sum id m < 2 ^ 31 →
  ll_set s m -∗ (ll_set s m -∗ Q (dict_sum id m)) -∗ wp (LL.sumOfKeys (Some s)) Q.
Proof.
  iIntros (Hf Hsum) "(%l & %Hl & Hs) HQ". pose proof Hl as (Hord & Hm & _).
  rewrite -Hm dict_sum_to_map // in Hsum |- *. iApply (wp_ll_sum with "Hs"); [|done|].
  { apply Forall_forall. intros [k v] Hin. apply Hf. rewrite -Hm. apply to_map_is_Some. by exists v. }
  iIntros "Hs". rewrite Hm. iApply "HQ". iExists l. by iFrame.
Qed.

(** ** The interface *)

Definition list_oset : IOrderedSet := {|
  oset_new := LL.newList;
  oset_find := LL.find;
  oset_insert := LL.insert;
  oset_erase := LL.erase;
  oset_numKeys := LL.numKeys;
  oset_sumOfKeys := LL.sumOfKeys;
  oset_join := LL.join;
  oset_split := LL.split;
  oset_delete := LL.deleteList;
|}.

Program Definition list_oset_laws : OrderedSetLaws list_oset := {|
  is_set := ll_set;
  spent := ll_spent;
  valid_key := int_key;
  splittable m := Z.of_nat (size m) < 2 ^ 31;
  oset_new_law := wp_lls_new;
  oset_find_law := wp_lls_find;
  oset_insert_law := wp_lls_insert;
  oset_erase_law := wp_lls_erase;
  oset_split_law := wp_lls_split;
  oset_numKeys_law := wp_lls_numKeys;
  oset_sumOfKeys_law := wp_lls_sumOfKeys;
|}.
Next Obligation. intros. by apply wp_lls_join. Qed.
Next Obligation. iIntros (s m Q) "(%l & %Hl & Hs) HQ". iApply (wp_ll_delete with "Hs HQ"). Qed.

(** ** Contracts *)

(** Refinement: from the empty store, any sequence of [find], [insert] and
    [erase] on a new [LinkedList], with [int] keys, returns what the same
    sequence returns on a finite dictionary, and after the destructor the store
    is empty again. *)
Lemma list_session_refines (ops : list set_op)
    (Hvalid : Forall (λ op, match op with OpInsert k _ => int_key k | _ => True end) ops) :
  session (OS := list_oset) ops ∅ = Ok (dict_ops ∅ ops).1 ∅.
Proof. by apply (session_refines (Laws := list_oset_laws)). Qed.

(** [LinkedList::join] of two lists, every key of the first below every
    key of the second, returns a new list with the union. *)
Lemma list_join_correct s1 s2 m1 m2 (Hbefore : dict_before m1 m2) :
  ⦃ ll_set s1 m1 ∗ ll_set s2 m2 ⦄
    LL.join (Some s1) (Some s2)
  ⦃ r, ∃ s, <affine> ⌜r = Some s⌝ ∗ ll_set s (m1 ∪ m2) ∗ ll_spent s1 ∗ ll_spent s2 ⦄.
Proof.
  apply hoare_wp. iIntros "[H1 H2]". iApply (wp_lls_join with "H1 H2"); [done |].
  iIntros (s) "Hs H1 H2". iExists s. by iFrame.
Qed.

Lemma list_join_correct_witness :
  ⦃ ll_set 1 {[1 := 10]} ∗ ll_set 2 {[5 := 50]} ⦄
    LL.join (Some 1%positive) (Some 2%positive)
  ⦃ r, ∃ s, <affine> ⌜r = Some s⌝ ∗ ll_set s ({[1 := 10]} ∪ {[5 := 50]}) ∗
       ll_spent 1 ∗ ll_spent 2 ⦄.
Proof.
  apply (list_join_correct 1 2 {[1 := 10]} {[5 := 50]}).
  intros x y [? [<- _]%lookup_singleton_Some] [? [<- _]%lookup_singleton_Some]. lia.
Defined.

(** [LinkedList::split] of a list with fewer than [2^31] keys: with at most
    one key it reports [INVALID_KEY] and changes nothing, otherwise it returns a
    key and two non-empty lists, the first with exactly the smaller keys. *)
Lemma list_split_correct s m (Hsize : Z.of_nat (size m) < 2 ^ 31) :
  ⦃ ll_set s m ⦄
    LL.split (Some s)
  ⦃ r, (<affine> ⌜(size m ≤ 1)%nat ∧ r = (LL.INVALID_KEY, NULL, NULL)⌝ ∗ ll_set s m) ∨
       (∃ k s1 s2 m1 m2, <affine> ⌜(1 < size m)%nat ∧ r = (k, Some s1, Some s2)⌝ ∗
          <affine> ⌜split_at m k m1 m2⌝ ∗ ll_set s1 m1 ∗ ll_set s2 m2 ∗ ll_spent s) ⦄.
Proof.
  apply hoare_wp. iIntros "Hs". iApply (wp_lls_split with "Hs"); [done |]. iSplit.
  - iIntros (Hm) "Hs". iLeft. by iFrame.
  - iIntros (k s1 s2 m1 m2 [Hm Hsp]) "H1 H2 Hs". iRight. iExists k, s1, s2, m1, m2. by iFrame.
Qed.

Definition two_keys : gmap Z Z := {[1 := 10; 5 := 50]}.

Lemma list_split_correct_witness :
  ⦃ ll_set 7 two_keys ⦄
    LL.split (Some 7%positive)
  ⦃ r, (<affine> ⌜(size two_keys ≤ 1)%nat ∧ r = (LL.INVALID_KEY, NULL, NULL)⌝ ∗
          ll_set 7 two_keys) ∨
       (∃ k s1 s2 m1 m2, <affine> ⌜(1 < size two_keys)%nat ∧ r = (k, Some s1, Some s2)⌝ ∗
          <affine> ⌜split_at two_keys k m1 m2⌝ ∗ ll_set s1 m1 ∗ ll_set s2 m2 ∗ ll_spent 7) ⦄.
Proof. apply (list_split_correct 7 two_keys). vm_compute. reflexivity. Defined.

(** The self-check [checkSortedOrder] accepts every list that the
    operations build. *)
Lemma list_check_holds s m :
  ⦃ ll_set s m ⦄ LL.checkSortedOrder (Some s) ⦃ r, <affine> ⌜r = true⌝ ∗ ll_set s m ⦄.
Proof.
  apply hoare_wp. iIntros "(%l & %Hl & Hs)". iApply (wp_ll_check with "Hs"); [apply Hl |].
  iIntros "Hs". iSplit; [done |]. iExists l. by iFrame.
Qed.

(** Joins two sets with one key each and deletes all three set objects. *)
Definition join_and_delete (OS : IOrderedSet) : M unit :=
  s1 ← oset_new; oset_insert s1 1 10;; s2 ← oset_new; oset_insert s2 5 50;;
  s ← oset_join s1 s2; oset_delete s1;; oset_delete s2;; oset_delete s.

