(* ===== verification/Prog.v ===== *)
(** * Prog: programs made of atomic accesses to the shared store

    The contention-adapting tree is used by several threads.  Its operations
    are programs: sequences of atomic actions on the store, each followed by a
    continuation.  [run] executes a program without interruption. A mutex is a
    boolean member; taking one that is held is the fault [Deadlock], which a
    scheduler reads as "this thread has to wait". *)
From S2P Require Import Prelude Memory SepLogic.
#[local] Open Scope cpp_scope.

Inductive prog (A : Type) : Type :=
  | Ret (a : A)
  | Act (B : Type) (m : M B) (k : B → prog A).
Arguments Ret {_} _.
Arguments Act {_} _ _ _.

#[global] Instance prog_ret : MRet prog := λ A a, Ret a.
#[global] Instance prog_bind : MBind prog := λ A B f,
  fix bind p := match p with Ret a => f a | Act C m k => Act C m (λ c, bind (k c)) end.

Definition atomic {A} (m : M A) : prog A := Act A m Ret.

Fixpoint run {A} (p : prog A) : M A :=
  match p with Ret a => mret a | Act _ m k => c ← m; run (k c) end.

(** [piter fuel body s] is the loop [iter] for programs; a loop that needs more
    than [fuel] turns is the fault [OutOfFuel]. *)
Fixpoint piter {S R} (fuel : nat) (body : S → prog (S + R)) (s : S) : prog R :=
  match fuel with
  | O => atomic (throw OutOfFuel)
  | Datatypes.S n =>
      x ← body s;
      match x with inl s' => piter n body s' | inr r => mret r end
  end.

(** A program with bounded loops, run with as much fuel as the store has
    objects. *)
Definition exec {A} (p : nat → prog A) : M A := with_fuel (λ fuel, run (p fuel)).

Definition pwhen (b : bool) (p : prog unit) : prog unit := if b then p else mret ().

Notation "p ⇝ f" := (atomic (get p f)) (at level 15, f at level 9) : cpp_scope.
Notation "p ⇝ f ::= x" := (atomic (put p f x)) (at level 15, f at level 9, x at level 60) : cpp_scope.

(** [std::mutex] as a member [m] of the object at [p] *)
Definition mutex_try_lock {O} `{Object O} (p : ptr) (m : field O bool) : M bool :=
  held ← p ~> m;
  if (held : bool) then mret false else p ~> m ::= true;; mret true.
Definition mutex_lock {O} `{Object O} (p : ptr) (m : field O bool) : M unit :=
  held ← p ~> m;
  if (held : bool) then throw Deadlock else p ~> m ::= true.
Definition mutex_unlock {O} `{Object O} (p : ptr) (m : field O bool) : M unit :=
  p ~> m ::= false.

(** ** Weakest preconditions of programs run alone *)

Lemma run_bind {A B} (p : prog A) (f : A → prog B) h :
  run (p ≫= f) h = (a ← run p; run (f a)) h.
Proof.
  revert h. induction p as [a|C m k IH]; intros h; [done |].
  cbn. unfold mbind, M_bind. destruct (m h) as [c h'|e]; [|done]. apply IH.
Qed.

Lemma run_bind_fault {A B} (p : prog A) (f : A → prog B) h e :
  run p h = Fault e → run (p ≫= f) h = Fault e.
Proof. intros Hp. rewrite run_bind /mbind /M_bind. by rewrite Hp. Qed.

Lemma run_atomic {A} (m : M A) h : run (atomic m) h = m h.
Proof. cbn. unfold mbind, M_bind. by destruct (m h). Qed.

Lemma run_atomic_bind {A B} (m : M A) (f : A → prog B) h :
  run (atomic m ≫= f) h = match m h with Ok a h' => run (f a) h' | Fault e => Fault e end.
Proof. rewrite run_bind {1}/mbind /M_bind run_atomic. done. Qed.

Lemma wp_run_ret {A} (a : A) Q : Q a ⊢ wp (run (mret a)) Q.
Proof. apply wp_ret. Qed.

Lemma wp_run_bind {A B} (p : prog A) (f : A → prog B) Q :
  wp (run p) (λ a, wp (run (f a)) Q) ⊢ wp (run (p ≫= f)) Q.
Proof. rewrite wp_bind. apply wp_ext, run_bind. Qed.

Lemma wp_run_atomic {A} (m : M A) Q : wp m Q ⊢ wp (run (atomic m)) Q.
Proof. simpl. iIntros "H". iApply wp_bind. iApply (wp_wand with "H"). iIntros (a) "H". by iApply wp_ret. Qed.

Lemma wp_piter_S {S R} n (body : S → prog (S + R)) s Q :
  wp (run (body s)) (λ x, match x with inl s' => wp (run (piter n body s')) Q | inr r => Q r end)
  ⊢ wp (run (piter (Datatypes.S n) body s)) Q.
Proof.
  iIntros "H". iApply wp_run_bind. iApply (wp_wand with "H"). iIntros ([s'|r]) "H"; [done |].
  by iApply wp_run_ret.
Qed.

Lemma wp_exec {A} n (p : nat → prog A) Q :
  at_least n ∧ (∀ fuel, ⌜n < fuel⌝ → wp (run (p fuel)) Q) ⊢ wp (exec p) Q.
Proof. apply wp_with_fuel. Qed.

Section mutex.
Context {O : Type} `{Object O}.
Implicit Types (m : field O bool).

Lemma wp_mutex_try_lock l (o : O) m Q :
  fget m o = false →
  l ↦ o -∗ (l ↦ fset m true o -∗ Q true) -∗ wp (mutex_try_lock (Some l) m) Q.
Proof.
  iIntros (Hm) "Hl HQ". rewrite /mutex_try_lock. wp_step. rewrite Hm. do 2 wp_step.
  by iApply "HQ".
Qed.

Lemma wp_mutex_try_lock_any l (o : O) m Q :
  l ↦ o -∗ (if fget m o then l ↦ o -∗ Q false else l ↦ fset m true o -∗ Q true) -∗ wp (mutex_try_lock (Some l) m) Q.
Proof.
  iIntros "Hl HQ". destruct (fget m o) eqn:Hm; [|by iApply (wp_mutex_try_lock with "Hl")].
  rewrite /mutex_try_lock. wp_step. rewrite Hm. wp_step. by iApply "HQ".
Qed.

Lemma wp_mutex_lock l (o : O) m Q :
  fget m o = false →
  l ↦ o -∗ (l ↦ fset m true o -∗ Q ()) -∗ wp (mutex_lock (Some l) m) Q.
Proof.
  iIntros (Hm) "Hl HQ". rewrite /mutex_lock. wp_step. rewrite Hm. wp_step. by iApply "HQ".
Qed.

Lemma wp_mutex_unlock l (o : O) m Q :
  l ↦ o -∗ (l ↦ fset m false o -∗ Q ()) -∗ wp (mutex_unlock (Some l) m) Q.
Proof. iIntros "Hl HQ". rewrite /mutex_unlock. wp_step. by iApply "HQ". Qed.
End mutex.

(** [cwp_step] executes the next action of a program. *)
Ltac cwp_step_core :=
  lazymatch goal with
  | |- environments.envs_entails _ (wp (run (mbind _ _)) _) => iApply wp_run_bind; cwp_step_core
  | |- environments.envs_entails _ (wp (run (mret _)) _) => iApply wp_run_ret
  | |- environments.envs_entails _ (wp (run (atomic _)) _) => iApply wp_run_atomic; wp_step_core
  end.
Tactic Notation "cwp_step" := cwp_step_core; simpl.

Arguments run : simpl never.
Arguments atomic : simpl never.
Arguments piter : simpl never.
Arguments exec : simpl never.
Arguments pwhen : simpl never.
Arguments mutex_try_lock : simpl never.
Arguments mutex_lock : simpl never.
Arguments mutex_unlock : simpl never.
#[global] Opaque run prog_bind prog_ret atomic.
