(* ===== verification/Threads.v ===== *)
(** * Threads: interleaved execution of programs and a logic for it

    Several threads call operations on one store.  [tstep] interleaves their
    atomic actions in any order.  A thread whose next action is a mutex that is
    held waits, and a thread whose loop has used up its fuel has stopped; every
    other fault of an action is an error.

    The logic is rely-guarantee reasoning about a protocol: a transition system
    on an abstract state, [rep] of which is the store.  Each action of a thread
    has to take a step of the protocol, and what a thread knows in between has
    to be stable under the steps of the others. *)
From S2P Require Import Prelude Memory SepLogic Prog.
#[local] Open Scope cpp_scope.
#[local] Transparent prog_bind prog_ret atomic.

(** ** Threads that call operations *)

Section machine.
Context {Op Res : Type}.

(** A thread with the calls it has completed and those it has still to make;
    in [Busy] it is executing [p], what is left of the code of [op]. *)
Inductive thread :=
  | Idle (past : list (Op * Res)) (todo : list Op)
  | Busy (past : list (Op * Res)) (op : Op) (p : prog Res) (todo : list Op).

Definition config : Type := list thread * heap.

Definition started (calls : list (list Op)) : list thread := Idle [] <$> calls.

(** The next action of a thread has the fault [e]. *)
Definition faults (c : config) (e : fault) : Prop :=
  ∃ i past op B (m : M B) k todo, c.1 !! i = Some (Busy past op (Act B m k) todo) ∧ m c.2 = Fault e.
Definition finished (c : config) : Prop := ∀ i t, c.1 !! i = Some t → ∃ past, t = Idle past [].

(** No thread is about to fail. *)
Definition harmless (c : config) : Prop := ∀ e, faults c e → e = Deadlock ∨ e = OutOfFuel.

(** ** Linearizability

    A history is a sequence of completed operations with the threads that made
    them.  It explains a configuration when an object with the sequential
    behaviour [spec] returns these results, and every thread has in it the
    calls it has completed, in order, and possibly the one it is executing. *)
Context {State : Type} (spec : State → Op → Res * State).

Abbreviation history := (list (nat * (Op * Res))).

Definition of_thread (i : nat) (H : history) : list (Op * Res) :=
  snd <$> filter (λ e, e.1 = i) H.
Fixpoint legal (s : State) (H : history) : Prop :=
  match H with [] => True | (_, (op, r)) :: H => r = (spec s op).1 ∧ legal (spec s op).2 H end.
Fixpoint replay (s : State) (H : history) : State :=
  match H with [] => s | (_, (op, _)) :: H => replay (spec s op).2 H end.

Definition accounts (H : history) (i : nat) (t : option thread) : Prop :=
  match t with
  | None => of_thread i H = []
  | Some (Idle past _) => of_thread i H = past
  | Some (Busy past op _ _) => of_thread i H = past ∨ ∃ r, of_thread i H = past ++ [(op, r)]
  end.
Definition explains (s : State) (H : history) (c : config) : Prop :=
  legal s H ∧ ∀ i, accounts H i (c.1 !! i).

Lemma of_thread_app i H1 H2 : of_thread i (H1 ++ H2) = of_thread i H1 ++ of_thread i H2.
Proof. by rewrite /of_thread filter_app fmap_app. Qed.
Lemma legal_app s H1 H2 : legal s (H1 ++ H2) ↔ legal s H1 ∧ legal (replay s H1) H2.
Proof. revert s. induction H1 as [|[j [op r]] H1 IH]; intros s; simpl; [tauto |]. rewrite IH. tauto. Qed.
Lemma replay_app s H1 H2 : replay s (H1 ++ H2) = replay (replay s H1) H2.
Proof. revert s. induction H1 as [|[j [op r]] H1 IH]; intros s; simpl; [done | apply IH]. Qed.

(** ** Execution

    [code i op]: the program that thread [i] runs when it calls [op]. *)
Context (code : nat → Op → prog Res).

Inductive tstep : config → config → Prop :=
  | TCall i ts h past op todo :
      ts !! i = Some (Idle past (op :: todo)) →
      tstep (ts, h) (<[i := Busy past op (code i op) todo]> ts, h)
  | TAct i ts h past op B (m : M B) k todo b h' :
      ts !! i = Some (Busy past op (Act B m k) todo) → m h = Ok b h' →
      tstep (ts, h) (<[i := Busy past op (k b) todo]> ts, h')
  | TReturn i ts h past op r todo :
      ts !! i = Some (Busy past op (Ret r) todo) →
      tstep (ts, h) (<[i := Idle (past ++ [(op, r)]) todo]> ts, h).

(** One step of thread [i], executed; it has none when it is waiting, when it
    has finished or when its action fails. *)
Definition step_of (i : nat) (c : config) : option config :=
  match c.1 !! i with
  | Some (Idle past (op :: todo)) => Some (<[i := Busy past op (code i op) todo]> c.1, c.2)
  | Some (Busy past op (Act B m k) todo) =>
      match m c.2 with Ok b h' => Some (<[i := Busy past op (k b) todo]> c.1, h') | Fault _ => None end
  | Some (Busy past op (Ret r) todo) => Some (<[i := Idle (past ++ [(op, r)]) todo]> c.1, c.2)
  | _ => None
  end.

Lemma tstep_step_of c c' : tstep c c' ↔ ∃ i, step_of i c = Some c'.
Proof.
  split.
  - intros Hs. destruct Hs as [i ts h past op todo Hi|i ts h past op B m k todo b h' Hi Hm|i ts h past op r todo Hi]; exists i;
      rewrite /step_of /= Hi //. by rewrite Hm.
  - destruct c as [ts h]. intros [i Hs]. rewrite /step_of /= in Hs. destruct (ts !! i) as [[past [|op todo]|past op [r|B m k] todo]|] eqn:Hi; simplify_eq.
    + by constructor.
    + by constructor.
    + destruct (m h) as [b h'|] eqn:Hm; simplify_eq. by econstructor.
Qed.

(** Thread [i] takes up to [n] steps; a schedule gives each thread its turns. *)
Fixpoint steps_of (i n : nat) (c : config) : config :=
  match n with O => c | S n => match step_of i c with Some c' => steps_of i n c' | None => c end end.
Definition play (sched : list (nat * nat)) (c : config) : config := fold_left (λ c e, steps_of e.1 e.2 c) sched c.

Lemma play_reaches sched c : rtc tstep c (play sched c).
Proof.
  revert c. induction sched as [|[i n] sched IH]; intros c; [done |]. etrans; [|apply IH]. simpl. clear IH.
  revert c. induction n as [|n IH]; intros c; simpl; [done |]. destruct (step_of i c) as [c'|] eqn:Hs; [|done].
  eapply rtc_l; [|apply IH]. apply tstep_step_of. by exists i.
Qed.

(** Whether any thread can go on, and whether one is out of fuel, can be decided. *)
Lemma tstep_or_stuck c : (∃ c', tstep c c') ∨ (∀ c', ¬ tstep c c').
Proof.
  destruct (decide (Exists (λ i, is_Some (step_of i c)) (seq 0 (length c.1)))) as [He|Hno].
  - left. apply Exists_exists in He as (i & _ & c' & Hs). exists c'. apply tstep_step_of. by exists i.
  - right. intros c' [i Hs]%tstep_step_of. apply Hno, Exists_exists. exists i. split; [|by exists c'].
    apply elem_of_seq. split; [lia |]. rewrite /step_of in Hs. destruct (c.1 !! i) eqn:Hi; [|done]. by apply lookup_lt_Some in Hi.
Qed.
Lemma fuel_or_not c : faults c OutOfFuel ∨ ¬ faults c OutOfFuel.
Proof.
  set (out t := match t with Busy _ _ (Act B m k) _ => match m c.2 with Fault OutOfFuel => True | _ => False end | _ => False end).
  assert (∀ t, Decision (out t)) by (intros [|? ? [|B m k] ?]; simpl; [apply _ | apply _ |]; destruct (m c.2) as [|[]]; apply _).
  destruct (decide (Exists out c.1)) as [He|Hno].
  - left. apply Exists_exists in He as (t & Ht & Hout). apply list_elem_of_lookup in Ht as [i Hi].
    destruct t as [|past op [|B m k] todo]; [done | done |]. simpl in Hout. destruct (m c.2) as [|e] eqn:Hm; [done |].
    destruct e; try done. by exists i, past, op, B, m, k, todo.
  - right. intros (i & past & op & B & m & k & todo & Hi & Hm). apply Hno, Exists_exists. eexists. split; [by eapply list_elem_of_lookup_2 |].
    simpl. by rewrite Hm.
Qed.

(** A run, and its explanation: every configuration has a history that extends
    the one before, so an operation takes effect between its call and its
    return. *)
Fixpoint run_of (c : config) (cs : list config) : Prop :=
  match cs with [] => True | c' :: cs => tstep c c' ∧ run_of c' cs end.
Fixpoint explained (s : State) (H : history) (c : config) (cs : list config) : Prop :=
  explains s H c ∧
  match cs with [] => True | c' :: cs => ∃ H', H `prefix_of` H' ∧ explained s H' c' cs end.
Definition linearizable (s : State) (c : config) : Prop := ∀ cs, run_of c cs → explained s [] c cs.

End machine.
Arguments thread : clear implicits.
Arguments config : clear implicits.

(** ** Actions that may have to wait *)

(** [W] holds when the action has to wait. *)
Definition awp {A} (W : Prop) (m : M A) (Q : A → hprop) : hprop := HProp (λ h,
  ∀ hf, h ##ₘ hf → match m (h ∪ hf) with
    | Ok a h1 => ∃ h', h1 = h' ∪ hf ∧ h' ##ₘ hf ∧ holds (Q a) h'
    | Fault Deadlock => W
    | Fault OutOfFuel => True
    | Fault _ => False
    end).

Lemma awp_wp {A} W (m : M A) Q : wp m Q ⊢ awp W m Q.
Proof. split=> h Hm hf Hd. destruct (Hm hf Hd) as (a & h' & -> & ? & ?). by exists h'. Qed.

Lemma awp_stopped {A} W (Q : A → hprop) P : P ⊢ awp W (throw OutOfFuel) Q.
Proof. by split=> h _ hf _. Qed.

Lemma awp_mutex_lock {O} `{Object O} W l (o : O) (m : field O bool) Q :
  (fget m o = true → W) →
  l ↦ o -∗ (⌜fget m o = false⌝ → l ↦ fset m true o -∗ Q ()) -∗ awp W (mutex_lock (Some l) m) Q.
Proof.
  iIntros (HW) "Hl HQ". destruct (fget m o) eqn:Hm; last first.
  { iApply awp_wp. iApply (wp_mutex_lock with "Hl"); [done |]. by iApply "HQ". }
  iCombine "Hl HQ" as "H". iStopProof. split. intros h (h1 & h2 & -> & Hd & -> & _) hf Hf.
  rewrite /mutex_lock /mbind /M_bind /get. rewrite lookup_union_l'.
  - rewrite lookup_union_l' ?lookup_singleton_eq //= prj_inj_obj Hm. by apply HW.
  - rewrite lookup_union_l' ?lookup_singleton_eq //.
Qed.

Lemma awp_mono {A} W (m : M A) P Q : (∀ a, P a ⊢ Q a) → awp W m P ⊢ awp W m Q.
Proof.
  intros HPQ. split=> h Hm hf Hd. specialize (Hm hf Hd). destruct (m (h ∪ hf)) as [a h1|[]]; try done.
  destruct Hm as (h' & -> & ? & ?). exists h'. split_and!; [done | done |]. by apply HPQ.
Qed.

(** ** The logic *)

Section logic.
Context {Γ : Type} (wf : Γ → Prop) (rep : Γ → hprop) (gstep : nat → Γ → Γ → Prop) (blocked : nat → Γ → Prop).

(** What the others do between two actions of thread [i]. *)
Definition interf (i : nat) (γ γ' : Γ) : Prop := wf γ ∧ ∃ j, j ≠ i ∧ gstep j γ γ'.

Class Stable (i : nat) (P : Γ → Prop) := stable γ γ' j : j ≠ i → wf γ → gstep j γ γ' → P γ → P γ'.

Lemma stable_rtc i P `{!Stable i P} γ γ' : rtc (interf i) γ γ' → P γ → P γ'.
Proof.
  induction 1 as [|γ1 γ2 γ3 (Hwf & j & Hj & Hs) _ IH]; [done |]. intros HP. by eapply IH, stable.
Qed.

(** [G] restricts the steps that thread [i] takes itself. *)
Implicit Types G : Γ → Γ → Prop.

Fixpoint cwp {A} G (i : nat) (p : prog A) (Q : A → Γ → Prop) : Γ → Prop :=
  match p with
  | Ret a => Q a
  | Act B m k => λ γ, ∀ γ', rtc (interf i) γ γ' → wf γ' →
      rep γ' ⊢ awp (blocked i γ') m (λ b,
        ∃ γ'', <affine> ⌜gstep i γ' γ'' ∧ G γ' γ'' ∧ cwp G i (k b) Q γ''⌝ ∗ rep γ'')
  end.

Definition triple {A} G (i : nat) (P : Γ → Prop) (p : prog A) (Q : A → Γ → Prop) : Prop :=
  ∀ γ, wf γ → P γ → cwp G i p Q γ.

Context (wf_step : ∀ i γ γ', wf γ → gstep i γ γ' → wf γ').

Lemma cwp_interf {A} G i (p : prog A) Q γ γ' :
  (∀ a, Stable i (Q a)) → rtc (interf i) γ γ' → cwp G i p Q γ → cwp G i p Q γ'.
Proof.
  intros HQ Hr. destruct p as [a|B m k]; simpl; [by eapply stable_rtc |].
  intros Hp γ'' Hr'. apply Hp. by etrans.
Qed.

(** ** Rules *)

Lemma cwp_mono {A} G G' R i (p : prog A) Q Q' γ :
  (∀ γ γ', wf γ → R γ → G γ γ' → gstep i γ γ' → G' γ γ' ∧ R γ') → Stable i R →
  (∀ a γ, R γ → Q a γ → Q' a γ) → wf γ → R γ → cwp G i p Q γ → cwp G' i p Q' γ.
Proof.
  intros HG HR HQ. revert γ. induction p as [a|B m k IH]; intros γ Hwf HRγ; simpl; [by apply HQ |].
  intros Hp γ' Hr Hwf'. pose proof (stable_rtc i R γ γ' Hr HRγ) as HR'.
  etrans; [by apply Hp |]. apply awp_mono=> b. iIntros "(%γ'' & %Hs & Hrep)". destruct Hs as (Hs & Hg & Hk).
  iExists γ''. iFrame. iPureIntro. destruct (HG γ' γ'') as [??]; [done.. |]. split_and!; [done | done |].
  apply IH; [by eapply wf_step | done | done].
Qed.

Lemma t_conseq {A} G i P P' (p : prog A) Q Q' :
  triple G i P' p Q' → (∀ γ, wf γ → P γ → P' γ) → (∀ a γ, Q' a γ → Q a γ) → triple G i P p Q.
Proof.
  intros Hp HP HQ γ Hwf HPγ. apply (cwp_mono G G (λ _, True) i p Q'); auto. by intros ????.
Qed.

(** What the thread knows and its own steps keep. *)
Lemma t_frame {A} G G' R i P (p : prog A) Q :
  Stable i R → (∀ γ γ', wf γ → gstep i γ γ' → G γ γ' → R γ → G' γ γ' ∧ R γ') →
  triple G i P p Q → triple G' i (λ γ, P γ ∧ R γ) p (λ a γ, Q a γ ∧ R γ).
Proof.
  intros HR HG Hp γ Hwf [HP HRγ]. apply (cwp_mono G G' R i p Q); auto.
Qed.

Lemma t_weaken {A} G G' i P (p : prog A) Q :
  (∀ γ γ', wf γ → gstep i γ γ' → G γ γ' → G' γ γ') → triple G i P p Q → triple G' i P p Q.
Proof.
  intros HG Hp γ Hwf HP. apply (cwp_mono G G' (λ _, True) i p Q); auto. by intros ????.
Qed.

Lemma t_ret {A} G i P (a : A) (Q : A → Γ → Prop) : (∀ γ, wf γ → P γ → Q a γ) → triple G i P (mret a) Q.
Proof. intros HQ γ Hwf HP. by apply HQ. Qed.

Lemma t_bind {A B} G i P (p : prog A) (f : A → prog B) R Q :
  triple G i P p R → (∀ a, triple G i (R a) (f a) Q) → triple G i P (p ≫= f) Q.
Proof.
  intros Hp Hf γ Hwf HP. specialize (Hp γ Hwf HP). clear HP. revert γ Hwf Hp.
  induction p as [a|C m k IH]; intros γ Hwf; [by apply Hf |]. intros Hp γ' Hr Hwf'.
  etrans; [by apply Hp |]. apply awp_mono=> b. iIntros "(%γ'' & %Hs & Hrep)". destruct Hs as (Hs & Hg & Hk).
  iExists γ''. iFrame. iPureIntro. split_and!; [done | done |]. apply IH; [by eapply wf_step | done].
Qed.

(** An atomic action, and one whose result the program goes on with. *)
Definition action {A} G (i : nat) (P : Γ → Prop) (m : M A) (Q : A → Γ → Prop) : Prop :=
  ∀ γ, wf γ → P γ →
    rep γ ⊢ awp (blocked i γ) m (λ a, ∃ γ', <affine> ⌜gstep i γ γ' ∧ G γ γ' ∧ Q a γ'⌝ ∗ rep γ').

Lemma t_atomic {A} G i P (m : M A) Q : Stable i P → action G i P m Q → triple G i P (atomic m) Q.
Proof. intros HP Hm γ Hwf HPγ γ' Hr Hwf'. apply Hm; [done |]. by eapply stable_rtc. Qed.

Lemma t_act {A B} G i P (m : M A) (f : A → prog B) R Q :
  Stable i P → action G i P m R → (∀ a, triple G i (R a) (f a) Q) → triple G i P (atomic m ≫= f) Q.
Proof. intros HP Hm Hf. by eapply t_bind; [apply t_atomic |]. Qed.

Lemma t_exists {A X} G i (P : X → Γ → Prop) (p : prog A) Q :
  (∀ x, triple G i (P x) p Q) → triple G i (λ γ, ∃ x, P x γ) p Q.
Proof. intros Hp γ Hwf [x Hx]. by eapply Hp. Qed.

Lemma t_stop {A} G i P (Q : A → Γ → Prop) : triple G i P (atomic (throw OutOfFuel)) Q.
Proof. intros γ Hwf HP γ' Hr Hwf'. apply awp_stopped. Qed.

Lemma t_piter {S R} G i fuel (body : S → prog (S + R)) (I : S → Γ → Prop) (Q : R → Γ → Prop) s :
  (∀ s, triple G i (I s) (body s) (λ x γ, match x with inl s' => I s' γ | inr r => Q r γ end)) →
  triple G i (I s) (piter fuel body s) Q.
Proof.
  intros Hb. revert s. induction fuel as [|fuel IH]; intros s; [apply t_stop |].
  eapply t_bind; [apply Hb |]. intros [s'|r]; [apply IH | by apply t_ret].
Qed.

(** ** Soundness

    [I i past]: thread [i] is idle and has completed the calls [past].
    [J i past op]: it is executing [op]. *)
Section pool.
Context {Op Res : Type} (code : nat → Op → prog Res) (ok : Op → Prop).
Context (I : nat → list (Op * Res) → Γ → Prop) (J : nat → list (Op * Res) → Op → Γ → Prop).
Context (G : nat → list (Op * Res) → Op → Γ → Γ → Prop).
Context `{!∀ i past, Stable i (I i past)} `{!∀ i past op, Stable i (J i past op)}.
Context (I_J : ∀ i past op γ, I i past γ → J i past op γ).
Context (G_J : ∀ i past op γ γ', J i past op γ → gstep i γ γ' → G i past op γ γ' → J i past op γ').
Context (code_ok : ∀ i past op, ok op →
  triple (G i past op) i (I i past) (code i op) (λ r, I i (past ++ [(op, r)]))).

Definition thread_ok (i : nat) (t : option (thread Op Res)) (γ : Γ) : Prop :=
  match t with
  | None => I i [] γ
  | Some (Idle past todo) => I i past γ ∧ Forall ok todo
  | Some (Busy past op p todo) =>
      J i past op γ ∧ cwp (G i past op) i p (λ r, I i (past ++ [(op, r)])) γ ∧ Forall ok todo
  end.
Definition pool_ok (γ : Γ) (c : config Op Res) : Prop :=
  wf γ ∧ holds (rep γ) c.2 ∧ ∀ i, thread_ok i (c.1 !! i) γ.

Lemma pool_act γ c i past op B m k todo :
  pool_ok γ c → c.1 !! i = Some (Busy past op (Act B m k) todo) →
  match m c.2 with
  | Ok b h' => ∃ γ', gstep i γ γ' ∧ holds (rep γ') h' ∧ thread_ok i (Some (Busy past op (k b) todo)) γ'
  | Fault Deadlock => blocked i γ
  | Fault OutOfFuel => True
  | Fault _ => False
  end.
Proof.
  intros (Hwf & Hrep & Hts) Hi. specialize (Hts i). rewrite Hi in Hts. destruct Hts as (HJ & Hcwp & Htodo).
  simpl in Hcwp. specialize (Hcwp γ (rtc_refl _ _) Hwf). destruct Hcwp as [Hm].
  specialize (Hm c.2 Hrep ∅ (map_disjoint_empty_r _)). rewrite map_union_empty in Hm.
  destruct (m c.2) as [b h1|[]]; try done.
  destruct Hm as (h' & -> & _ & γ' & h2 & h3 & -> & _ & (Hemp & Hs & Hg & Hk) & Hh). change (h2 = ∅) in Hemp. subst h2.
  exists γ'. rewrite map_union_empty map_empty_union. split_and!; [done | done |]. split_and!; [|done | done]. by eapply G_J.
Qed.

Lemma thread_other γ γ' j i t : wf γ → gstep j γ γ' → j ≠ i → thread_ok i t γ → thread_ok i t γ'.
Proof.
  intros Hwf Hs Hj. assert (rtc (interf i) γ γ') as Hr by (apply rtc_once; split; [done | by exists j]).
  destruct t as [[past todo|past op p todo]|]; simpl.
  - intros [HI ?]. split; [|done]. by eapply stable.
  - intros (HJ & Hp & ?). split_and!; [by eapply stable | | done]. by eapply cwp_interf.
  - intros HI. by eapply stable.
Qed.

Lemma pool_update γ γ' (ts : list (thread Op Res)) h' i t t' :
  wf γ → (∀ i, thread_ok i (ts !! i) γ) → ts !! i = Some t → γ' = γ ∨ gstep i γ γ' →
  holds (rep γ') h' → thread_ok i (Some t') γ' → pool_ok γ' (<[i := t']> ts, h').
Proof.
  intros Hwf Hts Hi Hs Hrep Ht. split; [destruct Hs as [->|]; [done | by eapply wf_step] |]. split; [done |]. intros j. simpl.
  destruct (decide (j = i)) as [->|Hne].
  - rewrite list_lookup_insert_eq //. by eapply lookup_lt_Some.
  - rewrite list_lookup_insert_ne //. destruct Hs as [->|]; [done |]. by eapply thread_other.
Qed.

Lemma pool_step γ c c' : pool_ok γ c → tstep code c c' → ∃ γ', (γ' = γ ∨ ∃ i, gstep i γ γ') ∧ pool_ok γ' c'.
Proof.
  intros Hok Hs. pose proof Hok as (Hwf & Hrep & Hts).
  destruct Hs as [i ts h past op todo Hi|i ts h past op B m k todo b h' Hi Hm|i ts h past op r todo Hi]; simpl in *.
  - exists γ. split; [by left |]. eapply pool_update; [done | done | done | by left | done |].
    specialize (Hts i). rewrite Hi in Hts. destruct Hts as [HI Htodo]. inversion_clear Htodo.
    split_and!; [by apply I_J | by apply code_ok | done].
  - pose proof (pool_act _ _ _ _ _ _ _ _ _ Hok Hi) as Ha. simpl in Ha. rewrite Hm in Ha.
    destruct Ha as (γ' & Hg & Hrep' & Ht). exists γ'. split; [by right; exists i |]. eapply pool_update; eauto.
  - exists γ. split; [by left |]. eapply pool_update; [done | done | done | by left | done |].
    specialize (Hts i). rewrite Hi in Hts. destruct Hts as (_ & HI & Htodo). by split.
Qed.

Lemma pool_harmless γ c : pool_ok γ c → harmless c.
Proof.
  intros Hok e (i & past & op & B & m & k & todo & Hi & He). pose proof (pool_act _ _ _ _ _ _ _ _ _ Hok Hi) as Ha.
  rewrite He in Ha. destruct e; auto; done.
Qed.

(** A pool in which no thread can go on, and none has stopped: every thread
    that has not finished is blocked. *)
Lemma pool_stuck γ c :
  pool_ok γ c → (∀ c', ¬ tstep code c c') → ¬ faults c OutOfFuel →
  ∀ i, thread_ok i (c.1 !! i) γ → (∃ past, c.1 !! i = Some (Idle past [])) ∨ c.1 !! i = None ∨ blocked i γ.
Proof.
  destruct c as [ts h]. intros Hok Hno Hfuel i Ht. simpl in *. destruct (ts !! i) as [[past todo|past op p todo]|] eqn:Hi; [| |auto].
  - destruct todo as [|op todo]; [by left; exists past |]. destruct (Hno _ (TCall code i ts h past op todo Hi)).
  - destruct p as [r|B m k]; [by destruct (Hno _ (TReturn code i ts h past op r todo Hi)) |].
    pose proof (pool_act _ (ts, h) _ _ _ _ _ _ _ Hok Hi) as Ha. simpl in Ha. destruct (m h) as [b h'|e] eqn:Hm.
    + by destruct (Hno _ (TAct code i ts h past op B m k todo b h' Hi Hm)).
    + destruct e; auto; try done. destruct Hfuel. by exists i, past, op, B, m, k, todo.
Qed.
End pool.
End logic.
