(* ===== verification/CANode.v ===== *)
(** * CANode: base nodes with a statistics lock, route nodes, the record manager

    Translation of [cpp/ds/winblad_catree/base_node.h] (module [Base]) and
    [route_node.h] (module [Route]); the methods of both are programs of atomic
    accesses.  The record manager is not part of the repository's own code (it
    is a submodule); [RecordManager] lists the calls the tree makes to it, and
    [RecordManagerLaws] what the tree relies on. *)
From S2P Require Import Prelude Memory SepLogic OrderedSet Prog.
#[local] Open Scope Z_scope.
#[local] Open Scope cpp_scope.

(** [isBaseNode], a member of the base class [CA_Node] *)
Definition isBaseNode : field ca_node bool := Field
  (λ n, match n with CaBase b => b.(bn_isBaseNode) | CaRoute r => r.(rn_isBaseNode) end)
  (λ x n, match n with
    | CaBase b => CaBase (BaseNode x b.(bn_set) b.(bn_m) b.(bn_statLockStatistics)
                            b.(bn_owner) b.(bn_valid) b.(bn_parent))
    | CaRoute r => CaRoute (RouteNode x r.(rn_key) r.(rn_left) r.(rn_right) r.(rn_m)
                              r.(rn_owner) r.(rn_valid))
    end).

Module Base.

Definition set : field base_node ptr := Field bn_set (λ x b,
  BaseNode b.(bn_isBaseNode) x b.(bn_m) b.(bn_statLockStatistics) b.(bn_owner) b.(bn_valid) b.(bn_parent)).
Definition m : field base_node bool := Field bn_m (λ x b,
  BaseNode b.(bn_isBaseNode) b.(bn_set) x b.(bn_statLockStatistics) b.(bn_owner) b.(bn_valid) b.(bn_parent)).
Definition statLockStatistics : field base_node Z := Field bn_statLockStatistics (λ x b,
  BaseNode b.(bn_isBaseNode) b.(bn_set) b.(bn_m) x b.(bn_owner) b.(bn_valid) b.(bn_parent)).
Definition owner : field base_node Z := Field bn_owner (λ x b,
  BaseNode b.(bn_isBaseNode) b.(bn_set) b.(bn_m) b.(bn_statLockStatistics) x b.(bn_valid) b.(bn_parent)).
Definition valid : field base_node bool := Field bn_valid (λ x b,
  BaseNode b.(bn_isBaseNode) b.(bn_set) b.(bn_m) b.(bn_statLockStatistics) b.(bn_owner) x b.(bn_parent)).
Definition parent : field base_node ptr := Field bn_parent (λ x b,
  BaseNode b.(bn_isBaseNode) b.(bn_set) b.(bn_m) b.(bn_statLockStatistics) b.(bn_owner) b.(bn_valid) x).

(** Contention heuristics *)
Definition STAT_LOCK_HIGH_CONTENTION_LIMIT : Z := 1000.
Definition STAT_LOCK_LOW_CONTENTION_LIMIT : Z := -1000.
Definition STAT_LOCK_FAILURE_CONTRIB : Z := 250.
Definition STAT_LOCK_SUCCESS_CONTRIB : Z := 1.

(** [BaseNode()]: the constructor does not initialise [set]; the model starts
    it at [NULL]. *)
Definition constructed : base_node := BaseNode true NULL false 0 (-1) true NULL.

(** [delete] of a [BaseNode]: the destructor deletes the set, then the object
    itself goes *)
Definition destroy `{IOrderedSet} (this : ptr) : M unit :=
  s ← this ~> set; oset_delete s;; free base_node this.

Definition setParent (this node : ptr) : prog unit := this ⇝ parent ::= node.
Definition getParent (this : ptr) : prog ptr := this ⇝ parent.
Definition setOrderedSet (this s : ptr) : prog unit := this ⇝ set ::= s.
Definition getOrderedSet (this : ptr) : prog ptr := this ⇝ set.

Definition invalidate (tid : Z) (this : ptr) : prog unit :=
  v ← this ⇝ valid;
  atomic (assert_ v);;
  o ← this ⇝ owner;
  atomic (assert_ (o =? tid));;
  this ⇝ valid ::= false.

Definition isValid (tid : Z) (this : ptr) : prog bool :=
  o ← this ⇝ owner;
  atomic (assert_ (o =? tid));;
  this ⇝ valid.

Definition tryLock (tid : Z) (this : ptr) : prog bool :=
  b ← atomic (mutex_try_lock this m);
  if (b : bool) then
    o ← this ⇝ owner;
    atomic (assert_ (o =? -1));;
    this ⇝ owner ::= tid;;
    mret true
  else mret false.

Definition lock (tid : Z) (this : ptr) : prog unit :=
  b ← atomic (mutex_try_lock this m);
  if (b : bool) then
    o ← this ⇝ owner;
    atomic (assert_ (o =? -1));;
    this ⇝ owner ::= tid;;
    s ← this ⇝ statLockStatistics;
    this ⇝ statLockStatistics ::= int (s - STAT_LOCK_SUCCESS_CONTRIB)
  else
    atomic (mutex_lock this m);;
    o ← this ⇝ owner;
    atomic (assert_ (o =? -1));;
    this ⇝ owner ::= tid;;
    s ← this ⇝ statLockStatistics;
    this ⇝ statLockStatistics ::= int (s + STAT_LOCK_FAILURE_CONTRIB).

Definition unlock (tid : Z) (this : ptr) : prog unit :=
  o ← this ⇝ owner;
  atomic (assert_ (o =? tid));;
  this ⇝ owner ::= -1;;
  atomic (mutex_unlock this m).

Definition getStatistics (this : ptr) : prog Z := this ⇝ statLockStatistics.
Definition resetStatistics (this : ptr) : prog unit := this ⇝ statLockStatistics ::= 0.
Definition getHighContentionLimit : Z := STAT_LOCK_HIGH_CONTENTION_LIMIT.
Definition getLowContentionLimit : Z := STAT_LOCK_LOW_CONTENTION_LIMIT.
Definition isHighContentionLimitReached (this : ptr) : prog bool :=
  s ← this ⇝ statLockStatistics; mret (s >? STAT_LOCK_HIGH_CONTENTION_LIMIT).
Definition isLowContentionLimitReached (this : ptr) : prog bool :=
  s ← this ⇝ statLockStatistics; mret (s <? STAT_LOCK_LOW_CONTENTION_LIMIT).

End Base.

Module Route.

Definition key : field route_node Z := Field rn_key (λ x r,
  RouteNode r.(rn_isBaseNode) x r.(rn_left) r.(rn_right) r.(rn_m) r.(rn_owner) r.(rn_valid)).
Definition left : field route_node ptr := Field rn_left (λ x r,
  RouteNode r.(rn_isBaseNode) r.(rn_key) x r.(rn_right) r.(rn_m) r.(rn_owner) r.(rn_valid)).
Definition right : field route_node ptr := Field rn_right (λ x r,
  RouteNode r.(rn_isBaseNode) r.(rn_key) r.(rn_left) x r.(rn_m) r.(rn_owner) r.(rn_valid)).
Definition m : field route_node bool := Field rn_m (λ x r,
  RouteNode r.(rn_isBaseNode) r.(rn_key) r.(rn_left) r.(rn_right) x r.(rn_owner) r.(rn_valid)).
Definition owner : field route_node Z := Field rn_owner (λ x r,
  RouteNode r.(rn_isBaseNode) r.(rn_key) r.(rn_left) r.(rn_right) r.(rn_m) x r.(rn_valid)).
Definition valid : field route_node bool := Field rn_valid (λ x r,
  RouteNode r.(rn_isBaseNode) r.(rn_key) r.(rn_left) r.(rn_right) r.(rn_m) r.(rn_owner) x).

(** [RouteNode()]: the constructor does not initialise the key and the
    children; the model starts them at 0 and [NULL]. *)
Definition constructed : route_node := RouteNode false 0 NULL NULL false (-1) true.

(** [delete] of a [RouteNode]: the destructor is empty *)
Definition destroy (this : ptr) : M unit := free route_node this.

Definition getLeft (this : ptr) : prog ptr := this ⇝ left.
Definition setLeft (this node : ptr) : prog unit := this ⇝ left ::= node.
Definition getRight (this : ptr) : prog ptr := this ⇝ right.
Definition setRight (this node : ptr) : prog unit := this ⇝ right ::= node.
Definition setKey (this : ptr) (k : Z) : prog unit := this ⇝ key ::= k.
Definition getKey (this : ptr) : prog Z := this ⇝ key.

Definition invalidate (tid : Z) (this : ptr) : prog unit :=
  o ← this ⇝ owner;
  atomic (assert_ (o =? tid));;
  v ← this ⇝ valid;
  atomic (assert_ v);;
  this ⇝ valid ::= false.

Definition isValid (tid : Z) (this : ptr) : prog bool :=
  o ← this ⇝ owner;
  atomic (assert_ (o =? tid));;
  this ⇝ valid.

Definition lock (tid : Z) (this : ptr) : prog unit :=
  atomic (mutex_lock this m);;
  o ← this ⇝ owner;
  atomic (assert_ (o =? -1));;
  this ⇝ owner ::= tid.

Definition unlock (tid : Z) (this : ptr) : prog unit :=
  o ← this ⇝ owner;
  atomic (assert_ (o =? tid));;
  this ⇝ owner ::= -1;;
  atomic (mutex_unlock this m).

End Route.

(** ** The record manager *)

(** The calls the tree makes: creation and destruction of the manager,
    registration of threads, the guard around an operation, and for both node
    types allocation, retirement and deallocation. *)
Class RecordManager := {
  rm_new : Z → M ptr;
  rm_delete : ptr → M unit;
  rm_initThread : ptr → Z → M unit;
  rm_deinitThread : ptr → Z → M unit;
  rm_startGuard : ptr → Z → M unit;
  rm_endGuard : ptr → Z → M unit;
  rm_allocateBase : ptr → Z → M ptr;
  rm_allocateRoute : ptr → Z → M ptr;
  rm_retireBase : ptr → Z → ptr → M unit;
  rm_retireRoute : ptr → Z → ptr → M unit;
  rm_deallocateBase : ptr → Z → ptr → M unit;
  rm_deallocateRoute : ptr → Z → ptr → M unit;
}.

Section recmgr.
Context {OS : IOrderedSet}.

(** What it takes to destroy a retired node. *)
Definition destroyable (r : retired) : hprop :=
  match r with
  | RBase l => wp (Base.destroy (Some l)) (λ _, emp)
  | RRoute l => wp (Route.destroy (Some l)) (λ _, emp)
  end%I.

(** [rm_idle r]: no operation is in progress.  [rm_busy r L]: inside a guard in
    which the nodes [L] have been retired.  A retired node stays accessible
    until the guard ends; then the manager may destroy it.  [allocate] returns
    a newly constructed node, [deallocate] destroys one. *)
Class RecordManagerLaws (R : RecordManager) := {
  rm_idle : loc → hprop;
  rm_busy : loc → list retired → hprop;

  rm_new_law n Q : (∀ r, rm_idle r -∗ Q (Some r)) ⊢ wp (rm_new n) Q;
  rm_delete_law r Q : rm_idle r -∗ Q () -∗ wp (rm_delete (Some r)) Q;
  rm_initThread_law r tid Q :
    rm_idle r -∗ (rm_idle r -∗ Q ()) -∗ wp (rm_initThread (Some r) tid) Q;
  rm_deinitThread_law r tid Q :
    rm_idle r -∗ (rm_idle r -∗ Q ()) -∗ wp (rm_deinitThread (Some r) tid) Q;

  rm_startGuard_law r tid Q :
    rm_idle r -∗ (rm_busy r [] -∗ Q ()) -∗ wp (rm_startGuard (Some r) tid) Q;
  rm_endGuard_law r tid L Q :
    rm_busy r L -∗ ([∗ list] n ∈ L, destroyable n) -∗ (rm_idle r -∗ Q ()) -∗
    wp (rm_endGuard (Some r) tid) Q;

  rm_allocateBase_law r L tid Q :
    rm_busy r L -∗ (∀ b, rm_busy r L -∗ b ↦ Base.constructed -∗ Q (Some b)) -∗
    wp (rm_allocateBase (Some r) tid) Q;
  rm_allocateRoute_law r L tid Q :
    rm_busy r L -∗ (∀ x, rm_busy r L -∗ x ↦ Route.constructed -∗ Q (Some x)) -∗
    wp (rm_allocateRoute (Some r) tid) Q;
  rm_allocateBase_idle r tid Q :
    rm_idle r -∗ (∀ b, rm_idle r -∗ b ↦ Base.constructed -∗ Q (Some b)) -∗
    wp (rm_allocateBase (Some r) tid) Q;

  rm_retireBase_law r L tid b Q :
    rm_busy r L -∗ (rm_busy r (RBase b :: L) -∗ Q ()) -∗
    wp (rm_retireBase (Some r) tid (Some b)) Q;
  rm_retireRoute_law r L tid x Q :
    rm_busy r L -∗ (rm_busy r (RRoute x :: L) -∗ Q ()) -∗
    wp (rm_retireRoute (Some r) tid (Some x)) Q;

  rm_deallocateBase_law r tid b Q :
    rm_idle r -∗ destroyable (RBase b) -∗ (rm_idle r -∗ Q ()) -∗
    wp (rm_deallocateBase (Some r) tid (Some b)) Q;
  rm_deallocateRoute_law r tid x Q :
    rm_idle r -∗ destroyable (RRoute x) -∗ (rm_idle r -∗ Q ()) -∗
    wp (rm_deallocateRoute (Some r) tid (Some x)) Q;
}.
End recmgr.
