(* ===== verification/CATree.v ===== *)
(** * CATree: the contention-adapting tree

    Translation of [cpp/ds/winblad_catree/ca_tree.h].  [this] is the address of
    the [CATree] object.  The operations are programs of atomic accesses: a
    read or a write of a member, a mutex operation, a call to the record
    manager, or an operation of an ordered set, which the calling thread runs
    while it holds the lock of the set's base node.  [fuel] bounds the turns of
    each loop. *)
From S2P Require Import Prelude Memory SepLogic OrderedSet Prog CANode.
#[local] Open Scope Z_scope.
#[local] Open Scope cpp_scope.

Module CA.

Definition minKey : field ca_tree Z := Field ca_minKey (λ x t,
  CaTree x t.(ca_maxKey) t.(ca_numThreads) t.(ca_recmgr) t.(ca_root)).
Definition maxKey : field ca_tree Z := Field ca_maxKey (λ x t,
  CaTree t.(ca_minKey) x t.(ca_numThreads) t.(ca_recmgr) t.(ca_root)).
Definition recmgr : field ca_tree ptr := Field ca_recmgr (λ x t,
  CaTree t.(ca_minKey) t.(ca_maxKey) t.(ca_numThreads) x t.(ca_root)).
Definition root : field ca_tree ptr := Field ca_root (λ x t,
  CaTree t.(ca_minKey) t.(ca_maxKey) t.(ca_numThreads) t.(ca_recmgr) x).

(** [enum OrderedSetType] *)
Inductive OrderedSetType := AVL | LINKEDLIST | REDBLACK.

Section tree.
Context {OS : IOrderedSet} {R : RecordManager}.
Variable fuel : nat.

(** ** Navigation *)

Definition getBaseNodeStep (k : Z) (currNode : ptr) : prog (ptr + ptr) :=
  b ← currNode ⇝ isBaseNode;
  if negb b then
    ck ← Route.getKey currNode;
    if k <? ck then n ← Route.getLeft currNode; continue n
    else n ← Route.getRight currNode; continue n
  else break currNode.

Definition getBaseNode (this : ptr) (k : Z) : prog ptr :=
  currNode ← this ⇝ root;
  piter fuel (getBaseNodeStep k) currNode.

Definition leftmostStep (currNode : ptr) : prog (ptr + ptr) :=
  b ← currNode ⇝ isBaseNode;
  if negb b then n ← Route.getLeft currNode; continue n else break currNode.

Definition leftmostBaseNode (node : ptr) : prog ptr := piter fuel leftmostStep node.

Definition rightmostStep (currNode : ptr) : prog (ptr + ptr) :=
  b ← currNode ⇝ isBaseNode;
  if negb b then n ← Route.getRight currNode; continue n else break currNode.

Definition rightmostBaseNode (node : ptr) : prog ptr := piter fuel rightmostStep node.

Definition parentOfStep (node : ptr) (targetKey : Z) (s : ptr * ptr) : prog (ptr * ptr + ptr) :=
  let '(prevNode, currNode) := s in
  if currNode != node then
    ck ← Route.getKey currNode;
    if targetKey <? ck then n ← Route.getLeft currNode; continue (currNode, n)
    else n ← Route.getRight currNode; continue (currNode, n)
  else break prevNode.

Definition parentOf (this node : ptr) : prog ptr :=
  r ← this ⇝ root;
  b ← r ⇝ isBaseNode;
  atomic (assert_ (negb b));;
  currNode ← this ⇝ root;
  targetKey ← Route.getKey node;
  piter fuel (parentOfStep node targetKey) (NULL, currNode).

(** ** Contention adaptation *)

(** The loop of [lowContentionJoin] that locks a valid grandparent. *)
Definition lockGparentStep (tid : Z) (this parent gparent : ptr) : prog (ptr + ptr) :=
  pwhen (gparent != NULL) (Route.unlock tid gparent);;
  gparent ← parentOf this parent;
  pwhen (gparent != NULL) (Route.lock tid gparent);;
  if gparent != NULL then
    v ← Route.isValid tid gparent;
    if negb v then continue gparent else break gparent
  else break gparent.

(** The child [old] of [p], or the root when [p] is [NULL], is replaced by the
    pointer that [new] evaluates to. *)
Definition replaceChild (this p old : ptr) (new : prog ptr) : prog unit :=
  if p == NULL then n ← new; this ⇝ root ::= n
  else
    l ← Route.getLeft p;
    if l == old then n ← new; Route.setLeft p n else n ← new; Route.setRight p n.

(** The second half of [lowContentionJoin], after the two sets have been
    joined: [parent] and [baseNode] leave the tree, the sibling subtree, the
    child [sib] of [parent], moves up, and a new base node with the joined set
    takes the place of [neighborBase] in it.  [sib] is [Route.right] when
    [baseNode] is a left child and [Route.left] in the symmetric case. *)
Definition replaceJoined (sib : field route_node ptr) (tid : Z)
    (this baseNode parent neighborBase joinedSet : ptr) : prog unit :=
  rm ← this ⇝ recmgr;
  newBase ← atomic (rm_allocateBase rm tid);
  Base.setOrderedSet newBase joinedSet;;
  Route.lock tid parent;;
  gparent ← piter fuel (lockGparentStep tid this parent) NULL;
  replaceChild this gparent parent (parent ⇝ sib);;
  Route.invalidate tid parent;;
  Route.unlock tid parent;;
  pwhen (gparent != NULL) (Route.unlock tid gparent);;
  s ← parent ⇝ sib;
  neighborBaseParent ← (if s == neighborBase then mret gparent else Base.getParent neighborBase);
  Base.setParent newBase neighborBaseParent;;
  replaceChild this neighborBaseParent neighborBase (mret newBase);;
  Base.invalidate tid neighborBase;;
  Base.unlock tid neighborBase;;
  Base.invalidate tid baseNode;;
  atomic (rm_retireBase rm tid baseNode);;
  atomic (rm_retireBase rm tid neighborBase);;
  atomic (rm_retireRoute rm tid parent).

Definition lowContentionJoin (tid : Z) (this baseNode : ptr) : prog unit :=
  parent ← Base.getParent baseNode;
  if parent == NULL then Base.resetStatistics baseNode
  else
    l ← Route.getLeft parent;
    if l == baseNode then
      r ← Route.getRight parent;
      neighborBase ← leftmostBaseNode r;
      locked ← Base.tryLock tid neighborBase;
      if negb locked then Base.resetStatistics baseNode
      else
        v ← Base.isValid tid neighborBase;
        if negb v then Base.unlock tid neighborBase;; Base.resetStatistics baseNode
        else
          baseSet ← Base.getOrderedSet baseNode;
          neighborSet ← Base.getOrderedSet neighborBase;
          joinedSet ← atomic (oset_join baseSet neighborSet);
          replaceJoined Route.right tid this baseNode parent neighborBase joinedSet
    else
      l ← Route.getLeft parent;
      neighborBase ← rightmostBaseNode l;
      locked ← Base.tryLock tid neighborBase;
      if negb locked then Base.resetStatistics baseNode
      else
        v ← Base.isValid tid neighborBase;
        if negb v then Base.unlock tid neighborBase;; Base.resetStatistics baseNode
        else
          baseSet ← Base.getOrderedSet baseNode;
          neighborSet ← Base.getOrderedSet neighborBase;
          joinedSet ← atomic (oset_join neighborSet baseSet);
          replaceJoined Route.left tid this baseNode parent neighborBase joinedSet.

Definition highContentionSplit (tid : Z) (this baseNode : ptr) : prog unit :=
  parent ← Base.getParent baseNode;
  baseSet ← Base.getOrderedSet baseNode;
  '(splitKey, leftSet, rightSet) ← atomic (oset_split baseSet);
  if leftSet == NULL then Base.resetStatistics baseNode
  else
    rm ← this ⇝ recmgr;
    newLeftBase ← atomic (rm_allocateBase rm tid);
    newRightBase ← atomic (rm_allocateBase rm tid);
    Base.setOrderedSet newLeftBase leftSet;;
    Base.setOrderedSet newRightBase rightSet;;
    newRoute ← atomic (rm_allocateRoute rm tid);
    Route.setKey newRoute splitKey;;
    Route.setLeft newRoute newLeftBase;;
    Route.setRight newRoute newRightBase;;
    Base.setParent newLeftBase newRoute;;
    Base.setParent newRightBase newRoute;;
    replaceChild this parent baseNode (mret newRoute);;
    Base.invalidate tid baseNode;;
    atomic (rm_retireBase rm tid baseNode).

Definition adaptIfNeeded (tid : Z) (this baseNode : ptr) : prog unit :=
  high ← Base.isHighContentionLimitReached baseNode;
  if (high : bool) then highContentionSplit tid this baseNode
  else
    low ← Base.isLowContentionLimitReached baseNode;
    pwhen low (lowContentionJoin tid this baseNode).

(** ** Dictionary operations *)

(** The loop that [find], [insert] and [erase] share; [op] is the operation on
    the ordered set.  Each turn runs inside a guard of the record manager. *)
Definition operationStep (tid : Z) (this : ptr) (k : Z) (op : ptr → M Z) (_ : unit)
    : prog (unit + Z) :=
  rm ← this ⇝ recmgr;
  atomic (rm_startGuard rm tid);;
  baseNode ← getBaseNode this k;
  Base.lock tid baseNode;;
  v ← Base.isValid tid baseNode;
  if negb v then
    Base.unlock tid baseNode;;
    atomic (rm_endGuard rm tid);;
    continue ()
  else
    set ← Base.getOrderedSet baseNode;
    result ← atomic (op set);
    adaptIfNeeded tid this baseNode;;
    Base.unlock tid baseNode;;
    atomic (rm_endGuard rm tid);;
    break result.

Definition operation (tid : Z) (this : ptr) (k : Z) (op : ptr → M Z) : prog Z :=
  piter fuel (operationStep tid this k op) ().

(** [assert( (key >= minKey) && (key <= maxKey) )] *)
Definition assertKey (this : ptr) (k : Z) : prog unit :=
  lo ← this ⇝ minKey;
  hi ← this ⇝ maxKey;
  atomic (assert_ ((k >=? lo) && (k <=? hi))).

Definition find (tid : Z) (this : ptr) (k : Z) : prog Z :=
  operation tid this k (λ set, oset_find set k).

Definition insert (tid : Z) (this : ptr) (k v : Z) : prog Z :=
  assertKey this k;;
  operation tid this k (λ set, oset_insert set k v).

Definition erase (tid : Z) (this : ptr) (k : Z) : prog Z :=
  assertKey this k;;
  operation tid this k (λ set, oset_erase set k).

(** ** Construction and destruction *)

Definition initThread (this : ptr) (tid : Z) : prog unit :=
  rm ← this ⇝ recmgr; atomic (rm_initThread rm tid).
Definition deinitThread (this : ptr) (tid : Z) : prog unit :=
  rm ← this ⇝ recmgr; atomic (rm_deinitThread rm tid).

(** [new CATree(numThreads, minKey, maxKey, type)] *)
Definition newCATree (numThreads minKey maxKey : Z) (type : OrderedSetType) : prog ptr :=
  rm ← atomic (rm_new numThreads);
  this ← atomic (new (CaTree minKey maxKey numThreads rm NULL));
  initThread this 0;;
  baseRoot ← atomic (rm_allocateBase rm 0);
  set ← (match type with
         | AVL => atomic oset_new
         | _ => atomic (assert_ false);; mret NULL
         end);
  Base.setOrderedSet baseRoot set;;
  this ⇝ root ::= baseRoot;;
  mret this.

Fixpoint freeSubtree (n : nat) (tid : Z) (rm node : ptr) : prog unit :=
  match n with
  | O => atomic (throw OutOfFuel)
  | S n =>
      if node == NULL then mret ()
      else
        b ← node ⇝ isBaseNode;
        if negb b then
          l ← Route.getLeft node;
          freeSubtree n tid rm l;;
          r ← Route.getRight node;
          freeSubtree n tid rm r;;
          atomic (rm_deallocateRoute rm tid node)
        else atomic (rm_deallocateBase rm tid node)
  end.

(** [delete] of a [CATree] *)
Definition deleteCATree (this : ptr) : prog unit :=
  initThread this 0;;
  r ← this ⇝ root;
  rm ← this ⇝ recmgr;
  freeSubtree fuel 0 rm r;;
  deinitThread this 0;;
  atomic (rm_delete rm);;
  atomic (free ca_tree this).

Definition getRoot (this : ptr) : prog ptr := this ⇝ root.

End tree.

End CA.
