(* ===== verification/SimpleRecMgr.v ===== *)
(** * SimpleRecMgr: a record manager that satisfies the assumed laws

    One bag of retired nodes, emptied when the guard ends.  It shows that the
    laws of [RecordManagerLaws] can hold and makes the tree executable. *)
From S2P Require Import Prelude Memory SepLogic OrderedSet Prog CANode.
#[local] Open Scope cpp_scope.

Module SimpleRM.

Definition bag : field limbo (list retired) := Field limbo_bag (λ x _, Limbo x).

Section manager.
Context {OS : IOrderedSet}.

Definition destroy (n : retired) : M unit :=
  match n with RBase l => Base.destroy (Some l) | RRoute l => Route.destroy (Some l) end.
Fixpoint destroyAll (ns : list retired) : M unit :=
  match ns with [] => mret () | n :: ns => destroy n;; destroyAll ns end.

Definition retire (rm : ptr) (n : retired) : M unit :=
  b ← rm ~> bag; rm ~> bag ::= n :: b.

#[global] Instance manager : RecordManager := {|
  rm_new _ := new (Limbo []);
  rm_delete rm := free limbo rm;
  rm_initThread _ _ := mret ();
  rm_deinitThread _ _ := mret ();
  rm_startGuard _ _ := mret ();
  rm_endGuard rm _ := b ← rm ~> bag; destroyAll b;; rm ~> bag ::= [];
  rm_allocateBase _ _ := new Base.constructed;
  rm_allocateRoute _ _ := new Route.constructed;
  rm_retireBase rm _ p := match p with Some l => retire rm (RBase l) | None => mret () end;
  rm_retireRoute rm _ p := match p with Some l => retire rm (RRoute l) | None => mret () end;
  rm_deallocateBase _ _ p := Base.destroy p;
  rm_deallocateRoute _ _ p := Route.destroy p;
|}.

Lemma wp_destroyAll ns Q :
  ([∗ list] n ∈ ns, destroyable n) -∗ Q () -∗ wp (destroyAll ns) Q.
Proof.
  iIntros "Hns HQ". iInduction ns as [|n ns IH]; simpl; [by iApply wp_ret |].
  iDestruct "Hns" as "[Hn Hns]". iApply wp_bind.
  iAssert (wp (destroy n) (λ _, emp))%I with "[Hn]" as "Hn"; [by destruct n |].
  iApply (wp_wand with "Hn"). iIntros ([]) "_". iApply ("IH" with "Hns HQ").
Qed.

#[global] Program Instance manager_laws : RecordManagerLaws manager := {|
  rm_idle r := r ↦ Limbo [];
  rm_busy r L := r ↦ Limbo L;
|}%I.
Next Obligation. iIntros (n Q) "HQ". iApply wp_new. iIntros (r) "Hr". by iApply "HQ". Qed.
Next Obligation. iIntros (r Q) "Hr HQ". simpl. by wp_step. Qed.
Next Obligation. iIntros (r tid Q) "Hr HQ". simpl. wp_step. by iApply "HQ". Qed.
Next Obligation. iIntros (r tid Q) "Hr HQ". simpl. wp_step. by iApply "HQ". Qed.
Next Obligation. iIntros (r tid Q) "Hr HQ". simpl. wp_step. by iApply "HQ". Qed.
Next Obligation.
  iIntros (r tid L Q) "Hr Hns HQ". simpl. wp_step. iApply wp_bind.
  iApply (wp_destroyAll with "Hns"). wp_step. by iApply "HQ".
Qed.
Next Obligation. iIntros (r L tid Q) "Hr HQ". iApply wp_new. iIntros (b). by iApply "HQ". Qed.
Next Obligation. iIntros (r L tid Q) "Hr HQ". iApply wp_new. iIntros (b). by iApply "HQ". Qed.
Next Obligation. iIntros (r tid Q) "Hr HQ". iApply wp_new. iIntros (b). by iApply "HQ". Qed.
Next Obligation.
  iIntros (r L tid b Q) "Hr HQ". simpl. rewrite /retire. do 2 wp_step. by iApply "HQ".
Qed.
Next Obligation.
  iIntros (r L tid b Q) "Hr HQ". simpl. rewrite /retire. do 2 wp_step. by iApply "HQ".
Qed.
Next Obligation.
  iIntros (r tid b Q) "Hr Hb HQ". iApply (wp_wand with "Hb"). iIntros ([]) "_". by iApply "HQ".
Qed.
Next Obligation.
  iIntros (r tid b Q) "Hr Hb HQ". iApply (wp_wand with "Hb"). iIntros ([]) "_". by iApply "HQ".
Qed.
End manager.

End SimpleRM.

(** The manager that never reclaims a retired node while the tree is in use. *)
Module LeakRM.
Section manager.
Context {OS : IOrderedSet}.

#[global] Instance manager : RecordManager := {|
  rm_new _ := new (Limbo []);
  rm_delete rm := free limbo rm;
  rm_initThread _ _ := mret ();
  rm_deinitThread _ _ := mret ();
  rm_startGuard _ _ := mret ();
  rm_endGuard _ _ := mret ();
  rm_allocateBase _ _ := new Base.constructed;
  rm_allocateRoute _ _ := new Route.constructed;
  rm_retireBase _ _ _ := mret ();
  rm_retireRoute _ _ _ := mret ();
  rm_deallocateBase _ _ p := Base.destroy p;
  rm_deallocateRoute _ _ p := Route.destroy p;
|}.
End manager.
End LeakRM.
