(* ===== verification/CASpec.v ===== *)
(** * CASpec: the shape of a contention-adapting tree and its dictionary

    [ctree] is the tree of route and base nodes with their addresses; each base
    node carries the dictionary of its ordered set.  [clookup] searches it the
    way [getBaseNode] does. [cwf] is the invariant: the keys of route nodes and
    of dictionaries are on the right side of every route node. *)
From S2P Require Import Prelude Memory OrderedSet.
#[local] Open Scope Z_scope.

Inductive ctree :=
  | CBase (b s : loc) (m : gmap Z Z) (st : Z)
  | CRoute (x : loc) (k : Z) (l r : ctree).

(** One level of the path above a subtree, which is the left ([CL]) or the
    right ([CR]) child. *)
Inductive cframe :=
  | CL (x : loc) (k : Z) (r : ctree)
  | CR (l : ctree) (x : loc) (k : Z).
Abbreviation cctx := (list cframe).

Definition cloc (t : ctree) : loc := match t with CBase b _ _ _ => b | CRoute x _ _ _ => x end.
Definition floc (f : cframe) : loc := match f with CL x _ _ => x | CR _ x _ => x end.
Definition fkey (f : cframe) : Z := match f with CL _ k _ => k | CR _ _ k => k end.
Definition fsib (f : cframe) : ctree := match f with CL _ _ r => r | CR l _ _ => l end.

Definition cplug_frame (f : cframe) (t : ctree) : ctree :=
  match f with CL x k r => CRoute x k t r | CR l x k => CRoute x k l t end.
Fixpoint cplug (c : cctx) (t : ctree) : ctree :=
  match c with [] => t | f :: c => cplug c (cplug_frame f t) end.

(** The route node above the hole, [top] when the path is empty. *)
Definition ppar (c : cctx) (top : ptr) : ptr :=
  match c with [] => top | f :: _ => Some (floc f) end.

Fixpoint csize (t : ctree) : nat :=
  match t with CBase _ _ _ _ => 1 | CRoute _ _ l r => S (csize l + csize r) end.

(** ** Lookup *)

Fixpoint clookup (t : ctree) (z : Z) : option Z :=
  match t with
  | CBase _ _ m _ => m !! z
  | CRoute _ k l r => if z <? k then clookup l z else clookup r z
  end.

(** The search for [z] passes a frame, a path. *)
Definition through (f : cframe) (z : Z) : bool :=
  match f with CL _ k _ => z <? k | CR _ _ k => k <=? z end.
Definition in_ctx (c : cctx) (z : Z) : bool := forallb (λ f, through f z) c.

Fixpoint ctx_lookup (c : cctx) (z : Z) : option Z :=
  match c with
  | [] => None
  | f :: c => if in_ctx c z then clookup (fsib f) z else ctx_lookup c z
  end.

Lemma clookup_frame f t z :
  clookup (cplug_frame f t) z = if through f z then clookup t z else clookup (fsib f) z.
Proof.
  destruct f; simpl; destruct (Z.ltb_spec z k); destruct (Z.leb_spec k z); done || lia.
Qed.

Lemma clookup_plug c t z :
  clookup (cplug c t) z = if in_ctx c z then clookup t z else ctx_lookup c z.
Proof.
  revert t. induction c as [|f c IH]; intros t; simpl; [done |].
  rewrite IH clookup_frame. destruct (through f z), (in_ctx c z); done.
Qed.

(** The search path: the base node that [getBaseNode] finds. *)
Fixpoint cdescend (k : Z) (t : ctree) (c : cctx) : cctx * ctree :=
  match t with
  | CBase _ _ _ _ => (c, t)
  | CRoute x k' l r =>
      if k <? k' then cdescend k l (CL x k' r :: c) else cdescend k r (CR l x k' :: c)
  end.

Lemma cdescend_spec k t c c' t' :
  cdescend k t c = (c', t') →
  cplug c' t' = cplug c t ∧ (in_ctx c k = true → in_ctx c' k = true) ∧
  (∃ b s m st, t' = CBase b s m st) ∧ (length c' ≤ length c + csize t)%nat.
Proof.
  revert c. induction t as [b s m st|x k' l IHl r IHr]; intros c; simpl.
  - intros [= <- <-]. split_and!; [done | done | by eexists _, _, _, _ | lia].
  - destruct (k <? k') eqn:Hk; intros Heq; [apply IHl in Heq | apply IHr in Heq];
      destruct Heq as (Hp & Hc & ? & Hlen); (split_and!; [done | | done | simpl in *; lia]);
      intros Hin; apply Hc; simpl; rewrite Hin andb_true_r //.
    apply Z.leb_le. apply Z.ltb_ge in Hk. lia.
Qed.

(** The leftmost and the rightmost base node. *)
Fixpoint cleftmost (t : ctree) (c : cctx) : cctx * ctree :=
  match t with
  | CBase _ _ _ _ => (c, t)
  | CRoute x k l r => cleftmost l (CL x k r :: c)
  end.
Fixpoint crightmost (t : ctree) (c : cctx) : cctx * ctree :=
  match t with
  | CBase _ _ _ _ => (c, t)
  | CRoute x k l r => crightmost r (CR l x k :: c)
  end.

Lemma cleftmost_spec t c c' t' :
  cleftmost t c = (c', t') →
  ∃ d b s m st, c' = d ++ c ∧ t' = CBase b s m st ∧ cplug d t' = t ∧
    Forall (λ f, match f with CL _ _ _ => True | CR _ _ _ => False end) d.
Proof.
  revert c. induction t as [b s m st|x k l IHl r IHr]; intros c; simpl.
  - intros [= <- <-]. by exists [], b, s, m, st.
  - intros (d & b & s & m & st & -> & -> & <- & Hd)%IHl. exists (d ++ [CL x k r]), b, s, m, st.
    rewrite -app_assoc. split_and!; [done | done | |].
    + clear. generalize (CBase b s m st). induction d as [|f d IH]; intros t; simpl; [done |]. apply IH.
    + apply Forall_app. split; [done |]. by constructor.
Qed.

Lemma crightmost_spec t c c' t' :
  crightmost t c = (c', t') →
  ∃ d b s m st, c' = d ++ c ∧ t' = CBase b s m st ∧ cplug d t' = t ∧
    Forall (λ f, match f with CR _ _ _ => True | CL _ _ _ => False end) d.
Proof.
  revert c. induction t as [b s m st|x k l IHl r IHr]; intros c; simpl.
  - intros [= <- <-]. by exists [], b, s, m, st.
  - intros (d & b & s & m & st & -> & -> & <- & Hd)%IHr. exists (d ++ [CR l x k]), b, s, m, st.
    rewrite -app_assoc. split_and!; [done | done | |].
    + clear. generalize (CBase b s m st). induction d as [|f d IH]; intros t; simpl; [done |]. apply IH.
    + apply Forall_app. split; [done |]. by constructor.
Qed.

Lemma cplug_app c1 c2 t : cplug (c1 ++ c2) t = cplug c2 (cplug c1 t).
Proof. revert t. induction c1 as [|f c1 IH]; intros t; simpl; [done |]. apply IH. Qed.

(** ** The invariant *)

(** The keys of a subtree: of its route nodes and of its dictionaries. *)
Fixpoint ckey (t : ctree) (z : Z) : Prop :=
  match t with
  | CBase _ _ m _ => is_Some (m !! z)
  | CRoute _ k l r => z = k ∨ ckey l z ∨ ckey r z
  end.

(** A base node's dictionary does not contain [INVALID_KEY], and its lock
    statistics are within the limits at which adaptation resets them. *)
Definition base_ok (m : gmap Z Z) (st : Z) : Prop :=
  m !! invalid_key = None ∧ -1000 ≤ st ≤ 1250.

Fixpoint cwf (t : ctree) : Prop :=
  match t with
  | CBase _ _ m st => base_ok m st
  | CRoute _ k l r =>
      (∀ z, ckey l z → z < k) ∧ (∀ z, ckey r z → k ≤ z) ∧ cwf l ∧ cwf r
  end.

Definition frame_ok (f : cframe) : Prop :=
  cwf (fsib f) ∧ ∀ z, ckey (fsib f) z → through f z = false.
Fixpoint ctx_ok (c : cctx) : Prop :=
  match c with
  | [] => True
  | f :: c => frame_ok f ∧ in_ctx c (fkey f) = true ∧
      (∀ z, ckey (fsib f) z → in_ctx c z = true) ∧ ctx_ok c
  end.

Lemma cwf_frame f t :
  cwf (cplug_frame f t) ↔ frame_ok f ∧ cwf t ∧ ∀ z, ckey t z → through f z = true.
Proof.
  unfold frame_ok. destruct f as [x k r|l x k]; simpl.
  - setoid_rewrite Z.ltb_lt. setoid_rewrite Z.ltb_ge. naive_solver.
  - setoid_rewrite Z.leb_le. setoid_rewrite Z.leb_gt. naive_solver.
Qed.

Lemma ckey_frame f t z : ckey (cplug_frame f t) z ↔ z = fkey f ∨ ckey t z ∨ ckey (fsib f) z.
Proof. destruct f; simpl; naive_solver. Qed.

Lemma cwf_plug c t :
  cwf (cplug c t) ↔ ctx_ok c ∧ cwf t ∧ ∀ z, ckey t z → in_ctx c z = true.
Proof.
  revert t. induction c as [|f c IH]; intros t; simpl; [naive_solver |].
  rewrite IH cwf_frame. setoid_rewrite ckey_frame. setoid_rewrite andb_true_iff. naive_solver.
Qed.

(** The keys of a path. *)
Definition ctx_key (c : cctx) (z : Z) : Prop :=
  ∃ f, f ∈ c ∧ (z = fkey f ∨ ckey (fsib f) z).

Lemma ckey_plug c t z : ckey (cplug c t) z ↔ ckey t z ∨ ctx_key c z.
Proof.
  revert t. induction c as [|f c IH]; intros t; simpl.
  - unfold ctx_key. setoid_rewrite elem_of_nil. naive_solver.
  - rewrite IH ckey_frame /ctx_key. setoid_rewrite elem_of_cons. naive_solver.
Qed.

(** [t'] can take the place of [t] in every tree. *)
Record csubst (t t' : ctree) : Prop := {
  csubst_wf : cwf t';
  csubst_keys z : ckey t' z → ckey t z;
  csubst_lookup z : clookup t' z = clookup t z;
}.

Definition ca_dict (t : ctree) (m : gmap Z Z) : Prop := ∀ z, clookup t z = m !! z.

Lemma csubst_plug c t t' m :
  csubst t t' → cwf (cplug c t) → ca_dict (cplug c t) m →
  cwf (cplug c t') ∧ ca_dict (cplug c t') m.
Proof.
  intros [Hwf Hk Hl] (Hc & Ht & Hin)%cwf_plug Hd. split.
  - apply cwf_plug. split_and!; [done | done |]. intros z Hz. by apply Hin, Hk.
  - intros z. rewrite -Hd !clookup_plug Hl. done.
Qed.

(** ** An operation on one base node *)

(** A change of a dictionary at the key [k] only. *)
Record local_at (k : Z) (F : gmap Z Z → gmap Z Z) : Prop := {
  local_same m1 m2 : m1 !! k = m2 !! k → F m1 !! k = F m2 !! k;
  local_other m z : z ≠ k → F m !! z = m !! z;
}.

Lemma local_id k : local_at k id.
Proof. by split. Qed.
Lemma local_insert k v : local_at k (dict_insert k v).
Proof.
  unfold dict_insert. split.
  - intros m1 m2 Heq. destruct (m1 !! k) eqn:H1, (m2 !! k) eqn:H2; try done; simplify_eq.
    + by rewrite H1 H2.
    + by rewrite !lookup_insert_eq.
  - intros m z Hz. destruct (m !! k); [done |]. by rewrite lookup_insert_ne.
Qed.
Lemma local_delete k : local_at k (delete k).
Proof.
  split.
  - intros m1 m2 _. by rewrite !lookup_delete_eq.
  - intros m z Hz. by rewrite lookup_delete_ne.
Qed.

Lemma ca_dict_local c k F b s mb st st' m :
  local_at k F → in_ctx c k = true →
  ca_dict (cplug c (CBase b s mb st)) m → ca_dict (cplug c (CBase b s (F mb) st')) (F m).
Proof.
  intros HF Hc Hd z. pose proof (Hd z) as Hz. rewrite clookup_plug /= in Hz. rewrite clookup_plug /=.
  destruct (decide (z = k)) as [->|Hne].
  - rewrite Hc in Hz |- *. by apply HF.
  - rewrite !(local_other k F HF) //.
Qed.

Lemma cwf_local c k F b s mb st st' :
  local_at k F → in_ctx c k = true → F mb !! invalid_key = None → -1000 ≤ st' ≤ 1250 →
  cwf (cplug c (CBase b s mb st)) → cwf (cplug c (CBase b s (F mb) st')).
Proof.
  intros HF Hk Hinv Hst (Hc & Hb & Hin)%cwf_plug. apply cwf_plug. split_and!; [done | done |].
  intros z Hz. simpl in Hz. destruct (decide (z = k)) as [->|Hne]; [done |].
  apply Hin. simpl. by rewrite -(local_other k F HF).
Qed.

(** ** Splitting a base node *)

Lemma csubst_split b s m st k m1 m2 x b1 s1 b2 s2 :
  base_ok m st → split_at m k m1 m2 →
  csubst (CBase b s m st) (CRoute x k (CBase b1 s1 m1 0) (CBase b2 s2 m2 0)).
Proof.
  intros [Hinv Hst] [-> Hb Hf Hne Hin]. pose proof (dict_below_from_before _ _ _ Hb Hf) as Hbef.
  apply dict_before_disjoint in Hbef. apply lookup_union_None in Hinv as [??]. split; simpl.
  - split_and!; [done | done | |]; (split; [done | lia]).
  - setoid_rewrite lookup_union_is_Some. intros z [->|[?|?]]; auto.
  - intros z. destruct (Z.ltb_spec z k).
    + rewrite lookup_union_l //. apply eq_None_not_Some. intros ?%Hf. lia.
    + rewrite lookup_union_r //. apply eq_None_not_Some. intros ?%Hb. lia.
Qed.

(** ** Joining a base node with its neighbour *)

(** A search that takes the side of the sibling's outermost key stays on that
    edge of the sibling. *)
Lemma in_ctx_left d k z :
  Forall (λ f, match f with CL _ _ _ => True | CR _ _ _ => False end) d →
  (∀ y, ctx_key d y → k ≤ y) → z < k → in_ctx d z = true.
Proof.
  intros Hd Hk Hz. apply forallb_forall. intros f Hf%list_elem_of_In.
  pose proof (proj1 (Forall_forall _ _) Hd f Hf) as Hcl.
  assert (k ≤ fkey f) as Hfk by (apply Hk; exists f; auto).
  destruct f; [|done]. simpl in *. apply Z.ltb_lt. lia.
Qed.
Lemma in_ctx_right d k z :
  Forall (λ f, match f with CR _ _ _ => True | CL _ _ _ => False end) d →
  (∀ y, ctx_key d y → y < k) → k ≤ z → in_ctx d z = true.
Proof.
  intros Hd Hk Hz. apply forallb_forall. intros f Hf%list_elem_of_In.
  pose proof (proj1 (Forall_forall _ _) Hd f Hf) as Hcl.
  assert (fkey f < k) as Hfk by (apply Hk; exists f; auto).
  destruct f; [done |]. simpl in *. apply Z.leb_le. lia.
Qed.

(** The base node is a left child: it is joined with the leftmost base node of
    its sibling. *)
Lemma csubst_join_left x k b s mb st d n sn mn stn nb js :
  Forall (λ f, match f with CL _ _ _ => True | CR _ _ _ => False end) d →
  cwf (CRoute x k (CBase b s mb st) (cplug d (CBase n sn mn stn))) →
  dict_before mb mn ∧
  csubst (CRoute x k (CBase b s mb st) (cplug d (CBase n sn mn stn)))
         (cplug d (CBase nb js (mb ∪ mn) 0)).
Proof.
  intros Hd (Hl & Hr & [Hinvb _] & (Hc & [Hinvn _] & Hin)%cwf_plug).
  setoid_rewrite ckey_plug in Hr. simpl in Hl, Hr, Hin.
  assert (dict_before mb mn) as Hb.
  { intros y z Hy Hz. specialize (Hl _ Hy). specialize (Hr z (or_introl Hz)). lia. }
  assert (∀ z, z < k → in_ctx d z = true) as Hed.
  { intros z. apply in_ctx_left; [done |]. naive_solver. }
  split; [done |]. split.
  - apply cwf_plug. split_and!; [done | split; [by apply lookup_union_None | lia] |].
    intros z [Hz|Hz]%lookup_union_is_Some; [by apply Hed, Hl | by apply Hin].
  - intros z [Hz|Hz]%ckey_plug; [apply lookup_union_is_Some in Hz as [?|?] |]; simpl; auto;
      right; right; apply ckey_plug; auto.
  - intros z. simpl. rewrite !clookup_plug /=. destruct (Z.ltb_spec z k).
    + rewrite Hed // lookup_union_l //. apply eq_None_not_Some. intros Hz.
      specialize (Hr z (or_introl Hz)). lia.
    + destruct (in_ctx d z); [|done]. rewrite lookup_union_r //.
      apply eq_None_not_Some. intros ?%Hl. lia.
Qed.

(** The symmetric case. *)
Lemma csubst_join_right x k b s mb st d n sn mn stn nb js :
  Forall (λ f, match f with CR _ _ _ => True | CL _ _ _ => False end) d →
  cwf (CRoute x k (cplug d (CBase n sn mn stn)) (CBase b s mb st)) →
  dict_before mn mb ∧
  csubst (CRoute x k (cplug d (CBase n sn mn stn)) (CBase b s mb st))
         (cplug d (CBase nb js (mn ∪ mb) 0)).
Proof.
  intros Hd (Hl & Hr & (Hc & [Hinvn _] & Hin)%cwf_plug & [Hinvb _]).
  setoid_rewrite ckey_plug in Hl. simpl in Hl, Hr, Hin.
  assert (dict_before mn mb) as Hb.
  { intros y z Hy Hz. specialize (Hr _ Hz). specialize (Hl y (or_introl Hy)). lia. }
  assert (∀ z, k ≤ z → in_ctx d z = true) as Hed.
  { intros z. apply in_ctx_right; [done |]. naive_solver. }
  split; [done |]. split.
  - apply cwf_plug. split_and!; [done | split; [by apply lookup_union_None | lia] |].
    intros z [Hz|Hz]%lookup_union_is_Some; [by apply Hin | by apply Hed, Hr].
  - intros z [Hz|Hz]%ckey_plug; [apply lookup_union_is_Some in Hz as [?|?] |]; simpl; auto;
      right; left; apply ckey_plug; auto.
  - intros z. simpl. rewrite !clookup_plug /=. destruct (Z.ltb_spec z k).
    + destruct (in_ctx d z); [|done]. rewrite lookup_union_l //.
      apply eq_None_not_Some. intros ?%Hr. lia.
    + rewrite Hed // lookup_union_r //. apply eq_None_not_Some. intros Hz.
      specialize (Hl z (or_introl Hz)). lia.
Qed.

(** ** Sizes *)

Lemma csize_plug_le c t : (csize t + length c ≤ csize (cplug c t))%nat.
Proof.
  revert t. induction c as [|f c IH]; intros t; simpl; [lia |].
  etrans; [|apply IH]. destruct f; simpl; lia.
Qed.

Lemma csize_sibling f c t : (csize (fsib f) + length c < csize (cplug (f :: c) t))%nat.
Proof.
  simpl. eapply Nat.lt_le_trans; [|apply csize_plug_le]. destruct f; simpl; lia.
Qed.

Lemma csize_plug_eq c t t' : csize t = csize t' → csize (cplug c t) = csize (cplug c t').
Proof.
  revert t t'. induction c as [|f c IH]; intros t t' Ht; simpl; [done |].
  apply IH. destruct f; simpl; lia.
Qed.

(** ** The dictionary as a union *)

Fixpoint cmap (t : ctree) : gmap Z Z :=
  match t with CBase _ _ m _ => m | CRoute _ _ l r => cmap l ∪ cmap r end.

Lemma ckey_cmap t z : is_Some (cmap t !! z) → ckey t z.
Proof.
  induction t as [b s m st|x k l IHl r IHr]; simpl; [done |].
  intros [?|?]%lookup_union_is_Some; auto.
Qed.

Lemma cmap_before x k l r : cwf (CRoute x k l r) → dict_before (cmap l) (cmap r).
Proof.
  intros (Hl & Hr & _ & _) y z Hy%ckey_cmap Hz%ckey_cmap.
  specialize (Hl _ Hy). specialize (Hr _ Hz). lia.
Qed.

Lemma cmap_lookup t z : cwf t → cmap t !! z = clookup t z.
Proof.
  induction t as [b s m st|x k l IHl r IHr]; simpl; [done |]. intros (Hl & Hr & Hwl & Hwr).
  rewrite -IHl // -IHr //. destruct (Z.ltb_spec z k).
  - rewrite lookup_union_l //. apply eq_None_not_Some. intros ?%ckey_cmap%Hr. lia.
  - rewrite lookup_union_r //. apply eq_None_not_Some. intros ?%ckey_cmap%Hl. lia.
Qed.

Lemma ca_dict_cmap t m : cwf t → ca_dict t m → cmap t = m.
Proof. intros Hwf Hd. apply map_eq. intros z. by rewrite cmap_lookup. Qed.

(** A number that adds up over disjoint dictionaries. *)
Definition additive (f : gmap Z Z → Z) : Prop :=
  ∀ m1 m2, m1 ##ₘ m2 → f (m1 ∪ m2) = f m1 + f m2.

Fixpoint ctotal (f : gmap Z Z → Z) (t : ctree) : Z :=
  match t with CBase _ _ m _ => f m | CRoute _ _ l r => ctotal f l + ctotal f r end.

Lemma ctotal_cmap f t : additive f → cwf t → ctotal f t = f (cmap t).
Proof.
  intros Hf. induction t as [b s m st|x k l IHl r IHr]; simpl; [done |]. intros Hwf.
  rewrite Hf; [|by apply dict_before_disjoint, (cmap_before x k)].
  destruct Hwf as (_ & _ & ? & ?). by rewrite IHl // IHr.
Qed.

Lemma additive_size : additive (λ m, Z.of_nat (size m)).
Proof. intros m1 m2 Hd. rewrite map_size_disj_union //. lia. Qed.

Lemma additive_sum g : additive (dict_sum g).
Proof.
  intros m1 m2. induction m1 as [|k v m1 Hk IH] using map_ind; intros Hd.
  - by rewrite map_empty_union.
  - apply map_disjoint_insert_l in Hd as [Hk2 Hd]. rewrite -insert_union_l.
    rewrite !dict_sum_insert // ?IH //; [lia |]. by apply lookup_union_None.
Qed.
