(* ===== verification/CAShape.v ===== *)
(** * CAShape: the node graph of a contention-adapting tree under concurrent change

    A thread that descends the tree may stand on nodes that others have removed
    from it.  Here the graph of all nodes that were ever published is related
    to the tree in it: what a walk along the pointers reaches, and why this
    survives the three ways in which the tree changes. *)
From S2P Require Import Prelude Memory OrderedSet CASpec.
#[local] Open Scope Z_scope.

(** ** Intervals and leaves *)

Abbreviation bound := (option Z).
Definition at_least_lo (lo : bound) (z : Z) : Prop := from_option (λ l, l ≤ z) True lo.
Definition below_hi (hi : bound) (z : Z) : Prop := from_option (λ h, z < h) True hi.
Definition in_iv (lo hi : bound) (z : Z) : Prop := at_least_lo lo z ∧ below_hi hi z.
Definition above_lo (lo : bound) (z : Z) : Prop := from_option (λ l, l < z) True lo.

(** A base node of the tree with its set, its dictionary, its parent and the
    keys it is responsible for. *)
Record leaf := Leaf { lf_b : loc; lf_s : loc; lf_m : gmap Z Z; lf_par : ptr; lf_lo : bound; lf_hi : bound }.

Fixpoint leaves (par : ptr) (lo hi : bound) (t : ctree) : list leaf :=
  match t with
  | CBase b s m _ => [Leaf b s m par lo hi]
  | CRoute x k l r => leaves (Some x) lo (Some k) l ++ leaves (Some x) (Some k) hi r
  end.
Fixpoint routes (t : ctree) : list (loc * Z) :=
  match t with CBase _ _ _ _ => [] | CRoute x k l r => (x, k) :: routes l ++ routes r end.
Fixpoint locs (t : ctree) : list loc :=
  match t with CBase b _ _ _ => [b] | CRoute x _ l r => x :: locs l ++ locs r end.
Abbreviation lvs := (leaves NULL None None).

Fixpoint twf (lo hi : bound) (t : ctree) : Prop :=
  match t with
  | CBase _ _ m st => (∀ z, is_Some (m !! z) → in_iv lo hi z) ∧ m !! invalid_key = None ∧ st = 0
  | CRoute _ k l r => above_lo lo k ∧ below_hi hi k ∧ twf lo (Some k) l ∧ twf (Some k) hi r
  end.

(** The bounds of the hole of a path. *)
Fixpoint ctx_iv (c : cctx) : bound * bound :=
  match c with
  | [] => (None, None)
  | CL _ k _ :: c => ((ctx_iv c).1, Some k)
  | CR _ _ k :: c => (Some k, (ctx_iv c).2)
  end.

Fixpoint ctx_leaves_l (c : cctx) : list leaf :=
  match c with
  | [] => []
  | CL _ _ _ :: c => ctx_leaves_l c
  | CR l x k :: c => ctx_leaves_l c ++ leaves (Some x) (ctx_iv c).1 (Some k) l
  end.
Fixpoint ctx_leaves_r (c : cctx) : list leaf :=
  match c with
  | [] => []
  | CL x k r :: c => leaves (Some x) (Some k) (ctx_iv c).2 r ++ ctx_leaves_r c
  | CR _ _ _ :: c => ctx_leaves_r c
  end.

Lemma leaves_plug c t :
  lvs (cplug c t) =
  ctx_leaves_l c ++ leaves (ppar c NULL) (ctx_iv c).1 (ctx_iv c).2 t ++ ctx_leaves_r c.
Proof.
  revert t. induction c as [|[x k r|l x k] c IH]; intros t; simpl; [by rewrite app_nil_r | |];
    rewrite IH /= -!app_assoc //.
Qed.

Fixpoint ctx_locs (c : cctx) : list loc :=
  match c with [] => [] | f :: c => floc f :: locs (fsib f) ++ ctx_locs c end.

Lemma locs_plug c t : locs (cplug c t) ≡ₚ locs t ++ ctx_locs c.
Proof.
  revert t. induction c as [|f c IH]; intros t; simpl; [by rewrite app_nil_r |].
  rewrite IH. destruct f as [x k r|l x k]; simpl; solve_Permutation.
Qed.

Fixpoint ctx_twf (c : cctx) : Prop :=
  match c with
  | [] => True
  | CL x k r :: c => above_lo (ctx_iv c).1 k ∧ below_hi (ctx_iv c).2 k ∧ twf (Some k) (ctx_iv c).2 r ∧ ctx_twf c
  | CR l x k :: c => above_lo (ctx_iv c).1 k ∧ below_hi (ctx_iv c).2 k ∧ twf (ctx_iv c).1 (Some k) l ∧ ctx_twf c
  end.

Lemma twf_plug c t : twf None None (cplug c t) ↔ ctx_twf c ∧ twf (ctx_iv c).1 (ctx_iv c).2 t.
Proof.
  revert t. induction c as [|[x k r|l x k] c IH]; intros t; simpl; [tauto | |]; rewrite IH /=; tauto.
Qed.

(** ** Facts about leaves *)

Lemma lf_b_locs par lo hi t l : l ∈ leaves par lo hi t → lf_b l ∈ locs t.
Proof.
  revert par lo hi. induction t as [b s m st|x k l1 IH1 l2 IH2]; intros par lo hi; simpl.
  - intros ->%list_elem_of_singleton. by apply list_elem_of_singleton.
  - rewrite elem_of_app elem_of_cons elem_of_app. intros [?%IH1|?%IH2]; auto.
Qed.

Lemma leaf_ctx_gen t par0 lo0 hi0 l :
  l ∈ leaves par0 lo0 hi0 t → twf lo0 hi0 t →
  ∃ c, t = cplug c (CBase (lf_b l) (lf_s l) (lf_m l) 0) ∧ lf_par l = ppar c par0.
Proof.
  revert par0 lo0 hi0. induction t as [b s m st|x k t1 IH1 t2 IH2]; intros par lo hi; simpl.
  - intros ->%list_elem_of_singleton (_ & _ & ->). by exists [].
  - intros [Hl|Hl]%elem_of_app (_ & _ & H1 & H2).
    + destruct (IH1 _ _ _ Hl H1) as (c & -> & Hp). exists (c ++ [CL x k t2]). rewrite cplug_app. split; [done |].
      rewrite Hp. by destruct c.
    + destruct (IH2 _ _ _ Hl H2) as (c & -> & Hp). exists (c ++ [CR t1 x k]). rewrite cplug_app. split; [done |].
      rewrite Hp. by destruct c.
Qed.

Lemma leaves_unique t : NoDup (locs t) → ∀ par lo hi l1 l2,
  l1 ∈ leaves par lo hi t → l2 ∈ leaves par lo hi t → lf_b l1 = lf_b l2 → l1 = l2.
Proof.
  induction t as [b s m st|x k t1 IH1 t2 IH2]; simpl; intros Hnd par lo hi l1 l2.
  - by intros ->%list_elem_of_singleton ->%list_elem_of_singleton.
  - apply NoDup_cons in Hnd as [_ (H1 & Hd & H2)%NoDup_app].
    intros [Ha|Ha]%elem_of_app [Hb|Hb]%elem_of_app Heq; [by eapply IH1 | | | by eapply IH2].
    + apply lf_b_locs in Ha, Hb. rewrite Heq in Ha. by destruct (Hd _ Ha).
    + apply lf_b_locs in Ha, Hb. rewrite -Heq in Hb. by destruct (Hd _ Hb).
Qed.

(** The context of a leaf has its parent and bounds. *)
Lemma leaf_ctx T l :
  l ∈ lvs T → twf None None T → NoDup (locs T) →
  ∃ c, T = cplug c (CBase (lf_b l) (lf_s l) (lf_m l) 0) ∧ lf_par l = ppar c NULL ∧
    lf_lo l = (ctx_iv c).1 ∧ lf_hi l = (ctx_iv c).2.
Proof.
  intros Hl Hwf Hnd. destruct (leaf_ctx_gen _ _ _ _ _ Hl Hwf) as (c & Hc & Hp). exists c. split; [done |]. split; [done |].
  assert (Leaf (lf_b l) (lf_s l) (lf_m l) (ppar c NULL) (ctx_iv c).1 (ctx_iv c).2 ∈ lvs T) as Hl'.
  { rewrite Hc leaves_plug. simpl. rewrite elem_of_app elem_of_cons. auto. }
  by rewrite (leaves_unique T Hnd _ _ _ _ _ Hl Hl' eq_refl).
Qed.

Lemma route_ctx t p kp : (p, kp) ∈ routes t → ∃ c l r, t = cplug c (CRoute p kp l r).
Proof.
  induction t as [b s m st|x k t1 IH1 t2 IH2]; simpl; [by intros ?%not_elem_of_nil |].
  intros [[= -> ->]|[Hp|Hp]%elem_of_app]%elem_of_cons; [by exists [], t1, t2 | |].
  - destruct (IH1 Hp) as (c & l & r & ->). exists (c ++ [CL x k t2]), l, r. by rewrite cplug_app.
  - destruct (IH2 Hp) as (c & l & r & ->). exists (c ++ [CR t1 x k]), l, r. by rewrite cplug_app.
Qed.

(** The leaves of a tree are non-empty intervals side by side. *)
Lemma leaves_iv lo hi t : twf lo hi t → ∀ par l z,
  l ∈ leaves par lo hi t → in_iv (lf_lo l) (lf_hi l) z → in_iv lo hi z.
Proof.
  revert lo hi. induction t as [b s m st|x k t1 IH1 t2 IH2]; intros lo hi; simpl.
  - intros _ par l z ->%list_elem_of_singleton. done.
  - intros (Hlo & Hhi & H1 & H2) par l z [Hl|Hl]%elem_of_app Hz.
    + apply (IH1 _ _ H1 _ _ _ Hl) in Hz as [Hz1 Hz2]. split; [done |]. destruct hi; simpl in *; [lia | done].
    + apply (IH2 _ _ H2 _ _ _ Hl) in Hz as [Hz1 Hz2]. split; [|done]. destruct lo; simpl in *; [lia | done].
Qed.

Lemma leaves_disjoint lo hi t : twf lo hi t → ∀ par l1 l2 z,
  l1 ∈ leaves par lo hi t → l2 ∈ leaves par lo hi t →
  in_iv (lf_lo l1) (lf_hi l1) z → in_iv (lf_lo l2) (lf_hi l2) z → l1 = l2.
Proof.
  revert lo hi. induction t as [b s m st|x k t1 IH1 t2 IH2]; intros lo hi; simpl.
  - by intros _ par l1 l2 z ->%list_elem_of_singleton ->%list_elem_of_singleton.
  - intros (_ & _ & H1 & H2) par l1 l2 z [Ha|Ha]%elem_of_app [Hb|Hb]%elem_of_app Hz1 Hz2; [by eapply IH1 | | | by eapply IH2].
    + apply (leaves_iv _ _ _ H1 _ _ _ Ha) in Hz1 as [_ ?]. apply (leaves_iv _ _ _ H2 _ _ _ Hb) in Hz2 as [? _].
      simpl in *. lia.
    + apply (leaves_iv _ _ _ H2 _ _ _ Ha) in Hz1 as [? _]. apply (leaves_iv _ _ _ H1 _ _ _ Hb) in Hz2 as [_ ?].
      simpl in *. lia.
Qed.

Definition iv_ok (lo hi : bound) : Prop := match lo, hi with Some a, Some b => a < b | _, _ => True end.

Lemma leaves_iv_ok lo hi t : twf lo hi t → iv_ok lo hi → ∀ par l, l ∈ leaves par lo hi t → iv_ok (lf_lo l) (lf_hi l).
Proof.
  revert lo hi. induction t as [b s m st|x k t1 IH1 t2 IH2]; intros lo hi; simpl.
  - by intros _ Hok par l ->%list_elem_of_singleton.
  - intros (Hlo & Hhi & H1 & H2) Hok par l [Hl|Hl]%elem_of_app; [eapply IH1 | eapply IH2]; try done; by destruct lo.
Qed.

Lemma leaf_lo_in T l a : twf None None T → l ∈ lvs T → lf_lo l = Some a → in_iv (lf_lo l) (lf_hi l) a.
Proof.
  intros Hwf Hl Ha. pose proof (leaves_iv_ok _ _ _ Hwf I _ _ Hl) as Hok. rewrite Ha in Hok |- *.
  split; simpl; [lia |]. destruct (lf_hi l); simpl in *; [lia | done].
Qed.
Lemma leaf_hi_in T l a : twf None None T → l ∈ lvs T → lf_hi l = Some a → in_iv (lf_lo l) (lf_hi l) (a - 1).
Proof.
  intros Hwf Hl Ha. pose proof (leaves_iv_ok _ _ _ Hwf I _ _ Hl) as Hok. rewrite Ha in Hok |- *.
  split; simpl; [|lia]. destruct (lf_lo l); simpl in *; [lia | done].
Qed.

Lemma leaf_lo_unique T l1 l2 a :
  twf None None T → l1 ∈ lvs T → l2 ∈ lvs T → lf_lo l1 = Some a → lf_lo l2 = Some a → l1 = l2.
Proof.
  intros Hwf H1 H2 Ha Hb. by eapply (leaves_disjoint _ _ _ Hwf _ _ _ a); [done..| |]; eapply leaf_lo_in.
Qed.
Lemma leaf_hi_unique T l1 l2 a :
  twf None None T → l1 ∈ lvs T → l2 ∈ lvs T → lf_hi l1 = Some a → lf_hi l2 = Some a → l1 = l2.
Proof.
  intros Hwf H1 H2 Ha Hb. by eapply (leaves_disjoint _ _ _ Hwf _ _ _ (a - 1)); [done..| |]; eapply leaf_hi_in.
Qed.

Lemma routes_iv lo hi t p kp : twf lo hi t → (p, kp) ∈ routes t → above_lo lo kp ∧ below_hi hi kp.
Proof.
  revert lo hi. induction t as [b s m st|x k t1 IH1 t2 IH2]; intros lo hi; simpl; [by intros _ ?%not_elem_of_nil |].
  intros (Hlo & Hhi & H1 & H2) [[= -> ->]|[Hp|Hp]%elem_of_app]%elem_of_cons; [done | |].
  - destruct (IH1 _ _ H1 Hp) as [? Hk]. split; [done |]. destruct hi; simpl in *; [lia | done].
  - destruct (IH2 _ _ H2 Hp) as [Hk ?]. split; [|done]. destruct lo; simpl in *; [lia | done].
Qed.

Lemma routes_locs t p kp : (p, kp) ∈ routes t → p ∈ locs t.
Proof.
  induction t as [b s m st|x k t1 IH1 t2 IH2]; simpl; [by intros ?%not_elem_of_nil |].
  rewrite !elem_of_cons !elem_of_app. intros [[= -> ->]|[?|?]]; auto.
Qed.

(** A dictionary for the tree; it has the order [cwf]. *)
Lemma twf_keys lo hi t z : twf lo hi t → ckey t z → in_iv lo hi z.
Proof.
  revert lo hi. induction t as [b s m st|x k t1 IH1 t2 IH2]; intros lo hi; simpl; [by intros (? & _) ?; auto |].
  intros (Hlo & Hhi & H1 & H2) [->|[Hz|Hz]].
  - split; [|done]. destruct lo; simpl in *; [lia | done].
  - destruct (IH1 _ _ H1 Hz) as [? Hk]. split; [done |]. destruct hi; simpl in *; [lia | done].
  - destruct (IH2 _ _ H2 Hz) as [Hk ?]. split; [|done]. destruct lo; simpl in *; [lia | done].
Qed.

Lemma twf_cwf lo hi t : twf lo hi t → cwf t.
Proof.
  revert lo hi. induction t as [b s m st|x k t1 IH1 t2 IH2]; intros lo hi; simpl.
  - intros (_ & ? & ->). split; [done | lia].
  - intros (Hlo & Hhi & H1 & H2). split_and!; [| |by eapply IH1 | by eapply IH2].
    + intros z Hz. by apply (twf_keys _ _ _ _ H1 Hz).
    + intros z Hz. by apply (twf_keys _ _ _ _ H2 Hz).
Qed.

(** ** The node graph *)

Inductive vnode := VBase | VRoute (k : Z) (l r : ptr).
Abbreviation graph := (gmap loc vnode).
Definition view (n : ca_node) : vnode :=
  match n with CaBase _ => VBase | CaRoute r => VRoute r.(rn_key) r.(rn_left) r.(rn_right) end.

Fixpoint trep (V : graph) (t : ctree) : Prop :=
  match t with
  | CBase b _ _ _ => V !! b = Some VBase
  | CRoute x k l r => V !! x = Some (VRoute k (Some (cloc l)) (Some (cloc r))) ∧ trep V l ∧ trep V r
  end.
Fixpoint crep (V : graph) (c : cctx) (q : loc) : Prop :=
  match c with
  | [] => True
  | CL x k r :: c => V !! x = Some (VRoute k (Some q) (Some (cloc r))) ∧ trep V r ∧ crep V c x
  | CR l x k :: c => V !! x = Some (VRoute k (Some (cloc l)) (Some q)) ∧ trep V l ∧ crep V c x
  end.

Lemma trep_plug V c t : trep V (cplug c t) ↔ crep V c (cloc t) ∧ trep V t.
Proof. revert t. induction c as [|[x k r|l x k] c IH]; intros t; simpl; [tauto | |]; rewrite IH /=; tauto. Qed.

Lemma trep_ext V V' t : (∀ x, x ∈ locs t → V' !! x = V !! x) → trep V t → trep V' t.
Proof.
  induction t as [b s m st|x k t1 IH1 t2 IH2]; simpl; intros Hx; [rewrite Hx //; by left |].
  rewrite Hx; [|by left]. intros (? & ? & ?). split_and!; [done | apply IH1 | apply IH2]; try done;
    intros y Hy; apply Hx; right; apply elem_of_app; auto.
Qed.
Lemma crep_ext V V' c q : (∀ x, x ∈ ctx_locs c → V' !! x = V !! x) → crep V c q → crep V' c q.
Proof.
  revert q. induction c as [|[x k r|l x k] c IH]; intros q; simpl; intros Hx; [done | |];
    (rewrite Hx; [|by left]); intros (? & ? & ?);
    (split_and!; [done | eapply trep_ext; [|done] | apply IH; [|done]]);
    intros y Hy; apply Hx; right; apply elem_of_app; auto.
Qed.

Lemma trep_dom V t x : trep V t → x ∈ locs t → is_Some (V !! x).
Proof.
  induction t as [b s m st|y k t1 IH1 t2 IH2]; simpl.
  - intros Hb ->%list_elem_of_singleton. by rewrite Hb.
  - intros (Hy & H1 & H2) [->|[?|?]%elem_of_app]%elem_of_cons; [by rewrite Hy | auto..].
Qed.
Lemma trep_base V par lo hi t l : trep V t → l ∈ leaves par lo hi t → V !! lf_b l = Some VBase.
Proof.
  revert par lo hi. induction t as [b s m st|x k t1 IH1 t2 IH2]; intros par lo hi; simpl.
  - by intros Hb ->%list_elem_of_singleton.
  - intros (_ & H1 & H2) [?|?]%elem_of_app; eauto.
Qed.
Lemma trep_route V t p kp : trep V t → (p, kp) ∈ routes t → ∃ l r, V !! p = Some (VRoute kp (Some l) (Some r)).
Proof.
  induction t as [b s m st|x k t1 IH1 t2 IH2]; simpl; [by intros _ ?%not_elem_of_nil |].
  intros (Hx & H1 & H2) [[= -> ->]|[?|?]%elem_of_app]%elem_of_cons; [by eexists _, _ | auto..].
Qed.
(** Every node of the tree is a leaf or a route node. *)
Lemma locs_cases t x par lo hi : x ∈ locs t → (∃ l, l ∈ leaves par lo hi t ∧ lf_b l = x) ∨ ∃ k, (x, k) ∈ routes t.
Proof.
  revert par lo hi. induction t as [b s m st|y k t1 IH1 t2 IH2]; intros par lo hi; simpl.
  - intros ->%list_elem_of_singleton. left. eexists. by split; [apply list_elem_of_singleton |].
  - intros [->|[Hx|Hx]%elem_of_app]%elem_of_cons.
    + right. exists k. by left.
    + destruct (IH1 (Some y) lo (Some k) Hx) as [(l & ? & ?)|(kx & ?)]; [left; exists l | right; exists kx]; rewrite ?elem_of_cons elem_of_app; auto.
    + destruct (IH2 (Some y) (Some k) hi Hx) as [(l & ? & ?)|(kx & ?)]; [left; exists l | right; exists kx]; rewrite ?elem_of_cons elem_of_app; auto.
Qed.

(** ** Walks

    A walk goes left where [dir] says so and right elsewhere; it ends at [z]. *)
Definition child (dir : Z → bool) (n : vnode) : ptr :=
  match n with VBase => NULL | VRoute k l r => if dir k then l else r end.
Definition to_key (k : Z) : Z → bool := λ c, k <? c.
Definition to_left : Z → bool := λ _, true.
Definition to_right : Z → bool := λ _, false.

Inductive walk (V : graph) (dir : Z → bool) (z : loc) : loc → Prop :=
  | walk_here : walk V dir z z
  | walk_step x n y : V !! x = Some n → child dir n = Some y → walk V dir z y → walk V dir z x.

Lemma walk_base V dir z x : V !! x = Some VBase → walk V dir z x → z = x.
Proof. intros Hx Hw. destruct Hw as [|x n y Hn Hc _]; [done |]. by simplify_eq. Qed.

(** From inside the tree a walk stays in it. *)
Lemma walk_inside V dir z t par lo hi :
  trep V t → walk V dir z (cloc t) → V !! z = Some VBase → ∃ l, l ∈ leaves par lo hi t ∧ lf_b l = z.
Proof.
  revert par lo hi. induction t as [b s m st|x k t1 IH1 t2 IH2]; intros par lo hi; simpl.
  - intros Hb Hw _. apply walk_base in Hw; [|done]. subst. eexists. by split; [apply list_elem_of_singleton |].
  - intros (Hx & H1 & H2) Hw Hz. inversion Hw as [|x' n y Hn Hc Hw']; subst; [by simplify_eq |].
    rewrite Hx in Hn. simplify_eq. simpl in Hc. destruct (dir k); simplify_eq.
    + destruct (IH1 (Some x) lo (Some k) H1 Hw' Hz) as (l & ? & ?). exists l. rewrite elem_of_app. auto.
    + destruct (IH2 (Some x) (Some k) hi H2 Hw' Hz) as (l & ? & ?). exists l. rewrite elem_of_app. auto.
Qed.

Lemma walk_search V k t par lo hi :
  trep V t → twf lo hi t → in_iv lo hi k →
  ∃ l, l ∈ leaves par lo hi t ∧ in_iv (lf_lo l) (lf_hi l) k ∧ walk V (to_key k) (lf_b l) (cloc t).
Proof.
  revert par lo hi. induction t as [b s m st|x c t1 IH1 t2 IH2]; intros par lo hi; simpl.
  - intros _ _ Hk. eexists. split; [by apply list_elem_of_singleton |]. split; [done | constructor].
  - intros (Hx & H1 & H2) (_ & _ & Hw1 & Hw2) [Hlo Hhi]. destruct (Z.ltb_spec k c).
    + destruct (IH1 (Some x) lo (Some c) H1 Hw1) as (l & Hl & Hk & Hw); [done |]. exists l. rewrite elem_of_app.
      split_and!; [by left | done |]. eapply walk_step; [done | | done]. simpl. rewrite /to_key (proj2 (Z.ltb_lt k c)) //.
    + destruct (IH2 (Some x) (Some c) hi H2 Hw2) as (l & Hl & Hk & Hw); [done |]. exists l. rewrite elem_of_app.
      split_and!; [by right | done |]. eapply walk_step; [done | | done]. simpl. rewrite /to_key (proj2 (Z.ltb_ge k c)) //.
Qed.

Lemma walk_leftmost V t par lo hi :
  trep V t → ∃ l, l ∈ leaves par lo hi t ∧ lf_lo l = lo ∧ ∀ z, V !! z = Some VBase → walk V to_left z (cloc t) ↔ z = lf_b l.
Proof.
  revert par lo hi. induction t as [b s m st|x c t1 IH1 t2 IH2]; intros par lo hi; simpl.
  - intros Hb. eexists. split; [by apply list_elem_of_singleton |]. split; [done |]. intros z _. simpl.
    split; [by apply walk_base | intros ->; constructor].
  - intros (Hx & H1 & H2). destruct (IH1 (Some x) lo (Some c) H1) as (l & Hl & Hlo & Hw). exists l. rewrite elem_of_app.
    split_and!; [by left | done |]. intros z Hz. rewrite -Hw //. split; [|intros; by eapply walk_step].
    intros Hwz. inversion Hwz as [|x' n y Hn Hc Hy]; subst; [by simplify_eq |]. rewrite Hx in Hn. unfold to_left in *. by simplify_eq/=.
Qed.

Lemma walk_rightmost V t par lo hi :
  trep V t → ∃ l, l ∈ leaves par lo hi t ∧ lf_hi l = hi ∧ ∀ z, V !! z = Some VBase → walk V to_right z (cloc t) ↔ z = lf_b l.
Proof.
  revert par lo hi. induction t as [b s m st|x c t1 IH1 t2 IH2]; intros par lo hi; simpl.
  - intros Hb. eexists. split; [by apply list_elem_of_singleton |]. split; [done |]. intros z _. simpl.
    split; [by apply walk_base | intros ->; constructor].
  - intros (Hx & H1 & H2). destruct (IH2 (Some x) (Some c) hi H2) as (l & Hl & Hlo & Hw). exists l. rewrite elem_of_app.
    split_and!; [by right | done |]. intros z Hz. rewrite -Hw //. split; [|intros; by eapply walk_step].
    intros Hwz. inversion Hwz as [|x' n y Hn Hc Hy]; subst; [by simplify_eq |].
    rewrite Hx in Hn. unfold to_right in *. by simplify_eq/=.
Qed.

(** A route node is on the search path of its key. *)
Lemma walk_route V t lo hi p kp : trep V t → twf lo hi t → (p, kp) ∈ routes t → walk V (to_key kp) p (cloc t).
Proof.
  revert lo hi. induction t as [b s m st|x k t1 IH1 t2 IH2]; intros lo hi; simpl; [by intros _ _ ?%not_elem_of_nil |].
  intros (Hx & H1 & H2) (_ & _ & Hw1 & Hw2) [[= -> ->]|[Hp|Hp]%elem_of_app]%elem_of_cons; [constructor | |].
  - eapply walk_step; [done | | by eapply IH1]. simpl. pose proof (routes_iv _ _ _ _ _ Hw1 Hp) as [_ Hk]. simpl in Hk.
    by rewrite /to_key (proj2 (Z.ltb_lt kp k)).
  - eapply walk_step; [done | | by eapply IH2]. simpl. pose proof (routes_iv _ _ _ _ _ Hw2 Hp) as [Hk _]. simpl in Hk.
    rewrite /to_key (proj2 (Z.ltb_ge kp k)) //. lia.
Qed.

(** ** Replacing the subtree in the hole of a path

    The pointer to it is written: a member of the route node above, or the root
    pointer, which is not part of the graph. *)
Definition set_child (left : bool) (q : loc) (n : vnode) : vnode :=
  match n with
  | VBase => VBase
  | VRoute k l r => if left then VRoute k (Some q) r else VRoute k l (Some q)
  end.
Definition redirect (V : graph) (c : cctx) (q : loc) : graph :=
  match c with
  | [] => V
  | CL x _ _ :: _ => alter (set_child true q) x V
  | CR _ x _ :: _ => alter (set_child false q) x V
  end.

Lemma redirect_other V c q x : x ∉ ctx_locs c → redirect V c q !! x = V !! x.
Proof.
  destruct c as [|[y k r|l y k] c]; simpl; [done | |]; intros Hx; rewrite lookup_alter_ne //; intros ->; apply Hx; by left.
Qed.
Lemma redirect_base V c q x : redirect V c q !! x = Some VBase ↔ V !! x = Some VBase.
Proof.
  destruct c as [|[y k r|l y k] c]; simpl; [done | |]; destruct (decide (x = y)) as [->|];
    rewrite ?lookup_alter_eq ?lookup_alter_ne //; destruct (V !! y) as [[]|]; naive_solver.
Qed.

Record replaced (V : graph) (c : cctx) (t t' : ctree) : Prop := {
  rp_rep : trep V (cplug c t);
  rp_rep' : trep V t';
  rp_wf : twf None None (cplug c t);
  rp_wf' : twf (ctx_iv c).1 (ctx_iv c).2 t';
  rp_nodup : NoDup (locs (cplug c t));
  rp_nodup' : NoDup (locs t');
  rp_disj x : x ∈ locs t' → x ∉ ctx_locs c;
}.

Section replace.
Context (V : graph) (c : cctx) (t t' : ctree) (Hr : replaced V c t t').
Abbreviation V' := (redirect V c (cloc t')).

Lemma replaced_rep : trep V' (cplug c t').
Proof.
  destruct Hr as [Hrep Hrep' _ _ Hnd _ Hdis]. apply trep_plug. apply trep_plug in Hrep as [Hc _]. split; last first.
  { eapply trep_ext; [|done]. intros x Hx. by apply redirect_other, Hdis. }
  rewrite locs_plug in Hnd. apply NoDup_app in Hnd as (_ & _ & Hnd).
  destruct c as [|[x k r|l x k] c']; simpl in *; [done | |]; apply NoDup_cons in Hnd as [Hx _]; destruct Hc as (Hv & Hs & Hc);
    (split_and!; [by rewrite lookup_alter_eq Hv | eapply trep_ext; [|done] | eapply crep_ext; [|done]]);
    intros y Hy; rewrite lookup_alter_ne //; intros ->; apply Hx, elem_of_app; auto.
Qed.
Lemma replaced_wf : twf None None (cplug c t').
Proof. destruct Hr. apply twf_plug. split; [|done]. by eapply twf_plug. Qed.
Lemma replaced_nodup : NoDup (locs (cplug c t')).
Proof.
  destruct Hr as [_ _ _ _ Hnd Hnd' Hdis]. rewrite locs_plug. rewrite locs_plug in Hnd.
  apply NoDup_app in Hnd as (_ & _ & Hnd). by apply NoDup_app.
Qed.

(** The walks that used the old pointer now use the new one. *)
Lemma redirect_step dir x n y :
  V !! x = Some n → child dir n = Some y →
  ∃ n', V' !! x = Some n' ∧ (child dir n' = Some y ∨ (y = cloc t ∧ child dir n' = Some (cloc t'))).
Proof.
  intros Hx Hc. destruct Hr as [Hrep _ _ _ _ _ _]. apply trep_plug in Hrep as [Hcr _].
  destruct c as [|[z k r|l z k] c']; simpl in *; [by exists n; auto | |]; destruct Hcr as (Hz & _ & _);
    (destruct (decide (x = z)) as [->|]; [|by exists n; rewrite lookup_alter_ne //; auto]);
    rewrite Hz in Hx; simplify_eq; rewrite lookup_alter_eq Hz /=; eexists; (split; [done |]); simpl in *;
    destruct (dir k); simplify_eq; auto.
Qed.

Lemma walk_redirect dir z x :
  walk V dir z x →
  walk V' dir z x ∨ (walk V dir z (cloc t) ∧ ∀ z', walk V' dir z' (cloc t') → walk V' dir z' x).
Proof.
  induction 1 as [|x n y Hx Hc Hw IH]; [left; constructor |].
  destruct (redirect_step dir x n y Hx Hc) as (n' & Hx' & [Hc'|[-> Hc']]).
  - destruct IH as [IH|[Ht IH]]; [left; by eapply walk_step | right]. split; [done |]. intros z' Hz'. eapply walk_step; eauto.
  - right. split; [done |]. intros z' Hz'. by eapply walk_step.
Qed.

(** A walk to a route node passes the old subtree only to get to the new one. *)
Lemma walk_redirect_route dir p x :
  p ≠ cloc t →
  (∀ n y, V !! cloc t = Some n → child dir n = Some y → y = cloc t' ∨ (V !! y = Some VBase ∧ y ≠ p)) →
  walk V dir p x → walk V' dir p x.
Proof.
  intros Hp Hch Hw. enough (walk V' dir p x ∧ (x = cloc t → walk V' dir p (cloc t'))) by tauto.
  induction Hw as [|x n y Hx Hc Hw [IH IHt]]; [split; [constructor | done] |]. split.
  - destruct (redirect_step dir x n y Hx Hc) as (n' & Hx' & [Hc'|[-> Hc']]); eapply walk_step; eauto.
  - intros ->. destruct (Hch n y Hx Hc) as [->|[Hb Hy]]; [done |]. apply walk_base in Hw; [by subst | done].
Qed.
End replace.

(** ** What a descending thread knows

    Its walk ends at a base node that has left the tree, or at a leaf with the
    property [ok].  [Nw]: the nodes that are not published yet. *)
Definition ends (Nw : gset loc) (V : graph) (T : ctree) (dir : Z → bool) (ok : leaf → Prop) (x : loc) : Prop :=
  ∃ z, walk V dir z x ∧ V !! z = Some VBase ∧ (z ∉ Nw) ∧ (z ∉ locs T ∨ ∃ l, l ∈ lvs T ∧ lf_b l = z ∧ ok l).

Definition has_key (k : Z) (l : leaf) : Prop := in_iv (lf_lo l) (lf_hi l) k.
Definition starts_at (k : Z) (l : leaf) : Prop := lf_lo l = Some k.
Definition stops_at (k : Z) (l : leaf) : Prop := lf_hi l = Some k.

(** The leaves of the old subtree with the property [ok] leave the tree or keep it. *)
Definition kept (c : cctx) (t t' : ctree) (ok : leaf → Prop) : Prop :=
  ∀ l, l ∈ leaves (ppar c NULL) (ctx_iv c).1 (ctx_iv c).2 t → ok l →
    lf_b l ∉ locs (cplug c t') ∨
    ∃ l', l' ∈ leaves (ppar c NULL) (ctx_iv c).1 (ctx_iv c).2 t' ∧ lf_b l' = lf_b l ∧ ok l'.

Section ends.
Context (Nw : gset loc) (V : graph) (c : cctx) (t t' : ctree) (Hr : replaced V c t t').
Context (Nw' : gset loc) (HNw : Nw' ⊆ Nw) (Hold : ∀ x, x ∈ locs (cplug c t) → x ∉ Nw)
  (Hnew : ∀ x, x ∈ locs t' → x ∈ locs t ∨ x ∈ Nw ∖ Nw').
Abbreviation V' := (redirect V c (cloc t')).
Abbreviation here := (leaves (ppar c NULL) (ctx_iv c).1 (ctx_iv c).2).

Lemma replaced_pub x : x ∈ locs (cplug c t') → x ∉ Nw'.
Proof.
  rewrite locs_plug elem_of_app. intros [[Hx|Hx]%Hnew|Hx].
  - assert (x ∉ Nw) by (apply Hold; rewrite locs_plug elem_of_app; auto). set_solver.
  - set_solver.
  - assert (x ∉ Nw) by (apply Hold; rewrite locs_plug elem_of_app; auto). set_solver.
Qed.

Lemma ends_replace dir ok x :
  kept c t t' ok →
  (∀ l, l ∈ here t → ok l → walk V dir (lf_b l) (cloc t) →
     ∃ l', l' ∈ here t' ∧ ok l' ∧ walk V' dir (lf_b l') (cloc t')) →
  ends Nw V (cplug c t) dir ok x → ends Nw' V' (cplug c t') dir ok x.
Proof.
  intros Hkeep Hmove (z & Hw & Hz & HzN & Hgood). destruct (walk_redirect V c t t' Hr dir z x Hw) as [Hw'|[Hwt Hnext]].
  - exists z. split; [done |]. rewrite redirect_base. split; [done |]. split; [set_solver |].
    destruct Hgood as [Hout|(l & Hl & <- & Hok)].
    + left. rewrite locs_plug elem_of_app. rewrite locs_plug elem_of_app in Hout. intros [Hx|Hx]; [|tauto].
      destruct (Hnew _ Hx); [tauto | set_solver].
    + rewrite leaves_plug !elem_of_app in Hl. destruct Hl as [Hl|[Hl|Hl]].
      * right. exists l. rewrite leaves_plug !elem_of_app. auto.
      * destruct (Hkeep l Hl Hok) as [?|(l' & ? & ? & ?)]; [by left | right]. exists l'. rewrite leaves_plug !elem_of_app. auto.
      * right. exists l. rewrite leaves_plug !elem_of_app. auto.
  - pose proof Hr as [Hrep _ _ _ Hnd _ _].
    destruct (walk_inside V dir z t (ppar c NULL) (ctx_iv c).1 (ctx_iv c).2) as (l & Hl & <-);
      [by apply trep_plug in Hrep as [_ ?] | done | done |].
    assert (l ∈ lvs (cplug c t)) as HlT by (rewrite leaves_plug !elem_of_app; auto).
    destruct Hgood as [Hout|(l2 & Hl2 & Heq & Hok)]; [by destruct Hout; apply lf_b_locs in HlT |].
    apply (leaves_unique _ Hnd _ _ _ l2 l Hl2 HlT) in Heq as ->.
    destruct (Hmove l Hl Hok Hwt) as (l' & Hl' & Hok' & Hw'). exists (lf_b l').
    assert (l' ∈ lvs (cplug c t')) as HlT' by (rewrite leaves_plug !elem_of_app; auto).
    split; [by apply Hnext |]. split; [by apply (trep_base V' _ _ _ _ _ (replaced_rep V c t t' Hr) HlT') |].
    split; [by apply replaced_pub, (lf_b_locs _ _ _ _ _ HlT') |]. right. by exists l'.
Qed.

Lemma replaced_hole : trep V' t'.
Proof. pose proof (replaced_rep V c t t' Hr) as H. by apply trep_plug in H as [_ ?]. Qed.

Lemma search_replace k x :
  kept c t t' (has_key k) → ends Nw V (cplug c t) (to_key k) (has_key k) x → ends Nw' V' (cplug c t') (to_key k) (has_key k) x.
Proof.
  intros Hk. apply ends_replace; [done |]. intros l Hl Hok _. pose proof Hr as [_ _ Hwf Hwf' _ _ _].
  apply twf_plug in Hwf as [_ Hwf]. apply (walk_search V' k t'); [apply replaced_hole | done |].
  exact (leaves_iv _ _ _ Hwf _ _ _ Hl Hok).
Qed.

Lemma leftmost_replace k x :
  kept c t t' (starts_at k) → ends Nw V (cplug c t) to_left (starts_at k) x → ends Nw' V' (cplug c t') to_left (starts_at k) x.
Proof.
  intros Hk. apply ends_replace; [done |]. intros l Hl Hok Hw. pose proof Hr as [Hrep _ _ _ Hnd _ _].
  apply trep_plug in Hrep as [_ Hrep]. destruct (walk_leftmost V t (ppar c NULL) (ctx_iv c).1 (ctx_iv c).2 Hrep) as (l0 & Hl0 & Hlo & Hiff).
  apply Hiff in Hw; [|by eapply trep_base]. rewrite locs_plug in Hnd. apply NoDup_app in Hnd as (Hnd & _ & _).
  apply (leaves_unique _ Hnd _ _ _ l l0 Hl Hl0) in Hw as ->.
  destruct (walk_leftmost V' t' (ppar c NULL) (ctx_iv c).1 (ctx_iv c).2 replaced_hole) as (l' & Hl' & Hlo' & Hiff').
  exists l'. split; [done |]. split; [rewrite /starts_at Hlo' -Hlo //|]. apply Hiff'; [|done]. by eapply trep_base; [apply replaced_hole |].
Qed.

Lemma rightmost_replace k x :
  kept c t t' (stops_at k) → ends Nw V (cplug c t) to_right (stops_at k) x → ends Nw' V' (cplug c t') to_right (stops_at k) x.
Proof.
  intros Hk. apply ends_replace; [done |]. intros l Hl Hok Hw. pose proof Hr as [Hrep _ _ _ Hnd _ _].
  apply trep_plug in Hrep as [_ Hrep]. destruct (walk_rightmost V t (ppar c NULL) (ctx_iv c).1 (ctx_iv c).2 Hrep) as (l0 & Hl0 & Hlo & Hiff).
  apply Hiff in Hw; [|by eapply trep_base]. rewrite locs_plug in Hnd. apply NoDup_app in Hnd as (Hnd & _ & _).
  apply (leaves_unique _ Hnd _ _ _ l l0 Hl Hl0) in Hw as ->.
  destruct (walk_rightmost V' t' (ppar c NULL) (ctx_iv c).1 (ctx_iv c).2 replaced_hole) as (l' & Hl' & Hlo' & Hiff').
  exists l'. split; [done |]. split; [rewrite /stops_at Hlo' -Hlo //|]. apply Hiff'; [|done]. by eapply trep_base; [apply replaced_hole |].
Qed.
End ends.

(** ** Route nodes with their parents *)

Fixpoint links (par : ptr) (t : ctree) : list (loc * Z * ptr) :=
  match t with CBase _ _ _ _ => [] | CRoute x k l r => (x, k, par) :: links (Some x) l ++ links (Some x) r end.
Fixpoint ctx_links (c : cctx) : list (loc * Z * ptr) :=
  match c with
  | [] => []
  | f :: c => (floc f, fkey f, ppar c NULL) :: links (Some (floc f)) (fsib f) ++ ctx_links c
  end.

Lemma links_plug c t : links NULL (cplug c t) ≡ₚ links (ppar c NULL) t ++ ctx_links c.
Proof.
  revert t. induction c as [|f c IH]; intros t; simpl; [by rewrite app_nil_r |].
  rewrite IH. destruct f as [x k r|l x k]; simpl; solve_Permutation.
Qed.

Lemma links_routes par t p k g : (p, k, g) ∈ links par t → (p, k) ∈ routes t.
Proof.
  revert par. induction t as [|x kx l IHl r IHr]; intros par; simpl; [by intros ?%not_elem_of_nil |].
  rewrite !elem_of_cons !elem_of_app. intros [[= -> -> ->]|[?%IHl|?%IHr]]; auto.
Qed.
Lemma routes_links par t p k : (p, k) ∈ routes t → ∃ g, (p, k, g) ∈ links par t.
Proof.
  revert par. induction t as [|x kx l IHl r IHr]; intros par; simpl; [by intros ?%not_elem_of_nil |].
  rewrite elem_of_cons elem_of_app. setoid_rewrite elem_of_cons. setoid_rewrite elem_of_app.
  intros [[= -> ->]|[Hp|Hp]]; [eauto | destruct (IHl (Some x) Hp); eauto | destruct (IHr (Some x) Hp); eauto].
Qed.
Lemma links_locs par t p k g : (p, k, g) ∈ links par t → p ∈ locs t.
Proof. intros H. by eapply routes_locs, links_routes. Qed.

(** Only the top node knows what is above the subtree. *)
Lemma links_move par par' t p k g :
  (p, k, g) ∈ links par t → (p, k, g) ∈ links par' t ∨ (g = par ∧ (p, k, par') ∈ links par' t).
Proof.
  destruct t as [|x kx l r]; simpl; [by intros ?%not_elem_of_nil |].
  rewrite !elem_of_cons. intros [[= -> -> ->]|?]; auto.
Qed.

Lemma links_unique t : NoDup (locs t) → ∀ par p k1 k2 g1 g2,
  (p, k1, g1) ∈ links par t → (p, k2, g2) ∈ links par t → k1 = k2 ∧ g1 = g2.
Proof.
  induction t as [|x kx l IHl r IHr]; simpl; intros Hnd par p k1 k2 g1 g2; [by intros ?%not_elem_of_nil |].
  apply NoDup_cons in Hnd as [Hx (Hl & Hd & Hr)%NoDup_app]. rewrite !elem_of_cons !elem_of_app.
  assert (∀ k g par', (x, k, g) ∈ links par' l ∨ (x, k, g) ∈ links par' r → False) as Hno.
  { intros k g par' [?%links_locs|?%links_locs]; apply Hx, elem_of_app; auto. }
  intros [[= -> -> ->]|[H1|H1]] [[= ??]|[H2|H2]]; subst; try done; try (exfalso; by eapply Hno; eauto); eauto;
    apply links_locs in H1, H2; exfalso; by eapply Hd.
Qed.

Lemma link_ctx t p k g par : (p, k, g) ∈ links par t → ∃ c l r, t = cplug c (CRoute p k l r) ∧ g = ppar c par.
Proof.
  revert par. induction t as [|x kx t1 IH1 t2 IH2]; intros par; simpl; [by intros ?%not_elem_of_nil |].
  intros [[= -> -> ->]|[Hp|Hp]%elem_of_app]%elem_of_cons; [by exists [], t1, t2 | |].
  - destruct (IH1 _ Hp) as (c & l & r & -> & ->). exists (c ++ [CL x kx t2]), l, r. rewrite cplug_app. by destruct c.
  - destruct (IH2 _ Hp) as (c & l & r & -> & ->). exists (c ++ [CR t1 x kx]), l, r. rewrite cplug_app. by destruct c.
Qed.

(** In the tree a pointer leads to a child. *)
Lemma link_child V T x kx p k dir n :
  trep V T → NoDup (locs T) → (x, kx) ∈ routes T → (p, k) ∈ routes T →
  V !! x = Some n → child dir n = Some p → (p, k, Some x) ∈ links NULL T.
Proof.
  intros Hrep Hnd (c & l & r & ->)%route_ctx (g & Hp)%(routes_links NULL) Hx Hc.
  pose proof Hrep as [_ (Hv & Hl & Hr)]%trep_plug. rewrite Hv in Hx. simplify_eq/=.
  assert (∀ t', t' = l ∨ t' = r → Some (cloc t') = Some p → (p, k, Some x) ∈ links NULL (cplug c (CRoute x kx l r))) as Hin.
  { intros t' Ht [= <-]. assert (∀ k' g', (cloc t', k', g') ∈ links (Some x) t' → (cloc t', k', g') ∈ links NULL (cplug c (CRoute x kx l r))) as Hsub.
    { intros k' g' H. rewrite links_plug. simpl. rewrite elem_of_cons !elem_of_app. destruct Ht; subst; auto. }
    destruct t' as [b s m st|y ky l' r'].
    - exfalso. destruct (trep_route V (cplug c (CRoute x kx l r)) b k) as (? & ? & Hb); [done | by eapply links_routes |].
      destruct Ht; subst; simpl in *; congruence.
    - simpl in *. pose proof (Hsub ky (Some x) ltac:(by left)) as H. by destruct (links_unique _ Hnd _ _ _ _ _ _ H Hp) as [-> ->]. }
  destruct (dir kx); eauto.
Qed.

(** ** Joining into the outermost leaf of the sibling *)

(** The dictionary [m] moves into the leftmost, or the rightmost, leaf. *)
Fixpoint join_left (m : gmap Z Z) (t : ctree) : ctree :=
  match t with CBase n s mn st => CBase n s (m ∪ mn) st | CRoute x k l r => CRoute x k (join_left m l) r end.
Fixpoint join_right (m : gmap Z Z) (t : ctree) : ctree :=
  match t with CBase n s mn st => CBase n s (mn ∪ m) st | CRoute x k l r => CRoute x k l (join_right m r) end.

Lemma join_left_cloc m t : cloc (join_left m t) = cloc t.
Proof. by destruct t. Qed.
Lemma join_right_cloc m t : cloc (join_right m t) = cloc t.
Proof. by destruct t. Qed.
Lemma join_left_locs m t : locs (join_left m t) = locs t.
Proof. induction t as [|x k l IHl r IHr]; simpl; [done | by rewrite IHl]. Qed.
Lemma join_right_locs m t : locs (join_right m t) = locs t.
Proof. induction t as [|x k l IHl r IHr]; simpl; [done | by rewrite IHr]. Qed.
Lemma join_left_links m par t : links par (join_left m t) = links par t.
Proof. revert par. induction t as [|x k l IHl r IHr]; intros par; simpl; [done | by rewrite IHl]. Qed.
Lemma join_right_links m par t : links par (join_right m t) = links par t.
Proof. revert par. induction t as [|x k l IHl r IHr]; intros par; simpl; [done | by rewrite IHr]. Qed.
Lemma join_left_rep V m t : trep V t → trep V (join_left m t).
Proof. induction t as [|x k l IHl r IHr]; simpl; [done |]. rewrite join_left_cloc. naive_solver. Qed.
Lemma join_right_rep V m t : trep V t → trep V (join_right m t).
Proof. induction t as [|x k l IHl r IHr]; simpl; [done |]. rewrite join_right_cloc. naive_solver. Qed.

Lemma above_lo_trans lo k k' : above_lo lo k → k < k' → above_lo lo k'.
Proof. destruct lo; simpl; [lia | done]. Qed.
Lemma below_hi_trans hi k k' : below_hi hi k' → k ≤ k' → below_hi hi k.
Proof. destruct hi; simpl; [lia | done]. Qed.
Lemma at_least_lo_trans lo k k' : at_least_lo lo k → k ≤ k' → at_least_lo lo k'.
Proof. destruct lo; simpl; [lia | done]. Qed.
Lemma above_at_least lo k : above_lo lo k → at_least_lo lo k.
Proof. destruct lo; simpl; [lia | done]. Qed.

Lemma join_left_twf m lo k hi t :
  twf (Some k) hi t → above_lo lo k → below_hi hi k → (∀ z, is_Some (m !! z) → in_iv lo (Some k) z) →
  m !! invalid_key = None → twf lo hi (join_left m t).
Proof.
  revert hi. induction t as [n s mn st|x kx l IHl r IHr]; intros hi; simpl.
  - intros (Hm & Hinv & ->) Hlo Hhi Hmb Hinvb. split_and!; [|by apply lookup_union_None | done].
    intros z [Hz|Hz]%lookup_union_is_Some; [destruct (Hmb z Hz) as [? Hk] | destruct (Hm z Hz) as [Hk ?]]; simpl in Hk; split; try done.
    + eapply below_hi_trans; [done | lia].
    + eapply at_least_lo_trans; [by apply above_at_least | done].
  - intros (Hk & Hkhi & Hl & Hr) Hlo Hhi Hmb Hinvb. split_and!; [by eapply above_lo_trans | done | by apply IHl | done].
Qed.
Lemma join_right_twf m lo k hi t :
  twf lo (Some k) t → above_lo lo k → below_hi hi k → (∀ z, is_Some (m !! z) → in_iv (Some k) hi z) →
  m !! invalid_key = None → twf lo hi (join_right m t).
Proof.
  revert lo. induction t as [n s mn st|x kx l IHl r IHr]; intros lo; simpl.
  - intros (Hm & Hinv & ->) Hlo Hhi Hmb Hinvb. split_and!; [|by apply lookup_union_None | done].
    intros z [Hz|Hz]%lookup_union_is_Some; [destruct (Hm z Hz) as [? Hk] | destruct (Hmb z Hz) as [Hk ?]]; simpl in Hk; split; try done.
    + eapply below_hi_trans; [done | lia].
    + eapply at_least_lo_trans; [by apply above_at_least | done].
  - intros (Hk & Hkhi & Hl & Hr) Hlo Hhi Hmb Hinvb. simpl in Hkhi.
    split_and!; [done | eapply below_hi_trans; [done | lia] | done | by apply IHr].
Qed.

Lemma join_left_lookup m lo k hi t z :
  twf (Some k) hi t → (∀ z, is_Some (m !! z) → in_iv lo (Some k) z) →
  clookup (join_left m t) z = if z <? k then m !! z else clookup t z.
Proof.
  intros Ht Hm. revert hi Ht. induction t as [n s mn st|x kx l IHl r IHr]; intros hi; simpl.
  - intros (Hmn & _ & _). destruct (Z.ltb_spec z k).
    + rewrite lookup_union_l //. apply eq_None_not_Some. intros [Hk _]%Hmn. simpl in Hk. lia.
    + rewrite lookup_union_r //. apply eq_None_not_Some. intros [_ Hk]%Hm. simpl in Hk. lia.
  - intros (Hk & _ & Hl & _). simpl in Hk. rewrite (IHl _ Hl). destruct (Z.ltb_spec z k), (Z.ltb_spec z kx); done || lia.
Qed.
Lemma join_right_lookup m lo k hi t z :
  twf lo (Some k) t → (∀ z, is_Some (m !! z) → in_iv (Some k) hi z) →
  clookup (join_right m t) z = if z <? k then clookup t z else m !! z.
Proof.
  intros Ht Hm. revert lo Ht. induction t as [n s mn st|x kx l IHl r IHr]; intros lo; simpl.
  - intros (Hmn & _ & _). destruct (Z.ltb_spec z k).
    + rewrite lookup_union_l //. apply eq_None_not_Some. intros [Hk _]%Hm. simpl in Hk. lia.
    + rewrite lookup_union_r //. apply eq_None_not_Some. intros [_ Hk]%Hmn. simpl in Hk. lia.
  - intros (_ & Hk & _ & Hr). simpl in Hk. rewrite (IHr _ Hr). destruct (Z.ltb_spec z k), (Z.ltb_spec z kx); done || lia.
Qed.

(** The leaf that takes the dictionary in; the others do not change. *)
Definition merged (m : gmap Z Z) (par : ptr) (lo hi : bound) (t : ctree) (l : leaf) : leaf :=
  Leaf (lf_b l) (lf_s l) m (if decide (lf_b l = cloc t) then par else lf_par l) lo hi.

Lemma join_left_leaves m t par par' lo lo' hi :
  NoDup (locs t) →
  ∃ l rest, leaves par lo hi t = l :: rest ∧ lf_lo l = lo ∧
    leaves par' lo' hi (join_left m t) = merged (m ∪ lf_m l) par' lo' (lf_hi l) t l :: rest.
Proof.
  revert par par' hi. induction t as [n s mn st|x k t1 IH1 t2 IH2]; intros par par' hi; simpl.
  - intros _. eexists _, []. rewrite /merged /= decide_True //.
  - intros [Hx (Hnd & _ & _)%NoDup_app]%NoDup_cons. destruct (IH1 (Some x) (Some x) (Some k) Hnd) as (l & rest & Hl & Hlo & Hl').
    exists l, (rest ++ leaves (Some x) (Some k) hi t2). rewrite Hl Hl'. split_and!; [done | done |]. simpl. f_equal.
    assert (l ∈ leaves (Some x) lo (Some k) t1) as Hin by (rewrite Hl; by left).
    rewrite /merged /=. assert (lf_b l ≠ x) by (intros <-; apply Hx, elem_of_app; left; by eapply lf_b_locs).
    rewrite (decide_False (P := lf_b l = x)) //. destruct (decide (lf_b l = cloc t1)) as [He|]; [|done].
    destruct t1; simpl in *; [by apply list_elem_of_singleton in Hin as -> |]. apply NoDup_cons in Hnd as [Hx1 _].
    apply elem_of_app in Hin as [?%lf_b_locs|?%lf_b_locs]; exfalso; apply Hx1; rewrite -He elem_of_app; auto.
Qed.
Lemma join_right_leaves m t par par' lo hi hi' :
  NoDup (locs t) →
  ∃ l rest, leaves par lo hi t = rest ++ [l] ∧ lf_hi l = hi ∧
    leaves par' lo hi' (join_right m t) = rest ++ [merged (lf_m l ∪ m) par' (lf_lo l) hi' t l].
Proof.
  revert par par' lo. induction t as [n s mn st|x k t1 IH1 t2 IH2]; intros par par' lo; simpl.
  - intros _. eexists _, []. rewrite /merged /= decide_True //.
  - intros [Hx (_ & _ & Hnd)%NoDup_app]%NoDup_cons. destruct (IH2 (Some x) (Some x) (Some k) Hnd) as (l & rest & Hl & Hlo & Hl').
    exists l, (leaves (Some x) lo (Some k) t1 ++ rest). rewrite Hl Hl' !app_assoc. split_and!; [done | done |]. do 2 f_equal.
    assert (l ∈ leaves (Some x) (Some k) hi t2) as Hin by (rewrite Hl elem_of_app; right; by left).
    rewrite /merged /=. assert (lf_b l ≠ x) by (intros <-; apply Hx, elem_of_app; right; by eapply lf_b_locs).
    rewrite (decide_False (P := lf_b l = x)) //. destruct (decide (lf_b l = cloc t2)) as [He|]; [|done].
    destruct t2; simpl in *; [by apply list_elem_of_singleton in Hin as -> |]. apply NoDup_cons in Hnd as [Hx1 _].
    apply elem_of_app in Hin as [?%lf_b_locs|?%lf_b_locs]; exfalso; apply Hx1; rewrite -He elem_of_app; auto.
Qed.
