(* ===== verification/CAProtocol.v ===== *)
(** * CAProtocol: how threads share a contention-adapting tree

    The state of the protocol: all nodes and ordered sets that were ever
    allocated, who holds which node, the tree they form and the history of
    completed dictionary operations.  A node is held by the thread that has its
    lock or that has allocated it and not yet linked it into the tree.

    [wf] is the invariant that holds between any two atomic actions of any
    threads; [frame] lists what a step does not change for the holders of other
    nodes.  The steps of the protocol are at the end of the file. *)
From S2P Require Import Prelude Memory SepLogic OrderedSet Prog Threads CANode CASpec CAShape.
#[local] Open Scope Z_scope.

(** ** Nodes *)

Definition n_flag (n : ca_node) : bool := match n with CaBase b => bn_isBaseNode b | CaRoute r => rn_isBaseNode r end.
Definition n_m (n : ca_node) : bool := match n with CaBase b => bn_m b | CaRoute r => rn_m r end.
Definition n_owner (n : ca_node) : Z := match n with CaBase b => bn_owner b | CaRoute r => rn_owner r end.
Definition n_valid (n : ca_node) : bool := match n with CaBase b => bn_valid b | CaRoute r => rn_valid r end.
Definition is_base (n : ca_node) : bool := match n with CaBase _ => true | CaRoute _ => false end.

(** Both are base nodes, or route nodes with the same key. *)
Definition same_key (n n' : ca_node) : Prop :=
  match n, n' with
  | CaBase _, CaBase _ => True
  | CaRoute a, CaRoute b => rn_key a = rn_key b
  | _, _ => False
  end.
(** All members but the children agree. *)
Definition same_lock (n n' : ca_node) : Prop :=
  match n, n' with
  | CaBase a, CaBase b => a = b
  | CaRoute a, CaRoute b =>
      b = RouteNode (rn_isBaseNode a) (rn_key a) (rn_left b) (rn_right b) (rn_m a) (rn_owner a) (rn_valid a)
  | _, _ => False
  end.

Lemma same_lock_refl n : same_lock n n.
Proof. by destruct n as [|[]]. Qed.
Lemma same_lock_trans n1 n2 n3 : same_lock n1 n2 → same_lock n2 n3 → same_lock n1 n3.
Proof. destruct n1, n2, n3; simpl; try done; [by intros -> -> |]. intros H2 H3. by rewrite H3 H2. Qed.
Lemma same_key_refl n : same_key n n.
Proof. by destruct n. Qed.
Lemma same_lock_key n n' : same_lock n n' → same_key n n'.
Proof. destruct n, n'; simpl; [done.. |]. by intros ->. Qed.
Lemma same_lock_members n n' :
  same_lock n n' → n_flag n' = n_flag n ∧ n_m n' = n_m n ∧ n_owner n' = n_owner n ∧ n_valid n' = n_valid n ∧ is_base n' = is_base n.
Proof. destruct n, n'; simpl; try done; by intros ->. Qed.
Lemma same_view_key n n' : view n' = view n → same_key n n'.
Proof. destruct n, n'; simpl; try done. by intros [=]. Qed.

(** ** The state and its invariant *)

(** A set carries the node whose holder may use it. *)
Record state := State {
  g_nodes : gmap loc ca_node;
  g_sets : gmap loc (gmap Z Z * loc);
  g_own : gmap loc nat;
  g_new : gset loc;
  g_tree : ctree;
  g_hist : list (nat * (set_op * Z));
}.

Definition graph_of (γ : state) : graph := view <$> γ.(g_nodes).
Definition pub (γ : state) (x : loc) : Prop := is_Some (γ.(g_nodes) !! x) ∧ x ∉ γ.(g_new).

Section protocol.
Variable m0 : gmap Z Z.

Record wf (γ : state) : Prop := {
  wf_rep : trep (graph_of γ) γ.(g_tree);
  wf_twf : twf None None γ.(g_tree);
  wf_nodup : NoDup (locs γ.(g_tree));
  wf_legal : legal dict_op m0 γ.(g_hist);
  wf_dict : ca_dict γ.(g_tree) (replay dict_op m0 γ.(g_hist));
  wf_owned x : is_Some (γ.(g_own) !! x) → is_Some (γ.(g_nodes) !! x);
  wf_new x : x ∈ γ.(g_new) → is_Some (γ.(g_own) !! x) ∧ x ∉ locs γ.(g_tree);
  wf_closed x n dir y :
    γ.(g_nodes) !! x = Some n → x ∉ γ.(g_new) → child dir (view n) = Some y → pub γ y;
  wf_node x n :
    γ.(g_nodes) !! x = Some n →
    n_flag n = is_base n ∧
    (x ∉ γ.(g_new) → is_Some (γ.(g_own) !! x) → n_m n = true) ∧
    (γ.(g_own) !! x = None → n_m n = false ∧ n_owner n = -1 ∧ n_valid n = bool_decide (x ∈ locs γ.(g_tree)));
  wf_leaf l b :
    l ∈ lvs γ.(g_tree) → γ.(g_own) !! lf_b l = None → γ.(g_nodes) !! lf_b l = Some (CaBase b) →
    bn_set b = Some (lf_s l) ∧ bn_parent b = lf_par l ∧ γ.(g_sets) !! lf_s l = Some (lf_m l, lf_b l);
}.

Lemma graph_lookup γ x n : γ.(g_nodes) !! x = Some n → graph_of γ !! x = Some (view n).
Proof. intros Hx. by rewrite /graph_of lookup_fmap Hx. Qed.
Lemma graph_inv γ x v : graph_of γ !! x = Some v → ∃ n, γ.(g_nodes) !! x = Some n ∧ v = view n.
Proof. rewrite /graph_of lookup_fmap_Some. naive_solver. Qed.
Lemma graph_base γ x : graph_of γ !! x = Some VBase → ∃ b, γ.(g_nodes) !! x = Some (CaBase b).
Proof. intros (n & Hn & Hv)%graph_inv. destruct n; [by eexists | done]. Qed.

Lemma tree_pub γ x : wf γ → x ∈ locs γ.(g_tree) → pub γ x.
Proof.
  intros Hwf Hx. split.
  - destruct (trep_dom _ _ _ (wf_rep γ Hwf) Hx) as [v Hv]. apply graph_inv in Hv as (n & Hn & _). by exists n.
  - intros Hnew. by destruct (wf_new γ Hwf x Hnew).
Qed.

(** A search in the published part stays in it. *)
Lemma walk_pub γ V' dir z x :
  wf γ → (∀ y, pub γ y → V' !! y = graph_of γ !! y) → pub γ x → walk (graph_of γ) dir z x → walk V' dir z x ∧ pub γ z.
Proof.
  intros Hwf HV Hx Hw. induction Hw as [|x v y Hv Hc Hw IH]; [by split; [constructor |] |].
  pose proof Hv as (n & Hn & ->)%graph_inv. destruct Hx as [? Hx]. pose proof (wf_closed γ Hwf x n dir y Hn Hx Hc) as Hy.
  destruct (IH Hy) as [??]. split; [|done]. eapply walk_step; [rewrite HV; [done | by split] | done | done].
Qed.

(** ** What a step leaves alone

    [K]: the nodes whose holders rely on this step; [N]: those among them whose
    members it does not write, the pointers to children apart. *)
Definition reaches (γ : state) (dir : Z → bool) (ok : leaf → Prop) (x : loc) : Prop :=
  pub γ x ∧ ends γ.(g_new) (graph_of γ) γ.(g_tree) dir ok x.

Record frame (N K : loc → Prop) (γ γ' : state) : Prop := {
  f_own x : K x → γ'.(g_own) !! x = γ.(g_own) !! x;
  f_new x : K x → x ∈ γ.(g_new) → x ∈ γ'.(g_new);
  f_node x n : N x → γ.(g_nodes) !! x = Some n →
    ∃ n', γ'.(g_nodes) !! x = Some n' ∧ same_lock n n' ∧ (x ∈ γ.(g_new) → n' = n);
  f_child x n n' dir y : K x → x ∉ γ.(g_new) → γ.(g_nodes) !! x = Some n → γ'.(g_nodes) !! x = Some n' →
    child dir (view n) = Some y → graph_of γ !! y ≠ Some VBase ∨ K y → child dir (view n') = Some y;
  f_set s m b : K b → γ.(g_sets) !! s = Some (m, b) → γ'.(g_sets) !! s = Some (m, b);
  f_leaf l : K (lf_b l) → l ∈ lvs γ.(g_tree) → l ∈ lvs γ'.(g_tree);
  f_link p k g : K p → (p, k, g) ∈ links NULL γ.(g_tree) →
    ∃ g2, (p, k, g2) ∈ links NULL γ'.(g_tree) ∧ (g2 = g ∨ ∃ g', g = Some g' ∧ g' ∉ locs γ'.(g_tree));
  f_left l k x : K (lf_b l) → l ∈ lvs γ.(g_tree) → lf_hi l = Some k →
    reaches γ to_left (starts_at k) x → reaches γ' to_left (starts_at k) x;
  f_right l k x : K (lf_b l) → l ∈ lvs γ.(g_tree) → lf_lo l = Some k →
    reaches γ to_right (stops_at k) x → reaches γ' to_right (stops_at k) x;
  f_path p k g x : K p → (p, k, g) ∈ links NULL γ.(g_tree) → pub γ x →
    walk (graph_of γ) (to_key k) p x → walk (graph_of γ') (to_key k) p x;
  f_pub x n : γ.(g_nodes) !! x = Some n → x ∉ γ.(g_new) →
    (x ∉ γ'.(g_new)) ∧ ∃ n', γ'.(g_nodes) !! x = Some n' ∧ same_key n n';
  f_dead x : pub γ x → x ∉ locs γ.(g_tree) →
    (x ∉ locs γ'.(g_tree)) ∧ graph_of γ' !! x = graph_of γ !! x;
  f_search k x : reaches γ (to_key k) (has_key k) x → reaches γ' (to_key k) (has_key k) x;
}.

Lemma frame_mono (N N' K K' : loc → Prop) γ γ' :
  (∀ x, N' x → N x) → (∀ x, K' x → K x) → frame N K γ γ' → frame N' K' γ γ'.
Proof. intros HN HK []. split; eauto. intros. naive_solver. Qed.

(** A step that does not touch the tree and the pointers of published nodes. *)
Lemma frame_quiet (N K : loc → Prop) γ γ' :
  wf γ → γ'.(g_tree) = γ.(g_tree) →
  (∀ x, K x → γ'.(g_own) !! x = γ.(g_own) !! x) → (∀ x, N x → γ'.(g_nodes) !! x = γ.(g_nodes) !! x) →
  γ.(g_new) ⊆ γ'.(g_new) → (∀ x, x ∈ γ'.(g_new) → x ∉ γ.(g_new) → γ.(g_nodes) !! x = None) →
  (∀ x n, γ.(g_nodes) !! x = Some n → x ∉ γ.(g_new) → ∃ n', γ'.(g_nodes) !! x = Some n' ∧ view n' = view n) →
  (∀ s m b, K b → γ.(g_sets) !! s = Some (m, b) → γ'.(g_sets) !! s = Some (m, b)) →
  frame N K γ γ'.
Proof.
  intros Hwf HT HK HN Hnew Hnew' Hview Hset.
  assert (∀ y, pub γ y → graph_of γ' !! y = graph_of γ !! y) as HV.
  { intros y [[n Hn] Hy]. destruct (Hview y n Hn Hy) as (n' & Hn' & Hv). by rewrite (graph_lookup _ _ _ Hn) (graph_lookup _ _ _ Hn') Hv. }
  assert (∀ y, pub γ y → pub γ' y) as Hpub.
  { intros y [[n Hn] Hy]. split; [destruct (Hview y n Hn Hy) as (n' & Hn' & _); by exists n' |].
    intros Hy'. by rewrite (Hnew' y Hy' Hy) in Hn. }
  assert (∀ dir ok x, reaches γ dir ok x → reaches γ' dir ok x) as Hreach.
  { intros dir ok x [Hx (z & Hw & Hz & HzN & Hgood)]. split; [by apply Hpub |].
    destruct (walk_pub γ _ dir z x Hwf HV Hx Hw) as [Hw' Hzp]. exists z. rewrite HT HV //. split_and!; [done | done | by apply Hpub in Hzp as [_ ?] | done]. }
  split; rewrite ?HT.
  - intros x Hx. apply HK, Hx.
  - set_solver.
  - intros x n Hx Hn. exists n. rewrite (HN x Hx). split_and!; [done | apply same_lock_refl | done].
  - intros x n n' dir y Hx Hxn Hn Hn' Hc _. destruct (Hview x n Hn Hxn) as (n2 & Hn2 & Hv). simplify_eq. by rewrite Hv.
  - done.
  - done.
  - intros p k g _ Hp. exists g. auto.
  - intros l k x _ _ _. apply Hreach.
  - intros l k x _ _ _. apply Hreach.
  - intros p k g x _ _ Hx Hw. by destruct (walk_pub γ _ _ _ x Hwf HV Hx Hw).
  - intros x n Hn Hx. split; [by apply Hpub; split; [exists n |] |]. destruct (Hview x n Hn Hx) as (n' & ? & ?). exists n'.
    split; [done | by apply same_view_key].
  - intros x Hx Hd. split; [done | by apply HV].
  - intros k x. apply Hreach.
Qed.

Lemma frame_refl N K γ : wf γ → frame N K γ γ.
Proof. intros Hwf. apply frame_quiet; try done. intros x n Hn _. by exists n. Qed.

(** ** Steps on one node

    The node [x] becomes [n'], its holder [o], and the sets become [S']. *)
Definition touch (x : loc) (n' : ca_node) (o : option nat) (S' : gmap loc (gmap Z Z * loc)) (γ : state) : state :=
  State (<[x := n']> γ.(g_nodes)) S' (partial_alter (λ _, o) x γ.(g_own)) γ.(g_new) γ.(g_tree) γ.(g_hist).

(** The nodes that are held, but not one of [X]. *)
Definition held_but (X : gset loc) (γ : state) (x : loc) : Prop := is_Some (γ.(g_own) !! x) ∧ x ∉ X.

Section touch.
Context (γ : state) (x : loc) (n n' : ca_node) (o : option nat) (S' : gmap loc (gmap Z Z * loc)).
Context (Hwf : wf γ) (Hx : γ.(g_nodes) !! x = Some n) (Hview : x ∉ γ.(g_new) → view n' = view n).

Lemma touch_view y m :
  γ.(g_nodes) !! y = Some m → y ∉ γ.(g_new) → ∃ m', (touch x n' o S' γ).(g_nodes) !! y = Some m' ∧ view m' = view m.
Proof.
  intros Hm Hy. simpl. destruct (decide (y = x)) as [->|Hne].
  - rewrite lookup_insert_eq. exists n'. simplify_eq. split; [done | by apply Hview].
  - rewrite lookup_insert_ne //. by exists m.
Qed.

Lemma touch_frame (X : gset loc) :
  (x ∈ X ∨ o = γ.(g_own) !! x) → (∀ s m b, held_but X γ b → γ.(g_sets) !! s = Some (m, b) → S' !! s = Some (m, b)) →
  frame (held_but {[x]} γ) (held_but X γ) γ (touch x n' o S' γ).
Proof.
  intros HX HS. apply frame_quiet; [done | done | | | done | by intros | exact touch_view | done].
  - intros y [_ Hy]. simpl. destruct (decide (y = x)) as [->|]; [|by rewrite lookup_partial_alter_ne].
    rewrite lookup_partial_alter_eq. by destruct HX.
  - intros y [_ Hy]. simpl. rewrite lookup_insert_ne //. set_solver.
Qed.

Lemma touch_wf :
  is_base n' = is_base n → n_flag n' = n_flag n →
  (o = None → (x ∉ γ.(g_new)) ∧ n_m n' = false ∧ n_owner n' = -1 ∧ n_valid n' = bool_decide (x ∈ locs γ.(g_tree))) →
  (is_Some o → x ∉ γ.(g_new) → n_m n' = true) →
  (∀ l b, l ∈ lvs γ.(g_tree) → lf_b l = x → o = None → n' = CaBase b →
     bn_set b = Some (lf_s l) ∧ bn_parent b = lf_par l ∧ S' !! lf_s l = Some (lf_m l, x)) →
  (∀ s m b, b ≠ x → γ.(g_own) !! b = None → γ.(g_sets) !! s = Some (m, b) → S' !! s = Some (m, b)) →
  wf (touch x n' o S' γ).
Proof.
  intros Hb Hf Ho Hm Hl HS. pose proof Hwf as [Hrep ? ? ? ? Hown Hnew Hcl Hnode Hleaf].
  assert (∀ y, pub γ y ↔ pub (touch x n' o S' γ) y) as Hpub.
  { intros y. rewrite /pub /=. destruct (decide (y = x)) as [->|]; rewrite ?lookup_insert_eq ?lookup_insert_ne // Hx.
    by split; intros [? ?]; split. }
  assert (∀ y, y ∈ locs γ.(g_tree) → graph_of (touch x n' o S' γ) !! y = graph_of γ !! y) as HV.
  { intros y [[m Hy] Hn]%tree_pub; [|done]. destruct (touch_view y m Hy Hn) as (m' & Hm' & Hv).
    by rewrite (graph_lookup _ _ _ Hy) (graph_lookup _ _ _ Hm') Hv. }
  split; simpl; try done.
  - by eapply trep_ext.
  - intros y Hy. destruct (decide (y = x)) as [->|]; [by rewrite lookup_insert_eq |].
    rewrite lookup_insert_ne //. rewrite lookup_partial_alter_ne // in Hy. by apply Hown.
  - intros y Hy. destruct (Hnew y Hy) as [Hs ?]. split; [|done].
    destruct (decide (y = x)) as [->|]; [|by rewrite lookup_partial_alter_ne]. rewrite lookup_partial_alter_eq.
    destruct o; [done |]. by destruct Ho.
  - intros y m dir z Hy Hny Hc. apply Hpub. destruct (decide (y = x)) as [->|].
    + rewrite lookup_insert_eq in Hy. simplify_eq. rewrite Hview // in Hc. by eapply Hcl.
    + rewrite lookup_insert_ne // in Hy. by eapply Hcl.
  - intros y m Hy. destruct (decide (y = x)) as [->|].
    + rewrite lookup_insert_eq in Hy. simplify_eq. rewrite lookup_partial_alter_eq. destruct (Hnode x n Hx) as [Hflag _].
      split_and!; [congruence | auto |]. intros ?. by apply Ho.
    + rewrite lookup_insert_ne // in Hy. rewrite lookup_partial_alter_ne //. by apply Hnode.
  - intros l b Hin Hlo Hlb. destruct (decide (lf_b l = x)) as [Heq|].
    + rewrite Heq lookup_partial_alter_eq in Hlo. rewrite Heq lookup_insert_eq in Hlb. simplify_eq. by eapply Hl.
    + rewrite lookup_partial_alter_ne // in Hlo. rewrite lookup_insert_ne // in Hlb.
      destruct (Hleaf l b Hin Hlo Hlb) as (? & ? & ?). split_and!; [done | done |]. by eapply HS.
Qed.
End touch.

(** ** Allocation *)

Definition alloc (i : nat) (x : loc) (n : ca_node) (γ : state) : state :=
  State (<[x := n]> γ.(g_nodes)) γ.(g_sets) (<[x := i]> γ.(g_own)) ({[x]} ∪ γ.(g_new)) γ.(g_tree) γ.(g_hist).

Section alloc.
Context (γ : state) (i : nat) (x : loc) (n : ca_node) (Hwf : wf γ) (Hx : γ.(g_nodes) !! x = None).

Lemma alloc_ne y m : γ.(g_nodes) !! y = Some m → y ≠ x.
Proof. intros Hy ->. by simplify_eq. Qed.

Lemma alloc_frame : frame (held_but ∅ γ) (held_but ∅ γ) γ (alloc i x n γ).
Proof.
  apply frame_quiet; simpl; try done; [| | set_solver | |].
  - intros y [Hy _]. destruct (wf_owned γ Hwf y Hy) as [m Hm]. pose proof (alloc_ne y m Hm). by rewrite lookup_insert_ne.
  - intros y [Hy _]. destruct (wf_owned γ Hwf y Hy) as [m Hm]. pose proof (alloc_ne y m Hm). by rewrite lookup_insert_ne.
  - intros y [->%elem_of_singleton|?]%elem_of_union ?; done.
  - intros y m Hm _. exists m. rewrite lookup_insert_ne //. intros ->. by simplify_eq.
Qed.

Lemma alloc_wf : n_flag n = is_base n → wf (alloc i x n γ).
Proof.
  intros Hf. pose proof Hwf as [Hrep ? ? ? ? Hown Hnew Hcl Hnode Hleaf].
  assert (∀ y, pub (alloc i x n γ) y ↔ pub γ y) as Hpub.
  { intros y. rewrite /pub /=. destruct (decide (y = x)) as [->|]; [rewrite Hx; set_solver |].
    rewrite lookup_insert_ne //. set_solver. }
  assert (∀ y, y ∈ locs γ.(g_tree) → y ≠ x) as Hne.
  { intros y Hy. destruct (tree_pub γ y Hwf Hy) as [[m Hm] _]. by eapply alloc_ne. }
  split; simpl; try done.
  - eapply trep_ext; [|done]. intros y Hy. rewrite /graph_of /= fmap_insert lookup_insert_ne //. apply not_eq_sym. by apply Hne.
  - intros y Hy. destruct (decide (y = x)) as [->|]; [by rewrite lookup_insert_eq |].
    rewrite lookup_insert_ne // in Hy. rewrite lookup_insert_ne //. by apply Hown.
  - intros y Hy. destruct (decide (y = x)) as [->|].
    + rewrite lookup_insert_eq. split; [done |]. intros Hy'. by apply Hne in Hy'.
    + rewrite lookup_insert_ne //. apply Hnew. set_solver.
  - intros y m dir z Hy Hny Hc. apply Hpub. destruct (decide (y = x)) as [->|]; [set_solver |].
    rewrite lookup_insert_ne // in Hy. eapply Hcl; [done | set_solver | done].
  - intros y m Hy. destruct (decide (y = x)) as [->|].
    + rewrite lookup_insert_eq in Hy. simplify_eq. split_and!; [done | set_solver | by rewrite lookup_insert_eq].
    + rewrite lookup_insert_ne // in Hy. rewrite lookup_insert_ne //. destruct (Hnode y m Hy) as (? & ? & ?).
      split_and!; [done | set_solver | done].
  - intros l b Hin Hlo Hlb. pose proof (Hne _ (lf_b_locs _ _ _ _ _ Hin)). rewrite lookup_insert_ne // in Hlo.
    rewrite lookup_insert_ne // in Hlb. by apply Hleaf.
Qed.
End alloc.

(** ** Steps that replace a subtree

    The subtree [t] below the path [c] becomes [t'], whose nodes are nodes of
    [t] or the nodes [P], which are published and released by this step; the
    thread holds [X]. *)
Definition node_child (left : bool) (q : loc) (n : ca_node) : ca_node :=
  match n with
  | CaBase b => CaBase b
  | CaRoute r => CaRoute (fset (if left then Route.left else Route.right) (Some q) r)
  end.
Definition relink (c : cctx) (q : loc) (N : gmap loc ca_node) : gmap loc ca_node :=
  match c with
  | [] => N
  | CL x _ _ :: _ => alter (node_child true q) x N
  | CR _ x _ :: _ => alter (node_child false q) x N
  end.

Lemma view_node_child left q n : view (node_child left q n) = set_child left q (view n).
Proof. by destruct n, left. Qed.
Lemma node_child_lock left q n : same_lock n (node_child left q n).
Proof. by destruct n as [|[]], left. Qed.

Lemma relink_view c q N : view <$> relink c q N = redirect (view <$> N) c q.
Proof.
  apply map_eq. intros y. destruct c as [|[x k r|l x k] c]; simpl; [done | |]; rewrite lookup_fmap;
    (destruct (decide (x = y)) as [->|]; [rewrite !lookup_alter_eq lookup_fmap | rewrite !lookup_alter_ne // lookup_fmap //]);
    destruct (N !! y); simpl; [by rewrite view_node_child | done | by rewrite view_node_child | done].
Qed.
Lemma relink_lookup c q N y n :
  N !! y = Some n → ∃ n', relink c q N !! y = Some n' ∧ same_lock n n' ∧ (y ∉ floc <$> c → n' = n).
Proof.
  intros Hy. destruct c as [|[x k r|l x k] c]; simpl; [by exists n; split_and!; [|apply same_lock_refl |] | |];
    (destruct (decide (x = y)) as [->|]; [|exists n; rewrite lookup_alter_ne //; split_and!; [done | apply same_lock_refl | done]]);
    rewrite lookup_alter_eq Hy /=; eexists; (split_and!; [done | apply node_child_lock |]); rewrite elem_of_cons; naive_solver.
Qed.
Lemma relink_None c q N y : N !! y = None → relink c q N !! y = None.
Proof.
  intros Hy. destruct c as [|[x k r|l x k] c]; simpl; [done | |];
    (destruct (decide (x = y)) as [->|]; [by rewrite lookup_alter_eq Hy | by rewrite lookup_alter_ne]).
Qed.
Lemma relink_inv c q N y n' : relink c q N !! y = Some n' → ∃ n, N !! y = Some n ∧ same_lock n n'.
Proof.
  intros Hn'. destruct (N !! y) as [n|] eqn:Hn; [|by rewrite relink_None in Hn'].
  destruct (relink_lookup c q N y n Hn) as (? & ? & ? & _). exists n. split; [done | congruence].
Qed.
(** Only the node above the hole gets another child. *)
Lemma relink_other c q N y : (∀ f c', c = f :: c' → floc f ≠ y) → relink c q N !! y = N !! y.
Proof.
  intros Hy. destruct c as [|[x k r|l x k] c]; simpl; [done | |]; rewrite lookup_alter_ne //; exact (Hy _ _ eq_refl).
Qed.

(** [x] is the node above the hole. *)
Definition above_hole (c : cctx) (x : loc) : Prop := ∃ f c', c = f :: c' ∧ floc f = x.
#[global] Instance above_hole_dec c x : Decision (above_hole c x).
Proof.
  destruct c as [|f c']; [right; by intros (? & ? & ? & _) |].
  destruct (decide (floc f = x)); [left; by eexists _, _ | right]. by intros (? & ? & [= <- <-] & ?).
Defined.

Definition change_to (P : gset loc) (c : cctx) (t' : ctree) (S' : gmap loc (gmap Z Z * loc))
    (H' : list (nat * (set_op * Z))) (γ : state) : state :=
  State (relink c (cloc t') γ.(g_nodes)) S' (filter (λ kv, kv.1 ∉ P) γ.(g_own)) (γ.(g_new) ∖ P) (cplug c t') H'.

Definition leaf_at (γ : state) (S' : gmap loc (gmap Z Z * loc)) (l : leaf) : Prop :=
  ∀ b, γ.(g_nodes) !! lf_b l = Some (CaBase b) →
    bn_set b = Some (lf_s l) ∧ bn_parent b = lf_par l ∧ S' !! lf_s l = Some (lf_m l, lf_b l).

Record change (X P : gset loc) (c : cctx) (t t' : ctree) (S' : gmap loc (gmap Z Z * loc)) (γ : state) : Prop := {
  ch_tree : γ.(g_tree) = cplug c t;
  ch_rep : replaced (graph_of γ) c t t';
  ch_held x : x ∈ X → is_Some (γ.(g_own) !! x);
  ch_new x : x ∈ P → x ∈ X ∧ x ∈ γ.(g_new) ∧ x ∈ locs t' ∧
    ∃ n, γ.(g_nodes) !! x = Some n ∧ n_m n = false ∧ n_owner n = -1 ∧ n_valid n = true;
  ch_in x : x ∈ locs t' → x ∈ locs t ∨ x ∈ P;
  ch_out x : x ∈ locs t → x ∉ locs t' → x ∈ X;
  ch_top : cloc t ∈ X;
  ch_head : cloc t' = cloc t ∨ graph_of γ !! cloc t = Some VBase ∨ ∀ f c', c = f :: c' → floc f ∈ X;
  ch_sets s m b : b ∉ X → γ.(g_sets) !! s = Some (m, b) → S' !! s = Some (m, b);
  ch_leaf l : l ∈ leaves (ppar c NULL) (ctx_iv c).1 (ctx_iv c).2 t → lf_b l ∉ X →
    l ∈ leaves (ppar c NULL) (ctx_iv c).1 (ctx_iv c).2 t';
  ch_leaf' l : l ∈ leaves (ppar c NULL) (ctx_iv c).1 (ctx_iv c).2 t' →
    (l ∈ leaves (ppar c NULL) (ctx_iv c).1 (ctx_iv c).2 t ∧ lf_b l ∉ X) ∨ lf_b l ∈ X ∖ P ∨ (lf_b l ∈ P ∧ leaf_at γ S' l);
  ch_link p k g : (p, k, g) ∈ links (ppar c NULL) t → p ∉ X →
    ∃ g2, (p, k, g2) ∈ links (ppar c NULL) t' ∧ (g2 = g ∨ ∃ g', g = Some g' ∧ g' ∉ locs (cplug c t'));
  ch_step dir n y : graph_of γ !! cloc t = Some n → child dir n = Some y → y = cloc t' ∨ graph_of γ !! y = Some VBase;
  ch_search k : kept c t t' (has_key k);
  ch_left l k : l ∈ lvs (cplug c t) → lf_b l ∉ X → lf_hi l = Some k → kept c t t' (starts_at k);
  ch_right l k : l ∈ lvs (cplug c t) → lf_b l ∉ X → lf_lo l = Some k → kept c t t' (stops_at k);
}.

Lemma trep_child V t x n dir y : trep V t → x ∈ locs t → V !! x = Some n → child dir n = Some y → y ∈ locs t.
Proof.
  assert (∀ t', cloc t' ∈ locs t') as Hloc by (intros []; by left).
  induction t as [b s m st|z k l IHl r IHr]; simpl.
  - intros Hb ->%list_elem_of_singleton Hn Hc. by simplify_eq.
  - intros (Hz & Hl & Hr) [->|[Hx|Hx]%elem_of_app]%elem_of_cons Hn Hc; rewrite elem_of_cons elem_of_app; [|auto..].
    simplify_eq. simpl in Hc. destruct (dir k); simplify_eq; auto.
Qed.

Section change.
Context (γ : state) (X P : gset loc) (c : cctx) (t t' : ctree) (S' : gmap loc (gmap Z Z * loc)) (H' : list (nat * (set_op * Z))).
Context (Hwf : wf γ) (Hch : change X P c t t' S' γ).
Abbreviation γ' := (change_to P c t' S' H' γ).
Abbreviation here := (leaves (ppar c NULL) (ctx_iv c).1 (ctx_iv c).2).

Lemma ch_old x : x ∈ locs (cplug c t) → x ∉ γ.(g_new).
Proof. rewrite -(ch_tree _ _ _ _ _ _ _ Hch). intros Hx. by apply (tree_pub γ x Hwf Hx). Qed.
Lemma ch_graph : graph_of γ' = redirect (graph_of γ) c (cloc t').
Proof. apply relink_view. Qed.
Lemma ch_own x : γ'.(g_own) !! x = if decide (x ∈ P) then None else γ.(g_own) !! x.
Proof.
  simpl. destruct (decide (x ∈ P)) as [Hx|Hx].
  - apply map_lookup_filter_None. right. intros ? _ []. done.
  - destruct (γ.(g_own) !! x) as [i|] eqn:Hi; [by apply map_lookup_filter_Some |]. apply map_lookup_filter_None. by left.
Qed.
Lemma ch_locs x : x ∉ P → is_Some (γ.(g_own) !! x) ∨ (x ∈ locs (cplug c t) ↔ x ∈ locs (cplug c t')).
Proof.
  intros Hx. rewrite !locs_plug !elem_of_app. destruct (decide (x ∈ locs t)) as [Ht|Ht], (decide (x ∈ locs t')) as [Ht'|Ht'].
  - tauto.
  - left. by apply Hch, (ch_out _ _ _ _ _ _ _ Hch).
  - by destruct (ch_in _ _ _ _ _ _ _ Hch x Ht').
  - tauto.
Qed.
Lemma ch_pub x : pub γ x → pub γ' x.
Proof.
  intros [[n Hn] Hx]. destruct (relink_lookup c (cloc t') _ x n Hn) as (n' & Hn' & _). split; [by exists n' | set_solver].
Qed.
Lemma ch_in_new x : x ∈ locs t' → x ∈ locs t ∨ x ∈ γ.(g_new) ∖ (γ.(g_new) ∖ P).
Proof.
  intros Hx. destruct (ch_in _ _ _ _ _ _ _ Hch x Hx) as [?|HP]; [by left | right].
  destruct (ch_new _ _ _ _ _ _ _ Hch x HP) as (_ & ? & _). set_solver.
Qed.
Lemma ch_hole_pub x : x ∈ locs t' → pub γ' x.
Proof.
  intros Hx. destruct (ch_in _ _ _ _ _ _ _ Hch x Hx) as [Ht|HP].
  - apply ch_pub, tree_pub; [done |]. rewrite (ch_tree _ _ _ _ _ _ _ Hch) locs_plug elem_of_app. by left.
  - destruct (ch_new _ _ _ _ _ _ _ Hch x HP) as (_ & ? & _ & n & Hn & _).
    destruct (relink_lookup c (cloc t') _ x n Hn) as (n' & Hn' & _). split; [by exists n' | set_solver].
Qed.
Lemma ch_reaches dir ok x :
  (ends γ.(g_new) (graph_of γ) (cplug c t) dir ok x →
   ends (γ.(g_new) ∖ P) (redirect (graph_of γ) c (cloc t')) (cplug c t') dir ok x) →
  reaches γ dir ok x → reaches γ' dir ok x.
Proof.
  intros He [Hx Hends]. split; [by apply ch_pub |]. rewrite ch_graph. simpl. apply He.
  by rewrite -(ch_tree _ _ _ _ _ _ _ Hch).
Qed.

Lemma change_frame : frame (held_but P γ) (held_but X γ) γ γ'.
Proof.
  pose proof Hch as [HT Hr Hheld Hnew Hin Hout Htop Hhead Hsets Hleaf Hleaf' Hlink Hstep Hs Hl Hri].
  split; rewrite ?HT.
  - intros x [_ Hx]. rewrite ch_own decide_False //. intros HP. by apply Hnew in HP as [? _].
  - intros x [_ Hx] Hn. simpl. apply elem_of_difference. split; [done |]. intros HP. by apply Hnew in HP as [? _].
  - intros x n [Hx _] Hn. destruct (relink_lookup c (cloc t') _ x n Hn) as (n' & Hn' & Hlk & Heq). exists n'. split_and!; [done | done |].
    intros Hxn. apply Heq. intros (f & -> & Hf)%list_elem_of_fmap. destruct (ch_old (floc f)); [|done].
    rewrite locs_plug elem_of_app. right. clear -Hf. induction c as [|g c' IH]; [by apply not_elem_of_nil in Hf |].
    apply elem_of_cons in Hf as [->|Hf]; simpl; rewrite elem_of_cons elem_of_app; auto.
  - intros x n n' dir y [_ Hx] _ Hn Hn' Hc Hy. simpl in Hn'.
    destruct (decide (above_hole c x)) as [Hd|Hd]; last first.
    { rewrite relink_other in Hn'; [by simplify_eq |]. intros f c' -> Hf. apply Hd. by eexists _, _. }
    destruct (redirect_step _ _ _ _ Hr dir x (view n) y (graph_lookup _ _ _ Hn) Hc) as (v & Hv & Hc').
    rewrite -ch_graph (graph_lookup γ' x n' Hn') in Hv. simplify_eq.
    destruct Hc' as [Hc'|[-> Hc']]; [done |]. destruct Hhead as [Heq|[Hb|Hf]]; [by rewrite -Heq | |].
    + destruct Hy as [Hy|[_ Hy]]; done.
    + destruct Hd as (f & c' & -> & <-). destruct Hx. by eapply Hf.
  - intros s m b [_ Hb]. by apply Hsets.
  - intros l [_ Hx]. simpl. rewrite !leaves_plug !elem_of_app. intros [?|[?|?]]; auto.
  - intros p k g [_ Hp]. simpl. setoid_rewrite links_plug. setoid_rewrite elem_of_app. intros [Hin'|Hin'].
    + destruct (Hlink p k g Hin' Hp) as (g2 & ? & ?). exists g2. auto.
    + exists g. auto.
  - intros l k x [_ Hx] Hlv Hk. apply ch_reaches.
    apply (leftmost_replace _ _ _ _ _ Hr); [set_solver | exact ch_old | exact ch_in_new | by eapply Hl].
  - intros l k x [_ Hx] Hlv Hk. apply ch_reaches.
    apply (rightmost_replace _ _ _ _ _ Hr); [set_solver | exact ch_old | exact ch_in_new | by eapply Hri].
  - intros p k g x [_ Hp] Hlp _ Hw. rewrite ch_graph. apply (walk_redirect_route _ _ _ _ Hr); [congruence | | done].
    intros n y Hn Hc. destruct (Hstep _ n y Hn Hc) as [?|Hy]; [by left | right]. split; [done |]. intros ->.
    destruct (trep_route (graph_of γ) (cplug c t) p k) as (? & ? & ?); [apply Hr | by eapply links_routes | congruence].
  - intros x n Hn Hx. destruct (ch_pub x) as [_ ?]; [by split; [exists n |] |]. split; [done |].
    destruct (relink_lookup c (cloc t') _ x n Hn) as (n' & ? & ? & _). exists n'. split; [done | by apply same_lock_key].
  - intros x [_ Hx] Hd. rewrite locs_plug elem_of_app in Hd. split.
    + simpl. rewrite locs_plug elem_of_app. intros [Ht'|?]; [|tauto]. destruct (ch_in_new x Ht'); [tauto | set_solver].
    + rewrite ch_graph. apply redirect_other. tauto.
  - intros k x. apply ch_reaches.
    apply (search_replace _ _ _ _ _ Hr); [set_solver | exact ch_old | exact ch_in_new | by apply Hs].
Qed.

Lemma change_wf :
  legal dict_op m0 H' → ca_dict (cplug c t') (replay dict_op m0 H') → wf γ'.
Proof.
  intros Hleg Hdict. pose proof Hch as [HT Hr Hheld Hnew Hin Hout Htop Hhead Hsets Hleaf Hleaf' Hlink Hstep Hs Hl Hri].
  split; simpl; [ | | |done | done | | | | |].
  - rewrite ch_graph. exact (replaced_rep _ _ _ _ Hr).
  - exact (replaced_wf _ _ _ _ Hr).
  - exact (replaced_nodup _ _ _ _ Hr).
  - intros x Hx. rewrite ch_own in Hx. destruct (decide (x ∈ P)) as [HP|HP]; [by destruct Hx |].
    destruct (wf_owned γ Hwf x Hx) as [n Hn]. destruct (relink_lookup c (cloc t') _ x n Hn) as (n' & ? & _). by exists n'.
  - intros x [Hx HP]%elem_of_difference. destruct (wf_new γ Hwf x Hx) as [? Hd]. rewrite ch_own decide_False //. split; [done |].
    rewrite HT in Hd. rewrite locs_plug elem_of_app in Hd. rewrite locs_plug elem_of_app. intros [Ht'|?]; [|tauto].
    destruct (Hin x Ht'); tauto.
  - intros x n' dir y Hn' Hx Hc. destruct (decide (x ∈ γ.(g_new))) as [Hxn|Hxn].
    + assert (x ∈ P) as HP by (destruct (decide (x ∈ P)); set_solver). destruct (Hnew x HP) as (_ & _ & Hxt & _).
      apply ch_hole_pub. eapply (trep_child (graph_of γ')); [|exact Hxt | by apply graph_lookup | done].
      rewrite ch_graph. exact (replaced_hole _ _ _ _ Hr).
    + destruct (relink_inv _ _ _ _ _ Hn') as (n & Hn & _).
      destruct (child dir (view n)) as [y0|] eqn:Hc0.
      * destruct (redirect_step _ _ _ _ Hr dir x (view n) y0 (graph_lookup _ _ _ Hn) Hc0) as (v & Hv & Hc').
        rewrite -ch_graph (graph_lookup γ' x n' Hn') in Hv. simplify_eq. destruct Hc' as [Hc'|[_ Hc']]; rewrite Hc in Hc'; simplify_eq.
        -- apply ch_pub. by eapply (wf_closed γ Hwf).
        -- apply ch_hole_pub. destruct t'; by left.
      * destruct (decide (above_hole c x)) as [(f & c' & -> & <-)|Hd]; last first.
        { rewrite relink_other in Hn'; [by simplify_eq |]. intros f c' -> Hf. apply Hd. by eexists _, _. }
        pose proof (rp_rep _ _ _ _ Hr) as [Hcr _]%trep_plug. apply graph_lookup in Hn. exfalso.
        destruct f; simpl in *; destruct Hcr as (Hv & _); rewrite Hv in Hn; simplify_eq; rewrite -Hn /= in Hc0; by destruct (dir _).
  - intros x n' Hn'. destruct (relink_inv _ _ _ _ _ Hn') as (n & Hn & Hlk). apply same_lock_members in Hlk as (Hf & Hm & Ho & Hv & Hb).
    destruct (wf_node γ Hwf x n Hn) as (Hflag & Hlocked & Hfree). rewrite Hf Hm Ho Hv Hb ch_own. split; [done |].
    destruct (decide (x ∈ P)) as [HP|HP].
    + split; [by intros _ [] |]. intros _. destruct (Hnew x HP) as (_ & _ & Hxt & n0 & Hn0 & ? & ? & ?). simplify_eq.
      split_and!; [done | done |]. rewrite bool_decide_true //. rewrite locs_plug elem_of_app. by left.
    + split; [intros Hx; apply Hlocked; set_solver |]. intros Hown. destruct (Hfree Hown) as (? & ? & ->). split_and!; [done | done |].
      apply bool_decide_ext. rewrite HT. destruct (ch_locs x HP) as [[? ?]|?]; [congruence | done].
  - intros l b' Hlv Hown Hb'. rewrite ch_own in Hown. destruct (relink_inv _ _ _ _ _ Hb') as (n & Hn & Hlk).
    assert (γ.(g_nodes) !! lf_b l = Some (CaBase b')) as Hb by (destruct n; simpl in Hlk; [by subst | done]).
    assert (l ∈ lvs γ.(g_tree) → lf_b l ∉ P → bn_set b' = Some (lf_s l) ∧ bn_parent b' = lf_par l ∧ S' !! lf_s l = Some (lf_m l, lf_b l)) as Hold.
    { intros HlT HP. rewrite decide_False // in Hown. destruct (wf_leaf γ Hwf l b' HlT Hown Hb) as (? & ? & ?).
      split_and!; [done | done |]. apply Hsets; [|done]. intros HX. apply Hheld in HX as [? ?]. congruence. }
    assert (lf_b l ∈ P → l ∈ lvs γ.(g_tree) → False) as HPold.
    { intros HP0 Hl0. destruct (Hnew _ HP0) as (_ & Hn0 & _). destruct (wf_new γ Hwf _ Hn0) as [_ Hd]. by apply lf_b_locs in Hl0. }
    rewrite leaves_plug !elem_of_app in Hlv. rewrite HT leaves_plug !elem_of_app in Hold, HPold.
    destruct Hlv as [Hlv|[Hlv|Hlv]]; [apply Hold; [tauto |] | | apply Hold; [tauto |]].
    + intros HP. apply HPold; [done | tauto].
    + destruct (Hleaf' l Hlv) as [[Ht HX]|[[HX HP]%elem_of_difference|[HP Hat]]].
      * apply Hold; [tauto |]. intros HP. by destruct (Hnew _ HP).
      * rewrite decide_False // in Hown. destruct (Hheld _ HX) as [? ?]. congruence.
      * by apply Hat.
    + intros HP. apply HPold; [done | tauto].
Qed.
End change.
End protocol.
