(* ===== verification/CASteps.v ===== *)
(** * CASteps: the four ways in which a thread changes the tree

    An operation on the dictionary of a base node, the split of a base node,
    and the two steps of a join: the base node and its parent leave the tree,
    and a new base node takes the place of the neighbour. *)
From S2P Require Import Prelude Memory SepLogic OrderedSet Prog Threads CANode CASpec CAShape CAProtocol.
#[local] Open Scope Z_scope.

(** Where the pointer to a node is: a member of the route node above, the left
    one or the right one, or the root pointer. *)
Abbreviation place := (option (loc * bool)).

Section steps.
Variable m0 : gmap Z Z.
Abbreviation wf := (wf m0).

(** ** A base node is replaced *)

Lemma change_base γ (X P : gset loc) c b s m t' S' :
  wf γ → γ.(g_tree) = cplug c (CBase b s m 0) → b ∈ X → (∀ x, x ∈ X → is_Some (γ.(g_own) !! x)) →
  trep (graph_of γ) t' → twf (ctx_iv c).1 (ctx_iv c).2 t' → NoDup (locs t') →
  (∀ x, x ∈ P → x ∈ X ∧ x ∈ γ.(g_new) ∧ x ∈ locs t' ∧
     ∃ n, γ.(g_nodes) !! x = Some n ∧ n_m n = false ∧ n_owner n = -1 ∧ n_valid n = true) →
  (∀ x, x ∈ locs t' → x = b ∨ x ∈ P) → (b ∉ locs t') ∨ (∃ s' m', t' = CBase b s' m' 0) →
  (∀ s m b, b ∉ X → γ.(g_sets) !! s = Some (m, b) → S' !! s = Some (m, b)) →
  (∀ l, l ∈ leaves (ppar c NULL) (ctx_iv c).1 (ctx_iv c).2 t' → lf_b l ∈ P → leaf_at γ S' l) →
  change X P c (CBase b s m 0) t' S' γ.
Proof.
  intros Hwf HT HbX HX Hrep' Hwf' Hnd' HP Hin Hb HS Hat. pose proof (wf_nodup _ _ Hwf) as Hnd.
  rewrite HT locs_plug in Hnd. simpl in Hnd. apply NoDup_cons in Hnd as [Hbc _].
  pose proof (wf_rep _ _ Hwf) as Hrep. rewrite HT in Hrep. pose proof Hrep as [_ Hbv]%trep_plug. simpl in Hbv.
  assert (b ∉ P) as HbP.
  { intros Hbn%HP. destruct (wf_new _ _ Hwf b) as [_ Hd]; [tauto |]. apply Hd. rewrite HT locs_plug. by left. }
  assert (∀ ok, (∀ s' m' st', ok (Leaf b s m (ppar c NULL) (ctx_iv c).1 (ctx_iv c).2) → t' = CBase b s' m' st' →
      ok (Leaf b s' m' (ppar c NULL) (ctx_iv c).1 (ctx_iv c).2)) → kept c (CBase b s m 0) t' ok) as Hkept.
  { intros ok Hok l. simpl. intros ->%list_elem_of_singleton Hl. simpl in *. destruct Hb as [Hb|(s' & m' & ->)].
    - left. rewrite locs_plug elem_of_app. tauto.
    - right. eexists. split; [by left |]. split; [done | by eapply Hok]. }
  split; simpl; try done.
  - split; [done | done | by rewrite -HT; apply Hwf | done | by rewrite -HT; apply Hwf | done |].
    intros x [->|[_ Hx]%HP]%Hin; [done |]. destruct (wf_new _ _ Hwf x) as [_ Hd]; [tauto |].
    rewrite HT locs_plug elem_of_app in Hd. tauto.
  - intros x [->|?]%Hin; [left; by left | by right].
  - by intros x ->%list_elem_of_singleton _.
  - auto.
  - by intros l ->%list_elem_of_singleton Hl.
  - intros l Hl. destruct (Hin _ (lf_b_locs _ _ _ _ _ Hl)) as [Heq|HlP]; [right; left; set_solver | right; right].
    split; [done | by apply Hat].
  - by intros p k g ?%not_elem_of_nil.
  - intros dir n y Hn Hc. rewrite Hbv in Hn. by simplify_eq.
  - intros k. by apply Hkept.
  - intros l k _ _ _. by apply Hkept.
  - intros l k _ _ _. by apply Hkept.
Qed.

(** A leaf of the tree with its context. *)
Lemma leaf_split γ l :
  wf γ → l ∈ lvs γ.(g_tree) →
  ∃ c, γ.(g_tree) = cplug c (CBase (lf_b l) (lf_s l) (lf_m l) 0) ∧ lf_par l = ppar c NULL ∧
    lf_lo l = (ctx_iv c).1 ∧ lf_hi l = (ctx_iv c).2.
Proof. intros Hwf Hl. by apply leaf_ctx; [|apply Hwf..]. Qed.

Lemma leaf_here c b s m : Leaf b s m (ppar c NULL) (ctx_iv c).1 (ctx_iv c).2 ∈ lvs (cplug c (CBase b s m 0)).
Proof. rewrite leaves_plug !elem_of_app. right. left. by left. Qed.

Lemma leaf_dict γ l : wf γ → l ∈ lvs γ.(g_tree) →
  (∀ z, is_Some (lf_m l !! z) → in_iv (lf_lo l) (lf_hi l) z) ∧ lf_m l !! invalid_key = None.
Proof.
  intros Hwf Hl. destruct (leaf_split γ l Hwf Hl) as (c & HT & _ & -> & ->). pose proof (wf_twf _ _ Hwf) as Hw.
  rewrite HT in Hw. apply twf_plug in Hw as (_ & ? & ? & _). done.
Qed.

(** ** Joining: the base node and its parent leave *)

Section join.
Context (γ : state) (X : gset loc) (c : cctx) (p : loc) (k : Z) (b s : loc) (mb : gmap Z Z) (sib : ctree).
Context (Hwf : wf γ) (HX : ∀ x, x ∈ X → is_Some (γ.(g_own) !! x)) (HpX : p ∈ X) (HbX : b ∈ X).
Context (Hhead : ∀ f c', c = f :: c' → floc f ∈ X).

(** What both sides have in common. *)
Lemma change_join t t' n (Ht : t = CRoute p k (CBase b s mb 0) sib ∨ t = CRoute p k sib (CBase b s mb 0)) :
  γ.(g_tree) = cplug c t →
  locs t' = locs sib → cloc t' = cloc sib → links (ppar c NULL) t' = links (ppar c NULL) sib →
  trep (graph_of γ) t' → twf (ctx_iv c).1 (ctx_iv c).2 t' → n ∈ X →
  (∀ l, l ∈ leaves (ppar c NULL) (ctx_iv c).1 (ctx_iv c).2 t → lf_b l ≠ b →
     l ∈ leaves (ppar c NULL) (ctx_iv c).1 (ctx_iv c).2 t' ∨
     (lf_b l = n ∧ ∃ l', l' ∈ leaves (ppar c NULL) (ctx_iv c).1 (ctx_iv c).2 t' ∧ lf_b l' = n ∧
       (∀ z, has_key z l → has_key z l') ∧
       (∀ l0 z, l0 ∈ lvs (cplug c t) → lf_b l0 ∉ X → lf_hi l0 = Some z → starts_at z l → starts_at z l') ∧
       (∀ l0 z, l0 ∈ lvs (cplug c t) → lf_b l0 ∉ X → lf_lo l0 = Some z → stops_at z l → stops_at z l'))) →
  (∀ l, l ∈ leaves (ppar c NULL) (ctx_iv c).1 (ctx_iv c).2 t' →
     lf_b l = n ∨ l ∈ leaves (ppar c NULL) (ctx_iv c).1 (ctx_iv c).2 t) →
  change X ∅ c t t' γ.(g_sets) γ.
Proof.
  intros HT Hlocs Hcloc Hlinks Hrep' Hwf' HnX Hleaf Hleaf'.
  pose proof (wf_rep _ _ Hwf) as Hrep. rewrite HT in Hrep. pose proof Hrep as [_ Hrt]%trep_plug.
  pose proof (wf_nodup _ _ Hwf) as Hnd. rewrite HT in Hnd. pose proof Hnd as Hnd2. rewrite locs_plug in Hnd2.
  apply NoDup_app in Hnd2 as (Hndt & Hdis & _).
  assert (∀ x, x ∈ locs t ↔ x = p ∨ x = b ∨ x ∈ locs sib) as Hlt.
  { intros x. destruct Ht as [-> | ->]; simpl; set_solver. }
  assert ((p ∉ locs sib) ∧ (b ∉ locs sib) ∧ NoDup (locs sib)) as (Hps & Hbs & Hnds).
  { destruct Ht as [-> | ->]; simpl in Hndt.
    - apply NoDup_cons in Hndt as [Hp [??]%NoDup_cons]. set_solver.
    - apply NoDup_cons in Hndt as [Hp (? & Hd & ?)%NoDup_app]. split_and!; [| |done]; [intros ?; apply Hp, elem_of_app; by left |]. intros Hb. apply (Hd b Hb). by left. }
  assert (∀ x, x = p ∨ x = b → x ∉ locs (cplug c t')) as Hgone.
  { intros x Hx. rewrite locs_plug elem_of_app Hlocs. assert (x ∉ ctx_locs c) by (apply Hdis, Hlt; tauto).
    destruct Hx as [-> | ->]; tauto. }
  assert (∀ ok, (∀ l l', l ∈ lvs (cplug c t) → lf_b l = n → lf_b l' = n → ok l →
       (∀ z, has_key z l → has_key z l') →
       (∀ l0 z, l0 ∈ lvs (cplug c t) → lf_b l0 ∉ X → lf_hi l0 = Some z → starts_at z l → starts_at z l') →
       (∀ l0 z, l0 ∈ lvs (cplug c t) → lf_b l0 ∉ X → lf_lo l0 = Some z → stops_at z l → stops_at z l') → ok l') → kept c t t' ok) as Hkept.
  { intros ok Hok l Hl Hokl. destruct (decide (lf_b l = b)) as [->|Hne]; [left; apply Hgone; auto | right].
    destruct (Hleaf l Hl Hne) as [?|(Hn & l' & ? & Hn' & H1 & H2 & H3)]; [by exists l |]. exists l'. split_and!; [done | congruence |].
    eapply (Hok l l'); try done. rewrite leaves_plug !elem_of_app. auto. }
  assert (graph_of γ !! p = Some (VRoute k (Some b) (Some (cloc sib))) ∨ graph_of γ !! p = Some (VRoute k (Some (cloc sib)) (Some b))) as Hp.
  { destruct Ht as [-> | ->]; simpl in Hrt; destruct Hrt as (? & _); auto. }
  assert (graph_of γ !! b = Some VBase) as Hb by (destruct Ht as [-> | ->]; simpl in Hrt; tauto).
  assert (cloc t = p) as Htp by (by destruct Ht as [-> | ->]).
  split; try done; rewrite ?Htp; try done.
  - split; [done | done | by rewrite -HT; apply Hwf | done | done | by rewrite Hlocs |].
    intros x Hx. apply Hdis, Hlt. rewrite -Hlocs. auto.
  - intros x Hx. left. apply Hlt. rewrite -Hlocs. auto.
  - intros x Hx Hx'. rewrite Hlocs in Hx'. apply Hlt in Hx as [->|[->|?]]; done.
  - auto.
  - intros l Hl HlX. assert (lf_b l ≠ b) as Hne by congruence. destruct (Hleaf l Hl Hne) as [?|(? & _)]; [done | congruence].
  - intros l Hl. destruct (decide (lf_b l ∈ X)); [right; left; set_solver |]. destruct (Hleaf' l Hl); [congruence | auto].
  - intros x kx g Hx HxX. assert ((x, kx, g) ∈ links (Some p) sib) as Hxs.
    { destruct Ht as [-> | ->]; simpl in Hx; rewrite ?app_nil_r in Hx; apply elem_of_cons in Hx as [[= -> _ _]|?]; done. }
    rewrite Hlinks. destruct (links_move _ (ppar c NULL) _ _ _ _ Hxs) as [?|[-> ?]]; [by exists g; auto |].
    exists (ppar c NULL). split; [done | right]. exists p. split; [done | apply Hgone; auto].
  - intros dir v y Hv Hc. rewrite Hcloc. destruct Hp as [Hp|Hp]; rewrite Hp in Hv; simplify_eq; simpl in Hc; destruct (dir k); simplify_eq; auto.
  - intros z. apply Hkept. intros l l' _ _ _ Hl H1 _ _. by apply H1.
  - intros l0 z Hl0 HX0 Hz. apply Hkept. intros l l' _ _ _ Hl _ H2 _. by eapply H2.
  - intros l0 z Hl0 HX0 Hz. apply Hkept. intros l l' _ _ _ Hl _ _ H3. by eapply H3.
Qed.

Lemma change_join_left :
  γ.(g_tree) = cplug c (CRoute p k (CBase b s mb 0) sib) →
  (∀ l, l ∈ leaves (Some p) (Some k) (ctx_iv c).2 sib → lf_lo l = Some k → lf_b l ∈ X) →
  change X ∅ c (CRoute p k (CBase b s mb 0) sib) (join_left mb sib) γ.(g_sets) γ.
Proof.
  intros HT Hn. pose proof (wf_twf _ _ Hwf) as Hw. pose proof (wf_rep _ _ Hwf) as Hrep. pose proof (wf_nodup _ _ Hwf) as Hnd.
  rewrite HT in Hw, Hrep, Hnd. pose proof Hw as [_ (Hlo & Hhi & (Hmb & Hinv & _) & Hws)]%twf_plug.
  apply trep_plug in Hrep as [_ (_ & _ & Hrs)]. rewrite locs_plug in Hnd. apply NoDup_app in Hnd as (Hndt & _ & _).
  simpl in Hndt. apply NoDup_cons in Hndt as [_ [Hb Hnds]%NoDup_cons].
  destruct (join_left_leaves mb sib (Some p) (ppar c NULL) (Some k) (ctx_iv c).1 (ctx_iv c).2 Hnds) as (l0 & rest & Hl0 & Hlo0 & Hl0').
  assert (lf_b l0 ∈ X) as HnX by (apply Hn; [rewrite Hl0; by left | done]).
  assert (Leaf b s mb (Some p) (ctx_iv c).1 (Some k) ∈ lvs (cplug c (CRoute p k (CBase b s mb 0) sib))) as Hbl.
  { rewrite leaves_plug. apply elem_of_app. right. apply elem_of_app. left. simpl. by left. }
  eapply (change_join _ _ (lf_b l0)); rewrite ?join_left_locs ?join_left_cloc ?join_left_links; try done; [by left | | | |].
  - by apply join_left_rep.
  - by apply (join_left_twf _ _ k).
  - simpl. rewrite Hl0 Hl0'. intros l Hl Hlb. apply elem_of_cons in Hl as [->|[->|Hl]%elem_of_cons]; [done | right | left; by right].
    split; [done |]. eexists. split; [by left |]. split_and!; [done | | |].
    + rewrite /has_key Hlo0. intros z [Hz ?]. split; [|done]. simpl in Hz.
      eapply at_least_lo_trans; [by apply above_at_least | done].
    + intros l1 z Hl1 HX1 Hz1. rewrite /starts_at Hlo0. intros [= <-].
      pose proof (leaf_hi_unique _ _ _ _ Hw Hl1 Hbl Hz1 eq_refl) as ->. done.
    + done.
  - simpl. rewrite Hl0 Hl0'. intros l [->|Hl]%elem_of_cons; [by left | right]. right. by right.
Qed.

Lemma change_join_right :
  γ.(g_tree) = cplug c (CRoute p k sib (CBase b s mb 0)) →
  (∀ l, l ∈ leaves (Some p) (ctx_iv c).1 (Some k) sib → lf_hi l = Some k → lf_b l ∈ X) →
  change X ∅ c (CRoute p k sib (CBase b s mb 0)) (join_right mb sib) γ.(g_sets) γ.
Proof.
  intros HT Hn. pose proof (wf_twf _ _ Hwf) as Hw. pose proof (wf_rep _ _ Hwf) as Hrep. pose proof (wf_nodup _ _ Hwf) as Hnd.
  rewrite HT in Hw, Hrep, Hnd. pose proof Hw as [_ (Hlo & Hhi & Hws & (Hmb & Hinv & _))]%twf_plug.
  apply trep_plug in Hrep as [_ (_ & Hrs & _)]. rewrite locs_plug in Hnd. apply NoDup_app in Hnd as (Hndt & _ & _).
  simpl in Hndt. apply NoDup_cons in Hndt as [_ (Hnds & _ & _)%NoDup_app].
  destruct (join_right_leaves mb sib (Some p) (ppar c NULL) (ctx_iv c).1 (Some k) (ctx_iv c).2 Hnds) as (l0 & rest & Hl0 & Hhi0 & Hl0').
  assert (lf_b l0 ∈ X) as HnX by (apply Hn; [rewrite Hl0 elem_of_app; right; by left | done]).
  assert (Leaf b s mb (Some p) (Some k) (ctx_iv c).2 ∈ lvs (cplug c (CRoute p k sib (CBase b s mb 0)))) as Hbl.
  { rewrite leaves_plug. apply elem_of_app. right. apply elem_of_app. left. simpl. rewrite elem_of_app. right. by left. }
  eapply (change_join _ _ (lf_b l0)); rewrite ?join_right_locs ?join_right_cloc ?join_right_links; try done; [by right | | | |].
  - by apply join_right_rep.
  - by apply (join_right_twf _ _ k).
  - simpl. rewrite Hl0 Hl0'. intros l Hl Hlb. apply elem_of_app in Hl as [[Hl|Hl]%elem_of_app|Hl];
      [left; rewrite elem_of_app; by left | apply list_elem_of_singleton in Hl as -> | by apply list_elem_of_singleton in Hl as ->].
    right.
    split; [done |]. eexists. split; [rewrite elem_of_app; right; by left |]. split_and!; [done | | |].
    + rewrite /has_key Hhi0. intros z [? Hz]. split; [done |]. simpl in Hz. eapply below_hi_trans; [done | lia].
    + done.
    + intros l1 z Hl1 HX1 Hz1. rewrite /stops_at Hhi0. intros [= <-].
      pose proof (leaf_lo_unique _ _ _ _ Hw Hl1 Hbl Hz1 eq_refl) as ->. done.
  - simpl. rewrite Hl0 Hl0'. intros l [Hl|[->|?%not_elem_of_nil]%elem_of_cons]%elem_of_app; [right | by left | done].
    rewrite -app_assoc !elem_of_app. by left.
Qed.
End join.

(** ** The place of a node *)

Definition hole (c : cctx) : place :=
  match c with [] => None | CL x _ _ :: _ => Some (x, true) | CR _ x _ :: _ => Some (x, false) end.
Definition write_place (sd : place) (q : loc) (N : gmap loc ca_node) : gmap loc ca_node :=
  match sd with None => N | Some (x, dl) => alter (node_child dl q) x N end.

Lemma relink_place c q N : relink c q N = write_place (hole c) q N.
Proof. by destruct c as [|[]]. Qed.

Definition is_route (γ : state) (x : loc) (k : Z) : Prop :=
  ∃ r, γ.(g_nodes) !! x = Some (CaRoute r) ∧ rn_key r = k ∧ x ∉ γ.(g_new).

(** The place of a leaf and of a route node in terms of what does not change. *)
Definition leaf_place (γ : state) (l : leaf) (sd : place) : Prop :=
  match sd with
  | None => lf_par l = None
  | Some (p, dl) => lf_par l = Some p ∧ ∃ k, is_route γ p k ∧ if dl then lf_hi l = Some k else lf_lo l = Some k
  end.
Definition route_place (γ : state) (p : loc) (kp : Z) (sd : place) : Prop :=
  match sd with
  | None => (p, kp, None) ∈ links NULL γ.(g_tree)
  | Some (g, dl) => (p, kp, Some g) ∈ links NULL γ.(g_tree) ∧ ∃ kg, is_route γ g kg ∧ dl = (kp <? kg)
  end.

Lemma tree_route γ c f t : wf γ → γ.(g_tree) = cplug (f :: c) t → is_route γ (floc f) (fkey f).
Proof.
  intros Hwf HT. pose proof (wf_rep _ _ Hwf) as Hrep. rewrite HT in Hrep. apply trep_plug in Hrep as [Hcr _].
  assert (∃ l r, graph_of γ !! floc f = Some (VRoute (fkey f) l r)) as (l & r & (n & Hn & Hv)%graph_inv).
  { destruct f; simpl in Hcr; destruct Hcr as (? & _); eauto. }
  destruct n as [|rn]; [done |]. exists rn. simpl in Hv. simplify_eq. split_and!; [done | done |].
  apply (tree_pub m0 γ); [done |]. rewrite HT locs_plug elem_of_app. right. by left.
Qed.

Lemma is_route_unique γ x k k' : is_route γ x k → is_route γ x k' → k = k'.
Proof. intros (r & Hr & <- & _) (r' & Hr' & <- & _). congruence. Qed.

Lemma leaf_place_hole γ l c sd :
  wf γ → l ∈ lvs γ.(g_tree) → γ.(g_tree) = cplug c (CBase (lf_b l) (lf_s l) (lf_m l) 0) →
  lf_par l = ppar c NULL → lf_lo l = (ctx_iv c).1 → lf_hi l = (ctx_iv c).2 → leaf_place γ l sd → hole c = sd.
Proof.
  intros Hwf Hl HT Hpar Hlo Hhi Hsd. pose proof (leaves_iv_ok _ _ _ (wf_twf _ _ Hwf) I _ _ Hl) as Hiv.
  destruct sd as [[p dl]|]; simpl in Hsd; last first.
  { destruct c as [|f c]; [done |]. simpl in Hpar. congruence. }
  destruct Hsd as (Hp & k & Hk & Hside). destruct c as [|f c]; [simpl in Hpar; congruence |].
  assert (floc f = p) as <- by (simpl in Hpar; congruence). pose proof (tree_route _ _ _ _ Hwf HT) as Hf.
  pose proof (is_route_unique _ _ _ _ Hf Hk) as <-. rewrite Hlo Hhi in Hside, Hiv.
  destruct f as [x kx r|l0 x kx], dl; simpl in *; [done | exfalso | exfalso | done]; rewrite Hside in Hiv; simpl in Hiv; lia.
Qed.

(** Every leaf has its place. *)
Lemma leaf_has_place γ l : wf γ → l ∈ lvs γ.(g_tree) → ∃ sd, leaf_place γ l sd.
Proof.
  intros Hwf Hl. destruct (leaf_split γ l Hwf Hl) as (c & HT & Hpar & Hlo & Hhi). destruct c as [|f c]; [by exists None |].
  exists (hole (f :: c)). pose proof (tree_route _ _ _ _ Hwf HT). destruct f; simpl in *; split; [done | eauto | done | eauto].
Qed.

Lemma route_place_hole γ p kp l r c sd :
  wf γ → γ.(g_tree) = cplug c (CRoute p kp l r) → route_place γ p kp sd → hole c = sd.
Proof.
  intros Hwf HT Hsd. assert ((p, kp, ppar c NULL) ∈ links NULL γ.(g_tree)) as Hlink.
  { rewrite HT links_plug elem_of_app. left. by left. }
  pose proof (wf_twf _ _ Hwf) as Hw. rewrite HT in Hw. apply twf_plug in Hw as [_ (Hlo & Hhi & _)].
  destruct sd as [[g dl]|]; simpl in Hsd; last first.
  { destruct (links_unique _ (wf_nodup _ _ Hwf) _ _ _ _ _ _ Hlink Hsd) as [_ Hc]. by destruct c. }
  destruct Hsd as (Hg & kg & Hkg & ->). destruct (links_unique _ (wf_nodup _ _ Hwf) _ _ _ _ _ _ Hlink Hg) as [_ Hc].
  destruct c as [|f c]; [done |]. simpl in Hc. assert (floc f = g) as <- by congruence.
  pose proof (is_route_unique _ _ _ _ (tree_route _ _ _ _ Hwf HT) Hkg) as <-.
  destruct f; simpl in *; [rewrite (proj2 (Z.ltb_lt kp k)) // | rewrite (proj2 (Z.ltb_ge kp k)) //; lia].
Qed.

(** ** The steps *)

Lemma relink_id γ c q : crep (graph_of γ) c q → relink c q γ.(g_nodes) = γ.(g_nodes).
Proof.
  intros Hc. apply map_eq. intros y. destruct c as [|[x k r|l x k] c]; simpl in *; [done | |]; destruct Hc as ((n & Hn & Hv)%graph_inv & _);
    (destruct (decide (x = y)) as [->|]; [|by rewrite lookup_alter_ne]); rewrite lookup_alter_eq Hn /=; f_equal;
    destruct n as [|[]]; simpl in *; [done | by simplify_eq | done | by simplify_eq].
Qed.

Definition root_at (sd : place) (q r : loc) : loc := match sd with None => q | Some _ => r end.
Lemma cloc_plug c t t' : cloc (cplug c t') = root_at (hole c) (cloc t') (cloc (cplug c t)).
Proof.
  destruct c as [|f c]; [done |]. destruct f; simpl; revert t t'; induction c as [|f' c IH] using rev_ind; intros t t'; try done;
    rewrite !cplug_app; by destruct f'.
Qed.

Lemma ctx_iv_through c z : ctx_twf c → in_iv (ctx_iv c).1 (ctx_iv c).2 z → in_ctx c z = true.
Proof.
  induction c as [|[x k r|l x k] c IH]; simpl; [done | |]; intros (Hlo & Hhi & _ & Hc) [Hz1 Hz2]; simpl in *; apply andb_true_iff.
  - split; [by apply Z.ltb_lt |]. apply IH; [done |]. split; [done |]. eapply below_hi_trans; [done | lia].
  - split; [by apply Z.leb_le |]. apply IH; [done |]. split; [|done]. eapply at_least_lo_trans; [by apply above_at_least | done].
Qed.

Definition op_key (op : set_op) : Z := match op with OpFind k | OpInsert k _ | OpErase k => k end.
Definition op_fine (op : set_op) : Prop := match op with OpInsert k _ => k ≠ invalid_key | _ => True end.

Lemma op_local op : local_at (op_key op) (λ m, (dict_op m op).2).
Proof. destruct op; simpl; [apply local_id | apply local_insert | apply local_delete]. Qed.
Lemma op_result op m1 m2 : m1 !! op_key op = m2 !! op_key op → (dict_op m1 op).1 = (dict_op m2 op).1.
Proof. destruct op; simpl; rewrite /dict_find; by intros ->. Qed.
Lemma op_invalid op m : op_fine op → m !! invalid_key = None → (dict_op m op).2 !! invalid_key = None.
Proof.
  intros Hop Hm. destruct (decide (invalid_key = op_key op)) as [He|].
  - destruct op; simpl in *; [done | done |]. rewrite He. apply lookup_delete_eq.
  - by rewrite (local_other _ _ (op_local op)).
Qed.

(** A dictionary operation on a leaf takes effect. *)
Lemma step_op γ i l op :
  wf γ → l ∈ lvs γ.(g_tree) → γ.(g_own) !! lf_b l = Some i → γ.(g_sets) !! lf_s l = Some (lf_m l, lf_b l) →
  has_key (op_key op) l → op_fine op →
  ∃ γ', wf γ' ∧ frame (held_but ∅ γ) (held_but {[lf_b l]} γ) γ γ' ∧ g_nodes γ' = g_nodes γ ∧ g_own γ' = g_own γ ∧ g_new γ' = g_new γ ∧
    g_sets γ' = <[lf_s l := ((dict_op (lf_m l) op).2, lf_b l)]> (g_sets γ) ∧ cloc (g_tree γ') = cloc (g_tree γ) ∧
    g_hist γ' = g_hist γ ++ [(i, (op, (dict_op (lf_m l) op).1))] ∧
    Leaf (lf_b l) (lf_s l) (dict_op (lf_m l) op).2 (lf_par l) (lf_lo l) (lf_hi l) ∈ lvs γ'.(g_tree).
Proof.
  intros Hwf Hl Hown Hset Hkey Hop. destruct (leaf_split γ l Hwf Hl) as (c & HT & Hpar & Hlo & Hhi).
  destruct (leaf_dict γ l Hwf Hl) as [Hm Hinv]. pose proof (wf_rep _ _ Hwf) as Hrep. rewrite HT in Hrep.
  apply trep_plug in Hrep as [Hcr Hb]. simpl in Hcr. pose proof (wf_twf _ _ Hwf) as Hw. rewrite HT in Hw. apply twf_plug in Hw as [Hctx _].
  set (m' := (dict_op (lf_m l) op).2). set (t' := CBase (lf_b l) (lf_s l) m' 0).
  assert (in_ctx c (op_key op) = true) as Hin by (apply ctx_iv_through; [done | by rewrite -Hlo -Hhi]).
  assert (change {[lf_b l]} ∅ c (CBase (lf_b l) (lf_s l) (lf_m l) 0) t' (<[lf_s l := (m', lf_b l)]> γ.(g_sets)) γ) as Hch.
  { apply change_base; try done; [set_solver | intros x ->%elem_of_singleton; by rewrite Hown | | apply NoDup_singleton | | by right; eexists _, _ |].
    - rewrite /= -Hlo -Hhi. split_and!; [|by apply op_invalid | done]. intros z Hz. destruct (decide (z = op_key op)) as [->|Hne]; [done |].
      apply Hm. revert Hz. by rewrite (local_other _ _ (op_local op)).
    - intros x ->%list_elem_of_singleton. by left.
    - intros s m b Hb' Hs. rewrite lookup_insert_ne //. intros <-. rewrite Hset in Hs. set_solver. }
  exists (change_to ∅ c t' (<[lf_s l := (m', lf_b l)]> γ.(g_sets)) (γ.(g_hist) ++ [(i, (op, (dict_op (lf_m l) op).1))]) γ).
  assert (∀ z, in_ctx c z = true → lf_m l !! z = replay dict_op m0 γ.(g_hist) !! z) as Hval.
  { intros z Hz. rewrite -(wf_dict _ _ Hwf) HT clookup_plug Hz //. }
  split_and!; simpl; try done.
  - eapply change_wf; [done | exact Hch | |].
    + apply legal_app. split; [apply Hwf |]. simpl. split; [|done]. apply op_result, Hval, Hin.
    + rewrite replay_app /=. apply (ca_dict_local c (op_key op) (λ m, (dict_op m op).2) _ _ _ 0); [apply op_local | done |].
      rewrite -HT. apply Hwf.
  - by eapply change_frame.
  - by apply relink_id.
  - apply map_filter_id. set_solver.
  - set_solver.
  - rewrite HT (cloc_plug c (CBase (lf_b l) (lf_s l) (lf_m l) 0) t'). by destruct c as [|[]].
  - rewrite Hpar Hlo Hhi. apply leaf_here.
Qed.

(** What all steps that change a pointer tell about the new state. *)
Record pointed (sd : place) (q : loc) (P : gset loc) (γ γ' : state) : Prop := {
  pt_nodes : g_nodes γ' = write_place sd q (g_nodes γ);
  pt_sets : g_sets γ' = g_sets γ;
  pt_own x : g_own γ' !! x = if decide (x ∈ P) then None else g_own γ !! x;
  pt_new : g_new γ' = g_new γ ∖ P;
  pt_root : cloc (g_tree γ') = root_at sd q (cloc (g_tree γ));
  pt_hist : g_hist γ' = g_hist γ;
}.

Lemma change_pointed γ X P c t t' :
  wf γ → change X P c t t' γ.(g_sets) γ → pointed (hole c) (cloc t') P γ (change_to P c t' γ.(g_sets) γ.(g_hist) γ).
Proof.
  intros Hwf Hch. split; try done.
  - apply relink_place.
  - intros x. by eapply ch_own.
  - simpl. rewrite (cloc_plug c t t') (ch_tree _ _ _ _ _ _ _ Hch) //.
Qed.

(** A fresh base node takes the place of a leaf. *)
Lemma step_swap γ i l nb js st sd :
  wf γ → l ∈ lvs γ.(g_tree) → γ.(g_own) !! lf_b l = Some i → leaf_place γ l sd →
  γ.(g_own) !! nb = Some i → nb ∈ γ.(g_new) →
  γ.(g_nodes) !! nb = Some (CaBase (BaseNode true (Some js) false st (-1) true (lf_par l))) →
  γ.(g_sets) !! js = Some (lf_m l, nb) →
  ∃ γ', wf γ' ∧ frame (held_but {[nb]} γ) (held_but {[lf_b l; nb]} γ) γ γ' ∧ pointed sd nb {[nb]} γ γ' ∧ lf_b l ∉ locs γ'.(g_tree).
Proof.
  intros Hwf Hl Hown Hsd Hnown Hnew Hnb Hjs. destruct (leaf_split γ l Hwf Hl) as (c & HT & Hpar & Hlo & Hhi).
  destruct (leaf_dict γ l Hwf Hl) as [Hm Hinv].
  pose proof (leaf_place_hole γ l c sd Hwf Hl HT Hpar Hlo Hhi Hsd) as <-.
  destruct (wf_new _ _ Hwf nb Hnew) as [_ HnbT]. assert (lf_b l ≠ nb) as Hne by (intros <-; by apply lf_b_locs in Hl).
  pose proof (wf_nodup _ _ Hwf) as Hnd. rewrite HT locs_plug in Hnd. simpl in Hnd. apply NoDup_cons in Hnd as [Hbc _].
  assert (change {[lf_b l; nb]} {[nb]} c (CBase (lf_b l) (lf_s l) (lf_m l) 0) (CBase nb js (lf_m l) 0) γ.(g_sets) γ) as Hch.
  { apply change_base; try done; [set_solver | set_solver | by apply (graph_lookup _ _ _ Hnb) | | apply NoDup_singleton | | | |].
    - rewrite /= -Hlo -Hhi. done.
    - intros x ->%elem_of_singleton. split_and!; [set_solver | done | by left |]. by eexists.
    - intros x ->%list_elem_of_singleton. set_solver.
    - left. intros Hb%list_elem_of_singleton. done.
    - intros l0 ->%list_elem_of_singleton _ b Hb. simpl in *. rewrite Hnb in Hb. simplify_eq/=. by rewrite Hpar. }
  exists (change_to {[nb]} c (CBase nb js (lf_m l) 0) γ.(g_sets) γ.(g_hist) γ). split_and!.
  - eapply change_wf; [done | exact Hch | apply Hwf |]. intros z. rewrite -(wf_dict _ _ Hwf) HT !clookup_plug //.
  - by eapply change_frame.
  - by eapply (change_pointed _ _ _ _ _ (CBase nb js (lf_m l) 0)).
  - simpl. rewrite locs_plug elem_of_app. intros [Hb%list_elem_of_singleton|?]; done.
Qed.

(** A route node with two fresh base nodes takes the place of a leaf. *)
Lemma step_split γ i l k m1 m2 x b1 s1 st1 b2 s2 st2 sd :
  wf γ → l ∈ lvs γ.(g_tree) → γ.(g_own) !! lf_b l = Some i → leaf_place γ l sd → split_at (lf_m l) k m1 m2 →
  (∀ y, y ∈ [x; b1; b2] → γ.(g_own) !! y = Some i ∧ y ∈ γ.(g_new)) → NoDup [x; b1; b2] →
  γ.(g_nodes) !! x = Some (CaRoute (RouteNode false k (Some b1) (Some b2) false (-1) true)) →
  γ.(g_nodes) !! b1 = Some (CaBase (BaseNode true (Some s1) false st1 (-1) true (Some x))) →
  γ.(g_nodes) !! b2 = Some (CaBase (BaseNode true (Some s2) false st2 (-1) true (Some x))) →
  γ.(g_sets) !! s1 = Some (m1, b1) → γ.(g_sets) !! s2 = Some (m2, b2) →
  ∃ γ', wf γ' ∧ frame (held_but {[x; b1; b2]} γ) (held_but {[lf_b l; x; b1; b2]} γ) γ γ' ∧ pointed sd x {[x; b1; b2]} γ γ' ∧ lf_b l ∉ locs γ'.(g_tree).
Proof.
  intros Hwf Hl Hown Hsd Hsplit Hnew Hnd Hx Hb1 Hb2 Hs1 Hs2. destruct (leaf_split γ l Hwf Hl) as (c & HT & Hpar & Hlo & Hhi).
  destruct (leaf_dict γ l Hwf Hl) as [Hm Hinv]. pose proof (leaf_place_hole γ l c sd Hwf Hl HT Hpar Hlo Hhi Hsd) as <-.
  pose proof (csubst_split (lf_b l) (lf_s l) (lf_m l) 0 k m1 m2 x b1 s1 b2 s2 ltac:(by split; [|lia]) Hsplit) as [_ _ Hlook].
  destruct Hsplit as [Hu Hbelow Hfrom Hne Hkin].
  assert (∀ y, y ∈ [x; b1; b2] → y ≠ lf_b l) as Hneq.
  { intros y [_ Hy]%Hnew ->. destruct (wf_new _ _ Hwf _ Hy) as [_ Hd]. by apply lf_b_locs in Hl. }
  pose proof (wf_nodup _ _ Hwf) as HndT. rewrite HT locs_plug in HndT. simpl in HndT. apply NoDup_cons in HndT as [Hbc _].
  set (t' := CRoute x k (CBase b1 s1 m1 0) (CBase b2 s2 m2 0)).
  assert (∀ y, y ∈ locs t' ↔ y ∈ ({[x; b1; b2]} : gset loc)) as Hlt by (intros y; simpl; set_solver).
  assert (change {[lf_b l; x; b1; b2]} {[x; b1; b2]} c (CBase (lf_b l) (lf_s l) (lf_m l) 0) t' γ.(g_sets) γ) as Hch.
  { apply change_base; try done; [set_solver | | | | | | |].
    - intros y Hy. destruct (decide (y = lf_b l)) as [->|]; [by rewrite Hown |]. destruct (Hnew y) as [-> _]; [set_solver | done].
    - simpl. by rewrite (graph_lookup _ _ _ Hx) (graph_lookup _ _ _ Hb1) (graph_lookup _ _ _ Hb2).
    - rewrite -Hlo -Hhi. rewrite Hu in Hm, Hinv. apply lookup_union_None in Hinv as [??]. setoid_rewrite lookup_union_is_Some in Hm.
      apply map_choose in Hne as (z1 & v1 & Hz1). assert (is_Some (m1 !! z1)) as Hz by (by exists v1).
      destruct (Hm z1) as [Hz1lo _]; [auto |]. pose proof (Hbelow _ Hz). destruct (Hm k) as [_ Hkhi]; [auto |].
      simpl. split_and!; [destruct (lf_lo l); simpl in *; [lia | done] | done | | done | done | | done | done].
      + intros z Hz0. destruct (Hm z) as [? _]; [auto |]. split; [done |]. by apply Hbelow.
      + intros z Hz0. destruct (Hm z) as [_ ?]; [auto |]. split; [|done]. by apply Hfrom.
    - intros y Hy. assert (y ∈ [x; b1; b2]) as Hy' by set_solver. destruct (Hnew y Hy') as [_ ?].
      split_and!; [set_solver | done | by apply Hlt |]. rewrite !elem_of_cons in Hy'. destruct Hy' as [->|[->|[->|?%not_elem_of_nil]]]; eauto; done.
    - intros y Hy%Hlt. auto.
    - left. intros Hb%Hlt. apply (Hneq (lf_b l)); [set_solver | done].
    - intros l0 Hl0 _. simpl in Hl0. rewrite !elem_of_cons in Hl0. destruct Hl0 as [->|[->|?%not_elem_of_nil]]; [| |done];
        intros b Hb; simpl in *; [rewrite Hb1 in Hb | rewrite Hb2 in Hb]; by simplify_eq/=. }
  exists (change_to {[x; b1; b2]} c t' γ.(g_sets) γ.(g_hist) γ). split_and!.
  - eapply change_wf; [done | exact Hch | apply Hwf |]. intros z. rewrite -(wf_dict _ _ Hwf) HT !clookup_plug -Hlook //.
  - by eapply change_frame.
  - by eapply (change_pointed _ _ _ _ _ t').
  - simpl. rewrite locs_plug elem_of_app. intros [Hb%Hlt|?]; [|done]. apply (Hneq (lf_b l)); [set_solver | done].
Qed.

(** ** The first step of a join *)

Definition place_nodes (sd : place) : gset loc := match sd with None => ∅ | Some (g, _) => {[g]} end.

Lemma hole_par c : ppar c NULL = fst <$> hole c.
Proof. by destruct c as [|[]]. Qed.
Lemma hole_nodes c f c' : c = f :: c' → floc f ∈ place_nodes (hole c).
Proof. intros ->. destruct f; simpl; set_solver. Qed.
Lemma hole_locs c x : x ∈ place_nodes (hole c) → x ∈ ctx_locs c.
Proof. destruct c as [|[]]; simpl; set_solver. Qed.

Lemma leaf_sub c t l :
  l ∈ leaves (ppar c NULL) (ctx_iv c).1 (ctx_iv c).2 t → l ∈ lvs (cplug c t).
Proof. intros Hl. rewrite leaves_plug. apply elem_of_app. right. apply elem_of_app. by left. Qed.

(** The parent of a leaf with its other child. *)
Lemma leaf_parent γ l p k r :
  wf γ → l ∈ lvs γ.(g_tree) → lf_par l = Some p → γ.(g_nodes) !! p = Some (CaRoute r) → rn_key r = k →
  ∃ c sib, (lf_hi l = Some k → γ.(g_tree) = cplug c (CRoute p k (CBase (lf_b l) (lf_s l) (lf_m l) 0) sib) ∧
              lf_lo l = (ctx_iv c).1 ∧ rn_left r = Some (lf_b l) ∧ rn_right r = Some (cloc sib)) ∧
           (lf_lo l = Some k → γ.(g_tree) = cplug c (CRoute p k sib (CBase (lf_b l) (lf_s l) (lf_m l) 0)) ∧
              lf_hi l = (ctx_iv c).2 ∧ rn_right r = Some (lf_b l) ∧ rn_left r = Some (cloc sib)) ∧
           (lf_hi l = Some k ∨ lf_lo l = Some k).
Proof.
  intros Hwf Hl Hp Hr <-. destruct (leaf_split γ l Hwf Hl) as (c & HT & Hpar & Hlo & Hhi).
  pose proof (leaves_iv_ok _ _ _ (wf_twf _ _ Hwf) I _ _ Hl) as Hiv.
  destruct c as [|f c]; [simpl in Hpar; congruence |]. assert (floc f = p) as <- by (simpl in Hpar; congruence).
  assert (is_route γ (floc f) (rn_key r)) as Hk.
  { exists r. destruct (tree_route _ _ _ _ Hwf HT) as (_ & _ & _ & ?). done. }
  pose proof (is_route_unique _ _ _ _ (tree_route _ _ _ _ Hwf HT) Hk) as Hfk.
  pose proof (wf_rep _ _ Hwf) as Hrep. rewrite HT in Hrep. apply trep_plug in Hrep as [Hcr _].
  exists c, (fsib f). rewrite -Hfk HT.
  destruct f as [x kx sib|sib x kx]; simpl in *; destruct Hcr as (Hv & _); rewrite (graph_lookup _ _ _ Hr) in Hv; simpl in Hv; simplify_eq;
    split_and!; try done; auto.
  - intros Hlo2. rewrite Hlo2 Hhi in Hiv. simpl in Hiv. lia.
  - intros Hhi2. rewrite Hlo Hhi2 in Hiv. simpl in Hiv. lia.
Qed.

Section join_step.
Context (γ : state) (i : nat) (lb ln : leaf) (p : loc) (r : route_node) (sd : place) (y : loc).
Context (Hwf : wf γ) (Hlb : lb ∈ lvs γ.(g_tree)) (Hln : ln ∈ lvs γ.(g_tree)).
Context (Hob : γ.(g_own) !! lf_b lb = Some i) (Hon : γ.(g_own) !! lf_b ln = Some i) (Hop : γ.(g_own) !! p = Some i).
Context (Hog : ∀ g, g ∈ place_nodes sd → γ.(g_own) !! g = Some i).
Context (Hpar : lf_par lb = Some p) (Hr : γ.(g_nodes) !! p = Some (CaRoute r)) (Hsd : route_place γ p (rn_key r) sd).
Abbreviation k := (rn_key r).
Abbreviation X := ({[p; lf_b lb; lf_b ln]} ∪ place_nodes sd : gset loc).

Definition joined_leaf (m : gmap Z Z) (lo hi : bound) : leaf :=
  Leaf (lf_b ln) (lf_s ln) m (if decide (lf_b ln = y) then fst <$> sd else lf_par ln) lo hi.
Definition joined (l' : leaf) (γ' : state) : Prop :=
  wf γ' ∧ frame (held_but ∅ γ) (held_but X γ) γ γ' ∧ pointed sd y ∅ γ γ' ∧ (lf_b lb ∉ locs γ'.(g_tree)) ∧ (p ∉ locs γ'.(g_tree)) ∧
  (∀ g, g ∈ place_nodes sd → g ∈ locs γ'.(g_tree)) ∧ l' ∈ lvs γ'.(g_tree).

Lemma X_held x : x ∈ X → is_Some (γ.(g_own) !! x).
Proof. intros [Hx|Hx]%elem_of_union; [|by rewrite (Hog x Hx)]. rewrite !elem_of_union !elem_of_singleton in Hx.
  destruct Hx as [[-> | ->] | ->]; by eexists. Qed.

Lemma joined_by c t t' l' :
  change X ∅ c t t' γ.(g_sets) γ → hole c = sd → cloc t' = y →
  (∀ z, clookup t' z = clookup t z) → lf_b lb ∉ locs t' → p ∉ locs t' → lf_b lb ∈ locs t → p ∈ locs t →
  l' ∈ leaves (ppar c NULL) (ctx_iv c).1 (ctx_iv c).2 t' → ∃ γ', joined l' γ'.
Proof.
  intros Hch Hc Hy Hlook Hb Hp Hbt Hpt Hl. exists (change_to ∅ c t' γ.(g_sets) γ.(g_hist) γ).
  pose proof (wf_nodup _ _ Hwf) as Hnd. rewrite (ch_tree _ _ _ _ _ _ _ Hch) locs_plug in Hnd. apply NoDup_app in Hnd as (_ & Hd & _).
  split_and!.
  - eapply change_wf; [done | exact Hch | apply Hwf |]. intros z. rewrite -(wf_dict _ _ Hwf) (ch_tree _ _ _ _ _ _ _ Hch) !clookup_plug Hlook //.
  - by eapply change_frame.
  - rewrite -Hc -Hy. by eapply change_pointed.
  - simpl. rewrite locs_plug elem_of_app. intros [?|?]; [done |]. by eapply (Hd (lf_b lb)).
  - simpl. rewrite locs_plug elem_of_app. intros [?|?]; [done |]. by eapply (Hd p).
  - intros g Hg. simpl. rewrite locs_plug elem_of_app. right. apply hole_locs. by rewrite Hc.
  - by apply leaf_sub.
Qed.

Lemma step_join_left :
  lf_hi lb = Some k → lf_lo ln = Some k → rn_right r = Some y →
  ∃ γ', joined (joined_leaf (lf_m lb ∪ lf_m ln) (lf_lo lb) (lf_hi ln)) γ'.
Proof.
  intros Hhi Hlo Hy. destruct (leaf_parent γ lb p k r Hwf Hlb Hpar Hr eq_refl) as (c & sib & Hleft & _ & _).
  destruct (Hleft Hhi) as (HT & Hblo & _ & Hsib). rewrite Hy in Hsib. injection Hsib as Hsib.
  pose proof (route_place_hole _ _ _ _ _ _ _ Hwf HT Hsd) as Hc.
  pose proof (wf_twf _ _ Hwf) as Hw. rewrite HT in Hw. pose proof Hw as [_ (_ & _ & (Hmb & _) & Hws)]%twf_plug.
  pose proof (wf_nodup _ _ Hwf) as Hnd. rewrite HT locs_plug in Hnd. apply NoDup_app in Hnd as (Hndt & _ & _).
  simpl in Hndt. apply NoDup_cons in Hndt as [Hps [Hbs Hnds]%NoDup_cons]. rewrite not_elem_of_cons in Hps. destruct Hps as [_ Hps].
  assert (∀ l, l ∈ leaves (Some p) (Some (rn_key r)) (ctx_iv c).2 sib → lf_lo l = Some (rn_key r) → l = ln) as Huniq.
  { intros l Hl Hl0. eapply (leaf_lo_unique (cplug c _)); [exact Hw | | by rewrite -HT | done | done].
    apply leaf_sub. simpl. by right. }
  destruct (join_left_leaves (lf_m lb) sib (Some p) (ppar c NULL) (Some (rn_key r)) (ctx_iv c).1 (ctx_iv c).2 Hnds) as (l0 & rest & Hl0 & Hlo0 & Hl0').
  assert (l0 = ln) as -> by (apply Huniq; [rewrite Hl0; by left | done]).
  eapply (joined_by c (CRoute p k (CBase (lf_b lb) (lf_s lb) (lf_m lb) 0) sib) (join_left (lf_m lb) sib)); [ | done | by rewrite join_left_cloc | | rewrite join_left_locs; done.. | | |].
  - apply change_join_left; [done | exact X_held | set_solver | set_solver | | done |].
    + intros f c' Hfc. apply elem_of_union_r. rewrite -Hc. by eapply hole_nodes.
    + intros l Hl Hl1. rewrite (Huniq l Hl Hl1). set_solver.
  - intros z. erewrite join_left_lookup; [|done | done]. simpl. done.
  - simpl. set_solver.
  - simpl. set_solver.
  - rewrite Hl0' /merged /joined_leaf -Hsib Hblo hole_par Hc. by left.
Qed.

Lemma step_join_right :
  lf_lo lb = Some k → lf_hi ln = Some k → rn_left r = Some y →
  ∃ γ', joined (joined_leaf (lf_m ln ∪ lf_m lb) (lf_lo ln) (lf_hi lb)) γ'.
Proof.
  intros Hlo Hhi Hy. destruct (leaf_parent γ lb p k r Hwf Hlb Hpar Hr eq_refl) as (c & sib & _ & Hright & _).
  destruct (Hright Hlo) as (HT & Hbhi & _ & Hsib). rewrite Hy in Hsib. injection Hsib as Hsib.
  pose proof (route_place_hole _ _ _ _ _ _ _ Hwf HT Hsd) as Hc.
  pose proof (wf_twf _ _ Hwf) as Hw. rewrite HT in Hw. pose proof Hw as [_ (_ & _ & Hws & (Hmb & _))]%twf_plug.
  pose proof (wf_nodup _ _ Hwf) as Hnd. rewrite HT locs_plug in Hnd. apply NoDup_app in Hnd as (Hndt & _ & _).
  simpl in Hndt. apply NoDup_cons in Hndt as [Hps (Hnds & Hd & _)%NoDup_app]. rewrite elem_of_app in Hps.
  assert (lf_b lb ∉ locs sib) as Hbs by (intros Hb; apply (Hd _ Hb); by left).
  assert (∀ l, l ∈ leaves (Some p) (ctx_iv c).1 (Some (rn_key r)) sib → lf_hi l = Some (rn_key r) → l = ln) as Huniq.
  { intros l Hl Hl0. eapply (leaf_hi_unique (cplug c _)); [exact Hw | | by rewrite -HT | done | done].
    apply leaf_sub. simpl. apply elem_of_app. by left. }
  destruct (join_right_leaves (lf_m lb) sib (Some p) (ppar c NULL) (ctx_iv c).1 (Some (rn_key r)) (ctx_iv c).2 Hnds) as (l0 & rest & Hl0 & Hhi0 & Hl0').
  assert (l0 = ln) as -> by (apply Huniq; [rewrite Hl0 elem_of_app; right; by left | done]).
  eapply (joined_by c (CRoute p k sib (CBase (lf_b lb) (lf_s lb) (lf_m lb) 0)) (join_right (lf_m lb) sib)); [ | done | by rewrite join_right_cloc | | rewrite join_right_locs; tauto.. | | |].
  - apply change_join_right; [done | exact X_held | set_solver | set_solver | | done |].
    + intros f c' Hfc. apply elem_of_union_r. rewrite -Hc. by eapply hole_nodes.
    + intros l Hl Hl1. rewrite (Huniq l Hl Hl1). set_solver.
  - intros z. erewrite join_right_lookup; [|done | done]. simpl. done.
  - simpl. set_solver.
  - simpl. set_solver.
  - rewrite Hl0' /merged /joined_leaf -Hsib Hbhi hole_par Hc elem_of_app. right. by left.
Qed.
End join_step.
End steps.
