(* ===== verification/CARules.v ===== *)
(** * CARules: rules for the accesses of one thread to a shared tree

    The store that a state of the protocol stands for, the steps a thread may
    take, when it is blocked, and what a thread can know: assertions with a
    footprint of held nodes, which the steps of other threads keep. *)
From S2P Require Import Prelude Memory SepLogic OrderedSet Prog Threads CANode CATree CASpec CAShape CAProtocol CASteps.
#[local] Open Scope Z_scope.
#[local] Open Scope cpp_scope.

(** ** The record manager of several threads

    What the tree relies on when operations overlap: the calls keep the
    manager's own state, an allocated node is new, and a retired node is not
    reclaimed while a thread may still reach it.  Here it is not reclaimed at
    all before the threads end. *)
Class SharedManagerLaws (R : RecordManager) := {
  rm_shared : loc → hprop;
  rm_new_shared n Q : (∀ r, rm_shared r -∗ Q (Some r)) ⊢ wp (rm_new n) Q;
  rm_initThread_shared r tid Q :
    rm_shared r -∗ (rm_shared r -∗ Q ()) -∗ wp (rm_initThread (Some r) tid) Q;
  rm_startGuard_shared r tid Q :
    rm_shared r -∗ (rm_shared r -∗ Q ()) -∗ wp (rm_startGuard (Some r) tid) Q;
  rm_endGuard_shared r tid Q :
    rm_shared r -∗ (rm_shared r -∗ Q ()) -∗ wp (rm_endGuard (Some r) tid) Q;
  rm_allocateBase_shared r tid Q :
    rm_shared r -∗ (∀ b, rm_shared r -∗ b ↦ Base.constructed -∗ Q (Some b)) -∗ wp (rm_allocateBase (Some r) tid) Q;
  rm_allocateRoute_shared r tid Q :
    rm_shared r -∗ (∀ x, rm_shared r -∗ x ↦ Route.constructed -∗ Q (Some x)) -∗ wp (rm_allocateRoute (Some r) tid) Q;
  rm_retireBase_shared r tid b Q :
    rm_shared r -∗ (rm_shared r -∗ Q ()) -∗ wp (rm_retireBase (Some r) tid (Some b)) Q;
  rm_retireRoute_shared r tid x Q :
    rm_shared r -∗ (rm_shared r -∗ Q ()) -∗ wp (rm_retireRoute (Some r) tid (Some x)) Q;
}.

(** A set object has one owner. *)
Class ExclusiveSet (S : IOrderedSet) `{!OrderedSetLaws S} :=
  is_set_exclusive s m1 m2 : is_set s m1 ∗ is_set s m2 ⊢ False.

(** ** Who waits for whom *)

(** The size of the subtree of a route node. *)
Fixpoint size_at (t : ctree) (y : loc) : nat :=
  match t with
  | CBase _ _ _ _ => 0
  | CRoute x _ l r => if decide (x = y) then csize t else (size_at l y `max` size_at r y)%nat
  end.

(** Locks are taken upwards: a base node first, then a route node and its
    parent, which may have left the tree. *)
Definition rank (γ : state) (y : loc) : nat :=
  match graph_of γ !! y with
  | Some VBase => 0
  | _ => if decide (y ∈ locs γ.(g_tree)) then size_at γ.(g_tree) y else S (csize γ.(g_tree))
  end.

(** Thread [i] waits for a node that is held, above all that it holds itself. *)
Definition blocked (i : nat) (γ : state) : Prop :=
  ∃ x, is_Some (γ.(g_own) !! x) ∧ (x ∉ γ.(g_new)) ∧
    ∀ y, γ.(g_own) !! y = Some i → y ∉ γ.(g_new) → (rank γ y < rank γ x)%nat.

Lemma size_at_le t y : (size_at t y ≤ csize t)%nat.
Proof. induction t as [|x k l IHl r IHr]; simpl; [lia |]. destruct (decide (x = y)); lia. Qed.
Lemma size_at_out t y : y ∉ locs t → size_at t y = 0%nat.
Proof.
  induction t as [|x k l IHl r IHr]; simpl; [done |]. intros [Hx [Hl Hr]%not_elem_of_app]%not_elem_of_cons.
  rewrite decide_False // IHl // IHr //.
Qed.
Lemma size_at_top t : (0 < size_at t (cloc t))%nat ∨ (∃ b s m st, t = CBase b s m st).
Proof. destruct t as [b s m st|x k l r]; simpl; [right; by eexists _, _, _, _ | left; rewrite decide_True //; lia]. Qed.

Lemma link_size t par p k g :
  NoDup (locs t) → (p, k, g) ∈ links par t →
  (0 < size_at t p)%nat ∧ (∀ g', g = Some g' → g ≠ par → (size_at t p < size_at t g')%nat).
Proof.
  revert par. induction t as [b s m st|x kx l IHl r IHr]; intros par Hnd; simpl; [by intros ?%not_elem_of_nil |].
  apply NoDup_cons in Hnd as [Hx (Hndl & Hd & Hndr)%NoDup_app].
  assert (∀ t', (t' = l ∨ t' = r) → ∀ q, q ∈ locs t' → q ≠ x ∧ size_at (CRoute x kx l r) q = size_at t' q) as Hsub.
  { intros t' Ht q Hq. assert (q ≠ x) as Hne by (intros ->; apply Hx, elem_of_app; destruct Ht; subst; auto). split; [done |].
    simpl. rewrite decide_False //. destruct Ht as [-> | ->].
    - rewrite (size_at_out r); [lia |]. by apply Hd.
    - rewrite (size_at_out l); [lia |]. intros Hql. by apply (Hd q). }
  intros [[= -> -> ->]|Hp]%elem_of_cons.
  { rewrite decide_True //. split; [lia | done]. }
  assert (∃ t', (t' = l ∨ t' = r) ∧ (p, k, g) ∈ links (Some x) t' ∧ NoDup (locs t') ∧
    ((0 < size_at t' p)%nat ∧ ∀ g', g = Some g' → g ≠ Some x → (size_at t' p < size_at t' g')%nat)) as (t' & Ht & Hpt & Hndt & Hpos & Hlt).
  { apply elem_of_app in Hp as [Hp|Hp]; [exists l | exists r]; split_and!; auto; first [by eapply IHl | by eapply IHr]. }
  destruct (Hsub t' Ht p) as [Hpx Hps]; [by eapply links_locs |]. simpl in Hps. rewrite Hps. split; [done |].
  intros g' -> Hg. destruct (decide (x = g')) as [<-|Hne].
  - pose proof (size_at_le t' p). destruct Ht; subst; simpl; lia.
  - assert (g' ∈ locs t') as Hgt.
    { destruct (link_ctx _ _ _ _ _ Hpt) as (c & l' & r' & -> & Hpar). rewrite locs_plug elem_of_app. right.
      destruct c as [|f c]; simpl in Hpar; simplify_eq. by left. }
    destruct (Hsub t' Ht g' Hgt) as [_ Hgs]. simpl in Hgs. rewrite (decide_False (P := x = g')) // in Hgs. rewrite Hgs.
    apply Hlt; congruence.
Qed.

Section rules.
Context {OS : IOrderedSet} {Laws : OrderedSetLaws OS} {BLaws : BaseSetLaws OS} {Excl : ExclusiveSet OS}.
Context {R : RecordManager} {RLaws : SharedManagerLaws R}.
Context (m0 : gmap Z Z) (this rm : loc) (lo hi nt : Z).
Abbreviation wf := (wf m0).

Lemma rank_base γ y : graph_of γ !! y = Some VBase → rank γ y = 0%nat.
Proof. rewrite /rank. by intros ->. Qed.
Lemma rank_link γ p k g : wf γ → (p, k, g) ∈ links NULL γ.(g_tree) → (0 < rank γ p ≤ csize γ.(g_tree))%nat.
Proof.
  intros Hwf Hp. destruct (trep_route _ _ _ _ (wf_rep _ _ Hwf) (links_routes _ _ _ _ _ Hp)) as (l & r & Hv).
  rewrite /rank Hv decide_True; [|by eapply links_locs]. destruct (link_size _ _ _ _ _ (wf_nodup _ _ Hwf) Hp) as [? _].
  split; [done | apply size_at_le].
Qed.
Lemma rank_parent γ p k g : wf γ → (p, k, Some g) ∈ links NULL γ.(g_tree) → (rank γ p < rank γ g)%nat.
Proof.
  intros Hwf Hp. destruct (link_ctx _ _ _ _ _ Hp) as (c & l & r & HT & Hg). destruct c as [|f c]; [done |]. simpl in Hg. simplify_eq.
  destruct (tree_route m0 γ c f _ Hwf HT) as (rn & Hrn & _ & _).
  destruct (trep_route _ _ _ _ (wf_rep _ _ Hwf) (links_routes _ _ _ _ _ Hp)) as (l' & r' & Hv).
  assert (floc f ∈ locs γ.(g_tree)) by (rewrite HT locs_plug elem_of_app; right; by left).
  assert (p ∈ locs γ.(g_tree)) by (by eapply links_locs).
  rewrite /rank Hv (graph_lookup _ _ _ Hrn) /= !decide_True //.
  destruct (link_size _ _ _ _ _ (wf_nodup _ _ Hwf) Hp) as [_ Hlt]. by apply Hlt.
Qed.
Lemma rank_dead γ p k g x : wf γ → (p, k, g) ∈ links NULL γ.(g_tree) → x ∉ locs γ.(g_tree) → graph_of γ !! x ≠ Some VBase → (rank γ p < rank γ x)%nat.
Proof.
  intros Hwf Hp Hx Hb. pose proof (rank_link γ p k g Hwf Hp). rewrite {2}/rank (decide_False (P := x ∈ _)) //.
  destruct (graph_of γ !! x) as [[]|]; [done | lia..].
Qed.

(** Not every holder of a node can be blocked. *)
Lemma not_all_blocked γ :
  wf γ → (∃ i, blocked i γ) → ∃ i, (∃ x, γ.(g_own) !! x = Some i) ∧ ¬ blocked i γ.
Proof.
  intros Hwf [i0 (x0 & [j0 Hx0] & Hn0 & _)].
  assert (∀ n x j, γ.(g_own) !! x = Some j → x ∉ γ.(g_new) → (S (csize γ.(g_tree)) - rank γ x < n)%nat →
    ∃ i, (∃ x, γ.(g_own) !! x = Some i) ∧ ¬ blocked i γ) as Hn; [|by eapply (Hn _ x0 j0 Hx0 Hn0), Nat.lt_succ_diag_r].
  assert (∀ y, (rank γ y ≤ S (csize γ.(g_tree)))%nat) as Hmax.
  { intros y. rewrite /rank. pose proof (size_at_le γ.(g_tree) y). destruct (graph_of γ !! y) as [[]|]; [lia | |]; destruct (decide _); lia. }
  induction n as [|n IH]; intros x j Hx Hnx Hr; [lia |].
  destruct (decide (set_Exists (λ z, (z ∉ γ.(g_new)) ∧ (rank γ x < rank γ z)%nat) (dom γ.(g_own)))) as [(z & Hz & Hzn & Hlt)|Hno].
  - apply elem_of_dom in Hz as [jz Hz]. apply (IH z jz Hz Hzn). pose proof (Hmax z). lia.
  - exists j. split; [by exists x |]. intros (z & Hz & Hzn & Hall). apply Hno. exists z.
    split_and!; [by apply elem_of_dom | done | by apply Hall].
Qed.

(** ** The steps of a thread *)

Definition others (j : nat) (γ : state) (x : loc) : Prop := ∃ i, i ≠ j ∧ γ.(g_own) !! x = Some i.

Record gstep (j : nat) (γ γ' : state) : Prop := {
  gs_wf : wf γ';
  gs_frame : frame (others j γ) (others j γ) γ γ';
  gs_own i x : i ≠ j → γ'.(g_own) !! x = Some i → γ.(g_own) !! x = Some i;
  gs_hist : ∃ H, γ'.(g_hist) = γ.(g_hist) ++ H ∧ Forall (λ e, e.1 = j) H;
}.

Lemma gstep_wf j γ γ' : wf γ → gstep j γ γ' → wf γ'.
Proof. by intros _ []. Qed.

(** Thread [i] holds exactly the nodes [X]. *)
Definition holds_ (i : nat) (X : gset loc) (γ : state) : Prop := ∀ x, γ.(g_own) !! x = Some i ↔ x ∈ X.

(** A step of [i] that touches only what it holds. *)
Lemma local_gstep i (X Y Z : gset loc) H γ γ' :
  holds_ i X γ → wf γ' → frame (held_but Y γ) (held_but Z γ) γ γ' → Y ⊆ X → Z ⊆ X →
  (∀ j x, j ≠ i → γ'.(g_own) !! x = Some j → γ.(g_own) !! x = Some j) →
  γ'.(g_hist) = γ.(g_hist) ++ H → Forall (λ e, e.1 = i) H → gstep i γ γ'.
Proof.
  intros HX Hwf Hf HY HZ Hown Hhist HH. split; [done | | done | by exists H].
  assert (∀ W x, W ⊆ X → others i γ x → held_but W γ x) as Hsub.
  { intros W x HW (j & Hj & Hx). split; [by exists j |]. intros Hin. apply HW, HX in Hin. congruence. }
  eapply frame_mono; [| |exact Hf]; intros x; by apply Hsub.
Qed.

Lemma gstep_refl i γ : wf γ → gstep i γ γ.
Proof. intros Hwf. split; [done | by apply (frame_refl m0) | done |]. exists []. by rewrite app_nil_r. Qed.

(** ** What threads know *)

(** [P] is about held nodes: [N] for their members, [K] for their role in the tree. *)
Class Foot (N K : gset loc) (P : state → Prop) := foot fN fK γ γ' :
  wf γ → wf γ' → (∀ x, x ∈ N → fN x) → (∀ x, x ∈ K → fK x) → frame fN fK γ γ' → P γ → P γ'.
Class InSet (x : loc) (X : gset loc) := in_set : x ∈ X.

#[global] Instance foot_const N K φ : Foot N K (λ _, φ).
Proof. by intros ?????????. Qed.
#[global] Instance foot_and N K P Q : Foot N K P → Foot N K Q → Foot N K (λ γ, P γ ∧ Q γ).
Proof. intros HP HQ fN fK γ γ' ????? [??]. split; [by eapply (HP fN fK γ) | by eapply (HQ fN fK γ)]. Qed.
#[global] Instance foot_or N K P Q : Foot N K P → Foot N K Q → Foot N K (λ γ, P γ ∨ Q γ).
Proof. intros HP HQ fN fK γ γ' ????? [?|?]; [left; by eapply (HP fN fK γ) | right; by eapply (HQ fN fK γ)]. Qed.
#[global] Instance foot_exists {A} N K (P : A → state → Prop) : (∀ a, Foot N K (P a)) → Foot N K (λ γ, ∃ a, P a γ).
Proof. intros HP fN fK γ γ' ????? [a ?]. exists a. by eapply (HP a fN fK γ). Qed.

Lemma foot_mono N N' K K' P : Foot N K P → N ⊆ N' → K ⊆ K' → Foot N' K' P.
Proof.
  intros HP HN HK fN fK γ γ' ?? H1 H2 Hf Hγ. eapply (HP fN fK γ); [done | done | | |done | done]; intros x Hx; [apply H1 | apply H2]; set_solver.
Qed.

(** *** Published nodes *)

Definition base_at (x : loc) (γ : state) : Prop := pub γ x ∧ graph_of γ !! x = Some VBase.
Definition dead (x : loc) (γ : state) : Prop := pub γ x ∧ x ∉ locs γ.(g_tree).
(** A route node that has left the tree keeps its children. *)
Definition dead_route (x : loc) (v : vnode) (γ : state) : Prop := dead x γ ∧ graph_of γ !! x = Some v.
Definition route_at (x : loc) (k : Z) (γ : state) : Prop := is_route γ x k.
Definition reach (dir : Z → bool) (ok : leaf → Prop) (x : loc) (γ : state) : Prop := reaches γ dir ok x.

Lemma frame_pub fN fK γ γ' x : frame fN fK γ γ' → pub γ x → pub γ' x.
Proof. intros Hf [[n Hn] Hx]. destruct (f_pub _ _ _ _ Hf x n Hn Hx) as (? & n' & ? & _). by split; [exists n' |]. Qed.

#[global] Instance foot_pub N K x : Foot N K (λ γ, pub γ x).
Proof. intros fN fK γ γ' ????. by apply frame_pub. Qed.
#[global] Instance foot_base_at N K x : Foot N K (base_at x).
Proof.
  intros fN fK γ γ' ???? Hf [[[n Hn] Hx] Hb]. destruct (f_pub _ _ _ _ Hf x n Hn Hx) as (? & n' & Hn' & Hk).
  split; [split; [by exists n' | done] |]. rewrite (graph_lookup _ _ _ Hn'). rewrite (graph_lookup _ _ _ Hn) in Hb. by destruct n, n'.
Qed.
#[global] Instance foot_dead N K x : Foot N K (dead x).
Proof. intros fN fK γ γ' ???? Hf [Hx Hd]. split; [by eapply frame_pub |]. by destruct (f_dead _ _ _ _ Hf x Hx Hd). Qed.
#[global] Instance foot_dead_route N K x v : Foot N K (dead_route x v).
Proof.
  intros fN fK γ γ' ???? Hf [[Hx Hd] Hv]. destruct (f_dead _ _ _ _ Hf x Hx Hd) as [? Heq].
  split; [split; [by eapply frame_pub | done] |]. by rewrite Heq.
Qed.
#[global] Instance foot_route_at N K x k : Foot N K (route_at x k).
Proof.
  intros fN fK γ γ' ???? Hf (r & Hr & <- & Hx). destruct (f_pub _ _ _ _ Hf x _ Hr Hx) as (? & n' & Hn' & Hk).
  destruct n' as [|r']; [done |]. exists r'. by split_and!.
Qed.
#[global] Instance foot_search N K k x : Foot N K (reach (to_key k) (has_key k) x).
Proof. intros fN fK γ γ' ???? Hf. apply (f_search _ _ _ _ Hf). Qed.

(** *** Held nodes *)

Definition node_at (x : loc) (n : ca_node) (γ : state) : Prop := ∃ n', γ.(g_nodes) !! x = Some n' ∧ same_lock n n'.
Definition fresh_at (x : loc) (n : ca_node) (γ : state) : Prop := γ.(g_nodes) !! x = Some n ∧ x ∈ γ.(g_new).
Definition leaf_in (l : leaf) (γ : state) : Prop := l ∈ lvs γ.(g_tree).
Definition set_at (s : loc) (m : gmap Z Z) (b : loc) (γ : state) : Prop := γ.(g_sets) !! s = Some (m, b).
Definition route_in (p : loc) (k : Z) (γ : state) : Prop := (p, k) ∈ routes γ.(g_tree).
(** [g] is the parent of [p], or was until it left the tree. *)
Definition under (p : loc) (k : Z) (g : ptr) (γ : state) : Prop :=
  (p, k, g) ∈ links NULL γ.(g_tree) ∨ ∃ g', g = Some g' ∧ dead g' γ.
Definition path (p : loc) (k : Z) (x : loc) (γ : state) : Prop :=
  pub γ x ∧ walk (graph_of γ) (to_key k) p x.
Definition child_at (p : loc) (dir : Z → bool) (y : loc) (γ : state) : Prop :=
  pub γ p ∧ ∃ v, graph_of γ !! p = Some v ∧ child dir v = Some y.

#[global] Instance foot_node_at N K x n : InSet x N → Foot N K (node_at x n).
Proof.
  intros Hx fN fK γ γ' ?? HN _ Hf (n1 & Hn1 & Hl). destruct (f_node _ _ _ _ Hf x n1 (HN x Hx) Hn1) as (n2 & Hn2 & Hl2 & _).
  exists n2. split; [done |]. by eapply same_lock_trans.
Qed.
#[global] Instance foot_fresh_at N K x n : InSet x N → InSet x K → Foot N K (fresh_at x n).
Proof.
  intros HxN HxK fN fK γ γ' ?? HN HK Hf [Hn Hnew]. destruct (f_node _ _ _ _ Hf x n (HN x HxN) Hn) as (n2 & Hn2 & _ & Heq).
  split; [by rewrite -(Heq Hnew) |]. by apply (f_new _ _ _ _ Hf x (HK x HxK)).
Qed.
#[global] Instance foot_leaf_in N K l : InSet (lf_b l) K → Foot N K (leaf_in l).
Proof. intros Hl fN fK γ γ' ?? _ HK Hf. apply (f_leaf _ _ _ _ Hf). by apply HK. Qed.
#[global] Instance foot_set_at N K s m b : InSet b K → Foot N K (set_at s m b).
Proof. intros Hb fN fK γ γ' ?? _ HK Hf. apply (f_set _ _ _ _ Hf). by apply HK. Qed.
#[global] Instance foot_route_in N K p k : InSet p K → Foot N K (route_in p k).
Proof.
  intros Hp fN fK γ γ' ?? _ HK Hf (g & Hg)%(routes_links NULL). destruct (f_link _ _ _ _ Hf p k g (HK p Hp) Hg) as (g2 & Hg2 & _).
  by eapply links_routes.
Qed.
#[global] Instance foot_under N K p k g : InSet p K → Foot N K (under p k g).
Proof.
  intros Hp fN fK γ γ' Hwf Hwf' HN HK Hf [Hg|(g' & -> & Hd)]; last first.
  { right. exists g'. split; [done |]. by eapply (foot_dead N K g' fN fK γ). }
  destruct (f_link _ _ _ _ Hf p k g (HK p Hp) Hg) as (g2 & Hg2 & [->|(g' & -> & Hd)]); [by left | right]. exists g'. split; [done |].
  destruct (link_ctx _ _ _ _ _ Hg) as (c & l & r & HT & Hpar). destruct c as [|f c]; [done |]. simpl in Hpar. simplify_eq.
  split; [|done]. eapply frame_pub; [done |]. apply (tree_pub m0); [done |]. rewrite HT locs_plug elem_of_app. right. by left.
Qed.
#[global] Instance foot_path N K p k x : InSet p K → Foot N K (λ γ, route_in p k γ ∧ path p k x γ).
Proof.
  intros Hp fN fK γ γ' Hwf Hwf' HN HK Hf [Hin [Hx Hw]]. split; [by eapply (foot_route_in N K p k Hp fN fK γ) |]. split; [by eapply frame_pub |].
  destruct (routes_links NULL _ _ _ Hin) as [g Hg]. by eapply (f_path _ _ _ _ Hf p k g); [apply HK |..].
Qed.
#[global] Instance foot_leftmost N K l k x :
  InSet (lf_b l) K → Foot N K (λ γ, leaf_in l γ ∧ lf_hi l = Some k ∧ reach to_left (starts_at k) x γ).
Proof.
  intros Hl fN fK γ γ' Hwf Hwf' HN HK Hf (Hin & Hk & Hr). split; [by eapply (foot_leaf_in N K l Hl fN fK γ) |]. split; [done |].
  by eapply (f_left _ _ _ _ Hf l k); [apply HK |..].
Qed.
#[global] Instance foot_rightmost N K l k x :
  InSet (lf_b l) K → Foot N K (λ γ, leaf_in l γ ∧ lf_lo l = Some k ∧ reach to_right (stops_at k) x γ).
Proof.
  intros Hl fN fK γ γ' Hwf Hwf' HN HK Hf (Hin & Hk & Hr). split; [by eapply (foot_leaf_in N K l Hl fN fK γ) |]. split; [done |].
  by eapply (f_right _ _ _ _ Hf l k); [apply HK |..].
Qed.
Lemma foot_child_at_gen N K p dir y :
  p ∈ K → Foot N K (λ γ, child_at p dir y γ ∧ (graph_of γ !! y ≠ Some VBase ∧ pub γ y ∨ y ∈ K)).
Proof.
  intros Hp fN fK γ γ' Hwf Hwf' HN HK Hf [(Hpp & v & (n & Hn & ->)%graph_inv & Hc) Hy]. pose proof Hpp as [_ Hpn].
  destruct (f_pub _ _ _ _ Hf p n Hn Hpn) as (_ & n' & Hn' & _). split.
  - split; [by eapply frame_pub |]. exists (view n'). split; [by apply graph_lookup |].
    eapply (f_child _ _ _ _ Hf p n n' dir y (HK p Hp)); try done. destruct Hy as [[? _]|?]; [by left | right; by apply HK].
  - destruct Hy as [[Hb [[m Hm] Hyn]]|?]; [left | by right]. destruct (f_pub _ _ _ _ Hf y m Hm Hyn) as (? & m' & Hm' & Hk).
    split; [|by split; [exists m' |]]. rewrite (graph_lookup _ _ _ Hm'). rewrite (graph_lookup _ _ _ Hm) in Hb. by destruct m, m'.
Qed.

Definition hist_of (i : nat) (H : list (set_op * Z)) (γ : state) : Prop := of_thread i γ.(g_hist) = H.

(** ** The store *)

(** Nodes and sets that nobody refers to any more are in the rest of the store. *)
Definition store (N : gmap loc ca_node) (S : gmap loc (gmap Z Z * loc)) (r : loc) : hprop :=
  (this ↦ CaTree lo hi nt (Some rm) (Some r) ∗ rm_shared rm ∗
   ([∗ map] x ↦ n ∈ N, x ↦ n) ∗ ([∗ map] s ↦ e ∈ S, is_set s e.1) ∗ True)%I.
Definition rep (γ : state) : hprop := store γ.(g_nodes) γ.(g_sets) (cloc γ.(g_tree)).

Lemma store_node N S r x n :
  N !! x = Some n → store N S r ⊢ x ↦ n ∗ (∀ n', x ↦ n' -∗ store (<[x := n']> N) S r).
Proof.
  iIntros (Hx) "(Hthis & Hrm & HN & HS & HT)". iDestruct (big_sepM_insert_acc with "HN") as "[Hx Hclose]"; [done |].
  iFrame "Hx". iIntros (n') "Hx". iDestruct ("Hclose" with "Hx") as "HN". iFrame "Hthis Hrm HN HS HT".
Qed.
Lemma store_read N S r x n : N !! x = Some n → store N S r ⊢ x ↦ n ∗ (x ↦ n -∗ store N S r).
Proof.
  iIntros (Hx) "H". iDestruct (store_node with "H") as "[$ Hclose]"; [done |]. iIntros "Hx".
  iDestruct ("Hclose" with "Hx") as "H". by rewrite insert_id.
Qed.
Lemma store_read_base N S r x (n : base_node) : N !! x = Some (CaBase n) → store N S r ⊢ x ↦ n ∗ (x ↦ n -∗ store N S r).
Proof. apply store_read. Qed.
Lemma store_read_route N S r x (n : route_node) : N !! x = Some (CaRoute n) → store N S r ⊢ x ↦ n ∗ (x ↦ n -∗ store N S r).
Proof. apply store_read. Qed.
Lemma store_base N S r x (n : base_node) :
  N !! x = Some (CaBase n) → store N S r ⊢ x ↦ n ∗ (∀ n', x ↦ n' -∗ store (<[x := CaBase n']> N) S r).
Proof.
  iIntros (Hx) "H". iDestruct (store_node with "H") as "[Hx Hclose]"; [done |]. iSplitL "Hx"; [iExact "Hx" |].
  iIntros (n') "Hx". by iApply ("Hclose" $! (CaBase n')).
Qed.
Lemma store_route N S r x (n : route_node) :
  N !! x = Some (CaRoute n) → store N S r ⊢ x ↦ n ∗ (∀ n', x ↦ n' -∗ store (<[x := CaRoute n']> N) S r).
Proof.
  iIntros (Hx) "H". iDestruct (store_node with "H") as "[Hx Hclose]"; [done |]. iSplitL "Hx"; [iExact "Hx" |].
  iIntros (n') "Hx". by iApply ("Hclose" $! (CaRoute n')).
Qed.
Lemma store_alloc N S r x n : store N S r -∗ x ↦ n -∗ <affine> ⌜N !! x = None⌝ ∗ store (<[x := n]> N) S r.
Proof.
  iIntros "(Hthis & Hrm & HN & HS & HT) Hx". destruct (N !! x) as [n'|] eqn:Hn.
  - iDestruct (big_sepM_lookup_acc with "HN") as "[Hx' _]"; [done |]. iDestruct (pt_exclusive with "[$Hx $Hx']") as %[].
  - iDestruct (big_sepM_insert (λ x n, x ↦ n)%I N x n Hn with "[$Hx $HN]") as "HN". iSplitR; [done |]. iFrame "Hthis Hrm HN HS HT".
Qed.
Lemma store_root N S r :
  store N S r ⊢ this ↦ CaTree lo hi nt (Some rm) (Some r) ∗
    (∀ r', this ↦ CaTree lo hi nt (Some rm) (Some r') -∗ store N S r').
Proof. iIntros "(Hthis & Hrm & HN & HS & HT)". iFrame "Hthis". iIntros (r') "Hthis". iFrame. Qed.
Lemma store_rm N S r : store N S r ⊢ rm_shared rm ∗ (rm_shared rm -∗ store N S r).
Proof. iIntros "(Hthis & Hrm & HN & HS & HT)". iFrame "Hrm". iIntros "Hrm". iFrame. Qed.
Lemma store_take N S r s m b : S !! s = Some (m, b) → store N S r ⊢ is_set s m ∗ store N (delete s S) r.
Proof.
  iIntros (Hs) "(Hthis & Hrm & HN & HS & HT)". iDestruct (big_sepM_delete with "HS") as "[Hs HS]"; [done |]. iFrame.
Qed.
Lemma store_give N S r s m b : store N S r -∗ is_set s m -∗ <affine> ⌜S !! s = None⌝ ∗ store N (<[s := (m, b)]> S) r.
Proof.
  iIntros "(Hthis & Hrm & HN & HS & HT) Hs". destruct (S !! s) as [[m' b']|] eqn:Hn.
  - iDestruct (big_sepM_lookup_acc with "HS") as "[Hs' _]"; [done |]. iDestruct (is_set_exclusive with "[$Hs $Hs']") as %[].
  - iDestruct (big_sepM_insert (λ s e, is_set s e.1)%I S s (m, b) Hn with "[$Hs $HS]") as "HS". iSplitR; [done |]. iFrame "Hthis Hrm HN HS HT".
Qed.
Lemma store_drop N S r (P : hprop) : store N S r -∗ P -∗ store N S r.
Proof. iIntros "(Hthis & Hrm & HN & HS & HT) HP". iFrame "Hthis Hrm HN HS". Qed.

(** ** Knowledge between two actions *)

(** Thread [i] holds [X], has the history [H] so far, and knows [P]. *)
Definition know (i : nat) (X : gset loc) (H : list (set_op * Z)) (P : state → Prop) (γ : state) : Prop :=
  holds_ i X γ ∧ hist_of i H γ ∧ P γ.

Lemma of_thread_other i j H : i ≠ j → Forall (λ e : nat * (set_op * Z), e.1 = j) H → of_thread i H = [].
Proof.
  intros Hij. induction 1 as [|e H He _ IH]; [done |]. rewrite /of_thread filter_cons_False; [done |]. congruence.
Qed.

Instance stable_know i X H P : Foot X X P → Stable wf gstep i (know i X H P).
Proof.
  intros HP γ γ' j Hj Hwf [Hwf' Hf Hown (H' & HH & Hall)] (HX & Hh & HPγ).
  assert (∀ x, x ∈ X → others j γ x) as Hoth by (intros x Hx; exists i; split; [done | by apply HX]).
  split_and!.
  - intros x. split.
    + intros Hx. apply HX. by apply Hown.
    + intros Hx. rewrite (f_own _ _ _ _ Hf x); [by apply HX | by apply Hoth].
  - rewrite /hist_of HH of_thread_app Hh (of_thread_other i j) // app_nil_r //.
  - by eapply (HP (others j γ) (others j γ) γ).
Qed.

(** A step of thread [i] after which it holds [X']: it has changed members of
    nodes in [Y] and the role of nodes in [Z]. *)
Definition own_step (i : nat) (X' Y Z : gset loc) (γ γ' : state) : Prop :=
  wf γ' ∧ frame (held_but Y γ) (held_but Z γ) γ γ' ∧ holds_ i X' γ' ∧ γ'.(g_hist) = γ.(g_hist) ∧
  ∀ j x, j ≠ i → γ'.(g_own) !! x = Some j → γ.(g_own) !! x = Some j.

Lemma own_step_gstep i X X' Y Z γ γ' : holds_ i X γ → own_step i X' Y Z γ γ' → Y ⊆ X → Z ⊆ X → gstep i γ γ'.
Proof.
  intros HX (Hwf & Hf & _ & Hh & Hown) HY HZ. eapply (local_gstep i X Y Z []); try done. by rewrite app_nil_r.
Qed.

Lemma own_step_refl i X Y Z γ : wf γ → holds_ i X γ → own_step i X Y Z γ γ.
Proof. intros Hwf HX. split_and!; [done | by apply (frame_refl m0) | done | done | done]. Qed.

Section thread.
Context (i : nat) (H : list (set_op * Z)) (G : state → state → Prop).
Context (HG : ∀ γ γ', wf γ → γ'.(g_hist) = γ.(g_hist) → G γ γ').
Abbreviation triple := (triple wf rep gstep blocked G i).

Lemma t_own {A} (X Y Z : gset loc) (X' : A → gset loc) P (Q : A → state → Prop) F m :
  Foot X X P → Foot (X ∖ Y) (X ∖ Z) F → Y ⊆ X → Z ⊆ X →
  (∀ γ, wf γ → holds_ i X γ → P γ → F γ →
     rep γ ⊢ awp (blocked i γ) m (λ a, ∃ γ', <affine> ⌜own_step i (X' a) Y Z γ γ' ∧ Q a γ'⌝ ∗ rep γ')) →
  triple (know i X H (λ γ, P γ ∧ F γ)) (atomic m) (λ a, know i (X' a) H (λ γ, Q a γ ∧ F γ)).
Proof.
  intros HP HF HY HZ Hm. apply t_atomic.
  { apply stable_know. apply foot_and; [done |]. eapply foot_mono; [done | set_solver..]. }
  intros γ Hwf (HX & Hh & HPγ & HFγ). etrans; [by apply Hm |]. apply awp_mono=> a.
  iIntros "(%γ' & %Hs & Hrep)". destruct Hs as [Hs HQ]. iExists γ'. iFrame. iPureIntro.
  pose proof (own_step_gstep _ _ _ _ _ _ _ HX Hs HY HZ) as Hg. destruct Hs as (Hwf' & Hf & HX' & Hhist & _).
  split_and!; [done | by apply HG |]. split_and!; [done | by rewrite /hist_of Hhist | done |].
  eapply (HF _ _ γ); [done | done | | |done | done]; intros x Hx; (split; [|set_solver]); exists i; apply HX; set_solver.
Qed.

(** An access that changes nothing. *)
Lemma t_look {A} (X : gset loc) P (φ : A → state → Prop) m :
  Foot X X P →
  (∀ γ, wf γ → holds_ i X γ → P γ → rep γ ⊢ wp m (λ a, <affine> ⌜φ a γ⌝ ∗ rep γ)) →
  triple (know i X H P) (atomic m) (λ a, know i X H (λ γ, φ a γ ∧ P γ)).
Proof.
  intros HP Hm. apply t_atomic; [by apply stable_know |].
  intros γ Hwf (HX & Hh & HPγ). rewrite -awp_wp. etrans; [by apply Hm |]. apply wp_mono=> a.
  iIntros "[%Hφ Hrep]". iExists γ. iFrame. iPureIntro. split_and!; [by apply gstep_refl | by apply HG |]. by split_and!.
Qed.

Lemma t_pure {A} (φ : Prop) P (p : prog A) X Q :
  (φ → triple (know i X H P) p Q) → triple (know i X H (λ γ, φ ∧ P γ)) p Q.
Proof. intros Hp γ Hwf (HX & Hh & Hφ & HP). by apply Hp. Qed.
Lemma t_ex {A B} (P : B → state → Prop) (p : prog A) X Q :
  (∀ x, triple (know i X H (P x)) p Q) → triple (know i X H (λ γ, ∃ x, P x γ)) p Q.
Proof. intros Hp γ Hwf (HX & Hh & x & HP). by apply (Hp x). Qed.
Lemma t_pre {A} P P' (p : prog A) X Q :
  triple (know i X H P') p Q → (∀ γ, wf γ → holds_ i X γ → P γ → P' γ) → triple (know i X H P) p Q.
Proof. intros Hp HP. eapply t_conseq; [exact gstep_wf | exact Hp | | done]. intros γ Hwf (HX & Hh & HPγ). split_and!; auto. Qed.
Lemma t_post {A} P (p : prog A) X (X' : A → gset loc) Q Q' :
  triple (know i X H P) p (λ a, know i (X' a) H (Q' a)) → (∀ a γ, Q' a γ → Q a γ) →
  triple (know i X H P) p (λ a, know i (X' a) H (Q a)).
Proof. intros Hp HQ. eapply t_conseq; [exact gstep_wf | exact Hp | done |]. intros a γ (HX & Hh & HQγ). split_and!; auto. Qed.
Lemma t_let {A B} P (p : prog A) (f : A → prog B) Q1 Q :
  triple P p Q1 → (∀ a, triple (Q1 a) (f a) Q) → triple P (p ≫= f) Q.
Proof. apply t_bind. exact gstep_wf. Qed.
(** The value of a call is known. *)
Lemma t_val {A B} P P' X (v : A) (p : prog A) (f : A → prog B) Q :
  triple P p (λ a, know i X H (λ γ, a = v ∧ P' γ)) → triple (know i X H P') (f v) Q → triple P (p ≫= f) Q.
Proof. intros Hp Hf. eapply t_let; [exact Hp |]. intros a. apply t_pure. by intros ->. Qed.
End thread.
End rules.
