(* ===== verification/CALock.v ===== *)
(** * CALock: the locks of base and route nodes in the hands of one thread

    Members of held nodes, the statistics lock of [base_node.h] and the lock of
    [route_node.h]: none of their assertions on [owner] and [valid] can fail,
    and a node that is locked is in the tree exactly when it is valid. *)
From S2P Require Import Prelude Memory SepLogic OrderedSet Prog Threads CANode CATree CASpec CAShape CAProtocol CASteps CARules.
#[local] Open Scope Z_scope.
#[local] Open Scope cpp_scope.

#[global] Hint Extern 0 (InSet _ _) => unfold InSet; set_solver : typeclass_instances.

Section lock.
Context {OS : IOrderedSet} {Laws : OrderedSetLaws OS} {BLaws : BaseSetLaws OS} {Excl : ExclusiveSet OS}.
Context {R : RecordManager} {RLaws : SharedManagerLaws R}.
Context (m0 : gmap Z Z) (this rm : loc) (lo hi nt : Z).
Context (i : nat) (H : list (set_op * Z)) (G : state → state → Prop).
Context (HG : ∀ γ γ', CAProtocol.wf m0 γ → γ'.(g_hist) = γ.(g_hist) → G γ γ').
Abbreviation wf := (CAProtocol.wf m0).
Abbreviation rep := (CARules.rep this rm lo hi nt).
Abbreviation Foot := (CARules.Foot m0).
Abbreviation own_step := (CARules.own_step m0 i).
Abbreviation triple := (Threads.triple wf rep (gstep m0) blocked G i).
Abbreviation know X P := (CARules.know i X H P).
Abbreviation tid := (Z.of_nat i).
Implicit Types (X Y : gset loc) (F P : state → Prop).

(** ** Steps on one node *)

Lemma holds_insert X x γ γ' :
  holds_ i X γ → γ'.(g_own) = <[x := i]> γ.(g_own) → holds_ i ({[x]} ∪ X) γ'.
Proof.
  intros HX Ho y. rewrite Ho elem_of_union elem_of_singleton -HX. destruct (decide (y = x)) as [->|].
  - rewrite lookup_insert_eq. tauto.
  - rewrite lookup_insert_ne //. tauto.
Qed.
Lemma holds_same X x γ γ' : holds_ i X γ → x ∈ X → γ'.(g_own) = partial_alter (λ _, Some i) x γ.(g_own) → holds_ i X γ'.
Proof.
  intros HX Hx Ho y. rewrite Ho -HX. destruct (decide (y = x)) as [->|].
  - rewrite lookup_partial_alter_eq. split; [intros _; by apply HX | done].
  - rewrite lookup_partial_alter_ne //.
Qed.

(** A write to members of a held node; the sets may change hands with it. *)
Lemma own_write γ X Z x n n' S' :
  wf γ → holds_ i X γ → x ∈ X → γ.(g_nodes) !! x = Some n →
  (x ∉ γ.(g_new) → view n' = view n ∧ n_m n' = n_m n) → is_base n' = is_base n → n_flag n' = n_flag n →
  (∀ s m b, b ∉ Z → γ.(g_sets) !! s = Some (m, b) → S' !! s = Some (m, b)) → Z ⊆ X →
  own_step X {[x]} Z γ (touch x n' (Some i) S' γ).
Proof.
  intros Hwf HX Hx Hn Hpub Hb Hf HS HZ. pose proof (proj2 (HX x) Hx) as Hown. split_and!.
  - eapply touch_wf; try done.
    + intros Hxn. by apply Hpub.
    + intros _ Hxn. destruct (Hpub Hxn) as [_ ->]. destruct (wf_node _ _ Hwf x n Hn) as (_ & Hm & _). apply Hm; [done | by rewrite Hown].
    + intros s m b Hne Hb0 Hs. apply HS; [|done]. intros HbZ%HZ%HX. congruence.
  - eapply touch_frame; [done | done | intros Hxn; by apply Hpub | by right | intros s m b [_ ?]; by apply HS].
  - by eapply holds_same.
  - done.
  - intros j y Hj. simpl. destruct (decide (y = x)) as [->|]; [rewrite lookup_partial_alter_eq; congruence | by rewrite lookup_partial_alter_ne].
Qed.

(** A free node is locked. *)
Lemma own_acquire γ X x n n' :
  wf γ → holds_ i X γ → pub γ x → γ.(g_own) !! x = None → γ.(g_nodes) !! x = Some n →
  view n' = view n → n_m n' = true → is_base n' = is_base n → n_flag n' = n_flag n →
  own_step ({[x]} ∪ X) ∅ ∅ γ (touch x n' (Some i) γ.(g_sets) γ).
Proof.
  intros Hwf HX [_ Hxn] Hown Hn Hv Hm Hb Hf. split_and!.
  - by eapply touch_wf.
  - eapply (frame_mono (held_but {[x]} γ) _ (held_but {[x]} γ)); [| |eapply touch_frame; try done; left; set_solver].
    + intros y [[j Hy] _]. split; [by exists j |]. intros ->%elem_of_singleton. congruence.
    + intros y [[j Hy] _]. split; [by exists j |]. intros ->%elem_of_singleton. congruence.
  - by apply (holds_insert X x γ).
  - done.
  - intros j y Hj. simpl. destruct (decide (y = x)) as [->|]; [rewrite lookup_partial_alter_eq; congruence | by rewrite lookup_partial_alter_ne].
Qed.

(** A held node is released. *)
Lemma own_release γ X x n n' :
  wf γ → holds_ i X γ → x ∈ X → pub γ x → γ.(g_nodes) !! x = Some n → view n' = view n → is_base n' = is_base n → n_flag n' = n_flag n →
  n_m n' = false → n_owner n' = -1 → n_valid n' = bool_decide (x ∈ locs γ.(g_tree)) →
  (∀ l b, l ∈ lvs γ.(g_tree) → lf_b l = x → n' = CaBase b →
     bn_set b = Some (lf_s l) ∧ bn_parent b = lf_par l ∧ γ.(g_sets) !! lf_s l = Some (lf_m l, x)) →
  own_step (X ∖ {[x]}) {[x]} {[x]} γ (touch x n' None γ.(g_sets) γ).
Proof.
  intros Hwf HX Hx [_ Hxn] Hn Hv Hb Hf Hm Ho Hva Hl. split_and!.
  - eapply touch_wf; try done. by intros l b ?? _; apply Hl.
  - eapply touch_frame; try done. left. set_solver.
  - intros y. simpl. rewrite elem_of_difference elem_of_singleton -HX. destruct (decide (y = x)) as [->|].
    + rewrite lookup_partial_alter_eq. naive_solver.
    + rewrite lookup_partial_alter_ne //. tauto.
  - done.
  - intros j y Hj. simpl. destruct (decide (y = x)) as [->|]; [by rewrite lookup_partial_alter_eq | by rewrite lookup_partial_alter_ne].
Qed.

Lemma rep_touch γ x n' o : store this rm lo hi nt (<[x := n']> γ.(g_nodes)) γ.(g_sets) (cloc γ.(g_tree)) ⊢ rep (touch x n' o γ.(g_sets) γ).
Proof. done. Qed.

(** ** Members of held nodes *)

Lemma node_at_base γ b n : node_at b (CaBase n) γ → γ.(g_nodes) !! b = Some (CaBase n).
Proof. intros ([n'|] & Hn & Hl); simpl in Hl; [by subst | done]. Qed.
Lemma node_at_route γ p n : node_at p (CaRoute n) γ → ∃ n', γ.(g_nodes) !! p = Some (CaRoute n') ∧ same_lock (CaRoute n) (CaRoute n').
Proof. intros ([|n'] & Hn & Hl); [done | by exists n']. Qed.

Lemma t_get_base {A} X b n F (fld : field base_node A) :
  b ∈ X → Foot X X F →
  triple (know X (λ γ, node_at b (CaBase n) γ ∧ F γ)) (Some b ⇝ fld)
    (λ a, know X (λ γ, a = fget fld n ∧ node_at b (CaBase n) γ ∧ F γ)).
Proof.
  intros Hb HF. apply (t_look _ _ _ _ _ _ _ _ _ HG); [apply _ |]. intros γ Hwf HX [Hn%node_at_base _].
  iIntros "Hrep". iDestruct (store_read_base with "Hrep") as "[Hb Hclose]"; [done |]. iApply (wp_get with "Hb"). iIntros "Hb".
  iSplitR; [done | by iApply "Hclose"].
Qed.

(** The members that a write may change while the node is locked. *)
Definition unlocked_field {A} (fld : field base_node A) : Prop :=
  ∀ v n, bn_isBaseNode (fset fld v n) = bn_isBaseNode n ∧ bn_m (fset fld v n) = bn_m n.

Lemma t_put_base {A} X b n F (fld : field base_node A) v :
  unlocked_field fld → b ∈ X → Foot (X ∖ {[b]}) X F →
  triple (know X (λ γ, node_at b (CaBase n) γ ∧ F γ)) (Some b ⇝ fld ::= v)
    (λ _, know X (λ γ, node_at b (CaBase (fset fld v n)) γ ∧ F γ)).
Proof.
  intros Hfld Hb HF. apply (t_own _ _ _ _ _ _ _ _ _ HG X {[b]} ∅); [apply _ | by rewrite difference_empty_L | set_solver | set_solver |].
  intros γ Hwf HX Hn%node_at_base _. destruct (Hfld v n) as [Hflag Hm].
  iIntros "Hrep". iDestruct (store_base with "Hrep") as "[Hb Hclose]"; [done |]. iApply awp_wp. iApply (wp_put with "Hb"). iIntros "Hb".
  iDestruct ("Hclose" with "Hb") as "Hrep". iExists (touch b (CaBase (fset fld v n)) (Some i) γ.(g_sets) γ).
  iSplitR; [|by iApply rep_touch]. iPureIntro. split.
  - by eapply own_write.
  - exists (CaBase (fset fld v n)). simpl. by rewrite lookup_insert_eq.
Qed.

(** The lock members of a route node, which its children do not affect. *)
Definition lock_field {A} (fld : field route_node A) : Prop :=
  ∀ n n', same_lock (CaRoute n) (CaRoute n') → fget fld n' = fget fld n.
Definition lock_write {A} (fld : field route_node A) : Prop :=
  ∀ v n n', same_lock (CaRoute n) (CaRoute n') →
    same_lock (CaRoute (fset fld v n)) (CaRoute (fset fld v n')) ∧ view (CaRoute (fset fld v n')) = view (CaRoute n') ∧
    rn_m (fset fld v n') = rn_m n' ∧ rn_isBaseNode (fset fld v n') = rn_isBaseNode n'.

Lemma t_get_route {A} X p n F (fld : field route_node A) :
  lock_field fld → p ∈ X → Foot X X F →
  triple (know X (λ γ, node_at p (CaRoute n) γ ∧ F γ)) (Some p ⇝ fld)
    (λ a, know X (λ γ, a = fget fld n ∧ node_at p (CaRoute n) γ ∧ F γ)).
Proof.
  intros Hfld Hp HF. apply (t_look _ _ _ _ _ _ _ _ _ HG); [apply _ |]. intros γ Hwf HX [(n' & Hn & Hl)%node_at_route _].
  iIntros "Hrep". iDestruct (store_read_route with "Hrep") as "[Hb Hclose]"; [done |]. iApply (wp_get with "Hb"). iIntros "Hb".
  rewrite (Hfld _ _ Hl). iSplitR; [done | by iApply "Hclose"].
Qed.

Lemma t_put_route {A} X p n F (fld : field route_node A) v :
  lock_write fld → p ∈ X → Foot (X ∖ {[p]}) X F →
  triple (know X (λ γ, node_at p (CaRoute n) γ ∧ F γ)) (Some p ⇝ fld ::= v)
    (λ _, know X (λ γ, node_at p (CaRoute (fset fld v n)) γ ∧ F γ)).
Proof.
  intros Hfld Hp HF. apply (t_own _ _ _ _ _ _ _ _ _ HG X {[p]} ∅); [apply _ | by rewrite difference_empty_L | set_solver | set_solver |].
  intros γ Hwf HX (n' & Hn & Hl)%node_at_route _. destruct (Hfld v n n' Hl) as (Hl' & Hv & Hm & Hflag).
  iIntros "Hrep". iDestruct (store_route with "Hrep") as "[Hb Hclose]"; [done |]. iApply awp_wp. iApply (wp_put with "Hb"). iIntros "Hb".
  iDestruct ("Hclose" with "Hb") as "Hrep". iExists (touch p (CaRoute (fset fld v n')) (Some i) γ.(g_sets) γ).
  iSplitR; [|by iApply rep_touch]. iPureIntro. split.
  - by eapply own_write.
  - exists (CaRoute (fset fld v n')). simpl. by rewrite lookup_insert_eq.
Qed.

(** ** Members of nodes that are not published yet *)

Lemma t_fresh_base {A} X x n F (fld : field base_node A) v :
  (∀ v n, bn_isBaseNode (fset fld v n) = bn_isBaseNode n) → x ∈ X → Foot (X ∖ {[x]}) X F →
  triple (know X (λ γ, fresh_at x (CaBase n) γ ∧ F γ)) (Some x ⇝ fld ::= v)
    (λ _, know X (λ γ, fresh_at x (CaBase (fset fld v n)) γ ∧ F γ)).
Proof.
  intros Hfld Hx HF. apply (t_own _ _ _ _ _ _ _ _ _ HG X {[x]} ∅); [apply _ | by rewrite difference_empty_L | set_solver | set_solver |].
  intros γ Hwf HX [Hn Hnew] _.
  iIntros "Hrep". iDestruct (store_base with "Hrep") as "[Hb Hclose]"; [done |]. iApply awp_wp. iApply (wp_put with "Hb"). iIntros "Hb".
  iDestruct ("Hclose" with "Hb") as "Hrep". iExists (touch x (CaBase (fset fld v n)) (Some i) γ.(g_sets) γ).
  iSplitR; [|by iApply rep_touch]. iPureIntro. split.
  - eapply own_write; try done. apply Hfld.
  - split; [|done]. simpl. by rewrite lookup_insert_eq.
Qed.
Lemma t_fresh_route {A} X x n F (fld : field route_node A) v :
  (∀ v n, rn_isBaseNode (fset fld v n) = rn_isBaseNode n) → x ∈ X → Foot (X ∖ {[x]}) X F →
  triple (know X (λ γ, fresh_at x (CaRoute n) γ ∧ F γ)) (Some x ⇝ fld ::= v)
    (λ _, know X (λ γ, fresh_at x (CaRoute (fset fld v n)) γ ∧ F γ)).
Proof.
  intros Hfld Hx HF. apply (t_own _ _ _ _ _ _ _ _ _ HG X {[x]} ∅); [apply _ | by rewrite difference_empty_L | set_solver | set_solver |].
  intros γ Hwf HX [Hn Hnew] _.
  iIntros "Hrep". iDestruct (store_route with "Hrep") as "[Hb Hclose]"; [done |]. iApply awp_wp. iApply (wp_put with "Hb"). iIntros "Hb".
  iDestruct ("Hclose" with "Hb") as "Hrep". iExists (touch x (CaRoute (fset fld v n)) (Some i) γ.(g_sets) γ).
  iSplitR; [|by iApply rep_touch]. iPureIntro. split.
  - eapply own_write; try done. apply Hfld.
  - split; [|done]. simpl. by rewrite lookup_insert_eq.
Qed.

(** A set moves from the node [b] to a new base node; [T] is what else is known of [b]. *)
Lemma t_setOrderedSet X x n s m b (T F : state → Prop) :
  x ∈ X → b ∈ X → Foot X X T → (∀ γ n', T γ → T (touch x n' (Some i) (<[s := (m, x)]> γ.(g_sets)) γ)) →
  Foot (X ∖ {[x]}) (X ∖ {[b]}) F →
  triple (know X (λ γ, (fresh_at x (CaBase n) γ ∧ set_at s m b γ ∧ T γ) ∧ F γ)) (Base.setOrderedSet (Some x) (Some s))
    (λ _, know X (λ γ, (fresh_at x (CaBase (fset Base.set (Some s) n)) γ ∧ set_at s m x γ ∧ T γ) ∧ F γ)).
Proof.
  intros Hx Hb HT HTs HF. apply (t_own _ _ _ _ _ _ _ _ _ HG X {[x]} {[b]}); [apply _ | done | set_solver | set_solver |].
  intros γ Hwf HX ([Hn Hnew] & Hs & HTγ) _.
  iIntros "Hrep". iDestruct (store_base with "Hrep") as "[Hb Hclose]"; [done |]. iApply awp_wp. iApply (wp_put with "Hb"). iIntros "Hb".
  iDestruct ("Hclose" with "Hb") as "Hrep". iExists (touch x (CaBase (fset Base.set (Some s) n)) (Some i) (<[s := (m, x)]> γ.(g_sets)) γ).
  iSplitR.
  - iPureIntro. split.
    + eapply own_write; try done; [|set_solver]. intros s' m' b' Hb' Hs'. rewrite lookup_insert_ne //. intros <-. rewrite Hs in Hs'.
      set_solver.
    + split; [split; [|done]; simpl; by rewrite lookup_insert_eq |]. split; [|by apply HTs]. rewrite /set_at /=. by rewrite lookup_insert_eq.
  - iDestruct (store_take with "Hrep") as "[Hs Hrep]"; [done |]. iDestruct (store_give _ _ _ _ _ _ _ _ s m x with "Hrep Hs") as "[_ Hrep]".
    by rewrite insert_delete_eq.
Qed.

(** ** Mutexes *)

(** The node is in the tree with this set and parent, or it has left the tree. *)
Definition standing (b : loc) (s : ptr) (v : bool) (par : ptr) (γ : state) : Prop :=
  (v = false ∧ dead b γ) ∨
  (v = true ∧ ∃ l, (lf_b l = b ∧ s = Some (lf_s l) ∧ par = lf_par l) ∧ leaf_in l γ ∧ set_at (lf_s l) (lf_m l) (lf_b l) γ).
Definition locked_base (o : Z) (b : loc) (γ : state) : Prop :=
  ∃ s st v par, node_at b (CaBase (BaseNode true s true st o v par)) γ ∧ standing b s v par γ.
Definition route_stands (p : loc) (k : Z) (v : bool) (γ : state) : Prop :=
  (v = true ∧ route_in p k γ) ∨ (v = false ∧ dead p γ).
Definition locked_route (o : Z) (p : loc) (γ : state) : Prop :=
  ∃ k v, node_at p (CaRoute (RouteNode false k NULL NULL true o v)) γ ∧ route_at p k γ ∧ route_stands p k v γ.

#[global] Instance foot_standing N K b s v par : InSet b K → Foot N K (standing b s v par).
Proof.
  intros Hb. apply foot_or; apply foot_and; try apply _. apply foot_exists. intros l fN fK γ γ' ?? HN HK Hf ((Hl & ? & ?) & ? & ?).
  assert (InSet (lf_b l) K) by (by rewrite /InSet Hl). split_and!; try done.
  - by eapply (foot_leaf_in m0 N K l _ fN fK γ).
  - by eapply (foot_set_at m0 N K _ _ (lf_b l) _ fN fK γ).
Qed.
#[global] Instance foot_locked_base N K o b : InSet b N → InSet b K → Foot N K (locked_base o b).
Proof. intros ??. apply _. Qed.
#[global] Instance foot_route_stands N K p k v : InSet p K → Foot N K (route_stands p k v).
Proof. intros ?. apply _. Qed.
#[global] Instance foot_locked_route N K o p : InSet p N → InSet p K → Foot N K (locked_route o p).
Proof. intros ??. apply _. Qed.

(** A mutex of a published node is free exactly when nobody holds the node. *)
Lemma mutex_free γ x n : wf γ → pub γ x → γ.(g_nodes) !! x = Some n → n_m n = false → γ.(g_own) !! x = None.
Proof.
  intros Hwf [_ Hx] Hn Hm. destruct (wf_node _ _ Hwf x n Hn) as (_ & Hl & _). apply eq_None_not_Some. intros Ho.
  rewrite Hl // in Hm.
Qed.
Lemma mutex_held γ x n : wf γ → γ.(g_nodes) !! x = Some n → n_m n = true → is_Some (γ.(g_own) !! x).
Proof.
  intros Hwf Hn Hm. destruct (wf_node _ _ Hwf x n Hn) as (_ & _ & Hf). apply not_eq_None_Some. intros Ho.
  destruct (Hf Ho) as [Hm' _]. congruence.
Qed.

Lemma base_free γ b n :
  wf γ → base_at b γ → γ.(g_nodes) !! b = Some (CaBase n) → bn_m n = false →
  ∃ s st v par, n = BaseNode true s false st (-1) v par ∧ γ.(g_own) !! b = None ∧ standing b s v par γ.
Proof.
  intros Hwf [Hb _] Hn Hm. pose proof (mutex_free γ b _ Hwf Hb Hn Hm) as Ho.
  destruct (wf_node _ _ Hwf b _ Hn) as (Hf & _ & Hfree). destruct (Hfree Ho) as (_ & Hown & Hv). simpl in *.
  destruct n as [fl s m st o v par]. simpl in *. subst. exists s, st, (bool_decide (b ∈ locs γ.(g_tree))), par.
  split_and!; [done | done |]. rewrite /standing. destruct (decide (b ∈ locs γ.(g_tree))) as [Hin|Hout].
  - right. split; [by apply bool_decide_true |]. destruct (locs_cases γ.(g_tree) b NULL None None Hin) as [(l & Hl & <-)|[k Hk]].
    + destruct (wf_leaf _ _ Hwf l _ Hl Ho Hn) as (Hs & Hp & Hset). simpl in *. exists l. by split_and!.
    + destruct (trep_route _ _ _ _ (wf_rep _ _ Hwf) Hk) as (? & ? & Hv). rewrite (graph_lookup _ _ _ Hn) in Hv. done.
  - left. split; [by apply bool_decide_false | done].
Qed.

Lemma base_acquire γ X b n :
  wf γ → holds_ i X γ → base_at b γ → γ.(g_nodes) !! b = Some (CaBase n) → bn_m n = false →
  ∃ γ', own_step ({[b]} ∪ X) ∅ ∅ γ γ' ∧ (b ∉ X) ∧ locked_base (-1) b γ' ∧
    (store this rm lo hi nt (<[b := CaBase (fset Base.m true n)]> γ.(g_nodes)) γ.(g_sets) (cloc γ.(g_tree)) ⊢ rep γ').
Proof.
  intros Hwf HX Hb Hn Hm. destruct (base_free γ b n Hwf Hb Hn Hm) as (s & st & v & par & -> & Ho & Hst).
  exists (touch b (CaBase (BaseNode true s true st (-1) v par)) (Some i) γ.(g_sets) γ). split_and!; [| | |done].
  - eapply own_acquire; try done. apply Hb.
  - intros HbX%HX. congruence.
  - exists s, st, v, par. split; [eexists; split; [apply lookup_insert_eq | done] |].
    destruct Hst as [[-> [Hp Hd]]|(-> & l & ? & ? & ?)]; [left | right; split; [done |]; by exists l]. split; [done |]. split; [|done].
    split; [|apply Hp]. simpl. by rewrite lookup_insert_eq.
Qed.

Lemma base_at_node γ b : base_at b γ → ∃ n, γ.(g_nodes) !! b = Some (CaBase n).
Proof. intros [_ Hb]. by apply graph_base. Qed.

Lemma t_try_lock X b F :
  Foot X X F →
  triple (know X (λ γ, base_at b γ ∧ F γ)) (atomic (mutex_try_lock (Some b) Base.m))
    (λ a : bool, know (if a then {[b]} ∪ X else X)
       (λ γ, (if a then (b ∉ X) ∧ locked_base (-1) b γ else base_at b γ) ∧ F γ)).
Proof.
  intros HF. apply (t_own _ _ _ _ _ _ _ _ _ HG X ∅ ∅); [apply _ | by rewrite difference_empty_L | set_solver | set_solver |].
  intros γ Hwf HX Hb _. destruct (base_at_node γ b Hb) as [n Hn]. iIntros "Hrep".
  iDestruct (store_base with "Hrep") as "[Hb Hclose]"; [done |]. iApply awp_wp. iApply (wp_mutex_try_lock_any with "Hb"). simpl.
  destruct (bn_m n) eqn:Hm; iIntros "Hb"; iDestruct ("Hclose" with "Hb") as "Hrep".
  - iExists γ. rewrite insert_id //. iFrame. iPureIntro. split; [by apply own_step_refl | done].
  - destruct (base_acquire γ X b n Hwf HX Hb Hn Hm) as (γ' & Hs & HbX & Hl & Hrep). iExists γ'. iSplitR; [done |]. by iApply Hrep.
Qed.

Lemma t_mutex_lock_base b F :
  Foot ∅ ∅ F →
  triple (know ∅ (λ γ, base_at b γ ∧ F γ)) (atomic (mutex_lock (Some b) Base.m))
    (λ _, know {[b]} (λ γ, locked_base (-1) b γ ∧ F γ)).
Proof.
  intros HF. apply (t_own _ _ _ _ _ _ _ _ _ HG ∅ ∅ ∅); [apply _ | by rewrite difference_empty_L | set_solver | set_solver |].
  intros γ Hwf HX Hb _. destruct (base_at_node γ b Hb) as [n Hn]. iIntros "Hrep".
  iDestruct (store_base with "Hrep") as "[Hb Hclose]"; [done |]. iApply (awp_mutex_lock with "Hb").
  { simpl. intros Hm. exists b. split_and!; [by eapply mutex_held | apply Hb |]. by intros y ?%HX%not_elem_of_empty. }
  iIntros (Hm) "Hb". iDestruct ("Hclose" with "Hb") as "Hrep".
  destruct (base_acquire γ ∅ b n Hwf HX Hb Hn Hm) as (γ' & Hs & HbX & Hl & Hrep). iExists γ'. iSplitR; [|by iApply Hrep].
  iPureIntro. rewrite right_id_L in Hs. done.
Qed.

Lemma t_mutex_unlock_base X b s st v par F :
  b ∈ X → Foot (X ∖ {[b]}) (X ∖ {[b]}) F →
  triple (know X (λ γ, (node_at b (CaBase (BaseNode true s true st (-1) v par)) γ ∧ standing b s v par γ) ∧ F γ))
    (atomic (mutex_unlock (Some b) Base.m)) (λ _, know (X ∖ {[b]}) (λ γ, True ∧ F γ)).
Proof.
  intros Hb HF. apply (t_own _ _ _ _ _ _ _ _ _ HG X {[b]} {[b]} (λ _, X ∖ {[b]}) _ (λ _ _, True)); [apply _ | done | set_solver | set_solver |].
  intros γ Hwf HX [Hn%node_at_base Hst] _. iIntros "Hrep". iDestruct (store_base with "Hrep") as "[Hb Hclose]"; [done |].
  iApply awp_wp. iApply (wp_mutex_unlock with "Hb"). iIntros "Hb". iDestruct ("Hclose" with "Hb") as "Hrep".
  iExists (touch b (CaBase (BaseNode true s false st (-1) v par)) None γ.(g_sets) γ). iSplitR; [|by iApply rep_touch].
  iPureIntro. split; [|done]. assert (pub γ b ∧ v = bool_decide (b ∈ locs γ.(g_tree))) as [Hp Hv].
  { destruct Hst as [[-> [Hp Hd]]|(-> & l & (<- & _) & Hl & _)]; [by rewrite bool_decide_false |].
    apply lf_b_locs in Hl. split; [by apply (tree_pub m0) | by rewrite bool_decide_true]. }
  eapply own_release; try done. intros l b' Hl Hlb [= <-]. destruct Hst as [[-> [_ Hd]]|(_ & l' & (Hlb' & -> & ->) & Hl' & Hs)].
  - rewrite -Hlb in Hd. by apply lf_b_locs in Hl.
  - assert (l = l') as <- by (apply (leaves_unique _ (wf_nodup _ _ Hwf) _ _ _ _ _ Hl Hl'); congruence).
    split_and!; [done | done |]. rewrite -Hlb. exact Hs.
Qed.

(** The same for route nodes, which are locked upwards. *)
Lemma t_mutex_lock_route X p k F :
  Foot X X F →
  (∀ γ, wf γ → F γ → ∀ y, y ∈ X → y ∉ γ.(g_new) → (rank γ y < rank γ p)%nat) →
  triple (know X (λ γ, route_at p k γ ∧ F γ)) (atomic (mutex_lock (Some p) Route.m))
    (λ _, know ({[p]} ∪ X) (λ γ, ((p ∉ X) ∧ locked_route (-1) p γ) ∧ F γ)).
Proof.
  intros HF Hrank. apply (t_own _ _ _ _ _ _ _ _ _ HG X ∅ ∅ (λ _, {[p]} ∪ X)); [apply _ | by rewrite difference_empty_L | set_solver | set_solver |].
  intros γ Hwf HX Hroute HFγ. pose proof Hroute as (n & Hn & Hk & Hpn). iIntros "Hrep".
  iDestruct (store_route with "Hrep") as "[Hb Hclose]"; [done |]. iApply (awp_mutex_lock with "Hb").
  { simpl. intros Hm. exists p. split_and!; [by eapply mutex_held | done |]. intros y Hy%HX. by apply Hrank. }
  iIntros (Hm) "Hb". iDestruct ("Hclose" with "Hb") as "Hrep". simpl in Hm.
  iExists (touch p (CaRoute (fset Route.m true n)) (Some i) γ.(g_sets) γ). iSplitR; [|by iApply rep_touch]. iPureIntro.
  assert (pub γ p) as Hp by (split; [by exists (CaRoute n) | done]).
  pose proof (mutex_free γ p _ Hwf Hp Hn Hm) as Ho. destruct (wf_node _ _ Hwf p _ Hn) as (Hf & _ & Hfree).
  destruct (Hfree Ho) as (_ & Hown & Hv). simpl in *. split; [by eapply own_acquire |]. split; [intros HpX%HX; congruence |].
  exists k, (bool_decide (p ∈ locs γ.(g_tree))). split_and!.
  - eexists. split; [apply lookup_insert_eq |]. destruct n. simpl in *. by subst.
  - exists (fset Route.m true n). simpl. by rewrite lookup_insert_eq.
  - destruct (decide (p ∈ locs γ.(g_tree))) as [Hin|Hout].
    + left. rewrite bool_decide_true //. split; [done |]. destruct (locs_cases γ.(g_tree) p NULL None None Hin) as [(l & Hl & <-)|[k' Hk']].
      * apply (trep_base _ _ _ _ _ _ (wf_rep _ _ Hwf)) in Hl. rewrite (graph_lookup _ _ _ Hn) in Hl. done.
      * destruct (trep_route _ _ _ _ (wf_rep _ _ Hwf) Hk') as (? & ? & Hv'). rewrite (graph_lookup _ _ _ Hn) in Hv'. simpl in Hv'. by simplify_eq.
    + right. rewrite bool_decide_false //. split; [done |]. split; [|done]. split; [|done]. simpl. by rewrite lookup_insert_eq.
Qed.

Lemma t_mutex_unlock_route X p k v F :
  p ∈ X → Foot (X ∖ {[p]}) (X ∖ {[p]}) F →
  triple (know X (λ γ, (node_at p (CaRoute (RouteNode false k NULL NULL true (-1) v)) γ ∧ route_at p k γ ∧ route_stands p k v γ) ∧ F γ))
    (atomic (mutex_unlock (Some p) Route.m)) (λ _, know (X ∖ {[p]}) (λ γ, True ∧ F γ)).
Proof.
  intros Hp HF. apply (t_own _ _ _ _ _ _ _ _ _ HG X {[p]} {[p]} (λ _, X ∖ {[p]}) _ (λ _ _, True)); [apply _ | done | set_solver | set_solver |].
  intros γ Hwf HX ((n & Hn & Hl)%node_at_route & _ & Hst) _. iIntros "Hrep". iDestruct (store_route with "Hrep") as "[Hb Hclose]"; [done |].
  iApply awp_wp. iApply (wp_mutex_unlock with "Hb"). iIntros "Hb". iDestruct ("Hclose" with "Hb") as "Hrep".
  iExists (touch p (CaRoute (fset Route.m false n)) None γ.(g_sets) γ). iSplitR; [|by iApply rep_touch].
  iPureIntro. split; [|done]. assert (pub γ p ∧ v = bool_decide (p ∈ locs γ.(g_tree))) as [Hpub Hv].
  { destruct Hst as [[-> Hin]|[-> [Hpub Hd]]]; [|by rewrite bool_decide_false].
    apply routes_locs in Hin. split; [by apply (tree_pub m0) | by rewrite bool_decide_true]. }
  apply same_lock_members in Hl as (Hfl & Hm & Ho & Hva & _). simpl in *.
  eapply own_release; try done; simpl; congruence.
Qed.

(** ** The methods of [BaseNode] *)

Lemma t_assert {A} X P b (p : prog A) Q :
  b = true → Foot X X P → triple (know X P) p Q → triple (know X P) (atomic (assert_ b);; p) Q.
Proof.
  intros Hb HP Hp. eapply t_let; [eapply (t_look _ _ _ _ _ _ _ _ _ HG _ _ (λ _ _, True)); [done |] |].
  - intros γ _ _ _. iIntros "Hrep". iApply wp_assert; [done |]. by iSplitR.
  - intros []. eapply t_pre; [exact Hp |]. by intros γ _ _ [_ ?].
Qed.

Lemma foot_less X Y Z F : Foot (X ∖ Y) (X ∖ Z) F → Foot X X F.
Proof. intros HF. eapply foot_mono; [exact HF | set_solver..]. Qed.
Lemma foot_less' X Y F : Foot (X ∖ Y) X F → Foot X X F.
Proof. intros HF. eapply foot_mono; [exact HF | set_solver..]. Qed.

Lemma unlocked_stat : unlocked_field Base.statLockStatistics.
Proof. by intros ? []. Qed.
Lemma unlocked_owner : unlocked_field Base.owner.
Proof. by intros ? []. Qed.
Lemma unlocked_valid : unlocked_field Base.valid.
Proof. by intros ? []. Qed.

(** [lock] and [tryLock] after they have the mutex. *)
Lemma t_take_owner {A} X b F (p : prog A) Q :
  b ∈ X → Foot (X ∖ {[b]}) X F →
  triple (know X (λ γ, locked_base tid b γ ∧ F γ)) p Q →
  triple (know X (λ γ, locked_base (-1) b γ ∧ F γ))
    (o ← Some b ⇝ Base.owner; atomic (assert_ (o =? -1));; Some b ⇝ Base.owner ::= tid;; p) Q.
Proof.
  intros Hb HF Hp. pose proof (foot_less' _ _ _ HF).
  apply (t_pre _ _ _ _ _ _ _ _ _ _ (λ γ, ∃ s st v par, node_at b (CaBase (BaseNode true s true st (-1) v par)) γ ∧ standing b s v par γ ∧ F γ));
    [|intros γ _ _ [(s & st & v & par & ? & ?) ?]; by exists s, st, v, par].
  apply t_ex; intros s; apply t_ex; intros st; apply t_ex; intros v; apply t_ex; intros par. eapply t_val; [apply t_get_base; [done | apply _] |]. simpl.
  apply t_assert; [done | apply _ |]. eapply t_let; [apply t_put_base; [apply unlocked_owner | done | apply _] |].
  intros []. eapply t_pre; [exact Hp |]. intros γ _ _ (? & ? & ?). split; [by exists s, st, v, par | done].
Qed.

(** The contention statistics. *)
Lemma t_count X b d F :
  b ∈ X → Foot (X ∖ {[b]}) X F →
  triple (know X (λ γ, locked_base tid b γ ∧ F γ))
    (s ← Some b ⇝ Base.statLockStatistics; Some b ⇝ Base.statLockStatistics ::= int (d s))
    (λ _, know X (λ γ, locked_base tid b γ ∧ F γ)).
Proof.
  intros Hb HF. pose proof (foot_less' _ _ _ HF).
  apply (t_pre _ _ _ _ _ _ _ _ _ _ (λ γ, ∃ s st v par, node_at b (CaBase (BaseNode true s true st tid v par)) γ ∧ standing b s v par γ ∧ F γ));
    [|intros γ _ _ [(s & st & v & par & ? & ?) ?]; by exists s, st, v, par].
  apply t_ex; intros s; apply t_ex; intros st; apply t_ex; intros v; apply t_ex; intros par. eapply t_val; [apply t_get_base; [done | apply _] |]. simpl.
  eapply t_post; [apply t_put_base; [apply unlocked_stat | done | apply _] |].
  intros [] γ (? & ? & ?). split; [by exists s, (int (d st)), v, par | done].
Qed.

Lemma t_lock b F :
  Foot ∅ ∅ F →
  triple (know ∅ (λ γ, base_at b γ ∧ F γ)) (Base.lock tid (Some b)) (λ _, know {[b]} (λ γ, locked_base tid b γ ∧ F γ)).
Proof.
  intros HF. assert (Foot ({[b]} ∖ {[b]}) {[b]} F) by (eapply foot_mono; [exact HF | set_solver..]).
  eapply t_let; [by apply t_try_lock |]. intros [].
  - rewrite right_id_L. apply (t_pre _ _ _ _ _ _ _ _ _ _ (λ γ, locked_base (-1) b γ ∧ F γ)); [|by intros γ _ _ [[_ ?] ?]].
    apply t_take_owner; [set_solver | done |]. apply t_count; [set_solver | done].
  - eapply t_let; [by apply t_mutex_lock_base |]. intros [].
    apply t_take_owner; [set_solver | done |]. apply t_count; [set_solver | done].
Qed.

Lemma t_tryLock X b F :
  Foot X X F →
  triple (know X (λ γ, base_at b γ ∧ F γ)) (Base.tryLock tid (Some b))
    (λ a : bool, know (if a then {[b]} ∪ X else X) (λ γ, (if a then (b ∉ X) ∧ locked_base tid b γ else True) ∧ F γ)).
Proof.
  intros HF. eapply t_let; [by apply t_try_lock |]. intros [].
  - apply (t_pre _ _ _ _ _ _ _ _ _ _ (λ γ, (b ∉ X) ∧ locked_base (-1) b γ ∧ F γ)); [|by intros γ _ _ [[? ?] ?]].
    apply t_pure. intros Hb. apply t_take_owner; [set_solver | eapply foot_mono; [exact HF | set_solver..] |].
    apply t_ret. intros γ _ (? & ? & ? & ?). by split_and!.
  - apply t_ret. intros γ _ (? & ? & ? & ?). by split_and!.
Qed.

Lemma t_unlock X b F :
  b ∈ X → Foot (X ∖ {[b]}) (X ∖ {[b]}) F →
  triple (know X (λ γ, locked_base tid b γ ∧ F γ)) (Base.unlock tid (Some b)) (λ _, know (X ∖ {[b]}) F).
Proof.
  intros Hb HF. pose proof (foot_less _ _ _ _ HF). assert (Foot (X ∖ {[b]}) X F) by (eapply foot_mono; [exact HF | set_solver..]).
  apply (t_pre _ _ _ _ _ _ _ _ _ _ (λ γ, ∃ s st v par, node_at b (CaBase (BaseNode true s true st tid v par)) γ ∧ standing b s v par γ ∧ F γ));
    [|intros γ _ _ [(s & st & v & par & ? & ?) ?]; by exists s, st, v, par].
  apply t_ex; intros s; apply t_ex; intros st; apply t_ex; intros v; apply t_ex; intros par. eapply t_val; [apply t_get_base; [done | apply _] |]. simpl.
  apply t_assert; [apply Z.eqb_refl | apply _ |]. eapply t_let; [apply t_put_base; [apply unlocked_owner | done | apply _] |].
  intros []. eapply t_pre; [|intros γ _ _ (Hn & Hs & HFγ); exact (conj (conj Hn Hs) HFγ)].
  eapply t_post; [by apply t_mutex_unlock_base |]. by intros [] γ [_ ?].
Qed.

Lemma t_isValid X b s st v par F :
  b ∈ X → Foot X X F →
  triple (know X (λ γ, node_at b (CaBase (BaseNode true s true st tid v par)) γ ∧ F γ)) (Base.isValid tid (Some b))
    (λ a, know X (λ γ, a = v ∧ node_at b (CaBase (BaseNode true s true st tid v par)) γ ∧ F γ)).
Proof.
  intros Hb HF. eapply t_val; [apply t_get_base; [done | apply _] |]. simpl.
  apply t_assert; [apply Z.eqb_refl | apply _ |]. by apply t_get_base.
Qed.

Lemma t_invalidate X b s st par F :
  b ∈ X → Foot (X ∖ {[b]}) X F →
  triple (know X (λ γ, node_at b (CaBase (BaseNode true s true st tid true par)) γ ∧ F γ)) (Base.invalidate tid (Some b))
    (λ _, know X (λ γ, node_at b (CaBase (BaseNode true s true st tid false par)) γ ∧ F γ)).
Proof.
  intros Hb HF. pose proof (foot_less' _ _ _ HF). eapply t_val; [apply t_get_base; [done | apply _] |]. simpl.
  apply t_assert; [done | apply _ |]. eapply t_val; [apply t_get_base; [done | apply _] |]. simpl.
  apply t_assert; [apply Z.eqb_refl | apply _ |]. apply t_put_base; [apply unlocked_valid | done | apply _].
Qed.

(** ** The methods of [RouteNode] *)

Lemma lock_owner : lock_field Route.owner ∧ lock_write Route.owner.
Proof. split; [by intros [] n' -> | intros v [] []; simpl; intros [=]; by subst]. Qed.
Lemma lock_valid : lock_field Route.valid ∧ lock_write Route.valid.
Proof. split; [by intros [] n' -> | intros v [] []; simpl; intros [=]; by subst]. Qed.

Definition route_locked (o : Z) (p : loc) (k : Z) (v : bool) (γ : state) : Prop :=
  node_at p (CaRoute (RouteNode false k NULL NULL true o v)) γ ∧ route_at p k γ ∧ route_stands p k v γ.

Lemma t_route_lock X p k F :
  Foot X X F →
  (∀ γ, wf γ → F γ → ∀ y, y ∈ X → y ∉ γ.(g_new) → (rank γ y < rank γ p)%nat) →
  triple (know X (λ γ, route_at p k γ ∧ F γ)) (Route.lock tid (Some p))
    (λ _, know ({[p]} ∪ X) (λ γ, (p ∉ X) ∧ ∃ v, route_locked tid p k v γ ∧ F γ)).
Proof.
  intros HF Hrank. eapply t_let.
  { apply (t_pre _ _ _ _ _ _ _ _ _ _ (λ γ, route_at p k γ ∧ route_at p k γ ∧ F γ)); [|by intros γ _ _ [? ?]].
    apply t_mutex_lock_route; [apply _ |]. intros γ Hwf [_ HFγ]. by apply Hrank. }
  intros []. apply (t_pre _ _ _ _ _ _ _ _ _ _ (λ γ, (p ∉ X) ∧ ∃ v,
    node_at p (CaRoute (RouteNode false k NULL NULL true (-1) v)) γ ∧ route_at p k γ ∧ route_stands p k v γ ∧ F γ)).
  2:{ intros γ Hwf _ ([Hp (k' & v & Hn & Hk' & Hst)] & Hk & HFγ). pose proof (is_route_unique _ _ _ _ Hk Hk') as <-.
      split; [done |]. by exists v. }
  apply t_pure. intros Hp. apply t_ex. intros v. assert (Foot (({[p]} ∪ X) ∖ {[p]}) ({[p]} ∪ X) F) as HF'.
  { eapply foot_mono; [exact HF | set_solver..]. } pose proof (foot_less' _ _ _ HF').
  eapply t_val; [apply t_get_route; [apply lock_owner | set_solver | apply _] |]. simpl.
  apply t_assert; [done | apply _ |]. eapply t_post; [apply t_put_route; [apply lock_owner | set_solver | apply _] |].
  intros [] γ (? & ? & ? & ?). split; [done |]. by exists v.
Qed.

Lemma t_route_isValid X p k v F :
  p ∈ X → Foot X X F →
  triple (know X (λ γ, route_locked tid p k v γ ∧ F γ)) (Route.isValid tid (Some p))
    (λ a, know X (λ γ, a = v ∧ route_locked tid p k v γ ∧ F γ)).
Proof.
  intros Hp HF. apply (t_pre _ _ _ _ _ _ _ _ _ _ (λ γ, node_at p (CaRoute (RouteNode false k NULL NULL true tid v)) γ ∧
    route_at p k γ ∧ route_stands p k v γ ∧ F γ)); [|by intros γ _ _ [(? & ? & ?) ?]].
  eapply t_val; [apply t_get_route; [apply lock_owner | done | apply _] |]. simpl. apply t_assert; [apply Z.eqb_refl | apply _ |].
  eapply t_post; [apply t_get_route; [apply lock_valid | done | apply _] |]. simpl. intros a γ (? & ? & ? & ? & ?). by split_and!.
Qed.

(** The route node has left the tree. *)
Lemma t_route_invalidate X p k F :
  p ∈ X → Foot (X ∖ {[p]}) X F →
  triple (know X (λ γ, node_at p (CaRoute (RouteNode false k NULL NULL true tid true)) γ ∧ F γ)) (Route.invalidate tid (Some p))
    (λ _, know X (λ γ, node_at p (CaRoute (RouteNode false k NULL NULL true tid false)) γ ∧ F γ)).
Proof.
  intros Hp HF. pose proof (foot_less' _ _ _ HF). eapply t_val; [apply t_get_route; [apply lock_owner | done | apply _] |]. simpl.
  apply t_assert; [apply Z.eqb_refl | apply _ |]. eapply t_val; [apply t_get_route; [apply lock_valid | done | apply _] |]. simpl.
  apply t_assert; [done | apply _ |]. apply t_put_route; [apply lock_valid | done | apply _].
Qed.

Lemma t_route_unlock X p k v F :
  p ∈ X → Foot (X ∖ {[p]}) (X ∖ {[p]}) F →
  triple (know X (λ γ, route_locked tid p k v γ ∧ F γ)) (Route.unlock tid (Some p)) (λ _, know (X ∖ {[p]}) F).
Proof.
  intros Hp HF. pose proof (foot_less _ _ _ _ HF). assert (Foot (X ∖ {[p]}) X F) by (eapply foot_mono; [exact HF | set_solver..]).
  apply (t_pre _ _ _ _ _ _ _ _ _ _ (λ γ, node_at p (CaRoute (RouteNode false k NULL NULL true tid v)) γ ∧
    route_at p k γ ∧ route_stands p k v γ ∧ F γ)); [|by intros γ _ _ [(? & ? & ?) ?]].
  eapply t_val; [apply t_get_route; [apply lock_owner | done | apply _] |]. simpl. apply t_assert; [apply Z.eqb_refl | apply _ |].
  eapply t_let; [apply t_put_route; [apply lock_owner | done | apply _] |]. simpl. intros [].
  eapply t_pre; [|intros γ _ _ (Hn & Hr & Hs & HFγ); exact (conj (conj Hn (conj Hr Hs)) HFγ)].
  eapply t_post; [by apply t_mutex_unlock_route |]. by intros [] γ [_ ?].
Qed.
End lock.
