(* ===== verification/CAWalk.v ===== *)
(** * CAWalk: searching a tree that other threads change

    [getBaseNode], [leftmostBaseNode], [rightmostBaseNode] and [parentOf] read
    published nodes without locks.  A search ends at the base node responsible
    for its key or at one that has left the tree, which its [valid] flag shows
    once it is locked. *)
From S2P Require Import Prelude Memory SepLogic OrderedSet Prog Threads CANode CATree CASpec CAShape CAProtocol CASteps CARules CALock.
#[local] Open Scope Z_scope.
#[local] Open Scope cpp_scope.

Section walk.
Context {OS : IOrderedSet} {Laws : OrderedSetLaws OS} {BLaws : BaseSetLaws OS} {Excl : ExclusiveSet OS}.
Context {R : RecordManager} {RLaws : SharedManagerLaws R}.
Context (m0 : gmap Z Z) (this rm : loc) (lo hi nt : Z).
Context (i : nat) (H : list (set_op * Z)) (G : state → state → Prop).
Context (HG : ∀ γ γ', CAProtocol.wf m0 γ → γ'.(g_hist) = γ.(g_hist) → G γ γ').
Abbreviation wf := (CAProtocol.wf m0).
Abbreviation rep := (CARules.rep this rm lo hi nt).
Abbreviation Foot := (CARules.Foot m0).
Abbreviation triple := (Threads.triple wf rep (gstep m0) blocked G i).
Abbreviation know X P := (CARules.know i X H P).
Abbreviation tid := (Z.of_nat i).
Abbreviation t_pre := (CARules.t_pre m0 this rm lo hi nt i H G).
Abbreviation t_assert := (CALock.t_assert m0 this rm lo hi nt i H G HG).
Abbreviation t_route_lock := (CALock.t_route_lock m0 this rm lo hi nt i H G HG).
Abbreviation t_route_unlock := (CALock.t_route_unlock m0 this rm lo hi nt i H G HG).
Abbreviation t_route_isValid := (CALock.t_route_isValid m0 this rm lo hi nt i H G HG).
Implicit Types (X Y : gset loc) (F P : state → Prop).

(** ** Reading published nodes and the tree object *)

Lemma t_tree {A} X P (fld : field ca_tree A) (φ : A → state → Prop) :
  Foot X X P →
  (∀ γ, wf γ → holds_ i X γ → P γ → φ (fget fld (CaTree lo hi nt (Some rm) (Some (cloc γ.(g_tree))))) γ) →
  triple (know X P) (Some this ⇝ fld) (λ a, know X (λ γ, φ a γ ∧ P γ)).
Proof.
  intros HP Hφ. apply (t_look _ _ _ _ _ _ _ _ _ HG); [done |]. intros γ Hwf HX HPγ.
  iIntros "Hrep". iDestruct (store_root with "Hrep") as "[Ht Hclose]". iApply (wp_get with "Ht"). iIntros "Ht".
  iSplitR; [iPureIntro; by apply Hφ | by iApply "Hclose"].
Qed.
Lemma t_recmgr X P : Foot X X P → triple (know X P) (Some this ⇝ CA.recmgr) (λ a, know X (λ γ, a = Some rm ∧ P γ)).
Proof. intros HP. by apply (t_tree X P CA.recmgr (λ a _, a = Some rm)). Qed.

Lemma t_isBaseNode X x P :
  Foot X X P → (∀ γ, P γ → pub γ x) →
  triple (know X P) (Some x ⇝ isBaseNode) (λ a : bool, know X (λ γ, (if a then base_at x γ else ∃ k, route_at x k γ) ∧ P γ)).
Proof.
  intros HP Hpub. apply (t_look _ _ _ _ _ _ _ _ _ HG X P (λ (a : bool) γ, if a then base_at x γ else ∃ k, route_at x k γ)); [done |].
  intros γ Hwf HX HPγ. pose proof (Hpub γ HPγ) as Hx. pose proof Hx as [[n Hn] Hxn].
  iIntros "Hrep". iDestruct (store_read with "Hrep") as "[Hn Hclose]"; [done |]. iApply (wp_get with "Hn"). iIntros "Hn".
  iSplitR; [|by iApply "Hclose"]. iPureIntro. destruct (wf_node _ _ Hwf x n Hn) as [Hf _].
  destruct n as [b|r]; simpl in *; rewrite Hf.
  - split; [done |]. by apply (graph_lookup _ _ _ Hn).
  - exists (rn_key r), r. by split_and!.
Qed.

Lemma t_route_read {A} X x k P (fld : field route_node A) (φ : A → state → Prop) :
  Foot X X P →
  (∀ γ n, wf γ → holds_ i X γ → P γ → γ.(g_nodes) !! x = Some (CaRoute n) → rn_key n = k → φ (fget fld n) γ) →
  triple (know X (λ γ, route_at x k γ ∧ P γ)) (Some x ⇝ fld) (λ a, know X (λ γ, φ a γ ∧ route_at x k γ ∧ P γ)).
Proof.
  intros HP Hφ. apply (t_look _ _ _ _ _ _ _ _ _ HG); [apply _ |]. intros γ Hwf HX [(n & Hn & Hk & _) HPγ].
  iIntros "Hrep". iDestruct (store_read_route with "Hrep") as "[Hn Hclose]"; [done |]. iApply (wp_get with "Hn"). iIntros "Hn".
  iSplitR; [iPureIntro; by apply Hφ | by iApply "Hclose"].
Qed.
Lemma t_getKey X x k P :
  Foot X X P → triple (know X (λ γ, route_at x k γ ∧ P γ)) (Route.getKey (Some x)) (λ a, know X (λ γ, a = k ∧ route_at x k γ ∧ P γ)).
Proof. intros HP. by apply (t_route_read X x k P Route.key (λ a _, a = k)). Qed.

(** ** Descending *)

Lemma reaches_child γ dir ok x n :
  wf γ → reaches γ dir ok x → γ.(g_nodes) !! x = Some (CaRoute n) →
  ∃ y, (if dir (rn_key n) then rn_left n else rn_right n) = Some y ∧ reaches γ dir ok y.
Proof.
  intros Hwf [[_ Hx] (z & Hw & Hz & HzN & Hgood)] Hn. inversion Hw as [|x' v y Hv Hc Hw']; subst.
  - rewrite (graph_lookup _ _ _ Hn) in Hz. done.
  - rewrite (graph_lookup _ _ _ Hn) in Hv. simplify_eq. exists y. split; [done |]. split; [|by exists z].
    by eapply (wf_closed _ _ Hwf x).
Qed.
Lemma reaches_base γ dir ok x : base_at x γ → reaches γ dir ok x → dead x γ ∨ ∃ l, l ∈ lvs γ.(g_tree) ∧ lf_b l = x ∧ ok l.
Proof.
  intros [Hx Hb] [_ (z & Hw & _ & _ & Hgood)]. apply walk_base in Hw; [|done]. subst z.
  destruct Hgood as [?|(l & ? & ? & ?)]; [left; by split | right; by exists l].
Qed.

(** [W x]: what a thread knows of the node [x] it has come to. *)
Section descend.
Context (X : gset loc) (dir : Z → bool) (ok : leaf → Prop) (W : loc → state → Prop).
Context `{!∀ x, Foot X X (W x)}.
Context (W_reaches : ∀ x γ, W x γ → reaches γ dir ok x) (W_move : ∀ x y γ, W x γ → reaches γ dir ok y → W y γ).
Context (F : state → Prop) `{!Foot X X F}.

Lemma t_child x k (fld : field route_node ptr) :
  (∀ n, fget fld n = if dir k then rn_left n else rn_right n) →
  triple (know X (λ γ, route_at x k γ ∧ W x γ ∧ F γ)) (Some x ⇝ fld)
    (λ a, know X (λ γ, ∃ y, a = Some y ∧ W y γ ∧ F γ)).
Proof.
  intros Hfld. eapply t_post; [apply (t_route_read X x k _ fld (λ a γ, ∃ y, a = Some y ∧ W y γ)); [apply _ |] |].
  - intros γ n Hwf _ [HW _] Hn Hk. rewrite Hfld. destruct (reaches_child γ dir ok x n Hwf (W_reaches _ _ HW) Hn) as (y & Hy & Hr).
    rewrite Hk in Hy. exists y. split; [done | by eapply W_move].
  - intros a γ ((y & -> & ?) & _ & _ & ?). by exists y.
Qed.

Definition descending (s : ptr) : state → Prop := know X (λ γ, ∃ x, s = Some x ∧ W x γ ∧ F γ).
Definition arrived (s : ptr) : state → Prop := know X (λ γ, ∃ x, s = Some x ∧ base_at x γ ∧ W x γ ∧ F γ).

Lemma t_descend_step s (next : ptr → prog (ptr + ptr)) :
  (∀ x k, triple (know X (λ γ, route_at x k γ ∧ W x γ ∧ F γ)) (next (Some x))
     (λ r γ, match r with inl s' => descending s' γ | inr s' => arrived s' γ end)) →
  triple (descending s) (b ← s ⇝ isBaseNode; if negb b then next s else break s)
    (λ r γ, match r with inl s' => descending s' γ | inr s' => arrived s' γ end).
Proof.
  intros Hnext. apply t_ex. intros x. apply t_pure. intros ->.
  eapply t_let; [apply (t_isBaseNode X x); [apply _ |] |].
  { intros γ [HW _]. by apply W_reaches in HW as [? _]. }
  intros [|]; simpl.
  - apply t_ret. intros γ _ (HX & Hh & Hb & HW & HF). split_and!; [done | done |]. by exists x.
  - apply (t_pre _ (λ γ, ∃ k, route_at x k γ ∧ W x γ ∧ F γ)); [|intros γ _ _ [[k ?] ?]; by exists k].
    apply t_ex. intros k. apply Hnext.
Qed.

Lemma t_next x k (fld : field route_node ptr) :
  (∀ n, fget fld n = if dir k then rn_left n else rn_right n) →
  triple (know X (λ γ, route_at x k γ ∧ W x γ ∧ F γ)) (n ← Some x ⇝ fld; continue n)
    (λ r γ, match r with inl s' => descending s' γ | inr s' => arrived s' γ end).
Proof.
  intros Hfld. eapply t_let; [by apply t_child |]. intros a. by apply t_ret.
Qed.
End descend.

Lemma root_pub γ : wf γ → pub γ (cloc γ.(g_tree)).
Proof. intros Hwf. apply (tree_pub m0); [done |]. destruct γ.(g_tree); by left. Qed.
Lemma root_search γ k : wf γ → reach (to_key k) (has_key k) (cloc γ.(g_tree)) γ.
Proof.
  intros Hwf. split; [by apply root_pub |].
  destruct (walk_search (graph_of γ) k γ.(g_tree) NULL None None (wf_rep _ _ Hwf) (wf_twf _ _ Hwf)) as (l & Hl & Hk & Hw); [done |].
  exists (lf_b l). split_and!; [done | by eapply trep_base; [apply Hwf |] | | right; by exists l].
  apply (tree_pub m0 γ); [done |]. by eapply lf_b_locs.
Qed.

Lemma t_getBaseNode fuel X k F :
  Foot X X F →
  triple (know X F) (CA.getBaseNode fuel (Some this) k)
    (λ a, know X (λ γ, ∃ x, a = Some x ∧ base_at x γ ∧ reach (to_key k) (has_key k) x γ ∧ F γ)).
Proof.
  intros HF. eapply t_let.
  { apply (t_tree X F CA.root (λ a γ, ∃ x, a = Some x ∧ reach (to_key k) (has_key k) x γ)); [done |].
    intros γ Hwf _ _. simpl. eexists. split; [done | by apply root_search]. }
  intros a. apply (t_pre _ (λ γ, ∃ x, a = Some x ∧ reach (to_key k) (has_key k) x γ ∧ F γ)); [|intros γ _ _ [(x & ? & ?) ?]; by exists x].
  apply (t_piter _ _ _ _ (gstep_wf m0) _ _ _ _ (descending X (reach (to_key k) (has_key k)) F) (arrived X (reach (to_key k) (has_key k)) F)).
  intros s. apply (t_descend_step X (to_key k) (has_key k) (reach (to_key k) (has_key k)) ltac:(done) F s (λ s, c ← Route.getKey s;
    if k <? c then n ← Route.getLeft s; continue n else n ← Route.getRight s; continue n)). intros x c.
  eapply t_val; [apply t_getKey; apply _ |]. destruct (k <? c) eqn:Hc.
  - apply (t_next X (to_key k) (has_key k)); [apply _ | done | done | done |]. intros n. by rewrite /to_key Hc.
  - apply (t_next X (to_key k) (has_key k)); [apply _ | done | done | done |]. intros n. by rewrite /to_key Hc.
Qed.

Lemma t_leftmost fuel X l k x F :
  lf_b l ∈ X → Foot X X F →
  triple (know X (λ γ, (leaf_in l γ ∧ lf_hi l = Some k ∧ reach to_left (starts_at k) x γ) ∧ F γ)) (CA.leftmostBaseNode fuel (Some x))
    (λ a, know X (λ γ, ∃ x, a = Some x ∧ base_at x γ ∧ (leaf_in l γ ∧ lf_hi l = Some k ∧ reach to_left (starts_at k) x γ) ∧ F γ)).
Proof.
  intros Hl HF. set (W x γ := leaf_in l γ ∧ lf_hi l = Some k ∧ reach to_left (starts_at k) x γ).
  apply (t_pre _ (λ γ, ∃ y, Some x = Some y ∧ W y γ ∧ F γ)); [|intros γ _ _ ?; by exists x].
  assert (∀ x, Foot X X (W x)) by (intros y; by apply foot_leftmost).
  apply (t_piter _ _ _ _ (gstep_wf m0) _ _ _ _ (descending X W F) (arrived X W F)).
  intros s. apply (t_descend_step X to_left (starts_at k) W ltac:(by intros ?? (_ & _ & ?)) F s (λ s, n ← Route.getLeft s; continue n)).
  intros y c.
  apply (t_next X to_left (starts_at k)); [done | by intros ?? (_ & _ & ?) | by intros ??? (? & ? & _) | done | done].
Qed.
Lemma t_rightmost fuel X l k x F :
  lf_b l ∈ X → Foot X X F →
  triple (know X (λ γ, (leaf_in l γ ∧ lf_lo l = Some k ∧ reach to_right (stops_at k) x γ) ∧ F γ)) (CA.rightmostBaseNode fuel (Some x))
    (λ a, know X (λ γ, ∃ x, a = Some x ∧ base_at x γ ∧ (leaf_in l γ ∧ lf_lo l = Some k ∧ reach to_right (stops_at k) x γ) ∧ F γ)).
Proof.
  intros Hl HF. set (W x γ := leaf_in l γ ∧ lf_lo l = Some k ∧ reach to_right (stops_at k) x γ).
  apply (t_pre _ (λ γ, ∃ y, Some x = Some y ∧ W y γ ∧ F γ)); [|intros γ _ _ ?; by exists x].
  assert (∀ x, Foot X X (W x)) by (intros y; by apply foot_rightmost).
  apply (t_piter _ _ _ _ (gstep_wf m0) _ _ _ _ (descending X W F) (arrived X W F)).
  intros s. apply (t_descend_step X to_right (stops_at k) W ltac:(by intros ?? (_ & _ & ?)) F s (λ s, n ← Route.getRight s; continue n)).
  intros y c.
  apply (t_next X to_right (stops_at k)); [done | by intros ?? (_ & _ & ?) | by intros ??? (? & ? & _) | done | done].
Qed.

(** ** The parent of a route node *)

Definition prev_ok (g : ptr) (γ : state) : Prop := match g with None => True | Some g => ∃ k, route_at g k γ end.
#[global] Instance foot_prev_ok N K g : Foot N K (prev_ok g).
Proof. destruct g; simpl; [apply foot_exists; intros k; apply _ | apply foot_const]. Qed.

Lemma route_in_at γ p k : wf γ → route_in p k γ → route_at p k γ.
Proof.
  intros Hwf Hp. destruct (trep_route _ _ _ _ (wf_rep _ _ Hwf) Hp) as (l & r & (n & Hn & Hv)%graph_inv).
  destruct n as [|rn]; [done |]. simpl in Hv. simplify_eq. exists rn. split_and!; [done | done |].
  apply (tree_pub m0 γ); [done |]. by eapply routes_locs.
Qed.
Lemma root_route γ p k : wf γ → route_in p k γ → ∃ k', route_at (cloc γ.(g_tree)) k' γ.
Proof.
  intros Hwf Hp. destruct γ.(g_tree) as [b s m st|x k' l r] eqn:HT.
  - rewrite /route_in HT in Hp. by apply not_elem_of_nil in Hp.
  - exists k'. apply (route_in_at _ _ _ Hwf). rewrite /route_in HT. by left.
Qed.
Lemma root_path γ p k : wf γ → route_in p k γ →
  path p k (cloc γ.(g_tree)) γ ∧ (cloc γ.(g_tree) ≠ p ∨ (under p k NULL γ ∧ prev_ok NULL γ)).
Proof.
  intros Hwf Hp. split; [split; [by apply root_pub |]; by eapply walk_route; [apply Hwf..|] |].
  destruct (decide (cloc γ.(g_tree) = p)) as [Heq|]; [right | by left]. split; [|done]. left.
  destruct (routes_links NULL _ _ _ Hp) as [g Hg]. pose proof (wf_nodup _ _ Hwf) as Hnd. revert Heq Hg Hp Hnd. rewrite /route_in.
  destruct γ.(g_tree) as [b s m st|x k' l r]; simpl; intros <- Hg Hp Hnd; [by apply not_elem_of_nil in Hp |].
  assert ((x, k', NULL) ∈ links NULL (CRoute x k' l r)) as Hx by (by left).
  destruct (links_unique (CRoute x k' l r) Hnd _ _ _ _ _ _ Hx Hg) as [-> _]. by left.
Qed.
Lemma path_route γ p k x : path p k x γ → x ≠ p → ∃ kx, route_at x kx γ.
Proof.
  intros [[_ Hx] Hw] Hne. destruct Hw as [|x v y (n & Hn & ->)%graph_inv Hc _]; [done |]. destruct n as [|r]; [done |].
  exists (rn_key r), r. by split_and!.
Qed.
Lemma path_child γ p k x n :
  wf γ → route_in p k γ → path p k x γ → x ≠ p → γ.(g_nodes) !! x = Some (CaRoute n) →
  ∃ y, (if k <? rn_key n then rn_left n else rn_right n) = Some y ∧ path p k y γ ∧ (y ≠ p ∨ (under p k (Some x) γ ∧ prev_ok (Some x) γ)).
Proof.
  intros Hwf Hp [[Hxs Hx] Hw] Hne Hn. destruct Hw as [|x v y Hv Hc Hw]; [done |].
  rewrite (graph_lookup _ _ _ Hn) in Hv. simplify_eq. exists y. split; [done |].
  split; [split; [by eapply (wf_closed _ _ Hwf x) | done] |].
  destruct (decide (y = p)) as [->|]; [right | by left]. split; [|exists (rn_key n), n; by split_and!].
  destruct (decide (x ∈ locs γ.(g_tree))) as [Hin|Hout]; [left | right; exists x; by split_and!].
  destruct (locs_cases _ _ NULL None None Hin) as [(l & Hl & <-)|[kx Hkx]].
  - apply (trep_base _ _ _ _ _ _ (wf_rep _ _ Hwf)) in Hl. rewrite (graph_lookup _ _ _ Hn) in Hl. done.
  - eapply (link_child (graph_of γ)); [apply Hwf | apply Hwf | done | done | by apply graph_lookup | done].
Qed.

Lemma t_false {A} X P (p : prog A) Q : (∀ γ, wf γ → P γ → False) → triple (know X P) p Q.
Proof. intros HP γ Hwf (_ & _ & HPγ). by destruct (HP γ). Qed.

Lemma t_parentOf fuel X p k F :
  p ∈ X → Foot X X F →
  triple (know X (λ γ, route_in p k γ ∧ F γ)) (CA.parentOf fuel (Some this) (Some p))
    (λ g, know X (λ γ, under p k g γ ∧ prev_ok g γ ∧ route_in p k γ ∧ F γ)).
Proof.
  intros Hp HF. eapply t_let.
  { apply (t_tree X _ CA.root (λ a γ, ∃ x k', a = Some x ∧ route_at x k' γ)); [apply _ |].
    intros γ Hwf _ [Hin _]. destruct (root_route γ p k Hwf Hin) as [k' ?]. by eexists _, k'. }
  intros a. apply (t_pre _ (λ γ, ∃ x k', a = Some x ∧ route_at x k' γ ∧ route_in p k γ ∧ F γ)); [|intros γ _ _ [(x & k' & ? & ?) ?]; by exists x, k'].
  apply t_ex; intros x. apply t_ex; intros k'. apply t_pure. intros ->.
  eapply t_let; [apply (t_isBaseNode X x); [apply _ |] |].
  { intros γ [(n & Hn & _ & Hx) _]. split; [by exists (CaRoute n) | done]. }
  intros [|]; [apply t_false; intros γ _ ([_ Hb] & (n & Hn & _) & _); by rewrite (graph_lookup _ _ _ Hn) in Hb |].
  apply t_assert; [done | apply _ |].
  apply (t_pre _ (λ γ, route_in p k γ ∧ F γ)); [|by intros γ _ _ (_ & _ & ?)].
  eapply t_let.
  { apply (t_tree X _ CA.root (λ a γ, ∃ x, a = Some x ∧ (route_in p k γ ∧ path p k x γ) ∧ (x ≠ p ∨ (under p k NULL γ ∧ prev_ok NULL γ)))); [apply _ |].
    intros γ Hwf _ [Hin _]. destruct (root_path γ p k Hwf Hin). by eexists. }
  intros a. apply (t_pre _ (λ γ, route_at p k γ ∧ ∃ x, a = Some x ∧ ((route_in p k γ ∧ path p k x γ) ∧ (x ≠ p ∨ (under p k NULL γ ∧ prev_ok NULL γ))) ∧ F γ));
    [|intros γ Hwf _ [(y & ? & ? & ?) [Hin ?]]; split; [by apply route_in_at | by exists y]].
  eapply t_val; [apply t_getKey; apply _ |]. eapply t_pre; [|intros γ _ _ [_ HP]; exact HP].
  set (I := λ s : ptr * ptr, know X (λ γ, ∃ x, s.2 = Some x ∧ ((route_in p k γ ∧ path p k x γ) ∧ (x ≠ p ∨ (under p k s.1 γ ∧ prev_ok s.1 γ))) ∧ F γ)).
  apply (t_piter _ _ _ _ (gstep_wf m0) _ _ _ _ I _ (NULL, a)). intros [prev cur]. rewrite /I /=.
  apply t_ex; intros y. apply t_pure. intros ->. rewrite /CA.parentOfStep.
  destruct (decide (y = p)) as [->|Hne].
  - rewrite (bool_decide_true (Some p = Some p)) //. apply t_ret. intros γ _ (HX & Hh & ((Hin & _) & Hu) & HFγ).
    destruct Hu as [?|[? ?]]; [done |]. by split_and!.
  - rewrite (bool_decide_false (Some y = Some p)); [|congruence].
    apply (t_pre _ (λ γ, ∃ ky, route_at y ky γ ∧ (route_in p k γ ∧ path p k y γ) ∧ F γ)).
    2:{ intros γ _ _ (((Hin & Hpath) & _) & HFγ). destruct (path_route γ p k y Hpath Hne) as [ky ?]. by exists ky. }
    apply t_ex; intros ky. eapply t_val; [apply t_getKey; apply _ |].
    assert (∀ fld : field route_node ptr, (∀ n, fget fld n = if k <? ky then rn_left n else rn_right n) →
      triple (know X (λ γ, route_at y ky γ ∧ (route_in p k γ ∧ path p k y γ) ∧ F γ)) (n ← Some y ⇝ fld; continue (Some y, n))
        (λ x γ, match x with inl s' => I s' γ | inr r => know X (λ γ, under p k r γ ∧ prev_ok r γ ∧ route_in p k γ ∧ F γ) γ end)) as Hread.
    { intros fld Hfld. eapply t_let.
      - apply (t_route_read X y ky _ fld (λ a γ, ∃ z, a = Some z ∧ (route_in p k γ ∧ path p k z γ) ∧ (z ≠ p ∨ (under p k (Some y) γ ∧ prev_ok (Some y) γ)))); [apply _ |].
        intros γ n Hwf _ [[Hin Hpath] _] Hn Hk. rewrite Hfld -Hk. destruct (path_child γ p k y n Hwf Hin Hpath Hne Hn) as (z & ? & ? & ?).
        exists z. by split_and!.
      - intros a'. apply t_ret. intros γ _ (HX & Hh & (z & -> & ? & ?) & _ & _ & ?). split_and!; [done | done |]. by exists z. }
    destruct (k <? ky) eqn:Hky; by apply Hread.
Qed.

(** ** Locking the grandparent *)

(** [X]: a route node [p] of the tree, base nodes and new nodes. *)
Definition only_route (X : gset loc) (p : loc) (γ : state) : Prop :=
  ∀ y, y ∈ X → y ≠ p → graph_of γ !! y = Some VBase.
Definition without_parent (X : gset loc) (p : loc) (k : Z) (F : state → Prop) (g : ptr) (γ : state) : Prop :=
  match g with
  | None => know X (λ γ, route_in p k γ ∧ F γ) γ
  | Some g => know ({[g]} ∪ X) (λ γ, (g ∉ X) ∧ ∃ kg, route_locked tid g kg false γ ∧ route_in p k γ ∧ F γ) γ
  end.
Definition with_parent (X : gset loc) (p : loc) (k : Z) (F : state → Prop) (g : ptr) (γ : state) : Prop :=
  match g with
  | None => know X (λ γ, (p, k, None) ∈ links NULL γ.(g_tree) ∧ F γ) γ
  | Some g => know ({[g]} ∪ X) (λ γ, (g ∉ X) ∧ ∃ kg, route_locked tid g kg true γ ∧ (p, k, Some g) ∈ links NULL γ.(g_tree) ∧ F γ) γ
  end.

Lemma t_lockGparent fuel X p k F :
  p ∈ X → Foot X X F → (∀ γ, wf γ → F γ → only_route X p γ) →
  triple (know X (λ γ, route_in p k γ ∧ F γ))
    (piter fuel (CA.lockGparentStep fuel tid (Some this) (Some p)) NULL) (with_parent X p k F).
Proof.
  intros Hp HF Honly. apply (t_piter _ _ _ _ (gstep_wf m0) _ _ _ _ (without_parent X p k F) _ NULL).
  intros g. rewrite /CA.lockGparentStep. eapply (t_let _ _ _ _ _ _ _ _ _ _ _ (λ _, know X (λ γ, route_in p k γ ∧ F γ))).
  { destruct g as [g|]; simpl; [|by apply t_ret].
    apply t_pure; intros Hg. apply t_ex; intros kg. rewrite /pwhen /=.
    assert (({[g]} ∪ X) ∖ {[g]} = X) as HXg by set_solver.
    pose proof (t_route_unlock ({[g]} ∪ X) g kg false (λ γ, route_in p k γ ∧ F γ)) as Hu. rewrite HXg in Hu.
    apply Hu; [set_solver | apply _]. }
  intros []. eapply t_let; [by apply t_parentOf |]. intros [g'|]; rewrite /pwhen /=; last first.
  { eapply (t_let _ _ _ _ _ _ _ _ _ _ _ (λ _, _)); [by apply t_ret |]. intros []. apply t_ret.
    intros γ _ (HX & Hh & [Hu|(? & ? & _)] & _ & _ & ?); [|done]. by split_and!. }
  apply (t_pre _ (λ γ, ∃ kg, route_at g' kg γ ∧ route_at g' kg γ ∧ under p k (Some g') γ ∧ route_in p k γ ∧ F γ)); [|intros γ _ _ (? & [kg ?] & ?); by exists kg].
  apply t_ex; intros kg. eapply t_let; [apply t_route_lock; [apply _ |] |].
  { intros γ Hwf ((rg & Hrg & _) & Hu & Hin & HFγ) y Hy Hyn. destruct (routes_links NULL _ _ _ Hin) as [g0 Hg0].
    assert (rank γ p < rank γ g')%nat as Hlt.
    { destruct Hu as [Hlink|(g1 & [= <-] & [Hpub Hd])]; [by eapply (rank_parent m0) |]. eapply (rank_dead m0); [done | done | done |].
      by rewrite (graph_lookup _ _ _ Hrg). }
    destruct (decide (y = p)) as [->|Hne]; [done |]. rewrite (rank_base γ y); [lia |]. by apply (Honly γ Hwf HFγ). }
  intros []. apply t_pure; intros Hg'. apply t_ex; intros v.
  assert (Foot ({[g']} ∪ X) ({[g']} ∪ X) F) by (eapply foot_mono; [exact HF | set_solver..]). eapply t_val; [apply t_route_isValid; [set_solver | apply _] |].
  destruct v; simpl; apply t_ret; intros γ Hwf (HX & Hh & Hl & _ & Hu & Hin & HFγ); (split; [done |]); (split; [done |]); (split; [done |]); exists kg.
  - split; [done |]. split; [|done]. destruct Hu as [Hlink|(g1 & [= <-] & [_ Hd])]; [done |].
    destruct Hl as (_ & _ & [[_ Hin']|[? _]]); [|done]. by apply routes_locs in Hin'.
  - done.
Qed.
End walk.
