(* ===== verification/CAThreads.v ===== *)
(** * CAThreads: operations of one thread among others

    Splitting, joining and the dictionary operations of [ca_tree.h] when other
    threads run at the same time. *)
From S2P Require Import Prelude Memory SepLogic OrderedSet Prog Threads CANode CATree CASpec CAShape CAProtocol CASteps CARules CALock CAWalk.
#[local] Open Scope Z_scope.
#[local] Open Scope cpp_scope.

Section threads.
Context {OS : IOrderedSet} {Laws : OrderedSetLaws OS} {BLaws : BaseSetLaws OS} {Excl : ExclusiveSet OS}.
Context {R : RecordManager} {RLaws : SharedManagerLaws R}.
Context (m0 : gmap Z Z) (this rm : loc) (lo hi nt : Z).
Context (i : nat) (H : list (set_op * Z)) (G : state → state → Prop).
Context (HG : ∀ γ γ', CAProtocol.wf m0 γ → γ'.(g_hist) = γ.(g_hist) → G γ γ').
Abbreviation wf := (CAProtocol.wf m0).
Abbreviation rep := (CARules.rep this rm lo hi nt).
Abbreviation Foot := (CARules.Foot m0).
Abbreviation own_step := (CARules.own_step m0 i).
Abbreviation triple := (Threads.triple wf rep (gstep m0) blocked G i).
Abbreviation know X P := (CARules.know i X H P).
Abbreviation tid := (Z.of_nat i).
Abbreviation t_pre := (CARules.t_pre m0 this rm lo hi nt i H G).
Abbreviation t_own := (CARules.t_own m0 this rm lo hi nt i H G HG).
Abbreviation t_look := (CARules.t_look m0 this rm lo hi nt i H G HG).
Implicit Types (X Y : gset loc) (F P : state → Prop).

(** ** The record manager *)

Lemma t_allocate X F (m : M ptr) n :
  n_flag n = is_base n →
  (∀ Q, rm_shared rm -∗ (∀ x, rm_shared rm -∗ x ↦ n -∗ Q (Some x)) -∗ wp m Q) →
  Foot X X F →
  triple (know X F) (atomic m)
    (λ a, know (match a with Some x => {[x]} ∪ X | None => X end) (λ γ, (∃ x, a = Some x ∧ (x ∉ X) ∧ fresh_at x n γ) ∧ F γ)).
Proof.
  intros Hf Hm HF. apply (t_pre _ (λ γ, True ∧ F γ)); [|done].
  apply (t_own X ∅ ∅ (λ a, match a with Some x => {[x]} ∪ X | None => X end) _ (λ a γ, ∃ x, a = Some x ∧ (x ∉ X) ∧ fresh_at x n γ));
    [apply _ | by rewrite difference_empty_L | set_solver | set_solver |].
  intros γ Hwf HX _ _. iIntros "Hrep". iDestruct (store_rm with "Hrep") as "[Hrm Hclose]". iApply awp_wp. iApply (Hm with "Hrm").
  iIntros (x) "Hrm Hx". iDestruct ("Hclose" with "Hrm") as "Hrep". iDestruct (store_alloc with "Hrep Hx") as "[%Hx Hrep]".
  iExists (alloc i x n γ). iSplitR; [|done]. iPureIntro. assert (x ∉ X) as HxX.
  { intros Hin%HX. destruct (wf_owned _ _ Hwf x) as [? ?]; [by rewrite Hin | congruence]. }
  split; [split_and!|].
  - by apply alloc_wf.
  - by apply (alloc_frame m0).
  - by apply (holds_insert i X x γ).
  - done.
  - intros j y Hj. simpl. destruct (decide (y = x)) as [->|]; [rewrite lookup_insert_eq; congruence | by rewrite lookup_insert_ne].
  - exists x. split_and!; [done | done |]. split; simpl; [apply lookup_insert_eq | set_solver].
Qed.
Lemma t_allocateBase X F :
  Foot X X F →
  triple (know X F) (atomic (rm_allocateBase (Some rm) tid))
    (λ a, know (match a with Some x => {[x]} ∪ X | None => X end) (λ γ, (∃ x, a = Some x ∧ (x ∉ X) ∧ fresh_at x (CaBase Base.constructed) γ) ∧ F γ)).
Proof. apply t_allocate; [done |]. intros Q. apply rm_allocateBase_shared. Qed.
Lemma t_allocateRoute X F :
  Foot X X F →
  triple (know X F) (atomic (rm_allocateRoute (Some rm) tid))
    (λ a, know (match a with Some x => {[x]} ∪ X | None => X end) (λ γ, (∃ x, a = Some x ∧ (x ∉ X) ∧ fresh_at x (CaRoute Route.constructed) γ) ∧ F γ)).
Proof. apply t_allocate; [done |]. intros Q. apply rm_allocateRoute_shared. Qed.

(** The calls that keep the manager. *)
Lemma t_manager {A} X F (m : M unit) (p : prog A) Q :
  (∀ Q, rm_shared rm -∗ (rm_shared rm -∗ Q ()) -∗ wp m Q) → Foot X X F →
  triple (know X F) p Q → triple (know X F) (atomic m;; p) Q.
Proof.
  intros Hm HF Hp. eapply t_let; [apply (t_look X F (λ _ _, True)); [done |] |].
  - intros γ _ _ _. iIntros "Hrep". iDestruct (store_rm with "Hrep") as "[Hrm Hclose]". iApply (Hm with "Hrm"). iIntros "Hrm".
    iSplitR; [done |]. by iApply "Hclose".
  - intros []. eapply t_pre; [exact Hp |]. by intros γ _ _ [_ ?].
Qed.
Lemma t_manager_last X F P (m : M unit) :
  (∀ Q, rm_shared rm -∗ (rm_shared rm -∗ Q ()) -∗ wp m Q) → Foot X X F → (∀ γ, F γ → P γ) →
  triple (know X F) (atomic m) (λ _, know X P).
Proof.
  intros Hm HF HP. eapply t_post; [apply (t_look X F (λ _ _, True)); [done |] | intros [] γ [_ ?]; by apply HP].
  intros γ _ _ _. iIntros "Hrep". iDestruct (store_rm with "Hrep") as "[Hrm Hclose]". iApply (Hm with "Hrm"). iIntros "Hrm".
  iSplitR; [done |]. by iApply "Hclose".
Qed.

(** ** Ordered sets in the hands of the thread *)

(** The sets change, the tree does not. *)
Definition with_sets (S' : gmap loc (gmap Z Z * loc)) (γ : state) : state :=
  State γ.(g_nodes) S' γ.(g_own) γ.(g_new) γ.(g_tree) γ.(g_hist).

Lemma own_sets γ X Z S' :
  wf γ → holds_ i X γ → Z ⊆ X →
  (∀ s m b, b ∉ Z → γ.(g_sets) !! s = Some (m, b) → S' !! s = Some (m, b)) → own_step X ∅ Z γ (with_sets S' γ).
Proof.
  intros Hwf HX HZ HS. split_and!; try done.
  - destruct Hwf as [????????? Hleaf]. split; try done. intros l b Hl Ho Hb. simpl in *. destruct (Hleaf l b Hl Ho Hb) as (? & ? & ?).
    split_and!; [done | done |]. apply HS; [|done]. intros Hin%HZ%HX. congruence.
  - apply (frame_quiet m0); try done.
    + intros x n Hn _. by exists n.
    + intros s m b [_ Hb]. by apply HS.
Qed.

Lemma t_oset_split X l F :
  lf_b l ∈ X → Foot X (X ∖ {[lf_b l]}) F →
  triple (know X (λ γ, (set_at (lf_s l) (lf_m l) (lf_b l) γ ∧ leaf_in l γ) ∧ F γ)) (atomic (oset_split (Some (lf_s l))))
    (λ r, know X (λ γ, ((r = (invalid_key, NULL, NULL) ∧ set_at (lf_s l) (lf_m l) (lf_b l) γ ∧ leaf_in l γ) ∨
        ∃ k s1 s2 m1 m2, (r = (k, Some s1, Some s2) ∧ split_at (lf_m l) k m1 m2 ∧ s1 ≠ s2) ∧
          set_at s1 m1 (lf_b l) γ ∧ set_at s2 m2 (lf_b l) γ ∧ leaf_in l γ) ∧ F γ)).
Proof.
  intros Hb HF. apply (t_own X ∅ {[lf_b l]} (λ _, X)); [apply _ | by rewrite difference_empty_L | set_solver | set_solver |].
  intros γ Hwf HX [Hs Hl] _. iIntros "Hrep". iDestruct (store_take with "Hrep") as "[Hs Hrep]"; [done |]. iApply awp_wp.
  iApply (oset_split_law with "Hs"); [apply all_splittable |]. iSplit.
  - iIntros "_ Hs". iDestruct (store_give _ _ _ _ _ _ _ _ _ _ (lf_b l) with "Hrep Hs") as "[_ Hrep]". iExists γ.
    rewrite insert_delete_id //. iFrame. iPureIntro. split; [by apply own_step_refl | by left].
  - iIntros (k s1 s2 m1 m2) "%Hsp Hs1 Hs2 Hsp". destruct Hsp as [_ Hsp].
    iDestruct (store_give _ _ _ _ _ _ _ _ s1 m1 (lf_b l) with "Hrep Hs1") as "[%H1 Hrep]".
    iDestruct (store_give _ _ _ _ _ _ _ _ s2 m2 (lf_b l) with "Hrep Hs2") as "[%H2 Hrep]".
    iDestruct (store_drop with "Hrep Hsp") as "Hrep".
    iExists (with_sets (<[s2 := (m2, lf_b l)]> (<[s1 := (m1, lf_b l)]> (delete (lf_s l) γ.(g_sets)))) γ). iSplitR; [|done]. iPureIntro.
    apply lookup_insert_None in H2 as [H2 Hne]. split.
    + apply own_sets; [done | done | set_solver |]. intros s' m' b' Hb' Hs'.
      assert (s' ≠ lf_s l) by (rewrite /set_at in Hs; set_solver).
      assert (delete (lf_s l) γ.(g_sets) !! s' = Some (m', b')) as Hs'' by (by rewrite lookup_delete_ne).
      rewrite lookup_insert_ne; [rewrite lookup_insert_ne //; congruence | congruence].
    + right. exists k, s1, s2, m1, m2. split; [by split_and! |]. rewrite /set_at /=. split_and!; [|by rewrite lookup_insert_eq | done].
      rewrite lookup_insert_ne //. by rewrite lookup_insert_eq.
Qed.

(** The dictionaries of two leaves on the two sides of a key. *)
Lemma leaves_before γ l1 l2 k :
  wf γ → leaf_in l1 γ → leaf_in l2 γ → lf_hi l1 = Some k → lf_lo l2 = Some k →
  dict_before (lf_m l1) (lf_m l2) ∧ lf_m l1 !! invalid_key = None ∧ lf_m l2 !! invalid_key = None.
Proof.
  intros Hwf H1 H2 Hhi Hlo. destruct (leaf_dict m0 γ l1 Hwf H1) as [Hm1 ?]. destruct (leaf_dict m0 γ l2 Hwf H2) as [Hm2 ?].
  split_and!; [|done | done]. intros x y [_ Hx]%Hm1 [Hy _]%Hm2. rewrite Hhi in Hx. rewrite Hlo in Hy. simpl in *. lia.
Qed.

Lemma t_oset_join X l1 l2 k h F :
  lf_b l1 ∈ X → lf_b l2 ∈ X → lf_b l1 ≠ lf_b l2 → h = lf_b l1 ∨ h = lf_b l2 → lf_hi l1 = Some k → lf_lo l2 = Some k →
  Foot X (X ∖ {[lf_b l1; lf_b l2]}) F →
  triple (know X (λ γ, (set_at (lf_s l1) (lf_m l1) (lf_b l1) γ ∧ set_at (lf_s l2) (lf_m l2) (lf_b l2) γ ∧ leaf_in l1 γ ∧ leaf_in l2 γ) ∧ F γ))
    (atomic (oset_join (Some (lf_s l1)) (Some (lf_s l2))))
    (λ r, know X (λ γ, (∃ s, r = Some s ∧ set_at s (lf_m l1 ∪ lf_m l2) h γ ∧ leaf_in l1 γ ∧ leaf_in l2 γ) ∧ F γ)).
Proof.
  intros Hb1 Hb2 Hne Hh Hhi Hlo HF.
  apply (t_own X ∅ {[lf_b l1; lf_b l2]} (λ _, X)); [apply _ | by rewrite difference_empty_L | set_solver | set_solver |].
  intros γ Hwf HX (Hs1 & Hs2 & Hl1 & Hl2) _. destruct (leaves_before γ l1 l2 k) as (Hbef & Hi1 & Hi2); [done.. |]. rewrite /set_at in Hs1, Hs2.
  assert (lf_s l1 ≠ lf_s l2) as Hs12 by congruence.
  assert (delete (lf_s l1) γ.(g_sets) !! lf_s l2 = Some (lf_m l2, lf_b l2)) as Hs2' by (by rewrite lookup_delete_ne).
  iIntros "Hrep". iDestruct (store_take with "Hrep") as "[Hs1 Hrep]"; [exact Hs1 |].
  iDestruct (store_take with "Hrep") as "[Hs2 Hrep]"; [exact Hs2' |].
  iApply awp_wp. iApply (oset_join_law with "Hs1 Hs2"); [done.. |]. iIntros (s) "Hs Hsp1 Hsp2".
  iDestruct (store_give _ _ _ _ _ _ _ _ s (lf_m l1 ∪ lf_m l2) h with "Hrep Hs") as "[%Hs Hrep]".
  iDestruct (store_drop with "Hrep Hsp1") as "Hrep". iDestruct (store_drop with "Hrep Hsp2") as "Hrep".
  iExists (with_sets (<[s := (lf_m l1 ∪ lf_m l2, h)]> (delete (lf_s l2) (delete (lf_s l1) γ.(g_sets)))) γ). iSplitR; [|done]. iPureIntro. split.
  - apply own_sets; [done | done | set_solver |]. intros s' m' b' Hb' Hs'.
    assert (s' ≠ lf_s l1) by (intros ->; rewrite Hs1 in Hs'; set_solver). assert (s' ≠ lf_s l2) by (intros ->; rewrite Hs2 in Hs'; set_solver).
    assert (delete (lf_s l2) (delete (lf_s l1) γ.(g_sets)) !! s' = Some (m', b')) as Hs'' by (by rewrite !lookup_delete_ne).
    rewrite lookup_insert_ne //. congruence.
  - exists s. split; [done |]. split; [|done]. rewrite /set_at /=. by rewrite lookup_insert_eq.
Qed.

(** ** Writing the pointer to a subtree *)

Definition place_write (sd : place) (q : loc) : prog unit :=
  match sd with
  | None => Some this ⇝ CA.root ::= Some q
  | Some (p, true) => Route.setLeft (Some p) (Some q)
  | Some (p, false) => Route.setRight (Some p) (Some q)
  end.

Lemma t_place_write X Y Z X' P Q F sd q Pn :
  Foot X X P → Foot (X ∖ Y) (X ∖ Z) F → Y ⊆ X → Z ⊆ X →
  (∀ γ p dl, wf γ → P γ → sd = Some (p, dl) → ∃ r, γ.(g_nodes) !! p = Some (CaRoute r)) →
  (∀ γ, wf γ → holds_ i X γ → P γ → F γ → ∃ γ', own_step X' Y Z γ γ' ∧ pointed sd q Pn γ γ' ∧ Q γ') →
  triple (know X (λ γ, P γ ∧ F γ)) (place_write sd q) (λ _, know X' (λ γ, Q γ ∧ F γ)).
Proof.
  intros HP HF HY HZ Hnode Hstep. destruct sd as [[p dl]|].
  - assert (triple (know X (λ γ, P γ ∧ F γ)) (atomic (put (Some p) (if dl then Route.left else Route.right) (Some q)))
      (λ _, know X' (λ γ, Q γ ∧ F γ))) as Hput; [|by destruct dl].
    apply (t_own X Y Z (λ _, X')); [done.. |]. intros γ Hwf HX HPγ HFγ.
    destruct (Hnode γ p dl Hwf HPγ eq_refl) as [r Hr]. destruct (Hstep γ Hwf HX HPγ HFγ) as (γ' & Hs & [HN HS _ _ Hroot _] & HQ).
    iIntros "Hrep". iDestruct (store_route with "Hrep") as "[Hr Hclose]"; [done |]. iApply awp_wp. iApply (wp_put with "Hr"). iIntros "Hr".
    iDestruct ("Hclose" with "Hr") as "Hrep". iExists γ'. iSplitR; [done |]. rewrite /CARules.rep HN HS Hroot /=.
    assert (alter (node_child dl q) p γ.(g_nodes) = <[p := CaRoute (fset (if dl then Route.left else Route.right) (Some q) r)]> γ.(g_nodes)) as ->; [|done].
    apply map_eq. intros y. destruct (decide (p = y)) as [->|].
    + by rewrite lookup_alter_eq Hr lookup_insert_eq /=.
    + by rewrite lookup_alter_ne // lookup_insert_ne.
  - apply (t_own X Y Z (λ _, X')); [done.. |]. intros γ Hwf HX HPγ HFγ.
    destruct (Hstep γ Hwf HX HPγ HFγ) as (γ' & Hs & [HN HS _ _ Hroot _] & HQ).
    iIntros "Hrep". iDestruct (store_root with "Hrep") as "[Hr Hclose]". iApply awp_wp. iApply (wp_put with "Hr"). iIntros "Hr".
    iDestruct ("Hclose" with "Hr") as "Hrep". iExists γ'. iSplitR; [done |]. by rewrite /CARules.rep HN HS Hroot /=.
Qed.

Lemma t_replaceChild X P sd old q new Q :
  Foot X X P →
  (∀ γ p dl, wf γ → P γ → sd = Some (p, dl) → ∃ r, γ.(g_nodes) !! p = Some (CaRoute r) ∧ bool_decide (rn_left r = Some old) = dl) →
  triple (know X P) new (λ a, know X (λ γ, a = Some q ∧ P γ)) →
  triple (know X P) (place_write sd q) Q →
  triple (know X P) (CA.replaceChild (Some this) (fst <$> sd) (Some old) new) Q.
Proof.
  intros HP Hside Hnew Hw. destruct sd as [[p dl]|]; simpl; rewrite /CA.replaceChild.
  - rewrite (bool_decide_false (Some p = NULL)); [|done]. eapply t_let.
    { apply (t_look X P (λ a _, bool_decide (a = Some old) = dl)); [done |]. intros γ Hwf _ HPγ.
      destruct (Hside γ p dl Hwf HPγ eq_refl) as (r & Hr & Hdl). iIntros "Hrep".
      iDestruct (store_read_route with "Hrep") as "[Hn Hclose]"; [done |]. iApply (wp_get with "Hn"). iIntros "Hn".
      iSplitR; [done | by iApply "Hclose"]. }
    intros a. apply t_pure. intros ->. destruct dl; (eapply t_val; [exact Hnew | exact Hw]).
  - rewrite (bool_decide_true (NULL = NULL)) //. eapply t_val; [exact Hnew | exact Hw].
Qed.

#[global] Instance foot_leaf_place N K l sd : Foot N K (λ γ, leaf_place γ l sd).
Proof.
  destruct sd as [[p dl]|]; simpl; [|apply foot_const]. apply foot_and; [apply foot_const |].
  apply foot_exists. intros k. apply foot_and; [apply (foot_route_at m0 N K p k) | apply foot_const].
Qed.

Lemma leaf_place_reads γ l p dl :
  wf γ → leaf_in l γ → leaf_place γ l (Some (p, dl)) →
  ∃ r, γ.(g_nodes) !! p = Some (CaRoute r) ∧ bool_decide (rn_left r = Some (lf_b l)) = dl.
Proof.
  intros Hwf Hl (Hpar & k & (r & Hr & Hk & _) & Hside). exists r. split; [done |].
  destruct (leaf_parent m0 γ l p k r Hwf Hl Hpar Hr Hk) as (c & sib & Hleft & Hright & _). destruct dl.
  - destruct (Hleft Hside) as (_ & _ & -> & _). by apply bool_decide_true.
  - destruct (Hright Hside) as (HT & _ & _ & ->). apply bool_decide_false. intros [= Heq].
    pose proof (wf_nodup _ _ Hwf) as Hnd. rewrite HT locs_plug in Hnd. apply NoDup_app in Hnd as (Hnd & _ & _). simpl in Hnd.
    apply NoDup_cons in Hnd as [_ (_ & Hd & _)%NoDup_app]. apply (Hd (cloc sib)); [destruct sib; by left | rewrite Heq; by left].
Qed.

Lemma t_or {A} X P1 P2 (p : prog A) Q :
  triple (know X P1) p Q → triple (know X P2) p Q → triple (know X (λ γ, P1 γ ∨ P2 γ)) p Q.
Proof. intros H1 H2 γ Hwf (HX & Hh & [?|?]); [by apply H1 | by apply H2]. Qed.

(** ** Splitting *)

(** The thread holds the leaf [l] and its node. *)
Definition leaf_node (l : leaf) (st : Z) (v : bool) : ca_node :=
  CaBase (BaseNode true (Some (lf_s l)) true st tid v (lf_par l)).
Definition holds_leaf (l : leaf) (st : Z) (γ : state) : Prop :=
  node_at (lf_b l) (leaf_node l st true) γ ∧ leaf_in l γ ∧ set_at (lf_s l) (lf_m l) (lf_b l) γ.

Lemma holds_leaf_locked l st γ : holds_leaf l st γ → locked_base tid (lf_b l) γ.
Proof. intros (Hn & Hl & Hs). eexists _, st, true, _. split; [exact Hn |]. right. split; [done |]. by exists l. Qed.

Abbreviation t_get_base := (CALock.t_get_base m0 this rm lo hi nt i H G HG).
Abbreviation t_put_base := (CALock.t_put_base m0 this rm lo hi nt i H G HG).
Abbreviation t_fresh_base := (CALock.t_fresh_base m0 this rm lo hi nt i H G HG).
Abbreviation t_fresh_route := (CALock.t_fresh_route m0 this rm lo hi nt i H G HG).
Abbreviation t_setOrderedSet := (CALock.t_setOrderedSet m0 this rm lo hi nt i H G HG).
Abbreviation t_invalidate := (CALock.t_invalidate m0 this rm lo hi nt i H G HG).
Abbreviation t_recmgr := (CAWalk.t_recmgr m0 this rm lo hi nt i H G HG).

Lemma t_reset X l st F :
  lf_b l ∈ X → Foot (X ∖ {[lf_b l]}) X F →
  triple (know X (λ γ, holds_leaf l st γ ∧ F γ)) (Base.resetStatistics (Some (lf_b l))) (λ _, know X (λ γ, locked_base tid (lf_b l) γ ∧ F γ)).
Proof.
  intros Hl HF. apply (t_pre _ (λ γ, node_at (lf_b l) (leaf_node l st true) γ ∧ (leaf_in l γ ∧ set_at (lf_s l) (lf_m l) (lf_b l) γ ∧ F γ)));
    [|intros γ _ _; unfold holds_leaf; tauto].
  eapply t_post; [apply t_put_base; [apply unlocked_stat | done | apply _] |]. intros [] γ (Hn & ? & ? & ?). split; [|done].
  by apply (holds_leaf_locked l 0).
Qed.

(** The three new nodes of a split, before and after they are linked. *)
Definition split_ready (l : leaf) (k : Z) (x b1 s1 b2 s2 : loc) (m1 m2 : gmap Z Z) (sd : place) (γ : state) : Prop :=
  fresh_at x (CaRoute (RouteNode false k (Some b1) (Some b2) false (-1) true)) γ ∧
  fresh_at b1 (CaBase (BaseNode true (Some s1) false 0 (-1) true (Some x))) γ ∧
  fresh_at b2 (CaBase (BaseNode true (Some s2) false 0 (-1) true (Some x))) γ ∧
  set_at s1 m1 b1 γ ∧ set_at s2 m2 b2 γ ∧ leaf_in l γ ∧ leaf_place γ l sd.

Lemma t_link_split l k x b1 s1 b2 s2 m1 m2 sd F :
  split_at (lf_m l) k m1 m2 → NoDup [lf_b l; x; b1; b2] → Foot {[lf_b l]} ∅ F →
  triple (know {[lf_b l; x; b1; b2]} (λ γ, split_ready l k x b1 s1 b2 s2 m1 m2 sd γ ∧ F γ)) (place_write sd x)
    (λ _, know {[lf_b l]} (λ γ, dead (lf_b l) γ ∧ F γ)).
Proof.
  intros Hsp Hnd HF. assert ((lf_b l ≠ x) ∧ (lf_b l ≠ b1) ∧ (lf_b l ≠ b2) ∧ NoDup [x; b1; b2]) as (? & ? & ? & Hnd3).
  { apply NoDup_cons in Hnd as [Hb ?]. rewrite !elem_of_cons in Hb. tauto. }
  apply (t_place_write _ {[x; b1; b2]} {[lf_b l; x; b1; b2]} _ _ _ _ _ _ {[x; b1; b2]}).
  - unfold split_ready. apply _.
  - eapply foot_mono; [exact HF | set_solver..].
  - set_solver.
  - done.
  - intros γ p dl Hwf (_ & _ & _ & _ & _ & Hl & Hpl) ->. destruct (leaf_place_reads γ l p dl Hwf Hl Hpl) as (r & ? & _). by exists r.
  - intros γ Hwf HX ([Hx Hxn] & [Hb1 Hb1n] & [Hb2 Hb2n] & Hs1 & Hs2 & Hl & Hpl) _.
    destruct (step_split m0 γ i l k m1 m2 x b1 s1 0 b2 s2 0 sd Hwf Hl) as (γ' & Hwf' & Hf & Hpt & Hd); try done.
    + apply HX. set_solver.
    + intros y Hy. rewrite !elem_of_cons in Hy. destruct Hy as [->|[->|[->|?%not_elem_of_nil]]]; [..|done];
        (split; [apply HX; set_solver | done]).
    + pose proof Hpt as [HN HS Hown Hnew Hroot Hhist]. exists γ'. split; [split_and!; try done |].
      * intros y. rewrite Hown. destruct (decide (y ∈ _)) as [Hy|Hy]; [set_solver |]. rewrite (HX y). set_solver.
      * intros j y Hj. rewrite Hown. by destruct (decide _).
      * split; [done |]. split; [|done]. eapply frame_pub; [exact Hf |]. apply (tree_pub m0); [done |]. by eapply lf_b_locs.
Qed.

(** The base node has left the tree; it is invalidated and retired. *)
Lemma t_leave X l st F (m : M unit) :
  (∀ Q, rm_shared rm -∗ (rm_shared rm -∗ Q ()) -∗ wp m Q) → lf_b l ∈ X → Foot (X ∖ {[lf_b l]}) X F →
  triple (know X (λ γ, node_at (lf_b l) (leaf_node l st true) γ ∧ dead (lf_b l) γ ∧ F γ)) (Base.invalidate tid (Some (lf_b l));; atomic m)
    (λ _, know X (λ γ, locked_base tid (lf_b l) γ ∧ F γ)).
Proof.
  intros Hm Hl HF. assert (Foot X X F) by (eapply foot_mono; [exact HF | set_solver..]). eapply t_let; [apply t_invalidate; [done | apply _] |]. intros [].
  apply t_manager_last; [done | apply _ |]. intros γ (Hn & Hd & ?). split; [|done].
  eexists _, st, false, _. split; [exact Hn |]. by left.
Qed.

(** Knowledge in another order. *)
Ltac reorder P := apply (CARules.t_pre _ _ _ _ _ _ _ _ _ _ P); [|intros ? ? ?; tauto].

Lemma t_highContentionSplit l st :
  triple (know {[lf_b l]} (holds_leaf l st)) (CA.highContentionSplit tid (Some this) (Some (lf_b l)))
    (λ _, know {[lf_b l]} (locked_base tid (lf_b l))).
Proof.
  set (b := lf_b l). set (Nb := node_at b (leaf_node l st true)).
  eapply t_val; [apply t_get_base; [set_solver | apply _] |]. eapply t_val; [apply t_get_base; [set_solver | apply _] |]. simpl.
  reorder (λ γ, (set_at (lf_s l) (lf_m l) b γ ∧ leaf_in l γ) ∧ Nb γ).
  eapply t_let; [apply t_oset_split; [set_solver | apply _] |]. intros r.
  apply (t_pre _ (λ γ, (r = (invalid_key, NULL, NULL) ∧ holds_leaf l st γ) ∨
    ∃ k s1 s2 m1 m2, (r = (k, Some s1, Some s2) ∧ split_at (lf_m l) k m1 m2 ∧ s1 ≠ s2) ∧
      set_at s1 m1 b γ ∧ set_at s2 m2 b γ ∧ leaf_in l γ ∧ Nb γ)).
  2:{ intros γ _ _ [[(? & ? & ?)|(k & s1 & s2 & m1 & m2 & ? & ? & ? & ?)] ?]; [left; rewrite /holds_leaf; by split_and! | right].
      exists k, s1, s2, m1, m2. tauto. }
  apply t_or.
  { apply t_pure. intros ->. rewrite bool_decide_true //. apply (t_pre _ (λ γ, holds_leaf l st γ ∧ True)); [|done].
    eapply t_post; [apply t_reset; [set_solver | apply _] |]. by intros [] γ [? _]. }
  apply t_ex; intros k. apply t_ex; intros s1. apply t_ex; intros s2. apply t_ex; intros m1. apply t_ex; intros m2.
  apply t_pure. intros (-> & Hsp & Hs12). rewrite (bool_decide_false (Some s1 = NULL)) //.
  eapply t_val; [apply t_recmgr; apply _ |]. simpl.
  eapply t_let; [apply t_allocateBase; apply _ |]. intros a.
  apply (t_pre _ (λ γ, ∃ b1, (a = Some b1 ∧ b1 ∉ ({[b]} : gset loc)) ∧ fresh_at b1 (CaBase Base.constructed) γ ∧
    set_at s1 m1 b γ ∧ set_at s2 m2 b γ ∧ leaf_in l γ ∧ Nb γ)); [|intros γ _ _ [(b1 & ? & ? & ?) ?]; by exists b1].
  apply t_ex; intros b1. apply t_pure. intros [-> Hb1].
  eapply t_let; [apply t_allocateBase; apply _ |]. intros a.
  apply (t_pre _ (λ γ, ∃ b2, (a = Some b2 ∧ b2 ∉ ({[b1]} ∪ {[b]} : gset loc)) ∧ fresh_at b2 (CaBase Base.constructed) γ ∧ fresh_at b1 (CaBase Base.constructed) γ ∧
    set_at s1 m1 b γ ∧ set_at s2 m2 b γ ∧ leaf_in l γ ∧ Nb γ)); [|intros γ _ _ [(b2 & ? & ? & ?) ?]; by exists b2].
  apply t_ex; intros b2. apply t_pure. intros [-> Hb2].
  assert (b ≠ b1 ∧ b ≠ b2 ∧ b1 ≠ b2) as (Hbb1 & Hbb2 & Hb12) by set_solver.
  reorder (λ γ, (fresh_at b1 (CaBase Base.constructed) γ ∧ set_at s1 m1 b γ ∧ (leaf_in l γ ∧ set_at s2 m2 b γ)) ∧
    fresh_at b2 (CaBase Base.constructed) γ ∧ Nb γ).
  eapply t_let; [apply t_setOrderedSet; [set_solver | set_solver | apply _ | | apply _] |].
  { intros γ n' [? ?]. split; [done |]. rewrite /set_at /=. by rewrite lookup_insert_ne. }
  intros []. simpl. reorder (λ γ, (fresh_at b2 (CaBase Base.constructed) γ ∧ set_at s2 m2 b γ ∧ leaf_in l γ) ∧
    fresh_at b1 (CaBase (BaseNode true (Some s1) false 0 (-1) true NULL)) γ ∧ set_at s1 m1 b1 γ ∧ Nb γ).
  eapply t_let; [apply t_setOrderedSet; [set_solver | set_solver | apply _ | done | apply _] |].
  intros []. simpl. eapply t_let; [apply t_allocateRoute; apply _ |]. intros a.
  set (N1 := CaBase (BaseNode true (Some s1) false 0 (-1) true NULL)). set (N2 := CaBase (BaseNode true (Some s2) false 0 (-1) true NULL)).
  apply (t_pre _ (λ γ, ∃ x, (a = Some x ∧ x ∉ ({[b2]} ∪ ({[b1]} ∪ {[b]}) : gset loc)) ∧ fresh_at x (CaRoute Route.constructed) γ ∧
    fresh_at b1 N1 γ ∧ fresh_at b2 N2 γ ∧ set_at s1 m1 b1 γ ∧ set_at s2 m2 b2 γ ∧ leaf_in l γ ∧ Nb γ));
    [|intros γ _ _ [(x & ? & ? & ?) ?]; exists x; tauto].
  apply t_ex; intros x. apply t_pure. intros [-> Hx].
  replace ({[x]} ∪ ({[b2]} ∪ ({[b1]} ∪ {[b]}))) with ({[lf_b l; x; b1; b2]} : gset loc) by set_solver.
  assert (b ≠ x ∧ x ≠ b1 ∧ x ≠ b2) as (Hbx & Hxb1 & Hxb2) by set_solver.
  eapply t_let; [apply t_fresh_route; [by intros ? [] | set_solver | apply _] |]. intros []. simpl.
  eapply t_let; [apply t_fresh_route; [by intros ? [] | set_solver | apply _] |]. intros []. simpl.
  eapply t_let; [apply t_fresh_route; [by intros ? [] | set_solver | apply _] |]. intros []. simpl.
  reorder (λ γ, fresh_at b1 N1 γ ∧ fresh_at x (CaRoute (RouteNode false k (Some b1) (Some b2) false (-1) true)) γ ∧
    fresh_at b2 N2 γ ∧ set_at s1 m1 b1 γ ∧ set_at s2 m2 b2 γ ∧ leaf_in l γ ∧ Nb γ).
  eapply t_let; [apply t_fresh_base; [by intros ? [] | set_solver | apply _] |]. intros []. simpl.
  reorder (λ γ, fresh_at b2 N2 γ ∧ fresh_at b1 (CaBase (BaseNode true (Some s1) false 0 (-1) true (Some x))) γ ∧
    fresh_at x (CaRoute (RouteNode false k (Some b1) (Some b2) false (-1) true)) γ ∧ set_at s1 m1 b1 γ ∧ set_at s2 m2 b2 γ ∧ leaf_in l γ ∧ Nb γ).
  eapply t_let; [apply t_fresh_base; [by intros ? [] | set_solver | apply _] |]. intros []. simpl.
  apply (t_pre _ (λ γ, ∃ sd, split_ready l k x b1 s1 b2 s2 m1 m2 sd γ ∧ Nb γ)).
  2:{ intros γ Hwf _ (? & ? & ? & ? & ? & Hl & ?). destruct (leaf_has_place m0 γ l Hwf Hl) as [sd ?]. exists sd. rewrite /split_ready. tauto. }
  apply t_ex; intros sd. apply (t_pre _ (λ γ, lf_par l = fst <$> sd ∧ split_ready l k x b1 s1 b2 s2 m1 m2 sd γ ∧ Nb γ)).
  2:{ intros γ _ _ [Hr ?]. split; [|done]. destruct Hr as (_ & _ & _ & _ & _ & _ & Hp). destruct sd as [[p dl]|]; simpl in *; tauto. }
  apply t_pure. intros ->. eapply t_let.
  { apply (t_replaceChild _ _ sd _ x); [unfold split_ready; apply _ | | |].
    - intros γ p dl Hwf [(_ & _ & _ & _ & _ & Hl & Hp) _] Hsd. rewrite Hsd in Hp. by apply leaf_place_reads.
    - apply t_ret. intros γ _ (? & ? & ?). split; [done |]. split; [done |]. done.
    - apply t_link_split; [done | | apply _]. clear -Hbb1 Hbb2 Hbx Hb12 Hxb1 Hxb2.
      rewrite !NoDup_cons !elem_of_cons. split_and!; try apply NoDup_nil_2; intuition eauto using not_elem_of_nil; by eapply not_elem_of_nil. }
  intros []. reorder (λ γ, Nb γ ∧ dead b γ ∧ True). eapply t_post; [apply t_leave; [|set_solver | apply _] |].
  - intros Q. apply rm_retireBase_shared.
  - by intros [] γ [? _].
Qed.
End threads.
