(* ===== verification/CAJoin.v ===== *)
(** * CAJoin: joining two base nodes while other threads run

    [lowContentionJoin] of [ca_tree.h] for one thread among others.  The thread
    holds its base node, tries the lock of the neighbour, then locks the parent
    and the grandparent; the parent and the base node leave the tree in one
    write, and a new base node takes the place of the neighbour in another. *)
From S2P Require Import Prelude Memory SepLogic OrderedSet Prog Threads CANode CATree CASpec CAShape CAProtocol CASteps CARules CALock CAWalk CAThreads.
#[local] Open Scope Z_scope.
#[local] Open Scope cpp_scope.

(** ** The two sides

    [dl]: the base node is the left child of its parent. *)
Definition sib_of (dl : bool) : field route_node ptr := if dl then Route.right else Route.left.
Definition sib_dir (dl : bool) : Z → bool := λ _, negb dl.
Definition inner (dl : bool) (l : leaf) : bound := if dl then lf_hi l else lf_lo l.
Definition beside (dl : bool) (k : Z) (lb ln : leaf) : Prop := inner dl lb = Some k ∧ inner (negb dl) ln = Some k.
Definition both (dl : bool) (lb ln : leaf) : gmap Z Z := if dl then lf_m lb ∪ lf_m ln else lf_m ln ∪ lf_m lb.
(** The leaf of the neighbour after the join. *)
Definition joint (dl : bool) (lb ln : leaf) (par : ptr) : leaf :=
  if dl then Leaf (lf_b ln) (lf_s ln) (both dl lb ln) par (lf_lo lb) (lf_hi ln)
  else Leaf (lf_b ln) (lf_s ln) (both dl lb ln) par (lf_lo ln) (lf_hi lb).

(** A search for the neighbour has come to [x]. *)
Definition neighbour (dl : bool) (k : Z) (lb : leaf) (x : loc) (γ : state) : Prop :=
  leaf_in lb γ ∧ inner dl lb = Some k ∧
  reach (if dl then to_left else to_right) (if dl then starts_at k else stops_at k) x γ.

Class SubSet (X Y : gset loc) := sub_set : X ⊆ Y.
#[global] Hint Extern 0 (SubSet _ _) => unfold SubSet; set_solver : typeclass_instances.

Section join.
Context {OS : IOrderedSet} {Laws : OrderedSetLaws OS} {BLaws : BaseSetLaws OS} {Excl : ExclusiveSet OS}.
Context {R : RecordManager} {RLaws : SharedManagerLaws R}.
Context (m0 : gmap Z Z).
Abbreviation wf := (CAProtocol.wf m0).
Abbreviation Foot := (CARules.Foot m0).

#[global] Instance foot_neighbour N K dl k lb x : InSet (lf_b lb) K → Foot N K (neighbour dl k lb x).
Proof. intros Hl. destruct dl; [by apply foot_leftmost | by apply foot_rightmost]. Qed.

Lemma sib_field dl r : fget (sib_of dl) r = child (sib_dir dl) (view (CaRoute r)).
Proof. by destruct dl. Qed.

(** The other child of the parent of a leaf. *)
Lemma sibling γ lb p dl r :
  wf γ → leaf_in lb γ → leaf_place γ lb (Some (p, dl)) → γ.(g_nodes) !! p = Some (CaRoute r) →
  ∃ y, fget (sib_of dl) r = Some y ∧ pub γ y ∧ neighbour dl (rn_key r) lb y γ ∧
    (graph_of γ !! y = Some VBase → ∀ ln, leaf_in ln γ → beside dl (rn_key r) lb ln → y = lf_b ln).
Proof.
  intros Hwf Hl (Hpar & k & (r' & Hr' & <- & Hpn) & Hside) Hr. rewrite Hr in Hr'. injection Hr' as <-.
  destruct (leaf_parent m0 γ lb p _ r Hwf Hl Hpar Hr eq_refl) as (c & sib & Hleft & Hright & _).
  pose proof (wf_twf _ _ Hwf) as Hw. pose proof (wf_rep _ _ Hwf) as Hrep. exists (cloc sib).
  assert (∀ dir, child dir (view (CaRoute r)) = Some (cloc sib) → pub γ (cloc sib)) as Hpub.
  { intros dir. by apply (wf_closed _ _ Hwf p). }
  assert (∀ dir ok l, lf_b l ∈ locs γ.(g_tree) → l ∈ lvs γ.(g_tree) → ok l → pub γ (cloc sib) → walk (graph_of γ) dir (lf_b l) (cloc sib) →
    reach dir ok (cloc sib) γ) as Hreach.
  { intros dir ok l Hloc Hlv Hok Hp Hwalk. split; [done |]. exists (lf_b l).
    split_and!; [done | by eapply trep_base | by apply (tree_pub m0 γ) | right; by exists l]. }
  destruct dl; simpl in Hside.
  - destruct (Hleft Hside) as (HT & _ & _ & Hsib). split; [done |]. specialize (Hpub to_right Hsib). rewrite HT in Hrep, Hw.
    pose proof Hrep as [_ (_ & _ & Hrs)]%trep_plug.
    assert (∀ l, l ∈ leaves (Some p) (Some (rn_key r)) (ctx_iv c).2 sib → l ∈ lvs γ.(g_tree)) as Hsub.
    { intros l Hl'. rewrite HT. apply leaf_sub. simpl. by right. }
    destruct (walk_leftmost (graph_of γ) sib (Some p) (Some (rn_key r)) (ctx_iv c).2 Hrs) as (l & Hls & Hlo & Hiff).
    pose proof (Hsub l Hls) as Hlv. split_and!; [done | |].
    + split; [done |]. split; [done |]. eapply Hreach; [by eapply lf_b_locs | done | done | done |]. apply Hiff; [by eapply trep_base | done].
    + intros Hb ln Hln [_ Hlo2]. destruct sib as [b s m st|x kx t1 t2]; simpl in *; [|destruct Hrs as (Hx & _); congruence].
      set (l1 := Leaf b s m (Some p) (Some (rn_key r)) (ctx_iv c).2). assert (l1 ∈ lvs γ.(g_tree)) as Hl1 by (apply Hsub; by left).
      rewrite /leaf_in HT in Hln. rewrite HT in Hl1. by rewrite -(leaf_lo_unique _ l1 ln _ Hw Hl1 Hln eq_refl Hlo2).
  - destruct (Hright Hside) as (HT & _ & _ & Hsib). split; [done |]. specialize (Hpub to_left Hsib). rewrite HT in Hrep, Hw.
    pose proof Hrep as [_ (_ & Hrs & _)]%trep_plug.
    assert (∀ l, l ∈ leaves (Some p) (ctx_iv c).1 (Some (rn_key r)) sib → l ∈ lvs γ.(g_tree)) as Hsub.
    { intros l Hl'. rewrite HT. apply leaf_sub. simpl. apply elem_of_app. by left. }
    destruct (walk_rightmost (graph_of γ) sib (Some p) (ctx_iv c).1 (Some (rn_key r)) Hrs) as (l & Hls & Hlo & Hiff).
    pose proof (Hsub l Hls) as Hlv. split_and!; [done | |].
    + split; [done |]. split; [done |]. eapply Hreach; [by eapply lf_b_locs | done | done | done |]. apply Hiff; [by eapply trep_base | done].
    + intros Hb ln Hln [_ Hlo2]. destruct sib as [b s m st|x kx t1 t2]; simpl in *; [|destruct Hrs as (Hx & _); congruence].
      set (l1 := Leaf b s m (Some p) (ctx_iv c).1 (Some (rn_key r))). assert (l1 ∈ lvs γ.(g_tree)) as Hl1 by (apply Hsub; by left).
      rewrite /leaf_in HT in Hln. rewrite HT in Hl1. by rewrite -(leaf_hi_unique _ l1 ln _ Hw Hl1 Hln eq_refl Hlo2).
Qed.

(** A neighbour that is locked and valid. *)
Lemma neighbour_leaf γ dl k lb ln :
  wf γ → neighbour dl k lb (lf_b ln) γ → base_at (lf_b ln) γ → leaf_in ln γ → beside dl k lb ln.
Proof.
  intros Hwf (Hlb & Hk & Hr) Hb Hln. split; [done |].
  destruct (reaches_base γ _ _ _ Hb Hr) as [[_ Hd]|(l & Hl & Hlb' & Hok)]; [by apply lf_b_locs in Hln |].
  rewrite (leaves_unique _ (wf_nodup _ _ Hwf) _ _ _ _ _ Hln Hl); [|done]. by destruct dl.
Qed.

(** ** The place of a route node that is held together with its parent *)

Definition parent_in (sd : place) (kg : Z) (γ : state) : Prop :=
  match sd with Some (g, _) => route_in g kg γ | None => True end.
Definition placed (p : loc) (k : Z) (sd : place) (kg : Z) (γ : state) : Prop := route_place γ p k sd ∧ parent_in sd kg γ.

#[global] Instance foot_parent_in N K sd kg : SubSet (place_nodes sd) K → Foot N K (parent_in sd kg).
Proof.
  intros Hsd. destruct sd as [[g dl]|]; [|apply foot_const]. apply (foot_route_in m0 N K g kg). apply Hsd. simpl. set_solver.
Qed.
#[global] Instance foot_placed N K p k sd kg : InSet p K → SubSet (place_nodes sd) K → Foot N K (placed p k sd kg).
Proof.
  intros Hp Hsd fN fK γ γ' Hwf Hwf' HN HK Hf [Hpl Hin].
  assert (parent_in sd kg γ') as Hin' by (by eapply (foot_parent_in N K sd kg Hsd fN fK γ)). split; [|done].
  destruct sd as [[g dl]|]; simpl in *.
  - destruct Hpl as (Hlink & kg' & Hr & Hdl). split; [|exists kg'; split; [|done]; by eapply (foot_route_at m0 N K g kg' fN fK γ)].
    destruct (f_link _ _ _ _ Hf p k _ (HK p Hp) Hlink) as (g2 & Hg2 & [->|(g' & [= <-] & Hd)]); [done |]. by apply routes_locs in Hin'.
  - destruct (f_link _ _ _ _ Hf p k _ (HK p Hp) Hpl) as (g2 & Hg2 & [->|(g' & ? & _)]); done.
Qed.

Lemma route_place_reads γ p k g dl :
  wf γ → route_place γ p k (Some (g, dl)) →
  ∃ r, γ.(g_nodes) !! g = Some (CaRoute r) ∧ bool_decide (rn_left r = Some p) = dl.
Proof.
  intros Hwf Hpl. pose proof Hpl as (Hlink & kg & (r & Hr & <- & _) & _). exists r. split; [done |].
  destruct (link_ctx _ _ _ _ _ Hlink) as (c & l & r' & HT & Hpar).
  pose proof (route_place_hole m0 γ p k l r' c _ Hwf HT Hpl) as Hc.
  pose proof (wf_rep _ _ Hwf) as Hrep. rewrite HT in Hrep. apply trep_plug in Hrep as [Hcr _].
  destruct c as [|[x kx t|t x kx] c]; simpl in *; simplify_eq; destruct Hcr as (Hv & _); rewrite (graph_lookup _ _ _ Hr) in Hv; simpl in Hv; simplify_eq.
  - by apply bool_decide_true.
  - apply bool_decide_false. intros Heq. pose proof (wf_nodup _ _ Hwf) as Hnd. rewrite HT locs_plug in Hnd. apply NoDup_app in Hnd as (Hnd & _ & _).
    simpl in Hnd. apply NoDup_cons in Hnd as [_ (_ & Hd & _)%NoDup_app]. assert (cloc t = p) as <- by congruence.
    apply (Hd (cloc t)); [destruct t; by left | by left].
Qed.

(** The first step of a join, for both sides. *)
Lemma step_join γ i lb ln p r sd y dl :
  wf γ → leaf_in lb γ → leaf_in ln γ → γ.(g_own) !! lf_b lb = Some i → γ.(g_own) !! lf_b ln = Some i → γ.(g_own) !! p = Some i →
  (∀ g, g ∈ place_nodes sd → γ.(g_own) !! g = Some i) → lf_par lb = Some p → γ.(g_nodes) !! p = Some (CaRoute r) →
  route_place γ p (rn_key r) sd → beside dl (rn_key r) lb ln → fget (sib_of dl) r = Some y →
  ∃ γ', joined m0 γ lb ln p sd y (joint dl lb ln (if decide (lf_b ln = y) then fst <$> sd else lf_par ln)) γ'.
Proof.
  intros Hwf Hlb Hln Hob Hon Hop Hog Hpar Hr Hsd [Hk1 Hk2] Hy. destruct dl.
  - by eapply step_join_left.
  - by eapply step_join_right.
Qed.

Lemma route_in_locs γ g kg : wf γ → g ∈ locs γ.(g_tree) → route_at g kg γ → route_in g kg γ.
Proof.
  intros Hwf Hg (r & Hr & <- & _). destruct (locs_cases γ.(g_tree) g NULL None None Hg) as [(l & Hl & <-)|[k' Hk']].
  - apply (trep_base _ _ _ _ _ _ (wf_rep _ _ Hwf)) in Hl. rewrite (graph_lookup _ _ _ Hr) in Hl. done.
  - destruct (trep_route _ _ _ _ (wf_rep _ _ Hwf) Hk') as (? & ? & Hv). rewrite (graph_lookup _ _ _ Hr) in Hv. simpl in Hv. by simplify_eq.
Qed.
End join.

(** ** The steps of a thread *)

Section thread.
Context {OS : IOrderedSet} {Laws : OrderedSetLaws OS} {BLaws : BaseSetLaws OS} {Excl : ExclusiveSet OS}.
Context {R : RecordManager} {RLaws : SharedManagerLaws R}.
Context (m0 : gmap Z Z) (this rm : loc) (lo hi nt : Z).
Context (i : nat) (H : list (set_op * Z)) (G : state → state → Prop).
Context (HG : ∀ γ γ', CAProtocol.wf m0 γ → γ'.(g_hist) = γ.(g_hist) → G γ γ').
Abbreviation wf := (CAProtocol.wf m0).
Abbreviation rep := (CARules.rep this rm lo hi nt).
Abbreviation Foot := (CARules.Foot m0).
Abbreviation triple := (Threads.triple wf rep (gstep m0) blocked G i).
Abbreviation know X P := (CARules.know i X H P).
Abbreviation tid := (Z.of_nat i).
Abbreviation t_pre := (CARules.t_pre m0 this rm lo hi nt i H G).
Abbreviation t_lockGparent := (CAWalk.t_lockGparent m0 this rm lo hi nt i H G HG).
Abbreviation t_route_unlock := (CALock.t_route_unlock m0 this rm lo hi nt i H G HG).
Abbreviation t_place_write := (CAThreads.t_place_write m0 this rm lo hi nt i H G HG).
Abbreviation t_look := (CARules.t_look m0 this rm lo hi nt i H G HG).
Abbreviation t_get_base := (CALock.t_get_base m0 this rm lo hi nt i H G HG).
Abbreviation t_fresh_base := (CALock.t_fresh_base m0 this rm lo hi nt i H G HG).
Abbreviation t_setOrderedSet := (CALock.t_setOrderedSet m0 this rm lo hi nt i H G HG).
Abbreviation t_invalidate := (CALock.t_invalidate m0 this rm lo hi nt i H G HG).
Abbreviation t_unlock := (CALock.t_unlock m0 this rm lo hi nt i H G HG).
Abbreviation t_tryLock := (CALock.t_tryLock m0 this rm lo hi nt i H G HG).
Abbreviation t_isValid := (CALock.t_isValid m0 this rm lo hi nt i H G HG).
Abbreviation t_route_lock := (CALock.t_route_lock m0 this rm lo hi nt i H G HG).
Abbreviation t_route_invalidate := (CALock.t_route_invalidate m0 this rm lo hi nt i H G HG).
Abbreviation t_recmgr := (CAWalk.t_recmgr m0 this rm lo hi nt i H G HG).
Abbreviation t_route_read := (CAWalk.t_route_read m0 this rm lo hi nt i H G HG).
Abbreviation t_leftmost := (CAWalk.t_leftmost m0 this rm lo hi nt i H G HG).
Abbreviation t_rightmost := (CAWalk.t_rightmost m0 this rm lo hi nt i H G HG).
Abbreviation t_manager := (CAThreads.t_manager m0 this rm lo hi nt i H G HG).
Abbreviation t_manager_last := (CAThreads.t_manager_last m0 this rm lo hi nt i H G HG).
Abbreviation t_allocateBase := (CAThreads.t_allocateBase m0 this rm lo hi nt i H G HG).
Abbreviation t_oset_join := (CAThreads.t_oset_join m0 this rm lo hi nt i H G HG).
Abbreviation t_replaceChild := (CAThreads.t_replaceChild m0 this rm lo hi nt i H G HG).
Abbreviation t_reset := (CAThreads.t_reset m0 this rm lo hi nt i H G HG).
Abbreviation holds_leaf := (CAThreads.holds_leaf i).
Abbreviation place_write := (CAThreads.place_write this).
Abbreviation leaf_node := (CAThreads.leaf_node i).
Implicit Types (X Y : gset loc) (F P : state → Prop).

Definition parent_node (sd : place) (kg : Z) (γ : state) : Prop :=
  match sd with
  | Some (g, _) => node_at g (CaRoute (RouteNode false kg NULL NULL true tid true)) γ ∧ route_at g kg γ
  | None => True
  end.
#[global] Instance foot_parent_node N K sd kg : SubSet (place_nodes sd) N → Foot N K (parent_node sd kg).
Proof.
  intros Hsd. destruct sd as [[g dl]|]; [|apply foot_const]. assert (InSet g N) by (apply Hsd; simpl; set_solver).
  apply foot_and; [apply foot_node_at | apply foot_route_at]; done.
Qed.

Lemma t_lock_place fuel X p k F :
  p ∈ X → Foot X X F → (∀ γ, wf γ → F γ → only_route X p γ) →
  triple (know X (λ γ, route_in p k γ ∧ F γ)) (piter fuel (CA.lockGparentStep fuel tid (Some this) (Some p)) NULL)
    (λ g γ, ∃ e : place * Z, know (place_nodes e.1 ∪ X) (λ γ, (g = fst <$> e.1 ∧ place_nodes e.1 ## X) ∧
       placed p k e.1 e.2 γ ∧ parent_node e.1 e.2 γ ∧ F γ) γ).
Proof.
  intros Hp HF Hor. eapply t_conseq; [exact (gstep_wf m0) | by apply t_lockGparent | done |].
  intros [g|] γ; simpl.
  - intros (HX & Hh & Hg & kg & (Hn & Hr & Hst) & Hlink & HFγ). exists (Some (g, k <? kg), kg). simpl. split; [done |]. split; [done |].
    split; [split; [done | set_solver] |]. destruct Hst as [[_ Hin]|[? _]]; [|done].
    split; [split; [|done]; split; [done | by exists kg] |]. done.
  - intros (HX & Hh & Hlink & HFγ). exists (None, 0). simpl. rewrite left_id_L. split; [done |]. split; [done |].
    split; [split; [done | set_solver] |]. done.
Qed.

Lemma t_unlock_place X sd kg F :
  place_nodes sd ## X → Foot X X F →
  triple (know (place_nodes sd ∪ X) (λ γ, (parent_node sd kg γ ∧ parent_in sd kg γ) ∧ F γ))
    (pwhen ((fst <$> sd) != NULL) (Route.unlock tid (fst <$> sd))) (λ _, know X F).
Proof.
  intros Hd HF. destruct sd as [[g dl]|]; simpl in *; rewrite /pwhen /=.
  - assert (({[g]} ∪ X) ∖ {[g]} = X) as HX by set_solver.
    pose proof (t_route_unlock ({[g]} ∪ X) g kg true F) as Hu. rewrite HX in Hu.
    apply (t_pre _ (λ γ, route_locked tid g kg true γ ∧ F γ)).
    + apply Hu; [set_solver | done].
    + intros γ _ _ [((? & ?) & ?) ?]. split; [|done]. split; [done |]. split; [done |]. by left.
  - apply t_ret. intros γ _ (HX & Hh & _ & HFγ). rewrite left_id_L in HX. by split.
Qed.

(** What a thread knows before it moves the sibling [y] up. *)
Definition join_ready (X : gset loc) (dl : bool) (k : Z) (lb ln : leaf) (p : loc) (sd : place) (kg : Z) (y : loc) (γ : state) : Prop :=
  placed p k sd kg γ ∧ leaf_in lb γ ∧ leaf_in ln γ ∧ route_at p k γ ∧
  (child_at p (sib_dir dl) y γ ∧ (graph_of γ !! y ≠ Some VBase ∧ pub γ y ∨ y ∈ X)).
(** And afterwards. *)
Definition moved_up (dl : bool) (lb ln : leaf) (p : loc) (sd : place) (y : loc) (γ : state) : Prop :=
  dead (lf_b lb) γ ∧ (∃ v, child (sib_dir dl) v = Some y ∧ dead_route p v γ) ∧
  leaf_in (joint dl lb ln (if decide (lf_b ln = y) then fst <$> sd else lf_par ln)) γ.

Lemma foot_join_ready X dl k lb ln p sd kg y :
  p ∈ X → lf_b lb ∈ X → lf_b ln ∈ X → place_nodes sd ⊆ X → Foot X X (join_ready X dl k lb ln p sd kg y).
Proof.
  intros Hp Hb Hn Hsd. unfold join_ready. apply foot_and; [apply _ |]. apply foot_and; [apply _ |]. apply foot_and; [apply _ |].
  apply foot_and; [apply _ | by apply foot_child_at_gen].
Qed.

Lemma t_link_join X dl k lb ln p sd kg y F :
  p ∈ X → lf_b lb ∈ X → lf_b ln ∈ X → place_nodes sd ⊆ X → p ∉ place_nodes sd → lf_par lb = Some p → beside dl k lb ln →
  Foot X (X ∖ ({[p; lf_b lb; lf_b ln]} ∪ place_nodes sd)) F →
  triple (know X (λ γ, join_ready X dl k lb ln p sd kg y γ ∧ F γ)) (place_write sd y)
    (λ _, know X (λ γ, (parent_in sd kg γ ∧ moved_up dl lb ln p sd y γ) ∧ F γ)).
Proof.
  intros Hp Hb Hn Hsd Hps Hpar Hbes HF.
  apply (t_place_write X ∅ ({[p; lf_b lb; lf_b ln]} ∪ place_nodes sd) X _ _ _ _ _ ∅);
    [by apply foot_join_ready | by rewrite difference_empty_L | set_solver | set_solver | |].
  - intros γ g dg Hwf ([Hpl _] & _) ->. destruct (route_place_reads m0 γ p k g dg Hwf Hpl) as (r & ? & _). by exists r.
  - intros γ Hwf HX ([Hpl Hin] & Hlb & Hln & (r & Hr & <- & Hpn) & (Hpp & v & Hv & Hc) & _) _.
    rewrite (graph_lookup _ _ _ Hr) in Hv. injection Hv as <-. rewrite -sib_field in Hc.
    destruct (step_join m0 γ i lb ln p r sd y dl) as (γ' & Hwf' & Hf & Hpt & Hdb & Hdp & Hg & Hl); try done; try (apply HX; set_solver).
    { intros g Hg. apply HX. set_solver. }
    pose proof Hpt as [HN HS Hown Hnew Hroot Hhist]. exists γ'. split; [split_and!; try done |].
    + intros z. rewrite Hown. destruct (decide (z ∈ _)); [set_solver | apply HX].
    + intros j z Hj. rewrite Hown. by destruct (decide _).
    + split; [done |]. split; [|split_and!].
      * destruct sd as [[g dg]|]; [|done]. apply (route_in_locs m0); [done | apply Hg; simpl; set_solver |].
        eapply (foot_route_at m0 ∅ ∅ g kg _ _ γ); [done | done | | |exact Hf | by apply (route_in_at m0)]; by intros ??%not_elem_of_empty.
      * split; [|done]. eapply frame_pub; [exact Hf |]. apply (tree_pub m0); [done |]. by eapply lf_b_locs.
      * exists (view (CaRoute r)). split; [by rewrite -sib_field |]. split; [split; [by eapply frame_pub | done] |].
        apply graph_lookup. rewrite HN. destruct sd as [[g dg]|]; simpl; [|done]. rewrite lookup_alter_ne //. simpl in Hps. set_solver.
      * done.
Qed.

(** The new base node [x] takes the place of the leaf [l]. *)
Definition swap_ready (l : leaf) (x js : loc) (sd : place) (γ : state) : Prop :=
  fresh_at x (CaBase (BaseNode true (Some js) false 0 (-1) true (lf_par l))) γ ∧ set_at js (lf_m l) x γ ∧ leaf_in l γ ∧ leaf_place γ l sd.

Lemma t_link_swap X l x js sd F :
  x ∈ X → lf_b l ∈ X → lf_b l ≠ x → Foot (X ∖ {[x]}) (X ∖ {[lf_b l; x]}) F →
  triple (know X (λ γ, swap_ready l x js sd γ ∧ F γ)) (place_write sd x) (λ _, know (X ∖ {[x]}) (λ γ, dead (lf_b l) γ ∧ F γ)).
Proof.
  intros Hx Hl Hne HF. apply (t_place_write X {[x]} {[lf_b l; x]} (X ∖ {[x]}) _ _ _ _ _ {[x]});
    [unfold swap_ready; apply _ | done | set_solver | set_solver | |].
  - intros γ p dl Hwf (_ & _ & Hlf & Hpl) ->. destruct (leaf_place_reads m0 γ l p dl Hwf Hlf Hpl) as (r & ? & _). by exists r.
  - intros γ Hwf HX ([Hxn Hnew] & Hs & Hlf & Hpl) _.
    destruct (step_swap m0 γ i l x js 0 sd Hwf Hlf) as (γ' & Hwf' & Hf & Hpt & Hd); try done; try by apply HX.
    pose proof Hpt as [HN HS Hown Hnew' Hroot Hhist]. exists γ'. split; [split_and!; try done |].
    + intros z. rewrite Hown. destruct (decide (z ∈ _)); [set_solver |]. rewrite (HX z). set_solver.
    + intros j z Hj. rewrite Hown. by destruct (decide _).
    + split; [done |]. split; [|done]. eapply frame_pub; [exact Hf |]. apply (tree_pub m0); [done |]. by eapply lf_b_locs.
Qed.

Lemma joint_members dl lb ln par :
  lf_b (joint dl lb ln par) = lf_b ln ∧ lf_m (joint dl lb ln par) = both dl lb ln ∧ lf_par (joint dl lb ln par) = par.
Proof. by destruct dl. Qed.

(** The end of [replaceJoined], after the locks of the route nodes are free. *)
Definition join_tail (sib : field route_node ptr) (b p n x : loc) (g : ptr) : prog unit :=
  s ← Some p ⇝ sib;
  neighborBaseParent ← (if s == Some n then mret g else Base.getParent (Some n));
  Base.setParent (Some x) neighborBaseParent;;
  CA.replaceChild (Some this) neighborBaseParent (Some n) (mret (Some x));;
  Base.invalidate tid (Some n);;
  Base.unlock tid (Some n);;
  Base.invalidate tid (Some b);;
  atomic (rm_retireBase (Some rm) tid (Some b));;
  atomic (rm_retireBase (Some rm) tid (Some n));;
  atomic (rm_retireRoute (Some rm) tid (Some p)).

Lemma t_read_dead X dl p v y F :
  child (sib_dir dl) v = Some y → Foot X X F →
  triple (know X (λ γ, dead_route p v γ ∧ F γ)) (Some p ⇝ (sib_of dl)) (λ a, know X (λ γ, a = Some y ∧ dead_route p v γ ∧ F γ)).
Proof.
  intros Hv HF. apply t_look; [apply _ |]. intros γ Hwf _ [[_ (n & Hn & ->)%graph_inv] _]. destruct n as [|r]; [done |].
  iIntros "Hrep". iDestruct (store_read_route with "Hrep") as "[Hn Hclose]"; [done |]. iApply (wp_get with "Hn"). iIntros "Hn".
  iSplitR; [by rewrite sib_field Hv | by iApply "Hclose"].
Qed.

(** The last nodes are invalidated and retired. *)
Lemma t_join_retire b sb stb pb n sn stn pn p :
  b ≠ n →
  triple (know ({[n]} ∪ {[b]}) (λ γ, node_at n (CaBase (BaseNode true sn true stn tid true pn)) γ ∧ dead n γ ∧ dead b γ ∧
      node_at b (CaBase (BaseNode true sb true stb tid true pb)) γ))
    (Base.invalidate tid (Some n);; Base.unlock tid (Some n);; Base.invalidate tid (Some b);;
     atomic (rm_retireBase (Some rm) tid (Some b));; atomic (rm_retireBase (Some rm) tid (Some n));; atomic (rm_retireRoute (Some rm) tid (Some p)))
    (λ _, know {[b]} (locked_base tid b)).
Proof.
  intros Hbn. eapply t_let; [apply t_invalidate; [set_solver | apply _] |]. intros []. simpl.
  apply (t_pre _ (λ γ, locked_base tid n γ ∧ dead b γ ∧ node_at b (CaBase (BaseNode true sb true stb tid true pb)) γ)).
  2:{ intros γ _ _ (? & ? & ? & ?). split; [|done]. exists sn, stn, false, pn. split; [done |]. by left. }
  eapply t_let; [apply t_unlock; [set_solver | apply _] |]. intros []. replace (({[n]} ∪ {[b]}) ∖ {[n]}) with ({[b]} : gset loc) by set_solver.
  apply (t_pre _ (λ γ, node_at b (CaBase (BaseNode true sb true stb tid true pb)) γ ∧ dead b γ)); [|tauto].
  eapply t_let; [apply t_invalidate; [set_solver | apply _] |]. intros [].
  apply t_manager; [intros Q; apply rm_retireBase_shared | apply _ |]. apply t_manager; [intros Q; apply rm_retireBase_shared | apply _ |].
  apply t_manager_last; [intros Q; apply rm_retireRoute_shared | apply _ |].
  intros γ [? ?]. exists sb, stb, false, pb. split; [done |]. by left.
Qed.

Lemma t_join_tail dl b sb stb pb l sn stn pn p v g y x js :
  x ≠ b → x ≠ lf_b l → b ≠ lf_b l → child (sib_dir dl) v = Some y → lf_par l = (if decide (lf_b l = y) then g else pn) →
  triple (know ({[x]} ∪ ({[lf_b l]} ∪ {[b]})) (λ γ, dead_route p v γ ∧ dead b γ ∧ leaf_in l γ ∧
      fresh_at x (CaBase (BaseNode true (Some js) false 0 (-1) true NULL)) γ ∧ set_at js (lf_m l) x γ ∧
      node_at b (CaBase (BaseNode true sb true stb tid true pb)) γ ∧ node_at (lf_b l) (CaBase (BaseNode true sn true stn tid true pn)) γ))
    (join_tail (sib_of dl) b p (lf_b l) x g) (λ _, know {[b]} (locked_base tid b)).
Proof.
  intros Hxb Hxn Hbn Hv Hpar. set (n := lf_b l). set (Nb := node_at b _). set (Nn := node_at n _).
  set (fresh q := fresh_at x (CaBase (BaseNode true (Some js) false 0 (-1) true q))).
  eapply t_val; [apply t_read_dead; [done | apply _] |].
  apply (t_pre _ (λ γ, Nn γ ∧ dead b γ ∧ leaf_in l γ ∧ fresh NULL γ ∧ set_at js (lf_m l) x γ ∧ Nb γ)); [|tauto].
  eapply (t_val _ _ _ _ _ _ _ _ _ _ (λ γ, Nn γ ∧ dead b γ ∧ leaf_in l γ ∧ fresh NULL γ ∧ set_at js (lf_m l) x γ ∧ Nb γ) _ (lf_par l)).
  { rewrite Hpar. destruct (decide (lf_b l = y)) as [<-|Hne].
    - rewrite (bool_decide_true (Some (lf_b l) = Some n)) //. apply t_ret. intros γ _ (? & ? & ?). split; [done |]. by split.
    - rewrite (bool_decide_false (Some y = Some n)); [|by intros [= ->]]. apply t_get_base; [set_solver | apply _]. }
  apply (t_pre _ (λ γ, fresh NULL γ ∧ Nn γ ∧ dead b γ ∧ leaf_in l γ ∧ set_at js (lf_m l) x γ ∧ Nb γ)); [|tauto].
  eapply t_let; [apply t_fresh_base; [by intros ? [] | set_solver | apply _] |]. intros []. simpl.
  apply (t_pre _ (λ γ, ∃ sd2, lf_par l = fst <$> sd2 ∧ swap_ready l x js sd2 γ ∧ Nn γ ∧ dead b γ ∧ Nb γ)).
  2:{ intros γ Hwf _ (? & ? & ? & Hl & ? & ?). destruct (leaf_has_place m0 γ l Hwf Hl) as [sd Hsd]. exists sd.
      split; [destruct sd as [[q dq]|]; simpl in *; tauto |]. rewrite /swap_ready. tauto. }
  apply t_ex; intros sd2. apply t_pure; intros Hsd2. rewrite Hsd2. eapply t_let.
  { apply (t_replaceChild _ _ sd2 _ x); [unfold swap_ready; apply _ | | |].
    - intros γ q dq Hwf [(_ & _ & Hl & Hp) _] ->. by apply (leaf_place_reads m0).
    - apply t_ret. intros γ _ (? & ? & ?). split; [done |]. by split.
    - apply t_link_swap; [set_solver | set_solver | done | apply _]. }
  intros []. replace (({[x]} ∪ ({[lf_b l]} ∪ {[b]})) ∖ {[x]}) with ({[lf_b l]} ∪ {[b]} : gset loc) by set_solver.
  apply (t_pre _ (λ γ, Nn γ ∧ dead n γ ∧ dead b γ ∧ Nb γ)); [|tauto]. by apply t_join_retire.
Qed.

(** The part of [replaceJoined] that locks the route nodes and moves the sibling up. *)
Definition join_up (fuel : nat) (sib : field route_node ptr) (b p n x : loc) : prog unit :=
  Route.lock tid (Some p);;
  g ← piter fuel (CA.lockGparentStep fuel tid (Some this) (Some p)) NULL;
  CA.replaceChild (Some this) g (Some p) (Some p ⇝ sib);;
  Route.invalidate tid (Some p);;
  Route.unlock tid (Some p);;
  pwhen (g != NULL) (Route.unlock tid g);;
  join_tail sib b p n x g.

(** What does not change while the locks are taken. *)
Definition join_nodes (dl : bool) (lb ln : leaf) (stb stn : Z) (x js : loc) (γ : state) : Prop :=
  fresh_at x (CaBase (BaseNode true (Some js) false 0 (-1) true NULL)) γ ∧ set_at js (both dl lb ln) x γ ∧
  node_at (lf_b lb) (leaf_node lb stb true) γ ∧ node_at (lf_b ln) (leaf_node ln stn true) γ.
Definition join_leaves (dl : bool) (k : Z) (lb ln : leaf) (p : loc) (γ : state) : Prop :=
  leaf_in lb γ ∧ leaf_in ln γ ∧ leaf_place γ lb (Some (p, dl)) ∧ route_at p k γ.

Lemma join_parent γ dl k lb ln p : wf γ → join_leaves dl k lb ln p γ → route_in p k γ.
Proof.
  intros Hwf (Hl & _ & (Hpar & _) & Hr). apply (route_in_locs m0); [done | | done].
  destruct (leaf_split m0 γ lb Hwf Hl) as (c & HT & Hc & _). rewrite HT locs_plug elem_of_app. right.
  destruct c as [|f c]; simpl in Hc; [congruence |]. assert (floc f = p) as <- by congruence. by left.
Qed.

(** Locks are taken upwards. *)
Lemma join_base γ dl k lb ln stb stn p x js y :
  wf γ → join_leaves dl k lb ln p γ → join_nodes dl lb ln stb stn x js γ → y ∈ ({[x]} ∪ ({[lf_b ln]} ∪ {[lf_b lb]}) : gset loc) →
  graph_of γ !! y = Some VBase.
Proof.
  intros Hwf (Hl & Hln & _) ([Hx _] & _) Hy. rewrite !elem_of_union !elem_of_singleton in Hy. destruct Hy as [-> |[-> | ->]].
  - by rewrite (graph_lookup _ _ _ Hx).
  - by eapply trep_base; [apply Hwf |].
  - by eapply trep_base; [apply Hwf |].
Qed.

Lemma t_read_sib X dl k lb ln p sd kg y F :
  p ∈ X → lf_b lb ∈ X → lf_b ln ∈ X → place_nodes sd ⊆ X → Foot X X F →
  triple (know X (λ γ, join_ready X dl k lb ln p sd kg y γ ∧ F γ)) (Some p ⇝ (sib_of dl))
    (λ a, know X (λ γ, a = Some y ∧ join_ready X dl k lb ln p sd kg y γ ∧ F γ)).
Proof.
  intros. assert (Foot X X (join_ready X dl k lb ln p sd kg y)) by (by apply foot_join_ready). apply t_look; [apply _ |].
  intros γ Hwf _ [(_ & _ & _ & _ & (_ & v & (n & Hn & ->)%graph_inv & Hc) & _) _]. destruct n as [|r]; [done |].
  iIntros "Hrep". iDestruct (store_read_route with "Hrep") as "[Hn Hclose]"; [done |]. iApply (wp_get with "Hn"). iIntros "Hn".
  iSplitR; [by rewrite sib_field | by iApply "Hclose"].
Qed.

(** The sibling moves up. *)
Lemma t_join_move dl k lb ln stb stn p x js sd kg (X := {[x]} ∪ ({[lf_b ln]} ∪ {[lf_b lb]}) : gset loc) :
  x ≠ lf_b lb → x ≠ lf_b ln → lf_b lb ≠ lf_b ln → p ∉ X → place_nodes sd ## {[p]} ∪ X → beside dl k lb ln →
  triple (know (place_nodes sd ∪ ({[p]} ∪ X)) (λ γ, placed p k sd kg γ ∧ join_leaves dl k lb ln p γ ∧
      parent_node sd kg γ ∧ node_at p (CaRoute (RouteNode false k NULL NULL true tid true)) γ ∧ join_nodes dl lb ln stb stn x js γ))
    (CA.replaceChild (Some this) (fst <$> sd) (Some p) (Some p ⇝ (sib_of dl)))
    (λ _, know (place_nodes sd ∪ ({[p]} ∪ X)) (λ γ, ∃ y, (parent_in sd kg γ ∧ moved_up dl lb ln p sd y γ) ∧ route_at p k γ ∧
      parent_node sd kg γ ∧ node_at p (CaRoute (RouteNode false k NULL NULL true tid true)) γ ∧ join_nodes dl lb ln stb stn x js γ)).
Proof.
  intros Hxb Hxn Hbn HpX Hsd Hbes. set (X1 := place_nodes sd ∪ ({[p]} ∪ X)).
  set (F γ := route_at p k γ ∧ parent_node sd kg γ ∧ node_at p (CaRoute (RouteNode false k NULL NULL true tid true)) γ ∧ join_nodes dl lb ln stb stn x js γ).
  assert (Foot X1 {[x]} F) as HF by (unfold F, join_nodes; apply _). assert (Foot X1 X1 F) by (eapply foot_mono; [exact HF | set_solver..]).
  apply (t_pre _ (λ γ, ∃ y, lf_par lb = Some p ∧ join_ready X1 dl k lb ln p sd kg y γ ∧ F γ)).
  2:{ intros γ Hwf _ (Hpl & (Hlb & Hln & Hlp & Hr) & Hn1 & Hn2 & Hn3). pose proof Hr as (r & Hr' & Hk & Hpn).
      destruct (sibling m0 γ lb p dl r Hwf Hlb Hlp Hr') as (y & Hy & Hpub & _ & Hbase). rewrite Hk in Hbase. exists y. split; [apply Hlp |].
      split; [split_and!; try done |].
      - split; [split; [by exists (CaRoute r) | done] |]. exists (view (CaRoute r)). split; [by apply graph_lookup | by rewrite -sib_field].
      - destruct (decide (y = lf_b ln)) as [->|Hne]; [right; set_solver | left]. split; [|done]. intros Hb. by apply Hne, (Hbase Hb ln).
      - by split. }
  apply t_ex; intros y. apply t_pure; intros Hpar.
  assert (Foot X1 X1 (join_ready X1 dl k lb ln p sd kg y)) by (apply foot_join_ready; set_solver).
  apply (t_replaceChild _ _ sd _ y); [apply _ | | |].
  - intros γ g dg Hwf [([Hpl _] & _) _] ->. by apply (route_place_reads m0 γ p k).
  - apply t_read_sib; [set_solver.. | done].
  - eapply t_post; [apply t_link_join; [set_solver | set_solver | set_solver | set_solver | set_solver | done | done |] |].
    + eapply foot_mono; [exact HF | set_solver..].
    + intros [] γ [? ?]. by exists y.
Qed.

(** The locks of the route nodes become free again. *)
Lemma t_join_free dl k lb ln stb stn p x js sd kg y (X := {[x]} ∪ ({[lf_b ln]} ∪ {[lf_b lb]}) : gset loc) :
  x ≠ lf_b lb → x ≠ lf_b ln → lf_b lb ≠ lf_b ln → p ∉ X → place_nodes sd ## {[p]} ∪ X →
  triple (know (place_nodes sd ∪ ({[p]} ∪ X)) (λ γ, (parent_in sd kg γ ∧ moved_up dl lb ln p sd y γ) ∧ route_at p k γ ∧
      parent_node sd kg γ ∧ node_at p (CaRoute (RouteNode false k NULL NULL true tid true)) γ ∧ join_nodes dl lb ln stb stn x js γ))
    (Route.invalidate tid (Some p);; Route.unlock tid (Some p);; pwhen ((fst <$> sd) != NULL) (Route.unlock tid (fst <$> sd));;
     join_tail (sib_of dl) (lf_b lb) p (lf_b ln) x (fst <$> sd))
    (λ _, know {[lf_b lb]} (locked_base tid (lf_b lb))).
Proof.
  intros Hxb Hxn Hbn HpX Hsd. set (par := if decide (lf_b ln = y) then fst <$> sd else lf_par ln). set (l := joint dl lb ln par).
  assert (lf_b l = lf_b ln ∧ lf_m l = both dl lb ln ∧ lf_par l = par) as (Hlb & Hlm & Hlp) by apply joint_members.
  set (Np v := node_at p (CaRoute (RouteNode false k NULL NULL true tid v))).
  set (F v γ := dead_route p v γ ∧ dead (lf_b lb) γ ∧ leaf_in l γ ∧
      fresh_at x (CaBase (BaseNode true (Some js) false 0 (-1) true NULL)) γ ∧ set_at js (lf_m l) x γ ∧
      node_at (lf_b lb) (leaf_node lb stb true) γ ∧ node_at (lf_b l) (leaf_node ln stn true) γ).
  apply (t_pre _ (λ γ, ∃ v, child (sib_dir dl) v = Some y ∧ Np true γ ∧ route_at p k γ ∧ (parent_node sd kg γ ∧ parent_in sd kg γ) ∧ F v γ)).
  2:{ intros γ _ _ ((? & ? & (v & ? & ?) & ?) & ? & ? & ? & ? & ? & ? & ?). exists v. unfold F. rewrite Hlm Hlb. tauto. }
  apply t_ex; intros v. apply t_pure; intros Hv. subst X. rewrite -Hlb in Hxn, Hbn, HpX, Hsd. rewrite -Hlb.
  set (X := {[x]} ∪ ({[lf_b l]} ∪ {[lf_b lb]}) : gset loc). assert (Foot X X (F v)) as HF by (unfold F; apply _).
  assert (∀ Y Z, X ⊆ Y → X ⊆ Z → Foot Y Z (F v)) as HF' by (intros; eapply foot_mono; [exact HF | done..]).
  assert (X ⊆ (place_nodes sd ∪ ({[p]} ∪ X)) ∖ {[p]}) as HX1 by set_solver.
  assert (X ⊆ place_nodes sd ∪ ({[p]} ∪ X)) as HX2 by set_solver.
  pose proof (HF' _ _ HX1 HX2). pose proof (HF' _ _ HX1 HX1). clear HF'.
  eapply t_let; [apply t_route_invalidate; [set_solver | apply _] |]. intros [].
  apply (t_pre _ (λ γ, route_locked tid p k false γ ∧ (parent_node sd kg γ ∧ parent_in sd kg γ) ∧ F v γ)).
  2:{ intros γ _ _ (? & ? & ? & HFγ). split; [|done]. split; [done |]. split; [done |]. right. split; [done |]. by destruct HFγ as [[? _] _]. }
  eapply t_let; [apply t_route_unlock; [set_solver | apply _] |]. intros [].
  replace ((place_nodes sd ∪ ({[p]} ∪ X)) ∖ {[p]}) with (place_nodes sd ∪ X) by set_solver.
  eapply t_let; [apply t_unlock_place; [set_solver | done] |]. intros [].
  apply (t_join_tail dl _ _ _ _ l _ _ _ _ v _ y); [done | done | done | done |]. by rewrite Hlp Hlb.
Qed.

Lemma t_join_up fuel dl k lb ln stb stn p x js (X := {[x]} ∪ ({[lf_b ln]} ∪ {[lf_b lb]}) : gset loc) :
  x ≠ lf_b lb → x ≠ lf_b ln → lf_b lb ≠ lf_b ln → beside dl k lb ln →
  triple (know X (λ γ, join_leaves dl k lb ln p γ ∧ join_nodes dl lb ln stb stn x js γ))
    (join_up fuel (sib_of dl) (lf_b lb) p (lf_b ln) x) (λ _, know {[lf_b lb]} (locked_base tid (lf_b lb))).
Proof.
  intros Hxb Hxn Hbn Hbes. set (Np v := node_at p (CaRoute (RouteNode false k NULL NULL true tid v))).
  set (F γ := join_leaves dl k lb ln p γ ∧ join_nodes dl lb ln stb stn x js γ).
  assert (Foot X X F) as HF by (unfold F, join_leaves, join_nodes; apply _). apply (t_pre _ (λ γ, route_at p k γ ∧ F γ)); [|unfold F, join_leaves; tauto].
  eapply t_let; [apply t_route_lock; [done |] |].
  { intros γ Hwf [Hl Hn] y Hy _. rewrite (rank_base γ y); [|by eapply join_base].
    destruct (routes_links NULL _ _ _ (join_parent _ _ _ _ _ _ Hwf Hl)) as [g Hg]. by destruct (rank_link m0 γ p k g Hwf Hg). }
  intros []. apply t_pure; intros HpX.
  apply (t_pre _ (λ γ, route_in p k γ ∧ Np true γ ∧ F γ)).
  2:{ intros γ Hwf _ (v & (Hn & _ & Hst) & HFγ). pose proof (join_parent _ _ _ _ _ _ Hwf (proj1 HFγ)) as Hin. split; [done |].
      destruct Hst as [[-> _]|[_ [_ Hd]]]; [done |]. by apply routes_locs in Hin. }
  assert (Foot ({[p]} ∪ X) ({[p]} ∪ X) F) by (eapply foot_mono; [exact HF | set_solver..]).
  eapply t_let; [apply t_lock_place; [set_solver | apply _ |] |].
  { intros γ Hwf (_ & Hl & Hn) y Hy Hne. eapply join_base; [done | done | done |]. set_solver. }
  intros g. apply t_exists. intros [sd kg]. simpl. apply t_pure. intros [-> Hsd].
  apply (t_pre _ (λ γ, placed p k sd kg γ ∧ join_leaves dl k lb ln p γ ∧ parent_node sd kg γ ∧ Np true γ ∧ join_nodes dl lb ln stb stn x js γ)); [|unfold F; tauto].
  eapply t_let; [by apply t_join_move |]. intros []. apply t_ex; intros y. by apply t_join_free.
Qed.

Lemma t_replaceJoined fuel dl k lb ln stb stn p js :
  lf_b lb ≠ lf_b ln → beside dl k lb ln →
  triple (know ({[lf_b ln]} ∪ {[lf_b lb]}) (λ γ, join_leaves dl k lb ln p γ ∧ set_at js (both dl lb ln) (lf_b lb) γ ∧
      node_at (lf_b lb) (leaf_node lb stb true) γ ∧ node_at (lf_b ln) (leaf_node ln stn true) γ))
    (CA.replaceJoined fuel (sib_of dl) tid (Some this) (Some (lf_b lb)) (Some p) (Some (lf_b ln)) (Some js))
    (λ _, know {[lf_b lb]} (locked_base tid (lf_b lb))).
Proof.
  intros Hbn Hbes. eapply t_val; [apply t_recmgr; unfold join_leaves; apply _ |].
  eapply t_let; [apply t_allocateBase; unfold join_leaves; apply _ |]. intros a.
  apply (t_pre _ (λ γ, ∃ x, (a = Some x ∧ x ∉ ({[lf_b ln]} ∪ {[lf_b lb]} : gset loc)) ∧ fresh_at x (CaBase Base.constructed) γ ∧
      join_leaves dl k lb ln p γ ∧ set_at js (both dl lb ln) (lf_b lb) γ ∧
      node_at (lf_b lb) (leaf_node lb stb true) γ ∧ node_at (lf_b ln) (leaf_node ln stn true) γ)); [|intros γ _ _ [(x & ? & ? & ?) ?]; by exists x].
  apply t_ex; intros x. apply t_pure. intros [-> Hx]. assert (x ≠ lf_b lb ∧ x ≠ lf_b ln) as [Hxb Hxn] by set_solver.
  apply (t_pre _ (λ γ, (fresh_at x (CaBase Base.constructed) γ ∧ set_at js (both dl lb ln) (lf_b lb) γ ∧ leaf_in lb γ) ∧
    leaf_in ln γ ∧ leaf_place γ lb (Some (p, dl)) ∧ route_at p k γ ∧
    node_at (lf_b lb) (leaf_node lb stb true) γ ∧ node_at (lf_b ln) (leaf_node ln stn true) γ)); [|unfold join_leaves; tauto].
  eapply t_let; [apply t_setOrderedSet; [set_solver | set_solver | apply _ | done | apply _] |]. intros []. simpl.
  eapply t_pre; [by apply (t_join_up fuel dl k lb ln stb stn p x js)|]. unfold join_leaves, join_nodes. simpl. tauto.
Qed.

(** ** [lowContentionJoin] *)

Definition extremeBaseNode (fuel : nat) (dl : bool) (s : ptr) : prog ptr :=
  if dl then CA.leftmostBaseNode fuel s else CA.rightmostBaseNode fuel s.
Lemma t_extreme fuel dl X k lb y F :
  lf_b lb ∈ X → Foot X X F →
  triple (know X (λ γ, neighbour dl k lb y γ ∧ F γ)) (extremeBaseNode fuel dl (Some y))
    (λ a, know X (λ γ, ∃ n, a = Some n ∧ base_at n γ ∧ neighbour dl k lb n γ ∧ F γ)).
Proof. intros Hl HF. destruct dl; [by apply t_leftmost | by apply t_rightmost]. Qed.

Lemma t_both X dl k lb ln F :
  lf_b lb ∈ X → lf_b ln ∈ X → lf_b lb ≠ lf_b ln → beside dl k lb ln → Foot X (X ∖ {[lf_b lb; lf_b ln]}) F →
  triple (know X (λ γ, (set_at (lf_s lb) (lf_m lb) (lf_b lb) γ ∧ set_at (lf_s ln) (lf_m ln) (lf_b ln) γ ∧ leaf_in lb γ ∧ leaf_in ln γ) ∧ F γ))
    (atomic (if dl then oset_join (Some (lf_s lb)) (Some (lf_s ln)) else oset_join (Some (lf_s ln)) (Some (lf_s lb))))
    (λ r, know X (λ γ, ∃ s, r = Some s ∧ set_at s (both dl lb ln) (lf_b lb) γ ∧ leaf_in lb γ ∧ leaf_in ln γ ∧ F γ)).
Proof.
  intros Hb Hn Hne [Hk1 Hk2] HF. destruct dl.
  - eapply t_post; [by apply (t_oset_join X lb ln k (lf_b lb)); auto |]. intros r γ [(s & ? & ? & ? & ?) ?]. by exists s.
  - apply (t_pre _ (λ γ, (set_at (lf_s ln) (lf_m ln) (lf_b ln) γ ∧ set_at (lf_s lb) (lf_m lb) (lf_b lb) γ ∧ leaf_in ln γ ∧ leaf_in lb γ) ∧ F γ)); [|tauto].
    eapply t_post; [apply (t_oset_join X ln lb k (lf_b lb)); auto; eapply foot_mono; [exact HF | set_solver..] |].
    intros r γ [(s & ? & ? & ? & ?) ?]. by exists s.
Qed.

(** One branch of [lowContentionJoin]. *)
Definition join_side (fuel : nat) (dl : bool) (b p : loc) : prog unit :=
  s ← Some p ⇝ (sib_of dl);
  n ← extremeBaseNode fuel dl s;
  locked ← Base.tryLock tid n;
  if negb locked then Base.resetStatistics (Some b)
  else
    v ← Base.isValid tid n;
    if negb v then Base.unlock tid n;; Base.resetStatistics (Some b)
    else
      baseSet ← Base.getOrderedSet (Some b);
      neighborSet ← Base.getOrderedSet n;
      joinedSet ← atomic (if dl then oset_join baseSet neighborSet else oset_join neighborSet baseSet);
      CA.replaceJoined fuel (sib_of dl) tid (Some this) (Some b) (Some p) n joinedSet.

(** The neighbour is locked and in the tree. *)
Lemma t_join_locked fuel dl k lb ln st stn p :
  lf_b lb ≠ lf_b ln → beside dl k lb ln →
  triple (know ({[lf_b ln]} ∪ {[lf_b lb]}) (λ γ, holds_leaf lb st γ ∧ holds_leaf ln stn γ ∧ leaf_place γ lb (Some (p, dl)) ∧ route_at p k γ))
    (baseSet ← Base.getOrderedSet (Some (lf_b lb));
     neighborSet ← Base.getOrderedSet (Some (lf_b ln));
     joinedSet ← atomic (if dl then oset_join baseSet neighborSet else oset_join neighborSet baseSet);
     CA.replaceJoined fuel (sib_of dl) tid (Some this) (Some (lf_b lb)) (Some p) (Some (lf_b ln)) joinedSet)
    (λ _, know {[lf_b lb]} (locked_base tid (lf_b lb))).
Proof.
  intros Hbn Hbes. set (Nb := node_at (lf_b lb) (leaf_node lb st true)). set (Nn := node_at (lf_b ln) (leaf_node ln stn true)).
  set (S γ := set_at (lf_s lb) (lf_m lb) (lf_b lb) γ ∧ set_at (lf_s ln) (lf_m ln) (lf_b ln) γ ∧ leaf_in lb γ ∧ leaf_in ln γ).
  set (E γ := leaf_place γ lb (Some (p, dl)) ∧ route_at p k γ). assert (∀ N K, Foot N K E) by (unfold E; apply _).
  apply (t_pre _ (λ γ, Nb γ ∧ Nn γ ∧ S γ ∧ E γ)); [|unfold holds_leaf, S, E; tauto].
  eapply t_val; [apply t_get_base; [set_solver | unfold S; apply _] |]. simpl.
  apply (t_pre _ (λ γ, Nn γ ∧ Nb γ ∧ S γ ∧ E γ)); [|tauto].
  eapply t_val; [apply t_get_base; [set_solver | unfold S; apply _] |]. simpl.
  apply (t_pre _ (λ γ, S γ ∧ Nn γ ∧ Nb γ ∧ E γ)); [|tauto].
  eapply t_let; [apply (t_both _ dl k); [set_solver | set_solver | done | done | apply _] |]. intros r.
  apply t_ex; intros js. apply t_pure. intros ->. eapply t_pre; [by apply (t_replaceJoined fuel dl k lb ln st stn p js) |].
  unfold E, join_leaves. tauto.
Qed.

Lemma t_join_side fuel dl k lb st p :
  inner dl lb = Some k →
  triple (know {[lf_b lb]} (λ γ, holds_leaf lb st γ ∧ leaf_place γ lb (Some (p, dl)) ∧ route_at p k γ))
    (join_side fuel dl (lf_b lb) p) (λ _, know {[lf_b lb]} (locked_base tid (lf_b lb))).
Proof.
  intros Hk. set (b := lf_b lb). set (E γ := holds_leaf lb st γ ∧ leaf_place γ lb (Some (p, dl)) ∧ route_at p k γ).
  assert (∀ X, b ∈ X → Foot X X E) as HE by (intros X HX; unfold E, CAThreads.holds_leaf; apply _).
  pose proof (HE {[b]} ltac:(set_solver)). apply (t_pre _ (λ γ, route_at p k γ ∧ E γ)); [|unfold E; tauto].
  assert (triple (know {[b]} E) (Base.resetStatistics (Some b)) (λ _, know {[b]} (locked_base tid b))) as Hreset.
  { apply (t_pre _ (λ γ, holds_leaf lb st γ ∧ True)); [|unfold E; tauto].
    eapply t_post; [apply t_reset; [set_solver | apply _] |]. by intros [] γ [? _]. }
  eapply t_let.
  { apply (t_route_read _ p k E (sib_of dl) (λ a γ, ∃ y, a = Some y ∧ neighbour dl k lb y γ)); [done |].
    intros γ r Hwf _ ((_ & Hl & _) & Hpl & _) Hr <-. destruct (sibling m0 γ lb p dl r Hwf Hl Hpl Hr) as (y & ? & _ & ? & _). by exists y. }
  intros s. apply (t_pre _ (λ γ, ∃ y, s = Some y ∧ neighbour dl k lb y γ ∧ E γ)); [|intros γ _ _ [(y & ? & ?) [_ ?]]; by exists y].
  apply t_ex; intros y. apply t_pure; intros ->. eapply t_let; [apply t_extreme; [set_solver | done] |]. intros s.
  apply t_ex; intros n. apply t_pure; intros ->. apply (t_pre _ (λ γ, base_at n γ ∧ (base_at n γ ∧ neighbour dl k lb n γ ∧ E γ))); [|tauto].
  eapply t_let; [apply t_tryLock; apply _ |]. intros [|]; simpl; [|eapply t_pre; [exact Hreset | tauto]].
  apply (t_pre _ (λ γ, (n ∉ ({[b]} : gset loc)) ∧ ∃ sn stn v pn, node_at n (CaBase (BaseNode true sn true stn tid v pn)) γ ∧ standing n sn v pn γ ∧
    base_at n γ ∧ neighbour dl k lb n γ ∧ E γ)); [|intros γ _ _ [[? (sn & stn & v & pn & ? & ?)] ?]; split; [done |]; by exists sn, stn, v, pn].
  apply t_pure; intros Hn. apply t_ex; intros sn; apply t_ex; intros stn; apply t_ex; intros v; apply t_ex; intros pn.
  pose proof (HE ({[n]} ∪ {[b]}) ltac:(set_solver)). eapply t_val; [apply t_isValid; [set_solver | apply _] |]. destruct v; simpl.
  - apply (t_pre _ (λ γ, ∃ ln, (lf_b ln = n ∧ beside dl k lb ln) ∧ holds_leaf lb st γ ∧ holds_leaf ln stn γ ∧ leaf_place γ lb (Some (p, dl)) ∧ route_at p k γ)).
    2:{ intros γ Hwf _ (Hnode & [[? _]|(_ & ln & (<- & -> & ->) & Hln & Hset)] & Hb & Hnb & HEγ); [done |]. exists ln.
        pose proof (neighbour_leaf m0 γ dl k lb ln Hwf Hnb Hb Hln). unfold E, CAThreads.holds_leaf in *. tauto. }
    apply t_ex; intros ln. apply t_pure; intros [<- Hbes]. apply t_join_locked; [set_solver | done].
  - apply (t_pre _ (λ γ, locked_base tid n γ ∧ E γ)); [|intros γ _ _ (? & ? & _ & _ & ?); split; [by exists sn, stn, false, pn | done]].
    pose proof (t_unlock ({[n]} ∪ {[b]}) n E) as Hu. replace (({[n]} ∪ {[b]}) ∖ {[n]}) with ({[b]} : gset loc) in Hu by set_solver.
    eapply t_let; [apply Hu; [set_solver | done] |]. by intros [].
Qed.

Lemma t_lowContentionJoin fuel lb st :
  triple (know {[lf_b lb]} (holds_leaf lb st)) (CA.lowContentionJoin fuel tid (Some this) (Some (lf_b lb)))
    (λ _, know {[lf_b lb]} (locked_base tid (lf_b lb))).
Proof.
  set (b := lf_b lb). assert (Foot {[b]} {[b]} (holds_leaf lb st)) by (unfold CAThreads.holds_leaf; apply _).
  apply (t_pre _ (λ γ, ∃ sd, lf_par lb = fst <$> sd ∧ node_at b (leaf_node lb st true) γ ∧ holds_leaf lb st γ ∧ leaf_place γ lb sd)).
  2:{ intros γ Hwf _ Hh. pose proof Hh as (Hn & Hl & Hs). destruct (leaf_has_place m0 γ lb Hwf Hl) as [sd Hsd]. exists sd. split; [|done].
      destruct sd as [[p dl]|]; simpl in *; tauto. }
  apply t_ex; intros sd. apply t_pure; intros Hsd. eapply t_val; [apply t_get_base; [set_solver | apply _] |]. simpl. rewrite Hsd.
  destruct sd as [[p dl]|]; simpl.
  2:{ apply (t_pre _ (λ γ, holds_leaf lb st γ ∧ True)); [|tauto]. eapply t_post; [apply t_reset; [set_solver | apply _] |]. by intros [] γ [? _]. }
  apply (t_pre _ (λ γ, ∃ k, inner dl lb = Some k ∧ route_at p k γ ∧ holds_leaf lb st γ ∧ leaf_place γ lb (Some (p, dl)))).
  2:{ intros γ _ _ (_ & ? & Hp & k & ? & ?). exists k. split; [by destruct dl |]. split; [done |]. split; [done |]. split; [done | by exists k]. }
  apply t_ex; intros k. apply t_pure; intros Hk. eapply t_let.
  { apply (t_route_read _ p k _ Route.left (λ a _, bool_decide (a = Some b) = dl)); [apply _ |].
    intros γ r Hwf _ [(_ & Hl & _) Hpl] Hr _. destruct (leaf_place_reads m0 γ lb p dl Hwf Hl Hpl) as (r' & Hr' & ?). by simplify_eq. }
  intros a. apply t_pure. intros Ha. rewrite Ha. pose proof (t_join_side fuel dl k lb st p Hk) as Hside.
  apply (t_pre _ (λ γ, holds_leaf lb st γ ∧ leaf_place γ lb (Some (p, dl)) ∧ route_at p k γ)); [|tauto]. by destruct dl.
Qed.
End thread.
