(* ===== verification/CAOps.v ===== *)
(** * CAOps: find, insert and erase while other threads run

    The dictionary operations of [ca_tree.h] for one thread among others.  An
    operation takes effect when its thread, which holds the lock of a valid base
    node, runs it on the ordered set of that node. *)
From S2P Require Import Prelude Memory SepLogic OrderedSet Prog Threads CANode CATree CASpec CAShape CAProtocol CASteps CARules CALock CAWalk CAThreads CAJoin.
#[local] Open Scope Z_scope.
#[local] Open Scope cpp_scope.

Section ops.
Context {OS : IOrderedSet} {Laws : OrderedSetLaws OS} {BLaws : BaseSetLaws OS} {Excl : ExclusiveSet OS}.
Context {R : RecordManager} {RLaws : SharedManagerLaws R}.
Context (m0 : gmap Z Z) (this rm : loc) (lo hi nt : Z).
Context (i : nat) (G : state → state → Prop).
Context (HG : ∀ γ γ', CAProtocol.wf m0 γ → γ'.(g_hist) = γ.(g_hist) → G γ γ').
Abbreviation wf := (CAProtocol.wf m0).
Abbreviation rep := (CARules.rep this rm lo hi nt).
Abbreviation Foot := (CARules.Foot m0).
Abbreviation triple := (Threads.triple wf rep (gstep m0) blocked G i).
Abbreviation know := (CARules.know i).
Abbreviation tid := (Z.of_nat i).
Abbreviation holds_leaf := (CAThreads.holds_leaf i).
Implicit Types (X Y : gset loc) (F P : state → Prop).

(** ** Adaptation *)

Section adapt.
Context (H : list (set_op * Z)).
Abbreviation t_pre := (CARules.t_pre m0 this rm lo hi nt i H G).
Abbreviation t_get_base := (CALock.t_get_base m0 this rm lo hi nt i H G HG).

Lemma t_adaptIfNeeded fuel l st :
  triple (know {[lf_b l]} H (holds_leaf l st)) (CA.adaptIfNeeded fuel tid (Some this) (Some (lf_b l)))
    (λ _, know {[lf_b l]} H (locked_base tid (lf_b l))).
Proof.
  set (b := lf_b l). set (E γ := leaf_in l γ ∧ set_at (lf_s l) (lf_m l) b γ).
  assert (Foot {[b]} {[b]} E) by (unfold E; apply _). rewrite /CA.adaptIfNeeded.
  assert (∀ c : Z → bool, triple (know {[b]} H (λ γ, node_at b (leaf_node i l st true) γ ∧ E γ)) (s ← Some b ⇝ Base.statLockStatistics; mret (c s))
    (λ a, know {[b]} H (λ γ, a = c st ∧ node_at b (leaf_node i l st true) γ ∧ E γ))) as Hread.
  { intros c. eapply t_val; [apply t_get_base; [set_solver | apply _] |]. apply t_ret. intros γ _ (? & ? & ?). split; [done |]. by split. }
  apply (t_pre _ (λ γ, node_at b (leaf_node i l st true) γ ∧ E γ)); [|done].
  eapply t_val; [apply (Hread (λ s, s >? _)) |]. destruct (st >? _); [by apply t_highContentionSplit |].
  eapply t_val; [apply (Hread (λ s, s <? _)) |]. destruct (st <? _); rewrite /pwhen; [by apply t_lowContentionJoin |].
  apply t_ret. intros γ _ (? & ? & Hn). split; [done |]. split; [done |]. by apply (holds_leaf_locked i l st).
Qed.
End adapt.

(** ** The operation on the set *)

Section operation.
Context (H : list (set_op * Z)) (op : set_op).
Context (HGop : ∀ γ γ' r, CAProtocol.wf m0 γ → hist_of i H γ → γ'.(g_hist) = γ.(g_hist) ++ [(i, (op, r))] → G γ γ').
Abbreviation t_pre := (CARules.t_pre m0 this rm lo hi nt i H G).

Lemma of_thread_self (r : Z) : of_thread i [(i, (op, r))] = [(op, r)].
Proof. rewrite /of_thread filter_cons_True //. Qed.

Lemma t_run_op l st :
  has_key (op_key op) l → op_fine op →
  triple (know {[lf_b l]} H (holds_leaf l st)) (atomic (run_op (Some (lf_s l)) op))
    (λ r, know {[lf_b l]} (H ++ [(op, r)]) (λ γ, ∃ l', lf_b l' = lf_b l ∧ holds_leaf l' st γ)).
Proof.
  intros Hkey Hop. apply t_atomic; [apply stable_know; unfold CAThreads.holds_leaf; apply _ |].
  intros γ Hwf (HX & Hh & Hn & Hl & Hs). assert (γ.(g_own) !! lf_b l = Some i) as Hown by (apply HX; set_solver).
  destruct (step_op m0 γ i l op Hwf Hl Hown Hs Hkey Hop) as (γ' & Hwf' & Hf & HN & HO & HW & HS & HT & HH & Hl').
  iIntros "Hrep". iDestruct (store_take with "Hrep") as "[Hset Hrep]"; [done |]. iApply awp_wp.
  iApply (wp_run_op with "Hset"); [destruct op; try done; apply all_valid |]. iIntros "Hset".
  iDestruct (store_give _ _ _ _ _ _ _ _ _ _ (lf_b l) with "Hrep Hset") as "[_ Hrep]". rewrite insert_delete_eq.
  iExists γ'. iSplitR; [|by rewrite /CARules.rep HN HS HT]. iPureIntro. split_and!.
  - eapply (local_gstep m0 i {[lf_b l]} ∅ {[lf_b l]}); [done | done | done | set_solver | done | by rewrite HO | exact HH |]. by repeat constructor.
  - by eapply HGop.
  - split_and!.
    + intros x. rewrite HO. apply HX.
    + rewrite /hist_of HH of_thread_app Hh of_thread_self //.
    + eexists. split; [|split; [|split; [exact Hl' |]]]; [done | |].
      * destruct Hn as (n & Hn & ?). exists n. by rewrite HN.
      * rewrite /set_at HS /=. by rewrite lookup_insert_eq.
Qed.

Abbreviation t_recmgr := (CAWalk.t_recmgr m0 this rm lo hi nt i H G HG).
Abbreviation t_manager := (CAThreads.t_manager m0 this rm lo hi nt i H G HG).
Abbreviation t_getBaseNode := (CAWalk.t_getBaseNode m0 this rm lo hi nt i H G HG).
Abbreviation t_lock := (CALock.t_lock m0 this rm lo hi nt i H G HG).
Abbreviation t_isValid := (CALock.t_isValid m0 this rm lo hi nt i H G HG).
Abbreviation t_get_base := (CALock.t_get_base m0 this rm lo hi nt i H G HG).

(** The end of a turn: the lock is released and the guard ends. *)
Lemma t_turn_end {A} H' b (a : A) :
  triple (know {[b]} H' (locked_base tid b)) (Base.unlock tid (Some b);; atomic (rm_endGuard (Some rm) tid);; mret a)
    (λ a', know ∅ H' (λ _, a' = a)).
Proof.
  apply (CARules.t_pre m0 this rm lo hi nt i H' G _ (λ γ, locked_base tid b γ ∧ True)); [|done].
  pose proof (t_unlock m0 this rm lo hi nt i H' G HG {[b]} b (λ _, True)) as Hu. rewrite difference_diag_L in Hu.
  eapply t_let; [apply Hu; [set_solver | apply _] |]. intros [].
  apply (CAThreads.t_manager m0 this rm lo hi nt i H' G HG); [intros Q; apply rm_endGuard_shared | apply _ |].
  apply t_ret. intros γ _ (? & ? & _). split; [done |]. by split.
Qed.

Definition turn (x : unit + Z) : state → Prop :=
  match x with inl _ => know ∅ H (λ _, True) | inr r => know ∅ (H ++ [(op, r)]) (λ _, True) end.

(** The base node is locked, valid and responsible for the key. *)
Lemma t_turn_valid fuel l st :
  has_key (op_key op) l → op_fine op →
  triple (know {[lf_b l]} H (holds_leaf l st))
    (set ← Base.getOrderedSet (Some (lf_b l));
     result ← atomic (run_op set op);
     CA.adaptIfNeeded fuel tid (Some this) (Some (lf_b l));;
     Base.unlock tid (Some (lf_b l));;
     atomic (rm_endGuard (Some rm) tid);;
     break result) turn.
Proof.
  intros Hkey Hop. apply (t_pre _ (λ γ, node_at (lf_b l) (leaf_node i l st true) γ ∧ leaf_in l γ ∧ set_at (lf_s l) (lf_m l) (lf_b l) γ)); [|done].
  eapply t_val; [apply t_get_base; [set_solver | apply _] |]. simpl. eapply t_let; [by apply (t_run_op l st) |]. intros r. simpl.
  apply t_ex; intros l'. apply t_pure; intros <-. eapply t_let; [apply t_adaptIfNeeded |]. intros [].
  eapply t_conseq; [exact (gstep_wf m0) | apply (t_turn_end (H ++ [(op, r)]) (lf_b l') (inr r : unit + Z)) | done |]. intros a γ (? & ? & ->). by split_and!.
Qed.

Lemma t_operationStep fuel :
  op_fine op →
  triple (know ∅ H (λ _, True)) (CA.operationStep fuel tid (Some this) (op_key op) (λ s, run_op s op) ()) turn.
Proof.
  intros Hop. eapply t_val; [apply t_recmgr; apply _ |]. apply t_manager; [intros Q; apply rm_startGuard_shared | apply _ |].
  eapply t_let; [apply t_getBaseNode; apply _ |]. intros a. apply t_ex; intros b. apply t_pure; intros ->.
  set (W := reach (to_key (op_key op)) (has_key (op_key op)) b).
  apply (t_pre _ (λ γ, base_at b γ ∧ (base_at b γ ∧ W γ))); [|tauto]. assert (Foot {[b]} {[b]} W) by apply foot_search.
  eapply t_let; [apply t_lock; apply foot_and; [apply _ | apply foot_search] |]. intros [].
  apply (t_pre _ (λ γ, ∃ s st v par, node_at b (CaBase (BaseNode true s true st tid v par)) γ ∧ standing b s v par γ ∧ base_at b γ ∧ W γ));
    [|intros γ _ _ [(s & st & v & par & ? & ?) ?]; by exists s, st, v, par].
  apply t_ex; intros s; apply t_ex; intros st; apply t_ex; intros v; apply t_ex; intros par.
  eapply t_val; [apply t_isValid; [set_solver | apply _] |]. destruct v; simpl.
  - apply (t_pre _ (λ γ, ∃ l, (lf_b l = b ∧ has_key (op_key op) l) ∧ holds_leaf l st γ)).
    2:{ intros γ Hwf _ (Hn & [[? _]|(_ & l & (<- & -> & ->) & Hl & Hs)] & Hb & HW); [done |]. exists l. split; [|by split_and!]. split; [done |].
        destruct (reaches_base γ _ _ _ Hb HW) as [[_ Hd]|(l' & Hl' & Hlb & Hk)]; [by apply lf_b_locs in Hl |].
        by rewrite (leaves_unique _ (wf_nodup _ _ Hwf) _ _ _ _ _ Hl Hl'). }
    apply t_ex; intros l. apply t_pure; intros [<- Hk]. by apply t_turn_valid.
  - apply (t_pre _ (locked_base tid b)); [|intros γ _ _ (? & ? & _); by exists s, st, false, par].
    eapply t_conseq; [exact (gstep_wf m0) | apply (t_turn_end H b (inl () : unit + Z)) | done |]. intros a γ (? & ? & ->). by split_and!.
Qed.

Lemma t_operation fuel :
  op_fine op →
  triple (know ∅ H (λ _, True)) (CA.operation fuel tid (Some this) (op_key op) (λ s, run_op s op)) (λ r, know ∅ (H ++ [(op, r)]) (λ _, True)).
Proof.
  intros Hop. apply (t_piter _ _ _ _ (gstep_wf m0) _ _ _ _ (λ _, know ∅ H (λ _, True))). intros [].
  eapply t_conseq; [exact (gstep_wf m0) | by apply t_operationStep | done |]. by intros [[]|r].
Qed.

(** ** The public operations *)

Lemma t_assertKey k :
  lo ≤ k ≤ hi → triple (know ∅ H (λ _, True)) (CA.assertKey (Some this) k) (λ _, know ∅ H (λ _, True)).
Proof.
  intros Hk. eapply t_val; [apply (t_tree m0 this rm lo hi nt i H G HG ∅ _ CA.minKey (λ a _, a = lo)); [apply _ | done] |].
  eapply t_val; [apply (t_tree m0 this rm lo hi nt i H G HG ∅ _ CA.maxKey (λ a _, a = hi)); [apply _ | done] |].
  apply (t_atomic wf rep (gstep m0) blocked); [apply stable_know; apply _ |]. intros γ Hwf Hγ. iIntros "Hrep". iApply awp_wp.
  iApply wp_assert; [|iExists γ; iFrame; iPureIntro; split_and!; [by apply gstep_refl | by apply HG | done]].
  apply andb_true_iff. rewrite Z.geb_leb !Z.leb_le. lia.
Qed.
End operation.
End ops.

(** The code that a thread runs, and the calls that are in range. *)
Definition ca_code {OS : IOrderedSet} {R : RecordManager} (fuel : nat) (this : ptr) (i : nat) (op : set_op) : prog Z :=
  match op with
  | OpFind k => CA.find fuel (Z.of_nat i) this k
  | OpInsert k v => CA.insert fuel (Z.of_nat i) this k v
  | OpErase k => CA.erase fuel (Z.of_nat i) this k
  end.
Definition call_ok (lo hi : Z) (op : set_op) : Prop :=
  match op with
  | OpFind _ => True
  | OpInsert k _ => lo ≤ k ≤ hi ∧ k ≠ invalid_key
  | OpErase k => lo ≤ k ≤ hi
  end.

(** What thread [i] may do to the history while it executes [op]. *)
Definition one_effect (i : nat) (past : list (set_op * Z)) (op : set_op) (γ γ' : state) : Prop :=
  of_thread i γ'.(g_hist) = of_thread i γ.(g_hist) ∨
  (of_thread i γ.(g_hist) = past ∧ ∃ r, of_thread i γ'.(g_hist) = past ++ [(op, r)]).

Lemma t_code {OS} {Laws : OrderedSetLaws OS} {BLaws : BaseSetLaws OS} {Excl : ExclusiveSet OS} {R : RecordManager} {RLaws : SharedManagerLaws R}
    m0 this rm lo hi nt fuel i past op :
  call_ok lo hi op →
  triple (CAProtocol.wf m0) (CARules.rep this rm lo hi nt) (gstep m0) blocked (one_effect i past op) i
    (know i ∅ past (λ _, True)) (ca_code fuel (Some this) i op) (λ r, know i ∅ (past ++ [(op, r)]) (λ _, True)).
Proof.
  intros Hok. assert (∀ γ γ', CAProtocol.wf m0 γ → γ'.(g_hist) = γ.(g_hist) → one_effect i past op γ γ') as HG by (intros γ γ' _ Heq; left; by rewrite Heq).
  assert (∀ γ γ' r, CAProtocol.wf m0 γ → hist_of i past γ → γ'.(g_hist) = γ.(g_hist) ++ [(i, (op, r))] → one_effect i past op γ γ') as HGop.
  { intros γ γ' r _ Hh Heq. right. split; [done |]. exists r. by rewrite Heq of_thread_app Hh of_thread_self. }
  pose proof (t_operation m0 this rm lo hi nt i (one_effect i past op) HG past op HGop fuel) as Hop.
  destruct op as [k|k v|k]; simpl in *.
  - by apply Hop.
  - destruct Hok. eapply t_let; [by apply t_assertKey |]. intros []. by apply Hop.
  - eapply t_let; [by apply t_assertKey |]. intros []. by apply Hop.
Qed.
