(* ===== verification/CAProof.v ===== *)
(** * CAProof: the contention-adapting tree run by one thread at a time

    The operations of [CATree] against the interfaces [OrderedSetLaws],
    [BaseSetLaws] and [RecordManagerLaws]. *)
From S2P Require Import Prelude Memory SepLogic OrderedSet Prog CANode CATree CASpec.
#[local] Open Scope Z_scope.
#[local] Open Scope cpp_scope.

Section proof.
Context {OS : IOrderedSet} {Laws : OrderedSetLaws OS} {BLaws : BaseSetLaws OS}.
Context {R : RecordManager} {RLaws : RecordManagerLaws R}.

(** ** Representation *)

Fixpoint ctree_at (par : ptr) (t : ctree) : hprop :=
  match t with
  | CBase b s m st => b ↦ BaseNode true (Some s) false st (-1) true par ∗ is_set s m
  | CRoute x k l r =>
      x ↦ RouteNode false k (Some (cloc l)) (Some (cloc r)) false (-1) true ∗
      ctree_at (Some x) l ∗ ctree_at (Some x) r
  end%I.

(** A route node of a path with the child [p] in the hole; its mutex state and
    its owner are [lk]. *)
Definition frame_at (lk : bool * Z) (f : cframe) (p : loc) : hprop :=
  match f with
  | CL x k r => x ↦ RouteNode false k (Some p) (Some (cloc r)) lk.1 lk.2 true ∗ ctree_at (Some x) r
  | CR l x k => x ↦ RouteNode false k (Some (cloc l)) (Some p) lk.1 lk.2 true ∗ ctree_at (Some x) l
  end%I.

Abbreviation free_lock := (false, -1).

Fixpoint cpath_at (c : cctx) (p rt : loc) : hprop :=
  match c with
  | [] => <affine> ⌜rt = p⌝
  | f :: c => frame_at free_lock f p ∗ cpath_at c (floc f) rt
  end%I.

(** The path whose innermost node is in lock state [lk]. *)
Definition cpath_lk (lk : bool * Z) (c : cctx) (p rt : loc) : hprop :=
  match c with
  | [] => <affine> ⌜rt = p⌝
  | f :: c => frame_at lk f p ∗ cpath_at c (floc f) rt
  end%I.

Lemma cpath_lk_free c p rt : cpath_lk free_lock c p rt ⊣⊢ cpath_at c p rt.
Proof. by destruct c. Qed.

(** A tree is a path and the subtree in its hole. *)
Lemma ctree_at_plug c t par :
  ctree_at par (cplug c t) ⊣⊢
  cpath_at c (cloc t) (cloc (cplug c t)) ∗ ctree_at (ppar c par) t.
Proof.
  revert t. induction c as [|f c IH]; intros t; simpl.
  - iSplit; [iIntros "$"; done | iIntros "[_ $]"].
  - rewrite IH. assert (cloc (cplug_frame f t) = floc f) as -> by by destruct f.
    assert (ctree_at (ppar c par) (cplug_frame f t) ⊣⊢
      frame_at free_lock f (cloc t) ∗ ctree_at (Some (floc f)) t) as ->.
    { destruct f; simpl; iSplit; [iIntros "($ & $ & $)" | iIntros "[[$ $] $]" |
        iIntros "($ & $ & $)" | iIntros "[[$ $] $]"]. }
    iSplit; [iIntros "($ & $ & $)" | iIntros "[[$ $] $]"].
Qed.

Lemma cpath_app c1 c2 p rt :
  cpath_at (c1 ++ c2) p rt ⊣⊢ ∃ mid, cpath_at c1 p mid ∗ cpath_at c2 mid rt.
Proof.
  revert p. induction c1 as [|f c1 IH]; intros p; simpl.
  - iSplit; [iIntros "H"; iExists p; by iFrame | by iIntros "(%mid & -> & H)"].
  - rewrite IH. iSplit; [iIntros "($ & %mid & $ & $)" | iIntros "(%mid & [$ H1] & H2)"].
    iExists mid. iFrame.
Qed.

Lemma ctree_at_owned par t :
  ctree_at par t ⊢ ∃ n : ca_node, cloc t ↦ n ∗ True.
Proof.
  destruct t; simpl; [iIntros "[H _]" | iIntros "(H & _)"];
    [iExists (CaBase _) | iExists (CaRoute _)]; iFrame "H".
Qed.

Lemma ctree_at_ne par t l o : ctree_at par t -∗ pt l o -∗ ⌜cloc t ≠ l⌝.
Proof.
  iIntros "Ht Hl". iDestruct (ctree_at_owned with "Ht") as (n) "[Hn _]". iIntros (<-).
  iApply (pt_exclusive with "[$Hn $Hl]").
Qed.

Lemma ctree_at_size par t : ctree_at par t ⊢ at_least (csize t).
Proof.
  revert par. induction t as [b s m st|x k l IHl r IHr]; intros par; simpl.
  - iIntros "[Hb _]". by iApply at_least_pt.
  - iIntros "(Hx & Hl & Hr)". rewrite -(at_least_sep 1) -at_least_sep. iSplitL "Hx".
    + by iApply at_least_pt.
    + iSplitL "Hl"; [by iApply IHl | by iApply IHr].
Qed.

(** The dynamic type of a node, read through [CA_Node]. *)
Lemma wp_isBaseNode_base l (o : base_node) Q :
  l ↦ o -∗ (l ↦ o -∗ Q (bn_isBaseNode o)) -∗ wp (run ((Some l) ⇝ isBaseNode)) Q.
Proof.
  iIntros "Hl HQ". iApply wp_run_atomic.
  iApply (wp_get l (CaBase o) isBaseNode with "Hl"). by iIntros "Hl"; iApply "HQ".
Qed.
Lemma wp_isBaseNode_route l (o : route_node) Q :
  l ↦ o -∗ (l ↦ o -∗ Q (rn_isBaseNode o)) -∗ wp (run ((Some l) ⇝ isBaseNode)) Q.
Proof.
  iIntros "Hl HQ". iApply wp_run_atomic.
  iApply (wp_get l (CaRoute o) isBaseNode with "Hl"). by iIntros "Hl"; iApply "HQ".
Qed.

(** Opens the one-line accessors of nodes. *)
Local Ltac accessors :=
  unfold Route.getKey, Route.getLeft, Route.getRight, Route.setKey, Route.setLeft,
    Route.setRight, Base.getParent, Base.setParent, Base.getOrderedSet, Base.setOrderedSet,
    Base.resetStatistics.

(** ** Navigation *)

Lemma wp_getBaseNodeLoop fuel k t c rt top Q :
  (csize t < fuel)%nat →
  cpath_at c (cloc t) rt -∗ ctree_at (ppar c top) t -∗
  (∀ c' t', <affine> ⌜cdescend k t c = (c', t')⌝ -∗ cpath_at c' (cloc t') rt -∗
     ctree_at (ppar c' top) t' -∗ Q (Some (cloc t'))) -∗
  wp (run (piter fuel (CA.getBaseNodeStep k) (Some (cloc t)))) Q.
Proof.
  iIntros (Hfuel) "Hc Ht HQ".
  iInduction t as [b s m st|x k' l IHl r IHr] forall (fuel Hfuel c);
    (destruct fuel as [|fuel]; [lia |]); iApply wp_piter_S; rewrite /CA.getBaseNodeStep; accessors; simpl.
  - iDestruct "Ht" as "[Hb Hs]". iApply wp_run_bind. iApply (wp_isBaseNode_base with "Hb").
    iIntros "Hb". simpl. cwp_step. iApply ("HQ" with "[//] Hc"). iFrame.
  - iDestruct "Ht" as "(Hx & Hl & Hr)". iApply wp_run_bind.
    iApply (wp_isBaseNode_route with "Hx"). iIntros "Hx". simpl. cwp_step. simpl in Hfuel.
    destruct (k <? k'); do 2 cwp_step.
    + iApply ("IHl" $! _ _ (CL x k' r :: c) with "[Hc Hx Hr] Hl HQ"). iFrame.
    + iApply ("IHr" $! _ _ (CR l x k' :: c) with "[Hc Hx Hl] Hr HQ"). iFrame.
  Unshelve. all: simpl in *; lia.
Qed.

Lemma wp_leftmostLoop fuel t c rt top Q :
  (csize t < fuel)%nat →
  cpath_at c (cloc t) rt -∗ ctree_at (ppar c top) t -∗
  (∀ c' t', <affine> ⌜cleftmost t c = (c', t')⌝ -∗ cpath_at c' (cloc t') rt -∗
     ctree_at (ppar c' top) t' -∗ Q (Some (cloc t'))) -∗
  wp (run (piter fuel CA.leftmostStep (Some (cloc t)))) Q.
Proof.
  iIntros (Hfuel) "Hc Ht HQ".
  iInduction t as [b s m st|x k' l IHl r IHr] forall (fuel Hfuel c);
    (destruct fuel as [|fuel]; [lia |]); iApply wp_piter_S; rewrite /CA.leftmostStep; accessors; simpl.
  - iDestruct "Ht" as "[Hb Hs]". iApply wp_run_bind. iApply (wp_isBaseNode_base with "Hb").
    iIntros "Hb". simpl. cwp_step. iApply ("HQ" with "[//] Hc"). iFrame.
  - iDestruct "Ht" as "(Hx & Hl & Hr)". iApply wp_run_bind.
    iApply (wp_isBaseNode_route with "Hx"). iIntros "Hx". simpl. do 2 cwp_step.
    iApply ("IHl" $! _ _ (CL x k' r :: c) with "[Hc Hx Hr] Hl HQ"). iFrame.
  Unshelve. all: simpl in *; lia.
Qed.

Lemma wp_rightmostLoop fuel t c rt top Q :
  (csize t < fuel)%nat →
  cpath_at c (cloc t) rt -∗ ctree_at (ppar c top) t -∗
  (∀ c' t', <affine> ⌜crightmost t c = (c', t')⌝ -∗ cpath_at c' (cloc t') rt -∗
     ctree_at (ppar c' top) t' -∗ Q (Some (cloc t'))) -∗
  wp (run (piter fuel CA.rightmostStep (Some (cloc t)))) Q.
Proof.
  iIntros (Hfuel) "Hc Ht HQ".
  iInduction t as [b s m st|x k' l IHl r IHr] forall (fuel Hfuel c);
    (destruct fuel as [|fuel]; [lia |]); iApply wp_piter_S; rewrite /CA.rightmostStep; accessors; simpl.
  - iDestruct "Ht" as "[Hb Hs]". iApply wp_run_bind. iApply (wp_isBaseNode_base with "Hb").
    iIntros "Hb". simpl. cwp_step. iApply ("HQ" with "[//] Hc"). iFrame.
  - iDestruct "Ht" as "(Hx & Hl & Hr)". iApply wp_run_bind.
    iApply (wp_isBaseNode_route with "Hx"). iIntros "Hx". simpl. do 2 cwp_step.
    iApply ("IHr" $! _ _ (CR l x k' :: c) with "[Hc Hx Hl] Hr HQ"). iFrame.
  Unshelve. all: simpl in *; lia.
Qed.

(** [parentOf] walks down to the node by its key, and meets it by its address. *)
Lemma wp_parentOfLoop fuel c x (o : route_node) rt p k Q :
  (length c < fuel)%nat → in_ctx c k = true →
  cpath_at c x rt -∗ x ↦ o -∗
  (cpath_at c x rt -∗ x ↦ o -∗ Q (ppar c p)) -∗
  wp (run (piter fuel (CA.parentOfStep (Some x) k) (p, Some rt))) Q.
Proof.
  iIntros (Hfuel Hin) "Hc Hx HQ".
  iInduction c as [|f c IH] using rev_ind forall (fuel Hfuel Hin rt p Q);
    (destruct fuel as [|fuel]; [lia |]); iApply wp_piter_S; rewrite /CA.parentOfStep; accessors.
  - iDestruct "Hc" as %->. rewrite bool_decide_true // /=. cwp_step. by iApply ("HQ" with "[//]").
  - iDestruct (cpath_app with "Hc") as (mid) "[Hc (Hf & ->)]".
    rewrite length_app /= in Hfuel. rewrite /in_ctx forallb_app /= andb_true_r in Hin.
    apply andb_true_iff in Hin as [Hin Hf].
    assert (ppar (c ++ [f]) p = ppar c (Some (floc f))) as Hp by by destruct c.
    rewrite Hp.
    iAssert (cpath_at c x mid -∗ x ↦ o -∗ frame_at free_lock f mid -∗
      Q (ppar c (Some (floc f))))%I with "[HQ]" as "HQ".
    { iIntros "Hc Hx Hf". iApply ("HQ" with "[Hc Hf] Hx"). iApply cpath_app. iExists mid.
      iFrame. done. }
    destruct f as [y ky r|l y ky]; iDestruct "Hf" as "[Hy Hs]"; simpl;
      iDestruct (pt_ne with "Hx Hy") as "(%Hne & Hx & Hy)";
      (rewrite bool_decide_false; [|congruence]); simpl in Hf |- *; cwp_step.
    + rewrite Hf. do 2 cwp_step. iApply ("IH" with "[%] [//] Hc Hx"); [lia |].
      iIntros "Hc Hx". iApply ("HQ" with "Hc Hx"). iFrame.
    + assert ((k <? ky) = false) as -> by (apply Z.ltb_ge; by apply Z.leb_le in Hf).
      do 2 cwp_step. iApply ("IH" with "[%] [//] Hc Hx"); [lia |].
      iIntros "Hc Hx". iApply ("HQ" with "Hc Hx"). iFrame.
Qed.

(** ** Locks *)

(** Runs [assert] as an atomic action. *)
Local Ltac cwp_assert :=
  iApply wp_run_bind; iApply wp_run_atomic; iApply wp_assert; [by rewrite ?Z.eqb_refl |]; simpl.

Lemma wp_base_lock tid b s st v par Q :
  -1000 ≤ st ≤ 1250 →
  b ↦ BaseNode true s false st (-1) v par -∗
  (b ↦ BaseNode true s true (st - 1) tid v par -∗ Q ()) -∗
  wp (run (Base.lock tid (Some b))) Q.
Proof.
  iIntros (Hst) "Hb HQ". rewrite /Base.lock. iApply wp_run_bind. iApply wp_run_atomic.
  iApply (wp_mutex_try_lock with "Hb"); [done |]. iIntros "Hb". simpl. cwp_step. cwp_assert.
  do 3 cwp_step. rewrite /Base.STAT_LOCK_SUCCESS_CONTRIB int_small; [|lia]. by iApply "HQ".
Qed.

Lemma wp_base_tryLock tid b s st v par Q :
  b ↦ BaseNode true s false st (-1) v par -∗
  (b ↦ BaseNode true s true st tid v par -∗ Q true) -∗
  wp (run (Base.tryLock tid (Some b))) Q.
Proof.
  iIntros "Hb HQ". rewrite /Base.tryLock. iApply wp_run_bind. iApply wp_run_atomic.
  iApply (wp_mutex_try_lock with "Hb"); [done |]. iIntros "Hb". simpl. cwp_step. cwp_assert.
  do 2 cwp_step. by iApply "HQ".
Qed.

Lemma wp_base_unlock tid b s st v par Q :
  b ↦ BaseNode true s true st tid v par -∗
  (b ↦ BaseNode true s false st (-1) v par -∗ Q ()) -∗
  wp (run (Base.unlock tid (Some b))) Q.
Proof.
  iIntros "Hb HQ". rewrite /Base.unlock. cwp_step. cwp_assert. cwp_step.
  iApply wp_run_atomic. iApply (wp_mutex_unlock with "Hb"). done.
Qed.

Lemma wp_base_isValid tid b s l st v par Q :
  b ↦ BaseNode true s l st tid v par -∗
  (b ↦ BaseNode true s l st tid v par -∗ Q v) -∗ wp (run (Base.isValid tid (Some b))) Q.
Proof.
  iIntros "Hb HQ". rewrite /Base.isValid. cwp_step. cwp_assert. cwp_step. by iApply "HQ".
Qed.

Lemma wp_base_invalidate tid b s l st par Q :
  b ↦ BaseNode true s l st tid true par -∗
  (b ↦ BaseNode true s l st tid false par -∗ Q ()) -∗ wp (run (Base.invalidate tid (Some b))) Q.
Proof.
  iIntros "Hb HQ". rewrite /Base.invalidate. cwp_step. cwp_assert. cwp_step. cwp_assert.
  cwp_step. by iApply "HQ".
Qed.

Lemma wp_route_lock tid x k l r v Q :
  x ↦ RouteNode false k l r false (-1) v -∗
  (x ↦ RouteNode false k l r true tid v -∗ Q ()) -∗ wp (run (Route.lock tid (Some x))) Q.
Proof.
  iIntros "Hx HQ". rewrite /Route.lock. iApply wp_run_bind. iApply wp_run_atomic.
  iApply (wp_mutex_lock with "Hx"); [done |]. iIntros "Hx". simpl. cwp_step. cwp_assert.
  cwp_step. by iApply "HQ".
Qed.

Lemma wp_route_unlock tid x k l r v Q :
  x ↦ RouteNode false k l r true tid v -∗
  (x ↦ RouteNode false k l r false (-1) v -∗ Q ()) -∗ wp (run (Route.unlock tid (Some x))) Q.
Proof.
  iIntros "Hx HQ". rewrite /Route.unlock. cwp_step. cwp_assert. cwp_step.
  iApply wp_run_atomic. iApply (wp_mutex_unlock with "Hx"). done.
Qed.

Lemma wp_route_isValid tid x k l r lk v Q :
  x ↦ RouteNode false k l r lk tid v -∗
  (x ↦ RouteNode false k l r lk tid v -∗ Q v) -∗ wp (run (Route.isValid tid (Some x))) Q.
Proof.
  iIntros "Hx HQ". rewrite /Route.isValid. cwp_step. cwp_assert. cwp_step. by iApply "HQ".
Qed.

Lemma wp_route_invalidate tid x k l r lk Q :
  x ↦ RouteNode false k l r lk tid true -∗
  (x ↦ RouteNode false k l r lk tid false -∗ Q ()) -∗ wp (run (Route.invalidate tid (Some x))) Q.
Proof.
  iIntros "Hx HQ". rewrite /Route.invalidate. cwp_step. cwp_assert. cwp_step. cwp_assert.
  cwp_step. by iApply "HQ".
Qed.

(** ** Paths of the tree object *)

(** The [CATree] object: its bounds, thread count, record manager and root. *)
Abbreviation tree_obj this cfg rt :=
  (this ↦ CaTree cfg.1.1.1 cfg.1.1.2 cfg.1.2 (Some cfg.2) (Some rt))%I.
Implicit Types (cfg : Z * Z * Z * loc).

Definition cctx_at (this : loc) (cfg : Z * Z * Z * loc) (lk : bool * Z) (c : cctx) (p : loc) : hprop :=
  (∃ rt, tree_obj this cfg rt ∗ cpath_lk lk c p rt)%I.
Abbreviation gpar c := (ppar c NULL).

Lemma wp_frame_lock tid f p Q :
  frame_at free_lock f p -∗ (frame_at (true, tid) f p -∗ Q ()) -∗
  wp (run (Route.lock tid (Some (floc f)))) Q.
Proof.
  iIntros "Hf HQ". destruct f; iDestruct "Hf" as "[Hx Hs]"; simpl;
    iApply (wp_route_lock with "Hx"); iIntros "Hx"; iApply "HQ"; iFrame.
Qed.

Lemma wp_frame_unlock tid f p Q :
  frame_at (true, tid) f p -∗ (frame_at free_lock f p -∗ Q ()) -∗
  wp (run (Route.unlock tid (Some (floc f)))) Q.
Proof.
  iIntros "Hf HQ". destruct f; iDestruct "Hf" as "[Hx Hs]"; simpl;
    iApply (wp_route_unlock with "Hx"); iIntros "Hx"; iApply "HQ"; iFrame.
Qed.

Lemma wp_frame_isValid tid f p Q :
  frame_at (true, tid) f p -∗ (frame_at (true, tid) f p -∗ Q true) -∗
  wp (run (Route.isValid tid (Some (floc f)))) Q.
Proof.
  iIntros "Hf HQ". destruct f; iDestruct "Hf" as "[Hx Hs]"; simpl;
    iApply (wp_route_isValid with "Hx"); iIntros "Hx"; iApply "HQ"; iFrame.
Qed.

(** Replacing the pointer in the hole.  [p] is a node of its own, so it is not
    mistaken for the sibling. *)
Lemma wp_ca_replaceChild this cfg lk c p (o : obj) (new : prog ptr) q Q :
  cctx_at this cfg lk c p -∗ pt p o -∗
  (∀ Q', pt p o -∗ (pt p o -∗ Q' (Some q)) -∗ wp (run new) Q') -∗
  (cctx_at this cfg lk c q -∗ pt p o -∗ Q ()) -∗
  wp (run (CA.replaceChild (Some this) (gpar c) (Some p) new)) Q.
Proof.
  iIntros "(%rt & Ht & Hc) Hp Hnew HQ". rewrite /CA.replaceChild. accessors.
  destruct c as [|[x k r|l x k] c]; simpl.
  - iDestruct "Hc" as %->. iApply wp_run_bind. iApply ("Hnew" with "Hp"). iIntros "Hp".
    cwp_step. iApply ("HQ" with "[Ht] Hp"). iExists q. by iFrame.
  - iDestruct "Hc" as "[[Hx Hs] Hc]". cwp_step. rewrite bool_decide_true //.
    iApply wp_run_bind. iApply ("Hnew" with "Hp"). iIntros "Hp". cwp_step.
    iApply ("HQ" with "[-Hp] Hp"). iExists rt. iFrame.
  - iDestruct "Hc" as "[[Hx Hs] Hc]". cwp_step.
    iDestruct (ctree_at_ne with "Hs Hp") as %Hne. rewrite bool_decide_false; [|congruence].
    iApply wp_run_bind. iApply ("Hnew" with "Hp"). iIntros "Hp". cwp_step.
    iApply ("HQ" with "[-Hp] Hp"). iExists rt. iFrame.
Qed.

(** ** Join: unlinking the parent *)

Lemma wp_root_isBaseNode c x (o : route_node) rt Q :
  rn_isBaseNode o = false →
  cpath_at c x rt -∗ x ↦ o -∗ (cpath_at c x rt -∗ x ↦ o -∗ Q false) -∗
  wp (run ((Some rt) ⇝ isBaseNode)) Q.
Proof.
  iIntros (Ho) "Hc Hx HQ". destruct c as [|f c _] using rev_ind.
  - iDestruct "Hc" as %->. iApply (wp_isBaseNode_route with "Hx"). rewrite Ho. iIntros "Hx".
    by iApply ("HQ" with "[//]").
  - iDestruct (cpath_app with "Hc") as (mid) "[Hc (Hf & ->)]".
    iAssert (frame_at free_lock f mid -∗ Q false)%I with "[HQ Hc Hx]" as "HQ".
    { iIntros "Hf". iApply ("HQ" with "[Hc Hf] Hx"). iApply cpath_app. iExists mid. iFrame. done. }
    destruct f; iDestruct "Hf" as "[Hy Hs]"; iApply (wp_isBaseNode_route with "Hy");
      iIntros "Hy"; iApply "HQ"; iFrame.
Qed.

Lemma wp_parentOf fuel this cfg c x (o : route_node) Q :
  (length c < fuel)%nat → rn_isBaseNode o = false → in_ctx c (rn_key o) = true →
  cctx_at this cfg free_lock c x -∗ x ↦ o -∗
  (cctx_at this cfg free_lock c x -∗ x ↦ o -∗ Q (gpar c)) -∗
  wp (run (CA.parentOf fuel (Some this) (Some x))) Q.
Proof.
  iIntros (Hfuel Ho Hin) "(%rt & Ht & Hc) Hx HQ". rewrite cpath_lk_free /CA.parentOf. accessors.
  cwp_step. iApply wp_run_bind. iApply (wp_root_isBaseNode with "Hc Hx"); [done |].
  iIntros "Hc Hx". cwp_assert. do 2 cwp_step.
  iApply (wp_parentOfLoop with "Hc Hx"); [done.. |]. iIntros "Hc Hx".
  iApply ("HQ" with "[Ht Hc] Hx"). iExists rt. rewrite cpath_lk_free. iFrame.
Qed.

(** In a run without interruption the first grandparent found is valid. *)
Lemma wp_lockGparent fuel tid this cfg c x (o : route_node) Q :
  (length c < fuel)%nat → rn_isBaseNode o = false → in_ctx c (rn_key o) = true →
  cctx_at this cfg free_lock c x -∗ x ↦ o -∗
  (cctx_at this cfg (true, tid) c x -∗ x ↦ o -∗ Q (gpar c)) -∗
  wp (run (piter fuel (CA.lockGparentStep fuel tid (Some this) (Some x)) NULL)) Q.
Proof.
  iIntros (Hfuel Ho Hin) "Hc Hx HQ". destruct fuel as [|fuel]; [lia |].
  iApply wp_piter_S. rewrite /CA.lockGparentStep /pwhen /=. cwp_step.
  iApply wp_run_bind. iApply (wp_parentOf with "Hc Hx"); [done.. |]. iIntros "Hc Hx".
  destruct c as [|f c]; simpl.
  - do 2 cwp_step. iApply ("HQ" with "Hc Hx").
  - iDestruct "Hc" as (rt) "[Ht [Hf Hc]]". iApply wp_run_bind.
    iApply (wp_frame_lock with "Hf"). iIntros "Hf".
    iApply wp_run_bind. iApply (wp_frame_isValid with "Hf"). iIntros "Hf". simpl. cwp_step.
    iApply ("HQ" with "[-Hx] Hx"). iExists rt. iFrame.
Qed.

Lemma wp_unlockGparent tid this cfg c p Q :
  cctx_at this cfg (true, tid) c p -∗ (cctx_at this cfg free_lock c p -∗ Q ()) -∗
  wp (run (pwhen (gpar c != NULL) (Route.unlock tid (gpar c)))) Q.
Proof.
  iIntros "(%rt & Ht & Hc) HQ". rewrite /pwhen. destruct c as [|f c]; simpl.
  - cwp_step. iApply "HQ". iExists rt. iFrame.
  - iDestruct "Hc" as "[Hf Hc]". iApply (wp_frame_unlock with "Hf"). iIntros "Hf".
    iApply "HQ". iExists rt. iFrame.
Qed.

Lemma cctx_at_app this cfg d c p mid :
  cctx_at this cfg free_lock c mid -∗ cpath_at d p mid -∗ cctx_at this cfg free_lock (d ++ c) p.
Proof.
  iIntros "(%rt & Ht & Hc) Hd". iExists rt. iFrame. rewrite !cpath_lk_free. iApply cpath_app.
  iExists mid. iFrame.
Qed.

Lemma ppar_app d c : ppar (d ++ c) NULL = ppar d (gpar c).
Proof. by destruct d. Qed.

(** A base node whose set has been emptied can be destroyed. *)
Lemma destroyable_base b s l st o v par :
  b ↦ BaseNode true (Some s) l st o v par -∗ spent s -∗ destroyable (RBase b).
Proof.
  iIntros "Hb Hs". simpl. rewrite /Base.destroy. wp_step. iApply wp_bind.
  iApply (oset_delete_spent with "Hs"). by wp_step.
Qed.
Lemma destroyable_route x (o : route_node) : x ↦ o ⊢ destroyable (RRoute x).
Proof. iIntros "Hx". simpl. rewrite /Route.destroy. by wp_step. Qed.

Lemma cpath_neighbor_eq d n (o : base_node) mid :
  cpath_at d n mid -∗ n ↦ o -∗ ⌜bool_decide (Some mid = Some n) = match d with [] => true | _ => false end⌝.
Proof.
  iIntros "Hd Hn". destruct d as [|f d _] using rev_ind.
  - iDestruct "Hd" as %->. iPureIntro. by apply bool_decide_eq_true.
  - iDestruct (cpath_app with "Hd") as (m') "[_ (Hf & ->)]".
    assert (∃ f' d', d ++ [f] = f' :: d') as (f' & d' & ->) by (destruct d; by eexists _, _).
    iAssert (⌜floc f ≠ n⌝)%I as %Hne.
    { destruct f; iDestruct "Hf" as "[Hy _]"; iIntros (<-); iApply (pt_exclusive with "[$Hn $Hy]"). }
    iPureIntro. apply bool_decide_eq_false. congruence.
Qed.

(** The second half of a join: the parent [x] leaves the path [c], the sibling
    subtree, focused on the neighbour [n] by the path [d], moves up, and a new
    base node takes the place of [n]. *)
Lemma wp_replaceJoined fuel sib tid this cfg c d x k pl pr mid b n s st sn stn js mj L Q :
  (∀ m ow v, fget sib (RouteNode false k pl pr m ow v) = Some mid) →
  (length c < fuel)%nat → in_ctx c k = true →
  cctx_at this cfg free_lock c x -∗ x ↦ RouteNode false k pl pr false (-1) true -∗
  cpath_at d n mid -∗
  b ↦ BaseNode true (Some s) true st tid true (Some x) -∗
  n ↦ BaseNode true (Some sn) true stn tid true (ppar d (Some x)) -∗ spent sn -∗
  is_set js mj -∗ rm_busy cfg.2 L -∗
  (∀ nb, cctx_at this cfg free_lock (d ++ c) nb -∗
     ctree_at (gpar (d ++ c)) (CBase nb js mj 0) -∗
     rm_busy cfg.2 (RRoute x :: RBase n :: RBase b :: L) -∗
     destroyable (RRoute x) -∗ destroyable (RBase n) -∗
     b ↦ BaseNode true (Some s) true st tid false (Some x) -∗ Q ()) -∗
  wp (run (CA.replaceJoined fuel sib tid (Some this) (Some b) (Some x) (Some n) (Some js))) Q.
Proof.
  iIntros (Hsib Hfuel Hin) "Hc Hx Hd Hb Hn Hsn Hj Hrm HQ". rewrite /CA.replaceJoined. accessors.
  iDestruct "Hc" as (rt) "[Ht Hc]". cwp_step.
  iApply wp_run_bind. iApply wp_run_atomic. iApply (rm_allocateBase_law with "Hrm").
  iIntros (nb) "Hrm Hnb". cwp_step.
  iApply wp_run_bind. iApply (wp_route_lock with "Hx"). iIntros "Hx".
  iApply wp_run_bind. iApply (wp_lockGparent with "[Ht Hc] Hx"); [done.. | by iExists rt; iFrame |].
  iIntros "Hc Hx". iApply wp_run_bind.
  iApply (wp_ca_replaceChild _ _ _ _ _ _ _ mid with "Hc Hx").
  { iIntros (Q') "Hx HQ". cwp_step. rewrite Hsib. by iApply "HQ". }
  iIntros "Hc Hx". iApply wp_run_bind. iApply (wp_route_invalidate with "Hx"). iIntros "Hx".
  iApply wp_run_bind. iApply (wp_route_unlock with "Hx"). iIntros "Hx".
  iApply wp_run_bind. iApply (wp_unlockGparent with "Hc"). iIntros "Hc". cwp_step. rewrite Hsib.
  iDestruct (cpath_neighbor_eq with "Hd Hn") as %->.
  iDestruct (cctx_at_app with "Hc Hd") as "Hc".
  iApply wp_run_bind.
  iAssert (wp (run (if match d with [] => true | _ => false end then mret (gpar c)
                    else (Some n) ⇝ Base.parent))
    (λ r, <affine> ⌜r = gpar (d ++ c)⌝ ∗
       n ↦ BaseNode true (Some sn) true stn tid true (ppar d (Some x))))%I with "[Hn]" as "Hpar".
  { destruct d; cwp_step; by iFrame. }
  iApply (wp_wand with "Hpar"). iIntros (p') "[-> Hn]". cwp_step.
  iApply wp_run_bind. iApply (wp_ca_replaceChild _ _ _ _ _ _ _ nb with "Hc Hn").
  { iIntros (Q') "Hn HQ". cwp_step. by iApply "HQ". }
  iIntros "Hc Hn". iApply wp_run_bind. iApply (wp_base_invalidate with "Hn"). iIntros "Hn".
  iApply wp_run_bind. iApply (wp_base_unlock with "Hn"). iIntros "Hn".
  iApply wp_run_bind. iApply (wp_base_invalidate with "Hb"). iIntros "Hb".
  iApply wp_run_bind. iApply wp_run_atomic. iApply (rm_retireBase_law with "Hrm"). iIntros "Hrm".
  iApply wp_run_bind. iApply wp_run_atomic. iApply (rm_retireBase_law with "Hrm"). iIntros "Hrm".
  iApply wp_run_atomic. iApply (rm_retireRoute_law with "Hrm"). iIntros "Hrm".
  iApply ("HQ" with "Hc [Hnb Hj] Hrm [Hx] [Hn Hsn] Hb"); [iFrame | by iApply destroyable_route |].
  iApply (destroyable_base with "Hn Hsn").
Qed.

(** ** Adaptation *)

(** The tree with the dictionary [m], without the record manager. *)
Definition ca_body (this : loc) cfg (m : gmap Z Z) : hprop :=
  (∃ t, <affine> ⌜cwf t ∧ ca_dict t m⌝ ∗ tree_obj this cfg (cloc t) ∗ ctree_at NULL t)%I.

Lemma ca_body_plug this cfg c t m :
  cwf (cplug c t) → ca_dict (cplug c t) m →
  cctx_at this cfg free_lock c (cloc t) -∗ ctree_at (gpar c) t -∗ ca_body this cfg m.
Proof.
  iIntros (Hwf Hd) "(%rt & Hthis & Hc) Ht". rewrite cpath_lk_free. iExists (cplug c t).
  iSplit; [done |].
  iAssert (⌜rt = cloc (cplug c t)⌝)%I as %->.
  { iClear "Hthis Ht". clear. iInduction c as [|f c IH] forall (t); simpl.
    - by iDestruct "Hc" as %->.
    - iDestruct "Hc" as "[_ Hc]". assert (floc f = cloc (cplug_frame f t)) as -> by by destruct f.
      iApply ("IH" with "Hc"). }
  iFrame. iApply ctree_at_plug. iFrame.
Qed.

(** The state in which an operation, holding the lock of the base node [b], has
    changed its set and is about to adapt. *)
Definition held (this : loc) cfg (tid : Z) (c : cctx) (b s : loc) (mb : gmap Z Z) (st : Z) : hprop :=
  (cctx_at this cfg free_lock c b ∗ b ↦ BaseNode true (Some s) true st tid true (gpar c) ∗
   is_set s mb ∗ rm_busy cfg.2 [])%I.

(** What adaptation leaves: the lock of [b] is still held; once it is released,
    the tree stands for [m], and the retired nodes can be destroyed. *)
Definition adapted (this : loc) cfg (tid : Z) (b : loc) (m : gmap Z Z) : hprop :=
  (∃ s st v par L, b ↦ BaseNode true s true st tid v par ∗ rm_busy cfg.2 L ∗
    (b ↦ BaseNode true s false st (-1) v par -∗
       ca_body this cfg m ∗ [∗ list] n ∈ L, destroyable n))%I.

Lemma adapted_keep this cfg tid c b s mb st m :
  -1000 ≤ st ≤ 1250 →
  cwf (cplug c (CBase b s mb 0)) → ca_dict (cplug c (CBase b s mb 0)) m →
  held this cfg tid c b s mb st -∗ adapted this cfg tid b m.
Proof.
  iIntros (Hst Hwf Hd) "(Hc & Hb & Hs & Hrm)". iExists (Some s), st, true, (gpar c), [].
  iFrame "Hb Hrm". iIntros "Hb". iSplitL; [|done].
  iApply (ca_body_plug _ _ c (CBase b s mb st) with "Hc [Hb Hs]"); [| |iFrame].
  - apply cwf_plug in Hwf as (Hc & [Hinv _] & Hin). apply cwf_plug. by split_and!.
  - intros z. rewrite -Hd !clookup_plug. done.
Qed.

Lemma wp_reset this cfg tid c b s mb st m Q :
  cwf (cplug c (CBase b s mb 0)) → ca_dict (cplug c (CBase b s mb 0)) m →
  held this cfg tid c b s mb st -∗ (adapted this cfg tid b m -∗ Q ()) -∗
  wp (run (Base.resetStatistics (Some b))) Q.
Proof.
  iIntros (Hwf Hd) "(Hc & Hb & Hs & Hrm) HQ". accessors. cwp_step. iApply "HQ".
  iApply (adapted_keep _ _ _ c _ s mb 0); [lia | done | done |]. iFrame.
Qed.

(** The base node [b] and its parent leave the tree. *)
Lemma adapted_replaced this cfg tid c d b s st par x n nb js mj m :
  cwf (cplug (d ++ c) (CBase nb js mj 0)) → ca_dict (cplug (d ++ c) (CBase nb js mj 0)) m →
  cctx_at this cfg free_lock (d ++ c) nb -∗ ctree_at (gpar (d ++ c)) (CBase nb js mj 0) -∗
  rm_busy cfg.2 [RRoute x; RBase n; RBase b] -∗
  destroyable (RRoute x) -∗ destroyable (RBase n) -∗
  b ↦ BaseNode true (Some s) true st tid false par -∗ spent s -∗ adapted this cfg tid b m.
Proof.
  iIntros (Hwf Hd) "Hc Ht Hrm Hdx Hdn Hb Hs". iExists (Some s), st, false, par, _.
  iFrame "Hb Hrm". iIntros "Hb". iSplitL "Hc Ht".
  - by iApply (ca_body_plug _ _ (d ++ c) (CBase nb js mj 0) with "Hc Ht").
  - simpl. iFrame "Hdx Hdn". iSplitL; [|done]. iApply (destroyable_base with "Hb Hs").
Qed.

Lemma wp_join_left fuel this cfg tid c x k r b s mb st m Q :
  (csize (cplug (CL x k r :: c) (CBase b s mb 0)) < fuel)%nat →
  cwf (cplug (CL x k r :: c) (CBase b s mb 0)) → ca_dict (cplug (CL x k r :: c) (CBase b s mb 0)) m →
  held this cfg tid (CL x k r :: c) b s mb st -∗ (adapted this cfg tid b m -∗ Q ()) -∗
  wp (run (CA.lowContentionJoin fuel tid (Some this) (Some b))) Q.
Proof.
  iIntros (Hfuel Hwf Hd) "(Hc & Hb & Hs & Hrm) HQ". rewrite /CA.lowContentionJoin. accessors.
  pose proof (csize_sibling (CL x k r) c (CBase b s mb 0)) as Hsz. simpl in Hsz, Hfuel.
  iDestruct "Hc" as (rt) "[Ht [[Hx Hr] Hc]]". do 2 cwp_step.
  rewrite bool_decide_true //. cwp_step.
  iApply wp_run_bind. iApply (wp_leftmostLoop _ r [] (cloc r) (Some x) with "[//] Hr"); [lia |].
  iIntros (d t') "%Hlm Hd Hn". apply cleftmost_spec in Hlm
    as (d' & n & sn & mn & stn & -> & -> & Hr & Hcl).
  rewrite app_nil_r. simpl. iDestruct "Hn" as "[Hn Hsn]".
  iApply wp_run_bind. iApply (wp_base_tryLock with "Hn"). iIntros "Hn". simpl.
  iApply wp_run_bind. iApply (wp_base_isValid with "Hn"). iIntros "Hn". simpl.
  do 2 cwp_step.
  pose proof Hwf as (Hco & Hwx & Hink)%(cwf_plug c). rewrite /= -{1 2}Hr in Hwx.
  pose proof Hwx as (_ & _ & [Hinvb _] & (_ & [Hinvn _] & _)%cwf_plug).
  iApply wp_run_bind. iApply wp_run_atomic.
  iApply (oset_join_law with "Hs Hsn"); [| done | done |].
  { by apply (csubst_join_left x k b s mb 0 d' n sn mn stn 1 1 Hcl Hwx). }
  iIntros (js) "Hj Hs Hsn".
  iApply (wp_replaceJoined _ _ _ _ _ c with "[Ht Hc] Hx Hd Hb Hn Hsn Hj Hrm");
    [done | lia | apply Hink; simpl; auto | by iExists rt; rewrite cpath_lk_free; iFrame |].
  iIntros (nb) "Hc Ht Hrm Hdx Hdn Hb". iApply "HQ".
  destruct (csubst_join_left x k b s mb 0 d' n sn mn stn nb js Hcl Hwx) as [_ Hsub].
  rewrite Hr in Hsub. destruct (csubst_plug c _ _ m Hsub Hwf Hd) as [??].
  iApply (adapted_replaced with "Hc Ht Hrm Hdx Hdn Hb Hs"); by rewrite cplug_app.
Qed.

Lemma wp_join_right fuel this cfg tid c x k r b s mb st m Q :
  (csize (cplug (CR r x k :: c) (CBase b s mb 0)) < fuel)%nat →
  cwf (cplug (CR r x k :: c) (CBase b s mb 0)) → ca_dict (cplug (CR r x k :: c) (CBase b s mb 0)) m →
  held this cfg tid (CR r x k :: c) b s mb st -∗ (adapted this cfg tid b m -∗ Q ()) -∗
  wp (run (CA.lowContentionJoin fuel tid (Some this) (Some b))) Q.
Proof.
  iIntros (Hfuel Hwf Hd) "(Hc & Hb & Hs & Hrm) HQ". rewrite /CA.lowContentionJoin. accessors.
  pose proof (csize_sibling (CR r x k) c (CBase b s mb 0)) as Hsz. simpl in Hsz, Hfuel.
  iDestruct "Hc" as (rt) "[Ht [[Hx Hr] Hc]]". do 2 cwp_step.
  iDestruct (ctree_at_ne with "Hr Hb") as %Hne. rewrite bool_decide_false; [|congruence].
  cwp_step.
  iApply wp_run_bind. iApply (wp_rightmostLoop _ r [] (cloc r) (Some x) with "[//] Hr"); [lia |].
  iIntros (d t') "%Hlm Hd Hn". apply crightmost_spec in Hlm
    as (d' & n & sn & mn & stn & -> & -> & Hr & Hcl).
  rewrite app_nil_r. simpl. iDestruct "Hn" as "[Hn Hsn]".
  iApply wp_run_bind. iApply (wp_base_tryLock with "Hn"). iIntros "Hn". simpl.
  iApply wp_run_bind. iApply (wp_base_isValid with "Hn"). iIntros "Hn". simpl.
  do 2 cwp_step.
  pose proof Hwf as (Hco & Hwx & Hink)%(cwf_plug c). rewrite /= -{1 2}Hr in Hwx.
  pose proof Hwx as (_ & _ & (_ & [Hinvn _] & _)%cwf_plug & [Hinvb _]).
  iApply wp_run_bind. iApply wp_run_atomic.
  iApply (oset_join_law with "Hsn Hs"); [| done | done |].
  { by apply (csubst_join_right x k b s mb 0 d' n sn mn stn 1 1 Hcl Hwx). }
  iIntros (js) "Hj Hsn Hs".
  iApply (wp_replaceJoined _ _ _ _ _ c with "[Ht Hc] Hx Hd Hb Hn Hsn Hj Hrm");
    [done | lia | apply Hink; simpl; auto | by iExists rt; rewrite cpath_lk_free; iFrame |].
  iIntros (nb) "Hc Ht Hrm Hdx Hdn Hb". iApply "HQ".
  destruct (csubst_join_right x k b s mb 0 d' n sn mn stn nb js Hcl Hwx) as [_ Hsub].
  rewrite Hr in Hsub. destruct (csubst_plug c _ _ m Hsub Hwf Hd) as [??].
  iApply (adapted_replaced with "Hc Ht Hrm Hdx Hdn Hb Hs"); by rewrite cplug_app.
Qed.

Lemma wp_lowContentionJoin fuel this cfg tid c b s mb st m Q :
  (csize (cplug c (CBase b s mb 0)) < fuel)%nat →
  cwf (cplug c (CBase b s mb 0)) → ca_dict (cplug c (CBase b s mb 0)) m →
  held this cfg tid c b s mb st -∗ (adapted this cfg tid b m -∗ Q ()) -∗
  wp (run (CA.lowContentionJoin fuel tid (Some this) (Some b))) Q.
Proof.
  intros Hfuel Hwf Hd. destruct c as [|[x k r|l x k] c].
  - iIntros "(Hc & Hb & Hs & Hrm) HQ". rewrite /CA.lowContentionJoin /Base.getParent. cwp_step.
    iApply (wp_reset with "[Hc Hb Hs Hrm] HQ"); [done | done | iFrame].
  - by apply wp_join_left.
  - by apply wp_join_right.
Qed.

Lemma wp_highContentionSplit this cfg tid c b s mb st m Q :
  cwf (cplug c (CBase b s mb 0)) → ca_dict (cplug c (CBase b s mb 0)) m →
  held this cfg tid c b s mb st -∗ (adapted this cfg tid b m -∗ Q ()) -∗
  wp (run (CA.highContentionSplit tid (Some this) (Some b))) Q.
Proof.
  iIntros (Hwf Hd) "(Hc & Hb & Hs & Hrm) HQ". rewrite /CA.highContentionSplit.
  rewrite {1}/Base.getParent {1}/Base.getOrderedSet. do 2 cwp_step.
  iApply wp_run_bind. iApply wp_run_atomic.
  iApply (oset_split_law with "Hs"); [apply all_splittable |]. iSplit.
  { iIntros (_) "Hs". simpl. iApply (wp_reset with "[Hc Hb Hs Hrm] HQ"); [done | done | iFrame]. }
  iIntros (k s1 s2 m1 m2 [_ Hsp]) "Hs1 Hs2 Hs". accessors. simpl.
  iDestruct "Hc" as (rt) "[Ht Hc]". cwp_step.
  iApply wp_run_bind. iApply wp_run_atomic. iApply (rm_allocateBase_law with "Hrm").
  iIntros (b1) "Hrm Hb1".
  iApply wp_run_bind. iApply wp_run_atomic. iApply (rm_allocateBase_law with "Hrm").
  iIntros (b2) "Hrm Hb2". do 2 cwp_step.
  iApply wp_run_bind. iApply wp_run_atomic. iApply (rm_allocateRoute_law with "Hrm").
  iIntros (x) "Hrm Hx". do 5 cwp_step.
  iApply wp_run_bind.
  iApply (wp_ca_replaceChild _ _ _ c _ _ _ x with "[Ht Hc] Hb"); [by iExists rt; iFrame | |].
  { iIntros (Q') "Hb HQ". cwp_step. by iApply "HQ". }
  iIntros "Hc Hb". iApply wp_run_bind. iApply (wp_base_invalidate with "Hb"). iIntros "Hb".
  iApply wp_run_atomic. iApply (rm_retireBase_law with "Hrm"). iIntros "Hrm". iApply "HQ".
  iExists (Some s), st, false, (gpar c), [RBase b]. iFrame "Hb Hrm". iIntros "Hb".
  assert (base_ok mb 0) as Hok by by apply cwf_plug in Hwf as (_ & ? & _).
  destruct (csubst_plug c _ _ m (csubst_split b s mb 0 k m1 m2 x b1 s1 b2 s2 Hok Hsp) Hwf Hd)
    as [Hwf' Hd'].
  iSplitL "Hc Hx Hb1 Hb2 Hs1 Hs2".
  - iApply (ca_body_plug _ _ c (CRoute x k (CBase b1 s1 m1 0) (CBase b2 s2 m2 0)) with "Hc");
      [done | done |]. iFrame.
  - iSplitL; [|done]. iApply (destroyable_base with "Hb Hs").
Qed.

Lemma wp_adaptIfNeeded fuel this cfg tid c b s mb st m Q :
  (csize (cplug c (CBase b s mb 0)) < fuel)%nat → -1001 ≤ st ≤ 1249 →
  cwf (cplug c (CBase b s mb 0)) → ca_dict (cplug c (CBase b s mb 0)) m →
  held this cfg tid c b s mb st -∗ (adapted this cfg tid b m -∗ Q ()) -∗
  wp (run (CA.adaptIfNeeded fuel tid (Some this) (Some b))) Q.
Proof.
  iIntros (Hfuel Hst Hwf Hd) "(Hc & Hb & Hs & Hrm) HQ". rewrite /CA.adaptIfNeeded.
  rewrite /Base.isHighContentionLimitReached /Base.isLowContentionLimitReached.
  iApply wp_run_bind. do 2 cwp_step. rewrite Z.gtb_ltb.
  destruct (Z.ltb_spec Base.STAT_LOCK_HIGH_CONTENTION_LIMIT st).
  { iApply (wp_highContentionSplit with "[Hc Hb Hs Hrm] HQ"); [done | done | iFrame]. }
  iApply wp_run_bind. do 2 cwp_step. rewrite /pwhen.
  destruct (Z.ltb_spec st Base.STAT_LOCK_LOW_CONTENTION_LIMIT) as [|Hlow].
  { iApply (wp_lowContentionJoin with "[Hc Hb Hs Hrm] HQ"); [done | done | done | iFrame]. }
  cwp_step. iApply "HQ". rewrite /Base.STAT_LOCK_LOW_CONTENTION_LIMIT in Hlow.
  iApply (adapted_keep _ _ _ c _ s mb st); [lia | done | done |]. iFrame.
Qed.

(** ** The operations *)

(** The tree at [this] stands for the dictionary [m]. *)
Definition ca_set (this : loc) cfg (m : gmap Z Z) : hprop :=
  (ca_body this cfg m ∗ rm_idle cfg.2)%I.

(** An operation of the ordered set: it changes the dictionary by [F] and
    returns [res]. *)
Definition set_op_spec (op : ptr → M Z) (F : gmap Z Z → gmap Z Z) (res : gmap Z Z → Z) : Prop :=
  ∀ s m Q, is_set s m -∗ (is_set s (F m) -∗ Q (res m)) -∗ wp (op (Some s)) Q.

Lemma wp_operation_turn fuel tid this cfg k op F res t m Q :
  set_op_spec op F res → local_at k F →
  (∀ mb, mb !! invalid_key = None → F mb !! invalid_key = None) →
  (∀ m1 m2, m1 !! k = m2 !! k → res m1 = res m2) →
  (csize t < fuel)%nat → cwf t → ca_dict t m →
  tree_obj this cfg (cloc t) -∗ ctree_at NULL t -∗ rm_idle cfg.2 -∗
  (ca_set this cfg (F m) -∗ Q (inr (res m))) -∗
  wp (run (CA.operationStep fuel tid (Some this) k op ())) Q.
Proof.
  iIntros (Hop HF Hinv Hres Hfuel Hwf Hd) "Hthis Ht Hrm HQ". rewrite /CA.operationStep. cwp_step.
  iApply wp_run_bind. iApply wp_run_atomic. iApply (rm_startGuard_law with "Hrm"). iIntros "Hrm".
  iApply wp_run_bind. rewrite /CA.getBaseNode. cwp_step.
  iApply (wp_getBaseNodeLoop _ k t [] (cloc t) NULL with "[//] Ht"); [done |].
  iIntros (c t' Hdesc) "Hc Ht".
  destruct (cdescend_spec _ _ _ _ _ Hdesc) as (Hp & Hk & (b & s & mb & st & ->) & _).
  specialize (Hk eq_refl). simpl in Hp. rewrite -Hp in Hwf Hd Hfuel.
  pose proof Hwf as (_ & [Hmb Hst] & _)%cwf_plug. simpl. iDestruct "Ht" as "[Hb Hs]".
  iApply wp_run_bind. iApply (wp_base_lock with "Hb"); [done |]. iIntros "Hb".
  iApply wp_run_bind. iApply (wp_base_isValid with "Hb"). iIntros "Hb". simpl.
  rewrite /Base.getOrderedSet. cwp_step.
  iApply wp_run_bind. iApply wp_run_atomic. iApply (Hop with "Hs"). iIntros "Hs".
  pose proof (cwf_local c k F b s mb st 0 HF Hk (Hinv _ Hmb) ltac:(lia) Hwf) as Hwf'.
  pose proof (ca_dict_local c k F b s mb st 0 m HF Hk Hd) as Hd'.
  assert (csize (cplug c (CBase b s (F mb) 0)) < fuel)%nat as Hfuel'.
  { rewrite (_ : csize (cplug c _) = csize (cplug c (CBase b s mb st))) //. apply csize_plug_eq. done. }
  iApply wp_run_bind.
  iApply (wp_adaptIfNeeded _ _ _ _ c b s (F mb) with "[Hthis Hc Hb Hs Hrm]"); [done | | done | done | |].
  { instantiate (1 := st - 1). lia. }
  { iFrame "Hb Hs Hrm". iExists _. rewrite cpath_lk_free. iFrame. }
  iIntros "(%s' & %st' & %v & %par & %L & Hb & Hrm & Hback)".
  iApply wp_run_bind. iApply (wp_base_unlock with "Hb"). iIntros "Hb".
  iDestruct ("Hback" with "Hb") as "[Hbody HL]".
  iApply wp_run_bind. iApply wp_run_atomic. iApply (rm_endGuard_law with "Hrm HL"). iIntros "Hrm".
  cwp_step. rewrite (Hres mb m); [|by rewrite -Hd clookup_plug Hk]. iApply "HQ". iFrame.
Qed.

(** Running a program on the tree: it has more fuel than the tree has nodes. *)
Lemma wp_exec_tree {A} this cfg m (p : nat → prog A) Q :
  ca_set this cfg m -∗
  (∀ t fuel, <affine> ⌜cwf t ∧ ca_dict t m ∧ (csize t < fuel)%nat⌝ -∗
     tree_obj this cfg (cloc t) -∗ ctree_at NULL t -∗ rm_idle cfg.2 -∗ wp (run (p fuel)) Q) -∗
  wp (exec p) Q.
Proof.
  iIntros "[(%t & [%Hwf %Hd] & Hthis & Ht) Hrm] HQ". iApply (wp_exec (csize t)). iSplit.
  { iApply (at_least_weaken with "[-]"); [|iApply (ctree_at_size with "Ht")]. done. }
  iIntros (fuel Hfuel). by iApply ("HQ" with "[//] Hthis Ht Hrm").
Qed.

Lemma wp_operation fuel tid this cfg k op F res t m Q :
  set_op_spec op F res → local_at k F →
  (∀ mb, mb !! invalid_key = None → F mb !! invalid_key = None) →
  (∀ m1 m2, m1 !! k = m2 !! k → res m1 = res m2) →
  (csize t < fuel)%nat → cwf t → ca_dict t m →
  tree_obj this cfg (cloc t) -∗ ctree_at NULL t -∗ rm_idle cfg.2 -∗
  (ca_set this cfg (F m) -∗ Q (res m)) -∗
  wp (run (CA.operation fuel tid (Some this) k op)) Q.
Proof.
  iIntros (Hop HF Hinv Hres Hfuel Hwf Hd) "Hthis Ht Hrm HQ". rewrite /CA.operation.
  destruct fuel as [|fuel]; [lia |]. iApply wp_piter_S.
  by iApply (wp_operation_turn with "Hthis Ht Hrm").
Qed.

Lemma dict_find_local k m1 m2 : m1 !! k = m2 !! k → dict_find m1 k = dict_find m2 k.
Proof. rewrite /dict_find. by intros ->. Qed.

Lemma wp_ca_find tid this cfg k m Q :
  ca_set this cfg m -∗ (ca_set this cfg m -∗ Q (dict_find m k)) -∗
  wp (exec (λ fuel, CA.find fuel tid (Some this) k)) Q.
Proof.
  iIntros "Hs HQ". iApply (wp_exec_tree with "Hs"). iIntros (t fuel (Hwf & Hd & Hfuel)) "Hthis Ht Hrm".
  iApply (wp_operation _ _ _ _ _ _ id (λ m, dict_find m k) with "Hthis Ht Hrm HQ"); try done.
  - intros s mb Q'. apply oset_find_law.
  - intros. by apply dict_find_local.
Qed.

Lemma wp_assertKey this cfg rt k Q :
  cfg.1.1.1 ≤ k ≤ cfg.1.1.2 →
  tree_obj this cfg rt -∗ (tree_obj this cfg rt -∗ Q ()) -∗ wp (run (CA.assertKey (Some this) k)) Q.
Proof.
  iIntros (Hk) "Hthis HQ". rewrite /CA.assertKey. do 2 cwp_step. iApply wp_run_atomic.
  iApply wp_assert; [|by iApply "HQ"].
  rewrite Z.geb_leb. apply andb_true_iff. split; apply Z.leb_le; lia.
Qed.

Lemma wp_ca_insert tid this cfg k v m Q :
  cfg.1.1.1 ≤ k ≤ cfg.1.1.2 → k ≠ invalid_key →
  ca_set this cfg m -∗ (ca_set this cfg (dict_insert k v m) -∗ Q (dict_find m k)) -∗
  wp (exec (λ fuel, CA.insert fuel tid (Some this) k v)) Q.
Proof.
  iIntros (Hk Hinv) "Hs HQ". iApply (wp_exec_tree with "Hs").
  iIntros (t fuel (Hwf & Hd & Hfuel)) "Hthis Ht Hrm". rewrite /CA.insert.
  iApply wp_run_bind. iApply (wp_assertKey with "Hthis"); [done |]. iIntros "Hthis".
  iApply (wp_operation _ _ _ _ _ _ (dict_insert k v) (λ m, dict_find m k) with "Hthis Ht Hrm HQ");
    try done.
  - intros s mb Q'. apply oset_insert_law, all_valid.
  - apply local_insert.
  - intros mb Hmb. rewrite (local_other k _ (local_insert k v)) //.
  - intros. by apply dict_find_local.
Qed.

Lemma wp_ca_erase tid this cfg k m Q :
  cfg.1.1.1 ≤ k ≤ cfg.1.1.2 →
  ca_set this cfg m -∗ (ca_set this cfg (delete k m) -∗ Q (dict_find m k)) -∗
  wp (exec (λ fuel, CA.erase fuel tid (Some this) k)) Q.
Proof.
  iIntros (Hk) "Hs HQ". iApply (wp_exec_tree with "Hs").
  iIntros (t fuel (Hwf & Hd & Hfuel)) "Hthis Ht Hrm". rewrite /CA.erase.
  iApply wp_run_bind. iApply (wp_assertKey with "Hthis"); [done |]. iIntros "Hthis".
  iApply (wp_operation _ _ _ _ _ _ (delete k) (λ m, dict_find m k) with "Hthis Ht Hrm HQ"); try done.
  - intros s mb Q'. apply oset_erase_law.
  - apply local_delete.
  - intros mb Hmb. rewrite lookup_delete_None. auto.
  - intros. by apply dict_find_local.
Qed.

(** ** Construction and destruction *)

Lemma wp_newCATree n lo hi Q :
  (∀ this rm, ca_set this (lo, hi, n, rm) ∅ -∗ Q (Some this)) ⊢
  wp (run (CA.newCATree n lo hi CA.AVL)) Q.
Proof.
  iIntros "HQ". rewrite /CA.newCATree /CA.initThread.
  iApply wp_run_bind. iApply wp_run_atomic. iApply rm_new_law. iIntros (rm) "Hrm".
  iApply wp_run_bind. iApply wp_run_atomic. iApply wp_new. iIntros (this) "Hthis".
  iApply wp_run_bind. cwp_step. iApply wp_run_atomic.
  iApply (rm_initThread_law with "Hrm"). iIntros "Hrm".
  iApply wp_run_bind. iApply wp_run_atomic. iApply (rm_allocateBase_idle with "Hrm").
  iIntros (b) "Hrm Hb". iApply wp_run_bind. iApply wp_run_atomic. iApply oset_new_law.
  iIntros (s) "Hs". accessors. do 3 cwp_step. iApply "HQ". iFrame "Hrm".
  iExists (CBase b s ∅ 0). iFrame. iPureIntro. split; [split; [done | lia] | done].
Qed.

Lemma wp_freeSubtree n tid rm t par Q :
  (csize t ≤ n)%nat →
  rm_idle rm -∗ ctree_at par t -∗ (rm_idle rm -∗ Q ()) -∗
  wp (run (CA.freeSubtree n tid (Some rm) (Some (cloc t)))) Q.
Proof.
  iIntros (Hn) "Hrm Ht HQ".
  iInduction t as [b s m st|x k l IHl r IHr] forall (n Hn par Q);
    (destruct n as [|n]; [simpl in *; lia |]); simpl; accessors; iApply wp_run_bind.
  - iDestruct "Ht" as "[Hb Hs]". iApply (wp_isBaseNode_base with "Hb"). iIntros "Hb". simpl.
    iApply wp_run_atomic. iApply (rm_deallocateBase_law with "Hrm [Hb Hs] HQ").
    simpl. rewrite /Base.destroy. wp_step. iApply wp_bind.
    iApply (oset_delete_law with "Hs"). by wp_step.
  - iDestruct "Ht" as "(Hx & Hl & Hr)". iApply (wp_isBaseNode_route with "Hx"). iIntros "Hx". simpl.
    simpl in Hn. cwp_step.
    iApply wp_run_bind. iApply ("IHl" with "[%] Hrm Hl"); [lia |]. iIntros "Hrm". cwp_step.
    iApply wp_run_bind. iApply ("IHr" with "[%] Hrm Hr"); [lia |]. iIntros "Hrm".
    iApply wp_run_atomic. iApply (rm_deallocateRoute_law with "Hrm [Hx] HQ").
    by iApply destroyable_route.
Qed.

Lemma wp_deleteCATree this cfg m Q :
  ca_set this cfg m -∗ Q () -∗ wp (exec (λ fuel, CA.deleteCATree fuel (Some this))) Q.
Proof.
  iIntros "Hs HQ". iApply (wp_exec_tree with "Hs"). iIntros (t fuel (Hwf & Hd & Hfuel)) "Hthis Ht Hrm".
  rewrite /CA.deleteCATree /CA.initThread /CA.deinitThread. iApply wp_run_bind. cwp_step.
  iApply wp_run_atomic. iApply (rm_initThread_law with "Hrm"). iIntros "Hrm". do 2 cwp_step.
  iApply wp_run_bind. iApply (wp_freeSubtree with "Hrm Ht"); [lia |]. iIntros "Hrm".
  iApply wp_run_bind. cwp_step. iApply wp_run_atomic. iApply (rm_deinitThread_law with "Hrm").
  iIntros "Hrm". iApply wp_run_bind. iApply wp_run_atomic. iApply (rm_delete_law with "Hrm").
  by cwp_step.
Qed.

End proof.
