(* ===== verification/CAAdapter.v ===== *)
(** * CAAdapter: the benchmark's adapter of the contention-adapting tree

    Translation of [cpp/ds/winblad_catree/adapter.h]: the methods the benchmark
    calls, and the traversals of [NodeHandler] that count keys. *)
From S2P Require Import Prelude Memory SepLogic OrderedSet Prog CANode CATree.
#[local] Open Scope Z_scope.
#[local] Open Scope cpp_scope.

Module Adapter.
Section adapter.
Context {OS : IOrderedSet} {R : RecordManager}.

(** [ds_adapter]: its members are constants *)
Record ds_adapter := DsAdapter { NO_VALUE : Z; ds : ptr }.

Variable fuel : nat.

Definition newAdapter (NUM_THREADS KEY_MIN KEY_MAX VALUE_RESERVED : Z) : prog ds_adapter :=
  t ← CA.newCATree NUM_THREADS KEY_MIN KEY_MAX CA.AVL;
  mret (DsAdapter VALUE_RESERVED t).

Definition deleteAdapter (this : ds_adapter) : prog unit := CA.deleteCATree fuel this.(ds).

Definition getNoValue (this : ds_adapter) : Z := this.(NO_VALUE).

Definition initThread (this : ds_adapter) (tid : Z) : prog unit := CA.initThread this.(ds) tid.
Definition deinitThread (this : ds_adapter) (tid : Z) : prog unit := CA.deinitThread this.(ds) tid.

(** [insert-replace functionality not implemented] *)
Definition insert (this : ds_adapter) (tid k v : Z) : prog Z := atomic (throw ProgramExit).

Definition insertIfAbsent (this : ds_adapter) (tid k v : Z) : prog Z :=
  CA.insert fuel tid this.(ds) k v.
Definition erase (this : ds_adapter) (tid k : Z) : prog Z := CA.erase fuel tid this.(ds) k.
Definition find (this : ds_adapter) (tid k : Z) : prog Z := CA.find fuel tid this.(ds) k.
Definition contains (this : ds_adapter) (tid k : Z) : prog bool :=
  r ← CA.find fuel tid this.(ds) k; mret (negb (r =? this.(NO_VALUE))).

Definition rangeQuery (this : ds_adapter) (tid lo hi : Z) : prog Z := atomic (throw ProgramExit).

Definition validateStructure (this : ds_adapter) : prog bool := mret true.

(** [dynamic_cast<BaseNode *>(node)], tested in the traversals *)
Definition isBase (node : ptr) : prog bool :=
  p ← atomic (dynamic_cast base_node node); mret (p != NULL).

(** [long] is 64 bits wide. *)
Definition long (x : Z) : Z := (x + 2 ^ 63) mod 2 ^ 64 - 2 ^ 63.

(** [NodeHandler::getNumKeys] and [getSumOfKeys]: [count] is [numKeys] or
    [sumOfKeys] of the ordered sets. *)
Fixpoint getTotal (count : ptr → M Z) (n : nat) (node : ptr) : prog Z :=
  match n with
  | O => atomic (throw OutOfFuel)
  | S n =>
      atomic (assert_ (node != NULL));;
      b ← isBase node;
      if (b : bool) then
        s ← Base.getOrderedSet node;
        c ← atomic (count s);
        mret (size_t (long c))
      else
        l ← Route.getLeft node;
        a ← (if l != NULL then l ← Route.getLeft node; getTotal count n l else mret 0);
        r ← Route.getRight node;
        b ← (if r != NULL then r ← Route.getRight node; getTotal count n r else mret 0);
        mret (size_t (long (long a + b)))
  end.

Definition getNumKeys (node : ptr) : prog Z := getTotal oset_numKeys fuel node.
Definition getSumOfKeys (node : ptr) : prog Z := getTotal oset_sumOfKeys fuel node.

(** [getChildIterator] and [getNumChildren] are not implemented. *)
Definition getNumChildren (node : ptr) : prog Z := atomic (assert_ false);; mret 0.
Definition isLeaf (node : ptr) : bool := true.

End adapter.
End Adapter.
