(* ===== verification/CASet.v ===== *)
(** * CASet: contracts of the contention-adapting tree over AVL trees

    The tree of [CATree] with the AVL trees of [AVLTree] as ordered sets and any
    record manager that satisfies [RecordManagerLaws].  [catree this cfg m]:
    the tree object at [this], with bounds, thread count and record manager
    [cfg], stands for the dictionary [m]; all locks are free, every base node
    has any number of keys and any lock statistics between the limits. *)
From S2P Require Import Prelude Memory SepLogic OrderedSet AVLTree AVLSet Prog CANode CATree.
From S2P Require Import SimpleRecMgr CASpec CAProof CAAdapter.
#[local] Open Scope Z_scope.
#[local] Open Scope cpp_scope.

Section contracts.
Context {R : RecordManager} {RLaws : RecordManagerLaws (OS := avl_oset) R}.

Definition catree (this : loc) (cfg : Z * Z * Z * loc) (m : gmap Z Z) : hprop :=
  ca_set (OS := avl_oset) this cfg m.

(** ** The adapter's traversals *)

Lemma wp_isBase_base l (o : base_node) Q :
  l ↦ o -∗ (l ↦ o -∗ Q true) -∗ wp (run (Adapter.isBase (Some l))) Q.
Proof. iIntros "Hl HQ". rewrite /Adapter.isBase. do 2 cwp_step. by iApply "HQ". Qed.

Lemma wp_isBase_route l (o : route_node) Q :
  l ↦ o -∗ (l ↦ o -∗ Q false) -∗ wp (run (Adapter.isBase (Some l))) Q.
Proof.
  iIntros "Hl HQ". rewrite /Adapter.isBase. iApply wp_run_bind. iApply wp_run_atomic.
  iApply (wp_dynamic_cast_other with "Hl"); [done |]. iIntros "Hl". simpl. cwp_step.
  by iApply "HQ".
Qed.

Lemma size_t_idemp x : size_t (size_t x) = size_t x.
Proof. rewrite /size_t. by rewrite Zmod_mod. Qed.

Lemma size_t_long x : size_t (Adapter.long x) = size_t x.
Proof. rewrite /size_t /Adapter.long Zminus_mod_idemp_l. f_equal. lia. Qed.

Lemma size_t_long_add a b :
  size_t (Adapter.long (Adapter.long (size_t a) + size_t b)) = size_t (a + b).
Proof.
  assert (∀ x y, size_t (size_t x + size_t y) = size_t (x + y)) as Hadd.
  { intros x y. rewrite /size_t. by rewrite -Zplus_mod. }
  rewrite size_t_long -Hadd size_t_long !size_t_idemp. apply Hadd.
Qed.

Lemma wp_getTotal count (f : gmap Z Z → Z) n t par Q :
  (∀ s m Q', avl_set s m -∗ (avl_set s m -∗ Q' (size_t (f m))) -∗ wp (count (Some s)) Q') →
  (csize t ≤ n)%nat →
  ctree_at (OS := avl_oset) par t -∗
  (ctree_at (OS := avl_oset) par t -∗ Q (size_t (ctotal f t))) -∗
  wp (run (Adapter.getTotal count n (Some (cloc t)))) Q.
Proof.
  iIntros (Hcount Hn) "Ht HQ".
  iInduction t as [b s m st|x k l IHl r IHr] forall (n Hn par Q);
    (destruct n as [|n]; [simpl in *; lia |]); simpl;
    iApply wp_run_bind; iApply wp_run_atomic; (iApply wp_assert; [done |]); iApply wp_run_bind.
  - iDestruct "Ht" as "[Hb Hs]". iApply (wp_isBase_base with "Hb"). iIntros "Hb".
    rewrite /Base.getOrderedSet. cwp_step. iApply wp_run_bind. iApply wp_run_atomic.
    iApply (Hcount with "Hs"). iIntros "Hs". cwp_step.
    rewrite size_t_long size_t_idemp. iApply "HQ". iFrame.
  - iDestruct "Ht" as "(Hx & Hl & Hr)". iApply (wp_isBase_route with "Hx"). iIntros "Hx".
    simpl in Hn. rewrite /Route.getLeft /Route.getRight. cwp_step.
    iApply wp_run_bind. cwp_step. iApply ("IHl" with "[%] Hl"); [lia |]. iIntros "Hl".
    cwp_step. iApply wp_run_bind. cwp_step. iApply ("IHr" with "[%] Hr"); [lia |].
    iIntros "Hr". cwp_step. rewrite size_t_long_add. iApply "HQ". iFrame.
Qed.

(** A traversal of the whole tree from [getRoot]. *)
Definition totalOfTree (count : ptr → M Z) (this : ptr) : M Z :=
  exec (λ fuel, r ← CA.getRoot this; Adapter.getTotal count fuel r).

Lemma wp_totalOfTree count f this cfg m Q :
  (∀ s m Q', avl_set s m -∗ (avl_set s m -∗ Q' (size_t (f m))) -∗ wp (count (Some s)) Q') →
  additive f →
  catree this cfg m -∗ (catree this cfg m -∗ Q (size_t (f m))) -∗
  wp (totalOfTree count (Some this)) Q.
Proof.
  iIntros (Hcount Hf) "Hs HQ". rewrite /totalOfTree. iApply (wp_exec_tree with "Hs").
  iIntros (t fuel (Hwf & Hd & Hfuel)) "Hthis Ht Hrm". rewrite /CA.getRoot. cwp_step.
  iApply (wp_getTotal with "Ht"); [done | lia |]. iIntros "Ht".
  rewrite ctotal_cmap // (ca_dict_cmap t m Hwf Hd). iApply "HQ". iFrame "Hrm".
  iExists t. by iFrame.
Qed.

(** ** Sessions *)

(** What a client does, and what its environment may do between its calls:
    [CaContend k st] stands for other threads that find the lock of the base
    node of [k] free or taken, and leave its statistics at [st]. *)
Inductive ca_op :=
  | CaFind (k : Z)
  | CaInsert (k v : Z)
  | CaErase (k : Z)
  | CaContend (k st : Z).

Definition run_ca_op (tid : Z) (this : ptr) (op : ca_op) : M Z :=
  match op with
  | CaFind k => exec (λ fuel, CA.find fuel tid this k)
  | CaInsert k v => exec (λ fuel, CA.insert fuel tid this k v)
  | CaErase k => exec (λ fuel, CA.erase fuel tid this k)
  | CaContend k st =>
      b ← exec (λ fuel, CA.getBaseNode fuel this k);
      b ~> Base.statLockStatistics ::= st;; mret 0
  end.
Fixpoint run_ca_ops (tid : Z) (this : ptr) (ops : list ca_op) : M (list Z) :=
  match ops with
  | [] => mret []
  | op :: ops => r ← run_ca_op tid this op; rs ← run_ca_ops tid this ops; mret (r :: rs)
  end.
Definition ca_session (numThreads lo hi tid : Z) (ops : list ca_op) : M (list Z) :=
  this ← run (CA.newCATree numThreads lo hi CA.AVL);
  rs ← run_ca_ops tid this ops;
  exec (λ fuel, CA.deleteCATree fuel this);;
  mret rs.

Definition ca_op_ok (lo hi : Z) (op : ca_op) : Prop :=
  match op with
  | CaFind _ => True
  | CaInsert k _ => lo ≤ k ≤ hi ∧ k ≠ invalid_key
  | CaErase k => lo ≤ k ≤ hi
  | CaContend _ st => -1000 ≤ st ≤ 1250
  end.

(** The dictionary does not see contention. *)
Definition dict_ca_op (m : gmap Z Z) (op : ca_op) : Z * gmap Z Z :=
  match op with
  | CaFind k => dict_op m (OpFind k)
  | CaInsert k v => dict_op m (OpInsert k v)
  | CaErase k => dict_op m (OpErase k)
  | CaContend _ _ => (0, m)
  end.
Fixpoint dict_ca_ops (m : gmap Z Z) (ops : list ca_op) : list Z * gmap Z Z :=
  match ops with
  | [] => ([], m)
  | op :: ops =>
      let '(r, m) := dict_ca_op m op in
      let '(rs, m) := dict_ca_ops m ops in (r :: rs, m)
  end.

Lemma wp_contend this cfg m k st Q :
  -1000 ≤ st ≤ 1250 →
  catree this cfg m -∗ (catree this cfg m -∗ Q 0) -∗
  wp (b ← exec (λ fuel, CA.getBaseNode fuel (Some this) k);
      b ~> Base.statLockStatistics ::= st;; mret 0) Q.
Proof.
  iIntros (Hst) "Hs HQ". iApply wp_bind. iApply (wp_exec_tree with "Hs").
  iIntros (t fuel (Hwf & Hd & Hfuel)) "Hthis Ht Hrm". rewrite /CA.getBaseNode. cwp_step.
  iApply (wp_getBaseNodeLoop _ k t [] (cloc t) NULL with "[//] Ht"); [done |].
  iIntros (c t' Hdesc) "Hc Ht".
  destruct (cdescend_spec _ _ _ _ _ Hdesc) as (Hp & Hk & (b & s & mb & st0 & ->) & _).
  specialize (Hk eq_refl). simpl in Hp. rewrite -Hp in Hwf Hd.
  simpl. iDestruct "Ht" as "[Hb Hs]". do 2 wp_step. iApply "HQ". iFrame "Hrm".
  iApply (ca_body_plug _ _ c (CBase b s mb st) with "[Hthis Hc] [Hb Hs]"); [| | |iFrame].
  - pose proof Hwf as (_ & [Hmb _] & _)%cwf_plug. by apply (cwf_local c k id b s mb st0 st).
  - by apply (ca_dict_local c k id b s mb st0 st m).
  - iExists _. rewrite cpath_lk_free. iFrame.
Qed.

Lemma wp_run_ca_op tid this cfg m op Q :
  ca_op_ok cfg.1.1.1 cfg.1.1.2 op →
  catree this cfg m -∗ (catree this cfg (dict_ca_op m op).2 -∗ Q (dict_ca_op m op).1) -∗
  wp (run_ca_op tid (Some this) op) Q.
Proof.
  destruct op; simpl; intros Hok.
  - apply wp_ca_find.
  - destruct Hok. by apply wp_ca_insert.
  - by apply wp_ca_erase.
  - by apply wp_contend.
Qed.

Lemma wp_run_ca_ops tid this cfg m ops Q :
  Forall (ca_op_ok cfg.1.1.1 cfg.1.1.2) ops →
  catree this cfg m -∗ (catree this cfg (dict_ca_ops m ops).2 -∗ Q (dict_ca_ops m ops).1) -∗
  wp (run_ca_ops tid (Some this) ops) Q.
Proof.
  iIntros (Hok) "Hs HQ". iInduction ops as [|op ops IH] forall (m Q Hok); simpl.
  { wp_step. by iApply "HQ". }
  inversion_clear Hok. iApply wp_bind. iApply (wp_run_ca_op with "Hs"); [done |]. iIntros "Hs".
  destruct (dict_ca_op m op) as [r m']. simpl. iApply wp_bind. iApply ("IH" with "[//] Hs").
  iIntros "Hs". destruct (dict_ca_ops m' ops) as [rs m'']. simpl. wp_step. by iApply "HQ".
Qed.

Lemma wp_ca_session n lo hi tid ops Q :
  Forall (ca_op_ok lo hi) ops →
  Q (dict_ca_ops ∅ ops).1 ⊢ wp (ca_session n lo hi tid ops) Q.
Proof.
  iIntros (Hok) "HQ". rewrite /ca_session. iApply wp_bind. iApply wp_newCATree.
  iIntros (this rm) "Hs". iApply wp_bind. iApply (wp_run_ca_ops with "Hs"); [done |].
  iIntros "Hs". iApply wp_bind. iApply (wp_deleteCATree with "Hs"). by wp_step.
Qed.
End contracts.

(** ** Contracts *)
Section theorems.
Context (R : RecordManager) {RLaws : RecordManagerLaws (OS := avl_oset) R}.


(** [CATree::find] returns the value stored under the key, or [(V)0]; the
    tree stands for the same dictionary, whether or not it adapted. *)
Lemma ca_find_correct tid this cfg m k :
  ⦃ catree this cfg m ⦄
    exec (λ fuel, CA.find fuel tid (Some this) k)
  ⦃ r, <affine> ⌜r = dict_find m k⌝ ∗ catree this cfg m ⦄.
Proof. apply hoare_wp. iIntros "Hs". iApply (wp_ca_find with "Hs"). by iIntros "$". Qed.


(** [CATree::erase] of a key in the range removes it and returns the value
    found. *)
Lemma ca_erase_correct tid this cfg m k (Hk : cfg.1.1.1 ≤ k ≤ cfg.1.1.2) :
  ⦃ catree this cfg m ⦄
    exec (λ fuel, CA.erase fuel tid (Some this) k)
  ⦃ r, <affine> ⌜r = dict_find m k⌝ ∗ catree this cfg (delete k m) ⦄.
Proof.
  apply hoare_wp. iIntros "Hs". iApply (wp_ca_erase with "Hs"); [done.. |]. by iIntros "$".
Qed.

(** C10: [highContentionSplit] of a base node whose lock the thread holds keeps
    the dictionary: when the lock is released, the tree is well formed and
    stands for the same dictionary, and every retired node can be destroyed. *)
Theorem ca_split_keeps this cfg tid c b s mb st m
    (Hwf : cwf (cplug c (CBase b s mb 0))) (Hd : ca_dict (cplug c (CBase b s mb 0)) m) :
  ⦃ held (OS := avl_oset) this cfg tid c b s mb st ⦄
    run (CA.highContentionSplit (OS := avl_oset) tid (Some this) (Some b))
  ⦃ r, adapted (OS := avl_oset) this cfg tid b m ⦄.
Proof.
  apply hoare_wp. iIntros "Hh". iApply (wp_highContentionSplit with "Hh"); [done.. |].
  by iIntros "$".
Qed.

(** C9: [lowContentionJoin] of a base node whose lock the thread holds, with
    its neighbour on either side or alone at the root, keeps the dictionary;
    the walk down to the neighbour and the search for the grandparent end
    within the number of nodes of the tree. *)
Theorem ca_join_keeps fuel this cfg tid c b s mb st m
    (Hfuel : (csize (cplug c (CBase b s mb 0)) < fuel)%nat)
    (Hwf : cwf (cplug c (CBase b s mb 0))) (Hd : ca_dict (cplug c (CBase b s mb 0)) m) :
  ⦃ held (OS := avl_oset) this cfg tid c b s mb st ⦄
    run (CA.lowContentionJoin (OS := avl_oset) fuel tid (Some this) (Some b))
  ⦃ r, adapted (OS := avl_oset) this cfg tid b m ⦄.
Proof.
  apply hoare_wp. iIntros "Hh". iApply (wp_lowContentionJoin with "Hh"); [done.. |].
  by iIntros "$".
Qed.

(** C15: the adapter's [getNumKeys] and [getSumOfKeys] from the root return the
    number and the sum of all keys of the tree modulo [2 ^ 64], although they
    accumulate in a signed [long]. *)
Theorem ca_totals_correct this cfg m :
  ⦃ catree this cfg m ⦄
    (n ← totalOfTree oset_numKeys (Some this);
     k ← totalOfTree oset_sumOfKeys (Some this); mret (n, k))
  ⦃ r, <affine> ⌜r = (Z.of_nat (size m) mod 2 ^ 64, dict_sum id m mod 2 ^ 64)⌝ ∗
         catree this cfg m ⦄.
Proof.
  apply hoare_wp. iIntros "Hs". iApply wp_bind.
  iApply (wp_totalOfTree _ (λ m, Z.of_nat (size m)) with "Hs");
    [intros; apply wp_avl_numKeys | apply additive_size |].
  iIntros "Hs". iApply wp_bind.
  iApply (wp_totalOfTree _ (dict_sum id) with "Hs");
    [intros; apply wp_avl_sumOfKeys | apply additive_sum |].
  iIntros "Hs". wp_step. by iFrame.
Qed.

(** The destructor of the tree gives back every object the tree owns:
    route nodes, base nodes, their sets and the record manager. *)
Lemma ca_delete_frees this cfg m :
  ⦃ catree this cfg m ⦄ exec (λ fuel, CA.deleteCATree fuel (Some this)) ⦃ r, emp ⦄.
Proof. apply hoare_wp. iIntros "Hs". by iApply (wp_deleteCATree with "Hs"). Qed.

End theorems.

(** ** Witnesses: the laws hold of [SimpleRM.manager] *)

(** Six keys, contention that splits the base node twice, and idleness that
    joins the parts again. *)
Definition example_ops : list ca_op :=
  [CaInsert 5 50; CaInsert 3 30; CaInsert 9 90; CaInsert 7 70;
   CaContend 5 1200; CaFind 5; CaInsert 11 110; CaContend 11 1200; CaFind 9;
   CaContend 3 (-1000); CaErase 3; CaContend 11 (-1000); CaFind 11; CaInsert 5 55].

Lemma example_ops_ok : Forall (ca_op_ok 1 100) example_ops.
Proof.
  repeat (apply Forall_cons_2; [cbv [ca_op_ok invalid_key]; first [exact I | lia] |]).
  apply Forall_nil_2.
Qed.



Lemma ca_split_keeps_witness :
  ⦃ held (OS := avl_oset) (R := SimpleRM.manager) 1 (1, 100, 4, 2%positive) 0 [] 3 4
      {[5 := 50; 6 := 60]} 1100 ⦄
    run (CA.highContentionSplit (OS := avl_oset) (R := SimpleRM.manager) 0
           (Some 1%positive) (Some 3%positive))
  ⦃ r, adapted (OS := avl_oset) (R := SimpleRM.manager) 1 (1, 100, 4, 2%positive) 0 3
         {[5 := 50; 6 := 60]} ⦄.
Proof.
  apply (ca_split_keeps SimpleRM.manager 1 (1, 100, 4, 2%positive) 0 [] 3 4
           {[5 := 50; 6 := 60]} 1100).
  - split; [vm_compute; reflexivity | lia].
  - intros z. reflexivity.
Defined.

Lemma ca_join_keeps_witness :
  ⦃ held (OS := avl_oset) (R := SimpleRM.manager) 1 (1, 100, 4, 2%positive) 0
      [CL 8 6 (CBase 5 6 {[6 := 60]} 0)] 3 4 {[5 := 50]} (-1001) ⦄
    run (CA.lowContentionJoin (OS := avl_oset) (R := SimpleRM.manager) 4 0
           (Some 1%positive) (Some 3%positive))
  ⦃ r, adapted (OS := avl_oset) (R := SimpleRM.manager) 1 (1, 100, 4, 2%positive) 0 3
         (cmap (CRoute 8 6 (CBase 3 4 {[5 := 50]} 0) (CBase 5 6 {[6 := 60]} 0))) ⦄.
Proof.
  assert (cwf (CRoute 8 6 (CBase 3 4 {[5 := 50]} 0) (CBase 5 6 {[6 := 60]} 0))) as Hwf.
  { split_and!.
    - intros z [? [<- _]%lookup_singleton_Some]. lia.
    - intros z [? [<- _]%lookup_singleton_Some]. lia.
    - split; [vm_compute; reflexivity | lia].
    - split; [vm_compute; reflexivity | lia]. }
  apply (ca_join_keeps SimpleRM.manager 4 1 (1, 100, 4, 2%positive) 0
           [CL 8 6 (CBase 5 6 {[6 := 60]} 0)] 3 4 {[5 := 50]} (-1001)).
  - simpl. lia.
  - exact Hwf.
  - intros z. symmetry. by apply cmap_lookup.
Defined.

Lemma ca_totals_correct_witness :
  ⦃ catree (R := SimpleRM.manager) 1 (1, 100, 4, 2%positive) {[5 := 50]} ⦄
    (n ← totalOfTree oset_numKeys (Some 1%positive);
     k ← totalOfTree oset_sumOfKeys (Some 1%positive); mret (n, k))
  ⦃ r, <affine> ⌜r = (1, 5)⌝ ∗
         catree (R := SimpleRM.manager) 1 (1, 100, 4, 2%positive) {[5 := 50]} ⦄.
Proof.
  exact (ca_totals_correct SimpleRM.manager 1 (1, 100, 4, 2%positive) {[5 := 50]}).
Defined.

(** ** Runs *)

(** The route keys from left to right, and the number of keys in each base node. *)
Fixpoint shape (n : nat) (node : ptr) : M (list (Z + Z)) :=
  match n with
  | O => throw OutOfFuel
  | S n =>
      b ← node ~> isBaseNode;
      if (b : bool) then
        s ← node ~> Base.set; c ← AVL.numKeys s; mret [inr c]
      else
        k ← node ~> Route.key; l ← node ~> Route.left; r ← node ~> Route.right;
        a ← shape n l; b ← shape n r; mret (a ++ inl k :: b)
  end.
Definition shape_after (ops : list ca_op) : M (list (Z + Z)) :=
  this ← run (CA.newCATree (OS := avl_oset) (R := SimpleRM.manager) 4 1 100 CA.AVL);
  run_ca_ops (R := SimpleRM.manager) 0 this ops;;
  root ← this ~> CA.root; shape 10 root.

Definition shape_of (r : outcome (list (Z + Z))) : option (list (Z + Z)) :=
  match r with Ok s _ => Some s | Fault _ => None end.


(** ** Rejected calls *)

Lemma run_assertKey_out this lo hi n rm root k h :
  h !! this = Some (inj_obj (CaTree lo hi n rm root)) → k < lo ∨ hi < k →
  run (CA.assertKey (Some this) k) h = Fault AssertionFailed.
Proof.
  intros Hthis Hk.
  rewrite /CA.assertKey run_atomic_bind /get Hthis /= run_atomic_bind Hthis /= run_atomic.
  assert ((k >=? lo) && (k <=? hi) = false) as ->; [|done].
  apply andb_false_iff. rewrite Z.geb_leb. destruct Hk; [left | right]; lia.
Qed.

(** C18: [insert] and [erase] of a key outside [minKey .. maxKey] fail their
    assertion before they touch the tree. *)
Theorem ca_out_of_range_asserts (R : RecordManager) this lo hi n rm root tid k v h
    (Hthis : h !! this = Some (inj_obj (CaTree lo hi n rm root))) (Hk : k < lo ∨ hi < k) :
  exec (λ fuel, CA.insert (OS := avl_oset) fuel tid (Some this) k v) h = Fault AssertionFailed ∧
  exec (λ fuel, CA.erase (OS := avl_oset) fuel tid (Some this) k) h = Fault AssertionFailed.
Proof.
  pose proof (run_assertKey_out _ _ _ _ _ _ _ _ Hthis Hk) as Ha.
  split; apply run_bind_fault, Ha.
Qed.

Lemma ca_out_of_range_asserts_witness :
  let h : heap := {[1%positive := inj_obj (CaTree 1 100 4 NULL NULL)]} in
  exec (λ fuel, CA.insert (OS := avl_oset) (R := SimpleRM.manager) fuel 0 (Some 1%positive) 101 5) h
    = Fault AssertionFailed ∧
  exec (λ fuel, CA.erase (OS := avl_oset) (R := SimpleRM.manager) fuel 0 (Some 1%positive) 101) h
    = Fault AssertionFailed.
Proof.
  apply (ca_out_of_range_asserts SimpleRM.manager 1 1 100 4 NULL NULL 0 101 5);
    [reflexivity | lia].
Defined.

(** The constructor supports only AVL trees: the other two values of
    [OrderedSetType] fail an assertion. *)
Lemma ca_constructor_types n lo hi type :
  (∃ p h, run (CA.newCATree (OS := avl_oset) (R := SimpleRM.manager) n lo hi type) ∅ = Ok p h) ↔
  type = CA.AVL.
Proof. destruct type; vm_compute; naive_solver. Qed.
