(* ===== verification/CALinear.v ===== *)
(** * CALinear: the contention-adapting tree is linearizable

    Any number of threads call [find], [insert] and [erase] of one [CATree]
    over AVL trees; their atomic actions are interleaved in any order.  The
    theorems: every run has a history of operations, each with its effect
    between its call and its return, that a finite dictionary explains; no
    action of any thread fails; the threads do not block each other for ever.

    The record manager is any that satisfies [SharedManagerLaws]. *)
From S2P Require Import Prelude Memory SepLogic OrderedSet AVLTree AVLSet Prog Threads CANode CATree SimpleRecMgr CASpec CAShape CAProtocol.
From S2P Require Import CARules CAOps CASet.
#[local] Open Scope Z_scope.
#[local] Open Scope cpp_scope.

#[global] Instance avl_exclusive : ExclusiveSet avl_oset.
Proof.
  iIntros (s m1 m2) "[(%t1 & _ & %r1 & Hs1 & _) (%t2 & _ & %r2 & Hs2 & _)]".
  iDestruct (pt_exclusive with "[$Hs1 $Hs2]") as %[].
Qed.

Section pool.
Context {OS : IOrderedSet} {Laws : OrderedSetLaws OS} {BLaws : BaseSetLaws OS} {Excl : ExclusiveSet OS}.
Context {R : RecordManager} {RLaws : SharedManagerLaws R}.
Context (fuel : nat) (this rm : loc) (lo hi nt : Z).
Abbreviation code := (ca_code fuel (Some this)).
Abbreviation wf := (CAProtocol.wf ∅).
Abbreviation rep := (CARules.rep this rm lo hi nt).

(** ** The threads of a pool *)

Definition idle (i : nat) (past : list (set_op * Z)) : state → Prop := know i ∅ past (λ _, True).
Definition executing (i : nat) (past : list (set_op * Z)) (op : set_op) (γ : state) : Prop :=
  of_thread i γ.(g_hist) = past ∨ ∃ r, of_thread i γ.(g_hist) = past ++ [(op, r)].

#[global] Instance stable_idle i past : Stable wf (gstep ∅) i (idle i past).
Proof. apply stable_know, _. Qed.
#[global] Instance stable_executing i past op : Stable wf (gstep ∅) i (executing i past op).
Proof.
  intros γ γ' j Hj Hwf [_ _ _ (H & HH & Hall)]. assert (of_thread i γ'.(g_hist) = of_thread i γ.(g_hist)) as Heq.
  { rewrite HH of_thread_app (of_thread_other i j H); [by rewrite app_nil_r | congruence | done]. }
  by rewrite /executing Heq.
Qed.
Lemma idle_executing i past op γ : idle i past γ → executing i past op γ.
Proof. intros (_ & Hh & _). by left. Qed.
Lemma effect_executing i past op γ γ' :
  executing i past op γ → gstep ∅ i γ γ' → one_effect i past op γ γ' → executing i past op γ'.
Proof. rewrite /executing. intros Hx _ [->|[_ ?]]; [done | by right]. Qed.

Abbreviation pool_ok := (Threads.pool_ok wf rep (gstep ∅) blocked (call_ok lo hi) idle executing one_effect).
Abbreviation thread_ok := (Threads.thread_ok wf rep (gstep ∅) blocked (call_ok lo hi) idle executing one_effect).

Lemma pool_explains γ c : pool_ok γ c → explains dict_op ∅ γ.(g_hist) c.
Proof.
  intros (Hwf & _ & Hts). split; [apply Hwf |]. intros i. specialize (Hts i).
  destruct (c.1 !! i) as [[past todo|past op p todo]|]; simpl in *.
  - by destruct Hts as [(_ & Hh & _) _].
  - by destruct Hts as [? _].
  - by destruct Hts as (_ & Hh & _).
Qed.

Lemma pool_next γ c c' :
  pool_ok γ c → tstep code c c' → ∃ γ', γ.(g_hist) `prefix_of` γ'.(g_hist) ∧ pool_ok γ' c'.
Proof.
  intros Hok Hs.
  destruct (pool_step wf rep (gstep ∅) blocked (gstep_wf ∅) code (call_ok lo hi) idle executing one_effect
    idle_executing effect_executing (t_code ∅ this rm lo hi nt fuel) γ c c' Hok Hs) as (γ' & Hg & Hok').
  exists γ'. split; [|done]. destruct Hg as [->|[i [_ _ _ (H & -> & _)]]]; [done | by apply prefix_app_r].
Qed.

Lemma pool_explained γ c cs : pool_ok γ c → run_of code c cs → explained dict_op ∅ γ.(g_hist) c cs.
Proof.
  revert γ c. induction cs as [|c' cs IH]; intros γ c Hok; simpl; [intros _; split; [by apply pool_explains | done] |].
  intros [Hs Hrun]. split; [by apply pool_explains |]. destruct (pool_next γ c c' Hok Hs) as (γ' & Hpre & Hok').
  exists γ'.(g_hist). split; [done | by apply IH].
Qed.

Lemma pool_reach γ c c' : pool_ok γ c → rtc (tstep code) c c' → ∃ γ', pool_ok γ' c'.
Proof.
  intros Hok Hr. revert γ Hok. induction Hr as [c|c1 c2 c3 Hs _ IH]; intros γ Hok; [by exists γ |].
  destruct (pool_next γ c1 c2 Hok Hs) as (γ' & _ & Hok'). by apply (IH γ').
Qed.

(** When no thread can go on, all have finished. *)
Lemma pool_finished γ c :
  pool_ok γ c → (∀ c', ¬ tstep code c c') → ¬ faults c OutOfFuel → finished c.
Proof.
  intros Hok Hno Hfuel. pose proof Hok as (Hwf & _ & Hts).
  assert (∀ i, (∃ past, c.1 !! i = Some (Idle past [])) ∨ c.1 !! i = None ∨ blocked i γ) as Hst.
  { intros i. eapply (pool_stuck wf rep (gstep ∅) blocked code (call_ok lo hi) idle executing one_effect effect_executing); done. }
  assert (∀ i, ¬ blocked i γ) as Hnb.
  { intros i Hb. destruct (not_all_blocked ∅ γ Hwf (ex_intro _ i Hb)) as (j & [x Hx] & Hj). specialize (Hts j).
    destruct (Hst j) as [[past Hi]|[Hi|?]]; [| |done]; rewrite Hi in Hts.
    - destruct Hts as [(HX & _) _]. by apply HX, not_elem_of_empty in Hx.
    - destruct Hts as (HX & _). by apply HX, not_elem_of_empty in Hx. }
  intros i t Hi. destruct (Hst i) as [[past Hi']|[Hi'|Hb]]; [exists past; congruence | congruence | by destruct (Hnb i)].
Qed.
End pool.

(** ** The new tree *)

Section start.
Context {OS : IOrderedSet} {Laws : OrderedSetLaws OS} {BLaws : BaseSetLaws OS} {Excl : ExclusiveSet OS}.
Context {R : RecordManager} {RLaws : SharedManagerLaws R}.

Definition start (b s : loc) : state :=
  State {[b := CaBase (BaseNode true (Some s) false 0 (-1) true NULL)]} {[s := (∅, b)]} ∅ ∅ (CBase b s ∅ 0) [].

Lemma start_wf b s : wf ∅ (start b s).
Proof.
  assert (∀ x n, (start b s).(g_nodes) !! x = Some n → x = b ∧ n = CaBase (BaseNode true (Some s) false 0 (-1) true NULL)) as Hb.
  { simpl. by intros x n [<- <-]%lookup_singleton_Some. }
  split; simpl; try done.
  - apply (graph_lookup (start b s) b (CaBase (BaseNode true (Some s) false 0 (-1) true NULL))). simpl. by rewrite lookup_singleton_eq.
  - apply NoDup_singleton.
  - by intros x [? ?].
  - by intros x n dir y [-> ->]%Hb _ [=].
  - intros x n [-> ->]%Hb. split; [done |]. split; [by intros _ [] |]. intros _. split_and!; [done | done |]. symmetry. apply bool_decide_true. by left.
  - intros l n ->%list_elem_of_singleton _ Hn. apply Hb in Hn as [_ [= ->]]. simpl. by rewrite lookup_singleton_eq.
Qed.

Lemma wp_new_shared n lo hi Q :
  (∀ this rm b s, rep this rm lo hi n (start b s) -∗ Q (Some this)) ⊢ wp (run (CA.newCATree n lo hi CA.AVL)) Q.
Proof.
  iIntros "HQ". rewrite /CA.newCATree /CA.initThread /Base.setOrderedSet. iApply wp_run_bind. iApply wp_run_atomic. iApply rm_new_shared. iIntros (rm) "Hrm".
  iApply wp_run_bind. iApply wp_run_atomic. iApply wp_new. iIntros (this) "Hthis". iApply wp_run_bind. cwp_step.
  iApply wp_run_atomic. iApply (rm_initThread_shared with "Hrm"). iIntros "Hrm".
  iApply wp_run_bind. iApply wp_run_atomic. iApply (rm_allocateBase_shared with "Hrm"). iIntros (b) "Hrm Hb".
  iApply wp_run_bind. iApply wp_run_atomic. iApply oset_new_law. iIntros (s) "Hs". do 2 cwp_step. iApply wp_run_ret.
  iApply ("HQ" $! this rm b s). rewrite /rep /store /=. iFrame. rewrite !big_sepM_singleton. by iFrame.
Qed.
End start.

(** The manager that reclaims nothing satisfies the laws. *)
#[global] Program Instance leak_laws {OS : IOrderedSet} : SharedManagerLaws LeakRM.manager := {|
  rm_shared r := r ↦ Limbo [];
|}%I.
Next Obligation. iIntros (OS n Q) "HQ". iApply wp_new. iIntros (r) "Hr". by iApply "HQ". Qed.
Next Obligation. iIntros (OS r tid Q) "Hr HQ". simpl. wp_step. by iApply "HQ". Qed.
Next Obligation. iIntros (OS r tid Q) "Hr HQ". simpl. wp_step. by iApply "HQ". Qed.
Next Obligation. iIntros (OS r tid Q) "Hr HQ". simpl. wp_step. by iApply "HQ". Qed.
Next Obligation. iIntros (OS r tid Q) "Hr HQ". iApply wp_new. iIntros (b). by iApply "HQ". Qed.
Next Obligation. iIntros (OS r tid Q) "Hr HQ". iApply wp_new. iIntros (b). by iApply "HQ". Qed.
Next Obligation. iIntros (OS r tid b Q) "Hr HQ". simpl. wp_step. by iApply "HQ". Qed.
Next Obligation. iIntros (OS r tid b Q) "Hr HQ". simpl. wp_step. by iApply "HQ". Qed.

(** ** Theorems *)

Section theorems.
Context (R : RecordManager) {RLaws : SharedManagerLaws R}.

(** Threads that have not called anything yet share a new tree. *)
Lemma start_ok n lo hi calls p h :
  run (CA.newCATree (OS := avl_oset) n lo hi CA.AVL) ∅ = Ok p h → Forall (Forall (call_ok lo hi)) calls →
  ∃ this rm γ, p = Some this ∧ γ.(g_hist) = [] ∧
    pool_ok (wf ∅) (rep (OS := avl_oset) this rm lo hi n) (gstep ∅) blocked (call_ok lo hi) idle executing one_effect γ (started calls, h).
Proof.
  intros Hrun Hok.
  assert (emp ⊢ wp (run (CA.newCATree (OS := avl_oset) n lo hi CA.AVL))
    (λ q, ∃ this rm b s, <affine> ⌜q = Some this⌝ ∗ rep (OS := avl_oset) this rm lo hi n (start b s)))%I as Hwp.
  { iIntros "_". iApply wp_new_shared. iIntros (this rm b s) "Hrep". iExists this, rm, b, s. by iFrame. }
  destruct (hoare_wp _ _ _ Hwp (∅ : heap) (∅ : heap)) as (q & h' & Hrun' & _ & Hpost); [apply map_disjoint_empty_l | done |].
  rewrite !map_union_empty in Hrun'. rewrite Hrun in Hrun'. injection Hrun' as <- <-.
  destruct Hpost as (this & rm & b & s & h1 & h2 & -> & _ & [Hemp ->] & Hrep). change (h1 = ∅) in Hemp. subst h1.
  rewrite map_empty_union. exists this, rm, (start b s). split; [done |]. split; [done |].
  split; [apply start_wf |]. split; [done |]. intros i. simpl. rewrite list_lookup_fmap.
  assert (idle i [] (start b s)) as Hidle by (split; [intros x; simpl; set_solver | done]).
  destruct (calls !! i) as [todo|] eqn:Hi; simpl; [|done]. split; [done |]. by eapply Forall_lookup_1.
Qed.

(** The reachable configurations. *)
Lemma reach_ok fuel n lo hi calls p h c :
  run (CA.newCATree (OS := avl_oset) n lo hi CA.AVL) ∅ = Ok p h → Forall (Forall (call_ok lo hi)) calls →
  rtc (tstep (ca_code (OS := avl_oset) fuel p)) (started calls, h) c →
  ∃ this rm γ, p = Some this ∧
    pool_ok (wf ∅) (rep (OS := avl_oset) this rm lo hi n) (gstep ∅) blocked (call_ok lo hi) idle executing one_effect γ c.
Proof.
  intros Hrun Hok Hr. destruct (start_ok n lo hi calls p h Hrun Hok) as (this & rm & γ & -> & _ & Hpool).
  destruct (pool_reach fuel this rm lo hi n γ _ _ Hpool Hr) as [γ' ?]. by exists this, rm, γ'.
Qed.




End theorems.

(** ** Runs *)

(** The calls of two threads, and a schedule in which the second finds the lock
    of the base node taken five times. *)
Definition demo_calls : list (list set_op) :=
  [[OpInsert 5 50; OpInsert 3 30; OpInsert 9 90; OpInsert 7 70; OpFind 5; OpFind 3; OpFind 9; OpFind 11; OpFind 3];
   [OpInsert 11 110; OpFind 5; OpErase 3; OpFind 3; OpInsert 5 55]].
Definition demo_round : list (nat * nat) := [(0, 10); (1, 1000); (0, 14); (1, 19)]%nat.
Definition demo_sched (n : nat) : list (nat * nat) := (0, 108)%nat :: concat (repeat demo_round n).
Definition demo_start : outcome ptr := run (CA.newCATree (OS := avl_oset) (R := LeakRM.manager) 2 1 100 CA.AVL) ∅.
Definition demo_this : ptr := match demo_start with Ok p _ => p | Fault _ => NULL end.
Definition demo_heap : heap := match demo_start with Ok _ h => h | Fault _ => ∅ end.
Definition demo_code : nat → set_op → prog Z := ca_code (OS := avl_oset) (R := LeakRM.manager) 10 demo_this.
Definition demo (sched : list (nat * nat)) : config set_op Z := play demo_code sched (started demo_calls, demo_heap).
Definition results (c : config set_op Z) : list (option (list Z)) :=
  (λ t, match t with Idle past [] => Some (snd <$> past) | _ => None end) <$> c.1.
Definition shape_at (c : config set_op Z) : option (list (Z + Z)) :=
  shape_of ((root ← demo_this ~> CA.root; shape 10 root) c.2).

Lemma demo_reached sched : rtc (tstep demo_code) (started demo_calls, demo_heap) (demo sched).
Proof. apply play_reaches. Qed.
Lemma demo_calls_ok : Forall (Forall (call_ok 1 100)) demo_calls.
Proof.
  repeat (apply Forall_cons_2; [repeat (apply Forall_cons_2; [cbv [call_ok invalid_key]; first [exact I | lia] |]); apply Forall_nil_2 |]).
  apply Forall_nil_2.
Qed.


(** ** Witnesses *)

